(* ===== verification/_CoqProject ===== *)
-Q . S2P
Prelude.v
CoreText.v
ReplayWindow.v
MultihopSession.v
PqSession.v
ExitReceive.v
PqKeepalive.v
ExitSeal.v
NatPmpProtocol.v
NatPmpAllocator.v
NatPmpTable.v
NatPmpPass.v
NatPmpRequest.v
NatPmpSystem.v
NatPmpGuarantees.v
NatPmpBackend.v
NatPmpServer.v
NatPmpClient.v
NatPmpEndToEnd.v
IpHoldings.v
IpPool.v
IpPoolInv.v
IpPoolGuarantees.v
IpPoolV6.v
Backoff.v
ConnectionLimiter.v
UdpHostility.v
IpPackets.v
Checksum.v
InnerMtu.v
IcmpErrors.v
StaleSource.v
EchoProbe.v
PathHealth.v
FlowKeys.v
Control.v
UplinkPump.v
Bond.v
PathProber.v
MigrationWatchdog.v
UplinkAccounting.v
UplinkSafety.v
UplinkIsolation.v
RouteTable.v
RouteInv.v
RouteDispatch.v
RouteReplies.v
RoutePatrol.v
ExitTransmit.v
Allowlist.v
StatusCodes.v
SessionRegistry.v
SessionLeases.v
WalletSessions.v
Tasks.v
ExitSetup.v
SetupGuarantees.v
Teardown.v
Revocation.v
EdgeHttp3.v
EdgeHuffman.v
EdgeQpack.v
Tokens.v
EdgeIngress.v
