(* ===== verification/Prelude.v ===== *)
(** * Verification of warrenguard

    Warrenguard is a multi-hop VPN: a client dials an exit through blind relays
    over QUIC, the exit terminates sealed frames, gives every session an inner
    address, forwards ports to it on request (NAT-PMP), and both sides defend
    themselves against replays, floods and networks that drop their traffic.
    This library models the parts of the program that decide those things and
    proves what makes them correct.  Definitions are executable and follow the
    Rust source, function by function and branch by branch, under the same
    names.

    ** Conventions

    - Integers are [Z] at their width: [in_width], [wrap] and the saturating and
      checked operations are written out where the source uses them.  Bytes are
      [Z] below 256; [be_bytes] is [to_be_bytes].
    - [Duration] and [Instant] are nanoseconds; every reading of the clock is an
      argument [now].
    - [Result] is [result]; a panic is [None], so that a function that indexes
      and returns an [Option] returns [option (option A)].  [HashMap] and
      [HashSet] are [gmap] and [gset]; their iteration order is that of
      [map_to_list], or a class ([HashOrder]) where the code depends on it.
    - Buffers are lists of bytes; reading a range is [slice], writing one is
      [splice], both [None] out of range.
    - Random draws are functions passed as arguments, constrained only to their
      documented range; the operating system's seed is an argument.
    - A critical section (a function body under one lock) is one function on the
      state it guards.  Interleavings of threads are sequences of such steps.
    - Callbacks of the deployer and third-party crates are arguments or type
      classes, with the laws their documentation states.

    ** The parts of the program and their files

    - [ReplayWindow] ([warrenguard-multihop/src/replay.rs]): the sliding
      anti-replay bitmap, word by word, with [check_and_record] and [check].
      The contract is a set of accepted sequence numbers ([repr]); the bitmap
      refines it, gives exactly the documented verdict and lets nothing through
      twice.
    - [CoreText]: the parts of [core::str] and of integer formatting the parsers
      call, with their round trips.
    - [MultihopSession] ([warrenguard-multihop/src/session.rs],
      [wire_format.rs], [errors.rs]): client and exit sessions over HPKE, the
      one-time key of each packet, rekeying with its overlap slot, and the frame
      codec.  The classes [Hpke] and [Postcard] are the third-party interfaces,
      [HpkeLaws] and [PostcardLaws] their documented laws, met by a toy suite.
      Shown: both directions work across rekeys, old answers open exactly during
      the overlap, and no two packets share a key derivation.
    - [ExitReceive] ([warrenguard-multihop-server/src/multihop.rs]): per-epoch
      windows, the session cache with its sweep, and the receive loops of all
      connections as events on shared state, the windows being a heap of shared
      objects.  Shown: what is handed on was authenticated, and at most once while
      its session is cached and its epoch is one of the newest four.
      [ExitSeal] adds the sending side: the session and sequence number each answer
      is sealed with, and when two answers share a key.
    - [PqSession], [PqKeepalive] ([warrenguard-multihop/src/xwing.rs],
      [pq_session.rs], [wire_format_v2.rs], and the cache of [multihop.rs]): the
      post-quantum sessions down to the primitives X-Wing combines ([PqCrypto],
      [PqCryptoLaws]), and how long the exit holds them.  Shown: both directions
      work across rekeys, and a session kept alive is found by its frames.
    - [NatPmpProtocol] ([warrenguard-natpmp-protocol/src/lib.rs]): the wire
      format of requests, responses and the credential trailer; round trips,
      bounds, and separation of the two directions.
    - [NatPmpAllocator] ([warrenguard-natpmp-server/src/allocator.rs] and the
      types of [lib.rs]): the port table [Inner], every method that changes it,
      and the request, which runs in passes under the lock and asks the
      deployer's callbacks between them.  Its theory is split by layer:
      [NatPmpTable] (the invariant of the table, expiry sweeps, what leaves the
      mappings alone), [NatPmpPass] (what one pass does, as [pass_shape]),
      [NatPmpRequest] (the loop: it ends within four passes, and the whole
      request as one pass with the deployer's answers), [NatPmpSystem] (any
      interleaving of critical sections, as the step relation [locked_step]:
      the invariant, and the quarantine of revoked ports, which a restore of
      saved mappings of the port alone breaks) and
      [NatPmpGuarantees] (what a client may rely on: no theft and the quota,
      each pass of a request running against the table other threads have left
      ([request_passes]); complete eviction reports, honoured suggestions,
      cooldown and quarantine, and what each refusal means).
    - [NatPmpBackend] ([nftables.rs] of the same crate): the backend that keeps
      the kernel's forwarding maps in step with the table, over the class of the
      process that runs [nft].  Shown: the kernel forwards what the table says,
      but for the elements whose last script failed or lost its answer, which the
      model tracks ([unsure]).
    - [NatPmpServer] ([server.rs], [stub_backend.rs]): one datagram from the
      source filter to the response, with the credential gate, the time bounds and
      the rollback, over any backend ([BackendLaws]).  Shown: it fails closed, and a
      request that changed the table and was not answered is one of the cases of
      [fate].
    - [NatPmpClient] ([warrenguard-natpmp-client/src/lib.rs], [refresh.rs]): a
      request with its retransmissions and the loop of a forward rule.  Shown: what
      the rule announces, releases and gives up, and that it lives.
      [NatPmpEndToEnd] runs it against [NatPmpServer] and shows that what it
      announces was granted by the exit at the visit that sent the answer.
    - [IpHoldings] (the [Holdings] of
      [warrenguard-multihop-server/src/ip_pool.rs]): the three maps that record
      which connection holds which address for which key, as a refinement of one
      map from connections to leases.
    - [IpPool], [IpPoolInv], [IpPoolGuarantees] (same source): the IPv4 pool with
      its SplitMix64 draws, sticky bindings, restart reclaim and address claims;
      the invariant, with the address just taken from the free list as an
      explicit debt ([PInvX]); and the guarantees over every reachable pool: one
      key per address, fresh sessions alone, claimed addresses, completeness of
      allocation, reconnects, the size of the sticky map.
    - [IpPoolV6] (same source): the IPv6 pool of interface ids.
    - [Backoff] ([warrenguard-backoff/src/lib.rs]): the jittered exponential
      schedule; every delay lies in its envelope and the schedule escalates
      whatever the base.
    - [ConnectionLimiter] ([warrenguard-ratelimit/src/connection_limiter.rs]):
      the keyed token bucket with its memory cap; a bound on the grants of a key
      in any window of time, by a potential argument that survives evictions.
    - [UdpHostility] ([warrenguard-tcp-fallback/src/hostility.rs]): the memory
      that makes the client dial its TCP carrier first.

    - [IpPackets], [Checksum], [InnerMtu], [IcmpErrors], [StaleSource],
      [EchoProbe], [FlowKeys] ([warrenguard-transport-core/src/ip_parse.rs],
      [inner_mtu.rs], [stale_source.rs], [icmp_probe.rs], [flow_hash.rs], and the
      flow keys of [warrenguard-multihop-server/src/datapath.rs]): everything the
      exit and the client do to the bytes of an inner packet.  Shown: no function
      panics, except the reported one; the incremental checksum is the recomputed
      one, and the MSS clamp keeps a checksum right exactly at even offsets; the
      ICMP errors and resets are well formed and are never answered themselves;
      probes round-trip; both directions of a flow have one key.
    - [Control] ([warrenguard-multihop/src/control.rs]): control messages and the
      classification of plaintexts; the serializer is the class
      [ControlPostcard].
    - [UplinkPump] ([warrenguard-multihop-server/src/datapath.rs],
      [metrics.rs], the receive loop of [multihop.rs]): the loop behind the replay
      check, one turn as [handle].  [UplinkAccounting] runs any number of pumps
      against the node's counters, the additions of a fold arriving one by one,
      and shows that every datagram is accounted for once they have;
      [UplinkSafety] that what reaches the TUN passed the gates; and
      [UplinkIsolation], with the pools of [IpPool] and [IpPoolV6], that no client
      reaches another through the exit.
    - [RouteTable] ([warrenguard-multihop-server/src/multihop.rs]): the downlink
      router of both families, the takeover re-check, the patrol and the reader of
      the TUN device, over channels, counters and flags that are shared objects.
      [RouteInv] gives the steps under the lock and the shape they keep,
      [RouteDispatch] the dispatch of a packet, [RouteReplies] that answers return
      to the connection that opened the flow, [RoutePatrol] that the patrol
      convicts only the dead.
    - [ExitTransmit] ([datapath.rs], the transmit loop of [multihop.rs]): what becomes
      of a packet the router hands to a connection.  Shown: no panic, what is sealed
      fits the budget or has a reason, and every packet is counted.
    - [Allowlist] ([warrenguard-server/src/allowlist.rs]): snapshots, deltas, revocation
      lists and the channel of revoked keys, an update as the accesses it makes.
      Shown: an update announces exactly what it takes away, generations only grow,
      and a delta leaves the handle as the snapshot it describes does.
    - [StatusCodes] ([warrenguard-multihop/src/route_admission.rs], [token_refusal.rs],
      [lease_refresh.rs], [warrenguard-multihop-server/src/metrics.rs]): codes on the
      wire and their counters.
    - [SessionRegistry] ([warrenguard-multihop-server/src/multihop.rs],
      [multihop/wallet.rs], [multihop/route.rs], [multihop/lease.rs]): live sessions,
      attribution of addresses, anchors, leases and wallet sessions, a method as its
      sections under a lock.  [SessionLeases] interleaves the sections and shows that
      no spent lease is forgotten and that the control plane is asked at most once per
      interval; [WalletSessions] that the deployer's count of wallet sessions is right.
    - [Tasks]: asynchronous functions as sequences of sections under a lock, with the
      steps of everything else between any two of them.  [ExitSetup]
      ([warrenguard-multihop-server/src/multihop.rs], [multihop/route.rs],
      [warrenguard-multihop/src/pop.rs]) writes the setup and the end of a connection as
      such tasks.  [SetupGuarantees] shows that only the authorized are served,
      [Teardown] that a connection leaves nothing behind but the route of an answer that
      could not be sent, [Revocation] that no connection outruns the revocation of its key.
    - [PathHealth], [PathProber] ([warrenguard-transport/src/path_health.rs]), [Bond]
      ([bundle.rs]), [MigrationWatchdog] ([migration_watchdog.rs]): the client's judgement
      of its paths.  Shown: the verdicts follow from the outcomes of the probes, a leg is
      named exactly when it failed, the bond routes by a plan made from its own readings,
      with the history of every thread that writes it, and the watchdog gives up a path
      only after its windows have passed without an answer.
    - [EdgeHttp3], [EdgeHuffman], [EdgeQpack], [EdgeIngress]
      ([warrenguard-edge/src]): the requests of a browser, from the bytes of a stream to
      the token and the target.  Shown: every spelling of a field section decodes, Huffman
      decoding is exactly the inverse of the code, a token header is read exactly when it
      presents the token, and targets round-trip.
    - [Tokens] ([warrenguard-token]): Privacy Pass tokens; what is issued verifies, and a
      wrong blind signature does not leave the issuer.

    How they meet: the packets [ExitReceive] hands on are the input of
    [UplinkPump], whose announcements are the [note_uplink] of [RouteTable];
    [FlowKeys] ties the two directions.  [ExitReceive] drives the sessions of [MultihopSession] and the
    windows of [ReplayWindow], whose specification it uses; the pools are built
    on [Holdings] through its lease map; the NAT-PMP layers each use only the
    shape lemma of the layer below, the server any backend that keeps
    [BackendLaws], which [NatPmpBackend] does.  A setup allocates from the pools, enters
    the registry and registers the routes of the components above; the verdicts of
    [PathProber] are the input of [Bond]; the token of [EdgeIngress] is parsed by
    [Tokens].

    ** Bounds

    - The request loop of the allocator is unbounded in the code; the model gives
      it four passes, and [allocate_terminates] shows that they are always enough,
      whatever other threads do in between: each question is asked once.
    - [pick_port] has the code's number of random tries and then walks the range.
    - [pop_random] inspects each free address at most once; the IPv6 draw has the
      code's 64 tries.
    - The trimming loop of the epoch windows gets the size of the map as fuel,
      and each turn removes one epoch ([trim_bounded]).
    - Folding the carries of a 32-bit sum takes at most two turns of the three it
      is given ([fold_carries_spec]); the walk over TCP options gets the length of
      the header and advances at each turn ([mss_loop_spec]).
    - The dispatch loop gets one attempt per sender and a last one: each retry
      removes a sender ([dispatch_delivers]).
    - The loops of the watchdog get the number of rounds that fit before their
      deadline, and those of the field section decoder the length of the section, each
      line taking a byte at least ([decode_returns]).

    ** Observations on the program

    - [quota_refusal_drops_mapping]: a request that moves a mapping drops it
      before the quota check can refuse the move.
    - [renewal_hops_after_sibling_release]: releasing one leg of a port makes the
      renewal of the other leg change ports.
    - [sticky_outlives_use]: IPv6 sticky bindings can outnumber the ids in use.
    - [answer_keys_repeat_across_connections]: a redirected frame makes two
      connections seal different answers under one key.
    - [replay_after_expiry]: a captured frame passes again once its session was idle
      for the lifetime of the cache entry.
    - [leases_accounted]: a serial presented again after its session moved to another
      joins that session, and its lease is lost.
    - [late_answer_crosses_sessions]: the verdict of an anchor call reaches the next
      session of the serial.
    - [anchor_call_on_a_lease_left]: an anchor call can name a lease its session left.
    - [old_epoch_replays]: beyond the kept epochs a frame passes repeatedly, not
      only once.
    - [clamp_checksum_exact]: an MSS option at an odd offset gets a wrong checksum.
    - [frag_needed_panics_exactly]: the packet-too-big report panics on some
      packets of at most nine bytes.
    - [capped_out_owner_stays], [capped_out_flow]: a channel given up at the cap
      leaves its learned flows behind, and nobody can learn them again.
    - [stale_flag_lingers]: a stale flag outlives the sharing of an address and
      sends the answers of a live connection to a newcomer.
    - [restore_reopens_revoked_port], [renewal_over_budget]: a restore looks neither at
      the quarantine of a port nor at the range.
    - [lost_restore_leaves_rule]: a restore whose script lost its answer may leave a rule
      without a mapping.
    - [crossed_answer_keeps_mapping], [late_renewal_drops_mapping]: a grant that crosses
      the deadline stays unannounced, and a late renewal closes a port in use.
    - [earlier_leg_left_behind], [pinned_port_substituted],
      [limited_rule_outlives_receiver], [failures_need_not_be_consecutive]: where the loop
      of a forward rule departs from its documentation.
    - [lost_answer_leaves_route], [revocation_unannounced], [torn_read_admits]: what the
      separate locks of setup and allowlist let through.
    - [forgery_shuts_out_client]: a relay can make the exit hold a session that opens
      nothing.
    - [three_clean_rounds_may_not_recover], [late_plan_forgets_verdict]: a change of
      verdict restarts the streak, and a late refresh of the plan puts an older one back.
    - [impossible_length_decodes], [signed_escape_decodes]: what the parsers of the edge
      let through.

    ** Not modelled

    The asynchronous loops around these parts (QUIC, TUN, UDP and process I/O), the
    client's supervisor and dialling, the relay, the single-hop server and the proxies,
    which move bytes between such loops; third-party cryptography, TLS and serialization,
    which are parameters; floating-point token buckets, whose verdicts are inputs; the
    events of the cover-traffic framework; the integration with operating systems;
    configuration and logging.  In [NatPmpBackend.restore] the slots that are granted while
    a script is awaited are not modelled. *)

From stdpp Require Export prelude gmap list.
From Stdlib Require Export ZArith Lia.

#[global] Open Scope Z_scope.

(** ** Fallible results *)

(** [Result<T, E>] of the Rust standard library. *)
Inductive result (A E : Type) : Type :=
| Ok (a : A)
| Err (e : E).
Arguments Ok {A E} a.
Arguments Err {A E} e.

Definition is_ok {A E} (r : result A E) : bool :=
  match r with Ok _ => true | Err _ => false end.

(** Hints of the development: frame conditions and preservation lemmas. *)
Create HintDb warren.

Declare Scope warren_scope.
Delimit Scope warren_scope with warren.
Notation "x <-? r ; k" :=
  (match r with Ok x => k | Err e => Err e end)
  (at level 100, r at next level, k at level 200, right associativity) : warren_scope.

(** ** Machine integers

    A [w]-bit unsigned integer is a [Z] in [0, 2^w). *)

Definition in_width (w x : Z) : Prop := 0 <= x < 2 ^ w.
Definition wrap (w x : Z) : Z := x mod 2 ^ w.
Definition u64_max : Z := 2 ^ 64 - 1.
Definition u32_max : Z := 2 ^ 32 - 1.
Definition u16_max : Z := 2 ^ 16 - 1.
Definition u8_max : Z := 2 ^ 8 - 1.

#[export] Instance in_width_dec w x : Decision (in_width w x).
Proof. unfold in_width. apply _. Defined.

Lemma wrap_in_width w x : 0 <= w -> in_width w (wrap w x).
Proof. intros. apply Z.mod_pos_bound. apply Z.pow_pos_nonneg; lia. Qed.

Lemma wrap_small w x : in_width w x -> wrap w x = x.
Proof. apply Z.mod_small. Qed.

(** A bit at or above the width of a value is clear. *)
Lemma testbit_above_width w x i : in_width w x -> 0 <= w <= i -> Z.testbit x i = false.
Proof.
  intros Hx Hi. rewrite <- (wrap_small w x Hx).
  unfold wrap. apply Z.mod_pow2_bits_high. lia.
Qed.

Lemma testbit_wrap w x i :
  0 <= i -> 0 <= w -> Z.testbit (wrap w x) i = (i <? w) && Z.testbit x i.
Proof.
  intros Hi Hw. unfold wrap. destruct (Z.ltb_spec i w).
  - rewrite Z.mod_pow2_bits_low by lia. done.
  - rewrite Z.mod_pow2_bits_high by lia. done.
Qed.

Lemma in_width_lor w x y :
  0 <= w -> in_width w x -> in_width w y -> in_width w (Z.lor x y).
Proof.
  intros Hw Hx Hy.
  assert (Z.lor x y = wrap w (Z.lor x y)) as ->; [|by apply wrap_in_width].
  apply Z.bits_inj'. intros i Hi.
  rewrite testbit_wrap, Z.lor_spec by lia.
  destruct (Z.ltb_spec i w); [done|].
  rewrite !(testbit_above_width w) by (done || lia). done.
Qed.

Lemma in_width_shiftr w x n : 0 <= n -> in_width w x -> in_width w (Z.shiftr x n).
Proof.
  unfold in_width. intros Hn Hx. rewrite Z.shiftr_div_pow2 by lia.
  assert (0 < 2 ^ n) by (apply Z.pow_pos_nonneg; lia).
  split; [apply Z.div_pos; lia|].
  apply Z.div_lt_upper_bound; [lia|]. nia.
Qed.

(** Quotient and remainder of a number given in mixed form. *)
Lemma div_mod_split n q k : 0 <= k < n -> (q * n + k) / n = q /\ (q * n + k) mod n = k.
Proof.
  intros Hk. split.
  - rewrite Z.div_add_l, Z.div_small by lia. lia.
  - rewrite Z.add_comm, Z.mod_add, Z.mod_small by lia. lia.
Qed.

(** ** Clock

    [Duration] and [Instant] are counts of nanoseconds; [Instant]s count from
    an arbitrary origin. *)

Definition NANOS_PER_SEC : Z := 1000000000.
Definition from_secs (s : Z) : Z := s * NANOS_PER_SEC.
Definition from_millis (ms : Z) : Z := ms * 1000000.

(** [Instant::duration_since], which saturates at zero. *)
Definition duration_since (now t : Z) : Z := Z.max 0 (now - t).

(** ** Network addresses

    An [Ipv4Addr] is its 32-bit value. *)

Definition ipv4 (a b c d : Z) : Z := ((a * 256 + b) * 256 + c) * 256 + d.

(** ** Bytes *)

Definition is_byte (b : Z) : Prop := in_width 8 b.
Definition all_bytes (bs : list Z) : Prop := Forall is_byte bs.

(** The bytes of an ASCII literal. *)
Definition bytes_of_string (s : String.string) : list Z :=
  (fun a => Z.of_N (Ascii.N_of_ascii a)) <$> String.list_ascii_of_string s.

(** [to_be_bytes] of an [n]-byte unsigned integer. *)
Fixpoint be_bytes (n : nat) (x : Z) : list Z :=
  match n with
  | O => []
  | S n' => be_bytes n' (x / 256) ++ [x mod 256]
  end.

(** [from_be_bytes]. *)
Definition be_val (bs : list Z) : Z := fold_left (fun acc b => acc * 256 + b) bs 0.

Lemma be_val_snoc bs b : be_val (bs ++ [b]) = be_val bs * 256 + b.
Proof. unfold be_val. by rewrite fold_left_app. Qed.

Lemma length_be_bytes n x : length (be_bytes n x) = n.
Proof. revert x; induction n; intros x; simpl; [done|]. rewrite length_app, IHn. simpl. lia. Qed.

Lemma be_val_be_bytes n x : in_width (8 * Z.of_nat n) x -> be_val (be_bytes n x) = x.
Proof.
  revert x; induction n as [|n IH]; intros x Hx.
  - unfold in_width in Hx. simpl in *. unfold be_val; simpl. lia.
  - cbn [be_bytes]. rewrite be_val_snoc, IH.
    + pose proof (Z.div_mod x 256). lia.
    + unfold in_width in *. replace (8 * Z.of_nat (S n)) with (8 * Z.of_nat n + 8) in Hx by lia.
      rewrite Z.pow_add_r in Hx by lia. change (2 ^ 8) with 256 in Hx.
      split; [apply Z.div_pos; lia|]. apply Z.div_lt_upper_bound; lia.
Qed.

Lemma be_bytes_all_bytes n x : all_bytes (be_bytes n x).
Proof.
  revert x; induction n as [|n IH]; intros x; simpl; [constructor|].
  apply Forall_app; split; [apply IH|]. constructor; [|constructor].
  apply (wrap_in_width 8). lia.
Qed.

Lemma be_val_bound bs : all_bytes bs -> in_width (8 * Z.of_nat (length bs)) (be_val bs).
Proof.
  induction bs as [|b bs IH] using rev_ind; intros Hb; [by vm_compute|].
  apply Forall_app in Hb as [Hbs Hb]. inversion_clear Hb as [|? ? Hb' _].
  rewrite be_val_snoc, length_app. specialize (IH Hbs).
  unfold in_width, is_byte in *. simpl.
  replace (8 * Z.of_nat (length bs + 1)) with (8 * Z.of_nat (length bs) + 8) by lia.
  rewrite Z.pow_add_r by lia. unfold in_width in Hb'. change (2 ^ 8) with 256 in *. lia.
Qed.

Lemma be_bytes_be_val bs : all_bytes bs -> be_bytes (length bs) (be_val bs) = bs.
Proof.
  induction bs as [|b bs IH] using rev_ind; intros Hb; [done|].
  apply Forall_app in Hb as [Hbs Hb]. inversion_clear Hb as [|? ? Hb' _].
  rewrite length_app, Nat.add_comm. cbn [length Nat.add be_bytes]. rewrite be_val_snoc.
  unfold is_byte, in_width in Hb'. change (2 ^ 8) with 256 in Hb'.
  rewrite Z.div_add_l, Z.div_small, Z.add_0_r, IH by (done || lia).
  by rewrite Z.add_comm, Z.mod_add, Z.mod_small by lia.
Qed.

(** ** Slices and panics

    A function that indexes returns [option]: [None] is the panic of an index or
    a slice out of range, [bs !! i] the indexing. *)

Definition slice (bs : list Z) (a b : nat) : option (list Z) :=
  if (a <=? b)%nat && (b <=? length bs)%nat then Some (take (b - a) (drop a bs)) else None.

Lemma slice_some bs a b :
  (a <= b)%nat -> (b <= length bs)%nat -> slice bs a b = Some (take (b - a) (drop a bs)).
Proof.
  intros Ha Hb. unfold slice. apply Nat.leb_le in Ha as ->. by apply Nat.leb_le in Hb as ->.
Qed.

Lemma length_slice bs a b s : slice bs a b = Some s -> length s = (b - a)%nat.
Proof.
  unfold slice. destruct (Nat.leb_spec a b), (Nat.leb_spec b (length bs)); simpl; try done.
  intros [= <-]. rewrite length_take, length_drop. lia.
Qed.

(** An index in range does not panic. *)
Lemma lookup_in_range (bs : list Z) i : (i < length bs)%nat -> exists x, bs !! i = Some x.
Proof. intros H. destruct (lookup_lt_is_Some_2 bs i H) as [x Hx]. eauto. Qed.

Lemma lookup_byte (bs : list Z) i x : all_bytes bs -> bs !! i = Some x -> 0 <= x < 256.
Proof. intros Hb Hx. eapply Forall_lookup_1 in Hb; [|done]. exact Hb. Qed.

Lemma slice_bytes bs a b s : all_bytes bs -> slice bs a b = Some s -> all_bytes s.
Proof.
  unfold slice. case_match; [|done]. intros Hb [= <-]. by apply Forall_take, Forall_drop.
Qed.

(** The high nibble, [b >> 4]. *)
Definition nibble (b : Z) : Z := Z.shiftr b 4.

(** [bs[a..a + n].copy_from_slice(new)], the bytes from index [a] replaced. *)
Definition splice (bs : list Z) (a : nat) (new : list Z) : option (list Z) :=
  if (a + length new <=? length bs)%nat
  then Some (take a bs ++ new ++ drop (a + length new) bs) else None.

Lemma length_splice bs a new bs' : splice bs a new = Some bs' -> length bs' = length bs.
Proof.
  unfold splice. destruct (Nat.leb_spec (a + length new) (length bs)); [|done]. intros [= <-].
  rewrite !length_app, length_take, length_drop. lia.
Qed.

(** Slices of concatenations and of slices. *)
Lemma slice_app_r l1 l2 n a b :
  length l1 = n -> slice (l1 ++ l2) (n + a) (n + b) = slice l2 a b.
Proof.
  intros <-. unfold slice. rewrite length_app.
  replace (length l1 + a <=? length l1 + b)%nat with (a <=? b)%nat by
    (destruct (Nat.leb_spec a b), (Nat.leb_spec (length l1 + a) (length l1 + b)); lia || done).
  replace (length l1 + b <=? length l1 + length l2)%nat with (b <=? length l2)%nat by
    (destruct (Nat.leb_spec b (length l2)), (Nat.leb_spec (length l1 + b) (length l1 + length l2)); lia || done).
  rewrite <- drop_drop, drop_app_length.
  by replace (length l1 + b - (length l1 + a))%nat with (b - a)%nat by lia.
Qed.

Lemma slice_slice bs i j a b s :
  slice bs i j = Some s -> (a <= b)%nat -> (i + b <= j)%nat ->
  slice s a b = slice bs (i + a) (i + b).
Proof.
  intros Hs Ha Hb. apply length_slice in Hs as Hl. unfold slice in Hs.
  destruct (Nat.leb_spec i j), (Nat.leb_spec j (length bs)); simplify_eq/=.
  rewrite !slice_some by lia. f_equal. rewrite skipn_firstn_comm, firstn_firstn, drop_drop.
  f_equal. lia.
Qed.

Lemma slice_lookup bs i j s k : slice bs i j = Some s -> (i + k < j)%nat -> s !! k = bs !! (i + k)%nat.
Proof.
  unfold slice. destruct (Nat.leb_spec i j), (Nat.leb_spec j (length bs)); try done.
  intros [= <-] Hk. by rewrite lookup_take_lt, lookup_drop by lia.
Qed.

(** ** Vectors *)

(** [Vec::swap_remove], in range. *)
Definition swap_remove {A} (l : list A) (i : nat) : list A :=
  match last l with
  | Some x => take (length l - 1) (<[i := x]> l)
  | None => l
  end.
