(* ===== verification/CoreText.v ===== *)
(** Text: the parts of [core::str] and of integer formatting that the parsers and printers
    of the development call.

    A [str] is the list of its code points, [as_bytes] its UTF-8 encoding; [utf8_step] is
    the decoder's step, a character or the bytes of one maximal ill-formed sequence. *)

From stdpp Require Import strings.
From S2P Require Import Prelude.
#[local] Open Scope Z_scope.

(** ** UTF-8 *)

Definition is_scalar (c : Z) : bool := ((0 <=? c) && (c <? 0xD800)) || ((0xE000 <=? c) && (c <? 0x110000)).

Definition utf8_char (c : Z) : list Z :=
  if c <? 0x80 then [c]
  else if c <? 0x800 then [0xC0 + c / 64; 0x80 + c mod 64]
  else if c <? 0x10000 then [0xE0 + c / 4096; 0x80 + c / 64 mod 64; 0x80 + c mod 64]
  else [0xF0 + c / 262144; 0x80 + c / 4096 mod 64; 0x80 + c / 64 mod 64; 0x80 + c mod 64].

Definition as_bytes (s : list Z) : list Z := s ≫= utf8_char.

Definition cont (b : Z) : bool := (0x80 <=? b) && (b <? 0xC0).

(** The second bytes that may follow a lead byte of three or four. *)
Definition second3 (b0 b1 : Z) : bool :=
  cont b1 && (negb (b0 =? 0xE0) || (0xA0 <=? b1)) && (negb (b0 =? 0xED) || (b1 <? 0xA0)).
Definition second4 (b0 b1 : Z) : bool :=
  cont b1 && (negb (b0 =? 0xF0) || (0x90 <=? b1)) && (negb (b0 =? 0xF4) || (b1 <? 0x90)).

Definition utf8_step (b0 : Z) (rest : list Z) : option Z * list Z :=
  if b0 <? 0x80 then (Some b0, rest)
  else if b0 <? 0xC2 then (None, rest)
  else if b0 <? 0xE0 then
    match rest with
    | b1 :: r1 => if cont b1 then (Some ((b0 - 0xC0) * 64 + (b1 - 0x80)), r1) else (None, rest)
    | [] => (None, rest)
    end
  else if b0 <? 0xF0 then
    match rest with
    | b1 :: r1 =>
        if second3 b0 b1 then
          match r1 with
          | b2 :: r2 =>
              if cont b2 then (Some ((b0 - 0xE0) * 4096 + (b1 - 0x80) * 64 + (b2 - 0x80)), r2) else (None, r1)
          | [] => (None, r1)
          end
        else (None, rest)
    | [] => (None, rest)
    end
  else if b0 <? 0xF5 then
    match rest with
    | b1 :: r1 =>
        if second4 b0 b1 then
          match r1 with
          | b2 :: r2 =>
              if cont b2 then
                match r2 with
                | b3 :: r3 =>
                    if cont b3
                    then (Some ((b0 - 0xF0) * 262144 + (b1 - 0x80) * 4096 + (b2 - 0x80) * 64 + (b3 - 0x80)), r3)
                    else (None, r2)
                | [] => (None, r2)
                end
              else (None, r1)
          | [] => (None, r1)
          end
        else (None, rest)
    | [] => (None, rest)
    end
  else (None, rest).

(** Every step takes a byte, so the length is fuel enough. *)
Fixpoint utf8_chunks (fuel : nat) (bytes : list Z) : list (option Z) :=
  match fuel, bytes with
  | S fuel, b0 :: rest => let '(c, rest) := utf8_step b0 rest in c :: utf8_chunks fuel rest
  | _, _ => []
  end.

Definition from_utf8 (bytes : list Z) : option (list Z) := mapM id (utf8_chunks (length bytes) bytes).
Definition from_utf8_lossy (bytes : list Z) : list Z := default 0xFFFD <$> utf8_chunks (length bytes) bytes.

(** ** [str] *)

(** The code points with the property [White_Space]. *)
Definition is_whitespace (c : Z) : bool :=
  ((9 <=? c) && (c <=? 13)) || bool_decide (c ∈ [0x20; 0x85; 0xA0; 0x1680; 0x2028; 0x2029; 0x202F; 0x205F; 0x3000]) ||
  ((0x2000 <=? c) && (c <=? 0x200A)).

Fixpoint trim_start_matches (p : Z -> bool) (s : list Z) : list Z :=
  match s with c :: s' => if p c then trim_start_matches p s' else s | [] => [] end.
Definition trim_end_matches (p : Z -> bool) (s : list Z) : list Z := rev (trim_start_matches p (rev s)).
Definition trim_matches (p : Z -> bool) (s : list Z) : list Z := trim_end_matches p (trim_start_matches p s).
Definition trim_start : list Z -> list Z := trim_start_matches is_whitespace.
Definition trim : list Z -> list Z := trim_matches is_whitespace.

Fixpoint split_once (p : Z -> bool) (s : list Z) : option (list Z * list Z) :=
  match s with
  | [] => None
  | c :: s => if p c then Some ([], s) else '(a, b) ← split_once p s; Some (c :: a, b)
  end.

Fixpoint split (c : Z) (s : list Z) : list (list Z) :=
  match s with
  | [] => [[]]
  | d :: s => if d =? c then [] :: split c s else match split c s with h :: t => (d :: h) :: t | [] => [[d]] end
  end.

Fixpoint strip_prefix (pre s : list Z) : option (list Z) :=
  match pre, s with
  | [], _ => Some s
  | p :: pre, c :: s => if p =? c then strip_prefix pre s else None
  | _ :: _, [] => None
  end.

Definition strip_suffix_char (c : Z) (s : list Z) : option (list Z) :=
  match rev s with d :: r => if d =? c then Some (rev r) else None | [] => None end.

Definition to_ascii_lowercase (c : Z) : Z := if (65 <=? c) && (c <=? 90) then c + 32 else c.
Definition eq_ignore_ascii_case (a b : list Z) : bool := bool_decide (to_ascii_lowercase <$> a = to_ascii_lowercase <$> b).
Definition is_ascii_alphanumeric (b : Z) : bool :=
  ((48 <=? b) && (b <=? 57)) || ((65 <=? b) && (b <=? 90)) || ((97 <=? b) && (b <=? 122)).

Fixpoint find_map {A B} (f : A -> option B) (l : list A) : option B :=
  match l with [] => None | a :: l => match f a with Some b => Some b | None => find_map f l end end.

(** ** Integers *)

Definition to_digit (radix c : Z) : option Z :=
  let d := if (48 <=? c) && (c <=? 57) then c - 48 else if (97 <=? c) && (c <=? 122) then c - 97 + 10
           else if (65 <=? c) && (c <=? 90) then c - 65 + 10 else radix in
  if d <? radix then Some d else None.

Fixpoint parse_digits (radix max : Z) (s : list Z) (acc : Z) : option Z :=
  match s with
  | [] => Some acc
  | c :: s => d ← to_digit radix c; let v := acc * radix + d in if max <? v then None else parse_digits radix max s v
  end.

(** [from_str_radix] of an unsigned type: one leading [+] is allowed. *)
Definition from_str_radix (radix max : Z) (s : list Z) : option Z :=
  match s with
  | [] => None
  | [c] => if (c =? 43) || (c =? 45) then None else parse_digits radix max s 0
  | c :: rest => if c =? 43 then parse_digits radix max rest 0 else parse_digits radix max s 0
  end.

(** [to_string] of an unsigned integer of at most [fuel] digits. *)
Fixpoint decimal (fuel : nat) (n : Z) : list Z :=
  match fuel with
  | O => []
  | S fuel => if n <? 10 then [48 + n] else decimal fuel (n / 10) ++ [48 + n mod 10]
  end.

(** ** UTF-8 is exact *)

#[local] Ltac Zify.zify_post_hook ::= Z.to_euclidean_division_equations.

Ltac decide_bounds :=
  repeat match goal with
  | |- context [?a <? ?b] => rewrite (proj2 (Z.ltb_lt a b)) by lia
  | |- context [?a <? ?b] => rewrite (proj2 (Z.ltb_ge a b)) by lia
  | |- context [?a <=? ?b] => rewrite (proj2 (Z.leb_le a b)) by lia
  | |- context [?a <=? ?b] => rewrite (proj2 (Z.leb_gt a b)) by lia
  | |- context [?a =? ?b] => rewrite (proj2 (Z.eqb_eq a b)) by lia
  | |- context [?a =? ?b] => rewrite (proj2 (Z.eqb_neq a b)) by lia
  end.

Lemma is_scalar_spec c : is_scalar c = true <-> 0 <= c < 0xD800 \/ 0xE000 <= c < 0x110000.
Proof. unfold is_scalar. rewrite orb_true_iff, !andb_true_iff, !Z.leb_le, !Z.ltb_lt. done. Qed.

Lemma cont_spec b : cont b = true <-> 0x80 <= b < 0xC0.
Proof. unfold cont. by rewrite andb_true_iff, Z.leb_le, Z.ltb_lt. Qed.

Lemma second3_spec b0 b1 : second3 b0 b1 = true <-> 0x80 <= b1 < 0xC0 /\ (b0 = 0xE0 -> 0xA0 <= b1) /\ (b0 = 0xED -> b1 < 0xA0).
Proof.
  unfold second3. rewrite !andb_true_iff, !orb_true_iff, !negb_true_iff, cont_spec, !Z.eqb_neq, Z.leb_le, Z.ltb_lt. lia.
Qed.

Lemma second4_spec b0 b1 : second4 b0 b1 = true <-> 0x80 <= b1 < 0xC0 /\ (b0 = 0xF0 -> 0x90 <= b1) /\ (b0 = 0xF4 -> b1 < 0x90).
Proof.
  unfold second4. rewrite !andb_true_iff, !orb_true_iff, !negb_true_iff, cont_spec, !Z.eqb_neq, Z.leb_le, Z.ltb_lt. lia.
Qed.

(** A character that was written is read back, whatever follows. *)
Lemma utf8_step_char c tail : is_scalar c = true ->
  exists b0 more, utf8_char c = b0 :: more /\ utf8_step b0 (more ++ tail) = (Some c, tail).
Proof.
  rewrite is_scalar_spec. intros Hc. unfold utf8_char.
  destruct (Z.ltb_spec c 0x80); [|destruct (Z.ltb_spec c 0x800); [|destruct (Z.ltb_spec c 0x10000)]];
    eexists _, _; (split; [reflexivity|]); cbn [app]; unfold utf8_step.
  - by decide_bounds.
  - decide_bounds. rewrite (proj2 (cont_spec _)) by lia. f_equal. f_equal. lia.
  - decide_bounds. rewrite (proj2 (second3_spec _ _)) by lia. rewrite (proj2 (cont_spec _)) by lia. f_equal. f_equal. lia.
  - decide_bounds. rewrite (proj2 (second4_spec _ _)) by lia. rewrite !(proj2 (cont_spec _)) by lia. f_equal. f_equal. lia.
Qed.

(** What is read as a character was its encoding. *)
Lemma utf8_step_ok b0 rest c tail : 0 <= b0 -> utf8_step b0 rest = (Some c, tail) ->
  is_scalar c = true /\ b0 :: rest = utf8_char c ++ tail.
Proof.
  intros Hb0. unfold utf8_step. rewrite is_scalar_spec.
  destruct (Z.ltb_spec b0 0x80); [|destruct (Z.ltb_spec b0 0xC2); [done|destruct (Z.ltb_spec b0 0xE0);
    [|destruct (Z.ltb_spec b0 0xF0); [|destruct (Z.ltb_spec b0 0xF5); [|done]]]]].
  - intros [= <- <-]. split; [lia|]. unfold utf8_char. by decide_bounds.
  - destruct rest as [|b1 r1]; [done|]. destruct (cont b1) eqn:E1; [|done]. apply cont_spec in E1.
    intros [= <- <-]. split; [lia|]. unfold utf8_char. decide_bounds. cbn [app]. repeat f_equal; lia.
  - destruct rest as [|b1 r1]; [done|]. destruct (second3 b0 b1) eqn:E1; [|done]. apply second3_spec in E1.
    destruct r1 as [|b2 r2]; [done|]. destruct (cont b2) eqn:E2; [|done]. apply cont_spec in E2.
    intros [= <- <-]. split; [lia|]. unfold utf8_char. decide_bounds. cbn [app]. repeat f_equal; lia.
  - destruct rest as [|b1 r1]; [done|]. destruct (second4 b0 b1) eqn:E1; [|done]. apply second4_spec in E1.
    destruct r1 as [|b2 r2]; [done|]. destruct (cont b2) eqn:E2; [|done]. apply cont_spec in E2.
    destruct r2 as [|b3 r3]; [done|]. destruct (cont b3) eqn:E3; [|done]. apply cont_spec in E3.
    intros [= <- <-]. split; [lia|]. unfold utf8_char. decide_bounds. cbn [app]. repeat f_equal; lia.
Qed.

Lemma utf8_chunks_encode s : forall fuel, Forall (fun c => is_scalar c = true) s -> (length (as_bytes s) <= fuel)%nat ->
  utf8_chunks fuel (as_bytes s) = Some <$> s.
Proof.
  induction s as [|c s IH]; intros fuel Hs Hf; [by destruct fuel|]. apply Forall_cons in Hs as [Hc Hs].
  unfold as_bytes in *. cbn [mbind list_bind] in *.
  destruct (utf8_step_char c (s ≫= utf8_char) Hc) as (b0 & more & He & Hstep). rewrite He in *. cbn [app length] in *.
  destruct fuel as [|fuel]; [lia|]. cbn [utf8_chunks]. rewrite Hstep. cbn [fmap list_fmap]. f_equal. apply IH; [done|].
  rewrite length_app in Hf. lia.
Qed.

Lemma from_utf8_as_bytes s : Forall (fun c => is_scalar c = true) s -> from_utf8 (as_bytes s) = Some s.
Proof.
  intros Hs. unfold from_utf8. rewrite utf8_chunks_encode by done.
  clear Hs. induction s as [|c s IH]; [done|]. cbn. cbn in IH. by rewrite IH.
Qed.

Lemma from_utf8_lossy_as_bytes s : Forall (fun c => is_scalar c = true) s -> from_utf8_lossy (as_bytes s) = s.
Proof.
  intros Hs. unfold from_utf8_lossy. rewrite utf8_chunks_encode by done. rewrite <- list_fmap_compose.
  by apply list_fmap_id.
Qed.

Lemma from_utf8_ok bytes s : all_bytes bytes -> from_utf8 bytes = Some s -> as_bytes s = bytes /\ Forall (fun c => is_scalar c = true) s.
Proof.
  unfold from_utf8. intros Hb. generalize (Nat.le_refl (length bytes)). generalize (length bytes) at 2 3. intros fuel.
  revert bytes s Hb. induction fuel as [|fuel IH]; intros bytes s Hb Hl.
  - destruct bytes; [|by apply Nat.nle_succ_0 in Hl]. cbn. by intros [= <-].
  - destruct bytes as [|b0 rest]; [cbn; by intros [= <-]|]. cbn [utf8_chunks]. destruct (utf8_step b0 rest) as [[c|] tail] eqn:E; [|done].
    apply Forall_cons in Hb as Hb'. destruct Hb' as [Hb0 Hr].
    apply utf8_step_ok in E as [Hc He]; [|unfold is_byte, in_width in Hb0; lia].
    cbn. destruct (mapM id (utf8_chunks fuel tail)) as [s'|] eqn:Em; [|done]. cbn. intros [= <-].
    rewrite He in Hb. apply Forall_app in Hb as [Hbc Hbt].
    apply IH in Em as [Ha Hs]; [|done|].
    + split; [|by constructor]. rewrite He, <- Ha. done.
    + apply (f_equal length) in He. rewrite length_app in He. cbn in He, Hl.
      assert (0 < length (utf8_char c))%nat by (unfold utf8_char; repeat case_match; simpl; lia). lia.
Qed.

Lemma as_bytes_bytes s : Forall (fun c => is_scalar c = true) s -> all_bytes (as_bytes s).
Proof.
  induction 1 as [|c s Hc _ IH]; [constructor|]. unfold as_bytes in *. rewrite bind_cons. apply Forall_app. split; [|done].
  apply is_scalar_spec in Hc. unfold utf8_char, is_byte, in_width. change (2 ^ 8) with 256.
  repeat (case_match; rewrite ?Z.ltb_lt, ?Z.ltb_ge in *); repeat (apply Forall_cons; split; [lia|]); apply Forall_nil_2.
Qed.

(** Text of ASCII characters is its own encoding. *)
Lemma as_bytes_ascii s : Forall (fun c => 0 <= c < 0x80) s -> as_bytes s = s /\ Forall (fun c => is_scalar c = true) s.
Proof.
  induction 1 as [|c s Hc _ [IH1 IH2]]; [done|]. split; [|constructor; [apply is_scalar_spec; lia|done]].
  unfold as_bytes in *. cbn [mbind list_bind]. rewrite IH1. unfold utf8_char. by decide_bounds.
Qed.

(** ** Splitting and trimming *)

Lemma trim_start_stays p s : (forall c, head s = Some c -> p c = false) -> trim_start_matches p s = s.
Proof. destruct s as [|c s]; [done|]. intros Hc. cbn [trim_start_matches]. by rewrite Hc. Qed.

Lemma trim_start_spec p s : exists pre, s = pre ++ trim_start_matches p s /\ Forall (fun c => p c = true) pre.
Proof.
  induction s as [|c s (pre & IH & Hp)]; [by exists []|]. cbn [trim_start_matches]. destruct (p c) eqn:E; [|by exists []].
  exists (c :: pre). split; [by rewrite IH at 1|by constructor].
Qed.

Lemma trim_start_all p s r : Forall (fun c => p c = true) s -> trim_start_matches p (s ++ r) = trim_start_matches p r.
Proof. induction 1 as [|c s Hc _ IH]; [done|]. cbn [app trim_start_matches]. by rewrite Hc. Qed.

Lemma trim_end_all p s r : Forall (fun c => p c = true) r -> trim_end_matches p (s ++ r) = trim_end_matches p s.
Proof. intros Hr. unfold trim_end_matches. rewrite rev_app_distr, trim_start_all; [done|]. by apply Forall_rev. Qed.

Lemma trim_end_stays p s r : (forall c, last s = Some c -> p c = false) -> s <> [] -> trim_end_matches p (s ++ r) = s ++ trim_end_matches p r.
Proof.
  intros Hl Hne. destruct s as [|d s _] using rev_ind; [done|]. specialize (Hl d (last_snoc _ _)). unfold trim_end_matches.
  rewrite rev_app_distr. generalize (rev r). intros u. induction u as [|c u IH].
  - rewrite rev_app_distr. cbn. rewrite Hl. cbn. by rewrite rev_involutive, app_nil_r.
  - cbn [app trim_start_matches]. destruct (p c); [exact IH|]. cbn [rev]. by rewrite rev_app_distr, rev_involutive, <- app_assoc.
Qed.

Lemma trim_end_spec p s : exists post, s = trim_end_matches p s ++ post /\ Forall (fun c => p c = true) post.
Proof.
  unfold trim_end_matches. destruct (trim_start_spec p (rev s)) as (pre & He & Hp). exists (rev pre). split; [|by apply Forall_rev].
  by rewrite <- rev_app_distr, <- He, rev_involutive.
Qed.

Lemma trim_spec p s : exists l r, s = l ++ trim_matches p s ++ r /\ Forall (fun c => p c = true) l /\ Forall (fun c => p c = true) r.
Proof.
  destruct (trim_start_spec p s) as (l & Hl & Hpl). destruct (trim_end_spec p (trim_start_matches p s)) as (r & Hr & Hpr).
  exists l, r. split; [|done]. unfold trim_matches. by rewrite <- Hr.
Qed.

(** What may be trimmed at the end makes no difference. *)
Lemma trim_app_all p s r : Forall (fun c => p c = true) r -> trim_matches p (s ++ r) = trim_matches p s.
Proof.
  intros Hr. unfold trim_matches. induction s as [|c s IH].
  - cbn [app trim_start_matches]. rewrite <- (app_nil_r r), trim_start_all by done. done.
  - cbn [app trim_start_matches]. destruct (p c); [done|]. by apply (trim_end_all p (c :: s)).
Qed.

Lemma trim_inner p l s r :
  Forall (fun c => p c = true) l -> Forall (fun c => p c = true) r -> Forall (fun c => p c = false) s -> trim_matches p (l ++ s ++ r) = s.
Proof.
  intros Hl Hr Hs. rewrite app_assoc, trim_app_all by done. unfold trim_matches. rewrite trim_start_all by done.
  rewrite trim_start_stays by (intros c Hc; apply head_Some_elem_of in Hc; by rewrite Forall_forall in Hs; apply Hs).
  destruct (decide (s = [])) as [->|Hne]; [done|]. rewrite <- (app_nil_r s) at 1. rewrite trim_end_stays; [by rewrite app_nil_r| |done].
  intros c Hc. apply last_Some_elem_of in Hc. rewrite Forall_forall in Hs. by apply Hs.
Qed.

Lemma split_once_at p a c b : Forall (fun d => p d = false) a -> p c = true -> split_once p (a ++ c :: b) = Some (a, b).
Proof.
  induction 1 as [|d a Hd _ IH]; intros Hc; cbn [app split_once]; [by rewrite Hc|]. rewrite Hd. cbn. by rewrite IH.
Qed.

Lemma split_once_none p s : Forall (fun d => p d = false) s -> split_once p s = None.
Proof. induction 1 as [|d a Hd _ IH]; cbn [split_once]; [done|]. rewrite Hd. cbn. by rewrite IH. Qed.

Lemma split_once_some p s a b : split_once p s = Some (a, b) -> Forall (fun d => p d = false) a /\ exists c, p c = true /\ s = a ++ c :: b.
Proof.
  revert a. induction s as [|d s IH]; intros a; cbn [split_once]; [done|]. destruct (p d) eqn:E.
  - intros [= <- <-]. split; [done|]. by exists d.
  - cbn. destruct (split_once p s) as [[a' b']|]; [|done]. cbn. intros [= <- <-]. destruct (IH a' eq_refl) as (Ha & c & Hc & ->).
    split; [by constructor|]. by exists c.
Qed.

Lemma split_single c s : Forall (fun d => d <> c) s -> split c s = [s].
Proof.
  induction 1 as [|d s Hd _ IH]; [done|]. cbn [split]. rewrite (proj2 (Z.eqb_neq d c) Hd). by rewrite IH.
Qed.

Lemma strip_prefix_app pre s : strip_prefix pre (pre ++ s) = Some s.
Proof. induction pre as [|p pre IH]; [by destruct s|]. cbn. by rewrite Z.eqb_refl. Qed.

Lemma strip_suffix_snoc c s : strip_suffix_char c (s ++ [c]) = Some s.
Proof. unfold strip_suffix_char. rewrite rev_app_distr. cbn. by rewrite Z.eqb_refl, rev_involutive. Qed.

(** ** Numbers read back *)

Lemma parse_digits_app radix max a : forall b acc, parse_digits radix max (a ++ b) acc = parse_digits radix max a acc ≫= parse_digits radix max b.
Proof.
  induction a as [|c a IH]; intros b acc; [done|]. cbn [app parse_digits]. destruct (to_digit radix c) as [d|]; [|done]. cbn [mbind option_bind].
  case_match; [done|]. apply IH.
Qed.

Lemma decimal_parses fuel : forall n max, 0 <= n <= max -> n < 10 ^ Z.of_nat fuel -> (0 < fuel)%nat ->
  parse_digits 10 max (decimal fuel n) 0 = Some n /\ Forall (fun c => 48 <= c <= 57) (decimal fuel n) /\ decimal fuel n <> [].
Proof.
  induction fuel as [|fuel IH]; intros n max Hn Hf H0; [lia|]. cbn [decimal].
  assert (Hdig : forall d, 0 <= d < 10 -> to_digit 10 (48 + d) = Some d).
  { intros d Hd. unfold to_digit. rewrite !(proj2 (Z.leb_le _ _)) by lia. cbn [andb]. rewrite (proj2 (Z.ltb_lt _ _)) by lia. f_equal. lia. }
  destruct (Z.ltb_spec n 10) as [Hs|Hl].
  - cbn [parse_digits]. rewrite Hdig by lia. cbn [mbind option_bind]. rewrite (proj2 (Z.ltb_ge _ _)) by lia.
    split; [by rewrite Z.mul_0_l, Z.add_0_l|]. split; [repeat constructor; lia|done].
  - rewrite Nat2Z.inj_succ, Z.pow_succ_r in Hf by lia. pose proof (Z.div_mod n 10 ltac:(lia)). pose proof (Z.mod_pos_bound n 10 ltac:(lia)).
    destruct (IH (n / 10) max) as (Hp & Hd & Hne); [split; [apply Z.div_pos|]; lia|apply Z.div_lt_upper_bound; lia|destruct fuel; cbn in *; lia|].
    rewrite parse_digits_app, Hp. cbn [mbind option_bind parse_digits]. rewrite Hdig by lia. cbn [mbind option_bind].
    rewrite (proj2 (Z.ltb_ge _ _)) by lia. split; [f_equal; lia|]. split; [|by intros [_ ?]%app_nil].
    apply Forall_app. split; [done|]. repeat constructor; lia.
Qed.

Lemma port_parses p : 0 <= p <= u16_max ->
  from_str_radix 10 u16_max (decimal 5 p) = Some p /\ Forall (fun c => 48 <= c <= 57) (decimal 5 p) /\ decimal 5 p <> [].
Proof.
  intros Hp. destruct (decimal_parses 5 p u16_max Hp) as (H1 & H2 & H3); [unfold u16_max in Hp; lia|lia|].
  split; [|done]. unfold from_str_radix. destruct (decimal 5 p) as [|c s]; [done|]. apply Forall_cons in H2 as [Hc _].
  rewrite !(proj2 (Z.eqb_neq c _)) by lia. by destruct s.
Qed.

(** A parsed integer is in range. *)
Lemma parse_digits_bound radix max s : forall acc v, 0 < radix -> 0 <= acc <= max -> parse_digits radix max s acc = Some v -> 0 <= v <= max.
Proof.
  induction s as [|c s IH]; intros acc v Hr Ha; cbn [parse_digits]; [by intros [= <-]|].
  destruct (to_digit radix c) as [d|] eqn:Ed; [|done]. cbn [mbind option_bind].
  destruct (Z.ltb_spec max (acc * radix + d)) as [|Hm]; [done|]. apply IH; [done|].
  assert (0 <= d) by (unfold to_digit in Ed; repeat case_match; rewrite ?andb_true_iff, ?Z.leb_le in *; simplify_eq; lia). nia.
Qed.

Lemma from_str_radix_bound radix max s v : 0 < radix -> 0 <= max -> from_str_radix radix max s = Some v -> 0 <= v <= max.
Proof.
  intros Hr Hm. unfold from_str_radix. repeat case_match; try done; apply parse_digits_bound; lia.
Qed.

(** ** Lists in a text *)

(** The pieces with [c] between them. *)
Fixpoint separated (c : Z) (ps : list (list Z)) : list Z :=
  match ps with [] => [] | [p] => p | p :: ps => p ++ c :: separated c ps end.

Lemma split_app c p s : Forall (fun d => d <> c) p -> split c (p ++ c :: s) = p :: split c s.
Proof.
  induction 1 as [|d p Hd _ IH]; cbn [app split]; [by rewrite Z.eqb_refl|]. rewrite (proj2 (Z.eqb_neq d c) Hd). by rewrite IH.
Qed.

Lemma split_separated c ps : Forall (Forall (fun d => d <> c)) ps -> ps <> [] -> split c (separated c ps) = ps.
Proof.
  induction 1 as [|p ps Hp _ IH]; [done|]. intros _. destruct ps as [|q ps]; [by apply split_single|].
  change (separated c (p :: q :: ps)) with (p ++ c :: separated c (q :: ps)). rewrite split_app by done. by rewrite IH.
Qed.

Lemma separated_split c s : separated c (split c s) = s /\ Forall (Forall (fun d => d <> c)) (split c s) /\ split c s <> [].
Proof.
  induction s as [|d s (IH1 & IH2 & IH3)]; [split_and!; by repeat constructor|]. cbn [split]. destruct (Z.eqb_spec d c) as [->|Hd].
  - split_and!; [|by constructor|done]. destruct (split c s); [done|]. cbn [separated app] in *. by rewrite IH1.
  - destruct (split c s) as [|h t]; [done|]. apply Forall_cons in IH2 as [Hh Ht].
    split_and!; [|repeat constructor; done|done]. rewrite <- IH1. by destruct t.
Qed.

Lemma find_map_some {A B} (f : A -> option B) l b :
  find_map f l = Some b <-> exists before a after, l = before ++ a :: after /\ Forall (fun x => f x = None) before /\ f a = Some b.
Proof.
  split.
  - induction l as [|a l IH]; cbn [find_map]; [done|]. destruct (f a) as [b'|] eqn:E.
    + intros [= <-]. by exists [], a, l.
    + intros (before & a' & after & -> & Hb & Ha)%IH. exists (a :: before), a', after. split; [done|]. split; [by constructor|done].
  - intros (before & a & after & -> & Hb & Ha). induction Hb as [|x before Hx _ IH]; cbn [app find_map]; [by rewrite Ha|]. by rewrite Hx.
Qed.

(** Letters in either case. *)
Definition letter (c : Z) : Prop := 65 <= c <= 90 \/ 97 <= c <= 122.

Lemma eq_ignore_case_letters a b : eq_ignore_ascii_case a b = true -> Forall letter b -> Forall letter a /\ length a = length b.
Proof.
  unfold eq_ignore_ascii_case. rewrite bool_decide_eq_true. revert b.
  induction a as [|c a IH]; intros [|d b]; try done. cbn. intros [= Hc He] [Hd Hb]%Forall_cons. destruct (IH b He Hb) as [Ha ->].
  split; [|done]. constructor; [|done]. unfold to_ascii_lowercase, letter in *.
  repeat (case_match; rewrite ?andb_true_iff, ?andb_false_iff, ?Z.leb_le, ?Z.leb_gt in * ); lia.
Qed.

Lemma letter_not_whitespace c : letter c -> is_whitespace c = false.
Proof.
  intros Hc. assert (Hall : forallb (fun c => negb (is_whitespace c)) (seqZ 65 58) = true) by (vm_compute; reflexivity).
  rewrite forallb_forall in Hall. apply negb_true_iff, Hall, list_elem_of_In, elem_of_seqZ. unfold letter in Hc. lia.
Qed.
