(* ===== verification/ReplayWindow.v ===== *)
(** Anti-replay sliding window of the multi-hop receiver
    ([crates/warrenguard-multihop/src/replay.rs]).

    [ReplayWindow] models the Rust type word by word: sixteen 64-bit words,
    the two-stage left shift with its carry, and the two entry points
    [check] and [check_and_record].  [Spec] is the contract: the set of every
    sequence number accepted so far.  [repr] relates the two, and the
    theorems show that the bitmap refines the set. *)

From S2P Require Import Prelude.

Module ReplayWindow.

Definition REPLAY_WINDOW_SIZE : Z := 1024.
Definition WINDOW_SIZE : Z := REPLAY_WINDOW_SIZE.
Definition BITMAP_WORDS : nat := 16.

(** The one variant of [MultihopError] this module returns. *)
Inductive MultihopError :=
| Replay (seq epoch : Z).

Record t := mk {
  highest : option Z;
  bitmap : list Z;
}.

(** [bitmap[k]].  Every index the code computes is below [BITMAP_WORDS]
    (see [index_in_bounds]), so the default is never reached. *)
Definition word_at (bm : list Z) (k : nat) : Z := default 0 (bm !! k).

Definition new : t := mk None (replicate BITMAP_WORDS 0).

Definition set_bit (bm : list Z) (offset : Z) : list Z :=
  let word := Z.to_nat (offset / 64) in
  let bit := offset mod 64 in
  alter (fun w => Z.lor w (wrap 64 (Z.shiftl 1 bit))) word bm.

Definition get_bit (bm : list Z) (offset : Z) : bool :=
  let word := Z.to_nat (offset / 64) in
  let bit := offset mod 64 in
  Z.land (Z.shiftr (word_at bm word) bit) 1 =? 1.

(** The whole-word stage of [shift_left]: destination [i] takes source
    [i - word_shift], or zero when the subtraction underflows. *)
Definition move_words (bm : list Z) (word_shift : nat) : list Z :=
  (fun i => if (word_shift <=? i)%nat then word_at bm (i - word_shift)%nat else 0)
    <$> seq 0 BITMAP_WORDS.

(** The sub-word stage of [shift_left]: the loop over the words with its
    running carry. *)
Fixpoint shift_words (bit_shift carry : Z) (ws : list Z) : list Z :=
  match ws with
  | [] => []
  | w :: ws' =>
      Z.lor (wrap 64 (Z.shiftl w bit_shift)) carry
        :: shift_words bit_shift (Z.shiftr w (64 - bit_shift)) ws'
  end.

Definition shift_left (bm : list Z) (shift : Z) : list Z :=
  if WINDOW_SIZE <=? shift then replicate BITMAP_WORDS 0
  else
    let word_shift := Z.to_nat (shift / 64) in
    let bit_shift := shift mod 64 in
    let new_bitmap := move_words bm word_shift in
    if bit_shift =? 0 then new_bitmap else shift_words bit_shift 0 new_bitmap.

Definition check_and_record (w : t) (seq epoch : Z) : t * result unit MultihopError :=
  match highest w with
  | None => (mk (Some seq) (set_bit (bitmap w) 0), Ok tt)
  | Some highest =>
      if highest <? seq then
        let shift := seq - highest in
        (mk (Some seq) (set_bit (shift_left (bitmap w) shift) 0), Ok tt)
      else
        let offset := highest - seq in
        if WINDOW_SIZE <=? offset then (w, Err (Replay seq epoch))
        else if get_bit (bitmap w) offset then (w, Err (Replay seq epoch))
        else (mk (Some highest) (set_bit (bitmap w) offset), Ok tt)
  end.

Definition check (w : t) (seq epoch : Z) : result unit MultihopError :=
  match highest w with
  | None => Ok tt
  | Some highest =>
      if highest <? seq then Ok tt
      else
        let offset := highest - seq in
        if WINDOW_SIZE <=? offset then Err (Replay seq epoch)
        else if get_bit (bitmap w) offset then Err (Replay seq epoch)
        else Ok tt
  end.

(** A receiver feeding a whole sequence of authenticated frames through the
    window: the sequence numbers it lets through, oldest first. *)
Fixpoint accepted (w : t) (seqs : list Z) (epoch : Z) : list Z :=
  match seqs with
  | [] => []
  | s :: seqs' =>
      let '(w', r) := check_and_record w s epoch in
      if is_ok r then s :: accepted w' seqs' epoch else accepted w' seqs' epoch
  end.

(** ** The bitmap, bit by bit *)

Definition wf_bitmap (bm : list Z) : Prop :=
  length bm = BITMAP_WORDS /\ Forall (in_width 64) bm.

(** Bit [i] of the 1024-bit map. *)
Definition bit_at (bm : list Z) (i : Z) : bool :=
  Z.testbit (word_at bm (Z.to_nat (i / 64))) (i mod 64).

Lemma wf_bitmap_total (bm : list Z) k : wf_bitmap bm -> in_width 64 (word_at bm k).
Proof.
  intros [_ Hf]. unfold word_at.
  destruct (bm !! k) as [w|] eqn:E; simpl; [|by vm_compute].
  by eapply Forall_lookup_1 in Hf.
Qed.

Lemma wf_zero : wf_bitmap (replicate BITMAP_WORDS 0).
Proof. split; [done|]. apply Forall_replicate. by vm_compute. Qed.

Lemma bit_at_zero i : bit_at (replicate BITMAP_WORDS 0) i = false.
Proof.
  unfold bit_at. unfold word_at.
  destruct (replicate _ _ !! _) as [w|] eqn:E; simpl; [|by rewrite Z.testbit_0_l].
  apply lookup_replicate in E as [-> _]. by rewrite Z.testbit_0_l.
Qed.

Lemma get_bit_spec bm i : get_bit bm i = bit_at bm i.
Proof.
  unfold get_bit, bit_at. set (w := word_at bm _). set (n := i mod 64).
  assert (0 <= n) by (apply Z.mod_pos_bound; lia).
  rewrite (Z.land_ones _ 1), <- Z.bit0_mod, Z.shiftr_spec, Z.add_0_l by lia.
  by destruct (Z.testbit w n).
Qed.

Lemma wf_set_bit bm i : wf_bitmap bm -> wf_bitmap (set_bit bm i).
Proof.
  intros [Hl Hf]. split; unfold set_bit; [by rewrite length_alter|].
  apply Forall_alter; [done|]. intros w _ Hw.
  apply in_width_lor; [lia|done|]. apply wrap_in_width. lia.
Qed.

Lemma testbit_set_mask j k :
  0 <= j < 64 -> 0 <= k -> Z.testbit (wrap 64 (Z.shiftl 1 j)) k = (k =? j).
Proof.
  intros Hj Hk. rewrite testbit_wrap, Z.shiftl_spec by lia.
  destruct (Z.eqb_spec k j) as [->|Hne].
  - rewrite Z.sub_diag. destruct (Z.ltb_spec j 64); [done|lia].
  - destruct (Z.testbit 1 (k - j)) eqn:E; [|apply andb_false_r].
    destruct (Z.lt_trichotomy (k - j) 0) as [?|[?|?]]; [|lia|].
    + by rewrite Z.testbit_neg_r in E.
    + by rewrite (testbit_above_width 1) in E by (unfold in_width; lia).
Qed.

Lemma bit_at_set_bit bm i j :
  wf_bitmap bm -> 0 <= i < WINDOW_SIZE -> 0 <= j ->
  bit_at (set_bit bm i) j = (j =? i) || bit_at bm j.
Proof.
  intros [Hl _] Hi Hj. unfold bit_at, set_bit.
  assert (Hm : 0 <= i mod 64 < 64) by (apply Z.mod_pos_bound; lia).
  assert (Hn : 0 <= j mod 64 < 64) by (apply Z.mod_pos_bound; lia).
  pose proof (Z.div_mod i 64 ltac:(lia)). pose proof (Z.div_mod j 64 ltac:(lia)).
  assert (0 <= i / 64 < 16) by (unfold WINDOW_SIZE, REPLAY_WINDOW_SIZE in *; lia).
  unfold word_at.
  destruct (decide (i / 64 = j / 64)) as [Heq|Hne].
  - rewrite <- Heq, list_lookup_alter_eq.
    destruct (lookup_lt_is_Some_2 bm (Z.to_nat (i / 64))) as [w Hw].
    { rewrite Hl. unfold BITMAP_WORDS. lia. }
    rewrite Hw. simpl. rewrite Z.lor_spec, testbit_set_mask by lia.
    rewrite orb_comm. f_equal.
    destruct (Z.eqb_spec (j mod 64) (i mod 64)), (Z.eqb_spec j i); try done; lia.
  - rewrite list_lookup_alter_ne by (intros ?; apply Hne; lia).
    destruct (Z.eqb_spec j i); [congruence|done].
Qed.

(** ** The shift *)

Lemma lookup_move_words bm s k :
  (k < BITMAP_WORDS)%nat ->
  word_at (move_words bm s) k = if (s <=? k)%nat then word_at bm (k - s)%nat else 0.
Proof.
  intros Hk. unfold move_words.
  unfold word_at; rewrite list_lookup_fmap, lookup_seq_lt by done. done.
Qed.

Lemma wf_move_words bm s : wf_bitmap bm -> wf_bitmap (move_words bm s).
Proof.
  intros Hbm. split; [by unfold move_words; rewrite length_fmap, length_seq|].
  apply Forall_fmap, Forall_true. intros i. simpl.
  destruct (_ <=? _)%nat; [by apply wf_bitmap_total|by vm_compute].
Qed.

Lemma length_shift_words bs c ws : length (shift_words bs c ws) = length ws.
Proof. revert c; induction ws; intros c; simpl; [done|]. by rewrite IHws. Qed.

(** Word [k] after the carry loop: its own bits moved up, plus the bits
    carried out of the word below. *)
Lemma lookup_shift_words bs ws c k :
  (k < length ws)%nat ->
  word_at (shift_words bs c ws) k =
    Z.lor (wrap 64 (Z.shiftl (word_at ws k) bs))
          (match k with O => c | S k' => Z.shiftr (word_at ws k') (64 - bs) end).
Proof.
  unfold word_at. revert c k; induction ws as [|w ws IH]; intros c k Hk; simpl in *; [lia|].
  destruct k as [|k]; [done|]. simpl.
  rewrite (IH _ k) by lia. by destruct k.
Qed.

Lemma wf_shift_words bs c ws :
  0 < bs < 64 -> in_width 64 c -> Forall (in_width 64) ws ->
  Forall (in_width 64) (shift_words bs c ws).
Proof.
  intros Hbs Hc Hw; revert c Hc; induction Hw as [|w ws Hw _ IH]; intros c Hc; simpl;
    constructor.
  - apply in_width_lor; [lia| |done]. apply wrap_in_width. lia.
  - apply IH. apply in_width_shiftr; [lia|done].
Qed.

Lemma testbit_shift_word w v bs j :
  0 < bs < 64 -> 0 <= j < 64 -> in_width 64 v ->
  Z.testbit (Z.lor (wrap 64 (Z.shiftl w bs)) (Z.shiftr v (64 - bs))) j =
    if bs <=? j then Z.testbit w (j - bs) else Z.testbit v (j + 64 - bs).
Proof.
  intros Hbs Hj Hv.
  rewrite Z.lor_spec, testbit_wrap, Z.shiftl_spec, Z.shiftr_spec by lia.
  replace (j <? 64) with true by (symmetry; apply Z.ltb_lt; lia). simpl.
  destruct (Z.leb_spec bs j).
  - rewrite (testbit_above_width 64 v) by (done || lia). apply orb_false_r.
  - rewrite Z.testbit_neg_r by lia. simpl. f_equal. lia.
Qed.

Lemma wf_shift_left bm s : 0 <= s -> wf_bitmap bm -> wf_bitmap (shift_left bm s).
Proof.
  intros Hs Hbm. unfold shift_left. destruct (_ <=? _); [apply wf_zero|].
  pose proof (wf_move_words bm (Z.to_nat (s / 64)) Hbm) as [Hl Hf].
  destruct (Z.eqb_spec (s mod 64) 0); [done|].
  pose proof (Z.mod_pos_bound s 64).
  split; [by rewrite length_shift_words|].
  apply wf_shift_words; [lia|by vm_compute|done].
Qed.

(** Sub-word stage on a well-formed map, at the level of bits: a shift by
    [bs] bits. *)
Lemma bit_at_shift_words bm bs i :
  wf_bitmap bm -> 0 < bs < 64 -> 0 <= i < WINDOW_SIZE ->
  bit_at (shift_words bs 0 bm) i = if i <? bs then false else bit_at bm (i - bs).
Proof.
  intros Hbm Hbs Hi. unfold bit_at, WINDOW_SIZE, REPLAY_WINDOW_SIZE in *.
  pose proof (Z.div_mod i 64 ltac:(lia)) as Hdm.
  assert (Hm : 0 <= i mod 64 < 64) by (apply Z.mod_pos_bound; lia).
  set (q := i / 64) in *. set (r := i mod 64) in *.
  rewrite lookup_shift_words.
  2:{ destruct Hbm as [-> _]. unfold BITMAP_WORDS. lia. }
  pose proof (div_mod_split 64 q) as Hdiv.
  destruct (Z.to_nat q) as [|p] eqn:Ep.
  - assert (q = 0) as Hq by lia.
    rewrite <- (Z.shiftr_0_l (64 - bs)), testbit_shift_word by (lia || by vm_compute).
    destruct (Z.ltb_spec i bs), (Z.leb_spec bs r); try lia; [by rewrite Z.testbit_0_l|].
    destruct (Hdiv (r - bs) ltac:(lia)) as [H1 H2].
    replace (i - bs) with (q * 64 + (r - bs)) by lia.
    rewrite H1, H2, Hq. done.
  - rewrite testbit_shift_word by (lia || by apply wf_bitmap_total).
    destruct (Z.ltb_spec i bs); [lia|].
    destruct (Z.leb_spec bs r).
    + destruct (Hdiv (r - bs) ltac:(lia)) as [H1 H2].
      replace (i - bs) with (q * 64 + (r - bs)) by lia. by rewrite H1, H2, Ep.
    + replace (i - bs) with ((q - 1) * 64 + (r + 64 - bs)) by lia.
      destruct (div_mod_split 64 (q - 1) (r + 64 - bs) ltac:(lia)) as [H1 H2].
      rewrite H1, H2. by replace (Z.to_nat (q - 1)) with p by lia.
Qed.

Lemma bit_at_move_words bm s i :
  0 <= s -> 0 <= i < WINDOW_SIZE ->
  bit_at (move_words bm (Z.to_nat s)) i = if i <? 64 * s then false else bit_at bm (i - 64 * s).
Proof.
  intros Hs Hi. unfold bit_at, WINDOW_SIZE, REPLAY_WINDOW_SIZE in *.
  pose proof (Z.div_mod i 64 ltac:(lia)) as Hdm.
  assert (Hm : 0 <= i mod 64 < 64) by (apply Z.mod_pos_bound; lia).
  rewrite lookup_move_words by (unfold BITMAP_WORDS; lia).
  destruct (Nat.leb_spec (Z.to_nat s) (Z.to_nat (i / 64))), (Z.ltb_spec i (64 * s)); try lia.
  - replace (i - 64 * s) with (i + (- s) * 64) by lia.
    rewrite Z.div_add, Z.mod_add by lia. by replace (Z.to_nat (i / 64) - Z.to_nat s)%nat
      with (Z.to_nat (i / 64 + - s)) by lia.
  - by rewrite Z.testbit_0_l.
Qed.

(** The two-stage shift is a shift of the 1024-bit map. *)
Lemma bit_at_shift_left bm s i :
  wf_bitmap bm -> 0 <= s -> 0 <= i < WINDOW_SIZE ->
  bit_at (shift_left bm s) i = if i <? s then false else bit_at bm (i - s).
Proof.
  intros Hbm Hs Hi. unfold shift_left.
  destruct (Z.leb_spec WINDOW_SIZE s) as [Hw|Hw].
  { rewrite bit_at_zero. destruct (Z.ltb_spec i s); [done|lia]. }
  pose proof (Z.div_mod s 64 ltac:(lia)). pose proof (Z.mod_pos_bound s 64 ltac:(lia)).
  assert (0 <= s / 64) by (apply Z.div_pos; lia).
  destruct (Z.eqb_spec (s mod 64) 0) as [Hz|Hz].
  - rewrite bit_at_move_words by done. by replace (64 * (s / 64)) with s by lia.
  - rewrite bit_at_shift_words by (try apply wf_move_words; done || lia).
    destruct (Z.ltb_spec i (s mod 64)).
    { destruct (Z.ltb_spec i s); [done|lia]. }
    rewrite bit_at_move_words by lia.
    destruct (Z.ltb_spec (i - s mod 64) (64 * (s / 64))), (Z.ltb_spec i s); try lia; try done.
    f_equal. lia.
Qed.

(** Every word index used while looking at an offset inside the window is a
    valid index of the bitmap, so no bitmap access panics. *)
Lemma index_in_bounds bm offset :
  wf_bitmap bm -> 0 <= offset < WINDOW_SIZE -> (Z.to_nat (offset / 64) < length bm)%nat.
Proof.
  intros [-> _] Ho. unfold WINDOW_SIZE, REPLAY_WINDOW_SIZE, BITMAP_WORDS in *.
  pose proof (Z.div_mod offset 64 ltac:(lia)). pose proof (Z.mod_pos_bound offset 64 ltac:(lia)). lia.
Qed.

(** ** The contract

    [seen] is the set of every sequence number accepted so far.  A number is
    acceptable when it was never accepted and no accepted number is
    [WINDOW_SIZE] or more ahead of it. *)

Definition acceptable (seen : gset Z) (seq : Z) : Prop :=
  (seq ∉ seen) /\ set_Forall (fun x => x - seq < WINDOW_SIZE) seen.

#[export] Instance acceptable_dec seen seq : Decision (acceptable seen seq).
Proof. unfold acceptable. apply _. Defined.

(** The window [w] represents the history [seen]. *)
Definition repr (w : t) (seen : gset Z) : Prop :=
  wf_bitmap (bitmap w) /\
  match highest w with
  | None => seen = ∅ /\ bitmap w = replicate BITMAP_WORDS 0
  | Some h =>
      (h ∈ seen) /\ set_Forall (fun x => x <= h) seen /\
      forall i, 0 <= i < WINDOW_SIZE -> bit_at (bitmap w) i = bool_decide (h - i ∈ seen)
  end.

Lemma repr_new : repr new ∅.
Proof. split; [apply wf_zero|done]. Qed.

Lemma repr_advance bm h seen seq :
  repr (mk (Some h) bm) seen -> h < seq ->
  acceptable seen seq /\
  repr (mk (Some seq) (set_bit (shift_left bm (seq - h)) 0)) ({[seq]} ∪ seen).
Proof.
  intros [Hwf (Hh & Hle & Hbits)] Hlt. simpl in *.
  assert (Hle' : forall x, x ∈ seen -> x <= h) by done.
  assert (Hwf' : wf_bitmap (shift_left bm (seq - h))) by (apply wf_shift_left; [lia|done]).
  repeat split.
  - intros Hin. specialize (Hle' _ Hin). lia.
  - intros x Hx. specialize (Hle' _ Hx). unfold WINDOW_SIZE, REPLAY_WINDOW_SIZE. lia.
  - by apply wf_set_bit.
  - by apply wf_set_bit.
  - set_solver.
  - intros x [->%elem_of_singleton|Hx]%elem_of_union; [done|]. specialize (Hle' _ Hx). lia.
  - intros i Hi. simpl. rewrite bit_at_set_bit, bit_at_shift_left by (done || lia).
    symmetry. destruct (Z.eqb_spec i 0) as [->|Hi0]; simpl.
    { apply bool_decide_eq_true. rewrite Z.sub_0_r. set_solver. }
    destruct (Z.ltb_spec i (seq - h)).
    + apply bool_decide_eq_false. intros [?%elem_of_singleton|Hx]%elem_of_union; [lia|].
      specialize (Hle' _ Hx). lia.
    + rewrite Hbits by lia. replace (h - (i - (seq - h))) with (seq - i) by lia.
      apply bool_decide_ext. rewrite elem_of_union, elem_of_singleton.
      split; [intros [?|?]; [lia|done]|by right].
Qed.

Lemma repr_record bm h seen seq :
  repr (mk (Some h) bm) seen -> seq <= h -> h - seq < WINDOW_SIZE -> seq ∉ seen ->
  repr (mk (Some h) (set_bit bm (h - seq))) ({[seq]} ∪ seen).
Proof.
  intros [Hwf (Hh & Hle & Hbits)] Hs Hw Hn. simpl in *.
  assert (Hle' : forall x, x ∈ seen -> x <= h) by done.
  repeat split; simpl; try (by apply wf_set_bit).
  - set_solver.
  - intros x [->%elem_of_singleton|Hx]%elem_of_union; [done|]. by apply Hle'.
  - intros i Hi. rewrite bit_at_set_bit by (done || lia). rewrite Hbits by done.
    destruct (Z.eqb_spec i (h - seq)) as [->|Hne]; simpl; symmetry.
    + apply bool_decide_eq_true. replace (h - (h - seq)) with seq by lia. set_solver.
    + apply bool_decide_ext. rewrite elem_of_union, elem_of_singleton.
      split; [intros [?|?]; [lia|done]|by right].
Qed.

(** ** Theorems *)

Lemma check_and_record_step w seen seq epoch :
  repr w seen ->
  let '(w', r) := check_and_record w seq epoch in
  if decide (acceptable seen seq)
  then r = Ok tt /\ repr w' ({[seq]} ∪ seen)
  else r = Err (Replay seq epoch) /\ w' = w.
Proof.
  intros Hr. unfold check_and_record. destruct w as [[h|] bm]; simpl.
  - destruct (Z.ltb_spec h seq) as [Hlt|Hge].
    + destruct (repr_advance bm h seen seq Hr Hlt) as [Ha Hr'].
      by rewrite decide_True by done.
    + pose proof Hr as [Hwf (Hh & Hle & Hbits)]; simpl in *.
      destruct (Z.leb_spec WINDOW_SIZE (h - seq)) as [Hold|Hin].
      { rewrite decide_False; [done|]. intros [_ Hf]. specialize (Hf h Hh). simpl in Hf. lia. }
      rewrite get_bit_spec, Hbits by lia. replace (h - (h - seq)) with seq by lia.
      case_bool_decide as Hseen.
      { rewrite decide_False; [done|]. by intros [? _]. }
      rewrite decide_True.
      { split; [done|]. by apply repr_record. }
      split; [done|]. intros x Hx. specialize (Hle x Hx). simpl in *. lia.
  - destruct Hr as [Hwf [-> Hz]]. simpl in *. rewrite decide_True by (split; set_solver).
    split; [done|]. split; simpl; [by apply wf_set_bit|].
    repeat split; [set_solver|set_solver by lia|].
    intros i Hi. rewrite bit_at_set_bit, Hz, bit_at_zero, orb_false_r by (done || lia).
    symmetry. destruct (Z.eqb_spec i 0) as [->|].
    + apply bool_decide_eq_true. rewrite Z.sub_0_r. set_solver.
    + apply bool_decide_eq_false. rewrite union_empty_r_L, elem_of_singleton. lia.
Qed.

(** The window state after a receiver has processed [seqs]. *)
Fixpoint after (w : t) (seqs : list Z) (epoch : Z) : t :=
  match seqs with
  | [] => w
  | s :: seqs' => after (fst (check_and_record w s epoch)) seqs' epoch
  end.

Lemma repr_run w seen seqs epoch :
  repr w seen ->
  repr (after w seqs epoch) (list_to_set (accepted w seqs epoch) ∪ seen) /\
  NoDup (accepted w seqs epoch) /\ (forall x, x ∈ accepted w seqs epoch -> x ∉ seen).
Proof.
  revert w seen; induction seqs as [|s seqs IH]; intros w seen Hr; simpl.
  - rewrite union_empty_l_L. split; [done|]. split; [constructor|]. by intros x ?%elem_of_nil.
  - pose proof (check_and_record_step w seen s epoch Hr) as Hstep.
    destruct (check_and_record w s epoch) as [w' r] eqn:E; simpl.
    destruct (decide (acceptable seen s)) as [Ha|Ha]; destruct Hstep as [-> Hr']; simpl.
    + destruct (IH w' _ Hr') as (H1 & H2 & H3). split; [|split].
      * by rewrite (union_comm_L {[s]}), <- union_assoc_L.
      * constructor; [|done]. intros Hin. apply (H3 s Hin). set_solver.
      * intros x [->|Hx]%elem_of_cons; [by destruct Ha|]. specialize (H3 x Hx). set_solver.
    + subst w'. by apply IH.
Qed.

(** C26.  Refinement: from any window that represents a history [seen], one
    call of [check_and_record] accepts exactly the acceptable numbers, leaves a
    window that represents the extended history, and on a refusal returns
    [Replay] with the offending number and leaves the window untouched. *)
Theorem check_and_record_refines w seen seq epoch :
  repr w seen ->
  let '(w', r) := check_and_record w seq epoch in
  if decide (acceptable seen seq)
  then r = Ok tt /\ repr w' ({[seq]} ∪ seen)
  else r = Err (Replay seq epoch) /\ w' = w.
Proof. apply check_and_record_step. Qed.

Lemma check_and_record_refines_witness :
  repr new ∅ /\
  let '(w', r) := check_and_record new 70 0 in
  if decide (acceptable ∅ 70)
  then r = Ok tt /\ repr w' ({[70]} ∪ ∅)
  else r = Err (Replay 70 0) /\ w' = new.
Proof. split; [apply repr_new|]. apply (check_and_record_refines new ∅ 70 0), repr_new. Defined.

(** After any sequence of frames fed to a fresh window, the next number is
    let through if and only if it was never let through before and trails every
    number let through by less than the window size. *)
Theorem verdict_exact (history : list Z) (seq epoch : Z) :
  snd (check_and_record (after new history epoch) seq epoch) = Ok tt <->
  (seq ∉ accepted new history epoch) /\
  (forall x, x ∈ accepted new history epoch -> x - seq < WINDOW_SIZE).
Proof.
  destruct (repr_run new ∅ history epoch repr_new) as (Hr & _).
  rewrite union_empty_r_L in Hr.
  pose proof (check_and_record_step _ _ seq epoch Hr) as Hstep.
  assert (Hiff : acceptable (list_to_set (accepted new history epoch)) seq <->
    (seq ∉ accepted new history epoch) /\
    (forall x, x ∈ accepted new history epoch -> x - seq < WINDOW_SIZE)).
  { unfold acceptable. rewrite elem_of_list_to_set.
    split; intros [? Hf]; (split; [done|]); intros x Hx; apply Hf;
      [by apply elem_of_list_to_set|by apply elem_of_list_to_set in Hx]. }
  rewrite <- Hiff. destruct (check_and_record _ seq epoch) as [w' r]; simpl.
  destruct (decide _); destruct Hstep as [-> _]; split; done.
Qed.

(** C1.  No replay: whatever the receiver is fed, in whatever order and with
    whatever repetitions, no sequence number is let through twice. *)
Theorem no_replay (frames : list Z) (epoch : Z) : NoDup (accepted new frames epoch).
Proof. by destruct (repr_run new ∅ frames epoch repr_new) as (_ & H & _). Qed.

(** The verify-then-record probe answers what [check_and_record] would. *)
Lemma check_agrees w seq epoch : check w seq epoch = snd (check_and_record w seq epoch).
Proof.
  unfold check, check_and_record. destruct (highest w); [|done].
  by repeat match goal with |- context [if ?b then _ else _] => destruct b end.
Qed.

End ReplayWindow.
