(* ===== verification/MultihopSession.v ===== *)
(** HPKE sessions of the multi-hop data path
    ([crates/warrenguard-multihop/src/session.rs], [wire_format.rs],
    [errors.rs]).

    The client and the exit share one HPKE setup per session and derive from it
    a one-time key per packet and direction; the frame carries the epoch and the
    sequence number the key is derived from.  The cryptography ([hpke],
    [chacha20poly1305]) and the frame codec ([postcard]) are third-party code:
    [Hpke] and [Postcard] are their interfaces, [HpkeLaws] and [PostcardLaws]
    what their documentation promises.  Byte strings are lists of [Z]. *)

From S2P Require Import Prelude.
From stdpp Require Import strings.

#[local] Open Scope Z_scope.

Module MultihopSession.

(** ** Third-party interfaces *)

(** The parts of the [hpke] crate (base mode, fixed suite) and of
    [chacha20poly1305] the sessions call.  The in-place operations return the
    buffer they leave. *)
Class Hpke := {
  PublicKey : Type;
  PrivateKey : Type;
  EncappedKey : Type;
  AeadCtxS : Type;
  AeadCtxR : Type;
  Rng : Type;
  HpkeError : Type;
  SealError : HpkeError;
  OpenError : HpkeError;
  setup_sender : PublicKey -> list Z -> Rng -> Rng * result (EncappedKey * AeadCtxS) HpkeError;
  setup_receiver : PrivateKey -> EncappedKey -> list Z -> result AeadCtxR HpkeError;
  encapped_to_bytes : EncappedKey -> list Z;
  encapped_from_bytes : list Z -> result EncappedKey HpkeError;
  export_s : AeadCtxS -> list Z -> nat -> result (list Z) HpkeError;
  export_r : AeadCtxR -> list Z -> nat -> result (list Z) HpkeError;
  (** [encrypt_in_place_detached key nonce aad buf]: the ciphertext and the tag. *)
  aead_encrypt : list Z -> list Z -> list Z -> list Z -> option (list Z * list Z);
  (** [decrypt_in_place_detached key nonce aad buf tag]: the plaintext. *)
  aead_decrypt : list Z -> list Z -> list Z -> list Z -> list Z -> option (list Z);
}.

(** What RFC 9180 and RFC 8439 promise of them. *)
Class HpkeLaws (H : Hpke) := {
  keypair : PrivateKey -> PublicKey -> Prop;
  (** The longest plaintext the AEAD accepts. *)
  p_max : Z;
  (** Decapsulating what was encapsulated to a key gives a context that exports
      the same secrets. *)
  setup_agrees sk pk info rng rng' enc cs :
    keypair sk pk -> setup_sender pk info rng = (rng', Ok (enc, cs)) ->
    encapped_from_bytes (encapped_to_bytes enc) = Ok enc /\
    exists cr, setup_receiver sk enc info = Ok cr /\ forall i n, export_s cs i n = export_r cr i n;
  (** An export fails only above 255 hash lengths. *)
  export_total cs i n : (n <= 255 * 32)%nat -> exists k, export_s cs i n = Ok k;
  encrypt_total k n a p : Z.of_nat (length p) <= p_max -> exists c t, aead_encrypt k n a p = Some (c, t);
  decrypt_encrypt k n a p c t : aead_encrypt k n a p = Some (c, t) -> aead_decrypt k n a c t = Some p;
}.

(** ** Wire format *)

Definition WARREN_HPKE_INFO_V1 : list Z := bytes_of_string "warren/multihop/v1/hpke-info".
Definition WARREN_HPKE_AAD_V1 : list Z := bytes_of_string "warren/multihop/v1/aad".
Definition WARREN_HPKE_VERSION_V1 : Z := 1.
Definition WARREN_HPKE_VERSION : Z := WARREN_HPKE_VERSION_V1.
Definition NONCE_ZERO_12 : list Z := replicate 12 0.
Definition PER_PACKET_KEY_LEN : nat := 32.
Definition WARREN_AAD_TOTAL_LEN : nat := 22 + 16 + 4 + 8.
Definition DIRECTION_TAG_REVERSE : Z := 2.

Record WarrenMultihopFrame := mkFrame {
  version : Z;
  exit_id : list Z;
  epoch : Z;
  seq : Z;
  encapsulated_key : list Z;
  aead_tag : list Z;
  ciphertext : list Z;
}.

(** [postcard::to_stdvec] and [postcard::take_from_bytes] at the frame type. *)
Class Postcard := {
  PostcardError : Type;
  DeserializeUnexpectedEnd : PostcardError;
  to_stdvec : WarrenMultihopFrame -> result (list Z) PostcardError;
  take_from_bytes : list Z -> result (WarrenMultihopFrame * list Z) PostcardError;
}.

(** A value followed by anything deserializes to the value and the rest. *)
Class PostcardLaws (P : Postcard) := {
  take_to f bs rest : to_stdvec f = Ok bs -> take_from_bytes (bs ++ rest) = Ok (f, rest);
}.

(** All the errors of the crate; the [Pq] ones belong to the hybrid sessions. *)
Inductive MultihopError {H : Hpke} {P : Postcard} :=
| UnsupportedVersion (got expected : Z)
| Decode (e : PostcardError)
| TrailingBytes
| HpkeErr (e : HpkeError)
| Replay (seq epoch : Z)
| ExitIdMismatch
| RekeyFailed (reason : string)
| SessionCreateRateLimited
| PqKeyLength (field : string) (got expected : Z)
| PqAead
| PqDowngrade
| PqDisabled.
Arguments MultihopError : clear implicits.

Section Sessions.
Context `{H : Hpke} `{P : Postcard}.

Abbreviation err := (MultihopError H P).

(** [?] on an [hpke] result. *)
Definition from_hpke {A} (r : result A HpkeError) : result A err :=
  match r with Ok a => Ok a | Err e => Err (HpkeErr e) end.

Definition from_postcard {A} (r : result A PostcardError) : result A err :=
  match r with Ok a => Ok a | Err e => Err (Decode e) end.

Definition encode (f : WarrenMultihopFrame) : result (list Z) err := from_postcard (to_stdvec f).

Definition MAX_FRAME_SIZE : Z := 65536.

Definition decode (bytes : list Z) : result WarrenMultihopFrame err :=
  if MAX_FRAME_SIZE <? Z.of_nat (length bytes) then Err (Decode DeserializeUnexpectedEnd)
  else
    (p <-? from_postcard (take_from_bytes bytes);
     let '(frame, rest) := p in
     if negb (bool_decide (rest = [])) then Err TrailingBytes
     else if negb (version frame =? WARREN_HPKE_VERSION)
     then Err (UnsupportedVersion (version frame) WARREN_HPKE_VERSION)
     else Ok frame)%warren.

Definition encode_frame (f : WarrenMultihopFrame) : result (list Z) err := encode f.
Definition decode_frame (bytes : list Z) : result WarrenMultihopFrame err := decode bytes.

(** ** Per-packet keys *)

Definition compose_aad (exit_id : list Z) (epoch seq : Z) : list Z :=
  WARREN_HPKE_AAD_V1 ++ exit_id ++ be_bytes 4 epoch ++ be_bytes 8 seq.

Definition compose_export_info (epoch seq : Z) : list Z :=
  WARREN_HPKE_AAD_V1 ++ be_bytes 4 epoch ++ be_bytes 8 seq.

Definition compose_export_info_reverse (epoch seq : Z) : list Z :=
  WARREN_HPKE_AAD_V1 ++ be_bytes 4 epoch ++ be_bytes 8 seq ++ [DIRECTION_TAG_REVERSE].

(** Encrypt under an exported key, with the failure of the AEAD as [SealError]. *)
Definition seal_with (key : result (list Z) HpkeError) (aad payload : list Z)
  : result (list Z * list Z) err :=
  (k <-? from_hpke key;
   match aead_encrypt k NONCE_ZERO_12 aad payload with
   | Some r => Ok r
   | None => Err (HpkeErr SealError)
   end)%warren.

Definition open_with (key : result (list Z) HpkeError) (aad buf tag : list Z) : result (list Z) err :=
  (k <-? from_hpke key;
   match aead_decrypt k NONCE_ZERO_12 aad buf tag with
   | Some p => Ok p
   | None => Err (HpkeErr OpenError)
   end)%warren.

(** ** The client's side *)

Record PendingOldEpoch := mkPending {
  old_ctx : AeadCtxS;
  old_epoch : Z;
}.

Record ClientSession := mkClient {
  cs_ctx : AeadCtxS;
  cs_exit_id : list Z;
  cs_encapsulated_key : list Z;
  cs_epoch : Z;
  pending_old_epoch : option PendingOldEpoch;
}.

Definition client_new (exit_pubkey : PublicKey) (exit_id : list Z) (rng : Rng)
  : Rng * result ClientSession err :=
  let '(rng, r) := setup_sender exit_pubkey WARREN_HPKE_INFO_V1 rng in
  (rng,
   (p <-? from_hpke r;
    let '(encapped, ctx) := p in
    Ok (mkClient ctx exit_id (encapped_to_bytes encapped) 0 None))%warren).

(** The session and the key to announce, or the error and the session as it was. *)
Definition rekey (c : ClientSession) (exit_pubkey : PublicKey) (rng : Rng)
  : Rng * ClientSession * result (list Z) err :=
  if u32_max <? cs_epoch c + 1
  then (rng, c, Err (RekeyFailed "epoch counter overflowed u32"))
  else
    let next_epoch := cs_epoch c + 1 in
    let '(rng, r) := setup_sender exit_pubkey WARREN_HPKE_INFO_V1 rng in
    match from_hpke r with
    | Err e => (rng, c, Err e)
    | Ok (encapped, new_ctx) =>
        let encapped_bytes := encapped_to_bytes encapped in
        (rng,
         mkClient new_ctx (cs_exit_id c) encapped_bytes next_epoch
           (Some (mkPending (cs_ctx c) (cs_epoch c))),
         Ok encapped_bytes)
    end.

Definition prune_pending_old_epoch (c : ClientSession) : ClientSession :=
  mkClient (cs_ctx c) (cs_exit_id c) (cs_encapsulated_key c) (cs_epoch c) None.

Definition has_pending_old_epoch (c : ClientSession) : bool :=
  match pending_old_epoch c with Some _ => true | None => false end.

Definition pending_old_epoch_value (c : ClientSession) : option Z :=
  old_epoch <$> pending_old_epoch c.

Definition seal (c : ClientSession) (payload : list Z) (epoch seq : Z)
  : result WarrenMultihopFrame err :=
  (r <-? seal_with (export_s (cs_ctx c) (compose_export_info epoch seq) PER_PACKET_KEY_LEN)
           (compose_aad (cs_exit_id c) epoch seq) payload;
   let '(buf, tag) := r in
   Ok (mkFrame WARREN_HPKE_VERSION_V1 (cs_exit_id c) epoch seq (cs_encapsulated_key c) tag buf))%warren.

(** The context whose epoch a reverse frame names. *)
Definition response_ctx (c : ClientSession) (frame_epoch : Z) : option AeadCtxS :=
  if frame_epoch =? cs_epoch c then Some (cs_ctx c)
  else
    match pending_old_epoch c with
    | Some pending => if old_epoch pending =? frame_epoch then Some (old_ctx pending) else None
    | None => None
    end.

Definition open_response_owned (c : ClientSession) (frame : WarrenMultihopFrame)
  : result (list Z) err :=
  if negb (bool_decide (exit_id frame = cs_exit_id c)) then Err ExitIdMismatch
  else if negb (version frame =? WARREN_HPKE_VERSION_V1)
  then Err (UnsupportedVersion (version frame) WARREN_HPKE_VERSION_V1)
  else
    match response_ctx c (epoch frame) with
    | None => Err (HpkeErr OpenError)
    | Some ctx =>
        open_with
          (export_s ctx (compose_export_info_reverse (epoch frame) (seq frame)) PER_PACKET_KEY_LEN)
          (compose_aad (cs_exit_id c) (epoch frame) (seq frame)) (ciphertext frame) (aead_tag frame)
    end.

Definition open_response (c : ClientSession) (frame : WarrenMultihopFrame) : result (list Z) err :=
  open_response_owned c frame.

(** ** The exit's side *)

Record ExitSession := mkExit {
  es_ctx : AeadCtxR;
  es_exit_id : list Z;
  es_encapsulated_key : list Z;
}.

Definition exit_new (exit_privkey : PrivateKey) (encapsulated_key exit_id : list Z)
  : result ExitSession err :=
  (encapped <-? from_hpke (encapped_from_bytes encapsulated_key);
   ctx <-? from_hpke (setup_receiver exit_privkey encapped WARREN_HPKE_INFO_V1);
   Ok (mkExit ctx exit_id encapsulated_key))%warren.

Definition open_owned (s : ExitSession) (frame : WarrenMultihopFrame) : result (list Z) err :=
  if negb (bool_decide (exit_id frame = es_exit_id s)) then Err ExitIdMismatch
  else if negb (version frame =? WARREN_HPKE_VERSION_V1)
  then Err (UnsupportedVersion (version frame) WARREN_HPKE_VERSION_V1)
  else
    open_with
      (export_r (es_ctx s) (compose_export_info (epoch frame) (seq frame)) PER_PACKET_KEY_LEN)
      (compose_aad (es_exit_id s) (epoch frame) (seq frame)) (ciphertext frame) (aead_tag frame).

Definition open (s : ExitSession) (frame : WarrenMultihopFrame) : result (list Z) err :=
  open_owned s frame.

Definition seal_response_owned (s : ExitSession) (buf : list Z) (epoch seq : Z)
  : result WarrenMultihopFrame err :=
  (r <-? seal_with (export_r (es_ctx s) (compose_export_info_reverse epoch seq) PER_PACKET_KEY_LEN)
           (compose_aad (es_exit_id s) epoch seq) buf;
   let '(buf, tag) := r in
   Ok (mkFrame WARREN_HPKE_VERSION_V1 (es_exit_id s) epoch seq (es_encapsulated_key s) tag buf))%warren.

Definition seal_response (s : ExitSession) (payload : list Z) (epoch seq : Z)
  : result WarrenMultihopFrame err :=
  seal_response_owned s payload epoch seq.

End Sessions.

(** A frame decodes to itself, and to nothing once bytes follow it. *)
Lemma decode_encode `{H : Hpke} `{P : Postcard} `{PL : !PostcardLaws P} f bs extra :
  encode_frame f = Ok bs -> version f = WARREN_HPKE_VERSION ->
  Z.of_nat (length (bs ++ extra)) <= MAX_FRAME_SIZE ->
  decode_frame (bs ++ extra) = if bool_decide (extra = []) then Ok f else Err TrailingBytes.
Proof.
  intros He Hv Hl. unfold encode_frame, encode, from_postcard in He.
  destruct (to_stdvec f) as [bs'|] eqn:Et; [|done]. injection He as ->.
  unfold decode_frame, decode. destruct (Z.ltb_spec MAX_FRAME_SIZE (Z.of_nat (length (bs ++ extra)))); [lia|].
  rewrite (take_to f bs extra Et). simpl. case_bool_decide; [|done]. simpl. by rewrite Hv.
Qed.

(** ** Key separation *)

Inductive Direction := Forward | Reverse.

(** The export info a packet's one-time key is derived from. *)
Definition packet_info (d : Direction) (epoch seq : Z) : list Z :=
  match d with
  | Forward => compose_export_info epoch seq
  | Reverse => compose_export_info_reverse epoch seq
  end.

Lemma be_bytes_inj n x y :
  in_width (8 * Z.of_nat n) x -> in_width (8 * Z.of_nat n) y -> be_bytes n x = be_bytes n y -> x = y.
Proof. intros Hx Hy E. by rewrite <- (be_val_be_bytes n x Hx), E, be_val_be_bytes. Qed.

(** The counters of a packet are read back from where they were written. *)
Lemma counters_inj e s e' s' tail tail' :
  in_width 32 e -> in_width 32 e' -> in_width 64 s -> in_width 64 s' ->
  be_bytes 4 e ++ be_bytes 8 s ++ tail = be_bytes 4 e' ++ be_bytes 8 s' ++ tail' ->
  e = e' /\ s = s' /\ tail = tail'.
Proof.
  intros He He' Hs Hs' E.
  apply app_inj_1 in E as [E4 E]; [|by rewrite !length_be_bytes].
  apply app_inj_1 in E as [E8 E]; [|by rewrite !length_be_bytes].
  split; [by apply (be_bytes_inj 4)|]. split; [by apply (be_bytes_inj 8)|done].
Qed.

(** The all-zero nonce is sound: two packets of one session whose one-time
    keys are derived from the same export info are the same packet, in
    direction, epoch and sequence number, and two packets with the same
    associated data agree in exit, epoch and sequence number; the associated
    data has the length the code reserves for it. *)
Theorem packet_keys_separate d e s d' e' s' xid xid' :
  in_width 32 e -> in_width 32 e' -> in_width 64 s -> in_width 64 s' ->
  length xid = 16%nat -> length xid' = 16%nat ->
  (packet_info d e s = packet_info d' e' s' -> d = d' /\ e = e' /\ s = s') /\
  (compose_aad xid e s = compose_aad xid' e' s' -> xid = xid' /\ e = e' /\ s = s') /\
  length (compose_aad xid e s) = WARREN_AAD_TOTAL_LEN.
Proof.
  intros He He' Hs Hs' Hx Hx'. split; [|split].
  - assert (Hd : forall d e s, packet_info d e s = WARREN_HPKE_AAD_V1 ++ be_bytes 4 e ++ be_bytes 8 s ++
      match d with Forward => [] | Reverse => [DIRECTION_TAG_REVERSE] end).
    { intros [] ? ?; [|done]. by rewrite app_nil_r. }
    rewrite !Hd. intros E%app_inv_head. apply counters_inj in E as (-> & -> & E); try done.
    by destruct d, d'.
  - intros E%app_inv_head. apply app_inj_1 in E as [-> E]; [|congruence].
    rewrite <- (app_nil_r (be_bytes 8 s)), <- (app_nil_r (be_bytes 8 s')) in E.
    by apply counters_inj in E as (-> & -> & _).
  - unfold compose_aad. by rewrite !length_app, !length_be_bytes, Hx.
Qed.

Lemma packet_keys_separate_witness :
  (packet_info Forward 0 7 = packet_info Reverse 0 7 -> Forward = Reverse /\ 0 = 0 /\ 7 = 7) /\
  length (compose_aad (replicate 16 9) 0 7) = WARREN_AAD_TOTAL_LEN.
Proof.
  assert (He : in_width 32 0) by (split; vm_compute; congruence).
  assert (Hs : in_width 64 7) by (split; vm_compute; congruence).
  destruct (packet_keys_separate Forward 0 7 Reverse 0 7 (replicate 16 9) (replicate 16 9)
              He He Hs Hs eq_refl eq_refl) as (H1 & _ & H2).
  split; [exact H1|exact H2].
Defined.

(** ** Both directions of a session *)

Section Duplex.
Context `{H : Hpke} `{P : Postcard} `{HL : !HpkeLaws H}.

(** The exit's session for an encapsulated key exports what the client's context
    exports. *)
Definition matches (sk : PrivateKey) (xid enc : list Z) (ctx : AeadCtxS) : Prop :=
  exists s, exit_new sk enc xid = Ok s /\ es_exit_id s = xid /\
    forall i n, export_s ctx i n = export_r (es_ctx s) i n.

Lemma setup_matches sk pk xid rng rng' enc ctx :
  keypair sk pk -> setup_sender pk WARREN_HPKE_INFO_V1 rng = (rng', Ok (enc, ctx)) ->
  matches sk xid (encapped_to_bytes enc) ctx.
Proof.
  intros Hk Hs. destruct (setup_agrees _ _ _ _ _ _ _ Hk Hs) as (Hb & cr & Hr & He).
  exists (mkExit cr xid (encapped_to_bytes enc)). unfold exit_new. by rewrite Hb; simpl; rewrite Hr.
Qed.

(** The sessions a client can hold towards the exit [xid] with key [pk]. *)
Inductive client_reachable (pk : PublicKey) (xid : list Z) : ClientSession -> Prop :=
| reach_new rng rng' c : client_new pk xid rng = (rng', Ok c) -> client_reachable pk xid c
| reach_rekey c rng rng' c' r :
    client_reachable pk xid c -> rekey c pk rng = (rng', c', r) -> client_reachable pk xid c'
| reach_prune c : client_reachable pk xid c -> client_reachable pk xid (prune_pending_old_epoch c).

Lemma rekey_ok c pk rng rng' c' k :
  rekey c pk rng = (rng', c', Ok k) ->
  cs_epoch c + 1 <= u32_max /\
  exists enc ctx rng0, setup_sender pk WARREN_HPKE_INFO_V1 rng0 = (rng', Ok (enc, ctx)) /\
    k = encapped_to_bytes enc /\
    c' = mkClient ctx (cs_exit_id c) k (cs_epoch c + 1) (Some (mkPending (cs_ctx c) (cs_epoch c))).
Proof.
  unfold rekey. destruct (Z.ltb_spec u32_max (cs_epoch c + 1)); [done|].
  destruct (setup_sender pk WARREN_HPKE_INFO_V1 rng) as [rng1 [[enc ctx]|e]] eqn:Es; simpl; [|done].
  intros [= <- <- <-]. split; [lia|]. by exists enc, ctx, rng.
Qed.

(** A failed rekey leaves the session as it was. *)
Lemma rekey_err c pk rng rng' c' e : rekey c pk rng = (rng', c', Err e) -> c' = c.
Proof.
  unfold rekey. destruct (u32_max <? cs_epoch c + 1); [by intros [= _ -> _]|].
  destruct (setup_sender pk WARREN_HPKE_INFO_V1 rng) as [rng1 [[enc ctx]|e']]; simpl; [done|].
  by intros [= _ -> _].
Qed.

(** The invariant of a client session: its context matches the key it announces,
    and the overlap slot holds the epoch just before. *)
Lemma client_inv sk pk xid c :
  keypair sk pk -> client_reachable pk xid c ->
  cs_exit_id c = xid /\ in_width 32 (cs_epoch c) /\ matches sk xid (cs_encapsulated_key c) (cs_ctx c) /\
  (forall old, pending_old_epoch_value c = Some old -> old = cs_epoch c - 1 /\ 0 <= old).
Proof.
  intros Hk. induction 1 as [rng rng' c Hn|c rng rng' c' [k|e] _ (IHx & IHe & IHm & IHp) Hr|c _ (IHx & IHe & IHm & _)].
  - unfold client_new in Hn.
    destruct (setup_sender pk WARREN_HPKE_INFO_V1 rng) as [rng1 [[enc ctx]|e]] eqn:Es; simpl in Hn; [|done].
    injection Hn as <- <-. split; [done|]. split; [by split; vm_compute|].
    split; [by eapply setup_matches|done].
  - apply rekey_ok in Hr as (Ho & enc & ctx & rng0 & Hs & -> & ->). unfold in_width, u32_max in *.
    split; [done|]. split; [simpl cs_epoch; lia|]. split; [by eapply setup_matches|].
    simpl. intros old [= <-]. lia.
  - by apply rekey_err in Hr as ->.
  - done.
Qed.

Lemma seal_total c payload e n :
  Z.of_nat (length payload) <= p_max ->
  exists k buf tag,
    export_s (cs_ctx c) (compose_export_info e n) PER_PACKET_KEY_LEN = Ok k /\
    aead_encrypt k NONCE_ZERO_12 (compose_aad (cs_exit_id c) e n) payload = Some (buf, tag) /\
    seal c payload e n =
      Ok (mkFrame WARREN_HPKE_VERSION_V1 (cs_exit_id c) e n (cs_encapsulated_key c) tag buf).
Proof.
  intros Hp. destruct (export_total (cs_ctx c) (compose_export_info e n) PER_PACKET_KEY_LEN) as [k Hk].
  { unfold PER_PACKET_KEY_LEN. lia. }
  destruct (encrypt_total k NONCE_ZERO_12 (compose_aad (cs_exit_id c) e n) payload Hp) as (buf & tag & He).
  exists k, buf, tag. split; [done|]. split; [done|]. unfold seal, seal_with. by rewrite Hk; simpl; rewrite He.
Qed.

(** A reverse frame is opened by exactly the sessions that hold the context of
    its epoch. *)
Lemma open_response_by_epoch s ctx reply m e :
  (forall i n, export_s ctx i n = export_r (es_ctx s) i n) -> Z.of_nat (length reply) <= p_max ->
  exists g, seal_response s reply e m = Ok g /\ epoch g = e /\
    forall c, cs_exit_id c = es_exit_id s ->
      (response_ctx c e = Some ctx -> open_response c g = Ok reply) /\
      (response_ctx c e = None -> open_response c g = Err (HpkeErr OpenError)).
Proof.
  intros Hm Hp.
  destruct (export_total ctx (compose_export_info_reverse e m) PER_PACKET_KEY_LEN) as [k Hk].
  { unfold PER_PACKET_KEY_LEN. lia. }
  destruct (encrypt_total k NONCE_ZERO_12 (compose_aad (es_exit_id s) e m) reply Hp) as (buf & tag & He).
  exists (mkFrame WARREN_HPKE_VERSION_V1 (es_exit_id s) e m (es_encapsulated_key s) tag buf).
  split; [unfold seal_response, seal_response_owned, seal_with; by rewrite <- Hm, Hk; simpl; rewrite He|].
  split; [done|]. intros c Hx. unfold open_response, open_response_owned. simpl.
  rewrite bool_decide_true by done. simpl. split; intros ->; [|done].
  unfold open_with. rewrite Hk. simpl. rewrite Hx.
  by rewrite (decrypt_encrypt k NONCE_ZERO_12 (compose_aad (es_exit_id s) e m) reply buf tag He).
Qed.

(** C27.  A session works in both directions and across rekeys: what any reachable
    client session seals in its epoch, the exit opens with the session it builds
    from the frame's key alone; what the exit answers in that epoch the client
    opens, still after one rekey while the overlap is open, and no longer once
    the overlap is pruned or a second rekey has passed. *)
Theorem session_duplex sk pk xid c payload reply n m :
  keypair sk pk -> client_reachable pk xid c ->
  Z.of_nat (length payload) <= p_max -> Z.of_nat (length reply) <= p_max ->
  exists f s g,
    seal c payload (cs_epoch c) n = Ok f /\
    exit_new sk (encapsulated_key f) xid = Ok s /\ open s f = Ok payload /\
    seal_response s reply (epoch f) m = Ok g /\ open_response c g = Ok reply /\
    (forall rng rng' c' k, rekey c pk rng = (rng', c', Ok k) ->
       open_response c' g = Ok reply /\
       open_response (prune_pending_old_epoch c') g = Err (HpkeErr OpenError) /\
       (forall rng2 rng2' c'' k', rekey c' pk rng2 = (rng2', c'', Ok k') ->
          open_response c'' g = Err (HpkeErr OpenError))).
Proof.
  intros Hk Hc Hp Hr. destruct (client_inv sk pk xid c Hk Hc) as (Hx & He & (s & Hs & Hsx & Hm) & _).
  destruct (seal_total c payload (cs_epoch c) n Hp) as (k & buf & tag & Hek & Henc & Hf).
  destruct (open_response_by_epoch s (cs_ctx c) reply m (cs_epoch c) Hm Hr) as (g & Hg & Hge & Hopen).
  eexists _, s, g. split; [exact Hf|]. split; [exact Hs|]. split.
  { unfold open, open_owned. simpl. rewrite bool_decide_true by congruence. simpl.
    unfold open_with. rewrite <- Hm, Hek. simpl. rewrite Hsx, <- Hx.
    by rewrite (decrypt_encrypt k NONCE_ZERO_12 (compose_aad (cs_exit_id c) (cs_epoch c) n) payload buf tag Henc). }
  split; [exact Hg|]. split; [apply Hopen; [congruence|]; unfold response_ctx; by rewrite Z.eqb_refl|].
  intros rng rng' c' k1 (_ & enc & ctx & rng0 & _ & -> & ->)%rekey_ok.
  assert (Hlt : (cs_epoch c =? cs_epoch c + 1) = false) by (apply Z.eqb_neq; lia).
  split; [|split].
  - apply Hopen; [simpl; congruence|]. unfold response_ctx. simpl. by rewrite Hlt, Z.eqb_refl.
  - apply Hopen; [simpl; congruence|]. unfold response_ctx. simpl. by rewrite Hlt.
  - intros rng2 rng2' c'' k' (_ & enc2 & ctx2 & rng3 & _ & -> & ->)%rekey_ok.
    apply Hopen; [simpl; congruence|]. unfold response_ctx. simpl.
    destruct (Z.eqb_spec (cs_epoch c) (cs_epoch c + 1 + 1)); [lia|].
    destruct (Z.eqb_spec (cs_epoch c + 1) (cs_epoch c)); [lia|done].
Qed.

End Duplex.

(** ** A toy suite

    Encapsulation sends the random value in the clear and the tag repeats the
    key and the associated data: enough to satisfy the laws. *)

#[export] Instance toy_hpke : Hpke := {|
  PublicKey := Z; PrivateKey := Z; EncappedKey := Z; AeadCtxS := Z * Z; AeadCtxR := Z * Z;
  Rng := Z; HpkeError := bool; SealError := true; OpenError := false;
  setup_sender pk info rng := (rng + 1, Ok (rng, (pk, rng)));
  setup_receiver sk enc info := Ok (sk, enc);
  encapped_to_bytes enc := [enc];
  encapped_from_bytes bs := match bs with [enc] => Ok enc | _ => Err false end;
  export_s ctx i n := Ok (fst ctx :: snd ctx :: i);
  export_r ctx i n := Ok (fst ctx :: snd ctx :: i);
  aead_encrypt k n a p := Some (p, k ++ a);
  aead_decrypt k n a c t := if bool_decide (t = k ++ a) then Some c else None;
|}.

#[export] Instance toy_laws : HpkeLaws toy_hpke.
Proof.
  refine {| keypair := (fun sk pk => sk = pk) : @PrivateKey toy_hpke -> @PublicKey toy_hpke -> Prop; p_max := 1500 |}.
  - intros sk pk info rng rng' enc cs -> [= <- <- <-]. split; [done|]. by exists (pk, rng).
  - intros cs i n _. by eexists.
  - intros k n a p _. by eexists _, _.
  - intros k n a p c t [= <- <-]. simpl. by rewrite bool_decide_true.
Defined.

Definition put (l : list Z) : list Z := Z.of_nat (length l) :: l.

Definition get (bs : list Z) : list Z * list Z :=
  match bs with
  | n :: rest => (take (Z.to_nat n) rest, drop (Z.to_nat n) rest)
  | [] => ([], [])
  end.

Lemma get_put l rest : get (put l ++ rest) = (l, rest).
Proof. simpl. by rewrite Nat2Z.id, take_app_length, drop_app_length. Qed.

#[export] Instance toy_postcard : Postcard := {|
  PostcardError := unit; DeserializeUnexpectedEnd := tt;
  to_stdvec f :=
    Ok (version f :: epoch f :: seq f :: put (exit_id f) ++ put (encapsulated_key f) ++
        put (aead_tag f) ++ put (ciphertext f));
  take_from_bytes bs :=
    match bs with
    | v :: e :: s :: rest =>
        let '(xid, rest) := get rest in let '(key, rest) := get rest in
        let '(tag, rest) := get rest in let '(ct, rest) := get rest in
        Ok (mkFrame v xid e s key tag ct, rest)
    | _ => Err tt
    end;
|}.

#[export] Instance toy_postcard_laws : PostcardLaws toy_postcard.
Proof.
  constructor. intros [v xid e s key tag ct] bs rest E.
  assert (bs = v :: e :: s :: put xid ++ put key ++ put tag ++ put ct) as ->
    by (symmetry; apply (f_equal (fun r => match r with Ok b => b | Err _ => [] end)) in E; exact E).
  rewrite <- !app_comm_cons, <- !app_assoc. unfold take_from_bytes, toy_postcard. by rewrite !get_put.
Qed.

Lemma session_duplex_witness :
  exists (c : @ClientSession toy_hpke) f s, seal c [1; 2; 3] (cs_epoch c) 7 = Ok f /\
    @exit_new toy_hpke toy_postcard 5 (encapsulated_key f) [9] = Ok s /\ open s f = Ok [1; 2; 3].
Proof.
  destruct (@client_new toy_hpke toy_postcard 5 [9] 0) as [rng [c|e]] eqn:E.
  - destruct (session_duplex (H:=toy_hpke) 5 5 [9] c [1; 2; 3] [4] 7 8) as (f & s & g & H1 & H2 & H3 & _).
    + reflexivity.
    + exact (reach_new (H:=toy_hpke) 5 [9] 0 rng c E).
    + vm_compute. discriminate.
    + vm_compute. discriminate.
    + exists c, f, s. split; [exact H1|]. split; [exact H2|exact H3].
  - vm_compute in E. discriminate E.
Defined.

End MultihopSession.
