(* ===== verification/PqSession.v ===== *)
(** The post-quantum sessions of the multi-hop data path
    ([crates/warrenguard-multihop/src/xwing.rs], [pq_session.rs],
    [wire_format_v2.rs]).

    A [/v2] session swaps the HPKE setup of [MultihopSession] for the X-Wing hybrid
    KEM and its exporter for HKDF; only the frame that opens an epoch carries the
    ML-KEM ciphertext.  X-Wing itself is modelled down to the primitives it combines;
    these ([ml-kem], [x25519-dalek], [sha3], [hkdf]) are third-party code behind
    [PqCrypto], with what their specifications promise in [PqCryptoLaws]. *)

From S2P Require Import Prelude MultihopSession.
From stdpp Require Import strings.
Import MultihopSession.

#[local] Open Scope Z_scope.

Definition WARREN_HPKE_VERSION_V2 : Z := 2.
Definition WARREN_PQ_HPKE_SALT_V2 : list Z := bytes_of_string "warren/multihop/v2/pq-hkdf-salt".
Definition WARREN_PQ_HPKE_AAD_V2 : list Z := bytes_of_string "warren/multihop/v2/pq-aad".
Definition MLKEM_IKM_DOMAIN : list Z := bytes_of_string "warren-xwing-mlkem768-ikm-v1".
Definition XWING_LABEL : list Z := [0x5c; 0x2e; 0x2f; 0x2f; 0x5e; 0x5c].
Definition XWING_MLKEM_EK_LEN : nat := Z.to_nat 1184.
Definition XWING_MLKEM_CT_LEN : nat := Z.to_nat 1088.
Definition PQ_AAD_TOTAL_LEN : nat := 25 + 16 + 4 + 8.
Definition MULTIHOP_FRAME_V2_MAX_OVERHEAD : Z := 83 + 1088 + 3.
Definition MULTIHOP_FRAME_V2_DATA_MAX_OVERHEAD : Z := MULTIHOP_FRAME_V2_MAX_OVERHEAD - 1088.

(** ** Third-party primitives *)

Class PqCrypto (H : Hpke) := {
  EncapsulationKey : Type;
  DecapsulationKey : Type;
  (** [fill_bytes] of 32 bytes. *)
  fill_bytes : Rng -> Rng * list Z;
  generate_deterministic : list Z -> list Z -> DecapsulationKey * EncapsulationKey;
  ek_from_bytes : list Z -> EncapsulationKey;
  ek_as_bytes : EncapsulationKey -> list Z;
  (** The ciphertext and the shared key. *)
  encapsulate_deterministic : EncapsulationKey -> list Z -> option (list Z * list Z);
  decapsulate : DecapsulationKey -> list Z -> option (list Z);
  (** [x25519 scalar point]. *)
  x25519 : list Z -> list Z -> list Z;
  X25519_BASEPOINT_BYTES : list Z;
  sha3_256 : list Z -> list Z;
  shake256 : list Z -> nat -> list Z;
  (** [Hkdf::new(salt, ikm).expand(info)] at 32 bytes. *)
  hkdf_sha256 : list Z -> list Z -> list Z -> list Z;
}.

(** FIPS 203 for a generated pair, and the commutativity of Diffie and Hellman. *)
Class PqCryptoLaws {H : Hpke} (C : PqCrypto H) := {
  mlkem_agrees d z dk ek m :
    generate_deterministic d z = (dk, ek) ->
    exists ct ss, encapsulate_deterministic ek m = Some (ct, ss) /\ length ct = XWING_MLKEM_CT_LEN /\
      decapsulate dk ct = Some ss;
  ek_roundtrip d z dk ek :
    generate_deterministic d z = (dk, ek) ->
    length (ek_as_bytes ek) = XWING_MLKEM_EK_LEN /\ ek_from_bytes (ek_as_bytes ek) = ek;
  x25519_comm a b :
    x25519 a (x25519 b X25519_BASEPOINT_BYTES) = x25519 b (x25519 a X25519_BASEPOINT_BYTES);
}.

(** ** Wire format *)

Record WarrenMultihopFrameV2 := mkFrameV2 {
  v2_version : Z;
  v2_exit_id : list Z;
  v2_epoch : Z;
  v2_seq : Z;
  v2_encapsulated_key : list Z;
  v2_pq_ct : list Z;
  v2_aead_tag : list Z;
  v2_ciphertext : list Z;
}.

(** [postcard] at the [/v2] frame type. *)
Class PostcardV2 (P : Postcard) := {
  to_stdvec_v2 : WarrenMultihopFrameV2 -> result (list Z) PostcardError;
  take_from_bytes_v2 : list Z -> result (WarrenMultihopFrameV2 * list Z) PostcardError;
}.

Class PostcardV2Laws {P : Postcard} (Q : PostcardV2 P) := {
  take_to_v2 f bs rest : to_stdvec_v2 f = Ok bs -> take_from_bytes_v2 (bs ++ rest) = Ok (f, rest);
}.

(** ** Operations *)

Section PqSessions.
Context `{H : Hpke} `{P : Postcard} `{C : !PqCrypto H} `{Q : !PostcardV2 P}.

Abbreviation err := (MultihopError H P).

Definition encode_frame_v2 (f : WarrenMultihopFrameV2) : result (list Z) err :=
  from_postcard (to_stdvec_v2 f).

Definition decode_frame_v2 (bytes : list Z) : result WarrenMultihopFrameV2 err :=
  if MAX_FRAME_SIZE <? Z.of_nat (length bytes) then Err (Decode DeserializeUnexpectedEnd)
  else
    (p <-? from_postcard (take_from_bytes_v2 bytes);
     let '(frame, rest) := p in
     if negb (bool_decide (rest = [])) then Err TrailingBytes
     else if negb (v2_version frame =? WARREN_HPKE_VERSION_V2)
     then Err (UnsupportedVersion (v2_version frame) WARREN_HPKE_VERSION_V2)
     else Ok frame)%warren.

(** *** X-Wing *)

Definition xwing_combiner (ss_m ss_x ct_x pk_x : list Z) : list Z :=
  sha3_256 (ss_m ++ ss_x ++ ct_x ++ pk_x ++ XWING_LABEL).

Record XWingCiphertext := mkCiphertext { ct_m : list Z; ct_x : list Z }.

Definition pq_key_length (field : string) (got expected : nat) : err :=
  PqKeyLength field (Z.of_nat got) (Z.of_nat expected).

Definition from_wire_parts (ct_m ct_x : list Z) : result XWingCiphertext err :=
  if negb (length ct_m =? XWING_MLKEM_CT_LEN)%nat
  then Err (pq_key_length "mlkem768_ct" (length ct_m) XWING_MLKEM_CT_LEN)
  else Ok (mkCiphertext ct_m ct_x).

Record XWingRecipientPublicKey := mkXPub { ek_m : EncapsulationKey; pub_x : list Z }.
Record XWingRecipientSecretKey := mkXSec { dk_m : DecapsulationKey; sk_x : list Z; sec_pk_x : list Z }.

Definition from_descriptor_bytes (mlkem768_ek x25519_pubkey : list Z) : result XWingRecipientPublicKey err :=
  if negb (length mlkem768_ek =? XWING_MLKEM_EK_LEN)%nat
  then Err (pq_key_length "mlkem768_ek" (length mlkem768_ek) XWING_MLKEM_EK_LEN)
  else Ok (mkXPub (ek_from_bytes mlkem768_ek) x25519_pubkey).

Definition mlkem768_ek_bytes (pk : XWingRecipientPublicKey) : list Z := ek_as_bytes (ek_m pk).

Definition from_parts (dk_m : DecapsulationKey) (sk_x : list Z) : XWingRecipientSecretKey :=
  mkXSec dk_m sk_x (x25519 sk_x X25519_BASEPOINT_BYTES).

Definition derive_deterministic (d z sk_x_seed : list Z) : XWingRecipientSecretKey * XWingRecipientPublicKey :=
  let '(dk_m, ek_m) := generate_deterministic d z in
  let sk := from_parts dk_m sk_x_seed in
  (sk, mkXPub ek_m (sec_pk_x sk)).

Definition from_ikm (mlkem_ikm sk_x : list Z) : XWingRecipientSecretKey * XWingRecipientPublicKey :=
  let expanded := shake256 (MLKEM_IKM_DOMAIN ++ mlkem_ikm) 64 in
  derive_deterministic (take 32 expanded) (drop 32 expanded) sk_x.

Definition xwing_encapsulate (recipient : XWingRecipientPublicKey) (m_seed eph_x_seed : list Z)
  : result (XWingCiphertext * list Z) err :=
  match encapsulate_deterministic (ek_m recipient) m_seed with
  | None => Err PqAead
  | Some (ct_m, ss_m) =>
      let ct_x := x25519 eph_x_seed X25519_BASEPOINT_BYTES in
      let ss_x := x25519 eph_x_seed (pub_x recipient) in
      Ok (mkCiphertext ct_m ct_x, xwing_combiner ss_m ss_x ct_x (pub_x recipient))
  end.

Definition xwing_decapsulate (secret : XWingRecipientSecretKey) (ct : XWingCiphertext)
  : result (list Z) err :=
  if negb (length (ct_m ct) =? XWING_MLKEM_CT_LEN)%nat
  then Err (pq_key_length "mlkem768_ct" (length (ct_m ct)) XWING_MLKEM_CT_LEN)
  else
    match decapsulate (dk_m secret) (ct_m ct) with
    | None => Err PqAead
    | Some ss_m =>
        let ss_x := x25519 (sk_x secret) (ct_x ct) in
        Ok (xwing_combiner ss_m ss_x (ct_x ct) (sec_pk_x secret))
    end.

(** *** Per-packet keys *)

Definition pq_compose_aad (exit_id : list Z) (epoch seq : Z) : list Z :=
  WARREN_PQ_HPKE_AAD_V2 ++ exit_id ++ be_bytes 4 epoch ++ be_bytes 8 seq.

Definition pq_export_info (epoch seq : Z) : list Z :=
  WARREN_PQ_HPKE_AAD_V2 ++ be_bytes 4 epoch ++ be_bytes 8 seq.

Definition pq_export_info_reverse (epoch seq : Z) : list Z :=
  pq_export_info epoch seq ++ [DIRECTION_TAG_REVERSE].

Definition derive_per_packet_key (ss info : list Z) : list Z :=
  hkdf_sha256 WARREN_PQ_HPKE_SALT_V2 ss info.

(** *** The client's side *)

Record PqPendingOldEpoch := mkPqPending {
  pp_ss : list Z;
  pp_encapsulated_key : list Z;
  pp_epoch : Z;
}.

Record PqClientSession := mkPqClient {
  pc_ss : list Z;
  pc_exit_id : list Z;
  pc_encapsulated_key : list Z;
  pc_pq_ct : list Z;
  pc_epoch : Z;
  pc_pending : option PqPendingOldEpoch;
}.

Definition encaps_from_rng (recipient : XWingRecipientPublicKey) (rng : Rng)
  : Rng * result (XWingCiphertext * list Z) err :=
  let '(rng, m_seed) := fill_bytes rng in
  let '(rng, eph_x_seed) := fill_bytes rng in
  (rng, xwing_encapsulate recipient m_seed eph_x_seed).

Definition from_ciphertext (ct : XWingCiphertext) (ss exit_id : list Z) (epoch : Z) : PqClientSession :=
  mkPqClient ss exit_id (ct_x ct) (ct_m ct) epoch None.

Definition pq_client_new (recipient : XWingRecipientPublicKey) (exit_id : list Z) (rng : Rng)
  : Rng * result PqClientSession err :=
  let '(rng, r) := encaps_from_rng recipient rng in
  (rng, (p <-? r; let '(ct, ss) := p in Ok (from_ciphertext ct ss exit_id 0))%warren).

(** The session and what to put on the new epoch's setup frame, or the error and the
    session as it was. *)
Definition pq_rekey (c : PqClientSession) (recipient : XWingRecipientPublicKey) (rng : Rng)
  : Rng * PqClientSession * result (list Z * list Z) err :=
  if u32_max <? pc_epoch c + 1
  then (rng, c, Err (RekeyFailed "epoch counter overflowed u32"))
  else
    let next_epoch := pc_epoch c + 1 in
    let '(rng, r) := encaps_from_rng recipient rng in
    match r with
    | Err e => (rng, c, Err e)
    | Ok (ct, ss) =>
        (rng,
         mkPqClient ss (pc_exit_id c) (ct_x ct) (ct_m ct) next_epoch
           (Some (mkPqPending (pc_ss c) (pc_encapsulated_key c) (pc_epoch c))),
         Ok (ct_x ct, ct_m ct))
    end.

Definition pq_prune (c : PqClientSession) : PqClientSession :=
  mkPqClient (pc_ss c) (pc_exit_id c) (pc_encapsulated_key c) (pc_pq_ct c) (pc_epoch c) None.

Definition pq_has_pending (c : PqClientSession) : bool :=
  match pc_pending c with Some _ => true | None => false end.

Definition pq_pending_value (c : PqClientSession) : option Z := pp_epoch <$> pc_pending c.

(** The body of the client's [seal_with] and of the exit's [seal_response]. *)
Definition pq_seal_with (ss info encapsulated_key exit_id payload : list Z) (epoch seq : Z) (pq_ct : list Z)
  : result WarrenMultihopFrameV2 err :=
  let key := derive_per_packet_key ss info in
  let aad := pq_compose_aad exit_id epoch seq in
  match aead_encrypt key NONCE_ZERO_12 aad payload with
  | None => Err PqAead
  | Some (buf, tag) =>
      Ok (mkFrameV2 WARREN_HPKE_VERSION_V2 exit_id epoch seq encapsulated_key pq_ct tag buf)
  end.

Definition pq_seal_inner (c : PqClientSession) (payload : list Z) (epoch seq : Z) (pq_ct : list Z)
  : result WarrenMultihopFrameV2 err :=
  pq_seal_with (pc_ss c) (pq_export_info epoch seq) (pc_encapsulated_key c) (pc_exit_id c) payload epoch seq pq_ct.

Definition pq_seal_setup (c : PqClientSession) (payload : list Z) (epoch seq : Z)
  : result WarrenMultihopFrameV2 err :=
  pq_seal_inner c payload epoch seq (pc_pq_ct c).

Definition pq_seal (c : PqClientSession) (payload : list Z) (epoch seq : Z)
  : result WarrenMultihopFrameV2 err :=
  pq_seal_inner c payload epoch seq [].

Definition seal_pending_old_epoch (c : PqClientSession) (payload : list Z) (seq : Z)
  : result WarrenMultihopFrameV2 err :=
  match pc_pending c with
  | None => Err (RekeyFailed "no pending old epoch to seal a DATA frame under")
  | Some pending =>
      pq_seal_with (pp_ss pending) (pq_export_info (pp_epoch pending) seq) (pp_encapsulated_key pending)
        (pc_exit_id c) payload (pp_epoch pending) seq []
  end.

Definition open_with_ss (ss exit_id : list Z) (frame : WarrenMultihopFrameV2) (reverse : bool)
  : result (list Z) err :=
  let info :=
    if reverse then pq_export_info_reverse (v2_epoch frame) (v2_seq frame)
    else pq_export_info (v2_epoch frame) (v2_seq frame) in
  let key := derive_per_packet_key ss info in
  let aad := pq_compose_aad exit_id (v2_epoch frame) (v2_seq frame) in
  match aead_decrypt key NONCE_ZERO_12 aad (v2_ciphertext frame) (v2_aead_tag frame) with
  | Some p => Ok p
  | None => Err PqAead
  end.

(** The secret whose epoch a reverse frame names. *)
Definition pq_response_ss (c : PqClientSession) (frame_epoch : Z) : option (list Z) :=
  if frame_epoch =? pc_epoch c then Some (pc_ss c)
  else
    match pc_pending c with
    | Some pending => if pp_epoch pending =? frame_epoch then Some (pp_ss pending) else None
    | None => None
    end.

Definition pq_open_response (c : PqClientSession) (frame : WarrenMultihopFrameV2) : result (list Z) err :=
  if negb (bool_decide (v2_exit_id frame = pc_exit_id c)) then Err ExitIdMismatch
  else if negb (v2_version frame =? WARREN_HPKE_VERSION_V2)
  then Err (UnsupportedVersion (v2_version frame) WARREN_HPKE_VERSION_V2)
  else
    match pq_response_ss c (v2_epoch frame) with
    | None => Err PqAead
    | Some ss => open_with_ss ss (pc_exit_id c) frame true
    end.

(** *** The exit's side *)

Record PqExitSession := mkPqExit {
  px_ss : list Z;
  px_exit_id : list Z;
  px_encapsulated_key : list Z;
}.

Definition pq_exit_new (secret : XWingRecipientSecretKey) (encapsulated_key pq_ct exit_id : list Z)
  : result PqExitSession err :=
  (ct <-? from_wire_parts pq_ct encapsulated_key;
   ss <-? xwing_decapsulate secret ct;
   Ok (mkPqExit ss exit_id encapsulated_key))%warren.

Definition pq_open (s : PqExitSession) (frame : WarrenMultihopFrameV2) : result (list Z) err :=
  if negb (bool_decide (v2_exit_id frame = px_exit_id s)) then Err ExitIdMismatch
  else if negb (v2_version frame =? WARREN_HPKE_VERSION_V2)
  then Err (UnsupportedVersion (v2_version frame) WARREN_HPKE_VERSION_V2)
  else open_with_ss (px_ss s) (px_exit_id s) frame false.

Definition pq_seal_response (s : PqExitSession) (payload : list Z) (epoch seq : Z)
  : result WarrenMultihopFrameV2 err :=
  pq_seal_with (px_ss s) (pq_export_info_reverse epoch seq) (px_encapsulated_key s) (px_exit_id s)
    payload epoch seq [].

End PqSessions.
Arguments XWingRecipientPublicKey H {C}.
Arguments XWingRecipientSecretKey H {C}.

(** ** Key separation *)

(** The export info of a packet of either generation. *)
Definition any_info (v2 : bool) (d : Direction) (epoch seq : Z) : list Z :=
  if v2 then match d with Forward => pq_export_info epoch seq | Reverse => pq_export_info_reverse epoch seq end
  else packet_info d epoch seq.

(** Two packets with the same export info are of one generation, direction, epoch and
    number: the labels keep the data paths apart. *)
Lemma infos_separate v d e s v' d' e' s' :
  in_width 32 e -> in_width 32 e' -> in_width 64 s -> in_width 64 s' ->
  any_info v d e s = any_info v' d' e' s' -> v = v' /\ d = d' /\ e = e' /\ s = s'.
Proof.
  intros He He' Hs Hs' E.
  assert (Hd : forall v d e s, any_info v d e s =
    (if v then WARREN_PQ_HPKE_AAD_V2 else WARREN_HPKE_AAD_V1) ++ be_bytes 4 e ++ be_bytes 8 s ++
    match d with Forward => [] | Reverse => [DIRECTION_TAG_REVERSE] end).
  { intros [] [] ? ?; simpl; rewrite ?app_nil_r; done. }
  rewrite !Hd in E.
  assert (v = v') as ->.
  { destruct v, v'; try done; exfalso; apply (f_equal (fun l => l !! 17%nat)) in E;
      rewrite !(lookup_app_l WARREN_PQ_HPKE_AAD_V2), !(lookup_app_l WARREN_HPKE_AAD_V1) in E
        by (vm_compute; lia); vm_compute in E; discriminate E. }
  apply app_inv_head in E. apply counters_inj in E as (-> & -> & E); try done. by destruct d, d'.
Qed.

(** ** Both directions of a session *)

Section PqDuplex.
Context `{H : Hpke} `{P : Postcard} `{C : !PqCrypto H}.
Context `{HL : !HpkeLaws H} `{CL : !PqCryptoLaws C}.

(** The pair an exit derives and publishes. *)
Definition pq_keypair (sk : XWingRecipientSecretKey H) (pk : XWingRecipientPublicKey H) : Prop :=
  exists d z seed, derive_deterministic d z seed = (sk, pk).

Lemma xwing_agrees sk pk m x :
  pq_keypair sk pk ->
  exists ct ss, xwing_encapsulate pk m x = Ok (ct, ss) /\ length (ct_m ct) = XWING_MLKEM_CT_LEN /\
    xwing_decapsulate sk ct = Ok ss.
Proof using CL.
  intros (d & z & seed & E). unfold derive_deterministic in E.
  destruct (generate_deterministic d z) as [dk ek] eqn:Eg. injection E as <- <-.
  destruct (mlkem_agrees d z dk ek m Eg) as (c & s & He & Hl & Hd).
  unfold xwing_encapsulate, xwing_decapsulate. simpl. rewrite He.
  eexists _, _. split; [done|]. split; [done|]. simpl. rewrite Hl, Nat.eqb_refl, Hd. simpl.
  by rewrite x25519_comm.
Qed.

(** The exit's session for the key and ciphertext of an epoch holds the client's
    secret. *)
Definition pq_matches (sk : XWingRecipientSecretKey H) (xid key ct ss : list Z) : Prop :=
  pq_exit_new sk key ct xid = Ok (mkPqExit ss xid key).

Lemma encaps_matches sk pk xid rng rng' ct ss :
  pq_keypair sk pk -> encaps_from_rng pk rng = (rng', Ok (ct, ss)) -> pq_matches sk xid (ct_x ct) (ct_m ct) ss.
Proof using CL.
  intros Hk. unfold encaps_from_rng. destruct (fill_bytes rng) as [r1 m], (fill_bytes r1) as [r2 x].
  destruct (xwing_agrees sk pk m x Hk) as (ct' & ss' & He & Hl & Hd). rewrite He. intros [= <- <- <-].
  unfold pq_matches, pq_exit_new, from_wire_parts. rewrite Hl, Nat.eqb_refl. simpl.
  by destruct ct'; simpl in *; rewrite Hd.
Qed.

(** An encapsulation to a published key never fails. *)
Lemma encaps_total sk pk rng : pq_keypair sk pk -> exists rng' ct ss, encaps_from_rng pk rng = (rng', Ok (ct, ss)).
Proof using CL.
  intros Hk. unfold encaps_from_rng. destruct (fill_bytes rng) as [r1 m], (fill_bytes r1) as [r2 x].
  destruct (xwing_agrees sk pk m x Hk) as (ct & ss & -> & _). by eexists _, _, _.
Qed.

Inductive pq_reachable (pk : XWingRecipientPublicKey H) (xid : list Z) : PqClientSession -> Prop :=
| pq_reach_new rng rng' c : pq_client_new pk xid rng = (rng', Ok c) -> pq_reachable pk xid c
| pq_reach_rekey c rng rng' c' r :
    pq_reachable pk xid c -> pq_rekey c pk rng = (rng', c', r) -> pq_reachable pk xid c'
| pq_reach_prune c : pq_reachable pk xid c -> pq_reachable pk xid (pq_prune c).

Lemma pq_rekey_ok c pk rng rng' c' k :
  pq_rekey c pk rng = (rng', c', Ok k) ->
  pc_epoch c + 1 <= u32_max /\
  exists ct ss, encaps_from_rng pk rng = (rng', Ok (ct, ss)) /\
    c' = mkPqClient ss (pc_exit_id c) (ct_x ct) (ct_m ct) (pc_epoch c + 1)
           (Some (mkPqPending (pc_ss c) (pc_encapsulated_key c) (pc_epoch c))).
Proof using Type.
  unfold pq_rekey. destruct (Z.ltb_spec u32_max (pc_epoch c + 1)); [done|].
  destruct (encaps_from_rng pk rng) as [rng1 [[ct ss]|e]]; [|done].
  intros [= <- <- <-]. split; [lia|]. by exists ct, ss.
Qed.

Lemma pq_rekey_err c pk rng rng' c' e : pq_rekey c pk rng = (rng', c', Err e) -> c' = c.
Proof using Type.
  unfold pq_rekey. destruct (u32_max <? pc_epoch c + 1); [by intros [= _ -> _]|].
  destruct (encaps_from_rng pk rng) as [rng1 [[ct ss]|e']]; [done|]. by intros [= _ -> _].
Qed.

Lemma pq_client_inv sk pk xid c :
  pq_keypair sk pk -> pq_reachable pk xid c ->
  pc_exit_id c = xid /\ in_width 32 (pc_epoch c) /\
  pq_matches sk xid (pc_encapsulated_key c) (pc_pq_ct c) (pc_ss c) /\
  (forall p, pc_pending c = Some p ->
     pp_epoch p = pc_epoch c - 1 /\ 0 <= pp_epoch p /\
     exists ct, pq_matches sk xid (pp_encapsulated_key p) ct (pp_ss p)).
Proof using CL.
  intros Hk. induction 1 as [rng rng' c Hn|c rng rng' c' [k|e] _ (IHx & IHe & IHm & IHp) Hr|c _ (IHx & IHe & IHm & _)].
  - unfold pq_client_new in Hn. destruct (encaps_from_rng pk rng) as [rng1 [[ct ss]|e]] eqn:Ee; [|done].
    injection Hn as <- <-. split; [done|]. split; [by split; vm_compute|].
    split; [by eapply encaps_matches|done].
  - apply pq_rekey_ok in Hr as (Ho & ct & ss & Hs & ->). unfold in_width, u32_max in *.
    split; [done|]. split; [simpl pc_epoch; lia|]. split; [by eapply encaps_matches|].
    simpl. intros p [= <-]. simpl. split; [lia|]. split; [lia|eauto].
  - by apply pq_rekey_err in Hr as ->.
  - done.
Qed.

(** Sealing under a secret and opening with it, in the same direction. *)
Lemma pq_seal_open ss key xid payload e n ct (reverse : bool) :
  Z.of_nat (length payload) <= p_max ->
  exists f, pq_seal_with ss (if reverse then pq_export_info_reverse e n else pq_export_info e n)
              key xid payload e n ct = Ok f /\
    v2_version f = WARREN_HPKE_VERSION_V2 /\ v2_exit_id f = xid /\ v2_epoch f = e /\
    v2_encapsulated_key f = key /\ v2_pq_ct f = ct /\
    open_with_ss ss xid f reverse = Ok payload.
Proof using HL.
  intros Hp. unfold pq_seal_with, open_with_ss.
  set (k := derive_per_packet_key ss _).
  destruct (encrypt_total k NONCE_ZERO_12 (pq_compose_aad xid e n) payload Hp) as (buf & tag & He).
  rewrite He. eexists. split; [done|]. simpl. repeat (split; [done|]).
  subst k. by destruct reverse; rewrite (decrypt_encrypt _ _ _ _ _ _ He).
Qed.

Lemma pq_forward sk xid key ct ss payload e n ct' :
  pq_matches sk xid key ct ss -> Z.of_nat (length payload) <= p_max ->
  exists f, pq_seal_with ss (pq_export_info e n) key xid payload e n ct' = Ok f /\
    v2_epoch f = e /\ v2_encapsulated_key f = key /\ v2_pq_ct f = ct' /\
    pq_open (mkPqExit ss xid key) f = Ok payload.
Proof using HL.
  intros Hm Hp. destruct (pq_seal_open ss key xid payload e n ct' false Hp) as (f & Hf & Hv & Hx & He & Hk & Hc & Ho).
  exists f. repeat (split; [done|]). unfold pq_open. simpl. by rewrite bool_decide_true, Hv by done.
Qed.

(** C7.  A post-quantum session works in both directions and across rekeys: any
    reachable client session's setup frame gives the exit a session from which it opens
    that frame and every later data frame of the epoch, though these carry no ML-KEM
    ciphertext; the client opens the answers; after a rekey it still opens answers of
    the old epoch and can seal data for the session the exit already holds, until the
    overlap is pruned. *)
Theorem pq_session_duplex sk pk xid c payload reply n m :
  pq_keypair sk pk -> pq_reachable pk xid c ->
  Z.of_nat (length payload) <= p_max -> Z.of_nat (length reply) <= p_max ->
  exists f s g,
    pq_seal_setup c payload (pc_epoch c) n = Ok f /\
    pq_exit_new sk (v2_encapsulated_key f) (v2_pq_ct f) xid = Ok s /\ pq_open s f = Ok payload /\
    (exists f', pq_seal c payload (pc_epoch c) m = Ok f' /\ v2_pq_ct f' = [] /\
       v2_encapsulated_key f' = v2_encapsulated_key f /\ pq_open s f' = Ok payload) /\
    pq_seal_response s reply (v2_epoch f) m = Ok g /\ pq_open_response c g = Ok reply /\
    (forall rng rng' c' k, pq_rekey c pk rng = (rng', c', Ok k) ->
       pq_open_response c' g = Ok reply /\
       (exists f', seal_pending_old_epoch c' payload m = Ok f' /\ v2_pq_ct f' = [] /\
          v2_encapsulated_key f' = v2_encapsulated_key f /\ pq_open s f' = Ok payload) /\
       pq_open_response (pq_prune c') g = Err PqAead).
Proof using HL CL.
  intros Hk Hc Hp Hr. destruct (pq_client_inv sk pk xid c Hk Hc) as (Hx & He & Hm & _). subst xid.
  set (s := mkPqExit (pc_ss c) (pc_exit_id c) (pc_encapsulated_key c)).
  destruct (pq_forward _ _ _ _ _ payload (pc_epoch c) n (pc_pq_ct c) Hm Hp) as (f & Hf & Hfe & Hfk & Hfc & Hfo).
  destruct (pq_forward _ _ _ _ _ payload (pc_epoch c) m [] Hm Hp) as (f1 & Hf1 & _ & Hk1 & Hc1 & Ho1).
  destruct (pq_seal_open (pc_ss c) (pc_encapsulated_key c) (pc_exit_id c) reply (pc_epoch c) m [] true Hr)
    as (g & Hg & Hgv & Hgx & Hge & _ & _ & Hgo).
  exists f, s, g. split; [exact Hf|]. rewrite Hfk, Hfc, Hfe. repeat (split; [done|]).
  split; [by exists f1|]. split; [exact Hg|].
  assert (Hrep : forall c1, pc_exit_id c1 = pc_exit_id c -> pq_open_response c1 g =
    match pq_response_ss c1 (pc_epoch c) with Some ss => open_with_ss ss (pc_exit_id c) g true | None => Err PqAead end).
  { intros c1 E1. unfold pq_open_response. rewrite E1, Hgx, bool_decide_true, Hgv, Hge by done. done. }
  split; [rewrite Hrep by done; unfold pq_response_ss; by rewrite Z.eqb_refl|].
  intros rng rng' c' k (_ & ct & ss & _ & ->)%pq_rekey_ok.
  assert (Hlt : (pc_epoch c =? pc_epoch c + 1) = false) by (apply Z.eqb_neq; lia).
  split; [rewrite Hrep by done; unfold pq_response_ss; simpl; by rewrite Hlt, Z.eqb_refl|].
  split; [by exists f1|]. rewrite Hrep by done. unfold pq_response_ss. simpl. by rewrite Hlt.
Qed.

(** The key a client reads from the descriptor is the one the exit derived. *)
Lemma descriptor_roundtrip sk pk :
  pq_keypair sk pk -> from_descriptor_bytes (mlkem768_ek_bytes pk) (sec_pk_x sk) = Ok pk.
Proof using CL.
  intros (d & z & seed & E). unfold derive_deterministic in E.
  destruct (generate_deterministic d z) as [dk ek] eqn:Eg. injection E as <- <-.
  destruct (ek_roundtrip d z dk ek Eg) as [Hl Hb]. unfold from_descriptor_bytes, mlkem768_ek_bytes. simpl.
  by rewrite Hl, Nat.eqb_refl, Hb.
Qed.

End PqDuplex.

(** A frame decodes to itself. *)
Lemma decode_encode_v2 `{H : Hpke} `{P : Postcard} `{Q : !PostcardV2 P} `{QL : !PostcardV2Laws Q} f bs extra :
  encode_frame_v2 f = Ok bs -> v2_version f = WARREN_HPKE_VERSION_V2 ->
  Z.of_nat (length (bs ++ extra)) <= MAX_FRAME_SIZE ->
  decode_frame_v2 (bs ++ extra) = if bool_decide (extra = []) then Ok f else Err TrailingBytes.
Proof.
  intros He Hv Hl. unfold encode_frame_v2, from_postcard in He.
  destruct (to_stdvec_v2 f) as [bs'|] eqn:Et; [|done]. injection He as ->.
  unfold decode_frame_v2. destruct (Z.ltb_spec MAX_FRAME_SIZE (Z.of_nat (length (bs ++ extra)))); [lia|].
  rewrite (take_to_v2 f bs extra Et). simpl. case_bool_decide; [|done]. simpl. by rewrite Hv.
Qed.

(** ** A toy suite

    The "ML-KEM" sends its message in the clear, padded to the length of a ciphertext. *)

#[export] Instance toy_pq : PqCrypto toy_hpke := {|
  EncapsulationKey := Z; DecapsulationKey := Z;
  fill_bytes rng := (rng + 1, [rng]) : @Rng toy_hpke * list Z;
  generate_deterministic d z := (be_val d, be_val d);
  ek_from_bytes bs := be_val (drop (XWING_MLKEM_EK_LEN - 1) bs);
  ek_as_bytes ek := replicate (XWING_MLKEM_EK_LEN - 1) 0 ++ [ek];
  encapsulate_deterministic ek m := Some (be_val m :: replicate (XWING_MLKEM_CT_LEN - 1) 0, [ek; be_val m]);
  decapsulate dk ct := (fun m => [dk; m]) <$> head ct;
  x25519 a b := [be_val a * be_val b];
  X25519_BASEPOINT_BYTES := [9];
  sha3_256 bs := bs;
  shake256 bs n := take n (bs ++ replicate n 0);
  hkdf_sha256 salt ikm info := salt ++ ikm ++ info;
|}.

#[export] Instance toy_pq_laws : PqCryptoLaws toy_pq.
Proof.
  constructor; unfold toy_pq; cbn -[replicate].
  - intros d z dk ek m [= <- <-]. eexists _, _. split; [done|]. split; [|done].
    cbn -[replicate]. rewrite length_replicate. unfold XWING_MLKEM_CT_LEN. lia.
  - intros d z dk ek [= <- <-]. rewrite length_app, length_replicate. split; [unfold XWING_MLKEM_EK_LEN; simpl; lia|].
    rewrite drop_app_ge, length_replicate, Nat.sub_diag by (by rewrite length_replicate). unfold be_val. simpl. lia.
  - intros a b. unfold be_val. simpl. f_equal. lia.
Qed.

Definition toy_pair : XWingRecipientSecretKey toy_hpke * XWingRecipientPublicKey toy_hpke :=
  derive_deterministic [3] [4] [5].

Lemma pq_session_duplex_witness :
  exists (c : PqClientSession) f s, pq_seal_setup (H := toy_hpke) (P := toy_postcard) c [1; 2; 3] (pc_epoch c) 7 = Ok f /\
    pq_exit_new (H := toy_hpke) (P := toy_postcard) (fst toy_pair) (v2_encapsulated_key f) (v2_pq_ct f) [9] = Ok s /\
    pq_open (H := toy_hpke) (P := toy_postcard) s f = Ok [1; 2; 3].
Proof.
  destruct (@pq_client_new toy_hpke toy_postcard toy_pq (snd toy_pair) [9] (0 : @Rng toy_hpke)) as [rng [c|e]] eqn:E.
  - destruct (pq_session_duplex (H := toy_hpke) (P := toy_postcard) (fst toy_pair) (snd toy_pair) [9] c [1; 2; 3] [4] 7 8)
      as (f & s & g & H1 & H2 & H3 & _).
    + exists [3], [4], [5]. reflexivity.
    + exact (pq_reach_new (H := toy_hpke) (P := toy_postcard) (snd toy_pair) [9] (0 : @Rng toy_hpke) rng c E).
    + vm_compute. discriminate.
    + vm_compute. discriminate.
    + exists c, f, s. split; [exact H1|]. split; [exact H2|exact H3].
  - vm_compute in E. discriminate E.
Defined.

#[export] Instance toy_postcard_v2 : PostcardV2 toy_postcard := {|
  to_stdvec_v2 f :=
    Ok (v2_version f :: v2_epoch f :: v2_seq f :: put (v2_exit_id f) ++ put (v2_encapsulated_key f) ++
        put (v2_pq_ct f) ++ put (v2_aead_tag f) ++ put (v2_ciphertext f))
    : result (list Z) (@PostcardError toy_postcard);
  take_from_bytes_v2 bs :=
    match bs with
    | v :: e :: s :: rest =>
        let '(xid, rest) := get rest in let '(key, rest) := get rest in let '(ct, rest) := get rest in
        let '(tag, rest) := get rest in let '(buf, rest) := get rest in
        Ok (mkFrameV2 v xid e s key ct tag buf, rest)
    | _ => Err tt
    end;
|}.

#[export] Instance toy_postcard_v2_laws : PostcardV2Laws toy_postcard_v2.
Proof.
  constructor. intros [v xid e s key ct tag buf] bs rest E.
  assert (bs = v :: e :: s :: put xid ++ put key ++ put ct ++ put tag ++ put buf) as ->
    by (symmetry; apply (f_equal (fun r => match r with Ok b => b | Err _ => [] end)) in E; exact E).
  rewrite <- !app_comm_cons, <- !app_assoc. unfold take_from_bytes_v2, toy_postcard_v2. by rewrite !get_put.
Qed.
