(* ===== verification/ExitReceive.v ===== *)
(** The exit's receive path
    ([crates/warrenguard-multihop-server/src/multihop.rs]): per-epoch replay
    windows, the session caches, and the datagram loops of all connections.

    The cache and every replay window sit behind locks and are shared by the
    receive loops of all connections.  [System] is that shared state: the cache,
    the windows as a heap addressed by the pointers ([Arc]s) the cache entries
    and the loops hold, and the frames in flight between their lookup and their
    replay check.  An [Event] is one critical section: [Arrive] is a datagram up
    to the lookup of its session, [Finish] the rest of its way, [Refresh] the
    keepalive of a post-quantum connection.  Any interleaving of the loops is a list
    of events.

    The classical and the post-quantum loops differ in their frames, their sessions
    and in which frames can build a session: [Datapath] is what the two have in
    common, [v1_path] and [v2_path] are the two.  The session-creation budget is a
    floating-point token bucket, which is not modelled: its verdict is part of the
    event. *)

From S2P Require Import Prelude ReplayWindow MultihopSession PqSession.
Import MultihopSession.

(** ** Per-epoch replay windows *)

Definition REPLAY_EPOCHS_KEPT : nat := 4.

(** The struct is its one field: the window of each epoch. *)
Abbreviation EpochReplayWindows := (gmap Z ReplayWindow.t).

(** [keys().min()]. *)
Definition oldest (m : EpochReplayWindows) : option Z :=
  match (map_to_list m).*1 with
  | [] => None
  | e :: es => Some (fold_left Z.min es e)
  end.

(** The trimming loop, which removes one epoch per turn. *)
Fixpoint trim_epochs (fuel : nat) (m : EpochReplayWindows) : EpochReplayWindows :=
  match fuel with
  | O => m
  | S fuel' =>
      if (size m <=? REPLAY_EPOCHS_KEPT)%nat then m
      else
        match oldest m with
        | Some e => trim_epochs fuel' (delete e m)
        | None => m
        end
  end.

Definition epoch_check_and_record (m : EpochReplayWindows) (seq epoch : Z)
  : EpochReplayWindows * result unit ReplayWindow.MultihopError :=
  let '(w, r) := ReplayWindow.check_and_record (default ReplayWindow.new (m !! epoch)) seq epoch in
  let m := <[epoch := w]> m in
  match r with
  | Err e => (m, Err e)
  | Ok _ => (trim_epochs (size m) m, Ok tt)
  end.

(** ** The session caches *)

Definition SESSION_CACHE_TTL : Z := from_secs 5.

Abbreviation Heap := (list EpochReplayWindows).

(** What the two data paths have in common.  [path_build] is what a frame builds its
    session with, [None] for a frame that can only look one up. *)
Class Datapath := {
  Frame : Type;
  Session : Type;
  PathError : Type;
  rate_limited : PathError;
  path_decode : list Z -> result Frame PathError;
  path_exit_id : Frame -> list Z;
  path_key : Frame -> list Z;
  path_epoch : Frame -> Z;
  path_seq : Frame -> Z;
  path_build : list Z -> Frame -> option (result Session PathError);
  path_open : Session -> Frame -> result (list Z) PathError;
  path_seal : Session -> list Z -> Z -> Z -> result Frame PathError;
}.

#[export] Instance v1_path `{H : Hpke} `{P : Postcard} (privkey : PrivateKey) : Datapath := {|
  Frame := WarrenMultihopFrame; Session := ExitSession; PathError := MultihopError H P;
  rate_limited := SessionCreateRateLimited;
  path_decode := decode_frame;
  path_exit_id := exit_id; path_key := encapsulated_key; path_epoch := epoch; path_seq := seq;
  path_build exit f := Some (exit_new privkey (encapsulated_key f) exit);
  path_open := open_owned; path_seal := seal_response_owned;
|}.

#[export] Instance v2_path `{H : Hpke} `{P : Postcard} `{C : !PqCrypto H} `{Q : !PostcardV2 P}
  (secret : XWingRecipientSecretKey H) : Datapath := {|
  Frame := WarrenMultihopFrameV2; Session := PqExitSession; PathError := MultihopError H P;
  rate_limited := SessionCreateRateLimited;
  path_decode := decode_frame_v2;
  path_exit_id := v2_exit_id; path_key := v2_encapsulated_key; path_epoch := v2_epoch; path_seq := v2_seq;
  path_build exit f :=
    if bool_decide (v2_pq_ct f = []) then None
    else Some (pq_exit_new secret (v2_encapsulated_key f) (v2_pq_ct f) exit);
  path_open := pq_open; path_seal := pq_seal_response;
|}.

Section Receive.
Context {D : Datapath}.
Variable ttl : Z.
Variable exit : list Z.

(** The replay windows are shared: an entry holds a pointer into the heap. *)
Record SessionCacheEntry := mkEntry {
  entry_session : Session;
  entry_windows : nat;
  last_seen_at : Z;
}.

Record SessionCacheState := mkCache {
  map : gmap (list Z) SessionCacheEntry;
  last_sweep : option Z;
}.

Record SessionHandle := mkHandle {
  session : Session;
  replay_windows : nat;
}.

Definition fresh_enough (now : Z) (e : SessionCacheEntry) : bool :=
  duration_since now (last_seen_at e) <? ttl.

Definition sweep_if_due (c : SessionCacheState) (now : Z) : SessionCacheState :=
  if match last_sweep c with Some t => duration_since now t <? ttl | None => false end then c
  else mkCache (filter (fun ke => fresh_enough now ke.2 = true) (map c)) (Some now).

(** The live entry, refreshed, and the map that holds it. *)
Definition live_entry (c : SessionCacheState) (key : list Z) (now : Z)
  : option (SessionCacheEntry * SessionCacheState) :=
  match map c !! key with
  | Some e =>
      if fresh_enough now e
      then
        let e := mkEntry (entry_session e) (entry_windows e) now in
        Some (e, mkCache (<[key := e]> (map c)) (last_sweep c))
      else None
  | None => None
  end.

(** [SessionCache::get_or_insert_at] and [PqSessionCache::establish_or_get_at], which
    differ in what [build] is.  [budget] is the verdict of the creation bucket, asked
    on a miss. *)
Definition get_or_insert_at (c : SessionCacheState) (h : Heap) (key : list Z)
  (build : result Session PathError) (now : Z) (budget : bool)
  : SessionCacheState * Heap * result SessionHandle PathError :=
  let c := sweep_if_due c now in
  match live_entry c key now with
  | Some (e, c) => (c, h, Ok (mkHandle (entry_session e) (entry_windows e)))
  | None =>
      if negb budget then (c, h, Err rate_limited)
      else
        match build with
        | Err e => (c, h, Err e)
        | Ok s =>
            let ptr := length h in
            (mkCache (<[key := mkEntry s ptr now]> (map c)) (last_sweep c), h ++ [∅],
             Ok (mkHandle s ptr))
        end
  end.

(** [PqSessionCache::get_at]. *)
Definition get_at (c : SessionCacheState) (key : list Z) (now : Z) : SessionCacheState * option SessionHandle :=
  let c := sweep_if_due c now in
  match live_entry c key now with
  | Some (e, c) => (c, Some (mkHandle (entry_session e) (entry_windows e)))
  | None => (c, None)
  end.

(** [PqSessionCache::refresh_at]. *)
Definition refresh_at (c : SessionCacheState) (key : list Z) (now : Z) : SessionCacheState * bool :=
  let c := sweep_if_due c now in
  match live_entry c key now with
  | Some (_, c) => (c, true)
  | None => (c, false)
  end.

(** ** The receive loops *)

(** A frame between its lookup and its replay check. *)
Record InFlight := mkFlight {
  handle : SessionHandle;
  frame : Frame;
}.

(** An authenticated, first-seen payload: what the loop hands on. *)
Record Delivery := mkDelivery {
  d_key : list Z;
  d_epoch : Z;
  d_seq : Z;
  d_plaintext : list Z;
}.

Record System := mkSystem {
  cache : SessionCacheState;
  heap : Heap;
  in_flight : list InFlight;
  delivered : list Delivery;
}.

Definition initial : System := mkSystem (mkCache ∅ None) [] [] [].

Inductive Event :=
| Arrive (datagram : list Z) (now : Z) (budget : bool)
| Finish (i : nat)
| Refresh (key : list Z) (now : Z).

(** The session of a frame: the lookup both loops and both setups make. *)
Definition find_session (c : SessionCacheState) (h : Heap) (f : Frame) (now : Z) (budget : bool)
  : SessionCacheState * Heap * option SessionHandle :=
  match path_build exit f with
  | None => let '(c, r) := get_at c (path_key f) now in (c, h, r)
  | Some build =>
      let '(c, h, r) := get_or_insert_at c h (path_key f) build now budget in
      (c, h, match r with Ok hd => Some hd | Err _ => None end)
  end.

Definition arrive (s : System) (datagram : list Z) (now : Z) (budget : bool) : System :=
  match path_decode datagram with
  | Err _ => s
  | Ok f =>
      if negb (bool_decide (path_exit_id f = exit)) then s
      else
        let '(c, h, r) := find_session (cache s) (heap s) f now budget in
        mkSystem c h
          (match r with Some hd => in_flight s ++ [mkFlight hd f] | None => in_flight s end)
          (delivered s)
  end.

Definition finish (s : System) (i : nat) : System :=
  match in_flight s !! i with
  | None => s
  | Some t =>
      let rest := mkSystem (cache s) (heap s) (delete i (in_flight s)) (delivered s) in
      let ptr := replay_windows (handle t) in
      match path_open (session (handle t)) (frame t), heap s !! ptr with
      | Ok p, Some m =>
          let '(m, r) := epoch_check_and_record m (path_seq (frame t)) (path_epoch (frame t)) in
          mkSystem (cache s) (<[ptr := m]> (heap s)) (delete i (in_flight s))
            (match r with
             | Ok _ =>
                 delivered s ++ [mkDelivery (path_key (frame t)) (path_epoch (frame t)) (path_seq (frame t)) p]
             | Err _ => delivered s
             end)
      | _, _ => rest
      end
  end.

Definition refresh (s : System) (key : list Z) (now : Z) : System :=
  mkSystem (fst (refresh_at (cache s) key now)) (heap s) (in_flight s) (delivered s).

Definition step (s : System) (ev : Event) : System :=
  match ev with
  | Arrive datagram now budget => arrive s datagram now budget
  | Finish i => finish s i
  | Refresh key now => refresh s key now
  end.

Definition run (s : System) (evs : list Event) : System := fold_left step evs s.

(** ** Lemmas on the cache *)

Lemma sweep_sub c now key e : map (sweep_if_due c now) !! key = Some e -> map c !! key = Some e.
Proof.
  unfold sweep_if_due. case_match; [done|]. simpl. by intros [? _]%map_lookup_filter_Some.
Qed.

Lemma sweep_keeps c now key e :
  map c !! key = Some e -> duration_since now (last_seen_at e) < ttl ->
  map (sweep_if_due c now) !! key = Some e.
Proof.
  intros He Hf. unfold sweep_if_due. case_match; [done|]. simpl.
  apply map_lookup_filter_Some. split; [done|]. unfold fresh_enough. simpl. by apply Z.ltb_lt.
Qed.

(** What one lookup does, after the sweep [c1]: a hit refreshes the entry, a miss
    fails or builds a session with windows of its own. *)
Definition lookup_outcome (c1 : SessionCacheState) (h : Heap) (f : Frame) (now : Z)
  (out : SessionCacheState * Heap * option SessionHandle) : Prop :=
  let '(c', h', r) := out in
  (exists e, map c1 !! path_key f = Some e /\ h' = h /\
     map c' = <[path_key f := mkEntry (entry_session e) (entry_windows e) now]> (map c1) /\
     r = Some (mkHandle (entry_session e) (entry_windows e))) \/
  (forall e, map c1 !! path_key f = Some e -> ttl <= duration_since now (last_seen_at e)) /\
  (map c' = map c1 /\ h' = h /\ r = None \/
   exists s, path_build exit f = Some (Ok s) /\ h' = h ++ [∅] /\
     map c' = <[path_key f := mkEntry s (length h) now]> (map c1) /\ r = Some (mkHandle s (length h))).

(** The live entry, or none that is fresh enough. *)
Lemma live_entry_cases c key now :
  (exists e, map c !! key = Some e /\ live_entry c key now =
     Some (mkEntry (entry_session e) (entry_windows e) now,
           mkCache (<[key := mkEntry (entry_session e) (entry_windows e) now]> (map c)) (last_sweep c))) \/
  (forall e, map c !! key = Some e -> ttl <= duration_since now (last_seen_at e)) /\ live_entry c key now = None.
Proof.
  unfold live_entry. destruct (map c !! key) as [e|]; [|by right]. destruct (fresh_enough now e) eqn:Ef.
  - left. by exists e.
  - right. split; [|done]. intros ? [= <-]. by apply Z.ltb_ge.
Qed.

Lemma find_session_outcome c h f now budget :
  lookup_outcome (sweep_if_due c now) h f now (find_session c h f now budget).
Proof.
  unfold lookup_outcome, find_session, get_at, get_or_insert_at.
  destruct (live_entry_cases (sweep_if_due c now) (path_key f) now) as [(e & He & ->)|[Hold ->]].
  - destruct (path_build exit f); left; by exists e.
  - destruct (path_build exit f) as [[s|x]|], budget; simpl; right; auto.
    split; [done|]. right. by exists s.
Qed.

(** ** One session's history *)

Variable k : list Z.

(** An epoch, and the newer ones that frames of the session carry. *)
Variable e0 : Z.
Variable es : list Z.
Hypothesis es_kept : (length es < REPLAY_EPOCHS_KEPT)%nat.

(** The sequence numbers of epoch [e] delivered for the session [k]. *)
Definition seen_of (ds : list Delivery) (e : Z) : gset Z :=
  list_to_set (d_seq <$> filter (fun d => d_key d = k /\ d_epoch d = e) ds).

(** The window of [e0] represents exactly what was delivered of it, and every newer window is of one of [es]. *)
Definition tracks (ds : list Delivery) (m : EpochReplayWindows) : Prop :=
  (forall e w, m !! e = Some w -> e0 < e -> e ∈ es) /\
  match m !! e0 with
  | Some w => ReplayWindow.repr w (seen_of ds e0)
  | None => seen_of ds e0 = ∅
  end.

Lemma seen_of_snoc ds d e :
  seen_of (ds ++ [d]) e =
    if decide (d_key d = k /\ d_epoch d = e) then {[d_seq d]} ∪ seen_of ds e else seen_of ds e.
Proof.
  unfold seen_of. rewrite filter_app, fmap_app, list_to_set_app_L. simpl. rewrite filter_cons, filter_nil.
  case_decide; simpl; set_solver.
Qed.

Lemma seen_of_elem ds e s :
  s ∈ seen_of ds e <-> exists d, d ∈ ds /\ d_key d = k /\ d_epoch d = e /\ d_seq d = s.
Proof.
  unfold seen_of. rewrite elem_of_list_to_set, list_elem_of_fmap. setoid_rewrite list_elem_of_filter.
  naive_solver.
Qed.

Lemma size_list_to_set_le (l : list Z) : (size (list_to_set l : gset Z) <= length l)%nat.
Proof.
  induction l as [|x l IH]; simpl; [done|]. etrans; [|apply le_n_S, IH].
  destruct (decide (x ∈ (list_to_set l : gset Z))) as [Hx|Hx].
  - assert ({[x]} ∪ (list_to_set l : gset Z) = list_to_set l) as -> by set_solver. lia.
  - rewrite size_union by set_solver. rewrite size_singleton. lia.
Qed.

Lemma oldest_least m e : oldest m = Some e -> is_Some (m !! e) /\ forall e' w, m !! e' = Some w -> e <= e'.
Proof using Type.
  clear es_kept. unfold oldest. destruct ((map_to_list m).*1) as [|x xs] eqn:Ex; [done|]. intros [= <-].
  assert (Hx : fold_left Z.min xs x ∈ x :: xs /\ forall y, y ∈ x :: xs -> fold_left Z.min xs x <= y).
  { clear Ex. revert x. induction xs as [|y ys IH]; intros x; simpl; [split; [by left|]; by intros y ->%list_elem_of_singleton|].
    destruct (IH (Z.min x y)) as [Hin Hle]. split.
    - destruct (Z.min_spec x y) as [[_ E]|[_ E]]; rewrite E in *; set_solver.
    - intros z [->|[->|Hz]%elem_of_cons]%elem_of_cons; [| |by apply Hle; right];
        (etrans; [apply Hle; left|]); lia. }
  rewrite <- Ex in Hx. destruct Hx as [Hin Hle]. split.
  - apply list_elem_of_fmap in Hin as ([e w] & -> & Hw%elem_of_map_to_list). eauto.
  - intros e' w' Hw'. apply Hle, list_elem_of_fmap. exists (e', w'). by rewrite elem_of_map_to_list.
Qed.

(** As long as fewer than the kept number of epochs are newer, the trimming loop leaves the window of [e0]. *)
Lemma trim_kept fuel m : (forall e w, m !! e = Some w -> e0 < e -> e ∈ es) -> trim_epochs fuel m !! e0 = m !! e0.
Proof.
  revert m. induction fuel as [|fuel IH]; intros m Hm; [done|]. cbn [trim_epochs].
  destruct (Nat.leb_spec (size m) REPLAY_EPOCHS_KEPT) as [|Hs]; [done|]. destruct (oldest m) as [e|] eqn:Eo; [|done].
  destruct (oldest_least m e Eo) as [_ Hle].
  assert (Hd : forall e' w, delete e m !! e' = Some w -> e0 < e' -> e' ∈ es) by (intros e' w [_ Hw]%lookup_delete_Some; eauto).
  rewrite (IH _ Hd). apply lookup_delete_ne. intros ->. exfalso.
  assert (Hdom : dom m ⊆ ({[e0]} ∪ list_to_set es : gset Z)).
  { intros x [w Hw]%elem_of_dom. specialize (Hle x w Hw). destruct (decide (x = e0)); [set_solver|].
    apply elem_of_union_r, elem_of_list_to_set, (Hm x w Hw). lia. }
  apply subseteq_size in Hdom. rewrite (size_dom (D := gset Z)) in Hdom.
  pose proof (size_list_to_set_le es). pose proof (size_union_alt ({[e0]} : gset Z) (list_to_set es)) as Hu.
  rewrite size_singleton in Hu. pose proof (subseteq_size (list_to_set es ∖ {[e0]} : gset Z) (list_to_set es) ltac:(set_solver)).
  unfold REPLAY_EPOCHS_KEPT in *. lia.
Qed.

Lemma trim_sub fuel m e w : trim_epochs fuel m !! e = Some w -> m !! e = Some w.
Proof.
  revert m. induction fuel as [|fuel IH]; intros m; [done|]. cbn [trim_epochs].
  destruct (size m <=? REPLAY_EPOCHS_KEPT)%nat; [done|]. destruct (oldest m); [|done].
  by intros [_ Hw]%IH%lookup_delete_Some.
Qed.

Lemma record_tracks m ds e s m' r p :
  tracks ds m -> (e0 < e -> e ∈ es) -> epoch_check_and_record m s e = (m', r) ->
  match r with
  | Ok _ => (e = e0 -> s ∉ seen_of ds e0) /\ tracks (ds ++ [mkDelivery k e s p]) m'
  | Err _ => tracks ds m'
  end.
Proof.
  intros [Hnew Ht] He. unfold epoch_check_and_record.
  destruct (ReplayWindow.check_and_record (default ReplayWindow.new (m !! e)) s e) as [w rr] eqn:Ew.
  assert (Hes : forall e' w', <[e := w]> m !! e' = Some w' -> e0 < e' -> e' ∈ es).
  { intros e' w' [[-> _]|[_ Hw]]%lookup_insert_Some; [done|]. by eapply Hnew. }
  assert (Hw : e = e0 -> match rr with
    | Ok _ => s ∉ seen_of ds e0 /\ ReplayWindow.repr w ({[s]} ∪ seen_of ds e0)
    | Err _ => ReplayWindow.repr w (seen_of ds e0) end).
  { intros ->. assert (Hr : ReplayWindow.repr (default ReplayWindow.new (m !! e0)) (seen_of ds e0)).
    { destruct (m !! e0); [done|]. rewrite Ht. apply ReplayWindow.repr_new. }
    pose proof (ReplayWindow.check_and_record_step _ _ s e0 Hr) as Hstep. rewrite Ew in Hstep.
    destruct (decide (ReplayWindow.acceptable (seen_of ds e0) s)) as [Ha|Ha]; destruct Hstep as [-> Hw]; [|by rewrite Hw].
    split; [apply Ha|done]. }
  destruct rr as [u|]; intros [= <- <-].
  - split; [intros E; by apply Hw|]. split; [intros e' w' Hw'%trim_sub; by eapply Hes|].
    rewrite trim_kept by done. rewrite seen_of_snoc. simpl. destruct (decide (e = e0)) as [->|Hne].
    + rewrite lookup_insert_eq. rewrite decide_True by done. by apply Hw.
    + rewrite lookup_insert_ne, decide_False by naive_solver. done.
  - split; [done|]. destruct (decide (e = e0)) as [->|Hne]; [rewrite lookup_insert_eq; by apply Hw|by rewrite lookup_insert_ne].
Qed.

(** Deliveries of other sessions are not this session's. *)
Lemma tracks_other ds d m : d_key d <> k -> tracks ds m -> tracks (ds ++ [d]) m.
Proof. intros Hk [Hn Ht]. split; [done|]. by rewrite seen_of_snoc, decide_False by tauto. Qed.

(** ** The invariant of the system *)

(** A session some frame of the key builds. *)
Definition built (key : list Z) (s : Session) : Prop :=
  exists f, path_key f = key /\ path_build exit f = Some (Ok s).

(** The frames of a newer epoch that open for [k] carry one of [es]. *)
Definition opens_known (f : Frame) : Prop :=
  forall s p, path_key f = k -> built k s -> path_open s f = Ok p -> e0 < path_epoch f -> path_epoch f ∈ es.

(** [owner] names the session each window of the heap was made for. *)
Record SInv (owner : list (list Z)) (last : option Z) (s : System) : Prop := mkSInv {
  si_len : length owner = length (heap s);
  si_entry key e : map (cache s) !! key = Some e ->
    owner !! entry_windows e = Some key /\ built key (entry_session e);
  si_flight t : t ∈ in_flight s ->
    owner !! replay_windows (handle t) = Some (path_key (frame t)) /\
    built (path_key (frame t)) (session (handle t)) /\
    opens_known (frame t);
  si_live ptr : owner !! ptr = Some k ->
    exists e, map (cache s) !! k = Some e /\ entry_windows e = ptr /\ last = Some (last_seen_at e);
  si_none : k ∉ owner -> seen_of (delivered s) e0 = ∅;
  si_tracks ptr m : owner !! ptr = Some k -> heap s !! ptr = Some m -> tracks (delivered s) m;
  si_once : NoDup (d_seq <$> filter (fun d => d_key d = k /\ d_epoch d = e0) (delivered s));
}.

Lemma initial_inv : SInv [] None initial.
Proof.
  split; try done; simpl.
  - intros t Ht. by apply not_elem_of_nil in Ht.
  - constructor.
Qed.

(** A time the session's entry survives the sweep at. *)
Definition alive_at (last : option Z) (now : Z) : Prop :=
  match last with Some t => duration_since now t < ttl | None => True end.

(** The session's entry outlives a lookup of whatever key. *)
Lemma live_after_sweep owner last s now ptr :
  SInv owner last s -> alive_at last now -> owner !! ptr = Some k ->
  exists e, map (sweep_if_due (cache s) now) !! k = Some e /\ entry_windows e = ptr /\
    last = Some (last_seen_at e) /\ duration_since now (last_seen_at e) < ttl.
Proof.
  intros HI Ha Ho. destruct (si_live _ _ _ HI ptr Ho) as (e & He & Hp & ->).
  exists e. split; [by apply sweep_keeps|done].
Qed.

(** A hit: the entry of [key] is refreshed. *)
Lemma arrive_hit owner last s now f e c' :
  SInv owner last s -> alive_at last now -> opens_known f ->
  map (sweep_if_due (cache s) now) !! path_key f = Some e ->
  map c' = <[path_key f := mkEntry (entry_session e) (entry_windows e) now]>
             (map (sweep_if_due (cache s) now)) ->
  SInv owner (if decide (path_key f = k) then Some now else last)
    (mkSystem c' (heap s) (in_flight s ++ [mkFlight (mkHandle (entry_session e) (entry_windows e)) f])
       (delivered s)).
Proof.
  intros HI Ha Hf He Hc. pose proof (sweep_sub _ _ _ _ He) as He0.
  destruct (si_entry _ _ _ HI _ _ He0) as [Hown Hnew].
  split; simpl; try apply HI.
  - intros key x. rewrite Hc. intros [[<- <-]|[_ Hx]]%lookup_insert_Some; [done|].
    apply (si_entry _ _ _ HI). by eapply sweep_sub.
  - intros t [Ht| ->%list_elem_of_singleton]%elem_of_app; [by apply HI|done].
  - intros ptr Ho. destruct (live_after_sweep _ _ _ now ptr HI Ha Ho) as (x & Hx & Hp & Hl & _).
    rewrite Hc. case_decide as Hk.
    + rewrite Hk in *. rewrite lookup_insert_eq. eexists. split; [done|]. simpl. split; [congruence|done].
    + rewrite lookup_insert_ne by done. eauto.
Qed.

(** A miss that builds nothing. *)
Lemma arrive_refused owner last s now key c' :
  SInv owner last s -> alive_at last now ->
  (forall e, map (sweep_if_due (cache s) now) !! key = Some e -> ttl <= duration_since now (last_seen_at e)) ->
  map c' = map (sweep_if_due (cache s) now) ->
  SInv owner (if decide (key = k) then Some now else last)
    (mkSystem c' (heap s) (in_flight s) (delivered s)).
Proof.
  intros HI Ha Hmiss Hc. split; simpl; try apply HI.
  - intros x e. rewrite Hc. intros Hx%sweep_sub. by apply HI.
  - intros ptr Ho. destruct (live_after_sweep _ _ _ now ptr HI Ha Ho) as (x & Hx & Hp & Hl & Hlt).
    rewrite Hc. case_decide as Hk; [|eauto]. rewrite Hk in Hmiss. specialize (Hmiss x Hx). lia.
Qed.

(** A miss that builds a session: its windows are new. *)
Lemma arrive_built owner last s now f ses c' :
  SInv owner last s -> alive_at last now -> opens_known f ->
  (forall e, map (sweep_if_due (cache s) now) !! path_key f = Some e ->
     ttl <= duration_since now (last_seen_at e)) ->
  path_build exit f = Some (Ok ses) ->
  map c' = <[path_key f := mkEntry ses (length (heap s)) now]> (map (sweep_if_due (cache s) now)) ->
  SInv (owner ++ [path_key f]) (if decide (path_key f = k) then Some now else last)
    (mkSystem c' (heap s ++ [∅]) (in_flight s ++ [mkFlight (mkHandle ses (length (heap s))) f]) (delivered s)).
Proof.
  intros HI Ha Hf Hmiss Hnew Hc. pose proof (si_len _ _ _ HI) as Hl.
  assert (Hnk : path_key f = k -> k ∉ owner).
  { intros Hk (ptr & Ho)%list_elem_of_lookup. rewrite Hk in Hmiss.
    destruct (live_after_sweep _ _ _ now ptr HI Ha Ho) as (x & Hx & _ & _ & Hlt).
    specialize (Hmiss x Hx). lia. }
  assert (Hlast : (owner ++ [path_key f]) !! length (heap s) = Some (path_key f))
    by (rewrite <- Hl; apply list_lookup_middle; done).
  assert (Hold : forall ptr x, owner !! ptr = Some x -> (owner ++ [path_key f]) !! ptr = Some x)
    by (intros; by apply lookup_app_l_Some).
  split; simpl.
  - rewrite !length_app. simpl. lia.
  - intros key e. rewrite Hc. intros [[<- <-]|[_ Hx%sweep_sub]]%lookup_insert_Some; [by split; [|exists f]|].
    destruct (si_entry _ _ _ HI _ _ Hx). auto.
  - intros t [Ht| ->%list_elem_of_singleton]%elem_of_app; [|by split; [|split; [exists f|]]].
    destruct (si_flight _ _ _ HI t Ht) as (? & ? & ?). auto.
  - intros ptr [Ho|[Hge Ho]]%lookup_app_Some.
    + assert (Hk : path_key f <> k) by (intros Hk; apply (Hnk Hk); by eapply list_elem_of_lookup_2).
      rewrite Hc, decide_False, lookup_insert_ne by done.
      destruct (live_after_sweep _ _ _ now ptr HI Ha Ho) as (x & Hx & ? & ? & _). eauto.
    + apply list_lookup_singleton_Some in Ho as [Hz Hk]. rewrite Hc, Hk, decide_True by done.
      rewrite lookup_insert_eq. eexists. split; [done|]. simpl. split; [lia|done].
  - intros Hn. apply HI. set_solver.
  - intros ptr m [Ho|[Hge Ho]]%lookup_app_Some Hm.
    + apply (si_tracks _ _ _ HI ptr); [done|]. rewrite lookup_app_l in Hm; [done|].
      rewrite <- Hl. by eapply lookup_lt_Some.
    + apply list_lookup_singleton_Some in Ho as [Hz Hk].
      assert (ptr = length (heap s)) as -> by lia. rewrite list_lookup_middle in Hm by done.
      injection Hm as <-. split; [done|]. rewrite lookup_empty. apply HI, Hnk, Hk.
  - apply HI.
Qed.

Lemma arrive_inv owner last s d now budget :
  SInv owner last s ->
  (forall f, path_decode d = Ok f -> opens_known f /\ (path_exit_id f = exit -> alive_at last now)) ->
  exists owner', SInv owner'
    match path_decode d with
    | Ok f => if decide (path_exit_id f = exit) then if decide (path_key f = k) then Some now else last else last
    | Err _ => last
    end (arrive s d now budget).
Proof.
  intros HI Hd. unfold arrive. destruct (path_decode d) as [f|]; [|eauto].
  destruct (Hd f eq_refl) as [Hf Ha]. case_bool_decide as Hx; simpl; [|rewrite decide_False by done; eauto].
  rewrite decide_True by done. specialize (Ha Hx).
  pose proof (find_session_outcome (cache s) (heap s) f now budget) as Ho.
  destruct (find_session (cache s) (heap s) f now budget) as [[c' h'] r].
  destruct Ho as [(e & He & -> & Hc & ->)|(Hmiss & [(Hc & -> & ->)|(ses & Hs & -> & Hc & ->)])].
  - exists owner. by apply arrive_hit.
  - exists owner. by apply arrive_refused.
  - exists (owner ++ [path_key f]). by apply arrive_built.
Qed.

(** The keepalive: a refreshed entry, or only a sweep. *)
Lemma refresh_inv owner last s key now :
  SInv owner last s -> alive_at last now ->
  SInv owner (if decide (key = k) then Some now else last) (refresh s key now).
Proof.
  intros HI Ha. unfold refresh, refresh_at.
  destruct (live_entry_cases (sweep_if_due (cache s) now) key now) as [(e & He & ->)|[Hold ->]]; simpl;
    [|by apply arrive_refused].
  pose proof (sweep_sub _ _ _ _ He) as He0. destruct (si_entry _ _ _ HI _ _ He0) as [Hown Hnew].
  split; simpl; try apply HI.
  - intros x y [[<- <-]|[_ Hx%sweep_sub]]%lookup_insert_Some; [done|by apply HI].
  - intros ptr Ho. destruct (live_after_sweep _ _ _ now ptr HI Ha Ho) as (x & Hx & Hp & Hl & _).
    case_decide as Hk; [subst key; rewrite lookup_insert_eq|rewrite lookup_insert_ne by done; eauto].
    eexists. split; [done|]. simpl. split; [congruence|done].
Qed.

(** Forgetting a frame in flight. *)
Lemma drop_flight owner last s i :
  SInv owner last s -> SInv owner last (mkSystem (cache s) (heap s) (delete i (in_flight s)) (delivered s)).
Proof.
  intros HI. split; simpl; try apply HI. intros t Ht. apply HI.
  apply list_elem_of_lookup in Ht as [j Hj]. rewrite list_lookup_delete in Hj.
  destruct (decide (j < i)%nat); by eapply list_elem_of_lookup_2.
Qed.

(** Changing a window of another session and delivering for it. *)
Lemma other_session owner last s ptr key m ds :
  SInv owner last s -> owner !! ptr = Some key -> key <> k ->
  (ds = delivered s \/ exists e n p, ds = delivered s ++ [mkDelivery key e n p]) ->
  SInv owner last (mkSystem (cache s) (<[ptr := m]> (heap s)) (in_flight s) ds).
Proof.
  intros HI Ho Hk Hds.
  assert (Hne : forall q, owner !! q = Some k -> q <> ptr) by (intros q Hq ->; congruence).
  split; simpl; try apply HI.
  - rewrite length_insert. apply HI.
  - intros Hn. pose proof (si_none _ _ _ HI Hn) as Hs. destruct Hds as [->|(e' & n & p & ->)]; [done|].
    rewrite seen_of_snoc, decide_False by (simpl; tauto). done.
  - intros q m' Hq. rewrite list_lookup_insert_ne by (intros E; by apply (Hne q)). intros Hm.
    pose proof (si_tracks _ _ _ HI q m' Hq Hm). destruct Hds as [->|(e' & n & p & ->)]; [done|].
    by apply tracks_other.
  - destruct Hds as [->|(e' & n & p & ->)]; [apply HI|].
    rewrite filter_app, filter_cons, filter_nil, decide_False by (simpl; tauto). rewrite app_nil_r. apply HI.
Qed.

(** Recording a frame of the session itself. *)
Lemma own_session owner last s ptr m m' e n p r :
  SInv owner last s -> owner !! ptr = Some k -> heap s !! ptr = Some m -> (e0 < e -> e ∈ es) ->
  epoch_check_and_record m n e = (m', r) ->
  SInv owner last
    (mkSystem (cache s) (<[ptr := m']> (heap s)) (in_flight s)
       match r with Ok _ => delivered s ++ [mkDelivery k e n p] | Err _ => delivered s end).
Proof.
  intros HI Ho Hm He Hr.
  assert (Huniq : forall q, owner !! q = Some k -> q = ptr).
  { intros q Hq. destruct (si_live _ _ _ HI q Hq) as (x & Hx & <- & _).
    destruct (si_live _ _ _ HI ptr Ho) as (y & Hy & <- & _). congruence. }
  pose proof (record_tracks m (delivered s) e n m' r p (si_tracks _ _ _ HI ptr m Ho Hm) He Hr) as Ht.
  assert (Hin : k ∈ owner) by by eapply list_elem_of_lookup_2.
  split; simpl; try apply HI; try done.
  - rewrite length_insert. apply HI.
  - intros q x Hq%Huniq. subst q. rewrite list_lookup_insert_eq by (by eapply lookup_lt_Some).
    intros [= <-]. destruct r; [apply Ht|done].
  - destruct r as [u|]; [|apply HI]. destruct Ht as [Hn _].
    rewrite filter_app, filter_cons, filter_nil, fmap_app. simpl. case_decide as He0; [|simpl; rewrite app_nil_r; apply HI].
    destruct He0 as [_ ->]. apply NoDup_app. split; [apply HI|]. split; [|apply NoDup_singleton].
    intros x (d & -> & Hd)%list_elem_of_fmap Hx%list_elem_of_singleton. simpl in Hx.
    apply list_elem_of_filter in Hd as [[Hk Hde] Hd]. apply (Hn eq_refl), seen_of_elem. by exists d.
Qed.

Lemma finish_inv owner last s i : SInv owner last s -> SInv owner last (finish s i).
Proof.
  intros HI. unfold finish. destruct (in_flight s !! i) as [t|] eqn:Et; [|done].
  pose proof (drop_flight owner last s i HI) as HI'.
  destruct (si_flight _ _ _ HI t) as (Hown & Hnew & Hop); [by eapply list_elem_of_lookup_2|].
  destruct (path_open (session (handle t)) (frame t)) as [p|] eqn:Eo; [|done].
  destruct (heap s !! replay_windows (handle t)) as [m|] eqn:Em; [|done].
  destruct (epoch_check_and_record m (path_seq (frame t)) (path_epoch (frame t))) as [m' r] eqn:Er.
  destruct (decide (path_key (frame t) = k)) as [Hk|Hk].
  - rewrite Hk in *. eapply (own_session _ _ _ _ m m') in HI'; try done.
    by apply (Hop (session (handle t)) p).
  - eapply (other_session _ _ _ _ _ m') in HI'; [exact HI'|done|done|].
    destruct r; simpl; eauto.
Qed.

(** ** Histories *)

(** As long as the session is in use, no lookup comes [ttl] or more after the
    session's previous one: its entry is neither swept nor expired. *)
Fixpoint kept_alive (last : option Z) (evs : list Event) : Prop :=
  match evs with
  | [] => True
  | Finish _ :: evs' => kept_alive last evs'
  | Refresh key now :: evs' => alive_at last now /\ kept_alive (if decide (key = k) then Some now else last) evs'
  | Arrive d now _ :: evs' =>
      match path_decode d with
      | Ok f =>
          if decide (path_exit_id f = exit)
          then alive_at last now /\ kept_alive (if decide (path_key f = k) then Some now else last) evs'
          else kept_alive last evs'
      | Err _ => kept_alive last evs'
      end
  end.

Lemma run_inv owner last s evs :
  SInv owner last s -> kept_alive last evs ->
  (forall d now b f, Arrive d now b ∈ evs -> path_decode d = Ok f -> opens_known f) ->
  exists owner' last', SInv owner' last' (run s evs).
Proof.
  revert owner last s; induction evs as [|ev evs IH]; intros owner last s HI Ha Hf; [simpl; eauto|].
  assert (Hf' : forall d now b f, Arrive d now b ∈ evs -> path_decode d = Ok f -> opens_known f)
    by (intros; eapply Hf; [apply list_elem_of_further|]; eassumption).
  destruct ev as [d now b|i|key now].
  - destruct (arrive_inv owner last s d now b HI) as [owner' HI'].
    { intros f E. split; [by eapply Hf; [apply list_elem_of_here|]|]. intros Hx.
      simpl in Ha. rewrite E, decide_True in Ha by done. tauto. }
    apply (IH _ _ _ HI'); [|done]. simpl in Ha. destruct (path_decode d); [|done].
    by case_decide; [destruct Ha|].
  - apply (IH owner last); [by apply finish_inv|done|done].
  - destruct Ha as [Ha Hk]. apply (IH owner (if decide (key = k) then Some now else last)); try done.
    by apply refresh_inv.
Qed.

(** ** Provenance *)

(** A frame that some datagram of the history carried to this exit. *)
Definition arrived (evs : list Event) (f : Frame) : Prop :=
  exists d now b, Arrive d now b ∈ evs /\ path_decode d = Ok f /\ path_exit_id f = exit.

(** A session built from such a frame. *)
Definition built_from (evs : list Event) (key : list Z) (s : Session) : Prop :=
  exists f, arrived evs f /\ path_key f = key /\ path_build exit f = Some (Ok s).

(** A payload that such a session opened from such a frame, both of the same key. *)
Definition authentic (evs : list Event) (d : Delivery) : Prop :=
  exists f ses, arrived evs f /\ built_from evs (path_key f) ses /\
    path_open ses f = Ok (d_plaintext d) /\
    d_key d = path_key f /\ d_epoch d = path_epoch f /\ d_seq d = path_seq f.

Record AInv (evs : list Event) (s : System) : Prop := mkAInv {
  ai_entry key e : map (cache s) !! key = Some e -> built_from evs key (entry_session e);
  ai_flight t : t ∈ in_flight s ->
    arrived evs (frame t) /\ built_from evs (path_key (frame t)) (session (handle t));
  ai_delivered d : d ∈ delivered s -> authentic evs d;
}.

Lemma arrive_authentic evs s d now b :
  Arrive d now b ∈ evs -> AInv evs s -> AInv evs (arrive s d now b).
Proof using Type.
  intros Hin HI. unfold arrive. destruct (path_decode d) as [f|] eqn:Ed; [|done].
  case_bool_decide as Hx; simpl; [|done].
  assert (Hf : arrived evs f) by (by exists d, now, b).
  pose proof (find_session_outcome (cache s) (heap s) f now b) as Ho.
  destruct (find_session (cache s) (heap s) f now b) as [[c' h'] r].
  assert (Hsw : forall key e, map (sweep_if_due (cache s) now) !! key = Some e ->
    built_from evs key (entry_session e)) by (intros key e He%sweep_sub; by apply (ai_entry _ _ HI)).
  destruct Ho as [(e & He & -> & Hc & ->)|(_ & [(Hc & -> & ->)|(ses & Hs & -> & Hc & ->)])];
    (split; simpl; [intros key x; rewrite Hc| |apply HI]).
  - intros [[<- <-]|[_ Hx']]%lookup_insert_Some; [exact (Hsw _ _ He)|by apply Hsw].
  - intros t [Ht| ->%list_elem_of_singleton]%elem_of_app; [by apply HI|]. split; [done|by apply Hsw].
  - apply Hsw.
  - apply HI.
  - intros [[<- <-]|[_ Hx']]%lookup_insert_Some; [by exists f|by apply Hsw].
  - intros t [Ht| ->%list_elem_of_singleton]%elem_of_app; [by apply HI|]. split; [done|by exists f].
Qed.

Lemma refresh_authentic evs s key now : AInv evs s -> AInv evs (refresh s key now).
Proof using Type.
  intros HI. assert (Hsw : forall key e, map (sweep_if_due (cache s) now) !! key = Some e ->
    built_from evs key (entry_session e)) by (intros x e He%sweep_sub; by apply (ai_entry _ _ HI)).
  split; [|apply HI|apply HI]. unfold refresh, refresh_at.
  destruct (live_entry_cases (sweep_if_due (cache s) now) key now) as [(e & He & ->)|[_ ->]]; simpl; [|exact Hsw].
  intros x y [[<- <-]|[_ Hx]]%lookup_insert_Some; [exact (Hsw _ _ He)|by apply Hsw].
Qed.

Lemma finish_authentic evs s i : AInv evs s -> AInv evs (finish s i).
Proof using Type.
  intros HI. unfold finish. destruct (in_flight s !! i) as [t|] eqn:Et; [|done].
  destruct (ai_flight _ _ HI t) as (Hf & Hnew); [by eapply list_elem_of_lookup_2|].
  assert (Hdel : forall x, x ∈ delete i (in_flight s) -> x ∈ in_flight s).
  { intros x [j Hj]%list_elem_of_lookup. rewrite list_lookup_delete in Hj.
    destruct (decide (j < i)%nat); by eapply list_elem_of_lookup_2. }
  destruct (path_open (session (handle t)) (frame t)) as [p|] eqn:Eo;
    [destruct (heap s !! replay_windows (handle t)) as [m|]|];
    try (split; simpl; [apply HI|intros x Hx%Hdel; by apply HI|apply HI]).
  destruct (epoch_check_and_record m (path_seq (frame t)) (path_epoch (frame t))) as [m' r].
  split; simpl; [apply HI|intros x Hx%Hdel; by apply HI|]. destruct r; [|apply HI].
  intros x [Hx| ->%list_elem_of_singleton]%elem_of_app; [by apply HI|].
  by exists (frame t), (session (handle t)).
Qed.

Lemma run_authentic evs pre s : AInv evs s -> (forall ev, ev ∈ pre -> ev ∈ evs) -> AInv evs (run s pre).
Proof using Type.
  revert s; induction pre as [|ev pre IH]; intros s HI Hsub; [done|]. simpl. apply IH.
  - destruct ev; [apply arrive_authentic, HI; apply Hsub; left|by apply finish_authentic|by apply refresh_authentic].
  - intros x Hx. apply Hsub. by right.
Qed.

End Receive.

(** C2.  Authenticated delivery at the exit, at most once within the epochs it remembers, on the classical and the
    post-quantum data path.  Whatever datagrams arrive on whatever connections, however
    their loops and keepalives interleave, every payload handed on was opened from a
    datagram of the history by a session built from one of the same key.  And as long as
    a session is kept in the cache, no packet of an epoch is handed on twice before frames of four newer
    epochs that open for the session have arrived; after that a packet of the old epoch can be replayed, since its
    window is the one trimmed ([old_epoch_replays]), as it can once the session has left the cache
    ([replay_after_expiry]). *)
Theorem exit_delivers_once {D : Datapath} ttl exit evs :
  (forall d, d ∈ delivered (run ttl exit initial evs) -> authentic exit evs d) /\
  (forall k epoch newer,
     kept_alive ttl exit k None evs ->
     (length newer < REPLAY_EPOCHS_KEPT)%nat ->
     (forall d now b f, Arrive d now b ∈ evs -> path_decode d = Ok f -> opens_known exit k epoch newer f) ->
     NoDup (d_seq <$> filter (fun d => d_key d = k /\ d_epoch d = epoch) (delivered (run ttl exit initial evs)))).
Proof.
  split.
  - apply (ai_delivered exit). apply run_authentic; [|done]. split; simpl; [done| |]; intros x Hx; by apply not_elem_of_nil in Hx.
  - intros k epoch newer Ha Hl Hf.
    destruct (run_inv ttl exit k epoch newer Hl [] None initial evs) as (owner & last & HI); try done.
    { apply initial_inv. }
    apply HI.
Qed.

(** The trimming bounds the windows of a session. *)
Lemma trim_bounded fuel m :
  (size m <= REPLAY_EPOCHS_KEPT + fuel)%nat -> (size (trim_epochs fuel m) <= REPLAY_EPOCHS_KEPT)%nat.
Proof.
  revert m; induction fuel as [|fuel IH]; intros m Hs; cbn [trim_epochs]; [lia|].
  destruct (Nat.leb_spec (size m) REPLAY_EPOCHS_KEPT); [done|].
  destruct (oldest m) as [e|] eqn:Eo.
  - destruct (oldest_least m e Eo) as [Hin _].
    apply IH. rewrite map_size_delete_Some by done. lia.
  - unfold oldest in Eo. destruct (map_to_list m) eqn:El; [|done].
    apply map_to_list_empty_iff in El as ->. rewrite map_size_empty in *. lia.
Qed.

(** The limit of the windows: once four newer epochs are tracked, a frame of an
    older epoch passes again and again, since its window is the one trimmed. *)
Lemma old_epoch_replays :
  let m := fold_left (fun m e => fst (epoch_check_and_record m 1 e)) [1; 2; 3; 4] ∅ in
  let '(m1, r1) := epoch_check_and_record m 9 0 in
  let '(m2, r2) := epoch_check_and_record m1 9 0 in
  r1 = Ok tt /\ r2 = Ok tt.
Proof. vm_compute. done. Qed.

(** ** A captured frame replayed on another connection *)

Definition toy_frame : WarrenMultihopFrame :=
  let k := [5; 0] in
  mkFrame 1 [9] 0 7 [0] (k ++ compose_export_info 0 7 ++ compose_aad [9] 0 7) [1; 2; 3].

Definition toy_bytes : list Z :=
  match to_stdvec toy_frame with Ok bs => bs | Err _ => [] end.

Definition toy_path : Datapath := v1_path (H := toy_hpke) (5 : @PrivateKey toy_hpke).

(** Two connections carry the same frame; both look the session up before either
    checks it. *)
Definition toy_events : list Event :=
  [Arrive toy_bytes 0 true; Arrive toy_bytes (from_secs 1) false; Finish 1; Finish 0].

(** The windows die with the cache entry: once the session has been idle for the
    time to live, a captured frame passes again. *)
Definition expiry_events : list Event :=
  [Arrive toy_bytes 0 true; Finish 0; Arrive toy_bytes (from_secs 5) true; Finish 0].

Lemma replay_after_expiry :
  (fun d => (d_key d, d_epoch d, d_seq d)) <$>
    delivered (run (D := toy_path) SESSION_CACHE_TTL [9] initial expiry_events)
  = [([0], 0, 7); ([0], 0, 7)].
Proof. by vm_compute. Qed.

Lemma exit_delivers_once_witness :
  length (delivered (run (D := toy_path) SESSION_CACHE_TTL [9] initial toy_events)) = 1%nat /\
  NoDup (d_seq <$> filter (fun d => d_key d = [0] /\ d_epoch d = 0)
           (delivered (run (D := toy_path) SESSION_CACHE_TTL [9] initial toy_events))).
Proof.
  split; [vm_compute; reflexivity|].
  apply (proj2 (exit_delivers_once (D := toy_path) SESSION_CACHE_TTL [9] toy_events) [0] 0 []).
  - vm_compute. auto.
  - vm_compute. lia.
  - intros d now b f Hd Hf s p _ _ _ He.
    assert (Hb : d = toy_bytes) by (unfold toy_events in Hd; set_solver).
    subst d. vm_compute in Hf. injection Hf as <-. vm_compute in He. discriminate He.
Defined.
