(* ===== verification/PqKeepalive.v ===== *)
(** How long the exit holds a session
    ([crates/warrenguard-multihop-server/src/multihop.rs]: [PqSessionCache], the
    keepalive of [serve_pq_datagram_pump]).

    A data frame of a post-quantum session cannot rebuild the session it belongs to, so
    the connection refreshes its cache entry at half the lifetime of an entry.  Shown:
    while the refreshes come in time, every frame of the session finds the session its
    setup built; and, since the entry is made before the frame that brings the key
    material is authenticated, whoever names a key first decides its session. *)

From S2P Require Import Prelude ReplayWindow MultihopSession PqSession ExitReceive.
Import MultihopSession.

Definition KEEPALIVE_INTERVAL : Z := SESSION_CACHE_TTL / 2.

Section Keepalive.
Context {D : Datapath}.
Variable ttl : Z.
Variable exit : list Z.
Variable k : list Z.

(** The cache holds the session of [k], last touched at [t]. *)
Definition holds (t : Z) (ses : Session) (ptr : nat) (s : System) : Prop :=
  map (cache s) !! k = Some (mkEntry ses ptr t).

(** The next touch of the entry. *)
Definition touched (ev : Event) (t : Z) : Z :=
  match ev with
  | Arrive d now _ =>
      match path_decode d with
      | Ok f => if decide (path_exit_id f = exit) then if decide (path_key f = k) then now else t else t
      | Err _ => t
      end
  | Refresh key now => if decide (key = k) then now else t
  | Finish _ => t
  end.

Lemma kept_alive_cons t ev evs :
  kept_alive ttl exit k (Some t) (ev :: evs) -> kept_alive ttl exit k (Some (touched ev t)) evs.
Proof.
  destruct ev as [d now b|i|key now]; cbn [kept_alive touched]; [|done|].
  - destruct (path_decode d); [|done]. repeat case_decide; tauto.
  - intros [_ H]. by case_decide.
Qed.

Lemma arrive_holds t ses ptr s d now b f :
  holds t ses ptr s -> duration_since now t < ttl -> path_decode d = Ok f -> path_exit_id f = exit ->
  holds (if decide (path_key f = k) then now else t) ses ptr (arrive ttl exit s d now b) /\
  (path_key f = k ->
     in_flight (arrive ttl exit s d now b) = in_flight s ++ [mkFlight (mkHandle ses ptr) f]).
Proof.
  intros Hh Ht Ed Ex. unfold arrive. rewrite Ed, bool_decide_true by done. simpl.
  pose proof (find_session_outcome ttl exit (cache s) (heap s) f now b) as Ho.
  destruct (find_session ttl exit (cache s) (heap s) f now b) as [[c' h'] r].
  pose proof (sweep_keeps ttl (cache s) now k _ Hh Ht) as Hk. unfold holds.
  destruct Ho as [(e & He & -> & Hc & ->)|(Hmiss & Hrest)].
  - simpl. rewrite Hc. destruct (decide (path_key f = k)) as [<-|Hne].
    + rewrite Hk in He. injection He as <-. by rewrite lookup_insert_eq.
    + rewrite lookup_insert_ne by done. by rewrite Hk.
  - destruct (decide (path_key f = k)) as [E|Hne].
    { rewrite E in Hmiss. specialize (Hmiss _ Hk). simpl in Hmiss. lia. }
    split; [|done]. destruct Hrest as [(Hc & _ & _)|(s0 & _ & _ & Hc & _)]; simpl; rewrite Hc; [done|].
    by rewrite lookup_insert_ne.
Qed.

Lemma refresh_holds t ses ptr s key now :
  holds t ses ptr s -> duration_since now t < ttl ->
  holds (if decide (key = k) then now else t) ses ptr (refresh ttl s key now).
Proof.
  intros Hh Ht. pose proof (sweep_keeps ttl (cache s) now k _ Hh Ht) as Hk. unfold holds, refresh, refresh_at.
  destruct (live_entry_cases ttl (sweep_if_due ttl (cache s) now) key now) as [(e & He & ->)|[Hold ->]]; simpl.
  - case_decide as Ek.
    + subst key. rewrite Hk in He. injection He as <-. by rewrite lookup_insert_eq.
    + by rewrite lookup_insert_ne.
  - case_decide as Ek; [|done]. subst key. specialize (Hold _ Hk). simpl in Hold. lia.
Qed.

Lemma finish_holds t ses ptr s i : holds t ses ptr s -> holds t ses ptr (finish s i).
Proof. intros Hh. unfold holds, finish. by repeat case_match. Qed.

Lemma step_holds t ses ptr s ev evs :
  holds t ses ptr s -> kept_alive ttl exit k (Some t) (ev :: evs) -> holds (touched ev t) ses ptr (step ttl exit s ev).
Proof.
  intros Hh Ha. destruct ev as [d now b|i|key now]; cbn [step touched].
  - cbn [kept_alive] in Ha. destruct (path_decode d) as [f|] eqn:Ed; [|unfold arrive; by rewrite Ed].
    case_decide as Ex; [|unfold arrive; by rewrite Ed, bool_decide_false].
    by apply (arrive_holds t ses ptr s d now b f Hh (proj1 Ha) Ed Ex).
  - by apply finish_holds.
  - apply refresh_holds; [done|apply Ha].
Qed.

Lemma run_holds evs tail t ses ptr s :
  holds t ses ptr s -> kept_alive ttl exit k (Some t) (evs ++ tail) ->
  exists t', holds t' ses ptr (run ttl exit s evs) /\ kept_alive ttl exit k (Some t') tail.
Proof.
  revert t s. induction evs as [|ev evs IH]; intros t s Hh Ha; [by exists t|].
  apply (IH (touched ev t)); [by eapply step_holds|by apply kept_alive_cons in Ha].
Qed.

(** *** The keepalive *)

Definition event_time (ev : Event) : option Z :=
  match ev with Arrive _ now _ | Refresh _ now => Some now | Finish _ => None end.

(** The clock does not run backwards. *)
Fixpoint clocked (t : Z) (evs : list Event) : Prop :=
  match evs with
  | [] => True
  | ev :: evs => match event_time ev with Some now => t <= now /\ clocked now evs | None => clocked t evs end
  end.

(** No time passes at which the last refresh of [k], at [r], is [ttl] old. *)
Fixpoint warm (r : Z) (evs : list Event) : Prop :=
  match evs with
  | [] => True
  | ev :: evs =>
      match event_time ev with Some now => now < r + ttl | None => True end /\
      warm match ev with Refresh key now => if decide (key = k) then now else r | _ => r end evs
  end.

(** Refreshes in time keep the entry, whatever arrives in between. *)
Lemma warm_kept evs r last t :
  r <= last <= t -> 0 < ttl -> clocked t evs -> warm r evs -> kept_alive ttl exit k (Some last) evs.
Proof.
  revert r last t. induction evs as [|ev evs IH]; intros r last t Hr H0 Hc Hw; [done|].
  destruct Hw as [Hw Hws]. destruct ev as [d now b|i|key now]; cbn [kept_alive clocked event_time] in *.
  - destruct Hc as [Ht Hc].
    destruct (path_decode d) as [f|]; [|by apply (IH r last now); [lia|..]].
    case_decide; [|by apply (IH r last now); [lia|..]].
    split; [simpl; unfold duration_since; lia|]. case_decide; (eapply (IH r _ now); [lia|..]; done).
  - by apply (IH r last t).
  - destruct Hc as [Ht Hc]. split; [simpl; unfold duration_since; lia|].
    case_decide; [by apply (IH now now now)|by apply (IH r last now); [lia|..]].
Qed.

End Keepalive.

(** C8.  A session in use is never lost: while the refreshes of a session come less than
    a cache lifetime apart, every frame that names its key, on whatever connection and
    after whatever other traffic and idle time, is handed to the session and the replay
    windows its first frame made, even a data frame, which could not rebuild them. *)
Theorem live_session_found {D : Datapath} ttl exit k t r ses ptr s evs d now b f :
  holds k t ses ptr s -> 0 < ttl -> r <= t ->
  clocked t (evs ++ [Arrive d now b]) -> warm ttl k r (evs ++ [Arrive d now b]) ->
  path_decode d = Ok f -> path_exit_id f = exit -> path_key f = k ->
  in_flight (run ttl exit s (evs ++ [Arrive d now b])) =
    in_flight (run ttl exit s evs) ++ [mkFlight (mkHandle ses ptr) f].
Proof.
  intros Hh H0 Hr Hc Hw Ed Ex Ek.
  assert (Ha : kept_alive ttl exit k (Some t) (evs ++ [Arrive d now b])) by (by eapply (warm_kept _ _ _ _ r _ t)).
  destruct (run_holds _ _ _ evs _ _ _ _ _ Hh Ha) as (t' & Hh' & Ha').
  unfold run. rewrite fold_left_app. simpl. cbn [kept_alive] in Ha'.
  rewrite Ed, decide_True in Ha' by done.
  by apply (arrive_holds ttl exit k t' ses ptr _ d now b f Hh' (proj1 Ha') Ed Ex).
Qed.

(** ** A client of the toy suite *)

Definition toy_v2_path : Datapath := v2_path (H := toy_hpke) (P := toy_postcard) (fst toy_pair).

Definition ok_or {A E} (d : A) (r : result A E) : A := match r with Ok a => a | Err _ => d end.

Definition toy_client : PqClientSession :=
  ok_or (mkPqClient [] [] [] [] 0 None)
    (snd (pq_client_new (H := toy_hpke) (P := toy_postcard) (snd toy_pair) [9] (7 : @Rng toy_hpke))).

Definition no_frame : WarrenMultihopFrameV2 := mkFrameV2 0 [] 0 0 [] [] [] [].

Definition toy_setup : WarrenMultihopFrameV2 :=
  ok_or no_frame (pq_seal_setup (H := toy_hpke) (P := toy_postcard) toy_client [1] 0 0).
Definition toy_data : WarrenMultihopFrameV2 :=
  ok_or no_frame (pq_seal (H := toy_hpke) (P := toy_postcard) toy_client [2] 0 1).

Definition on_wire (f : WarrenMultihopFrameV2) : list Z :=
  ok_or [] (encode_frame_v2 (H := toy_hpke) (P := toy_postcard) f).

Definition toy_key : list Z := pc_encapsulated_key toy_client.

(** Twelve seconds of silence, with the keepalive of an idle connection. *)
Definition idle : list Event := Refresh toy_key <$> (Z.mul KEEPALIVE_INTERVAL <$> [1; 2; 3; 4]).

Definition toy_run (evs : list Event) : System := run (D := toy_v2_path) SESSION_CACHE_TTL [9] initial evs.

Definition cached_at (s : System (D := toy_v2_path)) (key : list Z) (t : Z) : bool :=
  match map (cache s) !! key with Some e => last_seen_at e =? t | None => false end.

Lemma live_session_found_witness :
  exists ses ptr, let s := toy_run [Arrive (on_wire toy_setup) 0 true] in
    in_flight (run SESSION_CACHE_TTL [9] s (idle ++ [Arrive (on_wire toy_data) (from_secs 12) false])) =
    in_flight (run SESSION_CACHE_TTL [9] s idle) ++ [mkFlight (mkHandle ses ptr) (toy_data : @Frame toy_v2_path)].
Proof.
  assert (Hc : cached_at (toy_run [Arrive (on_wire toy_setup) 0 true]) toy_key 0 = true) by (vm_compute; reflexivity).
  unfold cached_at in Hc.
  destruct (map (cache (toy_run [Arrive (on_wire toy_setup) 0 true])) !! toy_key) as [[ses ptr t]|] eqn:E; [|discriminate Hc].
  exists ses, ptr. apply Z.eqb_eq in Hc. simpl in Hc. subst t.
  apply (live_session_found (D := toy_v2_path) SESSION_CACHE_TTL [9] toy_key 0 0 ses ptr _ idle _ _ false toy_data).
  - exact E.
  - vm_compute. reflexivity.
  - lia.
  - vm_compute. repeat split; discriminate.
  - vm_compute. repeat split; discriminate || reflexivity.
  - vm_compute. reflexivity.
  - vm_compute. reflexivity.
  - vm_compute. reflexivity.
Defined.

(** Without the keepalive the same silence loses the session, and with it the frame. *)
Lemma silence_loses_session :
  let ds evs := (fun d => (d_seq d, d_plaintext d)) <$> delivered (toy_run evs) in
  ds ([Arrive (on_wire toy_setup) 0 true; Finish 0] ++ idle ++ [Arrive (on_wire toy_data) (from_secs 12) false; Finish 0])
    = [(0, [1]); (1, [2])] /\
  ds [Arrive (on_wire toy_setup) 0 true; Finish 0; Arrive (on_wire toy_data) (from_secs 12) true; Finish 0]
    = [(0, [1])].
Proof. by vm_compute. Qed.

(** ** Who names a key first decides its session *)

(** The client's key with another ciphertext, and nothing that authenticates. *)
Definition forged : WarrenMultihopFrameV2 :=
  mkFrameV2 WARREN_HPKE_VERSION_V2 [9] 0 0 toy_key (99 :: replicate (XWING_MLKEM_CT_LEN - 1) 0) [] [].

(** A relay that has seen the key sends the forgery ahead of the setup frame, which is
    then refused, again and again: each attempt renews the entry that refuses it. *)
Lemma forgery_shuts_out_client :
  let tries := [Arrive (on_wire toy_setup) (from_secs 1) true; Finish 0;
                Arrive (on_wire toy_setup) (from_secs 5) true; Finish 0;
                Arrive (on_wire toy_setup) (from_secs 9) true; Finish 0] in
  length (delivered (toy_run tries)) = 1%nat /\
  length (delivered (toy_run ([Arrive (on_wire forged) 0 true; Finish 0] ++ tries))) = 0%nat.
Proof. by vm_compute. Qed.
