(* ===== verification/ExitSeal.v ===== *)
(** Which keys the exit seals its answers under
    ([crates/warrenguard-multihop-server/src/multihop.rs], [multihop/route.rs]).

    A connection seals with the session its receive loop last authenticated a frame
    of ([current]) and with sequence numbers of its own counter ([reverse_seq]),
    which its setup reply, its transmit loop, its control and drain emitters and its
    cover timer share.  A task clones [current] and takes a number in either order,
    other tasks in between: [CloneCurrent] and [TakeSeq] are those two steps, [Emit]
    is the seal.  Receiving is the system of [ExitReceive], a frame in flight now
    belonging to a connection. *)

From S2P Require Import Prelude ReplayWindow MultihopSession PqSession ExitReceive.
Import MultihopSession.

Section Seal.
Context {D : Datapath}.
Variable ttl : Z.
Variable exit : list Z.

(** [clones] and [tickets] are what the tasks of the connection hold. *)
Record Conn := mkConn {
  current : Session * Z;
  reverse_seq : Z;
  clones : list (Session * Z);
  tickets : list Z;
}.

Definition set_current (cur : Session * Z) (c : Conn) : Conn :=
  mkConn cur (reverse_seq c) (clones c) (tickets c).

(** [current.lock().clone()]. *)
Definition clone_current (c : Conn) : Conn :=
  mkConn (current c) (reverse_seq c) (clones c ++ [current c]) (tickets c).

(** [reverse_seq.fetch_add(1)]. *)
Definition take_seq (c : Conn) : Conn :=
  mkConn (current c) (wrap 64 (reverse_seq c + 1)) (clones c) (tickets c ++ [reverse_seq c]).

(** A connection whose setup frame was authenticated: the session the reply is
    sealed with, and a counter of its own. *)
Definition conn_new (cur : Session * Z) : Conn := mkConn cur 0 [cur] [].

Record SealedFrame := mkSealedFrame {
  s_conn : nat;
  s_session : Session;
  s_epoch : Z;
  s_seq : Z;
  s_payload : list Z;
  s_frame : result Frame PathError;
}.

(** Frames in flight, in the order of [in_flight]: the connection, and whether the
    frame came on the setup stream. *)
Record Exit := mkExitSystem {
  rx : System;
  owners : list (nat * bool);
  conns : gmap nat Conn;
  sealed : list SealedFrame;
}.

Definition exit_initial : Exit := mkExitSystem initial [] ∅ [].

Inductive ExitEvent :=
| SetupFrame (c : nat) (bytes : list Z) (now : Z) (budget : bool)
| Datagram (c : nat) (bytes : list Z) (now : Z) (budget : bool)
| Check (i : nat)
| CloneCurrent (c : nat)
| TakeSeq (c : nat)
| Emit (c i j : nat) (payload : list Z).

(** The frame [arrive] put in flight, if it did, belongs to connection [c]. *)
Definition admit_frame (s : Exit) (c : nat) (setup : bool) (bytes : list Z) (now : Z) (budget : bool) : Exit :=
  let rx' := arrive ttl exit (rx s) bytes now budget in
  mkExitSystem rx'
    (if (length (in_flight (rx s)) <? length (in_flight rx'))%nat then owners s ++ [(c, setup)] else owners s)
    (conns s) (sealed s).

(** The replay check of a frame, and what an accepted one makes of [current]. *)
Definition check_frame (s : Exit) (i : nat) : Exit :=
  let rx' := finish (rx s) i in
  let conns' :=
    match in_flight (rx s) !! i, owners s !! i with
    | Some t, Some (c, setup) =>
        if (length (delivered (rx s)) <? length (delivered rx'))%nat then
          let cur := (session (handle t), path_epoch (frame t)) in
          if setup : bool then
            match conns s !! c with Some _ => conns s | None => <[c := conn_new cur]> (conns s) end
          else alter (set_current cur) c (conns s)
        else conns s
    | _, _ => conns s
    end in
  mkExitSystem rx' (delete i (owners s)) conns' (sealed s).

Definition emit (s : Exit) (c i j : nat) (payload : list Z) : Exit :=
  match conns s !! c with
  | None => s
  | Some k =>
      match clones k !! i, tickets k !! j with
      | Some (ses, e), Some n =>
          mkExitSystem (rx s) (owners s)
            (<[c := mkConn (current k) (reverse_seq k) (clones k) (delete j (tickets k))]> (conns s))
            (sealed s ++ [mkSealedFrame c ses e n payload (path_seal ses payload e n)])
      | _, _ => s
      end
  end.

Definition exit_step (s : Exit) (ev : ExitEvent) : Exit :=
  match ev with
  | SetupFrame c bytes now budget => admit_frame s c true bytes now budget
  | Datagram c bytes now budget =>
      match conns s !! c with Some _ => admit_frame s c false bytes now budget | None => s end
  | Check i => check_frame s i
  | CloneCurrent c => mkExitSystem (rx s) (owners s) (alter clone_current c (conns s)) (sealed s)
  | TakeSeq c => mkExitSystem (rx s) (owners s) (alter take_seq c (conns s)) (sealed s)
  | Emit c i j payload => emit s c i j payload
  end.

Definition exit_run (s : Exit) (evs : list ExitEvent) : Exit := fold_left exit_step evs s.

(** ** The numbers of one connection *)

(** The numbers connection [c] has sealed under. *)
Definition used (s : Exit) (c : nat) : list Z := s_seq <$> filter (fun x => s_conn x = c) (sealed s).

(** After [n] events: the counter has not wrapped, and no number was handed out
    twice. *)
Record SealInv (n : Z) (s : Exit) : Prop := {
  seal_counter c k : conns s !! c = Some k ->
    0 <= reverse_seq k <= n /\ NoDup (tickets k ++ used s c) /\
    forall x, x ∈ tickets k ++ used s c -> 0 <= x < reverse_seq k;
  seal_unknown c : conns s !! c = None -> used s c = [];
}.

Lemma seal_initial : SealInv 0 exit_initial.
Proof. by split; intros c; cbn [conns exit_initial]; rewrite lookup_empty. Qed.

(** Steps that change neither tickets nor counters of known connections. *)
Lemma seal_same n s s' :
  sealed s' = sealed s ->
  (forall c k', conns s' !! c = Some k' ->
     (exists k, conns s !! c = Some k /\ reverse_seq k' = reverse_seq k /\ tickets k' = tickets k) \/
     (conns s !! c = None /\ reverse_seq k' = 0 /\ tickets k' = [])) ->
  (forall c, conns s' !! c = None -> conns s !! c = None) ->
  0 <= n -> SealInv n s -> SealInv (n + 1) s'.
Proof.
  intros Es Hc Hn H0 [HI HU]. assert (forall c, used s' c = used s c) as Eu by (intros c; unfold used; by rewrite Es).
  split; intros c.
  - intros k' Hk'. rewrite Eu. destruct (Hc c k' Hk') as [(k & Hk & -> & ->)|(Hk & -> & ->)].
    + destruct (HI c k Hk) as (? & ? & ?). split; [lia|done].
    + rewrite (HU c Hk). split; [lia|]. split; [apply NoDup_nil_2|]. by intros x ?%not_elem_of_nil.
  - intros Hk. rewrite Eu. by apply HU, Hn.
Qed.

Lemma take_seq_inv n s c : n + 1 < 2 ^ 64 -> 0 <= n -> SealInv n s -> SealInv (n + 1) (exit_step s (TakeSeq c)).
Proof.
  intros Hn H0 [HI HU]. assert (forall c', used (exit_step s (TakeSeq c)) c' = used s c') as Eu by done.
  split; cbn [exit_step conns]; intros c'; rewrite Eu.
  - intros k'. destruct (decide (c = c')) as [<-|Hne].
    + rewrite lookup_alter_eq. destruct (conns s !! c) as [k|] eqn:Hk; cbn [fmap option_fmap option_map]; [|done].
      intros E%(inj Some). subst k'. destruct (HI c k Hk) as (Hr & Hnd & Hlt). cbn [reverse_seq tickets take_seq].
      rewrite wrap_small by (unfold in_width; lia). split; [lia|].
      assert (forall x, x ∈ (tickets k ++ [reverse_seq k]) ++ used s c <->
        x = reverse_seq k \/ x ∈ tickets k ++ used s c) as Hin by (intros x; set_solver). split.
      * apply (NoDup_Permutation_proper _ (reverse_seq k :: tickets k ++ used s c)).
        { rewrite <- (assoc_L (++)). symmetry. apply Permutation_middle. }
        apply NoDup_cons. split; [|done]. intros Hx%Hlt. lia.
      * intros x [->|Hx%Hlt]%Hin; lia.
    + rewrite lookup_alter_ne by done. intros Hk. destruct (HI c' k' Hk) as (? & ? & ?). split; [lia|done].
  - intros Hk. apply HU. destruct (decide (c = c')) as [<-|Hne].
    + rewrite lookup_alter_eq in Hk. by destruct (conns s !! c).
    + by rewrite lookup_alter_ne in Hk.
Qed.

Lemma emit_inv n s c i j payload : 0 <= n -> SealInv n s -> SealInv (n + 1) (emit s c i j payload).
Proof.
  intros H0 HI0. assert (SealInv (n + 1) s) as HI1.
  { apply (seal_same n s); [done|left; eauto|done|done|exact HI0]. }
  unfold emit. destruct (conns s !! c) as [k|] eqn:Hk; [|done].
  destruct (clones k !! i) as [[ses e]|]; [|done]. destruct (tickets k !! j) as [x|] eqn:Hx; [|done].
  destruct HI0 as [HI HU]. destruct (HI c k Hk) as (Hr & Hnd & Hlt).
  assert (tickets k ≡ₚ x :: delete j (tickets k)) as Hperm by (by apply delete_Permutation).
  set (s' := mkExitSystem _ _ _ _).
  assert (used s' c = used s c ++ [x]) as Euc.
  { unfold used, s'. cbn [sealed]. rewrite filter_app, filter_cons_True, filter_nil by done. by rewrite fmap_app. }
  assert (forall c', c' <> c -> used s' c' = used s c') as Eue.
  { intros c' Hne. unfold used, s'. cbn [sealed]. rewrite filter_app, filter_cons_False, filter_nil by (cbn [s_conn]; done).
    by rewrite app_nil_r. }
  assert (delete j (tickets k) ++ used s' c ≡ₚ tickets k ++ used s c) as Hp.
  { rewrite Euc, (assoc_L (++)). transitivity ((x :: delete j (tickets k)) ++ used s c).
    - apply (Permutation_app_comm _ [x]).
    - by apply Permutation_app_tail. }
  split; intros c'.
  - intros k'. unfold s' at 1. cbn [conns]. destruct (decide (c = c')) as [<-|Hne].
    + rewrite lookup_insert_eq. intros E%(inj Some). subst k'. cbn [reverse_seq tickets].
      split; [lia|]. split; [by rewrite Hp|]. intros y. rewrite Hp. apply Hlt.
    + rewrite lookup_insert_ne by done. rewrite Eue by done. intros Hk'. destruct (HI c' k' Hk') as (? & ? & ?).
      split; [lia|done].
  - unfold s' at 1. cbn [conns]. destruct (decide (c = c')) as [<-|Hne]; [by rewrite lookup_insert_eq|].
    rewrite lookup_insert_ne by done. rewrite Eue by done. apply HU.
Qed.

Lemma admit_inv n s c setup bytes now budget :
  0 <= n -> SealInv n s -> SealInv (n + 1) (admit_frame s c setup bytes now budget).
Proof. intros H0 HI. apply (seal_same n s); [done|left; eauto|done|done|exact HI]. Qed.

Lemma check_inv n s i : 0 <= n -> SealInv n s -> SealInv (n + 1) (check_frame s i).
Proof.
  intros H0 HI. apply (seal_same n s); [done| | |done|exact HI]; intros c; cbn [check_frame conns];
    destruct (in_flight (rx s) !! i) as [t|]; [|by eauto| |done];
    (destruct (owners s !! i) as [[o setup]|]; [|by eauto]);
    (destruct (_ <? _)%nat; [|by eauto]); (destruct setup; [destruct (conns s !! o) eqn:Ho; [by eauto|]|]).
  - intros k'. destruct (decide (o = c)) as [<-|Hne]; [|rewrite lookup_insert_ne by done; eauto].
    rewrite lookup_insert_eq. intros E%(inj Some). subst k'. by right.
  - intros k'. destruct (decide (o = c)) as [<-|Hne]; [|rewrite lookup_alter_ne by done; eauto].
    rewrite lookup_alter_eq. destruct (conns s !! o) as [k|] eqn:Hk; [|done]. intros E%(inj Some). subst k'.
    left. by exists k.
  - destruct (decide (o = c)) as [<-|Hne]; [by rewrite lookup_insert_eq|by rewrite lookup_insert_ne].
  - destruct (decide (o = c)) as [<-|Hne]; [|by rewrite lookup_alter_ne].
    rewrite lookup_alter_eq. by destruct (conns s !! o).
Qed.

Lemma clone_inv n s c : 0 <= n -> SealInv n s -> SealInv (n + 1) (exit_step s (CloneCurrent c)).
Proof.
  intros H0 HI. apply (seal_same n s); [done| | |done|exact HI]; intros c'; cbn [exit_step conns];
    (destruct (decide (c = c')) as [<-|Hne]; [rewrite lookup_alter_eq|rewrite lookup_alter_ne by done; by eauto]);
    destruct (conns s !! c) as [k|]; try done.
  intros k' E%(inj Some). subst k'. left. by exists k.
Qed.

Lemma exit_step_inv n s ev : n + 1 < 2 ^ 64 -> 0 <= n -> SealInv n s -> SealInv (n + 1) (exit_step s ev).
Proof.
  intros Hn H0 HI. destruct ev as [c b now bud|c b now bud|i|c|c|c i j payload]; cbn [exit_step].
  - by apply admit_inv.
  - destruct (conns s !! c); [by apply admit_inv|]. apply (seal_same n s); [done|left; eauto|done|done|exact HI].
  - by apply check_inv.
  - by apply clone_inv.
  - by apply take_seq_inv.
  - by apply emit_inv.
Qed.

Lemma exit_run_inv evs n s :
  n + Z.of_nat (length evs) < 2 ^ 64 -> 0 <= n -> SealInv n s -> SealInv (n + Z.of_nat (length evs)) (exit_run s evs).
Proof.
  revert n s. induction evs as [|ev evs IH]; intros n s Hn H0 HI; cbn [exit_run fold_left length] in *.
  - by rewrite Z.add_0_r.
  - assert (n + Z.of_nat (S (length evs)) = (n + 1) + Z.of_nat (length evs)) as E by lia. rewrite E in *.
    apply IH; [lia|lia|]. apply exit_step_inv; [lia|done|done].
Qed.

(** Two frames one connection sealed have different numbers. *)
Lemma used_distinct n s i j x y :
  SealInv n s -> sealed s !! i = Some x -> sealed s !! j = Some y -> i <> j -> s_conn x = s_conn y ->
  s_seq x <> s_seq y.
Proof.
  intros [HI HU] Hx Hy Hij Hc E.
  assert (NoDup (used s (s_conn x))) as Hnd.
  { destruct (conns s !! s_conn x) as [k|] eqn:Hk; [|rewrite (HU _ Hk); apply NoDup_nil_2].
    destruct (HI _ _ Hk) as (_ & Hnd & _). apply NoDup_app in Hnd. tauto. }
  unfold used in Hnd. revert i j Hx Hy Hij Hnd. generalize (sealed s). intros l.
  induction l as [|z l IH]; intros i j Hx Hy Hij Hnd; [done|].
  rewrite filter_cons in Hnd. destruct i as [|i], j as [|j]; [done| | |].
  - injection Hx as ->. rewrite decide_True in Hnd by done. cbn [fmap list_fmap] in Hnd. apply NoDup_cons in Hnd as [Hn _].
    apply Hn. rewrite E. apply list_elem_of_fmap_2, list_elem_of_filter. split; [done|by eapply list_elem_of_lookup_2].
  - injection Hy as ->. rewrite decide_True in Hnd by done. cbn [fmap list_fmap] in Hnd. apply NoDup_cons in Hnd as [Hn _].
    apply Hn. rewrite <- E. apply list_elem_of_fmap_2, list_elem_of_filter. split; [done|by eapply list_elem_of_lookup_2].
  - apply (IH i j); [done|done|congruence|]. destruct (decide (s_conn z = s_conn x)); [|done].
    cbn [fmap list_fmap] in Hnd. by apply NoDup_cons in Hnd as [_ Hnd].
Qed.

(** ** Receiving is unchanged *)

(** The events of [ExitReceive] behind those of the exit, from a state. *)
Fixpoint received_events (s : Exit) (evs : list ExitEvent) : list Event :=
  match evs with
  | [] => []
  | ev :: evs =>
      (match ev with
       | SetupFrame _ b now bud => [Arrive b now bud]
       | Datagram c b now bud => match conns s !! c with Some _ => [Arrive b now bud] | None => [] end
       | Check i => [Finish i]
       | _ => []
       end) ++ received_events (exit_step s ev) evs
  end.

Lemma exit_run_rx evs s : rx (exit_run s evs) = run ttl exit (rx s) (received_events s evs).
Proof.
  revert s. induction evs as [|ev evs IH]; intros s; [done|]. cbn [exit_run fold_left received_events].
  change (fold_left exit_step evs (exit_step s ev)) with (exit_run (exit_step s ev) evs). rewrite IH.
  unfold run. rewrite fold_left_app. f_equal.
  destruct ev as [c b now bud|c b now bud|i|c|c|c i j payload]; cbn [exit_step]; try done.
  - by destruct (conns s !! c).
  - unfold emit. by repeat case_match.
Qed.

End Seal.

(** ** A frame redirected to another connection *)

(** A frame of the toy suite, sealed to the exit [9] with private key 5. *)
Definition toy_sealed (key : list Z) (n : Z) (payload : list Z) : list Z :=
  let k := 5 :: key in
  match to_stdvec (mkFrame 1 [9] 0 n key (k ++ compose_export_info 0 n ++ compose_aad [9] 0 n) payload) with
  | Ok bs => bs
  | Err _ => []
  end.

(** Connection 1 is a client's, with session [0]; connection 2 is another's, with
    session [1].  The relay in front of both withholds a frame of the first session
    and sends it on the second connection. *)
Definition redirection : list ExitEvent :=
  [SetupFrame 1 (toy_sealed [0] 0 [1]) 0 true; Check 0;
   SetupFrame 2 (toy_sealed [1] 0 [1]) 0 true; Check 0;
   TakeSeq 1; Emit 1 0 0 [10; 20; 30];
   Datagram 2 (toy_sealed [0] 7 [1]) 1 true; Check 0;
   CloneCurrent 2; TakeSeq 2; Emit 2 1 0 [66; 66; 66]].

Definition toy_session (x : SealedFrame (D := toy_path)) : @ExitSession toy_hpke := s_session x.

Lemma redirection_seals :
  (fun x => (s_conn x, toy_session x, s_epoch x, s_seq x, s_payload x))
    <$> sealed (exit_run (D := toy_path) SESSION_CACHE_TTL [9] exit_initial redirection)
  = [(1%nat, mkExit (5, 0) [9] [0], 0, 0, [10; 20; 30]); (2%nat, mkExit (5, 0) [9] [0], 0, 0, [66; 66; 66])].
Proof. by vm_compute. Qed.

(** C3.  On either data path, the key an answer is sealed under (a session, an epoch and a sequence
    number) repeats only across connections: in any interleaving of fewer than 2^64
    steps, two frames sealed under one key were sealed by two connections.  It does
    repeat there: a frame of one client that reaches the exit on another client's
    connection makes that connection seal its own answers in the first client's
    session, under numbers the first connection has used for other payloads. *)
Theorem answer_keys_repeat_across_connections :
  (forall {D : Datapath} ttl exit evs i j x y,
     let s := exit_run ttl exit exit_initial evs in
     Z.of_nat (length evs) < 2 ^ 64 -> sealed s !! i = Some x -> sealed s !! j = Some y -> i <> j ->
     s_session x = s_session y -> s_epoch x = s_epoch y -> s_seq x = s_seq y -> s_conn x <> s_conn y) /\
  (exists evs x y,
     let s := exit_run (D := toy_path) SESSION_CACHE_TTL [9] exit_initial evs in
     sealed s !! 0%nat = Some x /\ sealed s !! 1%nat = Some y /\ s_session x = s_session y /\
     s_epoch x = s_epoch y /\ s_seq x = s_seq y /\ s_conn x <> s_conn y /\ s_payload x <> s_payload y).
Proof.
  split.
  - intros D ttl exit evs i j x y s Hn Hx Hy Hij _ _ Hseq Hc.
    pose proof (exit_run_inv ttl exit evs 0 exit_initial Hn (Z.le_refl 0) (seal_initial)) as HI.
    exact (used_distinct _ _ i j x y HI Hx Hy Hij Hc Hseq).
  - exists redirection. cbv zeta. generalize redirection_seals.
    generalize (sealed (exit_run (D := toy_path) SESSION_CACHE_TTL [9] exit_initial redirection)).
    intros l E. destruct l as [|x [|y [|z l]]]; try discriminate E.
    injection E as Ec Es Ee En Ep Ec' Es' Ee' En' Ep'. exists x, y.
    split; [reflexivity|]. split; [reflexivity|]. split; [exact (eq_trans Es (eq_sym Es'))|].
    rewrite Ee, En, Ep, Ec, Ee', En', Ep', Ec'. done.
Qed.
