(* ===== verification/NatPmpProtocol.v ===== *)
(** NAT-PMP wire format
    ([crates/warrenguard-natpmp-protocol/src/lib.rs]): the RFC 6886 requests
    and responses, the rate-limit trailer of a response and the credential
    trailer of a request.

    Frames are lists of bytes.  A [u16] or [u32] field is a [Z]; [valid_request]
    and [valid_response] say that each field fits its width, which the Rust
    types enforce. *)

From S2P Require Import Prelude.

Module NatPmpProtocol.

Definition NATPMP_VERSION : Z := 0.
Definition RESPONSE_BIT : Z := 128.

Inductive Opcode := OpExternalAddress | OpMapUdp | OpMapTcp.

Definition opcode_u8 (o : Opcode) : Z :=
  match o with OpExternalAddress => 0 | OpMapUdp => 1 | OpMapTcp => 2 end.

Inductive ResultCode :=
| Success
| CodeUnsupportedVersion
| NotAuthorized
| NetworkFailure
| OutOfResources
| CodeUnsupportedOpcode
| SuggestedPortUnavailable
| RateLimited.

Definition result_code_u16 (c : ResultCode) : Z :=
  match c with
  | Success => 0
  | CodeUnsupportedVersion => 1
  | NotAuthorized => 2
  | NetworkFailure => 3
  | OutOfResources => 4
  | CodeUnsupportedOpcode => 5
  | SuggestedPortUnavailable => 6
  | RateLimited => 7
  end.

Record RateLimitInfo := mkRateLimitInfo {
  attempts_remaining : Z;
  window_reset_secs : Z;
}.

Inductive MapProto := MapUdp | MapTcp.

Definition map_opcode (p : MapProto) : Opcode :=
  match p with MapUdp => OpMapUdp | MapTcp => OpMapTcp end.

Inductive Request :=
| ReqExternalAddress
| ReqMap (proto : MapProto) (internal_port suggested_external_port lifetime_secs : Z).

Inductive ParseError :=
| TooShort (got need : nat)
| UnsupportedVersion (v : Z)
| UnsupportedOpcode (op : Z).

Definition MAP_REQUEST_LEN : nat := 12.
Definition CREDENTIAL_TRAILER_MAGIC : Z := 0x5747.
Definition MAX_CREDENTIAL_LEN : nat := 512.
Definition CREDENTIAL_TRAILER_HEADER_LEN : nat := 4.

Inductive TrailerError :=
| CredentialTooLong (len max : nat).

(** [buf[i]], read only after the length was checked. *)
Definition byte_at (buf : list Z) (i : nat) : Z := default 0 (buf !! i).

(** [from_be_bytes] of the [n] bytes of [buf] from index [i]. *)
Definition be_at (buf : list Z) (i n : nat) : Z := be_val (byte_at buf <$> seq i n).

(** The frame with the trailer appended, or the refusal, which leaves the
    caller's frame alone. *)
Definition append_credential_trailer (frame credential : list Z)
  : list Z * result unit TrailerError :=
  let len := length credential in
  if (MAX_CREDENTIAL_LEN <? len)%nat
  then (frame, Err (CredentialTooLong len MAX_CREDENTIAL_LEN))
  else
    (frame ++ be_bytes 2 CREDENTIAL_TRAILER_MAGIC
           ++ be_bytes 2 (wrap 16 (Z.of_nat len))
           ++ credential,
     Ok tt).

(** [slice.get(..n)]. *)
Definition get_prefix (n : nat) (l : list Z) : option (list Z) :=
  if (n <=? length l)%nat then Some (take n l) else None.

Definition credential_trailer (buf : list Z) : option (list Z) :=
  if (MAP_REQUEST_LEN <=? length buf)%nat then
    let trailer := drop MAP_REQUEST_LEN buf in
    if (CREDENTIAL_TRAILER_HEADER_LEN <=? length trailer)%nat then
      let header := take CREDENTIAL_TRAILER_HEADER_LEN trailer in
      let body := drop CREDENTIAL_TRAILER_HEADER_LEN trailer in
      if negb (be_at header 0 2 =? CREDENTIAL_TRAILER_MAGIC) then None
      else
        let len := Z.to_nat (be_at header 2 2) in
        if (MAX_CREDENTIAL_LEN <? len)%nat then None
        else get_prefix len body
    else None
  else None.

Definition parse_request (buf : list Z) : result Request ParseError :=
  if (length buf <? 2)%nat then Err (TooShort (length buf) 2)
  else if negb (byte_at buf 0 =? NATPMP_VERSION)
  then Err (UnsupportedVersion (byte_at buf 0))
  else
    let opcode := byte_at buf 1 in
    if opcode =? 0 then Ok ReqExternalAddress
    else if (opcode =? 1) || (opcode =? 2) then
      if (length buf <? 12)%nat then Err (TooShort (length buf) 12)
      else
        let internal_port := be_at buf 4 2 in
        let suggested_external_port := be_at buf 6 2 in
        let lifetime_secs := be_at buf 8 4 in
        let proto := if opcode =? 1 then MapUdp else MapTcp in
        Ok (ReqMap proto internal_port suggested_external_port lifetime_secs)
    else Err (UnsupportedOpcode opcode).

Inductive Response :=
| RespExternalAddress (result_code : ResultCode) (epoch_secs external_ip : Z)
| RespMap (proto : MapProto) (result_code : ResultCode)
          (epoch_secs internal_port external_port lifetime_secs : Z)
          (rate_limit : option RateLimitInfo).

Definition serialize_request (req : Request) : list Z :=
  match req with
  | ReqExternalAddress => [NATPMP_VERSION; opcode_u8 OpExternalAddress]
  | ReqMap proto internal_port suggested_external_port lifetime_secs =>
      [NATPMP_VERSION; opcode_u8 (map_opcode proto)] ++ [0; 0]
        ++ be_bytes 2 internal_port
        ++ be_bytes 2 suggested_external_port
        ++ be_bytes 4 lifetime_secs
  end.

Definition parse_result_code (raw : Z) : ResultCode :=
  if raw =? 0 then Success
  else if raw =? 1 then CodeUnsupportedVersion
  else if raw =? 2 then NotAuthorized
  else if raw =? 3 then NetworkFailure
  else if raw =? 4 then OutOfResources
  else if raw =? 5 then CodeUnsupportedOpcode
  else if raw =? 6 then SuggestedPortUnavailable
  else if raw =? 7 then RateLimited
  else NetworkFailure.

Definition parse_response (buf : list Z) : result Response ParseError :=
  if (length buf <? 8)%nat then Err (TooShort (length buf) 8)
  else if negb (byte_at buf 0 =? NATPMP_VERSION)
  then Err (UnsupportedVersion (byte_at buf 0))
  else
    let opcode_raw := byte_at buf 1 in
    if Z.land opcode_raw RESPONSE_BIT =? 0 then Err (UnsupportedOpcode opcode_raw)
    else
      (* [& !RESPONSE_BIT], the complement at 8 bits. *)
      let opcode := Z.land opcode_raw (u8_max - RESPONSE_BIT) in
      let result_code := parse_result_code (be_at buf 2 2) in
      let epoch_secs := be_at buf 4 4 in
      if opcode =? 0 then
        if (length buf <? 12)%nat then Err (TooShort (length buf) 12)
        else Ok (RespExternalAddress result_code epoch_secs (be_at buf 8 4))
      else if (opcode =? 1) || (opcode =? 2) then
        if (length buf <? 16)%nat then Err (TooShort (length buf) 16)
        else
          let internal_port := be_at buf 8 2 in
          let external_port := be_at buf 10 2 in
          let lifetime_secs := be_at buf 12 4 in
          let proto := if opcode =? 1 then MapUdp else MapTcp in
          let rate_limit :=
            if (20 <=? length buf)%nat
            then Some (mkRateLimitInfo (byte_at buf 16) (be_at buf 18 2))
            else None in
          Ok (RespMap proto result_code epoch_secs internal_port external_port
                lifetime_secs rate_limit)
      else Err (UnsupportedOpcode opcode).

Definition serialize_response (resp : Response) : list Z :=
  match resp with
  | RespExternalAddress result_code epoch_secs external_ip =>
      [NATPMP_VERSION; Z.lor (opcode_u8 OpExternalAddress) RESPONSE_BIT]
        ++ be_bytes 2 (result_code_u16 result_code)
        ++ be_bytes 4 epoch_secs
        ++ be_bytes 4 external_ip
  | RespMap proto result_code epoch_secs internal_port external_port lifetime_secs rate_limit =>
      [NATPMP_VERSION; Z.lor (opcode_u8 (map_opcode proto)) RESPONSE_BIT]
        ++ be_bytes 2 (result_code_u16 result_code)
        ++ be_bytes 4 epoch_secs
        ++ be_bytes 2 internal_port
        ++ be_bytes 2 external_port
        ++ be_bytes 4 lifetime_secs
        ++ match rate_limit with
           | Some info =>
               [attempts_remaining info; 0] ++ be_bytes 2 (window_reset_secs info)
           | None => []
           end
  end.

(** ** Field widths *)

Definition valid_request (r : Request) : Prop :=
  match r with
  | ReqExternalAddress => True
  | ReqMap _ ip sp lt => in_width 16 ip /\ in_width 16 sp /\ in_width 32 lt
  end.

Definition valid_info (i : RateLimitInfo) : Prop :=
  is_byte (attempts_remaining i) /\ in_width 16 (window_reset_secs i).

Definition valid_response (r : Response) : Prop :=
  match r with
  | RespExternalAddress _ ep ip => in_width 32 ep /\ in_width 32 ip
  | RespMap _ _ ep ip xp lt rl =>
      in_width 32 ep /\ in_width 16 ip /\ in_width 16 xp /\ in_width 32 lt /\
      match rl with Some i => valid_info i | None => True end
  end.

(** ** Reading a field back *)

Lemma byte_at_app_l l k i : (i < length l)%nat -> byte_at (l ++ k) i = byte_at l i.
Proof. intros. unfold byte_at. by rewrite lookup_app_l. Qed.

Lemma byte_at_app_r l k i : (length l <= i)%nat -> byte_at (l ++ k) i = byte_at k (i - length l).
Proof. intros. unfold byte_at. by rewrite lookup_app_r. Qed.

Lemma fmap_byte_at_seq (l : list Z) : byte_at l <$> seq 0 (length l) = l.
Proof.
  apply list_eq. intros i. rewrite list_lookup_fmap.
  destruct (decide (i < length l)%nat) as [Hi|Hi].
  - rewrite lookup_seq_lt by done. simpl. unfold byte_at.
    by destruct (lookup_lt_is_Some_2 l i Hi) as [x ->].
  - rewrite lookup_seq_ge by lia. rewrite lookup_ge_None_2 by lia. done.
Qed.

(** A field of [n] bytes written after a prefix of length [i] reads back as
    its value, whatever follows it. *)
Lemma be_at_field pre n x tail i :
  length pre = i -> in_width (8 * Z.of_nat n) x ->
  be_at (pre ++ be_bytes n x ++ tail) i n = x.
Proof.
  intros <- Hx. unfold be_at.
  assert ((byte_at (pre ++ be_bytes n x ++ tail) <$> seq (length pre) n) = be_bytes n x) as ->.
  - rewrite <- (fmap_byte_at_seq (be_bytes n x)) at 2. rewrite length_be_bytes.
    rewrite <- (Nat.add_0_r (length pre)) at 1. rewrite <- fmap_add_seq, <- list_fmap_compose.
    apply list_fmap_ext. intros j k Hj. apply lookup_seq in Hj as [-> Hj]. simpl.
    rewrite byte_at_app_r, byte_at_app_l by (rewrite ?length_be_bytes; lia). f_equal. lia.
  - by apply be_val_be_bytes.
Qed.

(** Field values read back by position, for the fixed layouts of this format. *)
Lemma be_val_bytes2 x : in_width 16 x -> be_val [x / 256 mod 256; x mod 256] = x.
Proof. apply (be_val_be_bytes 2). Qed.

Lemma be_val_bytes4 x :
  in_width 32 x ->
  be_val [x / 256 / 256 / 256 mod 256; x / 256 / 256 mod 256; x / 256 mod 256; x mod 256] = x.
Proof. apply (be_val_be_bytes 4). Qed.

Create Rewrite HintDb natpmp.
#[local] Hint Rewrite be_val_bytes2 be_val_bytes4 using done : natpmp.

Ltac layout := cbn -[be_val Z.div Z.modulo Z.land Z.lor Z.eqb]; autorewrite with natpmp.

Lemma parse_result_code_u16 c : parse_result_code (result_code_u16 c) = c.
Proof. by destruct c. Qed.

Lemma result_code_u16_width c : in_width 16 (result_code_u16 c).
Proof. by destruct c. Qed.

Lemma parse_request_tail r tail :
  valid_request r -> parse_request (serialize_request r ++ tail) = Ok r.
Proof.
  destruct r as [|p ip sp lt]; [done|]. intros (Hip & Hsp & Hlt).
  unfold parse_request, be_at. by destruct p; layout.
Qed.

(** Request round trip: a well-typed request parses back to itself from
    its serialization, also when bytes follow it (padding, or the credential
    trailer an older server does not know). *)
Theorem request_roundtrip r tail :
  valid_request r -> parse_request (serialize_request r ++ tail) = Ok r.
Proof. apply parse_request_tail. Qed.

Lemma request_roundtrip_witness :
  valid_request (ReqMap MapTcp 80 50000 3600) /\
  parse_request (serialize_request (ReqMap MapTcp 80 50000 3600) ++ [1; 2; 3])
    = Ok (ReqMap MapTcp 80 50000 3600).
Proof.
  assert (H : valid_request (ReqMap MapTcp 80 50000 3600)) by (vm_compute; intuition congruence).
  split; [exact H|]. exact (request_roundtrip _ [1; 2; 3] H).
Defined.

(** Response round trip: a well-typed response, with or without the
    rate-limit trailer, parses back to itself. *)
Theorem response_roundtrip r :
  valid_response r -> parse_response (serialize_response r) = Ok r.
Proof.
  destruct r as [c ep ip|p c ep ip xp lt rl]; unfold parse_response, be_at; intros H.
  - destruct H as (Hep & Hip). pose proof (result_code_u16_width c).
    layout. by rewrite parse_result_code_u16.
  - destruct H as (Hep & Hip & Hxp & Hlt & Hrl). pose proof (result_code_u16_width c).
    destruct rl as [[att reset]|]; [destruct Hrl as [Hatt Hreset]; simpl in *|];
      destruct p; layout; by rewrite parse_result_code_u16.
Qed.

Lemma response_roundtrip_witness :
  valid_response (RespMap MapUdp RateLimited 7 80 50000 3600 (Some (mkRateLimitInfo 0 42))) /\
  parse_response (serialize_response
      (RespMap MapUdp RateLimited 7 80 50000 3600 (Some (mkRateLimitInfo 0 42))))
    = Ok (RespMap MapUdp RateLimited 7 80 50000 3600 (Some (mkRateLimitInfo 0 42))).
Proof.
  assert (H : valid_response (RespMap MapUdp RateLimited 7 80 50000 3600
                                (Some (mkRateLimitInfo 0 42))))
    by (vm_compute; intuition congruence).
  split; [exact H|]. exact (response_roundtrip _ H).
Defined.

(** Credential trailer: a credential that fits is read back intact from the
    frame it was appended to, and the server reads the very request it was
    appended to. *)
Theorem credential_roundtrip p ip sp lt credential frame :
  valid_request (ReqMap p ip sp lt) ->
  append_credential_trailer (serialize_request (ReqMap p ip sp lt)) credential = (frame, Ok tt) ->
  credential_trailer frame = Some credential /\
  parse_request frame = Ok (ReqMap p ip sp lt).
Proof.
  intros Hr Happ. unfold append_credential_trailer in Happ.
  destruct (Nat.ltb_spec MAX_CREDENTIAL_LEN (length credential)) as [|Hlen]; [done|].
  apply (f_equal fst) in Happ. cbn [fst] in Happ. subst frame.
  split; [|by apply parse_request_tail].
  assert (Hw : in_width 16 (Z.of_nat (length credential)))
    by (unfold in_width, MAX_CREDENTIAL_LEN in *; lia).
  rewrite (wrap_small 16) by done.
  unfold credential_trailer, be_at.
  destruct p; cbn -[be_val Z.div Z.modulo Z.eqb MAX_CREDENTIAL_LEN Nat.ltb get_prefix];
    autorewrite with natpmp; rewrite Z.eqb_refl; cbn [negb]; rewrite Nat2Z.id;
    (destruct (Nat.ltb_spec MAX_CREDENTIAL_LEN (length credential)); [lia|]);
    unfold get_prefix; rewrite Nat.leb_refl; by rewrite firstn_all.
Qed.

Lemma credential_roundtrip_witness :
  exists frame,
  append_credential_trailer (serialize_request (ReqMap MapUdp 5000 0 60)) [9; 8; 7]
    = (frame, Ok tt) /\
  credential_trailer frame = Some [9; 8; 7] /\
  parse_request frame = Ok (ReqMap MapUdp 5000 0 60).
Proof.
  eexists. split; [reflexivity|].
  apply (credential_roundtrip MapUdp 5000 0 60 [9; 8; 7]);
    [vm_compute; intuition congruence|reflexivity].
Defined.

(** A credential read from any buffer, however malformed, is a slice of that
    buffer no longer than the documented maximum. *)
Theorem credential_is_bounded_slice buf c :
  credential_trailer buf = Some c ->
  (length c <= MAX_CREDENTIAL_LEN)%nat /\
  exists head rest, buf = head ++ c ++ rest /\ length head = 16%nat.
Proof.
  unfold credential_trailer, get_prefix.
  destruct (Nat.leb_spec MAP_REQUEST_LEN (length buf)) as [H12|]; [|done].
  rewrite length_drop.
  destruct (Nat.leb_spec CREDENTIAL_TRAILER_HEADER_LEN (length buf - MAP_REQUEST_LEN)) as [H4|];
    [|done].
  destruct (negb _); [done|].
  set (len := Z.to_nat _).
  destruct (Nat.ltb_spec MAX_CREDENTIAL_LEN len) as [|Hmax]; [done|].
  rewrite drop_drop. rewrite length_drop.
  destruct (Nat.leb_spec len (length buf - (MAP_REQUEST_LEN + CREDENTIAL_TRAILER_HEADER_LEN)))
    as [Hl|]; [|done].
  intros [= <-]. unfold MAP_REQUEST_LEN, CREDENTIAL_TRAILER_HEADER_LEN in *.
  split; [rewrite length_take, length_drop; lia|].
  exists (take 16 buf), (drop len (drop 16 buf)).
  rewrite take_drop, take_drop. split; [done|]. rewrite length_take. lia.
Qed.

Lemma credential_is_bounded_slice_witness :
  credential_trailer (replicate 12 0 ++ [0x57; 0x47; 0; 2; 5; 6; 1]) = Some [5; 6] /\
  (length [5; 6] <= MAX_CREDENTIAL_LEN)%nat /\
  exists head rest, replicate 12 0 ++ [0x57; 0x47; 0; 2; 5; 6; 1] = head ++ [5; 6] ++ rest
                    /\ length head = 16%nat.
Proof.
  split; [reflexivity|].
  apply (credential_is_bounded_slice (replicate 12 0 ++ [0x57; 0x47; 0; 2; 5; 6; 1]) [5; 6]).
  reflexivity.
Defined.

(** The two directions never mix: no serialized request is accepted as a
    response and no serialized response as a request. *)
Theorem directions_disjoint req resp :
  is_ok (parse_response (serialize_request req)) = false /\
  is_ok (parse_request (serialize_response resp)) = false.
Proof.
  split.
  - destruct req as [|[] ? ? ?]; reflexivity.
  - destruct resp as [? ? ?|[] ? ? ? ? ? ?]; reflexivity.
Qed.

End NatPmpProtocol.
