(* ===== verification/NatPmpAllocator.v ===== *)
(** NAT-PMP external port allocator
    ([crates/warrenguard-natpmp-server/src/allocator.rs]).

    [Inner] is the table behind the allocator's lock, [Allocator] the table with
    its configuration, its counters and the deployer's callbacks.  Every method
    is a function from the allocator to the allocator; a method that takes the
    lock once is one step.  [try_allocate] is one pass of the allocation
    decision under the lock, and [allocate_loop] the loop that releases the lock
    to ask the deployer: its argument [env] is what the other threads did to the
    table in between.

    The [rand] crate is not part of the sources: the draws of [pick_port] are an
    argument [draw], where [draw i n] is the [i]-th [random_range(0..n)].

    [HashMap] iteration order is unspecified; it is [map_to_list] order here, and
    no theorem depends on it. *)

From S2P Require Import Prelude.

Module NatPmpAllocator.

(** ** Data *)

Inductive Proto := Tcp | Udp.

#[export] Instance proto_eq_dec : EqDecision Proto.
Proof. solve_decision. Defined.

#[export] Instance proto_countable : Countable Proto.
Proof.
  refine (inj_countable' (fun p => match p with Tcp => true | Udp => false end)
                         (fun b : bool => if b then Tcp else Udp) _).
  by intros [].
Defined.

Record Allocation := mkAllocation {
  external_port : Z;
  internal_ip : Z;
  internal_port : Z;
  proto : Proto;
  expires_at : Z;
}.

#[export] Instance allocation_eq_dec : EqDecision Allocation.
Proof. solve_decision. Defined.

(** The allocator returns the middle four; a server refuses with the first, a backend fails
    with the last. *)
Inductive NatPmpError :=
| NotAuthorized (client : Z)
| RateLimited (client retry_after_secs : Z)
| Exhausted
| QuotaExceeded (client : Z)
| SuggestedPortInUse (port : Z)
| Backend (message : list Z).

Record RateLimitInfo := mkRateLimitInfo {
  attempts_remaining : Z;
  window_reset : Z;
}.

Record RevokedAllocation := mkRevoked {
  rv_allocation : Allocation;
  rv_held_since : Z;
}.

Record AllocatorConfig := mkConfig {
  range : Z * Z;
  cooldown : Z;
  rate_limit_max : Z;
  rate_limit_window : Z;
  quota_per_client : Z;
}.

Definition NATPMP_EXTERNAL_PORT_MIN : Z := 49152.
Definition NATPMP_EXTERNAL_PORT_MAX : Z := 65535.
Definition NATPMP_PORT_COOLDOWN_SECS : Z := 300.
Definition NATPMP_LIFETIME_MAX_SECS : Z := 3600.
Definition NATPMP_LIFETIME_MIN_SECS : Z := 60.
Definition NATPMP_QUOTA_PER_CLIENT_IP : Z := 5.
Definition NATPMP_RATE_LIMIT_MAX_PER_WINDOW : Z := 12.
Definition NATPMP_RATE_LIMIT_WINDOW_SECS : Z := 60.

Definition warren_default : AllocatorConfig := {|
  range := (NATPMP_EXTERNAL_PORT_MIN, NATPMP_EXTERNAL_PORT_MAX);
  cooldown := from_secs NATPMP_PORT_COOLDOWN_SECS;
  rate_limit_max := NATPMP_RATE_LIMIT_MAX_PER_WINDOW;
  rate_limit_window := from_secs NATPMP_RATE_LIMIT_WINDOW_SECS;
  quota_per_client := NATPMP_QUOTA_PER_CLIENT_IP;
|}.

Record AllocateOutcome := mkOutcome {
  out_result : result Allocation NatPmpError;
  out_evicted : list Allocation;
}.

(** Monotonic event tally; [fetch_add] wraps at 64 bits. *)
Record AllocatorCounters := mkCounters {
  c_allocations : Z;
  c_releases : Z;
  c_evictions : Z;
  c_quota_exceeded : Z;
  c_rate_limited : Z;
  c_exhausted : Z;
  c_suggested_in_use : Z;
  c_reclaimed_from_departed_peer : Z;
  c_abuse_revocations : Z;
}.

Definition zero_counters : AllocatorCounters := mkCounters 0 0 0 0 0 0 0 0 0.

Inductive Counter :=
| Allocations | Releases | Evictions | QuotaExceededs | RateLimiteds | Exhausteds
| SuggestedInUses | ReclaimedFromDepartedPeer | AbuseRevocations.

Definition fetch_add (c : Counter) (n : Z) (k : AllocatorCounters) : AllocatorCounters :=
  let '(mkCounters a r e q l x s d b) := k in
  let add v := wrap 64 (v + n) in
  match c with
  | Allocations => mkCounters (add a) r e q l x s d b
  | Releases => mkCounters a (add r) e q l x s d b
  | Evictions => mkCounters a r (add e) q l x s d b
  | QuotaExceededs => mkCounters a r e (add q) l x s d b
  | RateLimiteds => mkCounters a r e q (add l) x s d b
  | Exhausteds => mkCounters a r e q l (add x) s d b
  | SuggestedInUses => mkCounters a r e q l x (add s) d b
  | ReclaimedFromDepartedPeer => mkCounters a r e q l x s (add d) b
  | AbuseRevocations => mkCounters a r e q l x s d (add b)
  end.

Record Inner := mkInner {
  active : gmap (Z * Proto) Allocation;
  next_expiry : option Z;
  cooldown_until : gmap Z Z;
  abuse_quarantine_until : gmap Z Z;
  held_since : gmap Z Z;
  last_user_per_port : gmap Z (Z * Z);
  rate_limit_log : gmap Z (list Z);
}.

Definition empty_inner : Inner := mkInner ∅ None ∅ ∅ ∅ ∅ ∅.

(** Field updates. *)
Definition set_active (m : gmap (Z * Proto) Allocation) (g : Inner) : Inner :=
  mkInner m (next_expiry g) (cooldown_until g) (abuse_quarantine_until g)
    (held_since g) (last_user_per_port g) (rate_limit_log g).
Definition set_next_expiry (t : option Z) (g : Inner) : Inner :=
  mkInner (active g) t (cooldown_until g) (abuse_quarantine_until g)
    (held_since g) (last_user_per_port g) (rate_limit_log g).
Definition set_cooldown (m : gmap Z Z) (g : Inner) : Inner :=
  mkInner (active g) (next_expiry g) m (abuse_quarantine_until g)
    (held_since g) (last_user_per_port g) (rate_limit_log g).
Definition set_quarantine (m : gmap Z Z) (g : Inner) : Inner :=
  mkInner (active g) (next_expiry g) (cooldown_until g) m
    (held_since g) (last_user_per_port g) (rate_limit_log g).
Definition set_held_since (m : gmap Z Z) (g : Inner) : Inner :=
  mkInner (active g) (next_expiry g) (cooldown_until g) (abuse_quarantine_until g)
    m (last_user_per_port g) (rate_limit_log g).
Definition set_last_user (m : gmap Z (Z * Z)) (g : Inner) : Inner :=
  mkInner (active g) (next_expiry g) (cooldown_until g) (abuse_quarantine_until g)
    (held_since g) m (rate_limit_log g).
Definition set_rate_log (m : gmap Z (list Z)) (g : Inner) : Inner :=
  mkInner (active g) (next_expiry g) (cooldown_until g) (abuse_quarantine_until g)
    (held_since g) (last_user_per_port g) m.

(** The deployer's callbacks, each unset until wired once ([OnceLock]).  A wired
    release observer is represented by the calls it received, oldest first. *)
Record Allocator := mkAllocator {
  inner : Inner;
  cfg : AllocatorConfig;
  quota_peers : option (Z -> list Z);
  port_budget : option (Z -> option Z);
  live_sessions : option (Z -> bool);
  release_observer : option (list (list Allocation));
  counters : AllocatorCounters;
}.

(** [from_config] asserts a non-empty range. *)
Definition from_config (c : AllocatorConfig) : option Allocator :=
  if fst (range c) <=? snd (range c)
  then Some (mkAllocator empty_inner c None None None None zero_counters)
  else None.

Definition with_inner (g : Inner) (k : AllocatorCounters) (a : Allocator) : Allocator :=
  mkAllocator g (cfg a) (quota_peers a) (port_budget a) (live_sessions a)
    (release_observer a) k.

Definition set_quota_peers (peers : Z -> list Z) (a : Allocator) : Allocator * bool :=
  match quota_peers a with
  | Some _ => (a, false)
  | None =>
      (mkAllocator (inner a) (cfg a) (Some peers) (port_budget a) (live_sessions a)
         (release_observer a) (counters a), true)
  end.

Definition set_port_budget (budget : Z -> option Z) (a : Allocator) : Allocator * bool :=
  match port_budget a with
  | Some _ => (a, false)
  | None =>
      (mkAllocator (inner a) (cfg a) (quota_peers a) (Some budget) (live_sessions a)
         (release_observer a) (counters a), true)
  end.

Definition set_live_sessions (sessions : Z -> bool) (a : Allocator) : Allocator * bool :=
  match live_sessions a with
  | Some _ => (a, false)
  | None =>
      (mkAllocator (inner a) (cfg a) (quota_peers a) (port_budget a) (Some sessions)
         (release_observer a) (counters a), true)
  end.

Definition set_release_observer (a : Allocator) : Allocator * bool :=
  match release_observer a with
  | Some _ => (a, false)
  | None =>
      (mkAllocator (inner a) (cfg a) (quota_peers a) (port_budget a) (live_sessions a)
         (Some []) (counters a), true)
  end.

Definition report_released (removed : list Allocation) (a : Allocator) : Allocator :=
  match removed with
  | [] => a
  | _ =>
      mkAllocator (inner a) (cfg a) (quota_peers a) (port_budget a) (live_sessions a)
        ((fun log => log ++ [removed]) <$> release_observer a) (counters a)
  end.

(** ** The table *)

(** [map_or(t, |u| u.min(t))]. *)
Definition min_with (acc : option Z) (t : Z) : option Z :=
  Some (match acc with None => t | Some u => Z.min u t end).

Definition insert_active (alloc : Allocation) (g : Inner) : Inner :=
  set_active (<[(external_port alloc, proto alloc) := alloc]> (active g))
    (set_next_expiry (min_with (next_expiry g) (expires_at alloc)) g).

(** The cooldown and anti-rotation entries of one expired lease. *)
Definition arm_expired (now cd : Z) (g : Inner) (kv : Z * Proto * Allocation) : Inner :=
  let ext := fst (fst kv) in
  let ip := internal_ip (snd kv) in
  let deadline := expires_at (snd kv) + cd in
  if now <? deadline then
    let slot := default deadline (cooldown_until g !! ext) in
    let last := default (ip, deadline) (last_user_per_port g !! ext) in
    set_last_user (<[ext := if snd last <? deadline then (ip, deadline) else last]>
                     (last_user_per_port g))
      (set_cooldown (<[ext := if slot <? deadline then deadline else slot]>
                       (cooldown_until g)) g)
  else g.

Definition min_expiry (m : gmap (Z * Proto) Allocation) : option Z :=
  fold_left min_with ((fun kv : Z * Proto * Allocation => expires_at (snd kv)) <$> map_to_list m)
    None.

Definition expired_entries (now : Z) (g : Inner) : list (Z * Proto * Allocation) :=
  filter (fun kv : Z * Proto * Allocation => expires_at (snd kv) <= now)
    (map_to_list (active g)).

Definition live_entries (now : Z) (m : gmap (Z * Proto) Allocation)
  : gmap (Z * Proto) Allocation :=
  filter (fun kv : Z * Proto * Allocation => now < expires_at (snd kv)) m.

Definition sweep_expired (now cd : Z) (g : Inner) (evicted : list Allocation)
  : Inner * list Allocation :=
  if match next_expiry g with None => true | Some t => now <? t end then (g, evicted)
  else
    let expired := expired_entries now g in
    let live := live_entries now (active g) in
    (fold_left (arm_expired now cd) expired
       (set_next_expiry (min_expiry live) (set_active live g)),
     evicted ++ (snd <$> expired)).

(** Entries of a sliding window that are still inside it. *)
Fixpoint trim_log (now window : Z) (log : list Z) : list Z :=
  match log with
  | [] => []
  | t :: log' => if window <? duration_since now t then trim_log now window log' else log
  end.

Definition trim_side_maps (now rate_window : Z) (g : Inner) : Inner :=
  mkInner (active g) (next_expiry g)
    (filter (fun kv => now < snd kv) (cooldown_until g))
    (filter (fun kv => now < snd kv) (abuse_quarantine_until g))
    (filter (fun kv => is_Some (active g !! (fst kv, Tcp)) \/ is_Some (active g !! (fst kv, Udp)))
       (held_since g))
    (filter (fun kv => now < snd (snd kv)) (last_user_per_port g))
    (filter (fun kv => snd kv <> []) (trim_log now rate_window <$> rate_limit_log g)).

(** ** Port predicates *)

Definition clamp_lifetime (requested_secs : Z) : Z :=
  from_secs (Z.min (Z.max requested_secs NATPMP_LIFETIME_MIN_SECS) NATPMP_LIFETIME_MAX_SECS).

Definition port_in_range (p : Z) (r : Z * Z) : bool := (fst r <=? p) && (p <=? snd r).

Definition port_owner (g : Inner) (p : Z) : option Z :=
  internal_ip <$> match active g !! (p, Tcp) with
                  | Some a => Some a
                  | None => active g !! (p, Udp)
                  end.

(** The port is under an abuse quarantine still running at [now]. *)
Definition quarantined (g : Inner) (p now : Z) : bool :=
  match abuse_quarantine_until g !! p with Some until => now <? until | None => false end.

Definition port_eligible (g : Inner) (p client_ip now : Z) (reclaim : option (gset Z)) : bool :=
  if bool_decide (is_Some (active g !! (p, Tcp))) || bool_decide (is_Some (active g !! (p, Udp)))
  then false
  else if quarantined g p now then false
  else if match reclaim, last_user_per_port g !! p with
          | Some tenant, Some (prev_ip, expiry) => bool_decide (prev_ip ∈ tenant) && (now <? expiry)
          | _, _ => false
          end
  then true
  else
    match cooldown_until g !! p with Some t => t <=? now | None => true end &&
    match last_user_per_port g !! p with
    | Some (prev_ip, expiry) => negb (prev_ip =? client_ip) || (expiry <=? now)
    | None => true
    end.

Definition PICK_PORT_RANDOM_TRIES : Z := 256.

Definition pick_port (g : Inner) (rg : Z * Z) (pr : Proto) (reuse client_ip now : Z)
  (draw : nat -> Z -> Z) : option Z :=
  let eligible p := port_eligible g p client_ip now None in
  if negb (reuse =? 0) && port_in_range reuse rg &&
     negb (bool_decide (is_Some (active g !! (reuse, pr)))) &&
     (bool_decide (port_owner g reuse = Some client_ip) || eligible reuse)
  then Some reuse
  else
    let range_size := snd rg - fst rg + 1 in
    let tries := Z.to_nat (Z.min range_size PICK_PORT_RANDOM_TRIES) in
    match List.find eligible ((fun i => fst rg + draw i range_size) <$> seq 0 tries) with
    | Some p => Some p
    | None => List.find eligible (seqZ (fst rg) range_size)
    end.

Definition window_reset_secs (window elapsed_since_oldest : Z) : Z :=
  let remaining := Z.max 0 (window - elapsed_since_oldest) in
  let secs := remaining / NANOS_PER_SEC + (if 0 <? remaining mod NANOS_PER_SEC then 1 else 0) in
  if secs <=? u16_max then secs else u16_max.

(** [entry(client).or_default()] followed by the trim of its window. *)
Definition trim_client_log (client_ip now window : Z) (g : Inner) : Inner :=
  set_rate_log
    (<[client_ip := trim_log now window (default [] (rate_limit_log g !! client_ip))]>
       (rate_limit_log g)) g.

Definition client_log (g : Inner) (client_ip : Z) : list Z :=
  default [] (rate_limit_log g !! client_ip).

Definition push_client_log (client_ip now : Z) (g : Inner) : Inner :=
  set_rate_log (<[client_ip := client_log g client_ip ++ [now]]> (rate_limit_log g)) g.

Definition within_rate_budget (g : Inner) (client_ip now window max : Z) : Inner * bool :=
  let g := trim_client_log client_ip now window g in
  (g, Z.of_nat (length (client_log g client_ip)) <? max).

(** Retry delay reported with a [RateLimited] refusal. *)
Definition retry_after (g : Inner) (client_ip now window : Z) : Z :=
  match client_log g client_ip with
  | [] => 0
  | t :: _ => window_reset_secs window (duration_since now t)
  end.

(** ** One allocation request *)

Record MapRequest := mkRequest {
  rq_client_ip : Z;
  rq_proto : Proto;
  rq_internal_port : Z;
  rq_suggested : Z;
  rq_lifetime : Z;
  rq_now : Z;
}.

Record DeployerAnswers := mkAnswers {
  tenant : option (gset Z);
  budget : option Z;
  holder_live : option (Z * bool);
}.

Inductive Question := QTenant | QQuotaInputs | QHolderLive (holder : Z).

Inductive Step :=
| Done (r : result Allocation NatPmpError)
| Ask (q : Question).

Definition unasked (a : Allocator) (client_ip : Z) : DeployerAnswers := {|
  tenant := match quota_peers a with None => Some {[client_ip]} | Some _ => None end;
  budget := match port_budget a with None => Some (quota_per_client (cfg a)) | Some _ => None end;
  holder_live := None;
|}.

Definition ask_tenant (a : Allocator) (client_ip : Z) : gset Z :=
  match quota_peers a with
  | Some peers => list_to_set (peers client_ip ++ [client_ip])
  | None => {[client_ip]}
  end.

Definition ask (a : Allocator) (q : Question) (client_ip : Z) (ans : DeployerAnswers)
  : DeployerAnswers :=
  match q with
  | QTenant => mkAnswers (Some (ask_tenant a client_ip)) (budget ans) (holder_live ans)
  | QQuotaInputs =>
      mkAnswers
        (match tenant ans with None => Some (ask_tenant a client_ip) | Some t => Some t end)
        (match budget ans with
         | None =>
             Some (default (quota_per_client (cfg a))
                     (match port_budget a with Some b => b client_ip | None => None end))
         | Some b => Some b
         end)
        (holder_live ans)
  | QHolderLive holder =>
      mkAnswers (tenant ans) (budget ans)
        (Some (holder, match live_sessions a with Some s => s holder | None => true end))
  end.

(** The suggestion after the quarantine filter: a quarantined port reads as no
    preference. *)
Definition effective_suggestion (g : Inner) (suggested now : Z) : Z :=
  if quarantined g suggested now then 0 else suggested.

(** What the strict suggested-port check decided. *)
Inductive Checked :=
| Stop (s : Step)
| Go (reclaim_from_departed_peer : bool).

(** [cheap_grantable]: what the allocator's own maps decide, or the question it
    needs first. *)
Definition cheap_grantable (a : Allocator) (g : Inner) (rq : MapRequest) (ans : DeployerAnswers)
  (suggested : Z) : bool + Question :=
  let owner_allows :=
    match port_owner g suggested with None => true | Some o => o =? rq_client_ip rq end in
  if port_in_range suggested (range (cfg a)) && owner_allows then
    match active g !! (suggested, rq_proto rq) with
    | Some e => inl ((internal_ip e =? rq_client_ip rq) && (internal_port e =? rq_internal_port rq))
    | None =>
        match port_owner g suggested with
        | Some _ => inl true
        | None =>
            if match last_user_per_port g !! suggested with
               | Some (_, expiry) => rq_now rq <? expiry
               | None => false
               end
            then
              match tenant ans with
              | None => inr QTenant
              | Some tn => inl (port_eligible g suggested (rq_client_ip rq) (rq_now rq) (Some tn))
              end
            else inl (port_eligible g suggested (rq_client_ip rq) (rq_now rq) None)
        end
    end
  else inl false.

(** A suggested port held by another address of the same tenant whose session
    has departed. *)
Definition check_departed_peer (a : Allocator) (g : Inner) (rq : MapRequest)
  (ans : DeployerAnswers) (suggested : Z) : Inner * (bool + Question) :=
  match port_in_range suggested (range (cfg a)), port_owner g suggested, live_sessions a with
  | true, Some holder, Some _ =>
      if holder =? rq_client_ip rq then (g, inl false)
      else
        let '(g, within) :=
          within_rate_budget g (rq_client_ip rq) (rq_now rq) (rate_limit_window (cfg a))
            (rate_limit_max (cfg a)) in
        if within then
          match holder_live ans with
          | None => (g, inr (QHolderLive holder))
          | Some (asked, live) =>
              if (asked =? holder) && negb live then
                match tenant ans with
                | None => (g, inr QTenant)
                | Some tn => (g, inl (bool_decide (holder ∈ tn)))
                end
              else (g, inl false)
          end
        else (g, inl false)
  | _, _, _ => (g, inl false)
  end.

(** A refused suggestion is charged against the source's rate limit. *)
Definition refuse_suggestion (a : Allocator) (g : Inner) (k : AllocatorCounters)
  (rq : MapRequest) (suggested : Z) : Inner * AllocatorCounters * NatPmpError :=
  let g := trim_client_log (rq_client_ip rq) (rq_now rq) (rate_limit_window (cfg a)) g in
  if rate_limit_max (cfg a) <=? Z.of_nat (length (client_log g (rq_client_ip rq))) then
    (g, fetch_add RateLimiteds 1 k,
     RateLimited (rq_client_ip rq)
       (retry_after g (rq_client_ip rq) (rq_now rq) (rate_limit_window (cfg a))))
  else
    (push_client_log (rq_client_ip rq) (rq_now rq) g, fetch_add SuggestedInUses 1 k,
     SuggestedPortInUse suggested).

(** The strict honouring of an explicit suggestion. *)
Definition check_suggested (a : Allocator) (g : Inner) (k : AllocatorCounters)
  (rq : MapRequest) (ans : DeployerAnswers) (suggested : Z)
  : Inner * AllocatorCounters * Checked :=
  if suggested =? 0 then (g, k, Go false)
  else
    match cheap_grantable a g rq ans suggested with
    | inr q => (g, k, Stop (Ask q))
    | inl true => (g, k, Go false)
    | inl false =>
        let '(g, peer) := check_departed_peer a g rq ans suggested in
        match peer with
        | inr q => (g, k, Stop (Ask q))
        | inl true => (g, k, Go true)
        | inl false =>
            let '(g, k, e) := refuse_suggestion a g k rq suggested in
            (g, k, Stop (Done (Err e)))
        end
    end.

(** The live mappings of the request's own [(client, internal port, proto)]. *)
Definition same_tuple (g : Inner) (rq : MapRequest) : list (Z * Proto) :=
  fst <$> filter (fun kv : Z * Proto * Allocation =>
                    snd (fst kv) = rq_proto rq /\
                    internal_ip (snd kv) = rq_client_ip rq /\
                    internal_port (snd kv) = rq_internal_port rq)
            (map_to_list (active g)).

(** The rate limit, consulted for new port acquisitions only. *)
Definition check_rate (a : Allocator) (g : Inner) (k : AllocatorCounters) (rq : MapRequest)
  (acquires_new_port : bool) : Inner * AllocatorCounters * option NatPmpError :=
  if acquires_new_port then
    let g := trim_client_log (rq_client_ip rq) (rq_now rq) (rate_limit_window (cfg a)) g in
    if rate_limit_max (cfg a) <=? Z.of_nat (length (client_log g (rq_client_ip rq))) then
      (g, fetch_add RateLimiteds 1 k,
       Some (RateLimited (rq_client_ip rq)
               (retry_after g (rq_client_ip rq) (rq_now rq) (rate_limit_window (cfg a)))))
    else (g, k, None)
  else (g, k, None).

(** Removes a list of slots, collecting what was in them. *)
Fixpoint remove_slots (slots : list (Z * Proto)) (g : Inner) (evicted : list Allocation)
  : Inner * list Allocation :=
  match slots with
  | [] => (g, evicted)
  | key :: slots' =>
      match active g !! key with
      | Some removed =>
          remove_slots slots' (set_active (delete key (active g)) g) (evicted ++ [removed])
      | None => remove_slots slots' g evicted
      end
  end.

(** The last port the refresh dropped. *)
Definition previously_held (g : Inner) (slots : list (Z * Proto)) : option Z :=
  last (fst <$> filter (fun key => is_Some (active g !! key)) slots).

Definition held_ports (g : Inner) (tn : gset Z) : gset Z :=
  set_map fst (dom (filter (fun kv : Z * Proto * Allocation => internal_ip (snd kv) ∈ tn)
                      (active g))).

Definition over_quota (g : Inner) (tn : gset Z) (bud suggested : Z) (prev : option Z) : bool :=
  let held := held_ports g tn in
  let reuses_held_port :=
    if suggested =? 0 then bool_decide (is_Some prev)
    else bool_decide (suggested ∈ held) || bool_decide (prev = Some suggested) in
  negb reuses_held_port && (bud <=? Z.of_nat (size held)).

(** Installs the granted mapping: the rate-limit slot, the start of the holding
    and the table entry. *)
Definition install (g : Inner) (rq : MapRequest) (acquires_new_port reclaim : bool)
  (prev : option Z) (port : Z) : Inner * Allocation :=
  let g := if acquires_new_port then push_client_log (rq_client_ip rq) (rq_now rq) g else g in
  let holding_goes_on :=
    bool_decide (prev = Some port) || reclaim ||
    bool_decide (port_owner g port = Some (rq_client_ip rq)) in
  let since :=
    match held_since g !! port with
    | Some since => if holding_goes_on then since else rq_now rq
    | None => rq_now rq
    end in
  let alloc := mkAllocation port (rq_client_ip rq) (rq_internal_port rq) (rq_proto rq)
                 (rq_now rq + rq_lifetime rq) in
  (insert_active alloc (set_held_since (<[port := since]> (held_since g)) g), alloc).

(** The part of the pass that changes the table, with every answer gathered. *)
Definition grant (a : Allocator) (g : Inner) (k : AllocatorCounters) (rq : MapRequest)
  (tn : gset Z) (bud suggested : Z) (reclaim acquires_new_port : bool)
  (tuple : list (Z * Proto)) (evicted : list Allocation) (draw : nat -> Z -> Z)
  : Inner * AllocatorCounters * list Allocation * Step :=
  let prev := previously_held g tuple in
  let '(g, evicted) := remove_slots tuple g evicted in
  if over_quota g tn bud suggested prev then
    (g, fetch_add QuotaExceededs 1 k, evicted, Done (Err (QuotaExceeded (rq_client_ip rq))))
  else
    let k := if reclaim then fetch_add ReclaimedFromDepartedPeer 1 k else k in
    let '(g, evicted) :=
      if reclaim then remove_slots [(suggested, Tcp); (suggested, Udp)] g evicted
      else (g, evicted) in
    let port :=
      if suggested =? 0
      then pick_port g (range (cfg a)) (rq_proto rq) (default 0 prev) (rq_client_ip rq)
             (rq_now rq) draw
      else Some suggested in
    match port with
    | None => (g, fetch_add Exhausteds 1 k, evicted, Done (Err Exhausted))
    | Some port =>
        let '(g, alloc) := install g rq acquires_new_port reclaim prev port in
        (g, fetch_add Allocations 1 k, evicted, Done (Ok alloc))
    end.

(** One pass of the allocation decision under the lock. *)
Definition try_allocate (a : Allocator) (g : Inner) (k : AllocatorCounters) (rq : MapRequest)
  (ans : DeployerAnswers) (evicted : list Allocation) (draw : nat -> Z -> Z)
  : Inner * AllocatorCounters * list Allocation * Step :=
  let '(g, evicted) := sweep_expired (rq_now rq) (cooldown (cfg a)) g evicted in
  let suggested := effective_suggestion g (rq_suggested rq) (rq_now rq) in
  let '(g, k, checked) := check_suggested a g k rq ans suggested in
  match checked with
  | Stop s => (g, k, evicted, s)
  | Go reclaim =>
      let tuple := same_tuple g rq in
      let is_refresh := negb (bool_decide (tuple = [])) in
      let owns_suggested_port :=
        negb (suggested =? 0) && bool_decide (port_owner g suggested = Some (rq_client_ip rq)) in
      let acquires_new_port := negb is_refresh && negb owns_suggested_port in
      let '(g, k, limited) := check_rate a g k rq acquires_new_port in
      match limited with
      | Some e => (g, k, evicted, Done (Err e))
      | None =>
          match tenant ans, budget ans with
          | Some tn, Some bud =>
              grant a g k rq tn bud suggested reclaim acquires_new_port tuple evicted draw
          | _, _ => (g, k, evicted, Ask QQuotaInputs)
          end
      end
  end.

(** The request loop.  [env i] is what other threads did to the table and the
    counters while the lock was released before pass [i]. *)
Fixpoint allocate_loop (fuel : nat) (a : Allocator) (rq : MapRequest) (draw : nat -> Z -> Z)
  (env : nat -> Inner * AllocatorCounters -> Inner * AllocatorCounters)
  (g : Inner) (k : AllocatorCounters) (ans : DeployerAnswers) (evicted : list Allocation)
  : option (Inner * AllocatorCounters * AllocateOutcome) :=
  match fuel with
  | O => None
  | S fuel' =>
      let '(g, k) := env fuel' (g, k) in
      let '(g, k, evicted, step) := try_allocate a g k rq ans evicted draw in
      match step with
      | Done r => Some (g, k, mkOutcome r evicted)
      | Ask q =>
          allocate_loop fuel' a rq draw env g k (ask a q (rq_client_ip rq) ans) evicted
      end
  end.

(** A request takes the lock at most four times. *)
Definition MAX_PASSES : nat := 4.

Definition report_evicted (evicted : list Allocation) (granted : option Allocation)
  (a : Allocator) : Allocator :=
  match release_observer a with
  | None => a
  | Some _ =>
      report_released
        (List.filter (fun e =>
           match granted with
           | None => true
           | Some g => negb (bool_decide ((external_port e, proto e, internal_ip e)
                                          = (external_port g, proto g, internal_ip g)))
           end) evicted) a
  end.

Definition outcome_granted (o : AllocateOutcome) : option Allocation :=
  match out_result o with Ok g => Some g | Err _ => None end.

Definition make_request (client_ip : Z) (pr : Proto) (internal_port suggested lifetime_secs now : Z)
  : MapRequest :=
  mkRequest client_ip pr internal_port suggested (clamp_lifetime lifetime_secs) now.

(** The first pass trims the side maps in the same critical section. *)
Definition allocate_at_collecting (a : Allocator) (rq : MapRequest) (draw : nat -> Z -> Z)
  (env : nat -> Inner * AllocatorCounters -> Inner * AllocatorCounters)
  : option (Allocator * AllocateOutcome) :=
  let trimmed := trim_side_maps (rq_now rq) (rate_limit_window (cfg a)) in
  let env' i gk :=
    if (i =? MAX_PASSES - 1)%nat then (trimmed (fst (env i gk)), snd (env i gk)) else env i gk in
  '(g, k, out) ← allocate_loop MAX_PASSES a rq draw env' (inner a) (counters a)
                   (unasked a (rq_client_ip rq)) [];
  Some (report_evicted (out_evicted out) (outcome_granted out) (with_inner g k a), out).

(** No other thread runs between the passes. *)
Definition quiet (_ : nat) (gk : Inner * AllocatorCounters) : Inner * AllocatorCounters := gk.

(** ** The other methods *)

Definition arm_release (port ip deadline : Z) (g : Inner) : Inner :=
  set_last_user (<[port := (ip, deadline)]> (last_user_per_port g))
    (set_cooldown (<[port := deadline]> (cooldown_until g)) g).

Definition release_at (alloc : Allocation) (now : Z) (a : Allocator) : Allocator :=
  let g := inner a in
  match active g !! (external_port alloc, proto alloc) with
  | None => a
  | Some removed =>
      let g := set_active (delete (external_port alloc, proto alloc) (active g)) g in
      let g := arm_release (external_port alloc) (internal_ip alloc) (now + cooldown (cfg a)) g in
      report_released [removed] (with_inner g (fetch_add Releases 1 (counters a)) a)
  end.

Definition release_by_client_at (client_ip internal_port' : Z) (pr : Proto) (now : Z)
  (a : Allocator) : Allocator * option Allocation :=
  let g := inner a in
  match same_tuple g (mkRequest client_ip pr internal_port' 0 0 now) with
  | [] => (a, None)
  | key :: _ =>
      match active g !! key with
      | None => (a, None)
      | Some alloc =>
          let g := set_active (delete key (active g)) g in
          let g := arm_release (fst key) (internal_ip alloc) (now + cooldown (cfg a)) g in
          (report_released [alloc] (with_inner g (fetch_add Releases 1 (counters a)) a),
           Some alloc)
      end
  end.

Definition restore_one (now : Z) (acc : Inner * list Allocation) (entry : Allocation)
  : Inner * list Allocation :=
  let '(g, kept) := acc in
  let port := external_port entry in
  if (expires_at entry <=? now)
     || bool_decide (is_Some (active g !! (port, proto entry)))
     || match port_owner g port with Some o => negb (o =? internal_ip entry) | None => false end
  then (g, kept)
  else
    let g := set_last_user (<[port := (internal_ip entry, now)]> (last_user_per_port g)) g in
    let g := set_held_since (<[port := default now (held_since g !! port)]> (held_since g)) g in
    (insert_active entry g, kept ++ [entry]).

Definition restore_at (entries : list Allocation) (now : Z) (a : Allocator)
  : Allocator * list Allocation :=
  let '(g, kept) := fold_left (restore_one now) entries (inner a, []) in
  (with_inner g (counters a) a, kept).

Definition snapshot_active (a : Allocator) : list Allocation :=
  snd <$> map_to_list (active (inner a)).

Definition names_address (a : Allocator) (client_ip : Z) : bool :=
  existsb (fun alloc => internal_ip alloc =? client_ip) (snapshot_active a).

Definition take_slot (cooldown_until' : Z) (key : Z * Proto) (acc : Inner * list Allocation)
  : Inner * list Allocation :=
  let '(g, removed) := acc in
  match active g !! key with
  | None => acc
  | Some alloc =>
      (arm_release (fst key) (internal_ip alloc) cooldown_until'
         (set_active (delete key (active g)) g),
       removed ++ [alloc])
  end.

Definition take_slots (cooldown_until' : Z) (keys : list (Z * Proto)) (g : Inner)
  : Inner * list Allocation :=
  fold_left (fun acc key => take_slot cooldown_until' key acc) keys (g, []).

Definition take_port (g : Inner) (port cooldown_until' : Z) : Inner * list Allocation :=
  take_slots cooldown_until' [(port, Tcp); (port, Udp)] g.

(** The tally of an out-of-band removal. *)
Definition count_evictions (removed : list Allocation) (k : AllocatorCounters)
  : AllocatorCounters :=
  match removed with
  | [] => k
  | _ => fetch_add Evictions (Z.of_nat (length removed))
           (fetch_add Releases (Z.of_nat (length removed)) k)
  end.

Definition take_active_for_port_at (port now : Z) (a : Allocator)
  : Allocator * list Allocation :=
  let '(g, removed) := take_port (inner a) port (now + cooldown (cfg a)) in
  (with_inner g (count_evictions removed (counters a)) a, removed).

Definition take_active_for_ip_at (client_ip now : Z) (a : Allocator)
  : Allocator * list Allocation :=
  let keys := fst <$> filter (fun kv : Z * Proto * Allocation => internal_ip (snd kv) = client_ip)
                        (map_to_list (active (inner a))) in
  let '(g, removed) := take_slots (now + cooldown (cfg a)) keys (inner a) in
  (with_inner g (count_evictions removed (counters a)) a, removed).

Definition take_active_for_slot (port : Z) (pr : Proto) (a : Allocator)
  : Allocator * option Allocation :=
  (with_inner (set_active (delete (port, pr) (active (inner a))) (inner a)) (counters a) a,
   active (inner a) !! (port, pr)).

Definition MAX_ABUSE_QUARANTINE : Z := from_secs (365 * 24 * 3600).

Definition revoke_for_abuse_at (port quarantine now : Z) (a : Allocator)
  : Allocator * list RevokedAllocation :=
  let until := now + Z.min quarantine MAX_ABUSE_QUARANTINE in
  let g := inner a in
  let slot := default until (abuse_quarantine_until g !! port) in
  let g := set_quarantine
             (<[port := if slot <? until then until else slot]> (abuse_quarantine_until g)) g in
  let '(g, removed) := take_port g port (now + cooldown (cfg a)) in
  let since := default now (held_since g !! port) in
  let g := set_held_since (delete port (held_since g)) g in
  let k := match removed with
           | [] => counters a
           | _ => fetch_add AbuseRevocations 1 (count_evictions removed (counters a))
           end in
  (with_inner g k a, (fun al => mkRevoked al since) <$> removed).

Definition rate_limit_status_at (client_ip now : Z) (a : Allocator) : Allocator * RateLimitInfo :=
  let window := rate_limit_window (cfg a) in
  let max := rate_limit_max (cfg a) in
  let status used oldest :=
    let left := Z.max 0 (max - used) in
    mkRateLimitInfo (if left <=? u8_max then left else u8_max)
      (match oldest with
       | None => 0
       | Some t => window_reset_secs window (duration_since now t)
       end) in
  match rate_limit_log (inner a) !! client_ip with
  | None => (a, status 0 None)
  | Some log =>
      let log := trim_log now window log in
      (with_inner (set_rate_log (<[client_ip := log]> (rate_limit_log (inner a))) (inner a))
         (counters a) a,
       status (Z.of_nat (length log)) (head log))
  end.

End NatPmpAllocator.
