(* ===== verification/NatPmpTable.v ===== *)
(** The port table of the NAT-PMP allocator: its invariant and the effect of
    each piece of [NatPmpAllocator] on it.

    [Inv] is what every critical section may rely on and must restore.  The
    lemmas describe each piece by what it does to [active]; the pieces that only
    touch the rate-limit log are [log_only]. *)

From S2P Require Import Prelude NatPmpAllocator.
Import NatPmpAllocator.

Implicit Types (g : Inner) (al : Allocation) (p now : Z) (pr : Proto).

(** ** The table invariant *)

Record Inv (g : Inner) : Prop := mkInv {
  (** a mapping sits in the slot it names *)
  inv_key : forall p pr al, active g !! (p, pr) = Some al ->
    external_port al = p /\ proto al = pr;
  (** both legs of a port belong to one client *)
  inv_owner : forall p al bl, active g !! (p, Tcp) = Some al -> active g !! (p, Udp) = Some bl ->
    internal_ip al = internal_ip bl;
  (** [next_expiry] is a lower bound of every lease end *)
  inv_expiry : forall key al, active g !! key = Some al ->
    exists t, next_expiry g = Some t /\ t <= expires_at al;
  (** every held port has a recorded start of holding *)
  inv_held : forall p pr al, active g !! (p, pr) = Some al -> is_Some (held_since g !! p);
}.

Lemma inv_empty : Inv empty_inner.
Proof. split; simpl; intros *; by rewrite lookup_empty. Qed.

(** A table with fewer mappings, the same expiry bound and holdings at least for
    the ports it keeps. *)
Lemma inv_shrink g g' :
  Inv g ->
  (forall key al, active g' !! key = Some al -> active g !! key = Some al) ->
  next_expiry g' = next_expiry g ->
  (forall p pr al, active g' !! (p, pr) = Some al ->
     is_Some (held_since g !! p) -> is_Some (held_since g' !! p)) ->
  Inv g'.
Proof.
  intros [Hk Ho He Hh] Hsub Hn Hs. split.
  - eauto.
  - eauto.
  - intros key al H. rewrite Hn. eauto.
  - intros p pr al H. eauto.
Qed.

Lemma port_owner_leg g p pr al :
  Inv g -> active g !! (p, pr) = Some al -> port_owner g p = Some (internal_ip al).
Proof.
  intros HI H. unfold port_owner.
  destruct (active g !! (p, Tcp)) as [tl|] eqn:Et; simpl.
  - destruct pr; [congruence|]. f_equal. by eapply inv_owner.
  - destruct pr; [congruence|]. by rewrite H.
Qed.

Lemma port_owner_Some g p ip :
  port_owner g p = Some ip -> exists pr al, active g !! (p, pr) = Some al /\ internal_ip al = ip.
Proof.
  unfold port_owner. destruct (active g !! (p, Tcp)) as [tl|] eqn:Et; simpl.
  - intros [= <-]. eauto.
  - destruct (active g !! (p, Udp)) as [ul|] eqn:Eu; simpl; [|done]. intros [= <-]. eauto.
Qed.

Lemma port_owner_None g p : port_owner g p = None -> forall pr, active g !! (p, pr) = None.
Proof.
  unfold port_owner. destruct (active g !! (p, Tcp)) eqn:Et; [done|].
  destruct (active g !! (p, Udp)) eqn:Eu; [done|]. by intros _ [].
Qed.

(** [port_owner] reads [active] only. *)
Lemma port_owner_ext g g' p : active g' = active g -> port_owner g' p = port_owner g p.
Proof. unfold port_owner. by intros ->. Qed.

Lemma port_eligible_free g p c now r :
  port_eligible g p c now r = true ->
  (forall pr, active g !! (p, pr) = None) /\ quarantined g p now = false.
Proof.
  unfold port_eligible.
  destruct (bool_decide (is_Some (active g !! (p, Tcp)))) eqn:Et; [done|].
  destruct (bool_decide (is_Some (active g !! (p, Udp)))) eqn:Eu; [done|].
  apply bool_decide_eq_false in Et, Eu. simpl.
  destruct (quarantined g p now); [done|]. intros _. split; [|done].
  intros []; by apply eq_None_not_Some.
Qed.

(** ** The expiry sweep *)

Lemma fold_min_acc l t : exists u, fold_left min_with l (Some t) = Some u /\ u <= t.
Proof.
  revert t; induction l as [|x l IH]; intros t; simpl; [eauto with lia|].
  destruct (IH (Z.min t x)) as (u & Hu & Hle). exists u. split; [done|lia].
Qed.

Lemma fold_min_lower l acc x :
  x ∈ l -> exists u, fold_left min_with l acc = Some u /\ u <= x.
Proof.
  revert acc; induction l as [|y l IH]; intros acc; [by intros ?%elem_of_nil|].
  intros [->|Hin]%elem_of_cons; simpl; [|by apply IH].
  destruct acc as [t|]; cbn [min_with].
  - destruct (fold_min_acc l (Z.min t y)) as (u & Hu & Hle). exists u. split; [done|lia].
  - apply fold_min_acc.
Qed.

Lemma min_expiry_lower m key al :
  m !! key = Some al -> exists t, min_expiry m = Some t /\ t <= expires_at al.
Proof.
  intros H. apply fold_min_lower. apply elem_of_map_to_list in H.
  by apply (list_elem_of_fmap_2 (fun kv : Z * Proto * Allocation => expires_at (snd kv)) _ (key, al)).
Qed.

(** What [arm_expired] leaves alone. *)
Lemma arm_expired_frame now cd l g :
  let g' := fold_left (arm_expired now cd) l g in
  active g' = active g /\ next_expiry g' = next_expiry g /\ held_since g' = held_since g /\
  abuse_quarantine_until g' = abuse_quarantine_until g /\ rate_limit_log g' = rate_limit_log g.
Proof.
  revert g; induction l as [|kv l IH]; intros g; simpl; [done|].
  destruct (IH (arm_expired now cd g kv)) as (-> & -> & -> & -> & ->).
  unfold arm_expired. by destruct (_ <? _).
Qed.

(** A running cooldown stays running. *)
Lemma arm_expired_cooldown now cd l g p d :
  cooldown_until g !! p = Some d -> now < d ->
  exists d', cooldown_until (fold_left (arm_expired now cd) l g) !! p = Some d' /\ now < d'.
Proof.
  revert g d; induction l as [|kv l IH]; intros g d Hd Hlt; simpl; [eauto|].
  unfold arm_expired at 2. destruct (Z.ltb_spec now (expires_at (snd kv) + cd)) as [Hn|_];
    [|by apply (IH _ d)].
  destruct (decide (fst (fst kv) = p)) as [<-|Hne].
  - eapply IH; simpl; [by rewrite lookup_insert_eq|]. rewrite Hd. simpl. case_match; lia.
  - eapply IH; simpl; [by rewrite lookup_insert_ne|done].
Qed.

(** Only the ports of expired leases get a new last user. *)
Lemma arm_expired_last_user now cd l g p :
  (forall kv, kv ∈ l -> fst (fst kv) <> p) ->
  last_user_per_port (fold_left (arm_expired now cd) l g) !! p = last_user_per_port g !! p.
Proof.
  revert g; induction l as [|kv l IH]; intros g Hl; simpl; [done|].
  rewrite IH by (intros kv' ?; apply Hl; by right).
  unfold arm_expired. destruct (_ <? _); [|done]. simpl.
  apply lookup_insert_ne. apply Hl. by left.
Qed.

Lemma live_entries_lookup now m key al :
  live_entries now m !! key = Some al <-> m !! key = Some al /\ now < expires_at al.
Proof. unfold live_entries. by rewrite map_lookup_filter_Some. Qed.

Lemma expired_entries_elem now g key al :
  (key, al) ∈ expired_entries now g <-> active g !! key = Some al /\ expires_at al <= now.
Proof.
  unfold expired_entries. rewrite list_elem_of_filter, elem_of_map_to_list. simpl. tauto.
Qed.

Lemma sweep_shortcut now g :
  Inv g -> (match next_expiry g with None => true | Some t => now <? t end) = true ->
  live_entries now (active g) = active g /\ expired_entries now g = [].
Proof.
  intros HI Hn.
  assert (Hall : forall key al, active g !! key = Some al -> now < expires_at al).
  { intros key al H. destruct (inv_expiry g HI key al H) as (t & Ht & Hle).
    rewrite Ht in Hn. apply Z.ltb_lt in Hn. lia. }
  split.
  - apply map_filter_id. intros key al H. simpl. eauto.
  - apply elem_of_nil_inv. intros [key al] [H Hle]%expired_entries_elem.
    specialize (Hall _ _ H). lia.
Qed.

(** The sweep keeps exactly the leases still running and hands back exactly the
    others; the early exit on [next_expiry] changes nothing. *)
Lemma sweep_spec now cd g evicted g' evicted' :
  Inv g -> sweep_expired now cd g evicted = (g', evicted') ->
  active g' = live_entries now (active g) /\
  evicted' = evicted ++ (snd <$> expired_entries now g) /\
  held_since g' = held_since g /\
  abuse_quarantine_until g' = abuse_quarantine_until g /\
  rate_limit_log g' = rate_limit_log g /\
  Inv g'.
Proof.
  intros HI. unfold sweep_expired.
  destruct (match next_expiry g with None => true | Some t => now <? t end) eqn:En.
  - intros [= <- <-]. destruct (sweep_shortcut now g HI En) as [-> ->].
    by rewrite app_nil_r.
  - intros [= <- <-].
    destruct (arm_expired_frame now cd (expired_entries now g)
      (set_next_expiry (min_expiry (live_entries now (active g)))
         (set_active (live_entries now (active g)) g))) as (Ha & Hn & Hh & Hq & Hr).
    repeat (split; [done|]). split; rewrite ?Ha, ?Hn, ?Hh; simpl.
    + intros p pr al [H _]%live_entries_lookup. by apply (inv_key g HI).
    + intros p al bl [H _]%live_entries_lookup [H' _]%live_entries_lookup.
      by apply (inv_owner g HI p).
    + intros key al H. by apply (min_expiry_lower _ key).
    + intros p pr al [H _]%live_entries_lookup. by apply (inv_held g HI p pr al).
Qed.

(** What a later reader may still rely on in the cooldown and last-user maps. *)
Definition cooldowns_kept (now : Z) (g g' : Inner) : Prop :=
  (forall p d, cooldown_until g !! p = Some d -> now < d ->
     exists d', cooldown_until g' !! p = Some d' /\ now < d') /\
  (forall p, (forall pr, active g !! (p, pr) = None) -> forall u,
     last_user_per_port g' !! p = Some u -> last_user_per_port g !! p = Some u).

Lemma cooldowns_kept_refl now g : cooldowns_kept now g g.
Proof. split; eauto. Qed.

Lemma cooldowns_kept_trans now g1 g2 g3 :
  (forall key, active g1 !! key = None -> active g2 !! key = None) ->
  cooldowns_kept now g1 g2 -> cooldowns_kept now g2 g3 -> cooldowns_kept now g1 g3.
Proof.
  intros Ha [H1 H2] [H3 H4]. split.
  - intros p d Hd Hlt. destruct (H1 p d Hd Hlt) as (d' & Hd' & Hlt'). eauto.
  - intros p Hp u Hu. apply H2; [done|]. apply H4; [|done]. auto.
Qed.

Lemma sweep_cooldowns now cd g evicted g' evicted' :
  sweep_expired now cd g evicted = (g', evicted') -> cooldowns_kept now g g'.
Proof.
  unfold sweep_expired. destruct (match next_expiry g with None => true | Some t => now <? t end).
  { intros [= <- <-]. apply cooldowns_kept_refl. }
  intros [= <- <-]. split.
  - intros p d Hd Hlt. by apply (arm_expired_cooldown now cd _ _ p d).
  - intros p Hp u. rewrite arm_expired_last_user; [done|].
    intros [[q pr] al] [H _]%expired_entries_elem. simpl. intros ->. by rewrite Hp in H.
Qed.

(** ** Pieces that only touch the rate-limit log *)

Definition log_only (g g' : Inner) : Prop := g' = set_rate_log (rate_limit_log g') g.

Lemma log_only_refl g : log_only g g.
Proof. by destruct g. Qed.

Lemma log_only_trans g1 g2 g3 : log_only g1 g2 -> log_only g2 g3 -> log_only g1 g3.
Proof. unfold log_only. intros -> ->. done. Qed.

Lemma log_only_active g g' : log_only g g' -> active g' = active g.
Proof. by intros ->. Qed.

Lemma log_only_cooldowns now g g' : log_only g g' -> cooldowns_kept now g g'.
Proof. intros ->. split; eauto. Qed.

Lemma log_only_inv g g' : log_only g g' -> Inv g -> Inv g'.
Proof. intros -> [Hk Ho He Hh]. by split. Qed.

Lemma trim_client_log_only c now w g : log_only g (trim_client_log c now w g).
Proof. done. Qed.

Lemma push_client_log_only c now g : log_only g (push_client_log c now g).
Proof. done. Qed.

#[export] Hint Resolve log_only_refl trim_client_log_only push_client_log_only : warren.

Lemma check_departed_peer_log a g rq ans s g' r :
  check_departed_peer a g rq ans s = (g', r) -> log_only g g'.
Proof.
  unfold check_departed_peer, within_rate_budget.
  repeat case_match; intros [= <- <-]; auto with warren.
Qed.

Lemma refuse_suggestion_log a g k rq s g' k' e :
  refuse_suggestion a g k rq s = (g', k', e) -> log_only g g'.
Proof.
  unfold refuse_suggestion. by case_match; intros [= <- <- <-].
Qed.

Lemma check_suggested_log a g k rq ans s g' k' c :
  check_suggested a g k rq ans s = (g', k', c) -> log_only g g'.
Proof.
  unfold check_suggested. destruct (s =? 0); [intros [= <- <- <-]; auto with warren|].
  destruct (cheap_grantable a g rq ans s) as [[]|q]; [intros [= <- <- <-]; auto with warren| |
    intros [= <- <- <-]; auto with warren].
  destruct (check_departed_peer a g rq ans s) as [g1 peer] eqn:Ep.
  apply check_departed_peer_log in Ep.
  destruct peer as [[]|q]; try by intros [= <- <- <-].
  destruct (refuse_suggestion a g1 k rq s) as [[g2 k2] e] eqn:Er.
  apply refuse_suggestion_log in Er. intros [= <- <- <-]. by eapply log_only_trans.
Qed.

Lemma check_rate_log a g k rq b g' k' r :
  check_rate a g k rq b = (g', k', r) -> log_only g g'.
Proof. unfold check_rate. repeat case_match; intros [= <- <- <-]; auto with warren. Qed.

(** ** What the strict suggested-port check guarantees *)

(** A granted suggestion is in range, and is nobody else's: free, or this
    client's own, or (when the verdict is a reclaim) held by an address of the
    same tenant that the deployer called departed. *)
Lemma check_suggested_go a g k rq ans s g' k' reclaim :
  check_suggested a g k rq ans s = (g', k', Go reclaim) -> s <> 0 ->
  port_in_range s (range (cfg a)) = true /\
  if reclaim
  then exists holder tn,
         port_owner g s = Some holder /\ holder <> rq_client_ip rq /\
         holder_live ans = Some (holder, false) /\ tenant ans = Some tn /\ holder ∈ tn
  else (port_owner g s = Some (rq_client_ip rq) \/
        port_owner g s = None /\
        exists r, (r = None \/ r = tenant ans) /\
                  port_eligible g s (rq_client_ip rq) (rq_now rq) r = true) /\
       (forall e, active g !! (s, rq_proto rq) = Some e ->
          internal_ip e = rq_client_ip rq /\ internal_port e = rq_internal_port rq).
Proof.
  unfold check_suggested. intros H Hs. apply Z.eqb_neq in Hs. rewrite Hs in H.
  destruct (cheap_grantable a g rq ans s) as [[]|q] eqn:Ec; [| |done].
  - injection H as <- <- <-. unfold cheap_grantable in Ec.
    destruct (port_in_range s (range (cfg a))); [|done]. split; [done|]. simpl in Ec.
    destruct (port_owner g s) as [o|] eqn:Eo.
    + destruct (Z.eqb_spec o (rq_client_ip rq)) as [->|]; [|done]. split; [by left|].
      intros e He. rewrite He in Ec. injection Ec as Ec.
      apply andb_true_iff in Ec as [E1 E2]. by apply Z.eqb_eq in E1, E2.
    + pose proof (port_owner_None g s Eo) as Hf. rewrite Hf in Ec.
      split; [|intros e He; by rewrite Hf in He]. right. split; [done|].
      destruct (match last_user_per_port g !! s with Some _ => _ | None => false end).
      * destruct (tenant ans) as [tn|]; [|done]. injection Ec as Ec. eauto.
      * injection Ec as Ec. eauto.
  - destruct (check_departed_peer a g rq ans s) as [g1 peer] eqn:Ep.
    destruct peer as [[]|q]; [| |done].
    2:{ destruct (refuse_suggestion a g1 k rq s) as [[? ?] ?]. done. }
    injection H as <- <- <-. unfold check_departed_peer in Ep.
    destruct (port_in_range s (range (cfg a))); [|done]. split; [done|].
    destruct (port_owner g s) as [holder|]; [|done].
    destruct (live_sessions a); [|done].
    destruct (Z.eqb_spec holder (rq_client_ip rq)); [done|].
    destruct (within_rate_budget _ _ _ _ _) as [g2 within]. destruct within; [|done].
    destruct (holder_live ans) as [[asked live]|]; [|done].
    destruct (Z.eqb_spec asked holder) as [->|]; [|done].
    destruct live; [done|]. simpl in Ep.
    destruct (tenant ans) as [tn|]; [|done]. injection Ep as <- Ep.
    apply bool_decide_eq_true in Ep. eauto 10.
Qed.

(** ** Removing slots *)

(** [m] without the slots [slots]. *)
Definition without (slots : list (Z * Proto)) (m : gmap (Z * Proto) Allocation)
  : gmap (Z * Proto) Allocation :=
  filter (fun kv : Z * Proto * Allocation => fst kv ∉ slots) m.

Lemma without_lookup slots m key al :
  without slots m !! key = Some al <-> m !! key = Some al /\ key ∉ slots.
Proof. unfold without. by rewrite map_lookup_filter_Some. Qed.

Lemma without_nil m : without [] m = m.
Proof. apply map_filter_id. intros. apply not_elem_of_nil. Qed.

Lemma without_cons key slots m : without (key :: slots) m = without slots (delete key m).
Proof.
  apply map_eq. intros k. apply option_eq. intros al.
  rewrite !without_lookup, lookup_delete_Some, not_elem_of_cons. naive_solver.
Qed.

Lemma without_app s1 s2 m : without (s1 ++ s2) m = without s2 (without s1 m).
Proof.
  apply map_eq. intros k. apply option_eq. intros al.
  rewrite !without_lookup, not_elem_of_app. tauto.
Qed.

(** The mappings of [g] in [slots] were appended to the eviction list. *)
Definition evicts (g : Inner) (slots : list (Z * Proto)) (ev ev' : list Allocation) : Prop :=
  exists removed, ev' = ev ++ removed /\
    forall al, al ∈ removed <-> exists key, key ∈ slots /\ active g !! key = Some al.

Lemma remove_slots_spec slots g ev g' ev' :
  remove_slots slots g ev = (g', ev') ->
  g' = set_active (without slots (active g)) g /\ evicts g slots ev ev'.
Proof.
  revert g ev; induction slots as [|key slots IH]; intros g ev; simpl.
  - intros [= <- <-]. rewrite without_nil. split; [by destruct g|].
    exists []. rewrite app_nil_r. split; [done|]. intros al. split; [by intros ?%elem_of_nil|].
    by intros (? & ?%elem_of_nil & _).
  - destruct (active g !! key) as [al0|] eqn:E.
    + intros H. apply IH in H as [-> (removed & -> & Hrem)]. rewrite without_cons.
      split; [done|]. exists (al0 :: removed). split; [by rewrite <- app_assoc|].
      intros al. rewrite elem_of_cons, Hrem. simpl. split.
      * intros [->|(k & Hk & Hl)]; [exists key; split; [by left|done]|].
        exists k. apply lookup_delete_Some in Hl as [? ?]. split; [by right|done].
      * intros (k & [->|Hk]%elem_of_cons & Hl); [left; congruence|].
        destruct (decide (key = k)) as [->|Hne]; [left; congruence|].
        right. exists k. split; [done|]. by rewrite lookup_delete_ne.
    + intros H. apply IH in H as [-> (removed & -> & Hrem)].
      rewrite without_cons, delete_id by done. split; [done|].
      exists removed. split; [done|]. intros al. rewrite Hrem. split.
      * intros (k & Hk & Hl). exists k. split; [by right|done].
      * intros (k & [->|Hk]%elem_of_cons & Hl); [congruence|eauto].
Qed.

Lemma inv_set_active_sub m g :
  Inv g -> (forall key al, m !! key = Some al -> active g !! key = Some al) ->
  Inv (set_active m g).
Proof. intros HI Hsub. by apply (inv_shrink g). Qed.

Lemma inv_without slots g : Inv g -> Inv (set_active (without slots (active g)) g).
Proof. intros HI. apply inv_set_active_sub; [done|]. by intros key al [? _]%without_lookup. Qed.

(** ** Choosing a port *)

(** The documented behaviour of [random_range(0..n)]. *)
Definition draw_ok (draw : nat -> Z -> Z) : Prop :=
  forall i n, 0 < n -> 0 <= draw i n < n.

Lemma find_some {A} (f : A -> bool) l x : List.find f l = Some x -> x ∈ l /\ f x = true.
Proof. intros H. apply List.find_some in H as [H1 H2]. split; [by apply list_elem_of_In|done]. Qed.

Lemma pick_port_spec g rg pr reuse c now draw p :
  pick_port g rg pr reuse c now draw = Some p ->
  (p = reuse /\ reuse <> 0 /\ port_in_range p rg = true /\ active g !! (p, pr) = None /\
   port_owner g p = Some c) \/
  port_eligible g p c now None = true.
Proof.
  unfold pick_port. destruct (_ && _) eqn:E.
  - intros [= <-]. apply andb_true_iff in E as [E E4]. apply andb_true_iff in E as [E E3].
    apply andb_true_iff in E as [E1 E2]. apply orb_true_iff in E4 as [E4|E4]; [left|by right].
    apply bool_decide_eq_true in E4. apply negb_true_iff in E1, E3.
    apply Z.eqb_neq in E1. apply bool_decide_eq_false in E3.
    repeat split; try done. by apply eq_None_not_Some.
  - destruct (List.find _ (_ <$> _)) as [q|] eqn:Ef.
    + intros [= <-]. apply find_some in Ef as [_ Ef]. by right.
    + intros Hf. apply find_some in Hf as [_ Hf]. by right.
Qed.

Lemma port_in_range_iff p rg : port_in_range p rg = true <-> fst rg <= p <= snd rg.
Proof. unfold port_in_range. rewrite andb_true_iff, !Z.leb_le. lia. Qed.

Lemma pick_port_in_range g rg pr reuse c now draw p :
  draw_ok draw -> fst rg <= snd rg ->
  pick_port g rg pr reuse c now draw = Some p -> port_in_range p rg = true.
Proof.
  intros Hd Hr. unfold pick_port. destruct (_ && _) eqn:E.
  - intros [= <-]. apply andb_true_iff in E as [E _]. apply andb_true_iff in E as [E _].
    by apply andb_true_iff in E as [_ ?].
  - rewrite port_in_range_iff. destruct (List.find _ (_ <$> _)) as [q|] eqn:Ef.
    + intros [= <-]. apply find_some in Ef as [Hin _].
      apply list_elem_of_fmap in Hin as (i & -> & _).
      specialize (Hd i (snd rg - fst rg + 1)). lia.
    + intros Hf. apply find_some in Hf as [Hin _]. apply elem_of_seqZ in Hin. lia.
Qed.

(** The linear fallback makes the search complete. *)
Lemma pick_port_none g rg pr reuse c now draw p :
  pick_port g rg pr reuse c now draw = None ->
  port_in_range p rg = true -> port_eligible g p c now None = false.
Proof.
  unfold pick_port. destruct (_ && _); [done|].
  destruct (List.find _ (_ <$> _)); [done|]. intros Hf Hp.
  apply (List.find_none _ _ Hf). apply list_elem_of_In, elem_of_seqZ.
  apply port_in_range_iff in Hp. lia.
Qed.

(** ** Installing a mapping *)

Lemma install_spec g rq acq reclaim prev port g' al :
  install g rq acq reclaim prev port = (g', al) ->
  al = mkAllocation port (rq_client_ip rq) (rq_internal_port rq) (rq_proto rq)
         (rq_now rq + rq_lifetime rq) /\
  active g' = <[(port, rq_proto rq) := al]> (active g) /\
  next_expiry g' = min_with (next_expiry g) (expires_at al) /\
  abuse_quarantine_until g' = abuse_quarantine_until g /\
  (exists since, held_since g' = <[port := since]> (held_since g)) /\
  rate_limit_log g' =
    rate_limit_log (if acq then push_client_log (rq_client_ip rq) (rq_now rq) g else g).
Proof. unfold install. intros [= <- <-]. destruct acq; simpl; eauto 10. Qed.

Lemma install_inv g rq acq reclaim prev port g' al :
  Inv g -> (port_owner g port = None \/ port_owner g port = Some (rq_client_ip rq)) ->
  install g rq acq reclaim prev port = (g', al) -> Inv g'.
Proof.
  intros HI Hown Hi. apply install_spec in Hi as (Hal & Ha & Hn & _ & (since & Hh) & _).
  assert (Hleg : forall pr bl, active g !! (port, pr) = Some bl -> internal_ip bl = rq_client_ip rq).
  { intros pr bl Hb. pose proof (port_owner_leg g port pr bl HI Hb) as Ho.
    destruct Hown as [Hown|Hown]; congruence. }
  assert (Hip : internal_ip al = rq_client_ip rq) by (by rewrite Hal).
  split; rewrite ?Ha, ?Hn, ?Hh.
  - intros p pr bl [[[= <- <-] <-]|[Hne H]]%lookup_insert_Some; [by rewrite Hal|].
    by apply (inv_key g HI).
  - intros p xl yl [[E1 <-]|[Hne1 H1]]%lookup_insert_Some
      [[E2 <-]|[Hne2 H2]]%lookup_insert_Some.
    + congruence.
    + simplify_eq. rewrite Hip. symmetry. eauto.
    + simplify_eq. rewrite Hip. eauto.
    + by apply (inv_owner g HI p).
  - intros key bl [[<- <-]|[Hne H]]%lookup_insert_Some.
    + unfold min_with. eexists. split; [done|]. destruct (next_expiry g); lia.
    + destruct (inv_expiry g HI key bl H) as (t & Ht & Hle). rewrite Ht. simpl.
      eexists. split; [done|]. lia.
  - intros p pr bl [[[= <- <-] <-]|[Hne H]]%lookup_insert_Some.
    + rewrite lookup_insert_eq. eauto.
    + rewrite lookup_insert. case_decide; [eauto|]. by apply (inv_held g HI p pr bl).
Qed.
