(* ===== verification/NatPmpPass.v ===== *)
(** One pass of the NAT-PMP allocation decision, and the request loop around it.

    [try_allocate_spec] splits a pass into its two outcomes: it leaves the swept
    table alone (it asks the deployer, or refuses the request on the rate limit or
    on an unavailable suggestion), or it reaches [grant].  Every theorem about a
    request is a consequence. *)

From S2P Require Import Prelude NatPmpAllocator NatPmpTable.
Import NatPmpAllocator.

Implicit Types (g : Inner) (al : Allocation) (rq : MapRequest) (ans : DeployerAnswers).

(** ** The shape of a pass *)

Lemma same_tuple_elem g rq key :
  key ∈ same_tuple g rq <->
  exists al, active g !! key = Some al /\ snd key = rq_proto rq /\
             internal_ip al = rq_client_ip rq /\ internal_port al = rq_internal_port rq.
Proof.
  unfold same_tuple. rewrite list_elem_of_fmap. split.
  - intros ([k al] & -> & H). apply list_elem_of_filter in H as [Hp H].
    apply elem_of_map_to_list in H. simpl in *. eauto.
  - intros (al & H & Hp). exists (key, al). split; [done|].
    apply list_elem_of_filter. split; [done|]. by apply elem_of_map_to_list.
Qed.

Lemma same_tuple_ext g g' rq : active g' = active g -> same_tuple g' rq = same_tuple g rq.
Proof. unfold same_tuple. by intros ->. Qed.

(** What is known of a suggestion the strict check let through. *)
Definition suggestion_ok (a : Allocator) g rq ans (s : Z) (reclaim : bool) : Prop :=
  (s = 0 /\ reclaim = false) \/
  (s <> 0 /\ port_in_range s (range (cfg a)) = true /\
   if reclaim
   then exists holder tn,
          port_owner g s = Some holder /\ holder <> rq_client_ip rq /\
          holder_live ans = Some (holder, false) /\ tenant ans = Some tn /\ holder ∈ tn
   else (port_owner g s = Some (rq_client_ip rq) \/
         port_owner g s = None /\
         exists r, (r = None \/ r = tenant ans) /\
                   port_eligible g s (rq_client_ip rq) (rq_now rq) r = true) /\
        (forall e, active g !! (s, rq_proto rq) = Some e ->
           internal_ip e = rq_client_ip rq /\ internal_port e = rq_internal_port rq)).

(** A pass that ends without touching the swept table.  A retry delay fits its [u16]. *)
Definition early (step : Step) : Prop :=
  match step with
  | Done (Err (RateLimited _ secs)) => 0 <= secs <= u16_max
  | Ask _ | Done (Err (SuggestedPortInUse _)) => True
  | _ => False
  end.

Lemma window_reset_secs_bound window elapsed : 0 <= window_reset_secs window elapsed <= u16_max.
Proof.
  unfold window_reset_secs. cbn zeta. case_match; [|done]. apply Z.leb_le in H. split; [|done].
  assert (0 <= Z.max 0 (window - elapsed) / NANOS_PER_SEC) by (apply Z.div_pos; [lia|done]). case_match; lia.
Qed.

Lemma retry_after_bound g c now window : 0 <= retry_after g c now window <= u16_max.
Proof. unfold retry_after. case_match; [done|apply window_reset_secs_bound]. Qed.

Definition acquires (g : Inner) rq (s : Z) : bool :=
  negb (negb (bool_decide (same_tuple g rq = []))) &&
  negb (negb (s =? 0) && bool_decide (port_owner g s = Some (rq_client_ip rq))).

Lemma refuse_suggestion_early a g k rq s g' k' e :
  refuse_suggestion a g k rq s = (g', k', e) -> early (Done (Err e)).
Proof. unfold refuse_suggestion. case_match; intros [= <- <- <-]; [apply retry_after_bound|done]. Qed.

Lemma check_suggested_stop a g k rq ans s g' k' step :
  check_suggested a g k rq ans s = (g', k', Stop step) -> early step.
Proof.
  unfold check_suggested. destruct (s =? 0); [done|].
  destruct (cheap_grantable a g rq ans s) as [[]|q]; [done| |by intros [= <- <- <-]].
  destruct (check_departed_peer a g rq ans s) as [g1 [[]|q]]; [done| |by intros [= <- <- <-]].
  destruct (refuse_suggestion a g1 k rq s) as [[g2 k2] e] eqn:Er.
  intros [= <- <- <-]. by eapply refuse_suggestion_early.
Qed.

Lemma check_rate_early a g k rq b g' k' e :
  check_rate a g k rq b = (g', k', Some e) -> early (Done (Err e)).
Proof. unfold check_rate. repeat case_match; intros [= <- <- <-]; apply retry_after_bound. Qed.

Lemma grant_no_ask a g k rq tn bud s reclaim acq tuple ev draw g' k' ev' q :
  grant a g k rq tn bud s reclaim acq tuple ev draw = (g', k', ev', Ask q) -> False.
Proof. unfold grant. by repeat case_match. Qed.

(** The effect of a pass, or of a whole request, on the table [g] and the
    eviction list [ev] it started from. *)
Definition pass_shape (a : Allocator) (g : Inner) rq ans (ev : list Allocation)
  (draw : nat -> Z -> Z) (g' : Inner) (ev' : list Allocation) (step : Step) : Prop :=
  exists g1,
    active g1 = live_entries (rq_now rq) (active g) /\
    (forall p, quarantined g1 p (rq_now rq) = quarantined g p (rq_now rq)) /\
    Inv g1 /\ cooldowns_kept (rq_now rq) g g1 /\
    let ev1 := ev ++ (snd <$> expired_entries (rq_now rq) g) in
    let s := effective_suggestion g (rq_suggested rq) (rq_now rq) in
    (log_only g1 g' /\ ev' = ev1 /\ early step) \/
    (exists g3 k3 k' tn bud reclaim,
       log_only g1 g3 /\ tenant ans = Some tn /\ budget ans = Some bud /\
       suggestion_ok a g1 rq ans s reclaim /\
       grant a g3 k3 rq tn bud s reclaim (acquires g1 rq s) (same_tuple g1 rq) ev1 draw
         = (g', k', ev', step)).

Lemma try_allocate_spec a g k rq ans ev draw g' k' ev' step :
  Inv g -> try_allocate a g k rq ans ev draw = (g', k', ev', step) ->
  pass_shape a g rq ans ev draw g' ev' step.
Proof.
  intros HI. unfold try_allocate.
  destruct (sweep_expired (rq_now rq) (cooldown (cfg a)) g ev) as [g1 ev1] eqn:Es.
  destruct (sweep_spec _ _ _ _ _ _ HI Es) as (Ha1 & Hev1 & _ & Hq1 & _ & HI1).
  assert (Heff : forall s now, effective_suggestion g1 s now = effective_suggestion g s now)
    by (intros; unfold effective_suggestion, quarantined; by rewrite Hq1).
  rewrite Heff. set (s := effective_suggestion g _ _).
  destruct (check_suggested a g1 k rq ans s) as [[g2 k2] chk] eqn:Ec.
  pose proof (check_suggested_log _ _ _ _ _ _ _ _ _ Ec) as Hl2. intros H.
  exists g1. split; [done|]. split; [intros p; unfold quarantined; by rewrite Hq1|].
  split; [done|]. split; [by eapply sweep_cooldowns|]. simpl. destruct chk as [st|reclaim].
  { injection H as <- <- <- <-. left. split; [done|]. split; [done|].
    by eapply check_suggested_stop. }
  rewrite (same_tuple_ext g1 g2) in H by (by apply log_only_active).
  rewrite (port_owner_ext g1 g2) in H by (by apply log_only_active).
  change (negb (negb (bool_decide (same_tuple g1 rq = []))) &&
          negb (negb (s =? 0) && bool_decide (port_owner g1 s = Some (rq_client_ip rq))))
    with (acquires g1 rq s) in H.
  destruct (check_rate a g2 k2 rq (acquires g1 rq s)) as [[g3 k3] lim] eqn:Er.
  pose proof (check_rate_log _ _ _ _ _ _ _ _ Er) as Hl3.
  pose proof (log_only_trans _ _ _ Hl2 Hl3) as Hl13.
  destruct lim as [e|].
  { injection H as <- <- <- <-. left. split; [done|]. split; [done|].
    by eapply check_rate_early. }
  destruct (tenant ans) as [tn|] eqn:Et.
  2:{ injection H as <- <- <- <-. by left. }
  destruct (budget ans) as [bud|] eqn:Eb.
  2:{ injection H as <- <- <- <-. by left. }
  right. exists g3, k3, k', tn, bud, reclaim. repeat (split; [done|]).
  split; [|by rewrite <- Hev1].
  destruct (Z.eq_dec s 0) as [Hs|Hs].
  - left. split; [done|]. unfold check_suggested in Ec. rewrite Hs in Ec. simpl in Ec. congruence.
  - right. split; [done|]. by eapply check_suggested_go.
Qed.

(** Sweeping a swept table changes nothing. *)
Lemma live_entries_twice now m : live_entries now (live_entries now m) = live_entries now m.
Proof.
  apply map_eq. intros k. apply option_eq. intros al. rewrite !live_entries_lookup. tauto.
Qed.

Lemma live_entries_None now m key : m !! key = None -> live_entries now m !! key = None.
Proof.
  intros H. apply eq_None_not_Some. intros [al [Hl _]%live_entries_lookup]. congruence.
Qed.

Lemma expired_of_live now g g1 :
  active g1 = live_entries now (active g) -> expired_entries now g1 = [].
Proof.
  intros Ha. apply elem_of_nil_inv. intros [key al] [H Hle]%expired_entries_elem.
  rewrite Ha in H. apply live_entries_lookup in H as [_ ?]. lia.
Qed.

(** A pass that asked, followed by a run from where it left: together they have
    the shape of one run from the start. *)
Lemma pass_shape_ask a g rq ans ans2 ev draw g1 ev1 q g2 ev2 step :
  pass_shape a g rq ans ev draw g1 ev1 (Ask q) ->
  pass_shape a g1 rq ans2 ev1 draw g2 ev2 step ->
  pass_shape a g rq ans2 ev draw g2 ev2 step.
Proof.
  intros (h1 & Ha1 & Hq1 & HI1 & Hc1 & H1) (h2 & Ha2 & Hq2 & HI2 & Hc2 & H2).
  destruct H1 as [(Hl1 & -> & _)|(g3 & k3 & k' & tn & bud & rc & Hl & _ & _ & _ & Hg)].
  2:{ apply grant_no_ask in Hg. done. }
  assert (Hag : active g1 = live_entries (rq_now rq) (active g))
    by (rewrite <- Ha1; by apply log_only_active).
  assert (Hqg : forall p, quarantined g1 p (rq_now rq) = quarantined g p (rq_now rq)).
  { intros p. rewrite <- Hq1. rewrite Hl1. done. }
  exists h2. rewrite Ha2, Hag, live_entries_twice.
  split; [done|]. split; [intros p; by rewrite Hq2|]. split; [done|].
  split.
  { eapply cooldowns_kept_trans; [|eapply cooldowns_kept_trans|exact Hc2];
      [| |exact Hc1|by apply log_only_cooldowns];
      intros key Hk; rewrite ?Hag, ?Ha1; by apply live_entries_None. }
  rewrite (expired_of_live _ g g1 Hag) in H2. simpl in H2 |- *. rewrite app_nil_r in H2.
  unfold effective_suggestion in *. by rewrite Hqg in H2.
Qed.

(** The slots a grant empties before it installs the new mapping. *)
Definition dropped (tuple : list (Z * Proto)) (s : Z) (reclaim : bool) : list (Z * Proto) :=
  tuple ++ (if reclaim then [(s, Tcp); (s, Udp)] else []).

Lemma evicts_app g s1 s2 ev ev1 ev2 :
  evicts g s1 ev ev1 -> evicts (set_active (without s1 (active g)) g) s2 ev1 ev2 ->
  evicts g (s1 ++ s2) ev ev2.
Proof.
  intros (r1 & -> & H1) (r2 & -> & H2). exists (r1 ++ r2).
  split; [by rewrite app_assoc|]. intros al. rewrite elem_of_app, H1, H2. simpl.
  setoid_rewrite without_lookup. setoid_rewrite elem_of_app. split.
  - naive_solver.
  - intros (key & [Hk|Hk] & Hl); [eauto|].
    destruct (decide (key ∈ s1)); [left|right]; eauto.
Qed.

(** The outcome of [grant]: a refusal that only dropped slots, or the
    installation of the chosen port on the table without the dropped slots. *)
Lemma grant_spec a g k rq tn bud s reclaim acq tuple ev draw g' k' ev' step :
  grant a g k rq tn bud s reclaim acq tuple ev draw = (g', k', ev', step) ->
  (step = Done (Err (QuotaExceeded (rq_client_ip rq))) /\
   over_quota (set_active (without tuple (active g)) g) tn bud s (previously_held g tuple) = true /\
   g' = set_active (without tuple (active g)) g /\ evicts g tuple ev ev') \/
  (exists g2, g2 = set_active (without (dropped tuple s reclaim) (active g)) g /\
   evicts g (dropped tuple s reclaim) ev ev' /\
   over_quota (set_active (without tuple (active g)) g) tn bud s (previously_held g tuple) = false /\
   let choice := if s =? 0
                 then pick_port g2 (range (cfg a)) (rq_proto rq)
                        (default 0 (previously_held g tuple)) (rq_client_ip rq) (rq_now rq) draw
                 else Some s in
   (step = Done (Err Exhausted) /\ choice = None /\ g' = g2) \/
   (exists port al, step = Done (Ok al) /\ choice = Some port /\
      install g2 rq acq reclaim (previously_held g tuple) port = (g', al))).
Proof.
  unfold grant. destruct (remove_slots tuple g ev) as [g1 ev1] eqn:E1.
  apply remove_slots_spec in E1 as [-> He1].
  destruct (over_quota _ tn bud s _) eqn:Eq.
  { intros [= <- <- <- <-]. by left. }
  intros H. right. eexists. split; [reflexivity|].
  destruct (if reclaim then remove_slots [(s, Tcp); (s, Udp)] _ ev1 else _) as [g2 ev2] eqn:E2.
  assert (g2 = set_active (without (dropped tuple s reclaim) (active g)) g /\
          evicts g (dropped tuple s reclaim) ev ev2) as [-> He2].
  { unfold dropped. destruct reclaim.
    - apply remove_slots_spec in E2 as [-> He2]. rewrite without_app. split; [done|].
      by eapply evicts_app.
    - injection E2 as <- <-. by rewrite app_nil_r. }
  destruct (if s =? 0 then pick_port _ _ _ _ _ _ _ else Some s) as [port|] eqn:Ep.
  - destruct (install _ rq acq reclaim _ port) as [g3 al] eqn:Ei.
    injection H as <- <- <- <-. repeat (split; [done|]). right. eauto.
  - injection H as <- <- <- <-. repeat (split; [done|]). by left.
Qed.

Lemma port_owner_sub g g' p ip :
  Inv g -> (forall key al, active g' !! key = Some al -> active g !! key = Some al) ->
  port_owner g' p = Some ip -> port_owner g p = Some ip.
Proof.
  intros HI Hsub H. apply port_owner_Some in H as (pr & al & H & <-).
  apply (port_owner_leg g p pr); [done|]. by apply Hsub.
Qed.

(** The port a grant installs is free, or this client's own. *)
Lemma grant_port_ownable a g1 g rq ans s reclaim tuple draw port :
  Inv g1 -> log_only g1 g -> suggestion_ok a g1 rq ans s reclaim ->
  let g2 := set_active (without (dropped tuple s reclaim) (active g)) g in
  (if s =? 0
   then pick_port g2 (range (cfg a)) (rq_proto rq)
          (default 0 (previously_held g tuple)) (rq_client_ip rq) (rq_now rq) draw
   else Some s) = Some port ->
  port_owner g2 port = None \/ port_owner g2 port = Some (rq_client_ip rq).
Proof.
  intros HI Hl Hs g2 Hc.
  assert (Hsub : forall key al, active g2 !! key = Some al -> active g1 !! key = Some al).
  { intros key al [H _]%without_lookup. by rewrite <- (log_only_active _ _ Hl). }
  destruct (Z.eqb_spec s 0) as [->|Hs0].
  - apply pick_port_spec in Hc as [(_ & _ & _ & _ & ?)|He]; [by right|left].
    apply port_eligible_free in He as [Hf _]. unfold port_owner. by rewrite !Hf.
  - injection Hc as <-. destruct (port_owner g2 s) as [ip|] eqn:Eo; [right|by left].
    pose proof (port_owner_sub g1 g2 s ip HI Hsub Eo) as Ho.
    destruct Hs as [[? _]|(_ & _ & Hs)]; [done|]. destruct reclaim.
    + apply port_owner_Some in Eo as (pr & al & H & _). apply without_lookup in H as [_ H].
      exfalso. apply H. unfold dropped. apply elem_of_app. right.
      destruct pr; [by left|right; by left].
    + destruct Hs as [[Hn|[Hn _]] _]; congruence.
Qed.

(** ** The invariant *)

Lemma pass_shape_inv a g rq ans ev draw g' ev' step :
  pass_shape a g rq ans ev draw g' ev' step -> Inv g'.
Proof.
  intros (g1 & _ & _ & HI1 & _ & [(Hl & _)|(g3 & k3 & kk & tn & bud & reclaim & Hl & _ & _ & Hs & Hg)]).
  { by eapply log_only_inv. }
  assert (HI3 : Inv g3) by (by eapply log_only_inv).
  apply grant_spec in Hg as [(_ & _ & -> & _)|(g2 & -> & _ & _ & [(_ & _ & ->)|(port & al & _ & Hc & Hi)])];
    try by apply inv_without.
  eapply install_inv; [| |exact Hi]; [by apply inv_without|].
  exact (grant_port_ownable _ _ _ _ _ _ _ _ _ _ HI1 Hl Hs Hc).
Qed.

Lemma try_allocate_inv a g k rq ans ev draw g' k' ev' step :
  Inv g -> try_allocate a g k rq ans ev draw = (g', k', ev', step) -> Inv g'.
Proof. intros HI H. by eapply pass_shape_inv, try_allocate_spec. Qed.
