(* ===== verification/NatPmpRequest.v ===== *)
(** A whole NAT-PMP allocation request: the loop around the passes, its
    termination whatever other threads do in between, and what the request
    guarantees to its client and to everybody else. *)

From S2P Require Import Prelude NatPmpAllocator NatPmpTable NatPmpPass.
Import NatPmpAllocator.

Implicit Types (g : Inner) (al : Allocation) (rq : MapRequest) (ans : DeployerAnswers).

(** ** Questions *)

Definition unknowns (ans : DeployerAnswers) : nat :=
  (match tenant ans with None => 1 | Some _ => 0 end +
   match budget ans with None => 1 | Some _ => 0 end +
   match holder_live ans with None => 1 | Some _ => 0 end)%nat.

Lemma cheap_grantable_asks a g rq ans s q :
  cheap_grantable a g rq ans s = inr q -> q = QTenant /\ tenant ans = None.
Proof. unfold cheap_grantable. repeat case_match; naive_solver. Qed.

Lemma check_departed_peer_asks a g rq ans s g' q :
  check_departed_peer a g rq ans s = (g', inr q) ->
  (q = QTenant /\ tenant ans = None) \/ (exists h, q = QHolderLive h /\ holder_live ans = None).
Proof. unfold check_departed_peer, within_rate_budget. repeat case_match; naive_solver. Qed.

Lemma check_suggested_asks a g k rq ans s g' k' q :
  check_suggested a g k rq ans s = (g', k', Stop (Ask q)) ->
  (q = QTenant /\ tenant ans = None) \/ (exists h, q = QHolderLive h /\ holder_live ans = None).
Proof.
  unfold check_suggested. destruct (s =? 0); [done|].
  destruct (cheap_grantable a g rq ans s) as [[]|q'] eqn:Ec; [done| |].
  - destruct (check_departed_peer a g rq ans s) as [g1 [[]|q']] eqn:Ep; [done| |].
    + by destruct (refuse_suggestion a g1 k rq s) as [[? ?] ?].
    + intros [= <- <- <-]. by eapply check_departed_peer_asks.
  - intros [= <- <- <-]. left. by eapply cheap_grantable_asks.
Qed.

(** A pass only asks what it does not know yet. *)
Lemma try_allocate_asks a g k rq ans ev draw g' k' ev' q :
  try_allocate a g k rq ans ev draw = (g', k', ev', Ask q) ->
  (q = QTenant /\ tenant ans = None) \/
  (q = QQuotaInputs /\ (tenant ans = None \/ budget ans = None)) \/
  (exists h, q = QHolderLive h /\ holder_live ans = None).
Proof.
  unfold try_allocate. destruct (sweep_expired _ _ g ev) as [g1 ev1].
  destruct (check_suggested a g1 k rq ans _) as [[g2 k2] [st|rc]] eqn:Ec.
  { intros [= <- <- <- ->]. apply check_suggested_asks in Ec. naive_solver. }
  destruct (check_rate a g2 k2 rq _) as [[g3 k3] [e|]]; [done|].
  destruct (tenant ans) as [tn|] eqn:Et; [destruct (budget ans) as [b|] eqn:Eb|].
  - intros H. by apply grant_no_ask in H.
  - intros [= <- <- <- <-]. eauto.
  - intros [= <- <- <- <-]. eauto.
Qed.

Lemma ask_learns a g k rq ans ev draw g' k' ev' q :
  try_allocate a g k rq ans ev draw = (g', k', ev', Ask q) ->
  (unknowns (ask a q (rq_client_ip rq) ans) < unknowns ans)%nat.
Proof.
  intros H. apply try_allocate_asks in H. unfold unknowns.
  destruct H as [[-> Ht]|[[-> [Ht|Hb]]|(h & -> & Hh)]]; simpl.
  - rewrite Ht. lia.
  - rewrite Ht. destruct (budget ans); lia.
  - rewrite Hb. destruct (tenant ans); lia.
  - rewrite Hh. lia.
Qed.

Lemma loop_terminates fuel a rq draw env g k ans ev :
  (unknowns ans < fuel)%nat ->
  exists r, allocate_loop fuel a rq draw env g k ans ev = Some r.
Proof.
  revert g k ans ev; induction fuel as [|fuel IH]; intros g k ans ev Hf; [lia|]. simpl.
  destruct (env fuel (g, k)) as [g0 k0].
  destruct (try_allocate a g0 k0 rq ans ev draw) as [[[g1 k1] ev1] [r|q]] eqn:E; [eauto|].
  apply IH. apply ask_learns in E. lia.
Qed.

Lemma allocate_runs a rq draw env :
  exists a' out, allocate_at_collecting a rq draw env = Some (a', out).
Proof.
  unfold allocate_at_collecting.
  match goal with |- context [allocate_loop MAX_PASSES a rq draw ?e ?g ?k ?ans ?ev] =>
    destruct (loop_terminates MAX_PASSES a rq draw e g k ans ev) as [[[g' k'] out] ->]
  end; [|simpl; eauto].
  unfold unknowns, MAX_PASSES. repeat case_match; lia.
Qed.

(** A request always returns: from any table, with any answers gathered so
    far, at most four passes are enough, whatever other threads do to the table
    while the lock is released and whatever the deployer's callbacks answer. *)
Theorem allocate_terminates a rq draw env :
  (forall g k ans ev, is_Some (allocate_loop MAX_PASSES a rq draw env g k ans ev)) /\
  exists a' out, allocate_at_collecting a rq draw env = Some (a', out).
Proof.
  split; [|apply allocate_runs]. intros g k ans ev.
  destruct (loop_terminates MAX_PASSES a rq draw env g k ans ev) as [r ->]; [|done].
  unfold unknowns, MAX_PASSES. repeat case_match; lia.
Qed.

(** ** What the answers mean *)

Definition tenant_of (a : Allocator) (c : Z) : gset Z := ask_tenant a c.

Definition budget_of (a : Allocator) (c : Z) : Z :=
  default (quota_per_client (cfg a))
    (match port_budget a with Some b => b c | None => None end).

Definition live_of (a : Allocator) (h : Z) : bool :=
  match live_sessions a with Some s => s h | None => true end.

Record answers_ok (a : Allocator) (c : Z) (ans : DeployerAnswers) : Prop := {
  ok_tenant : forall tn, tenant ans = Some tn -> tn = tenant_of a c;
  ok_budget : forall b, budget ans = Some b -> b = budget_of a c;
  ok_holder : forall h l, holder_live ans = Some (h, l) -> l = live_of a h;
}.

Lemma unasked_ok a c : answers_ok a c (unasked a c).
Proof.
  split; simpl; [| |done].
  - unfold tenant_of, ask_tenant. destruct (quota_peers a); naive_solver.
  - unfold budget_of. destruct (port_budget a); naive_solver.
Qed.

Lemma ask_ok a c q ans : answers_ok a c ans -> answers_ok a c (ask a q c ans).
Proof.
  intros [Ht Hb Hh]. destruct q as [| |h]; simpl; split; simpl; auto.
  - by intros tn [= <-].
  - intros tn. destruct (tenant ans) eqn:E; [by apply Ht|by intros [= <-]].
  - intros b. destruct (budget ans) eqn:E; [by apply Hb|by intros [= <-]].
  - by intros h' l [= <- <-].
Qed.

(** ** The shape of a request nobody interferes with *)

Lemma loop_env_ext fuel a rq draw env env' g k ans ev :
  (forall i gk, (i < fuel)%nat -> env i gk = env' i gk) ->
  allocate_loop fuel a rq draw env g k ans ev = allocate_loop fuel a rq draw env' g k ans ev.
Proof.
  revert g k ans ev; induction fuel as [|fuel IH]; intros g k ans ev He; [done|]. simpl.
  rewrite He by lia. destruct (env' fuel (g, k)) as [g0 k0].
  destruct (try_allocate _ _ _ _ _ _ _) as [[[g1 k1] ev1] [r|q]]; [done|].
  apply IH. intros. apply He. lia.
Qed.

Lemma loop_unfold fuel a rq draw env g k ans ev :
  allocate_loop (S fuel) a rq draw env g k ans ev =
    let '(g, k) := env fuel (g, k) in
    let '(g, k, ev, step) := try_allocate a g k rq ans ev draw in
    match step with
    | Done r => Some (g, k, mkOutcome r ev)
    | Ask q => allocate_loop fuel a rq draw env g k (ask a q (rq_client_ip rq) ans) ev
    end.
Proof. done. Qed.

Lemma loop_shape fuel a rq draw g k ans ev g' k' out :
  Inv g -> answers_ok a (rq_client_ip rq) ans ->
  allocate_loop fuel a rq draw quiet g k ans ev = Some (g', k', out) ->
  exists ans', answers_ok a (rq_client_ip rq) ans' /\
    pass_shape a g rq ans' ev draw g' (out_evicted out) (Done (out_result out)).
Proof.
  revert g k ans ev; induction fuel as [|fuel IH]; intros g k ans ev HI Hok; [done|]. simpl.
  destruct (try_allocate a g k rq ans ev draw) as [[[g1 k1] ev1] [r|q]] eqn:E.
  - intros [= <- <- <-]. exists ans. split; [done|]. by eapply try_allocate_spec.
  - intros H. apply IH in H as (ans' & Hok' & Hs); [| |by apply ask_ok].
    + exists ans'. split; [done|]. eapply pass_shape_ask; [|exact Hs].
      by eapply try_allocate_spec.
    + by eapply try_allocate_inv.
Qed.

Lemma trim_side_maps_inv now w g : Inv g -> Inv (trim_side_maps now w g).
Proof.
  intros HI. apply (inv_shrink g); [done|done|done|]. simpl.
  intros p pr al H [since Hs]. exists since. apply map_lookup_filter_Some. split; [done|].
  simpl. destruct pr; [left|right]; eauto.
Qed.

Lemma trim_quarantined now w g p :
  quarantined (trim_side_maps now w g) p now = quarantined g p now.
Proof.
  unfold quarantined. simpl. rewrite map_lookup_filter.
  destruct (abuse_quarantine_until g !! p) as [until|]; simpl; [|done].
  destruct (Z.ltb_spec now until) as [Hl|Hl].
  - rewrite option_guard_True by done. by destruct (Z.ltb_spec now until); [|lia].
  - rewrite option_guard_False by (simpl; lia). done.
Qed.

Lemma trim_cooldowns now w g : cooldowns_kept now g (trim_side_maps now w g).
Proof.
  split; simpl.
  - intros p d Hd Hlt. exists d. split; [|done]. by apply map_lookup_filter_Some.
  - intros p _ u [H _]%map_lookup_filter_Some. done.
Qed.

(** A request with no interference has the shape of one pass. *)
Lemma allocate_shape a rq draw a' out :
  Inv (inner a) -> allocate_at_collecting a rq draw quiet = Some (a', out) ->
  exists ans', answers_ok a (rq_client_ip rq) ans' /\
    pass_shape a (inner a) rq ans' [] draw (inner a') (out_evicted out) (Done (out_result out)).
Proof.
  intros HI. unfold allocate_at_collecting.
  set (trimmed := trim_side_maps (rq_now rq) (rate_limit_window (cfg a)) (inner a)).
  assert (Heq : forall env', (forall i gk, (i < 3)%nat -> env' i gk = gk) ->
    (forall gk, env' 3%nat gk = (trim_side_maps (rq_now rq) (rate_limit_window (cfg a)) (fst gk), snd gk)) ->
    forall ans, allocate_loop MAX_PASSES a rq draw env' (inner a) (counters a) ans [] =
      allocate_loop MAX_PASSES a rq draw quiet trimmed (counters a) ans []).
  { intros env' Hlow H3 ans. unfold MAX_PASSES. rewrite !(loop_unfold 3), H3.
    unfold quiet at 1. cbn [fst snd]. fold trimmed.
    destruct (try_allocate a trimmed (counters a) rq ans [] draw) as [[[g1 k1] ev1] [r|q]]; [done|].
    apply loop_env_ext. intros i gk Hi. by rewrite Hlow. }
  rewrite Heq; [| |done].
  2:{ intros i gk Hi. replace (i =? MAX_PASSES - 1)%nat with false; [done|].
      symmetry. apply Nat.eqb_neq. unfold MAX_PASSES. lia. }
  destruct (allocate_loop _ _ _ _ _ trimmed _ _ _) as [[[g k] out']|] eqn:E; simpl; [|done].
  intros [= <- <-].
  apply loop_shape in E as (ans' & Hok & Hs); [|by apply trim_side_maps_inv|apply unasked_ok].
  exists ans'. split; [done|].
  assert (Hin : inner (report_evicted (out_evicted out') (outcome_granted out') (with_inner g k a)) = g).
  { unfold report_evicted, report_released. by repeat case_match. }
  rewrite Hin. destruct Hs as (g1 & Ha & Hq & HI1 & Hc & Hs). exists g1.
  split; [done|]. split; [intros p; rewrite Hq; apply trim_quarantined|]. split; [done|].
  split; [eapply cooldowns_kept_trans; [|apply trim_cooldowns|exact Hc]; done|].
  subst trimmed. unfold effective_suggestion in *. by rewrite trim_quarantined in Hs.
Qed.

Lemma allocate_inv a rq draw a' out :
  Inv (inner a) -> allocate_at_collecting a rq draw quiet = Some (a', out) -> Inv (inner a').
Proof. intros HI H. apply allocate_shape in H as (ans & _ & H); [|done]. by eapply pass_shape_inv. Qed.

(** ** A small deployment

    Six ports, two per tenant; addresses 1 and 2 are one tenant and the session of
    address 2 has departed.  Address 2 holds a pair on 100, address 3 a mapping
    on 101, and 104 was revoked for abuse. *)

Definition small_config : AllocatorConfig := mkConfig (100, 105) (from_secs 300) 12 (from_secs 60) 2.

Definition small_deployment : Allocator :=
  mkAllocator empty_inner small_config
    (Some (fun c => if (c =? 1) || (c =? 2) then [1; 2] else []))
    None (Some (fun h => negb (h =? 2))) (Some []) zero_counters.

Definition small_draw (i : nat) (n : Z) : Z := Z.of_nat i mod n.

Lemma small_draw_ok : draw_ok small_draw.
Proof. intros i n Hn. by apply Z.mod_pos_bound. Qed.

Definition served (a : Allocator) (rq : MapRequest) : Allocator * AllocateOutcome :=
  default (a, mkOutcome (Err Exhausted) []) (allocate_at_collecting a rq small_draw quiet).

Lemma served_run a rq :
  allocate_at_collecting a rq small_draw quiet = Some (fst (served a rq), snd (served a rq)).
Proof.
  unfold served. destruct (allocate_runs a rq small_draw quiet) as (a' & out & ->). done.
Qed.

Lemma served_inv a rq : Inv (inner a) -> Inv (inner (fst (served a rq))).
Proof. intros HI. eapply allocate_inv; [done|apply served_run]. Qed.

Definition small_table : Allocator :=
  let a := fst (served small_deployment (make_request 2 Tcp 80 100 3600 0)) in
  let a := fst (served a (make_request 2 Udp 80 100 3600 0)) in
  let a := fst (served a (make_request 3 Tcp 80 101 3600 0)) in
  fst (revoke_for_abuse_at 104 (from_secs 3600) 0 a).
