(* ===== verification/NatPmpSystem.v ===== *)
(** The NAT-PMP allocator under concurrency: the critical sections of every
    method as a step relation on the table, and what holds of every table that
    any interleaving of them can reach.

    A request that has to ask the deployer runs as several critical sections;
    [locked_step] has one constructor per critical section of the allocator, for
    any caller, time and answers, so that its closure covers every interleaving
    of any number of threads. *)

From S2P Require Import Prelude NatPmpAllocator NatPmpTable NatPmpPass NatPmpRequest.
Import NatPmpAllocator.

Implicit Types (g : Inner) (al : Allocation) (rq : MapRequest) (a : Allocator) (ans : DeployerAnswers).

(** ** The critical sections *)

(** One critical section at time [now], [restore_at] excepted. *)
Inductive locked_step (now : Z) : Inner -> Inner -> Prop :=
| step_trim w g : locked_step now g (trim_side_maps now w g)
| step_pass a g k rq ans ev draw g' k' ev' st :
    rq_now rq = now -> try_allocate a g k rq ans ev draw = (g', k', ev', st) ->
    locked_step now g g'
| step_release a al :
    locked_step now (inner a) (inner (release_at al now a))
| step_release_by_client a c port pr :
    locked_step now (inner a) (inner (fst (release_by_client_at c port pr now a)))
| step_take_port a p :
    locked_step now (inner a) (inner (fst (take_active_for_port_at p now a)))
| step_take_ip a c :
    locked_step now (inner a) (inner (fst (take_active_for_ip_at c now a)))
| step_take_slot a p pr :
    locked_step now (inner a) (inner (fst (take_active_for_slot p pr a)))
| step_revoke a p q :
    locked_step now (inner a) (inner (fst (revoke_for_abuse_at p q now a)))
| step_status a c :
    locked_step now (inner a) (inner (fst (rate_limit_status_at c now a))).

(** Any critical section: the above at some time, or a restart's [restore_at]. *)
Inductive table_step : Inner -> Inner -> Prop :=
| step_locked now g g' : locked_step now g g' -> table_step g g'
| step_restore a entries now : table_step (inner a) (inner (fst (restore_at entries now a))).

(** ** Slots taken out of the table *)

Lemma take_slots_spec until keys g g' removed :
  take_slots until keys g = (g', removed) ->
  active g' = without keys (active g) /\ next_expiry g' = next_expiry g /\
  held_since g' = held_since g /\ abuse_quarantine_until g' = abuse_quarantine_until g /\
  forall al, al ∈ removed <-> exists key, key ∈ keys /\ active g !! key = Some al.
Proof.
  unfold take_slots.
  enough (Hgen : forall acc, fold_left (fun acc key => take_slot until key acc) keys (g, acc)
                             = (g', removed) ->
    active g' = without keys (active g) /\ next_expiry g' = next_expiry g /\
    held_since g' = held_since g /\ abuse_quarantine_until g' = abuse_quarantine_until g /\
    exists rest, removed = acc ++ rest /\
      forall al, al ∈ rest <-> exists key, key ∈ keys /\ active g !! key = Some al).
  { intros H. destruct (Hgen [] H) as (? & ? & ? & ? & rest & -> & Hr). eauto. }
  revert g; induction keys as [|key keys IH]; intros g acc; simpl.
  - intros [= <- <-]. rewrite without_nil. repeat (split; [done|]).
    exists []. rewrite app_nil_r. split; [done|]. intros al.
    split; [by intros ?%elem_of_nil|by intros (? & ?%elem_of_nil & _)].
  - destruct (active g !! key) as [x|] eqn:E.
    + intros H. apply IH in H as (-> & -> & -> & -> & rest & -> & Hrem). simpl in *.
      rewrite without_cons. repeat (split; [done|]). exists (x :: rest).
      split; [by rewrite <- app_assoc|]. intros al. rewrite elem_of_cons, Hrem. split.
      * intros [->|(k & Hk & [_ Hl]%lookup_delete_Some)]; [exists key; split; [by left|done]|].
        exists k. split; [by right|done].
      * intros (k & [->|Hk]%elem_of_cons & Hl); [left; congruence|].
        destruct (decide (key = k)) as [->|Hne]; [left; congruence|].
        right. exists k. split; [done|]. by rewrite lookup_delete_ne.
    + intros H. apply IH in H as (-> & -> & -> & -> & rest & -> & Hrem).
      rewrite without_cons, delete_id by done. repeat (split; [done|]). exists rest.
      split; [done|]. intros al. rewrite Hrem. split.
      * intros (k & Hk & Hl). exists k. split; [by right|done].
      * intros (k & [->|Hk]%elem_of_cons & Hl); [congruence|eauto].
Qed.

Lemma take_slots_inv until keys g g' removed :
  Inv g -> take_slots until keys g = (g', removed) -> Inv g'.
Proof.
  intros HI H. apply take_slots_spec in H as (Ha & Hn & Hh & _).
  apply (inv_shrink g); [done| |done|].
  - intros key al. rewrite Ha. by intros [? _]%without_lookup.
  - intros p pr al _. by rewrite Hh.
Qed.

Lemma report_released_inner l a : inner (report_released l a) = inner a.
Proof. by destruct l. Qed.

(** ** The invariant, step by step *)

Lemma release_one_inv key port ip d g :
  Inv g -> Inv (arm_release port ip d (set_active (delete key (active g)) g)).
Proof.
  intros HI. apply (inv_shrink g); [done| |done|done].
  simpl. by intros k al [_ ?]%lookup_delete_Some.
Qed.

Lemma restore_one_inv now g kept entry :
  Inv g -> Inv (fst (restore_one now (g, kept) entry)).
Proof.
  intros HI. unfold restore_one. destruct (_ || _) eqn:E; [done|]. simpl.
  apply orb_false_iff in E as [_ E].
  set (p := external_port entry) in *. set (since := default now (held_since g !! p)).
  assert (Hleg : forall pr bl, active g !! (p, pr) = Some bl -> internal_ip bl = internal_ip entry).
  { intros pr bl Hb. rewrite (port_owner_leg g p pr bl HI Hb) in E.
    apply negb_false_iff, Z.eqb_eq in E. done. }
  split; simpl.
  - intros q pr al [[[= <- <-] <-]|[_ H]]%lookup_insert_Some; [done|]. by apply (inv_key g HI).
  - intros q xl yl [[E1 <-]|[Hne1 H1]]%lookup_insert_Some [[E2 <-]|[Hne2 H2]]%lookup_insert_Some.
    + congruence.
    + injection E1 as <- _. symmetry. eauto.
    + injection E2 as <- _. eauto.
    + by apply (inv_owner g HI q).
  - intros key bl [[<- <-]|[_ H]]%lookup_insert_Some.
    + eexists. split; [done|]. destruct (next_expiry g); lia.
    + destruct (inv_expiry g HI key bl H) as (t & Ht & Hle). rewrite Ht. eexists. split; [done|]. lia.
  - intros q pr bl [[[= <- <-] <-]|[_ H]]%lookup_insert_Some; rewrite lookup_insert.
    + case_decide; [eauto|done].
    + case_decide; [eauto|]. by apply (inv_held g HI q pr bl).
Qed.

Lemma locked_step_inv now g g' : locked_step now g g' -> Inv g -> Inv g'.
Proof.
  intros H HI.
  destruct H as [w g|a g k rq ans ev draw g' k' ev' st _ H|a al|a c port pr|a p|a c|a p pr|a p q|a c].
  - by apply trim_side_maps_inv.
  - by eapply try_allocate_inv.
  - unfold release_at. case_match; [|done]. rewrite report_released_inner. by apply release_one_inv.
  - unfold release_by_client_at. repeat case_match; try done. simpl. by apply release_one_inv.
  - unfold take_active_for_port_at, take_port. destruct (take_slots _ _ _) as [g' r] eqn:E.
    simpl. by eapply take_slots_inv.
  - unfold take_active_for_ip_at. destruct (take_slots _ _ _) as [g' r] eqn:E.
    simpl. by eapply take_slots_inv.
  - simpl. apply inv_set_active_sub; [done|]. by intros key al [_ ?]%lookup_delete_Some.
  - unfold revoke_for_abuse_at, take_port. destruct (take_slots _ _ _) as [g' r] eqn:E. simpl.
    apply take_slots_spec in E as (Ha & Hn & Hh & _ & _). simpl in *.
    apply (inv_shrink (inner a)); [done| |done|]; simpl; rewrite Ha.
    + by intros key al [? _]%without_lookup.
    + intros q' pr al [_ Hnd]%without_lookup Hs. rewrite Hh, lookup_delete_ne; [done|].
      intros <-. apply Hnd. destruct pr; set_solver.
  - unfold rate_limit_status_at. case_match; [|done]. simpl.
    by apply (log_only_inv (inner a)).
Qed.

Lemma table_step_inv g g' : table_step g g' -> Inv g -> Inv g'.
Proof.
  intros [now h h' H|a entries now] HI; [by eapply locked_step_inv|].
  unfold restore_at. generalize (inner a) ([] : list Allocation) HI. clear HI.
  intros h kept HI. rewrite (surjective_pairing (fold_left _ _ _)). simpl.
  revert h kept HI. induction entries as [|e entries IH]; intros h kept HI; [done|].
  cbn [fold_left]. pose proof (restore_one_inv now h kept e HI) as HI'.
  destruct (restore_one now (h, kept) e) as [h' kept']. by apply IH.
Qed.

(** Every table that any interleaving of critical sections can reach from the
    empty one is well formed: each mapping sits in the slot it names, both legs of
    a port belong to one client, [next_expiry] bounds every lease end from below,
    so that the sweep's early exit misses nothing, and every held port has a
    recorded start of holding. *)
Theorem reachable_table_inv g : rtc table_step empty_inner g -> Inv g.
Proof.
  intros H. assert (Hgen : forall h, rtc table_step h g -> Inv h -> Inv g).
  { clear H. intros h H. induction H as [|h h1 h2 Hs _ IH]; [done|].
    intros HI. apply IH. by eapply table_step_inv. }
  apply (Hgen _ H), inv_empty.
Qed.

Lemma reachable_table_inv_witness :
  Inv (inner (fst (revoke_for_abuse_at 104 (from_secs 60) 0 small_deployment))).
Proof.
  apply reachable_table_inv. apply rtc_once. eapply step_locked, (step_revoke 0 small_deployment).
Defined.

(** ** A request among other threads *)

Definition env_steps (env : nat -> Inner * AllocatorCounters -> Inner * AllocatorCounters) : Prop :=
  forall i gk, rtc table_step (fst gk) (fst (env i gk)).

Lemma pass_step a g k rq ans ev draw g' k' ev' st :
  try_allocate a g k rq ans ev draw = (g', k', ev', st) -> table_step g g'.
Proof. intros H. eapply step_locked, step_pass; [reflexivity|exact H]. Qed.

Lemma loop_steps fuel a rq draw env g k ans ev g' k' out :
  env_steps env -> allocate_loop fuel a rq draw env g k ans ev = Some (g', k', out) ->
  rtc table_step g g'.
Proof.
  intros He. revert g k ans ev; induction fuel as [|fuel IH]; intros g k ans ev; [done|].
  rewrite loop_unfold. pose proof (He fuel (g, k)) as Hs.
  destruct (env fuel (g, k)) as [g0 k0]. simpl in Hs.
  destruct (try_allocate a g0 k0 rq ans ev draw) as [[[g1 k1] ev1] [r|q]] eqn:E.
  - intros [= <- _ _]. etrans; [exact Hs|]. apply rtc_once. by eapply pass_step.
  - intros H. etrans; [exact Hs|]. eapply rtc_l; [by eapply pass_step|]. by eapply IH.
Qed.

Lemma report_evicted_inner ev gr a : inner (report_evicted ev gr a) = inner a.
Proof. unfold report_evicted. case_match; [|done]. apply report_released_inner. Qed.

(** Atomicity of a request: whatever sequence of critical sections other
    threads run while it has released the lock, a request is itself a sequence of
    critical sections, so the table it leaves is reachable from the one it found. *)
Theorem request_is_steps a rq draw env a' out :
  env_steps env -> allocate_at_collecting a rq draw env = Some (a', out) ->
  rtc table_step (inner a) (inner a').
Proof.
  intros He. unfold allocate_at_collecting.
  destruct (allocate_loop _ _ _ _ _ _ _ _ _) as [[[g k] o]|] eqn:E; simpl; [|done].
  intros [= <- _]. rewrite report_evicted_inner. simpl.
  eapply loop_steps; [|exact E]. intros i gk.
  destruct (i =? MAX_PASSES - 1)%nat; [|apply He]. simpl.
  etrans; [apply He|]. apply rtc_once. eapply step_locked, step_trim.
Qed.

(** Another thread serves address 3 and revokes port 105 between two passes. *)
Definition busy (i : nat) (gk : Inner * AllocatorCounters) : Inner * AllocatorCounters :=
  (inner (fst (revoke_for_abuse_at 105 (from_secs 60) 0 (with_inner (fst gk) (snd gk) small_deployment))),
   snd gk).

Lemma busy_steps : env_steps busy.
Proof.
  intros i [g k]. apply rtc_once.
  exact (step_locked 0 _ _ (step_revoke 0 (with_inner g k small_deployment) 105 (from_secs 60))).
Qed.

Lemma request_is_steps_witness :
  exists a' out,
    allocate_at_collecting small_deployment (make_request 1 Tcp 80 105 3600 0) small_draw busy
      = Some (a', out) /\
    rtc table_step (inner small_deployment) (inner a').
Proof.
  destruct (allocate_runs small_deployment (make_request 1 Tcp 80 105 3600 0) small_draw busy)
    as (a' & out & H).
  exists a', out. split; [exact H|]. exact (request_is_steps _ _ _ _ _ _ busy_steps H).
Defined.

(** ** Abuse revocation *)

(** Port [p] carries no mapping and is quarantined at least until [until]. *)
Definition shut g (p until : Z) : Prop :=
  (forall pr, active g !! (p, pr) = None) /\
  exists u, abuse_quarantine_until g !! p = Some u /\ until <= u.

Lemma shut_sub g g' p until :
  (forall key al, active g' !! key = Some al -> active g !! key = Some al) ->
  abuse_quarantine_until g' = abuse_quarantine_until g -> shut g p until -> shut g' p until.
Proof.
  intros Hsub Hq [Hf Hu]. split; [|by rewrite Hq]. intros pr.
  destruct (active g' !! (p, pr)) as [al|] eqn:E; [|done].
  apply Hsub in E. by rewrite Hf in E.
Qed.

Lemma try_allocate_quarantine_map a g k rq ans ev draw g' k' ev' st :
  Inv g -> try_allocate a g k rq ans ev draw = (g', k', ev', st) ->
  abuse_quarantine_until g' = abuse_quarantine_until g.
Proof.
  intros HI. unfold try_allocate.
  destruct (sweep_expired _ _ g ev) as [g1 ev1] eqn:Es.
  destruct (sweep_spec _ _ _ _ _ _ HI Es) as (_ & _ & _ & <- & _).
  destruct (check_suggested a g1 k rq ans _) as [[g2 k2] [s|rc]] eqn:Ec;
    apply check_suggested_log in Ec as ->; [by intros [= <- <- <- <-]|].
  match goal with |- context [check_rate ?x ?y ?z ?w ?v] =>
    destruct (check_rate x y z w v) as [[g3 k3] [e|]] eqn:Er end;
    apply check_rate_log in Er as ->; [by intros [= <- <- <- <-]|].
  destruct (tenant ans), (budget ans); try by intros [= <- <- <- <-].
  intros H. apply grant_spec in H as
    [(_ & _ & -> & _)|(h & -> & _ & _ & [(_ & _ & ->)|(port & al & _ & _ & Hi)])]; [done|done|].
  by apply install_spec in Hi as (_ & _ & _ & -> & _).
Qed.

(** The port a pass installs is not quarantined, unless the client held it. *)
Lemma pass_shut a g k rq ans ev draw g' k' ev' st p until :
  Inv g -> try_allocate a g k rq ans ev draw = (g', k', ev', st) ->
  rq_now rq < until -> shut g p until -> shut g' p until.
Proof.
  intros HI H Hlt Hshut. pose proof (try_allocate_quarantine_map _ _ _ _ _ _ _ _ _ _ _ HI H) as Hqm.
  pose proof Hshut as [Hf (u & Hu & Hle)].
  assert (Hq : quarantined g p (rq_now rq) = true)
    by (unfold quarantined; rewrite Hu; apply Z.ltb_lt; lia).
  destruct (try_allocate_spec _ _ _ _ _ _ _ _ _ _ _ HI H) as (g1 & Ha & Hqs & HI1 & _ & Hs).
  assert (Hf1 : forall pr, active g1 !! (p, pr) = None)
    by (intros pr; rewrite Ha; by apply live_entries_None).
  assert (Hw : forall slots pr, without slots (active g1) !! (p, pr) = None).
  { intros slots pr. apply eq_None_not_Some. intros [? [? _]%without_lookup]. by rewrite Hf1 in *. }
  enough (Hfree : forall pr, active g' !! (p, pr) = None) by (split; [done|rewrite Hqm; eauto]).
  intros pr. simpl in Hs.
  destruct Hs as [(Hl & _)|(g3 & k3 & kk & tn & bud & rc & Hl & _ & _ & Hso & Hg)].
  { by rewrite (log_only_active _ _ Hl). }
  assert (Ha3 := log_only_active _ _ Hl).
  apply grant_spec in Hg as
    [(_ & _ & -> & _)|(h & Hh & _ & _ & [(_ & _ & ->)|(port & al & _ & Hc & Hi)])].
  { simpl. by rewrite Ha3. } { rewrite Hh. simpl. by rewrite Ha3. }
  apply install_spec in Hi as (_ & -> & _).
  assert (Hh0 : forall pr, active h !! (p, pr) = None) by (intros; rewrite Hh; simpl; by rewrite Ha3).
  rewrite lookup_insert_ne; [done|]. intros [= -> _].
  destruct (Z.eqb_spec (effective_suggestion g (rq_suggested rq) (rq_now rq)) 0) as [|Hs0].
  - apply pick_port_spec in Hc as [(_ & _ & _ & _ & Ho)|He].
    + apply port_owner_Some in Ho as (pr' & bl & Hb & _). by rewrite Hh0 in Hb.
    + apply port_eligible_free in He as [_ He]. rewrite Hh in He.
      change (quarantined g3 p (rq_now rq) = false) in He.
      rewrite Hl in He. change (quarantined g1 p (rq_now rq) = false) in He. congruence.
  - injection Hc as Hc. unfold effective_suggestion in *.
    destruct (quarantined g (rq_suggested rq) (rq_now rq)) eqn:E; congruence.
Qed.

Lemma take_slots_shut d keys g p until :
  shut g p until -> shut (fst (take_slots d keys g)) p until.
Proof.
  intros Hs. destruct (take_slots d keys g) as [g' r] eqn:E.
  apply take_slots_spec in E as (Ha & _ & _ & Hq & _). apply (shut_sub g); [|done|done].
  intros key al. simpl. rewrite Ha. by intros [? _]%without_lookup.
Qed.

Lemma release_one_shut key port ip d g p until :
  shut g p until -> shut (arm_release port ip d (set_active (delete key (active g)) g)) p until.
Proof. apply shut_sub; [|done]. simpl. by intros k al [_ ?]%lookup_delete_Some. Qed.

Lemma revoke_shut p q now a port until :
  (shut (inner a) p until \/ port = p /\ until <= now + Z.min q MAX_ABUSE_QUARANTINE) ->
  shut (inner (fst (revoke_for_abuse_at port q now a))) p until.
Proof.
  intros H. unfold revoke_for_abuse_at, take_port.
  match goal with |- context [take_slots ?d ?ks ?g] =>
    destruct (take_slots d ks g) as [g' r] eqn:E end.
  apply take_slots_spec in E as (Ha & _ & _ & Hq & _). simpl in *. split.
  - intros pr. simpl. rewrite Ha. apply eq_None_not_Some. intros [al [Hl Hnd]%without_lookup].
    destruct H as [[Hf _]|[-> _]]; [by rewrite Hf in Hl|]. apply Hnd. destruct pr; set_solver.
  - simpl. rewrite Hq, lookup_insert. destruct H as [[_ (u & Hu & Hle)]|[-> Hle]].
    + case_decide as Hp; [|eauto]. subst p. rewrite Hu. simpl.
      eexists. split; [done|]. destruct (Z.ltb_spec u (now + Z.min q MAX_ABUSE_QUARANTINE)); lia.
    + case_decide; [|done]. eexists. split; [done|].
      generalize (default (now + Z.min q MAX_ABUSE_QUARANTINE) (abuse_quarantine_until (inner a) !! p)).
      intros z. destruct (Z.ltb_spec z (now + Z.min q MAX_ABUSE_QUARANTINE)); lia.
Qed.

Lemma locked_step_shut now g g' p until :
  locked_step now g g' -> now < until -> Inv g -> shut g p until -> shut g' p until.
Proof.
  intros H Hlt HI Hs.
  destruct H as [w g|a g k rq ans ev draw g' k' ev' st Ht H|a al|a c port pr|a q|a c|a q pr|a q d|a c].
  - destruct Hs as [Hf (u & Hu & Hle)]. split; [done|]. exists u. split; [|done].
    apply map_lookup_filter_Some. split; [done|]. simpl. lia.
  - subst now. by eapply pass_shut.
  - unfold release_at. case_match; [|done]. rewrite report_released_inner. by apply release_one_shut.
  - unfold release_by_client_at. repeat case_match; try done. simpl. by apply release_one_shut.
  - unfold take_active_for_port_at, take_port. rewrite (surjective_pairing (take_slots _ _ _)).
    simpl. by apply take_slots_shut.
  - unfold take_active_for_ip_at. rewrite (surjective_pairing (take_slots _ _ _)).
    simpl. by apply take_slots_shut.
  - simpl. revert Hs. apply shut_sub; [|done]. simpl. by intros key al [_ ?]%lookup_delete_Some.
  - apply revoke_shut. by left.
  - unfold rate_limit_status_at. case_match; [|done]. revert Hs. by apply shut_sub.
Qed.

(** A mapping restored on another port leaves [p] shut. *)
Lemma restore_one_shut now g kept e p until :
  external_port e <> p -> shut g p until -> shut (fst (restore_one now (g, kept) e)) p until.
Proof.
  intros Hne [Hf Hu]. unfold restore_one. destruct (_ || _); [done|]. split; [|done]. intros pr.
  simpl. rewrite lookup_insert_ne; [done|]. congruence.
Qed.

Lemma restore_shut entries now a p until :
  (forall e, e ∈ entries -> external_port e <> p) -> shut (inner a) p until ->
  shut (inner (fst (restore_at entries now a))) p until.
Proof.
  unfold restore_at. generalize (inner a) ([] : list Allocation).
  intros g kept Hp Hs. rewrite (surjective_pairing (fold_left _ _ _)). simpl.
  revert g kept Hs. induction entries as [|e entries IH]; intros g kept Hs; [done|].
  cbn [fold_left]. pose proof (restore_one_shut now g kept e p until) as He.
  destruct (restore_one now (g, kept) e) as [g' kept'].
  apply IH; [intros; apply Hp; by right|]. apply He; [apply Hp; by left|done].
Qed.

(** A critical section while the quarantine of [p] runs: any of [locked_step]
    before [until], or, at any time, a [restore_at] of a snapshot in which no
    mapping is on [p]. *)
Inductive step_before (until p : Z) : Inner -> Inner -> Prop :=
| before_locked now g g' : now < until -> locked_step now g g' -> step_before until p g g'
| before_restore a entries now :
    (forall e, e ∈ entries -> external_port e <> p) ->
    step_before until p (inner a) (inner (fst (restore_at entries now a))).

Lemma step_before_table until p g g' : step_before until p g g' -> table_step g g'.
Proof. intros [now h h' _ H|a entries now _]; [by eapply step_locked|apply step_restore]. Qed.

Lemma step_before_shut until p g g' :
  step_before until p g g' -> Inv g -> shut g p until -> shut g' p until.
Proof.
  intros [now h h' Hlt H|a entries now He] HI Hs; [by eapply locked_step_shut|by apply restore_shut].
Qed.

(** The small deployment's table is well formed. *)
Lemma small_table_inv : Inv (inner small_table).
Proof.
  unfold small_table. eapply locked_step_inv; [apply (step_revoke 0)|].
  repeat apply served_inv. exact inv_empty.
Qed.

(** C16.  A revoked port stays shut: after [revoke_for_abuse_at] on a port, no
    sequence of requests, releases, removals, further revocations or restores by
    any number of threads puts a mapping on the port until the quarantine (capped
    at a year) ends, provided that no restored snapshot has a mapping on that port:
    [restore_at] does not consult the quarantine ([restore_reopens_revoked_port]). *)
Theorem revoked_port_stays_shut a p quarantine t g pr :
  Inv (inner a) ->
  rtc (step_before (t + Z.min quarantine MAX_ABUSE_QUARANTINE) p)
    (inner (fst (revoke_for_abuse_at p quarantine t a))) g ->
  active g !! (p, pr) = None.
Proof.
  set (until := t + Z.min quarantine MAX_ABUSE_QUARANTINE). intros HI H.
  assert (Hinv : Inv (inner (fst (revoke_for_abuse_at p quarantine t a)))
    /\ shut (inner (fst (revoke_for_abuse_at p quarantine t a))) p until).
  { split; [by eapply locked_step_inv; [apply (step_revoke t)|]|]. apply revoke_shut. by right. }
  enough (Hgen : forall h, rtc (step_before until p) h g -> Inv h /\ shut h p until -> shut g p until)
    by (by apply (Hgen _ H)).
  clear H Hinv. intros h H. induction H as [|h h1 h2 Hs _ IH]; [by intros [_ ?]|].
  intros [HIh Hsh]. apply IH.
  split; [eapply table_step_inv; [by eapply step_before_table|done]|by eapply step_before_shut].
Qed.

(** The mapping of address 3 on [p], as a snapshot holds it. *)
Definition saved_on (p : Z) : Allocation := mkAllocation p 3 80 Tcp (from_secs 3600).

(** A restore of port 102 and a release while 101 is quarantined. *)
Lemma revoked_port_stays_shut_witness :
  let a1 := fst (revoke_for_abuse_at 101 (from_secs 60) 0 small_table) in
  let a2 := fst (restore_at [saved_on 102] (from_secs 4) a1) in
  active (inner a2) !! (102, Tcp) = Some (saved_on 102) /\
  active (inner (fst (release_by_client_at 3 80 Tcp (from_secs 5) a2))) !! (101, Tcp) = None.
Proof.
  split; [vm_compute; reflexivity|].
  refine (revoked_port_stays_shut small_table 101 (from_secs 60) 0 _ Tcp small_table_inv _).
  eapply rtc_l; [|apply rtc_once].
  - apply (before_restore _ _ _ [saved_on 102] (from_secs 4)).
    intros e ->%list_elem_of_singleton. discriminate.
  - apply (before_locked _ _ (from_secs 5)); [reflexivity|]. apply step_release_by_client.
Defined.

(** A restore puts a saved mapping back on its port while the abuse quarantine
    of that port runs. *)
Lemma restore_reopens_revoked_port :
  let a1 := fst (revoke_for_abuse_at 101 (from_secs 60) 0 small_table) in
  let a2 := fst (restore_at [saved_on 101] (from_secs 4) a1) in
  quarantined (inner a2) 101 (from_secs 4) = true /\
  active (inner a2) !! (101, Tcp) = Some (saved_on 101).
Proof. split; vm_compute; reflexivity. Qed.
