(* ===== verification/NatPmpGuarantees.v ===== *)
(** What a NAT-PMP allocation request guarantees to its client and to everybody
    else.

    [request_passes] lists the critical sections of one request among those of
    other threads; [request_outcome] restates what one of them does to the table it
    finds.  What a request takes from other clients and the quota are stated per
    critical section, under any interference; the other guarantees are about a
    request that no other thread interrupts. *)

From S2P Require Import Prelude NatPmpAllocator NatPmpTable NatPmpPass NatPmpRequest NatPmpSystem.
Import NatPmpAllocator.

Implicit Types (g : Inner) (al : Allocation) (rq : MapRequest) (a : Allocator).

(** ** The outcome of a request *)

(** The leases that end before the request. *)
Definition lapsed g rq : list Allocation := snd <$> expired_entries (rq_now rq) g.

(** The suggestion [s], non-zero, may be granted over the swept table [g]: as a
    reclaim from a departed address of the same tenant, or because the port is
    this client's or eligible for it. *)
Definition may_take a g rq (s : Z) (reclaim : bool) : Prop :=
  port_in_range s (range (cfg a)) = true /\
  if reclaim
  then exists holder, port_owner g s = Some holder /\ holder <> rq_client_ip rq /\
         live_of a holder = false /\ holder ∈ tenant_of a (rq_client_ip rq)
  else (port_owner g s = Some (rq_client_ip rq) \/
        port_owner g s = None /\
        exists r, (r = None \/ r = Some (tenant_of a (rq_client_ip rq))) /\
                  port_eligible g s (rq_client_ip rq) (rq_now rq) r = true) /\
       (forall e, active g !! (s, rq_proto rq) = Some e ->
          internal_ip e = rq_client_ip rq /\ internal_port e = rq_internal_port rq).

(** The table on which a grant chooses its port. *)
Definition cleared g rq (s : Z) (reclaim : bool) : Inner :=
  set_active (without (dropped (same_tuple g rq) s reclaim) (active g)) g.

Definition quota_check a g rq (s : Z) : bool :=
  over_quota (set_active (without (same_tuple g rq) (active g)) g)
    (tenant_of a (rq_client_ip rq)) (budget_of a (rq_client_ip rq)) s
    (previously_held g (same_tuple g rq)).

Definition choice a g rq (s : Z) (reclaim : bool) (draw : nat -> Z -> Z) : option Z :=
  if s =? 0
  then pick_port (cleared g rq s reclaim) (range (cfg a)) (rq_proto rq)
         (default 0 (previously_held g (same_tuple g rq))) (rq_client_ip rq) (rq_now rq) draw
  else Some s.

(** The table, the evictions and the verdict a request leaves, over the swept
    table [g] with the effective suggestion [s], after the evictions [ev0]. *)
Inductive request_outcome a rq (draw : nat -> Z -> Z) (ev0 : list Allocation) g (s : Z)
  : gmap (Z * Proto) Allocation -> list Allocation -> result Allocation NatPmpError -> Prop :=
| refused_early e :
    early (Done (Err e)) -> request_outcome a rq draw ev0 g s (active g) ev0 (Err e)
| refused_quota ev :
    quota_check a g rq s = true ->
    evicts g (same_tuple g rq) ev0 ev ->
    request_outcome a rq draw ev0 g s (without (same_tuple g rq) (active g)) ev
      (Err (QuotaExceeded (rq_client_ip rq)))
| refused_full ev :
    s = 0 -> choice a g rq s false draw = None ->
    evicts g (same_tuple g rq) ev0 ev ->
    request_outcome a rq draw ev0 g s (without (same_tuple g rq) (active g)) ev (Err Exhausted)
| granted reclaim port al ev :
    quota_check a g rq s = false ->
    (s = 0 /\ reclaim = false \/ s <> 0 /\ may_take a g rq s reclaim) ->
    choice a g rq s reclaim draw = Some port ->
    evicts g (dropped (same_tuple g rq) s reclaim) ev0 ev ->
    al = mkAllocation port (rq_client_ip rq) (rq_internal_port rq) (rq_proto rq)
           (rq_now rq + rq_lifetime rq) ->
    request_outcome a rq draw ev0 g s
      (<[(port, rq_proto rq) := al]> (active (cleared g rq s reclaim))) ev (Ok al).

Lemma suggestion_may_take a g rq ans s reclaim :
  answers_ok a (rq_client_ip rq) ans -> suggestion_ok a g rq ans s reclaim ->
  s = 0 /\ reclaim = false \/ s <> 0 /\ may_take a g rq s reclaim.
Proof.
  intros [Ht _ Hh] [?|(Hs & Hr & H)]; [by left|right]. split; [done|]. split; [done|].
  destruct reclaim.
  - destruct H as (holder & tn & Ho & Hne & Hl & Htn & Hin). exists holder.
    rewrite <- (Hh _ _ Hl), <- (Ht _ Htn). done.
  - destruct H as [Ho He]. split; [|done].
    destruct Ho as [Ho|(Ho & r & Hr' & Hel)]; [by left|right]. split; [done|].
    destruct Hr' as [->| ->]; [eauto|].
    destruct (tenant ans) as [tn|] eqn:Et; [|eauto]. rewrite (Ht tn) in Hel by done. eauto.
Qed.

(** [g] is the table [h], swept. *)
Record swept h rq g : Prop := {
  sw_active : active g = live_entries (rq_now rq) (active h);
  sw_quarantine : forall p, quarantined g p (rq_now rq) = quarantined h p (rq_now rq);
  sw_inv : Inv g;
  sw_cooldowns : cooldowns_kept (rq_now rq) h g;
}.

Lemma pick_port_log g g3 rq s reclaim rg pr reuse c now draw :
  log_only g g3 ->
  pick_port (cleared g3 rq s reclaim) rg pr reuse c now draw
  = pick_port (cleared g rq s reclaim) rg pr reuse c now draw.
Proof. unfold log_only. intros ->. done. Qed.

(** What a critical section that ends a request does to the table it finds. *)
Lemma pass_cases a h rq ans ev draw g' ev' r :
  answers_ok a (rq_client_ip rq) ans -> pass_shape a h rq ans ev draw g' ev' (Done r) ->
  exists g, swept h rq g /\
    request_outcome a rq draw (ev ++ lapsed h rq) g
      (effective_suggestion h (rq_suggested rq) (rq_now rq)) (active g') ev' r.
Proof.
  intros Hok (g & Ha & Hq & HIg & Hc & Hs).
  exists g. split; [by split|]. simpl in Hs. set (s := effective_suggestion _ _ _) in *.
  destruct Hs as [(Hl & -> & He)|(g3 & k3 & k' & tn & bud & rc & Hl & Ht & Hb & Hso & Hg)].
  { rewrite (log_only_active _ _ Hl). destruct r as [al|e]; [done|].
    by apply refused_early. }
  rewrite (ok_tenant _ _ _ Hok _ Ht), (ok_budget _ _ _ Hok _ Hb) in Hg.
  apply (suggestion_may_take _ _ _ _ _ _ Hok) in Hso.
  assert (Hev : forall slots ev2, evicts g3 slots (ev ++ lapsed h rq) ev2 -> evicts g slots (ev ++ lapsed h rq) ev2)
    by (intros slots ev2; unfold evicts; by rewrite (log_only_active _ _ Hl)).
  assert (Hprev : previously_held g3 (same_tuple g rq) = previously_held g (same_tuple g rq))
    by (unfold previously_held; by rewrite (log_only_active _ _ Hl)).
  apply grant_spec in Hg. rewrite Hprev in Hg.
  destruct Hg as [(Hr & Hov & -> & Hevs)|(g2 & Hg2 & Hevs & Hov & Hg)].
  { injection Hr as ->. simpl. rewrite (log_only_active _ _ Hl).
    apply refused_quota; [|by apply Hev]. rewrite <- Hov. unfold quota_check, over_quota.
    unfold held_ports. simpl. by rewrite (log_only_active _ _ Hl). }
  assert (Hc2 : forall re, (if s =? 0 then pick_port g2 (range (cfg a)) (rq_proto rq) re
                 (rq_client_ip rq) (rq_now rq) draw else Some s) =
                (if s =? 0 then pick_port (cleared g rq s rc) (range (cfg a)) (rq_proto rq) re
                 (rq_client_ip rq) (rq_now rq) draw else Some s)).
  { intros re. destruct (s =? 0); [|done]. rewrite <- (pick_port_log g g3) by done.
    by rewrite Hg2, <- (same_tuple_ext g g3) by (by apply log_only_active). }
  assert (Ha2 : active g2 = active (cleared g rq s rc))
    by (rewrite Hg2; simpl; by rewrite (log_only_active _ _ Hl)).
  simpl in Hg. rewrite Hc2 in Hg. destruct Hg as [(Hr & Hch & ->)|(port & al & Hr & Hch & Hi)].
  - injection Hr as ->. rewrite Ha2.
    destruct (Z.eqb_spec s 0) as [Hs0|]; [|done].
    destruct Hso as [[_ ->]|[? _]]; [|done]. unfold cleared, dropped in *. simpl.
    rewrite app_nil_r in *. apply refused_full; [done| |by apply Hev].
    unfold choice, cleared, dropped. rewrite Hs0 in *. simpl. by rewrite app_nil_r.
  - injection Hr as ->. apply install_spec in Hi as (Hal & -> & _). rewrite Ha2.
    apply granted; [|done|done|by apply Hev|done].
    rewrite <- Hov. unfold quota_check, over_quota, held_ports. simpl.
    by rewrite (log_only_active _ _ Hl).
Qed.

Lemma request_cases a rq draw a' out :
  Inv (inner a) -> allocate_at_collecting a rq draw quiet = Some (a', out) ->
  exists g, swept (inner a) rq g /\
    request_outcome a rq draw (lapsed (inner a) rq) g
      (effective_suggestion (inner a) (rq_suggested rq) (rq_now rq))
      (active (inner a')) (out_evicted out) (out_result out).
Proof.
  intros HI H. apply allocate_shape in H as (ans & Hok & Hs); [|done].
  by apply pass_cases in Hs.
Qed.

(** ** The critical sections of a request *)

(** The table each pass of [allocate_loop] finds, after what other threads did
    ([env]), the table it leaves and how it ends. *)
Fixpoint passes (fuel : nat) a rq (draw : nat -> Z -> Z)
  (env : nat -> Inner * AllocatorCounters -> Inner * AllocatorCounters)
  g (k : AllocatorCounters) (ans : DeployerAnswers) (ev : list Allocation) : list (Inner * Inner * Step) :=
  match fuel with
  | O => []
  | S fuel' =>
      let '(h, k) := env fuel' (g, k) in
      let '(h', k, ev, step) := try_allocate a h k rq ans ev draw in
      (h, h', step) ::
      match step with
      | Done _ => []
      | Ask q => passes fuel' a rq draw env h' k (ask a q (rq_client_ip rq) ans) ev
      end
  end.

(** The passes of [allocate_at_collecting], the first of which finds the side maps
    trimmed. *)
Definition request_passes a rq (draw : nat -> Z -> Z)
  (env : nat -> Inner * AllocatorCounters -> Inner * AllocatorCounters) : list (Inner * Inner * Step) :=
  let trimmed := trim_side_maps (rq_now rq) (rate_limit_window (cfg a)) in
  let env' i gk :=
    if (i =? MAX_PASSES - 1)%nat then (trimmed (fst (env i gk)), snd (env i gk)) else env i gk in
  passes MAX_PASSES a rq draw env' (inner a) (counters a) (unasked a (rq_client_ip rq)) [].

(** The last pass leaves the table and the verdict of the request. *)
Lemma passes_last fuel a rq draw env g k ans ev g' k' out :
  allocate_loop fuel a rq draw env g k ans ev = Some (g', k', out) ->
  exists ps h, passes fuel a rq draw env g k ans ev = ps ++ [(h, g', Done (out_result out))].
Proof.
  revert g k ans ev; induction fuel as [|fuel IH]; intros g k ans ev; [done|]. simpl.
  destruct (env fuel (g, k)) as [h k0].
  destruct (try_allocate a h k0 rq ans ev draw) as [[[h' k1] ev1] [r|q]] eqn:E.
  - intros [= <- _ <-]. by exists [], h.
  - intros (ps & h2 & ->)%IH. by exists ((h, h', Ask q) :: ps), h2.
Qed.

Lemma request_passes_last a rq draw env a' out :
  allocate_at_collecting a rq draw env = Some (a', out) ->
  exists ps h, request_passes a rq draw env = ps ++ [(h, inner a', Done (out_result out))].
Proof.
  unfold allocate_at_collecting.
  destruct (allocate_loop _ _ _ _ _ _ _ _ _) as [[[g k] o]|] eqn:E; simpl; [|done].
  intros [= <- <-]. rewrite report_evicted_inner. simpl. by eapply passes_last.
Qed.

(** Every pass runs on a well-formed table, with answers of the deployer. *)
Lemma passes_ok fuel a rq draw env g k ans ev h h' st :
  (forall i gk, Inv (fst gk) -> Inv (fst (env i gk))) ->
  Inv g -> answers_ok a (rq_client_ip rq) ans ->
  (h, h', st) ∈ passes fuel a rq draw env g k ans ev ->
  Inv h /\ exists ans' ev0 ev', answers_ok a (rq_client_ip rq) ans' /\
    pass_shape a h rq ans' ev0 draw h' ev' st.
Proof.
  intros He. revert g k ans ev; induction fuel as [|fuel IH]; intros g k ans ev HI Hok; simpl.
  { by intros ?%elem_of_nil. }
  pose proof (He fuel (g, k) HI) as HI0. destruct (env fuel (g, k)) as [h0 k0]. simpl in HI0.
  destruct (try_allocate a h0 k0 rq ans ev draw) as [[[h1 k1] ev1] st1] eqn:E.
  intros [Hin|Hin]%elem_of_cons.
  - injection Hin as -> -> ->. split; [done|]. exists ans, ev, ev1. split; [done|].
    by eapply try_allocate_spec.
  - destruct st1 as [r|q]; [by apply elem_of_nil in Hin|].
    eapply IH; [|by apply ask_ok|exact Hin]. by eapply try_allocate_inv.
Qed.

Lemma request_passes_ok a rq draw env h h' st :
  Inv (inner a) -> env_steps env -> (h, h', st) ∈ request_passes a rq draw env ->
  Inv h /\ exists ans ev ev', answers_ok a (rq_client_ip rq) ans /\
    pass_shape a h rq ans ev draw h' ev' st.
Proof.
  intros HI He. apply passes_ok; [|done|apply unasked_ok]. intros i gk Hi.
  assert (Hs : Inv (fst (env i gk))).
  { specialize (He i gk). induction He as [|x y z Hxy _ IH]; [done|]. by eapply IH, table_step_inv. }
  destruct (i =? MAX_PASSES - 1)%nat; [by apply trim_side_maps_inv|done].
Qed.

(** A pass that stops to ask the deployer has only swept. *)
Lemma pass_shape_asks a h rq ans ev draw g' ev' q :
  pass_shape a h rq ans ev draw g' ev' (Ask q) ->
  active g' = live_entries (rq_now rq) (active h).
Proof.
  intros (g & Ha & _ & _ & _ & Hs). simpl in Hs.
  destruct Hs as [(Hl & _)|(g3 & k3 & k' & tn & bud & rc & _ & _ & _ & _ & Hg)].
  - by rewrite (log_only_active _ _ Hl).
  - by apply grant_no_ask in Hg.
Qed.

(** The slot a grant installs into is empty. *)
Lemma granted_slot_free a rq draw g s reclaim port :
  (s = 0 /\ reclaim = false \/ s <> 0 /\ may_take a g rq s reclaim) ->
  choice a g rq s reclaim draw = Some port ->
  active (cleared g rq s reclaim) !! (port, rq_proto rq) = None.
Proof.
  intros Hs. unfold choice. destruct (Z.eqb_spec s 0) as [->|Hs0].
  - intros [(_ & _ & _ & Hf & _)|He]%pick_port_spec; [done|].
    by apply port_eligible_free in He as [Hf _].
  - intros [= <-]. destruct Hs as [[? _]|(_ & _ & Hm)]; [done|].
    apply eq_None_not_Some. intros [e [He Hnd]%without_lookup]. apply Hnd.
    unfold dropped. apply elem_of_app. destruct reclaim.
    + right. destruct (rq_proto rq); [by left|right; by left].
    + left. apply same_tuple_elem. exists e. destruct Hm as [_ Hm]. specialize (Hm e He). tauto.
Qed.

(** Every slot a grant empties is the request's own, or a leg of the suggested
    port reclaimed from a departed address. *)
Lemma dropped_elem a g rq s reclaim key al :
  Inv g -> (s = 0 /\ reclaim = false \/ s <> 0 /\ may_take a g rq s reclaim) ->
  key ∈ dropped (same_tuple g rq) s reclaim -> active g !! key = Some al ->
  internal_ip al = rq_client_ip rq \/
  (s <> 0 /\ fst key = s /\ live_of a (internal_ip al) = false /\
   internal_ip al ∈ tenant_of a (rq_client_ip rq)).
Proof.
  intros HI Hs Hin Hk. unfold dropped in Hin. apply elem_of_app in Hin as [Hin|Hin].
  { apply same_tuple_elem in Hin as (al' & H & _ & Hip & _). left. congruence. }
  right. destruct reclaim; [|by apply elem_of_nil in Hin].
  destruct Hs as [[_ ?]|(Hs0 & _ & holder & Ho & _ & Hl & Ht)]; [done|].
  assert (Hf : fst key = s)
    by (apply elem_of_cons in Hin as [->|Hin]; [done|]; by apply list_elem_of_singleton in Hin as ->).
  destruct key as [p pr]. simpl in Hf. subst p.
  pose proof (port_owner_leg g s pr al HI Hk) as Ho'. rewrite Ho in Ho'. by injection Ho' as ->.
Qed.

(** A request that empties [slots] after the sweep accounts for every mapping it
    removed, and for nothing else. *)
Lemma evicts_account h rq g slots ev :
  active g = live_entries (rq_now rq) (active h) ->
  evicts g slots (lapsed h rq) ev ->
  (forall key al, active h !! key = Some al ->
     without slots (active g) !! key = Some al \/ al ∈ ev) /\
  (forall al, al ∈ ev -> exists key, active h !! key = Some al).
Proof.
  intros Ha (removed & -> & Hrem).
  assert (Hlapsed : forall al, al ∈ lapsed h rq <->
    exists key, active h !! key = Some al /\ expires_at al <= rq_now rq).
  { intros al. unfold lapsed. rewrite list_elem_of_fmap. setoid_rewrite <- expired_entries_elem.
    split; [intros ([k x] & -> & H); eauto|intros (k & H); by exists (k, al)]. }
  assert (Hlive : forall key al, active g !! key = Some al <->
    active h !! key = Some al /\ rq_now rq < expires_at al)
    by (intros; by rewrite Ha, live_entries_lookup).
  split.
  - intros key al Hk. rewrite elem_of_app, Hrem, without_lookup, Hlapsed, Hlive.
    destruct (Z.le_gt_cases (expires_at al) (rq_now rq)); [eauto|].
    destruct (decide (key ∈ slots)); [|left; split; [split; [done|lia]|done]].
    right; right. exists key. rewrite Hlive. split; [done|split; [done|lia]].
  - intros al [H|H]%elem_of_app; [apply Hlapsed in H as (key & H & _); eauto|].
    apply Hrem in H as (key & _ & H). apply Hlive in H as [H _]. eauto.
Qed.

Lemma in_cooldown_ineligible g p c now r d :
  cooldown_until g !! p = Some d -> now < d ->
  (forall tn ip e, r = Some tn -> last_user_per_port g !! p = Some (ip, e) -> now < e -> ip ∉ tn) ->
  port_eligible g p c now r = false.
Proof.
  intros Hd Hlt Hr. unfold port_eligible. rewrite Hd.
  destruct (_ || _); [done|]. destruct (quarantined _ _ _); [done|].
  destruct (Z.leb_spec d now) as [|_]; [lia|].
  destruct r as [tn|], (last_user_per_port g !! p) as [[ip e]|] eqn:El; try done.
  destruct (Z.ltb_spec now e); [|by rewrite andb_false_r].
  rewrite bool_decide_false; [done|eauto].
Qed.

(** ** Counting the ports of a tenant *)

Lemma held_ports_elem g tn p :
  p ∈ held_ports g tn <-> exists pr al, active g !! (p, pr) = Some al /\ internal_ip al ∈ tn.
Proof.
  unfold held_ports. rewrite elem_of_map. split.
  - intros ([q pr] & -> & [al H]%elem_of_dom). apply map_lookup_filter_Some in H as [H Hin]. eauto.
  - intros (pr & al & H & Hin). exists (p, pr). split; [done|]. apply elem_of_dom.
    exists al. by apply map_lookup_filter_Some.
Qed.

Lemma tenant_of_self a c : c ∈ tenant_of a c.
Proof. unfold tenant_of, ask_tenant. destruct (quota_peers a); set_solver. Qed.

(** The port a refresh dropped is one of the request's own. *)
Lemma previously_held_elem g rq p :
  previously_held g (same_tuple g rq) = Some p -> (p, rq_proto rq) ∈ same_tuple g rq.
Proof.
  unfold previously_held. intros Hp. apply last_Some_elem_of in Hp.
  apply list_elem_of_fmap in Hp as ([q pr] & -> & Hin).
  apply list_elem_of_filter in Hin as [_ Hin]. pose proof Hin as (al & _ & Hpr & _)%same_tuple_elem.
  simpl in *. by subst pr.
Qed.

(** A renewal without a suggestion keeps its port while it still holds the other
    leg of it. *)
Lemma pick_port_keeps g rg pr reuse c now draw :
  reuse <> 0 -> port_in_range reuse rg = true -> active g !! (reuse, pr) = None ->
  port_owner g reuse = Some c -> pick_port g rg pr reuse c now draw = Some reuse.
Proof.
  intros Hr Hin Hf Ho. unfold pick_port. apply Z.eqb_neq in Hr. rewrite Hr, Hin, Hf, Ho.
  rewrite bool_decide_false by (by intros [? ?]). by rewrite bool_decide_true by done.
Qed.

(** With the quota check passed, the tenant's ports plus the granted one fit the
    budget or the ports it already held. *)
Lemma quota_arith (held1 held0 held' : gset Z) port bud :
  held1 ⊆ held0 -> held' ⊆ held1 ∪ {[port]} ->
  (port ∈ held0 \/ Z.of_nat (size held1) < bud \/
   exists p, p ∈ held0 /\ p ∉ held1) ->
  Z.of_nat (size held') <= Z.max bud (Z.of_nat (size held0)).
Proof.
  intros H10 H'1 Hc. pose proof (subseteq_size _ _ H'1) as Hs.
  pose proof (size_union_alt held1 {[port]}) as Hu.
  assert (Hone : (size ({[port]} ∖ held1) <= 1)%nat).
  { transitivity (size ({[port]} : gset Z)); [apply subseteq_size; set_solver|].
    by rewrite size_singleton. }
  destruct Hc as [Hin|[Hlt|(p & Hp0 & Hp1)]].
  - assert (Hsub : held' ⊆ held0) by set_solver. apply subseteq_size in Hsub. lia.
  - lia.
  - assert (Hsub : held1 ∪ {[p]} ⊆ held0) by set_solver. apply subseteq_size in Hsub.
    rewrite size_union, size_singleton in Hsub by set_solver.
    lia.
Qed.

(** Why a granted port does not break the quota. *)
Lemma granted_within_quota a rq draw g s rc port :
  (forall key bl, active g !! key = Some bl -> port_in_range (fst key) (range (cfg a)) = true) ->
  0 < fst (range (cfg a)) -> Inv g -> quota_check a g rq s = false ->
  (s = 0 /\ rc = false \/ s <> 0 /\ may_take a g rq s rc) ->
  choice a g rq s rc draw = Some port ->
  let tn := tenant_of a (rq_client_ip rq) in
  let g1 := set_active (without (same_tuple g rq) (active g)) g in
  port ∈ held_ports g tn \/
  Z.of_nat (size (held_ports g1 tn)) < budget_of a (rq_client_ip rq) \/
  exists p, p ∈ held_ports g tn /\ p ∉ held_ports g1 tn.
Proof.
  intros Hrange Hlo HI Hq Hs Hc tn g1. unfold quota_check, over_quota in Hq. fold g1 tn in Hq.
  apply andb_false_iff in Hq as [Hq|Hq].
  2:{ right. left. apply Z.leb_gt in Hq. lia. }
  apply negb_false_iff in Hq.
  assert (Hprev : forall p, previously_held g (same_tuple g rq) = Some p -> p ∈ held_ports g tn).
  { intros p Hp%previously_held_elem. apply same_tuple_elem in Hp as (al & Hl & _ & Hip & _).
    apply held_ports_elem. exists (rq_proto rq), al. rewrite Hip. split; [done|apply tenant_of_self]. }
  unfold choice in Hc. destruct (Z.eqb_spec s 0) as [Hs0|Hs0].
  - apply bool_decide_eq_true in Hq as [p Hp]. destruct Hs as [[_ ->]|[? _]]; [|done].
    destruct (decide (p ∈ held_ports g1 tn)) as [Hin|Hin]; [left|right; right; eauto].
    replace port with p; [eauto|]. rewrite Hp in Hc. simpl in Hc.
    apply previously_held_elem in Hp. pose proof Hp as (al & Hl & _ & Hip & _)%same_tuple_elem.
    assert (Hcl : active (cleared g rq s false) = active g1)
      by (unfold cleared, dropped; simpl; by rewrite app_nil_r).
    assert (Hpr : port_in_range p (range (cfg a)) = true) by (by apply (Hrange _ _ Hl)).
    rewrite pick_port_keeps in Hc; [congruence| |done| |].
    + apply port_in_range_iff in Hpr. lia.
    + rewrite Hcl. apply eq_None_not_Some. by intros [? [_ ?]%without_lookup].
    + rewrite (port_owner_ext g1) by done.
      apply held_ports_elem in Hin as (pr & bl & Hb & _).
      rewrite (port_owner_leg g1 p pr bl (inv_without _ _ HI) Hb).
      apply without_lookup in Hb as [Hb _].
      pose proof (port_owner_leg g p pr bl HI Hb) as Ho1.
      pose proof (port_owner_leg g p _ al HI Hl) as Ho2. congruence.
  - left. injection Hc as <-. apply orb_true_iff in Hq as [Hq|Hq]; apply bool_decide_eq_true in Hq.
    + apply held_ports_elem in Hq as (pr & bl & [H _]%without_lookup & Hin).
      apply held_ports_elem. eauto.
    + eauto.
Qed.

(** ** The guarantees *)

(** Complete evictions: every mapping a request removes, on every path and
    verdict, is in the eviction list its caller tears the rules down from; the
    list holds nothing that was not in the table; and the only mapping a request
    adds is the one it grants. *)
Theorem evictions_complete a a' rq draw out :
  Inv (inner a) -> allocate_at_collecting a rq draw quiet = Some (a', out) ->
  (forall key al, active (inner a) !! key = Some al ->
     active (inner a') !! key = Some al \/ al ∈ out_evicted out) /\
  (forall al, al ∈ out_evicted out -> exists key, active (inner a) !! key = Some al) /\
  (forall key al, active (inner a') !! key = Some al ->
     active (inner a) !! key = Some al \/ out_result out = Ok al).
Proof.
  intros Hinv Hrun.
  destruct (request_cases _ _ _ _ _ Hinv Hrun) as (g & [Ha _ HI _] & Ho).
  assert (Hslots : forall slots ev, evicts g slots (lapsed (inner a) rq) ev -> _)
    by (intros slots ev; apply evicts_account, Ha).
  assert (Hsub : forall slots key al, without slots (active g) !! key = Some al ->
    active (inner a) !! key = Some al).
  { intros slots key al [H _]%without_lookup. rewrite Ha in H.
    by apply live_entries_lookup in H as [? _]. }
  destruct Ho as [e He|ev Hq Hev|ev Hs Hc Hev|reclaim port n ev Hq Hs Hc Hev Hn].
  - assert (Hev : evicts g [] (lapsed (inner a) rq) (lapsed (inner a) rq)).
    { exists []. rewrite app_nil_r. split; [done|]. intros al.
      split; [by intros ?%elem_of_nil|by intros (? & ?%elem_of_nil & _)]. }
    apply Hslots in Hev as [H1 H2]. rewrite without_nil in H1.
    split; [done|]. split; [done|]. intros key al H. left. apply (Hsub [] key). by rewrite without_nil.
  - apply Hslots in Hev as [H1 H2]. split; [done|]. split; [done|]. intros key al H. left. eauto.
  - apply Hslots in Hev as [H1 H2]. split; [done|]. split; [done|]. intros key al H. left. eauto.
  - apply Hslots in Hev as [H1 H2]. split; [|split; [done|]].
    + intros key al Hk. destruct (H1 key al Hk) as [H|?]; [|by right].
      left. rewrite lookup_insert_ne; [done|]. intros <-.
      pose proof (granted_slot_free _ _ _ _ _ _ _ Hs Hc) as Hf. simpl in Hf. congruence.
    + intros key al [[_ <-]|[_ H]]%lookup_insert_Some; [by right|left]. by apply Hsub in H.
Qed.

(** What one critical section does to a running mapping of another client. *)
Lemma pass_keeps a h rq draw ans ev h' ev' st key al :
  answers_ok a (rq_client_ip rq) ans -> pass_shape a h rq ans ev draw h' ev' st ->
  active h !! key = Some al -> rq_now rq < expires_at al -> internal_ip al <> rq_client_ip rq ->
  active h' !! key = Some al \/
  (fst key = rq_suggested rq /\ live_of a (internal_ip al) = false /\
   internal_ip al ∈ tenant_of a (rq_client_ip rq) /\
   exists n, st = Done (Ok n) /\ external_port n = fst key).
Proof.
  intros Hans Hsh Hk Hlive Hip. destruct st as [r|q].
  2:{ left. rewrite (pass_shape_asks _ _ _ _ _ _ _ _ _ Hsh). by apply live_entries_lookup. }
  apply pass_cases in Hsh as (g & [Ha _ HI _] & Ho); [|done].
  assert (Hg : active g !! key = Some al) by (rewrite Ha; by apply live_entries_lookup).
  assert (Htup : key ∉ same_tuple g rq).
  { intros (al' & H & _ & ? & _)%same_tuple_elem. congruence. }
  set (s := effective_suggestion h (rq_suggested rq) (rq_now rq)) in *.
  destruct Ho as [e He|ev2 Hq Hev|ev2 Hs Hc Hev|reclaim port n ev2 Hq Hs Hc Hev Hn];
    [by left|left; by apply without_lookup..|].
  pose proof (granted_slot_free _ _ _ _ _ _ _ Hs Hc) as Hfree.
  destruct (decide (key ∈ dropped (same_tuple g rq) s reclaim)) as [Hd|Hd].
  - destruct (dropped_elem _ _ _ _ _ _ _ HI Hs Hd Hg) as [?|(Hs0 & Hf & Hl & Ht)]; [done|].
    right. unfold choice in Hc. subst s. unfold effective_suggestion in *.
    destruct (quarantined _ _ _); [done|]. apply Z.eqb_neq in Hs0. rewrite Hs0 in Hc.
    injection Hc as <-. rewrite Hn. repeat (split; [done|]). eexists. split; [done|done].
  - left. assert (Hcl : active (cleared g rq s reclaim) !! key = Some al) by (by apply without_lookup).
    rewrite lookup_insert_ne; [done|]. intros <-. congruence.
Qed.

(** C14.  No theft: whatever other threads do between the critical sections of a
    request, each of them leaves every running mapping of another client that it
    finds in the table as it is, with one exception: the last one, granting the
    suggested port, takes it from an address whose session the deployer said, when
    asked about that very address, has departed and that it counts to the client's
    tenant.  The last critical section leaves the table and the verdict of the
    request. *)
Theorem no_theft a rq draw env a' out :
  Inv (inner a) -> env_steps env ->
  allocate_at_collecting a rq draw env = Some (a', out) ->
  (exists ps h, request_passes a rq draw env = ps ++ [(h, inner a', Done (out_result out))]) /\
  forall h h' st key al,
    (h, h', st) ∈ request_passes a rq draw env ->
    active h !! key = Some al -> rq_now rq < expires_at al ->
    internal_ip al <> rq_client_ip rq ->
    active h' !! key = Some al \/
    (fst key = rq_suggested rq /\ live_of a (internal_ip al) = false /\
     internal_ip al ∈ tenant_of a (rq_client_ip rq) /\
     exists n, st = Done (Ok n) /\ external_port n = fst key).
Proof.
  intros HI He Hrun. split; [by apply request_passes_last|]. intros h h' st key al Hin.
  apply request_passes_ok in Hin as (_ & ans & ev & ev' & Hok & Hs); [|done..].
  by eapply pass_keeps.
Qed.

(** C31.  The quota is a bound: whatever other threads do meanwhile, after the
    critical section that grants a request the client's tenant holds at most its
    budget of ports, or no more than it held in the table this section found when
    its budget has shrunk below that.  The range must not contain port 0 and every
    mapping of that table must be on a port of the range, which is so unless
    mappings of a former range were restored ([renewal_over_budget]). *)
Theorem quota_respected a rq draw env h h' al :
  Inv (inner a) -> env_steps env -> 0 < fst (range (cfg a)) ->
  (h, h', Done (Ok al)) ∈ request_passes a rq draw env ->
  (forall key bl, active h !! key = Some bl -> port_in_range (fst key) (range (cfg a)) = true) ->
  let tn := tenant_of a (rq_client_ip rq) in
  let running := set_active (live_entries (rq_now rq) (active h)) h in
  Z.of_nat (size (held_ports h' tn)) <=
  Z.max (budget_of a (rq_client_ip rq)) (Z.of_nat (size (held_ports running tn))).
Proof.
  intros HI He Hlo Hin Hrange tn running.
  apply request_passes_ok in Hin as (_ & ans & ev & ev' & Hok & Hs); [|done..].
  apply pass_cases in Hs as (g & [Ha _ HIg _] & Ho); [|done].
  inversion Ho as [| | |rc port n ev2 Hq Hsug Hc Hev Hn Ht Hev2 Hr]. subst n.
  set (s := effective_suggestion h (rq_suggested rq) (rq_now rq)) in *.
  set (g1 := set_active (without (same_tuple g rq) (active g)) g).
  assert (H0 : held_ports running tn = held_ports g tn) by (unfold held_ports; simpl; by rewrite Ha).
  rewrite H0. apply (quota_arith (held_ports g1 tn) _ _ port).
  - intros p (pr & bl & [H _]%without_lookup & Hi)%held_ports_elem.
    apply held_ports_elem. eauto.
  - intros p (pr & bl & H & Hi)%held_ports_elem. rewrite <- Ht in H. apply elem_of_union.
    apply lookup_insert_Some in H as [[[= <- <-] _]|[_ H]]; [right; by apply elem_of_singleton|].
    left. apply held_ports_elem. exists pr, bl. split; [|done].
    apply without_lookup in H as [H Hnd]. apply without_lookup. split; [done|].
    intros Hi2. apply Hnd. unfold dropped. apply elem_of_app. by left.
  - eapply granted_within_quota; try done.
    intros key bl H. rewrite Ha in H. apply live_entries_lookup in H as [H _]. eauto.
Qed.

Section guarantees.
Context (a a' : Allocator) (rq : MapRequest) (draw : nat -> Z -> Z) (out : AllocateOutcome).
Hypothesis Hinv : Inv (inner a).
Hypothesis Hrun : allocate_at_collecting a rq draw quiet = Some (a', out).

(** A granted request installs exactly what was asked: the client's tuple with
    the clamped lifetime, on a port of the configured range, as the only mapping
    of that tuple, and on the suggested port whenever the client named one that is
    not under an abuse quarantine. *)
Theorem grant_honours_request al :
  draw_ok draw -> fst (range (cfg a)) <= snd (range (cfg a)) ->
  out_result out = Ok al ->
  al = mkAllocation (external_port al) (rq_client_ip rq) (rq_internal_port rq) (rq_proto rq)
         (rq_now rq + rq_lifetime rq) /\
  active (inner a') !! (external_port al, rq_proto rq) = Some al /\
  (forall key bl, active (inner a') !! key = Some bl -> snd key = rq_proto rq ->
     internal_ip bl = rq_client_ip rq -> internal_port bl = rq_internal_port rq -> bl = al) /\
  port_in_range (external_port al) (range (cfg a)) = true /\
  (rq_suggested rq <> 0 -> quarantined (inner a) (rq_suggested rq) (rq_now rq) = false ->
     external_port al = rq_suggested rq).
Proof.
  intros Hd Hr Hok. destruct (request_cases _ _ _ _ _ Hinv Hrun) as (g & [Ha _ HI _] & Ho).
  rewrite Hok in Ho. inversion Ho as [| | |reclaim port n ev Hq Hs Hc Hev Hn Ht He Hr']. subst n.
  rewrite Hn. simpl. split; [done|]. split; [by rewrite lookup_insert_eq|]. split; [|split].
  - intros key bl [[<- <-]|[_ H]]%lookup_insert_Some Hp Hip Hport; [done|].
    apply without_lookup in H as [H Hnd]. exfalso. apply Hnd. unfold dropped.
    apply elem_of_app. left. apply same_tuple_elem. eauto.
  - unfold choice in Hc. destruct (Z.eqb_spec (effective_suggestion (inner a) (rq_suggested rq) (rq_now rq)) 0).
    + by apply pick_port_in_range in Hc.
    + injection Hc as <-. by destruct Hs as [[? _]|(_ & ? & _)].
  - intros Hs0 Hqf. unfold choice, effective_suggestion in Hc. rewrite Hqf in Hc.
    apply Z.eqb_neq in Hs0. rewrite Hs0 in Hc. by injection Hc.
Qed.

(** A request refused by the rate limit or on its suggestion changes no
    mapping: the table it leaves is the table it found, without the leases that
    had ended. *)
Theorem refusal_changes_no_mapping e :
  out_result out = Err e ->
  match e with RateLimited _ _ | SuggestedPortInUse _ => True | _ => False end ->
  active (inner a') = live_entries (rq_now rq) (active (inner a)).
Proof.
  intros He Hk. destruct (request_cases _ _ _ _ _ Hinv Hrun) as (g & [Ha _ HI _] & Ho).
  rewrite He in Ho. by inversion Ho; subst.
Qed.

(** A quarantined port is granted to nobody: while an abuse quarantine runs on
    a port that carries no mapping, no request gets it, not even one that names it. *)
Theorem quarantine_respected al :
  (forall p pr bl, active (inner a) !! (p, pr) = Some bl ->
     quarantined (inner a) p (rq_now rq) = false) ->
  out_result out = Ok al -> quarantined (inner a) (external_port al) (rq_now rq) = false.
Proof.
  intros Hnone Hok. destruct (request_cases _ _ _ _ _ Hinv Hrun) as (g & [Ha Hqu HI _] & Ho).
  rewrite Hok in Ho. inversion Ho as [| | |reclaim port n ev Hq Hs Hc Hev Hn Ht He Hr']. subst n.
  rewrite Hn. simpl. unfold choice in Hc.
  destruct (Z.eqb_spec (effective_suggestion (inner a) (rq_suggested rq) (rq_now rq)) 0) as [|Hs0].
  - apply pick_port_spec in Hc as [(_ & _ & _ & _ & Hown)|Hel].
    + apply port_owner_Some in Hown as (pr & bl & Hl & _). apply without_lookup in Hl as [Hl _].
      rewrite Ha in Hl. apply live_entries_lookup in Hl as [Hl _]. eauto.
    + apply port_eligible_free in Hel as [_ Hel]. rewrite <- Hqu. done.
  - injection Hc as <-. unfold effective_suggestion in *. by destruct (quarantined _ _ _) eqn:E.
Qed.

(** A port in cooldown is kept from strangers: while the cooldown of a port
    without mappings runs and its last user is not of the client's tenant, the
    client is not granted it. *)
Theorem cooldown_respected p d al :
  (forall pr, active (inner a) !! (p, pr) = None) ->
  cooldown_until (inner a) !! p = Some d -> rq_now rq < d ->
  (forall ip e, last_user_per_port (inner a) !! p = Some (ip, e) -> rq_now rq < e ->
     ip ∉ tenant_of a (rq_client_ip rq)) ->
  out_result out = Ok al -> external_port al <> p.
Proof.
  intros Hfree Hd Hlt Hlast Hok Hp.
  destruct (request_cases _ _ _ _ _ Hinv Hrun) as (g & [Ha _ HI Hc] & Ho).
  destruct (proj1 Hc p d Hd Hlt) as (d' & Hd' & Hlt').
  assert (Hnel : forall g' r, cooldown_until g' = cooldown_until g ->
    last_user_per_port g' = last_user_per_port g ->
    (r = None \/ r = Some (tenant_of a (rq_client_ip rq))) ->
    port_eligible g' p (rq_client_ip rq) (rq_now rq) r = false).
  { intros g' r Hcu Hlu Hr. apply (in_cooldown_ineligible _ _ _ _ _ d'); [by rewrite Hcu|done|].
    intros tn ip e Htn Hl Hlt2. destruct Hr as [->|Hr]; [done|]. rewrite Hr in Htn. injection Htn as <-. rewrite Hlu in Hl.
    apply (proj2 Hc p Hfree) in Hl. eauto. }
  assert (Hg : forall pr, active g !! (p, pr) = None)
    by (intros pr; rewrite Ha; by apply live_entries_None).
  rewrite Hok in Ho. inversion Ho as [| | |reclaim port n ev Hq Hs Hch Hev Hn Ht He Hr']. subst n.
  rewrite Hn in Hp. simpl in Hp. rewrite Hp in Hch. unfold choice in Hch.
  assert (Hgo : port_owner g p = None) by (unfold port_owner; by rewrite !Hg).
  destruct (Z.eqb_spec (effective_suggestion (inner a) (rq_suggested rq) (rq_now rq)) 0) as [|Hs0].
  - apply pick_port_spec in Hch as [(_ & _ & _ & _ & Hown)|Hel].
    + apply port_owner_Some in Hown as (pr & bl & [Hl _]%without_lookup & _). by rewrite Hg in Hl.
    + by rewrite Hnel in Hel by auto.
  - injection Hch as Hch. rewrite Hch in Hs. destruct Hs as [[? _]|(_ & _ & Hm)]; [lia|].
    destruct reclaim; [destruct Hm as (h & Hm & _); congruence|].
    destruct Hm as [[Hm|(_ & r & Hr & Hel)] _]; [congruence|]. by rewrite Hnel in Hel by auto.
Qed.

(** A request is refused as exhausted only when no port of the range is left
    for this client: the search, random first and linear last, is complete. *)
Theorem exhausted_means_full p :
  out_result out = Err Exhausted -> port_in_range p (range (cfg a)) = true ->
  port_eligible (inner a') p (rq_client_ip rq) (rq_now rq) None = false.
Proof.
  intros He Hp. apply allocate_shape in Hrun as (ans & Hok & g & _ & _ & _ & _ & Hs); [|done].
  rewrite He in Hs. simpl in Hs.
  destruct Hs as [(_ & _ & [])|(g3 & k3 & k' & tn & bud & rc & Hl & Ht & Hb & Hso & Hg)].
  apply grant_spec in Hg as [(? & _)|(g2 & Hg2 & _ & _ & Hg)]; [done|]. simpl in Hg.
  destruct Hg as [(_ & Hch & ->)|(port & al & ? & _)]; [|done].
  destruct (_ =? 0); [|done]. by eapply pick_port_none.
Qed.

End guarantees.

(** ** The guarantees at work

    Requests to the small deployment, one second after its table was built. *)

Definition at1 : Z := from_secs 1.

(** Address 1 asks for port 101, which address 3 holds. *)
Definition rq_foreign : MapRequest := make_request 1 Tcp 80 101 3600 at1.
(** Address 1 takes port 100 back from the departed address 2 of its tenant. *)
Definition rq_departed : MapRequest := make_request 1 Tcp 80 100 3600 at1.
(** Address 1 names the quarantined port 104. *)
Definition rq_shut : MapRequest := make_request 1 Tcp 80 104 3600 at1.

(** Address 3's mapping on the port 100 that address 1 asks for. *)
Definition newcomer : Allocation := mkAllocation 100 3 81 Tcp (from_secs 3600).

(** After the first critical section another thread removes the mappings of port
    100 and gives the port to address 3, whose session is live. *)
Definition changes_hands (i : nat) (gk : Inner * AllocatorCounters) : Inner * AllocatorCounters :=
  if (i =? 2)%nat
  then (inner (fst (restore_at [newcomer] 0
          (fst (take_active_for_port_at 100 0 (with_inner (fst gk) (snd gk) small_table))))), snd gk)
  else gk.

Lemma changes_hands_steps : env_steps changes_hands.
Proof.
  intros i gk. unfold changes_hands. destruct (i =? 2)%nat; [|done]. simpl fst at 2.
  eapply rtc_l; [|apply rtc_once, step_restore]. eapply (step_locked 0).
  exact (step_take_port 0 (with_inner (fst gk) (snd gk) small_table) 100).
Qed.

(** The departed address 2 is asked about, address 3 has the port by the time of the
    answer and keeps it. *)
Lemma no_theft_witness :
  exists a' out h h' st,
    allocate_at_collecting small_table rq_departed small_draw changes_hands = Some (a', out) /\
    request_passes small_table rq_departed small_draw changes_hands !! 1%nat = Some (h, h', st) /\
    active h !! (100, Tcp) = Some newcomer /\ active h' !! (100, Tcp) = Some newcomer.
Proof.
  destruct (allocate_runs small_table rq_departed small_draw changes_hands) as (a' & out & Hrun).
  destruct (request_passes small_table rq_departed small_draw changes_hands !! 1%nat)
    as [[[h h'] st]|] eqn:E; [|vm_compute in E; discriminate].
  exists a', out, h, h', st. split; [exact Hrun|]. split; [reflexivity|].
  assert (Hh : active h !! (100, Tcp) = Some newcomer)
    by (vm_compute in E; injection E as <- _ _; vm_compute; reflexivity).
  split; [exact Hh|].
  destruct (proj2 (no_theft _ _ _ _ _ _ small_table_inv changes_hands_steps Hrun) h h' st (100, Tcp) newcomer
              (list_elem_of_lookup_2 _ _ _ E) Hh) as [H|(_ & H & _)];
    [reflexivity|discriminate|exact H|vm_compute in H; discriminate].
Defined.

Lemma evictions_complete_witness :
  exists al, active (inner small_table) !! (100, Udp) = Some al /\
    (active (inner (fst (served small_table rq_departed))) !! (100, Udp) = Some al \/
     al ∈ out_evicted (snd (served small_table rq_departed))).
Proof.
  eexists. split; [vm_compute; reflexivity|].
  apply (proj1 (evictions_complete _ _ _ _ _ small_table_inv (served_run small_table rq_departed))).
  vm_compute. reflexivity.
Defined.

Lemma grant_honours_request_witness :
  exists al, out_result (snd (served small_table rq_departed)) = Ok al /\ external_port al = 100.
Proof.
  eexists. split; [vm_compute; reflexivity|].
  refine (proj2 (proj2 (proj2 (proj2 (grant_honours_request _ _ _ _ _ small_table_inv
    (served_run small_table rq_departed) _ small_draw_ok _ _)))) _ _);
    vm_compute; congruence.
Defined.

Lemma refusal_changes_no_mapping_witness :
  out_result (snd (served small_table rq_foreign)) = Err (SuggestedPortInUse 101) /\
  active (inner (fst (served small_table rq_foreign)))
    = live_entries at1 (active (inner small_table)).
Proof.
  split; [vm_compute; reflexivity|].
  refine (refusal_changes_no_mapping _ _ _ _ _ small_table_inv (served_run small_table rq_foreign)
            (SuggestedPortInUse 101) _ I).
  vm_compute. reflexivity.
Defined.

Lemma quarantine_respected_witness :
  exists al, out_result (snd (served small_table rq_shut)) = Ok al /\
    quarantined (inner small_table) (external_port al) at1 = false.
Proof.
  eexists. split; [vm_compute; reflexivity|].
  refine (quarantine_respected _ _ _ _ _ small_table_inv (served_run small_table rq_shut) _ _ _);
    [|vm_compute; reflexivity].
  intros p pr bl H. destruct (decide (p = 104)) as [->|Hne].
  - exfalso. revert H. destruct pr; vm_compute; discriminate.
  - unfold quarantined.
    replace (abuse_quarantine_until (inner small_table)) with ({[104 := from_secs 3600]} : gmap Z Z)
      by (vm_compute; reflexivity).
    by rewrite lookup_singleton_ne by congruence.
Defined.

(** Port 101 after its holder, address 3, released it. *)
Definition small_released : Allocator :=
  fst (release_by_client_at 3 80 Tcp at1 small_table).

Lemma small_released_inv : Inv (inner small_released).
Proof. eapply locked_step_inv; [apply (step_release_by_client at1)|apply small_table_inv]. Qed.

Definition rq_any : MapRequest := make_request 5 Tcp 80 0 3600 at1.

Lemma cooldown_respected_witness :
  exists al, out_result (snd (served small_released rq_any)) = Ok al /\ external_port al <> 101.
Proof.
  eexists. split; [vm_compute; reflexivity|].
  refine (cooldown_respected _ _ _ _ _ small_released_inv (served_run small_released rq_any)
            101 (from_secs 301) _ _ _ _ _ _).
  - intros []; vm_compute; reflexivity.
  - vm_compute; reflexivity.
  - vm_compute; reflexivity.
  - intros ip e H _. replace ip with 3 by (vm_compute in H; congruence).
    by apply (bool_decide_unpack _); vm_compute.
  - vm_compute; reflexivity.
Defined.

(** A deployment of one port, taken. *)
Definition one_port : Allocator :=
  mkAllocator empty_inner (mkConfig (100, 100) (from_secs 300) 12 (from_secs 60) 2)
    None None None None zero_counters.

Definition one_port_full : Allocator := fst (served one_port (make_request 3 Tcp 80 100 3600 0)).

Lemma exhausted_means_full_witness :
  out_result (snd (served one_port_full rq_any)) = Err Exhausted /\
  port_eligible (inner (fst (served one_port_full rq_any))) 100 5 at1 None = false.
Proof.
  split; [vm_compute; reflexivity|].
  refine (exhausted_means_full _ _ _ _ _ (served_inv one_port _ inv_empty)
            (served_run one_port_full rq_any) 100 _ _); vm_compute; reflexivity.
Defined.

Lemma quota_respected_witness :
  exists h h' al,
    (h, h', Done (Ok al)) ∈ request_passes small_table rq_shut small_draw busy /\
    Z.of_nat (size (held_ports h' (tenant_of small_table 1)))
    <= Z.max 2 (Z.of_nat (size (held_ports (set_active (live_entries at1 (active h)) h)
         (tenant_of small_table 1)))).
Proof.
  destruct (last (request_passes small_table rq_shut small_draw busy))
    as [[[h h'] [[al|e]|q]]|] eqn:E; [|vm_compute in E; discriminate..].
  exists h, h', al.
  assert (Hin : (h, h', Done (Ok al)) ∈ request_passes small_table rq_shut small_draw busy)
    by (by apply last_Some_elem_of).
  split; [exact Hin|].
  refine (quota_respected _ _ _ _ _ _ _ small_table_inv busy_steps _ Hin _); [vm_compute; reflexivity|].
  intros key bl H.
  assert (Hall : map_Forall (fun key (_ : Allocation) =>
    port_in_range (fst key) (range (cfg small_table)) = true) (active h))
    by (vm_compute in E; injection E as <- _ _; apply (bool_decide_unpack _); vm_compute; exact I).
  exact (Hall key bl H).
Defined.

(** ** Where the allocator falls short of its comments

    Address 4 of the small deployment holds a TCP and a UDP leg on port 100. *)

Definition pair_on_100 : Allocator :=
  let a := fst (served small_deployment (make_request 4 Tcp 80 100 3600 0)) in
  fst (served a (make_request 4 Udp 80 100 3600 0)).

(** Releasing one leg arms the cooldown of the whole port, so that a renewal of the
    other leg without a suggestion is moved to another port although the lease
    was running and nobody else wanted the port. *)
Theorem renewal_hops_after_sibling_release :
  let a := fst (release_by_client_at 4 80 Udp (from_secs 1) pair_on_100) in
  let renewal := served a (make_request 4 Tcp 80 0 3600 (from_secs 2)) in
  (external_port <$> active (inner a) !! (100, Tcp)) = Some 100 /\
  match out_result (snd renewal) with Ok al => external_port al <> 100 | Err _ => False end.
Proof. vm_compute. split; [reflexivity|discriminate]. Qed.

(** A request to move a leg to another port that is refused for quota has already
    removed the client's running mapping. *)
Theorem quota_refusal_drops_mapping :
  let a := fst (served pair_on_100 (make_request 4 Tcp 81 0 3600 0)) in
  let move := served a (make_request 4 Tcp 80 103 3600 at1) in
  out_result (snd move) = Err (QuotaExceeded 4) /\
  is_Some (active (inner a) !! (100, Tcp)) /\
  active (inner (fst move)) !! (100, Tcp) = None.
Proof. vm_compute. split; [reflexivity|]. split; [eexists; reflexivity|reflexivity]. Qed.

(** A deployment with a budget of one port, after a restart with another range:
    the pair of address 4 on port 200 was restored. *)
Definition moved_range : Allocator :=
  let saved pr := mkAllocation 200 4 80 pr (from_secs 3600) in
  fst (restore_at [saved Tcp; saved Udp] 0
    (mkAllocator empty_inner (mkConfig (100, 105) (from_secs 300) 12 (from_secs 60) 1)
       None None None None zero_counters)).

(** A renewal of one leg of a restored pair outside the range is moved into the
    range, and its tenant holds one port more than its budget. *)
Theorem renewal_over_budget :
  let renewal := served moved_range (make_request 4 Tcp 80 0 3600 at1) in
  match out_result (snd renewal) with Ok al => external_port al <> 200 | Err _ => False end /\
  budget_of moved_range 4 = 1 /\
  size (held_ports (inner moved_range) (tenant_of moved_range 4)) = 1%nat /\
  size (held_ports (inner (fst renewal)) (tenant_of moved_range 4)) = 2%nat.
Proof. vm_compute. repeat (split; [discriminate||reflexivity|]). reflexivity. Qed.
