(* ===== verification/NatPmpBackend.v ===== *)
(** The nftables backend of NAT-PMP ([crates/warrenguard-natpmp-server/src/nftables.rs]): the
    scripts it writes and the operations that keep the kernel's forwarding maps in step with the
    allocator's table.

    The executor that runs the scripts ([nft]) is a class with its documented behaviour: a script
    that reports success has had its effect on its element, a script that reports a failure may or may not have
    had it, and neither touches another element.  A backend operation runs under the backend's
    lock; the deployer's own takes from the allocator do not, and come between two operations or
    between two passes of a request. *)

From stdpp Require Import strings.
From S2P Require Import Prelude CoreText NatPmpAllocator NatPmpTable NatPmpPass NatPmpRequest NatPmpSystem.
Import NatPmpAllocator.
#[local] Open Scope Z_scope.

(** ** Scripts *)

Definition text (s : string) : list Z := bytes_of_string s.

Definition DEFAULT_TABLE : list Z := text "warren".
Definition DEFAULT_CHAIN : list Z := text "prerouting_natpmp".
Definition MAP_TCP : list Z := text "natpmp_tcp_dnat".
Definition MAP_UDP : list Z := text "natpmp_udp_dnat".

Definition map_name (pr : Proto) : list Z := match pr with Tcp => MAP_TCP | Udp => MAP_UDP end.

(** A [u16] and an [Ipv4Addr], displayed. *)
Definition show_u16 (n : Z) : list Z := decimal 5 n.
Definition show_ipv4 (ip : Z) : list Z :=
  decimal 3 (Z.land (Z.shiftr ip 24) 255) ++ [46] ++ decimal 3 (Z.land (Z.shiftr ip 16) 255) ++ [46] ++
  decimal 3 (Z.land (Z.shiftr ip 8) 255) ++ [46] ++ decimal 3 (Z.land ip 255).

Definition newline : list Z := [10].

Definition render_setup_script (table chain : list Z) (pfwd_daddr : option Z) : list Z :=
  let daddr_match := from_option (fun ip => text "ip daddr " ++ show_ipv4 ip ++ text " ") [] pfwd_daddr in
  text "add table inet " ++ table ++ newline ++
  text "delete table inet " ++ table ++ newline ++
  text "add table inet " ++ table ++ newline ++
  text "add map inet " ++ table ++ text " " ++ MAP_TCP ++ text " { type inet_service : ipv4_addr . inet_service ; }" ++ newline ++
  text "add map inet " ++ table ++ text " " ++ MAP_UDP ++ text " { type inet_service : ipv4_addr . inet_service ; }" ++ newline ++
  text "add chain inet " ++ table ++ text " " ++ chain ++ text " { type nat hook prerouting priority dstnat ; }" ++ newline ++
  text "add rule inet " ++ table ++ text " " ++ chain ++ text " " ++ daddr_match ++
    text "meta l4proto tcp dnat ip to tcp dport map @" ++ MAP_TCP ++ newline ++
  text "add rule inet " ++ table ++ text " " ++ chain ++ text " " ++ daddr_match ++
    text "meta l4proto udp dnat ip to udp dport map @" ++ MAP_UDP ++ newline.

Definition DEFAULT_PORTFAIL_GUARD_CHAIN : list Z := text "warren_portfail_guard".
Definition DEFAULT_CLIENT_REAL_IPS_SET : list Z := text "warren_client_real_ips".

Definition render_portfail_guard_setup (table guard_chain set_name pool_cidr : list Z) : list Z :=
  text "add set inet " ++ table ++ text " " ++ set_name ++ text " { type ipv4_addr ; }" ++ newline ++
  text "add chain inet " ++ table ++ text " " ++ guard_chain ++
    text " { type filter hook forward priority -10 ; policy accept ; }" ++ newline ++
  text "add rule inet " ++ table ++ text " " ++ guard_chain ++ text " ct state established,related accept" ++ newline ++
  text "add rule inet " ++ table ++ text " " ++ guard_chain ++ text " ip saddr @" ++ set_name ++
    text " ip daddr " ++ pool_cidr ++ text " drop" ++ newline.

Definition DEFAULT_HAIRPIN_SNAT_CHAIN : list Z := text "warren_hairpin_snat".

Definition render_hairpin_snat_setup (table chain pool_cidr tun_name : list Z) : list Z :=
  text "add chain inet " ++ table ++ text " " ++ chain ++
    text " { type nat hook postrouting priority srcnat ; policy accept ; }" ++ newline ++
  text "add rule inet " ++ table ++ text " " ++ chain ++ text " ip saddr " ++ pool_cidr ++
    text " oifname " ++ [34] ++ tun_name ++ [34] ++ text " masquerade" ++ newline.

Definition render_sync_client_ips (table set_name : list Z) (ips : list Z) : list Z :=
  text "flush set inet " ++ table ++ text " " ++ set_name ++ newline ++
  (ips ≫= fun ip => text "add element inet " ++ table ++ text " " ++ set_name ++ text " { " ++ show_ipv4 ip ++ text " }" ++ newline).

Definition render_add_element (table : list Z) (pr : Proto) (external_port internal_ip internal_port : Z) : list Z :=
  text "add element inet " ++ table ++ text " " ++ map_name pr ++ text " { " ++ show_u16 external_port ++ text " : " ++
  show_ipv4 internal_ip ++ text " . " ++ show_u16 internal_port ++ text " }".

Definition render_delete_element (table : list Z) (pr : Proto) (external_port : Z) : list Z :=
  text "delete element inet " ++ table ++ text " " ++ map_name pr ++ text " { " ++ show_u16 external_port ++ text " }".

Record PortFailGuard := mkGuard { guard_chain : list Z; guard_set : list Z; guard_pool_cidr : list Z }.
Definition guard_new (pool_cidr : list Z) : PortFailGuard :=
  mkGuard DEFAULT_PORTFAIL_GUARD_CHAIN DEFAULT_CLIENT_REAL_IPS_SET pool_cidr.

Record HairpinSnat := mkHairpin { hairpin_chain : list Z; hairpin_pool_cidr : list Z; tun_name : list Z }.
Definition hairpin_new (pool_cidr tun : list Z) : HairpinSnat := mkHairpin DEFAULT_HAIRPIN_SNAT_CHAIN pool_cidr tun.

(** The scripts of the backend, with the texts they are written as. *)
Inductive Script :=
| Setup (table chain : list Z) (pfwd_ip : option Z) (guard : option PortFailGuard) (hairpin : option HairpinSnat)
| SyncIps (table set : list Z) (ips : list Z)
| AddElement (table : list Z) (pr : Proto) (external_port internal_ip internal_port : Z)
| DeleteElement (table : list Z) (pr : Proto) (external_port : Z).

Definition render (s : Script) : list Z :=
  match s with
  | Setup table chain pfwd guard hairpin =>
      render_setup_script table chain pfwd ++
      from_option (fun g => render_portfail_guard_setup table (guard_chain g) (guard_set g) (guard_pool_cidr g)) [] guard ++
      from_option (fun h => render_hairpin_snat_setup table (hairpin_chain h) (hairpin_pool_cidr h) (tun_name h)) [] hairpin
  | SyncIps table set ips => render_sync_client_ips table set ips
  | AddElement table pr p ip q => render_add_element table pr p ip q
  | DeleteElement table pr p => render_delete_element table pr p
  end.

(** ** The scripts say what they mean *)

Definition digits (s : list Z) : Prop := Forall (fun c => 48 <= c <= 57) s.

Lemma digits_end a a' c r r' : digits a -> digits a' -> ~ 48 <= c <= 57 -> a ++ c :: r = a' ++ c :: r' -> a = a' /\ r = r'.
Proof.
  intros Ha Ha' Hc He. assert (Hs : forall a r, digits a -> split_once (Z.eqb c) (a ++ c :: r) = Some (a, r)).
  { intros x y Hx. apply split_once_at; [|apply Z.eqb_refl]. eapply Forall_impl; [exact Hx|]. cbn. intros d Hd. apply Z.eqb_neq. lia. }
  pose proof (Hs a r Ha) as H1. rewrite He, (Hs a' r' Ha') in H1. by injection H1 as <- <-.
Qed.

Lemma decimal_digits fuel n : 0 <= n < 10 ^ Z.of_nat fuel -> (0 < fuel)%nat -> digits (decimal fuel n).
Proof. intros Hn Hf. destruct (decimal_parses fuel n n) as (_ & H & _); [lia..|done]. Qed.

Lemma decimal_inj fuel n m : 0 <= n < 10 ^ Z.of_nat fuel -> 0 <= m < 10 ^ Z.of_nat fuel -> (0 < fuel)%nat -> decimal fuel n = decimal fuel m -> n = m.
Proof.
  intros Hn Hm Hf He. destruct (decimal_parses fuel n (Z.max n m)) as [H1 _]; [lia..|]. destruct (decimal_parses fuel m (Z.max n m)) as [H2 _]; [lia..|].
  rewrite He, H2 in H1. by injection H1.
Qed.

Lemma field_inj fuel n m c r r' : 0 <= n < 10 ^ Z.of_nat fuel -> 0 <= m < 10 ^ Z.of_nat fuel -> (0 < fuel)%nat -> ~ 48 <= c <= 57 ->
  decimal fuel n ++ c :: r = decimal fuel m ++ c :: r' -> n = m /\ r = r'.
Proof.
  intros Hn Hm Hf Hc He. apply digits_end in He as [He ->]; [|by apply decimal_digits..|done]. split; [|done]. by eapply decimal_inj.
Qed.

Lemma octets_inj x y : in_width 32 x -> in_width 32 y ->
  (forall i, i ∈ [24; 16; 8; 0] -> Z.land (Z.shiftr x i) 255 = Z.land (Z.shiftr y i) 255) -> x = y.
Proof.
  intros Hx Hy Ho. change 255 with (Z.ones 8) in Ho. setoid_rewrite Z.land_ones in Ho; [|done..].
  pose proof (Ho 24 ltac:(set_solver)) as H1. pose proof (Ho 16 ltac:(set_solver)) as H2. pose proof (Ho 8 ltac:(set_solver)) as H3.
  pose proof (Ho 0 ltac:(set_solver)) as H4. rewrite !Z.shiftr_div_pow2 in * by done. unfold in_width in *.
  change (2 ^ 24) with 16777216 in *. change (2 ^ 16) with 65536 in *. change (2 ^ 8) with 256 in *. change (2 ^ 0) with 1 in *. change (2 ^ 32) with 4294967296 in *.
  Z.to_euclidean_division_equations. lia.
Qed.

Lemma ipv4_inj x y r r' : in_width 32 x -> in_width 32 y -> show_ipv4 x ++ 32 :: r = show_ipv4 y ++ 32 :: r' -> x = y /\ r = r'.
Proof.
  intros Hx Hy. assert (Hb : forall z i, 0 <= Z.land (Z.shiftr z i) 255 < 10 ^ Z.of_nat 3).
  { intros z i. change 255 with (Z.ones 8). rewrite Z.land_ones by done. pose proof (Z.mod_pos_bound (Z.shiftr z i) (2 ^ 8) ltac:(done)). lia. }
  unfold show_ipv4. rewrite <- !app_assoc. cbn [app]. intros He.
  apply field_inj in He as [H1 He]; [|apply Hb|apply Hb|lia|lia]. apply field_inj in He as [H2 He]; [|apply Hb|apply Hb|lia|lia].
  apply field_inj in He as [H3 He]; [|apply Hb|apply Hb|lia|lia].
  rewrite <- (Z.shiftr_0_r x), <- (Z.shiftr_0_r y) in He. apply field_inj in He as [H4 He]; [|apply Hb|apply Hb|lia|lia].
  rewrite !Z.shiftr_0_r in *. split; [|done]. apply octets_inj; [done|done|]. intros i Hi.
  rewrite !elem_of_cons, elem_of_nil in Hi. destruct Hi as [->|[->|[->|[->|[]]]]]; [done..|]. by rewrite !Z.shiftr_0_r.
Qed.

Lemma map_names_differ pr pr' r r' : map_name pr ++ r = map_name pr' ++ r' -> pr = pr'.
Proof.
  intros He%(f_equal (fun l => l !! 7%nat)). rewrite !lookup_app_l in He by (destruct pr, pr'; vm_compute; lia). by destruct pr, pr'.
Qed.

(** Two commands on one table have the same text only if they are the same command. *)
Lemma add_script_exact t pr p ip q pr' p' ip' q' :
  in_width 16 p -> in_width 16 p' -> in_width 16 q -> in_width 16 q' -> in_width 32 ip -> in_width 32 ip' ->
  render (AddElement t pr p ip q) = render (AddElement t pr' p' ip' q') -> (pr, p, ip, q) = (pr', p', ip', q').
Proof.
  intros Hp Hp' Hq Hq' Hip Hip' He. cbn [render] in He. unfold render_add_element in He. do 3 apply app_inv_head in He.
  apply map_names_differ in He as Hpr. subst pr'. do 2 apply app_inv_head in He.
  unfold in_width in *. change (2 ^ 16) with 65536 in *. change (text " : ") with (32 :: [58; 32]) in He. change (text " . ") with (32 :: [46; 32]) in He.
  change (text " }") with (32 :: [125]) in He.
  apply field_inj in He as [-> He]; [|unfold in_width in *; cbn; lia..]. apply (app_inv_head [58; 32]) in He. apply ipv4_inj in He as [-> He]; [|done..].
  apply (app_inv_head [46; 32]) in He. apply field_inj in He as [-> _]; [done|unfold in_width in *; cbn; lia..].
Qed.

Lemma delete_script_exact t pr p pr' p' : in_width 16 p -> in_width 16 p' ->
  render (DeleteElement t pr p) = render (DeleteElement t pr' p') -> (pr, p) = (pr', p').
Proof.
  intros Hp Hp' He. cbn [render] in He. unfold render_delete_element in He. do 3 apply app_inv_head in He.
  apply map_names_differ in He as Hpr. subst pr'. do 2 apply app_inv_head in He.
  change (text " }") with (32 :: [125]) in He. apply field_inj in He as [-> _]; [done|unfold in_width in *; cbn; lia..].
Qed.

(** ** The executor *)

Abbreviation Slot := (Z * Proto)%type.

(** [elements table k]: where the two maps of [table] send each port of each protocol. *)
Class NftExecutor := {
  Kernel : Type;
  run_script : Script -> Kernel -> Kernel * result unit (list Z);
  elements : list Z -> Kernel -> gmap Slot (Z * Z);
}.

Class NftLaws (E : NftExecutor) := {
  setup_ok table chain pfwd guard hairpin k k' :
    run_script (Setup table chain pfwd guard hairpin) k = (k', Ok tt) -> elements table k' = ∅;
  add_ok table pr p ip q k k' :
    run_script (AddElement table pr p ip q) k = (k', Ok tt) -> elements table k' !! (p, pr) = Some (ip, q);
  add_frame table pr p ip q k key :
    key <> (p, pr) -> elements table (fst (run_script (AddElement table pr p ip q) k)) !! key = elements table k !! key;
  delete_ok table pr p k k' :
    run_script (DeleteElement table pr p) k = (k', Ok tt) -> elements table k' !! (p, pr) = None;
  delete_frame table pr p k key :
    key <> (p, pr) -> elements table (fst (run_script (DeleteElement table pr p) k)) !! key = elements table k !! key;
  sync_frame table set ips k : elements table (fst (run_script (SyncIps table set ips) k)) = elements table k;
}.

(** ** The backend *)

Section Operations.
Context `{E : NftExecutor}.

(** [unsure] is not in the code: the slots whose last command reported a failure, and those the
    deployer took out of the table on its own. *)
Record NftablesBackend := mkBackend {
  allocator : Allocator;
  kernel : Kernel;
  table : list Z;
  chain : list Z;
  portfail_guard : option PortFailGuard;
  unsure : gset Slot;
}.

Definition set_allocator (a : Allocator) (b : NftablesBackend) : NftablesBackend :=
  mkBackend a (kernel b) (table b) (chain b) (portfail_guard b) (unsure b).
Definition doubt (slots : list Slot) (b : NftablesBackend) : NftablesBackend :=
  mkBackend (allocator b) (kernel b) (table b) (chain b) (portfail_guard b) (unsure b ∪ list_to_set slots).

(** [runner.run_script] of a command on the element [slot]. *)
Definition run_element (s : Script) (slot : Slot) (b : NftablesBackend) : NftablesBackend * result unit (list Z) :=
  let '(k, r) := run_script s (kernel b) in
  (mkBackend (allocator b) k (table b) (chain b) (portfail_guard b)
     (match r with Ok _ => unsure b ∖ {[slot]} | Err _ => unsure b ∪ {[slot]} end), r).

Definition add_element (pr : Proto) (p ip q : Z) (b : NftablesBackend) : NftablesBackend * result unit (list Z) :=
  run_element (AddElement (table b) pr p ip q) (p, pr) b.
Definition delete_element (pr : Proto) (p : Z) (b : NftablesBackend) : NftablesBackend * result unit (list Z) :=
  run_element (DeleteElement (table b) pr p) (p, pr) b.

(** [Allocator::new] panics on an empty range. *)
Definition with_names (k : Kernel) (table chain : list Z) (pfwd_ip : option Z) (guard : option PortFailGuard)
  (hairpin : option HairpinSnat) : option (Kernel * result NftablesBackend NatPmpError) :=
  let '(k, r) := run_script (Setup table chain pfwd_ip guard hairpin) k in
  match r with
  | Err stderr => Some (k, Err (Backend stderr))
  | Ok _ => a ← from_config warren_default; Some (k, Ok (mkBackend a k table chain guard ∅))
  end.

Definition sync_portfail_guard_ips (ips : list Z) (b : NftablesBackend) : NftablesBackend * result unit NatPmpError :=
  match portfail_guard b with
  | None => (b, Ok tt)
  | Some guard =>
      let '(k, r) := run_script (SyncIps (table b) (guard_set guard) ips) (kernel b) in
      (mkBackend (allocator b) k (table b) (chain b) (portfail_guard b) (unsure b),
       match r with Ok _ => Ok tt | Err stderr => Err (Backend stderr) end)
  end.

(** A client that bound no local port is forwarded to on the external one. *)
Definition dnat_port (al : Allocation) : Z := if internal_port al =? 0 then external_port al else internal_port al.

(** The slots the deployer takes while a request has released the table: [taken i] before the pass with [i] passes
    to go, their cooldown ending at [until]. *)
Definition takes (until : Z) (taken : nat -> list Slot) (i : nat) (gk : Inner * AllocatorCounters) : Inner * AllocatorCounters :=
  (fst (take_slots until (taken i) (fst gk)), snd gk).

Definition taken_slots (taken : nat -> list Slot) : list Slot := seq 0 MAX_PASSES ≫= taken.

Definition tear_down (evicted : list Allocation) (b : NftablesBackend) : NftablesBackend :=
  fold_left (fun b ev => fst (delete_element (proto ev) (external_port ev) b)) evicted b.

(** [released] is the clock when a failed injection is rolled back. *)
Definition allocate_at (client_ip : Z) (pr : Proto) (internal_port suggested_external_port lifetime now released : Z)
  (draw : nat -> Z -> Z) (until : Z) (taken : nat -> list Slot) (b : NftablesBackend)
  : option (NftablesBackend * result Allocation NatPmpError) :=
  let lifetime_secs := Z.min (lifetime / NANOS_PER_SEC) u32_max in
  let rq := make_request client_ip pr internal_port suggested_external_port lifetime_secs now in
  '(a, out) ← allocate_at_collecting (allocator b) rq draw (takes until taken);
  let b := tear_down (out_evicted out) (doubt (taken_slots taken) (set_allocator a b)) in
  match out_result out with
  | Err e => Some (b, Err e)
  | Ok alloc =>
      let '(b, r) := add_element pr (external_port alloc) (internal_ip alloc) (dnat_port alloc) b in
      match r with
      | Ok _ => Some (b, Ok alloc)
      | Err stderr =>
          let '(b, cleanup) := delete_element pr (external_port alloc) b in
          let b := match cleanup with Ok _ => set_allocator (release_at alloc released (allocator b)) b | Err _ => b end in
          Some (b, Err (Backend stderr))
      end
  end.

Definition release (alloc : Allocation) (now : Z) (b : NftablesBackend) : NftablesBackend * result unit NatPmpError :=
  let '(b, r) := delete_element (proto alloc) (external_port alloc) b in
  match r with
  | Err stderr => (b, Err (Backend stderr))
  | Ok _ => (set_allocator (release_at alloc now (allocator b)) b, Ok tt)
  end.

Definition release_by_client (client_ip internal_port' : Z) (pr : Proto) (now : Z) (b : NftablesBackend)
  : NftablesBackend * result bool NatPmpError :=
  match List.find (fun al => (internal_ip al =? client_ip) && (internal_port al =? internal_port') && bool_decide (proto al = pr))
          (snapshot_active (allocator b)) with
  | None => (b, Ok false)
  | Some alloc =>
      let '(b, r) := delete_element pr (external_port alloc) b in
      match r with
      | Err stderr => (b, Err (Backend stderr))
      | Ok _ => (set_allocator (release_at alloc now (allocator b)) b, Ok true)
      end
  end.

Definition restore_rule (acc : NftablesBackend * list Allocation) (alloc : Allocation) : NftablesBackend * list Allocation :=
  let '(b, live) := acc in
  let '(b, r) := add_element (proto alloc) (external_port alloc) (internal_ip alloc) (dnat_port alloc) b in
  match r with
  | Ok _ => (b, live ++ [alloc])
  | Err _ => (set_allocator (fst (take_active_for_slot (external_port alloc) (proto alloc) (allocator b))) b, live)
  end.

Definition restore (entries : list Allocation) (now : Z) (b : NftablesBackend) : NftablesBackend * list Allocation :=
  let '(a, kept) := restore_at entries now (allocator b) in
  fold_left restore_rule kept (set_allocator a b, []).

Definition rate_limit_status (client_ip now : Z) (b : NftablesBackend) : NftablesBackend * RateLimitInfo :=
  let '(a, info) := rate_limit_status_at client_ip now (allocator b) in (set_allocator a b, info).

(** The deployer takes slots out of the table between two operations. *)
Definition take (until : Z) (slots : list Slot) (b : NftablesBackend) : NftablesBackend :=
  doubt slots (set_allocator (with_inner (fst (take_slots until slots (inner (allocator b)))) (counters (allocator b)) (allocator b)) b).

End Operations.

(** ** What a request does to the table, whoever else takes slots meanwhile *)

Definition slot_of (al : Allocation) : Slot := (external_port al, proto al).

(** From [m] to [m'] the mappings [more] were evicted, slots of [taken] lost, and [granted] added. *)
Record accounted (taken : list Slot) (m : gmap Slot Allocation) (more : list Allocation) (granted : option Allocation)
  (m' : gmap Slot Allocation) : Prop := mkAccounted {
  acc_kept key al : m !! key = Some al -> key ∉ taken -> m' !! key = Some al \/ key ∈ slot_of <$> more;
  acc_new key al : m' !! key = Some al -> m !! key = Some al \/ granted = Some al /\ slot_of al = key;
  acc_gone key al : key ∈ slot_of <$> more -> m' !! key = Some al -> granted = Some al /\ slot_of al = key;
  acc_granted al : granted = Some al -> m' !! slot_of al = Some al;
}.

Lemma accounted_trans t1 t2 m e1 m1 e2 gr m2 :
  accounted t1 m e1 None m1 -> accounted t2 m1 e2 gr m2 -> accounted (t1 ++ t2) m (e1 ++ e2) gr m2.
Proof.
  intros [K1 N1 G1 _] [K2 N2 G2 I2]. split; [..|exact I2].
  - intros key al Hm [Ht1 Ht2]%not_elem_of_app. rewrite fmap_app, elem_of_app.
    destruct (K1 key al Hm Ht1) as [H1|H1]; [|auto]. destruct (K2 key al H1 Ht2); auto.
  - intros key al [H1|H1]%N2; [|auto]. destruct (N1 key al H1) as [|[]]; auto; done.
  - intros key al. rewrite fmap_app, elem_of_app. intros [He|He] Hm; [|by apply G2].
    destruct (N2 key al Hm) as [H1|H1]; [|done]. by destruct (G1 key al He H1).
Qed.

Lemma accounted_take taken m : accounted taken m [] None (without taken m).
Proof.
  split.
  - intros key al Hm Ht. left. by apply without_lookup.
  - intros key al [Hm _]%without_lookup. by left.
  - by intros key al ?%elem_of_nil.
  - done.
Qed.

Definition granted_by (st : Step) : option Allocation := match st with Done (Ok al) => Some al | _ => None end.

(** Emptying [slots] of a swept table, and perhaps filling a free one. *)
Lemma drop_accounted (g g1 : Inner) lapsed slots ev removed granted m' :
  Inv g1 -> accounted [] (active g) lapsed None (active g1) -> evicts g1 slots ev (ev ++ removed) ->
  (forall key al, m' !! key = Some al <-> (granted = Some al /\ slot_of al = key) \/
     (without slots (active g1) !! key = Some al /\ forall bl, granted = Some bl -> slot_of bl <> key)) ->
  (forall bl, granted = Some bl -> without slots (active g1) !! slot_of bl = None) ->
  accounted [] (active g) (lapsed ++ removed) granted m'.
Proof.
  intros HI Hl (removed' & He & Hrem) Hm' Hfree. apply app_inv_head in He as <-.
  apply (accounted_trans [] [] _ _ (active g1)); [done|]. 
  assert (Hslot : forall key, key ∈ slot_of <$> removed <-> key ∈ slots /\ is_Some (active g1 !! key)).
  { intros key. rewrite list_elem_of_fmap. split.
    - intros (al & -> & ([p pr] & Hs & Hk)%Hrem). destruct (inv_key g1 HI p pr al Hk) as [<- <-]. split; [done|by eexists].
    - intros [Hs [al Hk]]. exists al. destruct key as [p pr]. destruct (inv_key g1 HI p pr al Hk) as [<- <-].
      split; [done|]. apply Hrem. by exists (external_port al, proto al). }
  split.
  - intros key al Hk _. rewrite Hslot. destruct (decide (key ∈ slots)); [right; split; [done|by eexists]|left].
    apply Hm'. right. split; [by apply without_lookup|]. intros bl Hbl <-.
    specialize (Hfree bl Hbl). assert (Hw : without slots (active g1) !! slot_of bl = Some al) by (by apply without_lookup). congruence.
  - intros key al [H|[[H _]%without_lookup _]]%Hm'; auto.
  - intros key al [Hs _]%Hslot [H|[[_ H]%without_lookup _]]%Hm'; done.
  - intros al Hg. apply Hm'. by left.
Qed.

Lemma swept_accounted now g g1 : Inv g -> active g1 = live_entries now (active g) ->
  accounted [] (active g) (snd <$> expired_entries now g) None (active g1).
Proof.
  intros HI Ha. assert (Hslot : forall key, key ∈ slot_of <$> (snd <$> expired_entries now g) <->
    exists al, active g !! key = Some al /\ expires_at al <= now).
  { intros [p pr]. rewrite <- list_fmap_compose, list_elem_of_fmap. split.
    - intros ([key al] & He & [Hl Hx]%expired_entries_elem). cbn in He. destruct key as [p' pr'].
      destruct (inv_key g HI p' pr' al Hl) as [<- <-]. unfold slot_of in He. rewrite He. eauto.
    - intros (al & Hl & Hx). exists (p, pr, al). cbn. destruct (inv_key g HI p pr al Hl) as [<- <-].
      split; [done|]. by apply expired_entries_elem. }
  split.
  - intros key al Hl _. rewrite Hslot, Ha, live_entries_lookup. destruct (Z.le_gt_cases (expires_at al) now); eauto.
  - intros key al. rewrite Ha. intros [Hl _]%live_entries_lookup. by left.
  - intros key al (bl & Hb & Hx)%Hslot. rewrite Ha. intros [Hl Hlt]%live_entries_lookup. rewrite Hb in Hl. injection Hl as ->. lia.
  - done.
Qed.

(** The slot of a grant is empty once its tuple is dropped. *)
Lemma pass_slot_free a g g3 rq ans s reclaim draw port :
  log_only g g3 -> suggestion_ok a g rq ans s reclaim ->
  let g2 := set_active (without (dropped (same_tuple g rq) s reclaim) (active g3)) g3 in
  (if s =? 0 then pick_port g2 (range (cfg a)) (rq_proto rq) (default 0 (previously_held g3 (same_tuple g rq))) (rq_client_ip rq)
                    (rq_now rq) draw
   else Some s) = Some port ->
  active g2 !! (port, rq_proto rq) = None.
Proof.
  intros Hlog Hs g2. destruct (Z.eqb_spec s 0) as [->|Hs0].
  - intros [(_ & _ & _ & Hf & _)|He]%pick_port_spec; [done|]. by apply port_eligible_free in He as [Hf _].
  - intros [= <-]. destruct Hs as [[? _]|(_ & _ & Hm)]; [done|]. apply eq_None_not_Some. intros [e [He Hnd]%without_lookup]. apply Hnd.
    rewrite (log_only_active _ _ Hlog) in He. unfold dropped. apply elem_of_app. destruct reclaim.
    + right. destruct (rq_proto rq); [by left|right; by left].
    + left. apply same_tuple_elem. exists e. destruct Hm as [_ Hm]. specialize (Hm e He). tauto.
Qed.

(** The mapping a request asks for, on some port. *)
Definition as_requested rq al : Prop :=
  al = mkAllocation (external_port al) (rq_client_ip rq) (rq_internal_port rq) (rq_proto rq) (rq_now rq + rq_lifetime rq).

(** What an answer is: the mapping asked for, in range, or a refusal whose delay fits its [u16]. *)
Definition answered (a : Allocator) rq (draw : nat -> Z -> Z) (r : result Allocation NatPmpError) : Prop :=
  match r with
  | Ok al => as_requested rq al /\
      (draw_ok draw -> fst (range (cfg a)) <= snd (range (cfg a)) -> port_in_range (external_port al) (range (cfg a)) = true)
  | Err (RateLimited _ secs) => 0 <= secs <= u16_max
  | Err _ => True
  end.

Lemma choice_in_range a g g2 rq ans s reclaim reuse draw port :
  suggestion_ok a g rq ans s reclaim ->
  (if s =? 0 then pick_port g2 (range (cfg a)) (rq_proto rq) reuse (rq_client_ip rq) (rq_now rq) draw else Some s) = Some port ->
  draw_ok draw -> fst (range (cfg a)) <= snd (range (cfg a)) -> port_in_range port (range (cfg a)) = true.
Proof.
  intros Hso Hc Hd Hr. destruct (Z.eqb_spec s 0) as [->|Hs]; [by eapply pick_port_in_range|]. injection Hc as <-.
  by destruct Hso as [[? _]|(_ & ? & _)].
Qed.

Lemma pass_accounted a g k rq ans ev draw g' k' ev' st :
  Inv g -> try_allocate a g k rq ans ev draw = (g', k', ev', st) ->
  (exists more, ev' = ev ++ more /\ accounted [] (active g) more (granted_by st) (active g')) /\
  match st with Done r => answered a rq draw r | Ask _ => True end.
Proof.
  intros HI Ht. destruct (try_allocate_spec _ _ _ _ _ _ _ _ _ _ _ HI Ht) as (g1 & Ha & _ & HI1 & _ & Hcase).
  pose proof (swept_accounted _ _ _ HI Ha) as Hsw. cbn zeta in Hcase. set (lapsed := snd <$> _) in *.
  destruct Hcase as [(Hlog & -> & Hearly)|(g3 & k3 & kk & tn & bud & reclaim & Hlog & _ & _ & Hso & Hg)].
  { rewrite (log_only_active _ _ Hlog). destruct st as [[|[]]|]; try done; (split; [by exists lapsed|done]). }
  set (s := effective_suggestion _ _ _) in *. pose proof (log_only_active _ _ Hlog) as Ha3.
  assert (HI3 : Inv g3) by (by eapply log_only_inv). rewrite <- Ha3 in Hsw.
  assert (Hnone : forall slots ev', evicts g3 slots (ev ++ lapsed) ev' ->
    exists more, ev' = ev ++ more /\ accounted [] (active g) more None (without slots (active g3))).
  { intros slots ev2 (removed & -> & Hrem). exists (lapsed ++ removed). split; [by rewrite app_assoc|].
    eapply (drop_accounted g g3 lapsed slots (ev ++ lapsed)); [done|done|by exists removed| |done].
    intros key al. split; [|by intros [[]|[]]]. intros H. right. by split. }
  apply grant_spec in Hg as [(-> & _ & -> & Hev)|(g2 & -> & Hev & _ & Hg)]; [split; [by apply Hnone|done]|].
  cbn zeta in Hg. destruct Hg as [(-> & _ & ->)|(port & al & -> & Hc & Hi)]; [split; [by apply Hnone|done]|].
  apply (pass_slot_free a g1 g3 rq ans) in Hc as Hfree; [|done|done].
  pose proof (choice_in_range _ _ _ _ _ _ _ _ _ _ Hso Hc) as Hrange.
  apply install_spec in Hi as (-> & -> & _). split; [|by split]. destruct Hev as (removed & -> & Hrem). exists (lapsed ++ removed).
  split; [by rewrite app_assoc|]. eapply (drop_accounted g g3 lapsed _ (ev ++ lapsed)); [done|done|by exists removed| |by intros bl [= <-]].
  intros key al. cbn. rewrite lookup_insert_Some. unfold slot_of. split.
  - intros [[<- <-]|[Hne Hl]]; [by left|right]. split; [done|]. by intros bl [= <-].
  - intros [[[= <-] <-]|[Hl Hne]]; [by left|right]. split; [|done]. by apply (Hne _ eq_refl).
Qed.

Lemma accounted_weaken t t' m e gr m' : (forall key, key ∈ t -> key ∈ t') -> accounted t m e gr m' -> accounted t' m e gr m'.
Proof. intros Ht [K N G I]. split; [|done..]. intros key al Hm Hn. apply K; [done|]. intros Hk. by apply Hn, Ht. Qed.

Lemma loop_accounted (taken : nat -> list Slot) env a rq draw :
  (forall i gk, active (fst (env i gk)) = without (taken i) (active (fst gk)) /\ (Inv (fst gk) -> Inv (fst (env i gk)))) ->
  forall fuel g k ans ev g' k' out, Inv g -> allocate_loop fuel a rq draw env g k ans ev = Some (g', k', out) ->
  Inv g' /\ (exists more, out_evicted out = ev ++ more /\
    accounted (seq 0 fuel ≫= taken) (active g) more (outcome_granted out) (active g')) /\
  answered a rq draw (out_result out).
Proof.
  intros Henv. induction fuel as [|fuel IH]; intros g k ans ev g' k' out HI; [done|]. rewrite loop_unfold.
  destruct (Henv fuel (g, k)) as [Ha0 HI0]. destruct (env fuel (g, k)) as [g0 k0]. cbn [fst] in *. specialize (HI0 HI).
  destruct (try_allocate a g0 k0 rq ans ev draw) as [[[g1 k1] ev1] st] eqn:Et.
  pose proof (try_allocate_inv _ _ _ _ _ _ _ _ _ _ _ HI0 Et) as HI1.
  destruct (pass_accounted _ _ _ _ _ _ _ _ _ _ _ HI0 Et) as [(more & -> & Hp) Hgr]. rewrite Ha0 in Hp.
  pose proof (accounted_trans _ _ _ _ _ _ _ _ (accounted_take (taken fuel) (active g)) Hp) as Hp'. cbn [app] in Hp'. rewrite app_nil_r in Hp'.
  rewrite seq_S, bind_app. cbn [Nat.add]. destruct st as [r|q].
  - intros [= <- <- <-]. split; [done|]. unfold outcome_granted, granted_by in *. cbn [out_result]. split; [|done].
    exists more. split; [done|]. eapply accounted_weaken; [|destruct r; exact Hp']. intros key Hk. apply elem_of_app. right. cbn. by rewrite app_nil_r.
  - intros Hl. destruct (IH _ _ _ _ _ _ _ HI1 Hl) as (HI' & (more' & Hout & Hacc) & Hgr'). split; [done|]. split; [|done].
    exists (more ++ more'). split; [by rewrite Hout, app_assoc|]. cbn [granted_by] in Hp'.
    eapply accounted_weaken; [|exact (accounted_trans _ _ _ _ _ _ _ _ Hp' Hacc)].
    intros key. rewrite !elem_of_app. cbn. rewrite app_nil_r. tauto.
Qed.

(** A whole request, its passes interleaved with the deployer's takes. *)
Lemma report_evicted_cfg ev gr a : cfg (report_evicted ev gr a) = cfg a.
Proof. unfold report_evicted, report_released. by repeat case_match. Qed.

Lemma request_accounted a rq draw until taken a' out :
  Inv (inner a) -> allocate_at_collecting a rq draw (takes until taken) = Some (a', out) ->
  Inv (inner a') /\ accounted (taken_slots taken) (active (inner a)) (out_evicted out) (outcome_granted out) (active (inner a')) /\
  answered a rq draw (out_result out) /\ cfg a' = cfg a.
Proof.
  intros HI. unfold allocate_at_collecting.
  match goal with |- context [allocate_loop _ _ _ _ ?e _ _ _ _] => set (env := e) end.
  destruct (allocate_loop _ _ _ _ env _ _ _ _) as [[[g k] o]|] eqn:El; [|done]. cbn [mbind option_bind].
  intros [= <- <-]. rewrite report_evicted_inner. cbn [inner with_inner].
  destruct (loop_accounted taken env a rq draw) with (fuel := MAX_PASSES) (g := inner a) (k := counters a)
    (ans := unasked a (rq_client_ip rq)) (ev := @nil Allocation) (g' := g) (k' := k) (out := o) as (HI' & (more & Hout & Hacc) & Hgr).
  - intros i gk. assert (Htk : active (fst (takes until taken i gk)) = without (taken i) (active (fst gk)) /\
      (Inv (fst gk) -> Inv (fst (takes until taken i gk)))).
    { unfold takes. cbn [fst]. destruct (take_slots until (taken i) (fst gk)) as [g1 removed] eqn:Etk. cbn [fst].
      split; [by apply take_slots_spec in Etk as [-> _]|]. intros H. by eapply take_slots_inv. }
    unfold env. destruct (i =? MAX_PASSES - 1)%nat; [|done]. cbn [fst]. destruct Htk as [H1 H2]. split; [done|].
    intros H. eapply (locked_step_inv (rq_now rq)); [apply step_trim|by apply H2].
  - done.
  - exact El.
  - split; [done|]. cbn [app] in Hout. rewrite Hout. split; [done|]. split; [done|]. by rewrite report_evicted_cfg.
Qed.

(** ** The kernel's maps and the table *)

Section Mirror.
Context `{E : NftExecutor} `{L : !NftLaws E}.
Implicit Types b : NftablesBackend.

(** What the kernel should do for a mapping. *)
Definition rule (al : Allocation) : Z * Z := (internal_ip al, dnat_port al).

Definition held b (key : Slot) : option Allocation := active (inner (allocator b)) !! key.
Definition forwards b (key : Slot) : option (Z * Z) := elements (table b) (kernel b) !! key.

Definition mirrored b : Prop := Inv (inner (allocator b)) /\ forall key, key ∉ unsure b -> forwards b key = rule <$> held b key.

(** One command on [slot] whose success leaves [v] there. *)
Record ran (slot : Slot) (v : option (Z * Z)) b b' (r : result unit (list Z)) : Prop := mkRan {
  ran_allocator : allocator b' = allocator b;
  ran_table : table b' = table b;
  ran_frame key : key <> slot -> forwards b' key = forwards b key /\ (key ∈ unsure b' <-> key ∈ unsure b);
  ran_ok : r = Ok tt -> forwards b' slot = v /\ slot ∉ unsure b';
  ran_err e : r = Err e -> slot ∈ unsure b';
}.

Lemma add_ran pr p ip q b b' r : add_element pr p ip q b = (b', r) -> ran (p, pr) (Some (ip, q)) b b' r.
Proof using L.
  unfold add_element, run_element. destruct (run_script _ _) as [k [[]|e]] eqn:Er; intros [= <- <-]; split; cbn; try done.
  - intros key Hne. pose proof (add_frame (table b) pr p ip q (kernel b) key Hne) as Hf. rewrite Er in Hf. split; [done|set_solver].
  - intros _. split; [by eapply add_ok|set_solver].
  - intros key Hne. pose proof (add_frame (table b) pr p ip q (kernel b) key Hne) as Hf. rewrite Er in Hf. split; [done|set_solver].
  - set_solver.
Qed.

Lemma delete_ran pr p b b' r : delete_element pr p b = (b', r) -> ran (p, pr) None b b' r.
Proof using L.
  unfold delete_element, run_element. destruct (run_script _ _) as [k [[]|e]] eqn:Er; intros [= <- <-]; split; cbn; try done.
  - intros key Hne. pose proof (delete_frame (table b) pr p (kernel b) key Hne) as Hf. rewrite Er in Hf. split; [done|set_solver].
  - intros _. split; [by eapply delete_ok|set_solver].
  - intros key Hne. pose proof (delete_frame (table b) pr p (kernel b) key Hne) as Hf. rewrite Er in Hf. split; [done|set_solver].
  - set_solver.
Qed.

(** Tearing down evicted mappings: each of their slots ends up empty, or in doubt. *)
Lemma tear_down_spec evicted : forall b, 
  allocator (tear_down evicted b) = allocator b /\ table (tear_down evicted b) = table b /\
  forall key, (key ∉ slot_of <$> evicted ->
       forwards (tear_down evicted b) key = forwards b key /\ (key ∈ unsure (tear_down evicted b) <-> key ∈ unsure b)) /\
    (key ∈ slot_of <$> evicted -> key ∉ unsure (tear_down evicted b) -> forwards (tear_down evicted b) key = None).
Proof using L.
  induction evicted as [|ev evicted IH] using rev_ind; intros b.
  { split; [done|]. split; [done|]. intros key. split; [done|]. by intros ?%elem_of_nil. }
  unfold tear_down. rewrite fold_left_app. cbn [fold_left]. fold (tear_down evicted b).
  destruct (IH b) as (Ha & Ht & Hk). destruct (delete_element (proto ev) (external_port ev) (tear_down evicted b)) as [b' r] eqn:Ed.
  apply delete_ran in Ed as [Hal Htb Hfr Hok Herr]. cbn [fst]. rewrite Hal, Htb. split; [done|]. split; [done|]. intros key.
  rewrite fmap_app, elem_of_app. cbn [fmap list_fmap]. rewrite list_elem_of_singleton.
  destruct (decide (key = slot_of ev)) as [->|Hne].
  - split; [tauto|]. intros _ Hs. destruct r as [[]|e]; [by apply Hok|]. by destruct Hs; eapply Herr.
  - destruct (Hfr key Hne) as [H1 H2]. rewrite H1, H2. destruct (Hk key) as [K1 K2]. split; [intros Hn; apply K1; tauto|].
    intros [?|?]; [by apply K2|done].
Qed.

Lemma mirrored_at b b' key :
  forwards b' key = forwards b key -> held b' key = held b key -> (key ∈ unsure b' <-> key ∈ unsure b) ->
  (key ∉ unsure b -> forwards b key = rule <$> held b key) -> key ∉ unsure b' -> forwards b' key = rule <$> held b' key.
Proof using Type. intros -> -> -> H. exact H. Qed.

(** In step everywhere but at [slot]. *)
Definition nearly (slot : Slot) b : Prop :=
  Inv (inner (allocator b)) /\ forall key, key <> slot -> key ∉ unsure b -> forwards b key = rule <$> held b key.

Lemma mirrored_nearly slot b : mirrored b -> nearly slot b.
Proof using Type. intros [HI Hm]. split; [done|]. intros key _. apply Hm. Qed.

(** A command, then at most a change of its own slot in the table. *)
Lemma command_mirrored slot v b b1 r a :
  nearly slot b -> ran slot v b b1 r -> Inv (inner a) ->
  (forall key, key <> slot -> active (inner a) !! key = held b key) ->
  (r = Ok tt -> v = rule <$> active (inner a) !! slot) -> mirrored (set_allocator a b1).
Proof using Type.
  intros [HI Hm] [Hal Htb Hfr Hok Herr] HIa Hkeep Hv. split; [done|]. intros key. destruct (decide (key = slot)) as [->|Hne].
  - intros Hs. destruct r as [[]|e]; [|by destruct Hs; eapply Herr]. destruct (Hok eq_refl) as [Hf _]. unfold forwards, held in *. cbn in *.
    rewrite Hf. by apply Hv.
  - destruct (Hfr key Hne) as [H1 H2]. apply (mirrored_at b); [done| |done|by apply Hm]. unfold held. cbn. by apply Hkeep.
Qed.

Lemma set_allocator_same b b1 : allocator b1 = allocator b -> set_allocator (allocator b) b1 = b1.
Proof using Type. destruct b1. cbn. by intros <-. Qed.

Lemma release_at_held alloc now a : 
  active (inner (release_at alloc now a)) = delete (slot_of alloc) (active (inner a)).
Proof using Type.
  unfold release_at. destruct (active (inner a) !! (external_port alloc, proto alloc)) as [x|] eqn:Ex; [done|]. by rewrite delete_id.
Qed.

Lemma release_at_inv alloc now a : Inv (inner a) -> Inv (inner (release_at alloc now a)).
Proof using Type. apply locked_step_inv with now. apply step_release. Qed.

(** A slot whose rule is gone may be released. *)
Lemma release_mirrored alloc now b b1 :
  nearly (slot_of alloc) b -> ran (slot_of alloc) None b b1 (Ok tt) -> mirrored (set_allocator (release_at alloc now (allocator b1)) b1).
Proof using Type.
  intros Hm Hr. pose proof (ran_allocator _ _ _ _ _ Hr) as ->. eapply command_mirrored; [done|exact Hr|by apply release_at_inv, Hm| |].
  - intros key Hne. rewrite release_at_held, lookup_delete_ne by done. done.
  - intros _. by rewrite release_at_held, lookup_delete_eq.
Qed.

Lemma failed_mirrored slot v b b1 e : nearly slot b -> ran slot v b b1 (Err e) -> mirrored b1.
Proof using Type.
  intros Hm Hr. rewrite <- (set_allocator_same b b1) by (by eapply ran_allocator). eapply command_mirrored; [done|exact Hr|apply Hm|done|done].
Qed.

Lemma take_slots_active until slots a :
  active (inner (with_inner (fst (take_slots until slots (inner a))) (counters a) a)) = without slots (active (inner a)) /\
  (Inv (inner a) -> Inv (inner (with_inner (fst (take_slots until slots (inner a))) (counters a) a))).
Proof using Type.
  cbn. destruct (take_slots until slots (inner a)) as [g removed] eqn:Et. cbn.
  split; [by apply take_slots_spec in Et as [-> _]|]. intros HI. by eapply take_slots_inv.
Qed.

(** After the passes and the tear-down everything is in step but the slot of a grant. *)
Lemma request_nearly b a taken evicted granted :
  mirrored b -> Inv (inner a) -> accounted taken (active (inner (allocator b))) evicted granted (active (inner a)) ->
  let b' := tear_down evicted (doubt taken (set_allocator a b)) in
  allocator b' = a /\ forall key, (forall al, granted = Some al -> slot_of al <> key) -> key ∉ unsure b' -> forwards b' key = rule <$> held b' key.
Proof using L.
  intros [HI Hm] HIa [K N G _] b'. destruct (tear_down_spec evicted (doubt taken (set_allocator a b))) as (Ha & Ht & Hk).
  fold b' in Ha, Ht, Hk. cbn in Ha. split; [done|]. intros key Hg Hs. destruct (Hk key) as [K1 K2]. unfold held. rewrite Ha.
  destruct (decide (key ∈ slot_of <$> evicted)) as [He|He].
  - rewrite (K2 He Hs). destruct (active (inner a) !! key) as [al|] eqn:El; [|done]. destruct (G key al He El) as [Hgr Hsl]. by destruct (Hg al).
  - destruct (K1 He) as [Hf Hu]. rewrite Hf. rewrite Hu in Hs. cbn in Hs. apply not_elem_of_union in Hs as [Hs Htk].
    rewrite elem_of_list_to_set in Htk. unfold forwards. cbn. change (elements (table b) (kernel b) !! key) with (forwards b key).
    rewrite (Hm key Hs). unfold held. f_equal. destruct (active (inner (allocator b)) !! key) as [al|] eqn:El.
    + by destruct (K key al El Htk).
    + destruct (active (inner a) !! key) as [al|] eqn:El'; [|done]. destruct (N key al El') as [|[Hgr Hsl]]; [congruence|]. by destruct (Hg al).
Qed.

Lemma allocate_mirrored c pr ip sp lt now rel draw until taken b b' r :
  mirrored b -> allocate_at c pr ip sp lt now rel draw until taken b = Some (b', r) ->
  mirrored b' /\ forall al, r = Ok al ->
    internal_ip al = c /\ internal_port al = ip /\ proto al = pr /\ held b' (slot_of al) = Some al /\ slot_of al ∉ unsure b'.
Proof using L.
  intros Hm. unfold allocate_at. cbn zeta. set (rq := make_request _ _ _ _ _ _).
  destruct (allocate_at_collecting (allocator b) rq draw (takes until taken)) as [[a out]|] eqn:Ea; [|done]. cbn [mbind option_bind].
  destruct (request_accounted _ _ _ _ _ _ _ (proj1 Hm) Ea) as (HIa & Hacc & Hreq & _).
  destruct (request_nearly b a (taken_slots taken) (out_evicted out) (outcome_granted out) Hm HIa Hacc) as [Hal Hn].
  revert Hal Hn. set (b2 := tear_down _ _). intros Hal Hn. unfold outcome_granted in *. destruct (out_result out) as [alloc|e].
  2:{ intros [= <- <-]. split; [|done]. split; [by rewrite Hal|]. intros key. by apply Hn. }
  destruct Hreq as [Hal' _]. pose proof (f_equal internal_ip Hal') as Hip. pose proof (f_equal proto Hal') as Hpr.
  pose proof (f_equal internal_port Hal') as Hiport. cbn in Hip, Hpr, Hiport.
  assert (Hslot : (external_port alloc, pr) = slot_of alloc) by (unfold slot_of; by rewrite Hpr).
  assert (Hnear : nearly (slot_of alloc) b2).
  { split; [by rewrite Hal|]. intros key Hne. apply Hn. intros bl [= <-]. congruence. }
  assert (Hheld : held b2 (slot_of alloc) = Some alloc) by (unfold held; rewrite Hal; by apply (acc_granted _ _ _ _ _ Hacc)).
  destruct (add_element pr (external_port alloc) _ _ b2) as [b3 ra] eqn:Eadd. apply add_ran in Eadd. rewrite Hslot in Eadd.
  destruct ra as [[]|stderr].
  - intros [= <- <-]. pose proof (ran_allocator _ _ _ _ _ Eadd) as Hal3. split.
    + rewrite <- (set_allocator_same b2 b3) by done. eapply command_mirrored; [done|exact Eadd|apply Hnear|done|]. intros _.
      change (active (inner (allocator b2)) !! slot_of alloc) with (held b2 (slot_of alloc)). by rewrite Hheld.
    + intros al [= <-]. unfold held. rewrite Hal3. split_and!; [done..|exact Hheld|by apply (ran_ok _ _ _ _ _ Eadd)].
  - pose proof (failed_mirrored _ _ _ _ _ Hnear Eadd) as Hm3.
    destruct (delete_element pr (external_port alloc) b3) as [b4 rc] eqn:Edel. apply delete_ran in Edel. rewrite Hslot in Edel.
    destruct rc as [[]|e]; intros [= <- <-]; (split; [|done]).
    + eapply release_mirrored; [by apply mirrored_nearly|exact Edel].
    + eapply failed_mirrored; [by apply mirrored_nearly|exact Edel].
Qed.

(** The configuration is nobody's to change. *)
Lemma run_element_allocator s slot b : allocator (fst (run_element s slot b)) = allocator b.
Proof using Type. unfold run_element. by destruct (run_script s (kernel b)). Qed.

Lemma tear_down_allocator evicted : forall b, allocator (tear_down evicted b) = allocator b.
Proof using Type. induction evicted as [|ev evicted IH]; intros b; [done|]. cbn. unfold tear_down in IH. rewrite IH. apply run_element_allocator. Qed.

Lemma release_at_cfg alloc now a : cfg (release_at alloc now a) = cfg a.
Proof using Type. unfold release_at, report_released. by repeat case_match. Qed.

Lemma allocate_answers c pr ip sp lt now rel draw until taken b b' r :
  Inv (inner (allocator b)) -> allocate_at c pr ip sp lt now rel draw until taken b = Some (b', r) ->
  cfg (allocator b') = cfg (allocator b) /\
  answered (allocator b) (make_request c pr ip sp (Z.min (lt / NANOS_PER_SEC) u32_max) now) draw r.
Proof using Type.
  intros HI. unfold allocate_at. cbn zeta. set (rq := make_request _ _ _ _ _ _).
  destruct (allocate_at_collecting (allocator b) rq draw (takes until taken)) as [[a out]|] eqn:Ea; [|done]. cbn [mbind option_bind].
  destruct (request_accounted _ _ _ _ _ _ _ HI Ea) as (_ & _ & Hans & Hcfg).
  set (b2 := tear_down _ _). assert (H2 : allocator b2 = a) by apply tear_down_allocator.
  destruct (out_result out) as [alloc|e]; [|by intros [= <- <-]; rewrite H2].
  unfold add_element, delete_element. match goal with |- context [run_element ?s ?k b2] => pose proof (run_element_allocator s k b2) as H3 end.
  destruct (run_element _ _ b2) as [b3 [[]|stderr]]; cbn in H3; [intros [= <- <-]; by rewrite H3, H2|].
  match goal with |- context [run_element ?s ?k b3] => pose proof (run_element_allocator s k b3) as H4 end.
  destruct (run_element _ _ b3) as [b4 [[]|e]]; cbn in H4; intros [= <- <-]; cbn [allocator set_allocator];
    rewrite ?release_at_cfg, H4, H3, H2; done.
Qed.

Lemma release_cfg alloc now b : cfg (allocator (fst (release alloc now b))) = cfg (allocator b).
Proof using Type.
  unfold release, delete_element. match goal with |- context [run_element ?s ?k b] => pose proof (run_element_allocator s k b) as H end.
  destruct (run_element _ _ b) as [b1 [[]|e]]; cbn in *; by rewrite ?release_at_cfg, H.
Qed.

Lemma release_by_client_cfg c ip pr now b : cfg (allocator (fst (release_by_client c ip pr now b))) = cfg (allocator b).
Proof using Type.
  unfold release_by_client, delete_element. destruct (List.find _ _); [|done].
  match goal with |- context [run_element ?s ?k b] => pose proof (run_element_allocator s k b) as H end.
  destruct (run_element _ _ b) as [b1 [[]|e]]; cbn in *; by rewrite ?release_at_cfg, H.
Qed.

Lemma restore_cfg entries now b : cfg (allocator (fst (restore entries now b))) = cfg (allocator b).
Proof using Type.
  unfold restore. destruct (restore_at entries now (allocator b)) as [a kept] eqn:Er.
  assert (Ha : cfg a = cfg (allocator b)) by (unfold restore_at in Er; by destruct (fold_left _ _ _); injection Er as <- <-).
  rewrite <- Ha. change a with (allocator (set_allocator a b)) at 2. generalize (set_allocator a b) (@nil Allocation). clear.
  induction kept as [|al kept IH]; intros b live; [done|]. cbn [fold_left].
  destruct (restore_rule (b, live) al) as [b1 live1] eqn:E1. rewrite IH. unfold restore_rule, add_element in E1.
  match type of E1 with context [run_element ?s ?k b] => pose proof (run_element_allocator s k b) as H end.
  destruct (run_element _ _ b) as [b2 [[]|e]]; cbn in *; injection E1 as <- _; cbn; [by rewrite H|]. unfold take_active_for_slot, report_released. repeat case_match; cbn; by rewrite H.
Qed.

Lemma release_spec alloc now b b' r : mirrored b -> release alloc now b = (b', r) ->
  mirrored b' /\ match r with
  | Ok _ => held b' (slot_of alloc) = None /\ slot_of alloc ∉ unsure b'
  | Err _ => allocator b' = allocator b
  end.
Proof using L.
  intros Hm. unfold release. destruct (delete_element _ _ b) as [b1 rd] eqn:Ed. apply delete_ran in Ed.
  change (external_port alloc, proto alloc) with (slot_of alloc) in Ed. destruct rd as [[]|e]; intros [= <- <-].
  - split; [by eapply release_mirrored; [apply mirrored_nearly|]|]. split; [|by apply (ran_ok _ _ _ _ _ Ed)].
    unfold held. cbn. by rewrite release_at_held, lookup_delete_eq.
  - split; [by eapply failed_mirrored; [apply mirrored_nearly|]|by eapply ran_allocator].
Qed.

Lemma release_by_client_spec c ip pr now b b' r : mirrored b -> release_by_client c ip pr now b = (b', r) ->
  mirrored b' /\ match r with
  | Ok true => exists al, internal_ip al = c /\ internal_port al = ip /\ proto al = pr /\ held b (slot_of al) = Some al /\
      held b' (slot_of al) = None /\ slot_of al ∉ unsure b'
  | Ok false | Err _ => allocator b' = allocator b
  end.
Proof using L.
  intros Hm. unfold release_by_client. destruct (List.find _ _) as [al|] eqn:Ef; [|by intros [= <- <-]].
  apply NatPmpTable.find_some in Ef as [Hin Hp]. rewrite !andb_true_iff, !Z.eqb_eq, bool_decide_eq_true in Hp. destruct Hp as [[Hip Hport] <-].
  unfold snapshot_active in Hin. apply list_elem_of_fmap in Hin as ([[p pr] al'] & -> & Hin%elem_of_map_to_list). cbn [snd] in *.
  assert (Hs : (p, pr) = slot_of al') by (destruct (inv_key _ (proj1 Hm) _ _ _ Hin) as [<- <-]; done).
  destruct (delete_element _ _ b) as [b1 rd] eqn:Ed. apply delete_ran in Ed.
  change (external_port al', proto al') with (slot_of al') in Ed. destruct rd as [[]|e]; intros [= <- <-].
  - split; [by eapply release_mirrored; [apply mirrored_nearly|]|]. exists al'. rewrite <- Hs in *.
    split_and!; [done|done|done|done| |by apply (ran_ok _ _ _ _ _ Ed)]. unfold held. cbn. by rewrite release_at_held, <- Hs, lookup_delete_eq.
  - split; [by eapply failed_mirrored; [apply mirrored_nearly|]|by eapply ran_allocator].
Qed.

Lemma restore_at_spec entries now a a' kept : restore_at entries now a = (a', kept) ->
  NoDup (slot_of <$> kept) /\ (forall al, al ∈ kept -> active (inner a') !! slot_of al = Some al) /\
  forall key, key ∉ slot_of <$> kept -> active (inner a') !! key = active (inner a) !! key.
Proof using Type.
  unfold restore_at. destruct (fold_left _ _ _) as [g kept'] eqn:Ef. intros [= <- <-]. cbn [inner with_inner]. revert g kept' Ef.
  induction entries as [|entry entries IH] using rev_ind; intros g kept'; [intros [= <- <-]; split; [constructor|]; split; [by intros al ?%elem_of_nil|done]|].
  rewrite fold_left_app. destruct (fold_left _ _ _) as [g0 kept0]. destruct (IH g0 kept0 eq_refl) as (Hnd & Hin & Hout).
  cbn [fold_left restore_one]. destruct (_ || _ || _) eqn:Ec; [by intros [= <- <-]|]. apply orb_false_iff in Ec as [[_ Hfree]%orb_false_iff _].
  apply bool_decide_eq_false, eq_None_not_Some in Hfree. change (external_port entry, proto entry) with (slot_of entry) in Hfree.
  intros [= <- <-]. cbn. fold (slot_of entry). rewrite fmap_app. cbn [fmap list_fmap]. split; [|split].
  - apply NoDup_app. split; [done|]. split; [|apply NoDup_singleton]. intros key Hk ->%list_elem_of_singleton.
    apply list_elem_of_fmap in Hk as (al & Hs & Hal). rewrite Hs in Hfree. specialize (Hin al Hal). congruence.
  - intros al [Hal| ->%list_elem_of_singleton]%elem_of_app; [|by rewrite lookup_insert_eq].
    rewrite lookup_insert_ne; [by apply Hin|]. intros Hs. specialize (Hin al Hal). congruence.
  - intros key [Hk Hne]%not_elem_of_app. rewrite list_elem_of_singleton in Hne. rewrite lookup_insert_ne by congruence. by apply Hout.
Qed.

(** One rule: its mapping is live with it, or gone and in doubt. *)
Lemma restore_rule_spec b live al b1 live1 : 
  Inv (inner (allocator b)) -> held b (slot_of al) = Some al -> restore_rule (b, live) al = (b1, live1) ->
  Inv (inner (allocator b1)) /\
  (forall key, key <> slot_of al -> held b1 key = held b key /\ forwards b1 key = forwards b key /\ (key ∈ unsure b1 <-> key ∈ unsure b)) /\
  (slot_of al ∈ unsure b1 /\ live1 = live \/
   live1 = live ++ [al] /\ slot_of al ∉ unsure b1 /\ held b1 (slot_of al) = Some al /\ forwards b1 (slot_of al) = Some (rule al)).
Proof using L.
  intros HI Hheld. unfold restore_rule. destruct (add_element _ _ _ _ b) as [b2 r] eqn:Ea. apply add_ran in Ea.
  change (external_port al, proto al) with (slot_of al) in Ea. destruct Ea as [Hal Htb Hfr Hok Herr].
  destruct r as [[]|e]; intros [= <- <-].
  - rewrite Hal. split; [done|]. split; [intros key Hne; destruct (Hfr key Hne); unfold held; by rewrite Hal|].
    right. destruct (Hok eq_refl) as [Hfw Hns]. split_and!; [done|done| |done]. unfold held. by rewrite Hal.
  - split; [|split; [|left; split; [by eapply Herr|done]]].
    + cbn. rewrite Hal. apply inv_set_active_sub; [done|]. intros key x [_ ?]%lookup_delete_Some. done.
    + intros key Hne. destruct (Hfr key Hne) as [H1 H2]. unfold held. cbn. rewrite Hal.
      rewrite lookup_delete_ne by (unfold slot_of in Hne; congruence). done.
Qed.

(** One rule after another: a mapping whose rule fails is dropped, the others stay. *)
Lemma restore_rules kept : forall b live b' live',
  Inv (inner (allocator b)) -> NoDup (slot_of <$> kept) -> (forall al, al ∈ kept -> held b (slot_of al) = Some al) ->
  (forall key, key ∉ slot_of <$> kept -> key ∉ unsure b -> forwards b key = rule <$> held b key) ->
  fold_left restore_rule kept (b, live) = (b', live') ->
  mirrored b' /\ (forall key, key ∉ slot_of <$> kept -> held b' key = held b key /\ (key ∈ unsure b' <-> key ∈ unsure b)) /\
  exists more, live' = live ++ more /\ forall al, al ∈ more -> held b' (slot_of al) = Some al /\ slot_of al ∉ unsure b'.
Proof using L.
  induction kept as [|al kept IH]; intros b live b' live' HI Hnd Hheld Hm.
  { intros [= <- <-]. split; [split; [done|]; intros key; apply Hm, not_elem_of_nil|]. split; [done|]. exists []. rewrite app_nil_r.
    split; [done|]. by intros al ?%elem_of_nil. }
  cbn [fold_left]. intros Hf. cbn [fmap list_fmap] in *. apply NoDup_cons in Hnd as [Hnotin Hnd].
  destruct (restore_rule (b, live) al) as [b1 live1] eqn:Er.
  apply restore_rule_spec in Er as (HI1 & Hframe & Hcase); [|done|by apply Hheld; left].
  assert (Hheld1 : forall x, x ∈ kept -> held b1 (slot_of x) = Some x).
  { intros x Hx. destruct (Hframe (slot_of x)) as [-> _]; [|apply Hheld; by right]. intros He. apply Hnotin. rewrite <- He.
    apply list_elem_of_fmap. by exists x. }
  destruct (IH b1 live1 b' live' HI1 Hnd Hheld1) as (Hmir & Hkeep & more & -> & Hmore); [|done|].
  { intros key Hk Hs. destruct (decide (key = slot_of al)) as [->|Hne].
    - destruct Hcase as [[Hc _]|(_ & _ & Hh & Hfw)]; [done|]. by rewrite Hfw, Hh.
    - destruct (Hframe key Hne) as (H1 & H2 & H3). rewrite H1, H2. apply Hm; [by apply not_elem_of_cons|by rewrite <- H3]. }
  split; [done|]. split.
  - intros key [Hne Hk]%not_elem_of_cons. destruct (Hkeep key Hk) as [-> ->]. destruct (Hframe key Hne) as (-> & _ & ->). done.
  - destruct (Hkeep (slot_of al) Hnotin) as [Hk1 Hk2]. destruct Hcase as [[_ ->]|(-> & Hns & Hh & _)]; [by exists more|].
    exists (al :: more). split; [by rewrite <- app_assoc|]. intros x [->|Hx]%elem_of_cons; [by rewrite Hk1, Hk2|by apply Hmore].
Qed.

Lemma restore_mirrored entries now b b' live : mirrored b -> restore entries now b = (b', live) ->
  mirrored b' /\ forall al, al ∈ live -> held b' (slot_of al) = Some al /\ slot_of al ∉ unsure b'.
Proof using L.
  intros [HI Hm]. unfold restore. destruct (restore_at entries now (allocator b)) as [a kept] eqn:Er. intros Hf.
  assert (HIa : Inv (inner a)) by (pose proof (table_step_inv _ _ (step_restore (allocator b) entries now) HI) as H; by rewrite Er in H).
  apply restore_at_spec in Er as (Hnd & Hin & Hout).
  apply restore_rules in Hf as (Hmir & _ & more & -> & Hmore); [|done|done|done|].
  - split; [done|]. cbn [app]. intros al Hal. by apply Hmore.
  - intros key Hk Hs. unfold held. cbn. rewrite Hout by done. by apply Hm.
Qed.

(** *** Histories *)

(** Reading the budget trims a log and reports what fits its widths. *)
Lemma status_table c now a : Inv (inner a) ->
  let '(a', info) := rate_limit_status_at c now a in
  active (inner a') = active (inner a) /\ (0 <= attempts_remaining info <= u8_max /\ 0 <= window_reset info <= u16_max) /\ Inv (inner a').
Proof using Type.
  intros HI. pose proof (table_step_inv _ _ (step_locked now _ _ (step_status now a c)) HI) as HI'. revert HI'.
  unfold rate_limit_status_at. destruct (rate_limit_log (inner a) !! c) as [log|]; cbn [fst]; intros HI'; (split; [done|]);
    (split; [|done]); cbn; (split; [case_match; unfold u8_max in *; lia|]); try done. destruct (head _); [apply window_reset_secs_bound|done].
Qed.

Inductive history : NftablesBackend -> Prop :=
| setup_step k tbl ch pfwd guard hairpin k' b : with_names k tbl ch pfwd guard hairpin = Some (k', Ok b) -> history b
(** The deployer installs its hooks. *)
| hooks_step b a : history b -> inner a = inner (allocator b) -> cfg a = cfg (allocator b) -> history (set_allocator a b)
| allocate_step b c pr ip sp lt now rel draw until taken b' r :
    history b -> allocate_at c pr ip sp lt now rel draw until taken b = Some (b', r) -> history b'
| release_step b alloc now : history b -> history (fst (release alloc now b))
| client_release_step b c ip pr now : history b -> history (fst (release_by_client c ip pr now b))
| restore_step b entries now : history b -> history (fst (restore entries now b))
| sync_step b ips : history b -> history (fst (sync_portfail_guard_ips ips b))
| status_step b c now : history b -> history (fst (rate_limit_status c now b))
| take_step b until slots : history b -> history (take until slots b).

Lemma history_mirrored b : history b -> mirrored b.
Proof using L.
  induction 1 as [k tbl ch pfwd guard hairpin k' b Hw|b a _ [HI Hm] Ha _|b c pr ip sp lt now rel draw until taken b' r _ Hm Hal|b alloc now _ Hm
                 |b c ip pr now _ Hm|b entries now _ Hm|b ips _ Hm|b c now _ [HI Hm]|b until slots _ [HI Hm]].
  - unfold with_names in Hw. destruct (run_script _ k) as [k1 [[]|e]] eqn:Er; [|by injection Hw].
    destruct (from_config warren_default) as [a|] eqn:Ec; [|done]. injection Hw as <- <-. unfold from_config in Ec. case_match; [|done].
    injection Ec as <-. split; [exact inv_empty|]. intros key _. unfold forwards, held. cbn. by rewrite (setup_ok _ _ _ _ _ _ _ Er), !lookup_empty.
  - split; [by cbn; rewrite Ha|]. intros key Hs. unfold forwards, held in *. cbn in *. rewrite Ha. by apply Hm.
  - by apply (allocate_mirrored _ _ _ _ _ _ _ _ _ _ _ _ _ Hm Hal).
  - destruct (release alloc now b) as [b' r] eqn:E1. by apply (release_spec _ _ _ _ _ Hm E1).
  - destruct (release_by_client c ip pr now b) as [b' r] eqn:E1. by apply (release_by_client_spec _ _ _ _ _ _ _ Hm E1).
  - destruct (restore entries now b) as [b' live] eqn:E1. by apply (restore_mirrored _ _ _ _ _ Hm E1).
  - unfold sync_portfail_guard_ips. destruct (portfail_guard b) as [g|]; [|done].
    pose proof (sync_frame (table b) (guard_set g) ips (kernel b)) as Hf. destruct (run_script _ _) as [k r]. cbn in *.
    destruct Hm as [HI Hm]. split; [done|]. intros key Hs. unfold forwards, held in *. cbn in *. rewrite Hf. by apply Hm.
  - unfold rate_limit_status. pose proof (status_table c now (allocator b) HI) as Hst.
    destruct (rate_limit_status_at c now (allocator b)) as [a info]. destruct Hst as (Ha & _ & HIa). split; [done|].
    intros key Hs. unfold forwards, held in *. cbn in *. rewrite Ha. by apply Hm.
  - destruct (take_slots_active until slots (allocator b)) as [Ha HIa]. split; [by apply HIa|]. intros key Hs.
    unfold take, doubt in Hs. cbn in Hs. apply not_elem_of_union in Hs as [Hs Hn]. rewrite elem_of_list_to_set in Hn.
    unfold held. cbn in *. rewrite Ha. unfold forwards. cbn. change (elements (table b) (kernel b) !! key) with (forwards b key).
    rewrite (Hm key Hs). unfold held. f_equal. apply option_eq. intros al. rewrite without_lookup. tauto.
Qed.

Lemma take_held until slots b key :
  held (take until slots b) key = if decide (key ∈ slots) then None else held b key.
Proof using Type.
  destruct (take_slots_active until slots (allocator b)) as [Ha _]. unfold held. cbn in *. rewrite Ha. apply option_eq. intros al.
  rewrite without_lookup. case_decide; naive_solver.
Qed.

Lemma history_cfg b : history b -> cfg (allocator b) = warren_default.
Proof using L.
  induction 1 as [k tbl ch pfwd guard hairpin k' b Hw|b a _ IH Ha Hc|b c pr ip sp lt now rel draw until taken b' r Hb IH Hal|b alloc now _ IH
                 |b c ip pr now _ IH|b entries now _ IH|b ips _ IH|b c now _ IH|b until slots _ IH].
  - unfold with_names in Hw. destruct (run_script _ k) as [k1 [[]|e]] eqn:Er; [|by injection Hw].
    destruct (from_config warren_default) as [a|] eqn:Ec; [|done]. injection Hw as <- <-. unfold from_config in Ec. case_match; [|done].
    by injection Ec as <-.
  - by rewrite <- IH.
  - rewrite <- IH. eapply allocate_answers; [|exact Hal]. by apply history_mirrored in Hb as [? _].
  - by rewrite release_cfg.
  - by rewrite release_by_client_cfg.
  - by rewrite restore_cfg.
  - unfold sync_portfail_guard_ips. destruct (portfail_guard b) as [g|]; [|done]. by destruct (run_script _ _).
  - rewrite <- IH. unfold rate_limit_status, rate_limit_status_at. cbn zeta. by destruct (rate_limit_log _ !! c).
  - done.
Qed.

Lemma allocate_at_returns c pr ip sp lt now rel draw until taken b : allocate_at c pr ip sp lt now rel draw until taken b <> None.
Proof using Type.
  unfold allocate_at. cbn zeta. match goal with |- context [allocate_at_collecting ?a ?rq ?d ?e] => destruct (allocate_runs a rq d e) as (a' & out & ->) end.
  cbn [mbind option_bind]. repeat case_match; done.
Qed.

End Mirror.

(** ** The guarantee *)


(** ** A small executor *)

(** It keeps one table, refuses to delete what is not there, and loses its answer to an add for port 50001: the element is in. *)
#[export] Instance toy_nft : NftExecutor := {|
  Kernel := gmap Slot (Z * Z);
  run_script s k :=
    match s with
    | Setup _ _ _ _ _ => (∅, Ok tt)
    | SyncIps _ _ _ => (k, Ok tt)
    | AddElement _ pr p ip q => (<[(p, pr) := (ip, q)]> k, if p =? 50001 then Err (text "timed out") else Ok tt)
    | DeleteElement _ pr p => match k !! (p, pr) with Some _ => (delete (p, pr) k, Ok tt) | None => (k, Err (text "No such file")) end
    end;
  elements _ k := k |}.

#[export] Instance toy_nft_laws : NftLaws toy_nft.
Proof.
  split; cbn.
  - by intros ??????? [= <-].
  - intros ??????? [= <- _]. apply lookup_insert_eq.
  - intros ??????? Hne. by rewrite lookup_insert_ne.
  - intros ????? H. case_match; [|done]. injection H as <-. apply lookup_delete_eq.
  - intros ????? Hne. case_match; cbn; [|done]. by rewrite lookup_delete_ne.
  - done.
Qed.

Definition toy_start : option NftablesBackend :=
  '(_, r) ← with_names (E := toy_nft) ∅ DEFAULT_TABLE DEFAULT_CHAIN None None None;
  match r with Ok b => Some b | Err _ => None end.

(** 10.8.0.2 *)
Definition toy_client : Z := 168296450.

Definition toy_request (client suggested : Z) (b : NftablesBackend) : option (NftablesBackend * result Allocation NatPmpError) :=
  allocate_at client Tcp 8080 suggested (from_secs 3600) 0 0 (fun _ _ => 0) 0 (fun _ => []) b.


(** The answer to a restored rule is lost: the mapping is dropped, the rule forwards on. *)
Lemma lost_restore_leaves_rule : exists b, toy_start = Some b /\
  let '(b', live) := restore [mkAllocation 50001 toy_client 8080 Tcp (from_secs 3600)] 0 b in
  live = [] /\ held b' (50001, Tcp) = None /\ forwards b' (50001, Tcp) = Some (toy_client, 8080).
Proof. eexists. split; [reflexivity|]. vm_compute. by split_and!. Qed.

(** A request in the same position takes its rule out again. *)
Lemma lost_request_cleans_up : exists b b' e, toy_start = Some b /\ toy_request toy_client 50001 b = Some (b', Err e) /\
  held b' (50001, Tcp) = None /\ forwards b' (50001, Tcp) = None.
Proof. do 3 eexists. split; [reflexivity|]. split; [vm_compute; reflexivity|]. by split. Qed.
