(* ===== verification/NatPmpServer.v ===== *)
(** The NAT-PMP service ([crates/warrenguard-natpmp-server/src/server.rs], with [stub_backend.rs]
    and the backend trait of [lib.rs]): a datagram's source filter, the deployer's word on a presented
    credential, the backend operation behind its single slot, the rollback of a grant nobody
    waits for any more, and the response.

    What time and the deployer decide is an argument: whether an await ended before its bound, the verdict, the clock. *)

From stdpp Require Import strings.
From S2P Require Import Prelude NatPmpProtocol NatPmpAllocator NatPmpTable NatPmpPass NatPmpRequest NatPmpSystem NatPmpBackend.
Import NatPmpAllocator.
#[local] Open Scope Z_scope.

(** ** The backend trait *)

(** What an operation meets: the clock at its start and at its rollback, the random draws, and the slots the deployer takes
    from the table meanwhile. *)
Record Ambient := mkAmbient {
  clock : Z;
  undo_clock : Z;
  draws : nat -> Z -> Z;
  until : Z;
  taken : nat -> list Slot;
}.

Class PortForwardingBackend (B : Type) := {
  allocate : Z -> Proto -> Z -> Z -> Z -> Ambient -> B -> option (B * result Allocation NatPmpError);
  release : Allocation -> Ambient -> B -> B * result unit NatPmpError;
  release_by_client : Z -> Z -> Proto -> Ambient -> B -> B * result bool NatPmpError;
  rate_limit_status : Z -> Z -> B -> B * RateLimitInfo;
  restore : list Allocation -> Z -> B -> B * list Allocation;
}.

(** What the trait promises: [holds] is the table, [routes] where the traffic of a slot goes. *)
Class BackendLaws (B : Type) `{P : PortForwardingBackend B} := {
  sound : B -> Prop;
  holds : B -> Slot -> option Allocation;
  routes : B -> Slot -> option (Z * Z);
  allocate_law c pr ip sp lt e b : sound b -> draw_ok (draws e) ->
    exists b' r, allocate c pr ip sp lt e b = Some (b', r) /\ sound b' /\
      match r with
      | Ok al => (internal_ip al = c /\ internal_port al = ip /\ proto al = pr) /\ in_width 16 (external_port al) /\
          holds b' (slot_of al) = Some al /\ routes b' (slot_of al) = Some (rule al)
      | Err (RateLimited _ secs) => in_width 16 secs
      | Err _ => True
      end;
  release_law al e b b' r : sound b -> release al e b = (b', r) ->
    sound b' /\ match r with Ok _ => holds b' (slot_of al) = None /\ routes b' (slot_of al) = None | Err _ => holds b' = holds b end;
  release_by_client_law c ip pr e b b' r : sound b -> release_by_client c ip pr e b = (b', r) ->
    sound b' /\ match r with
    | Ok true => exists al, (internal_ip al = c /\ internal_port al = ip /\ proto al = pr) /\
        holds b (slot_of al) = Some al /\ holds b' (slot_of al) = None /\ routes b' (slot_of al) = None
    | Ok false => b' = b /\ forall key al, holds b key = Some al -> ~ (internal_ip al = c /\ internal_port al = ip /\ proto al = pr)
    | Err _ => holds b' = holds b
    end;
  status_law c now b b' info : sound b -> rate_limit_status c now b = (b', info) ->
    sound b' /\ holds b' = holds b /\ in_width 8 (attempts_remaining info) /\ in_width 16 (window_reset info);
  restore_law entries now b b' live : sound b -> restore entries now b = (b', live) ->
    sound b' /\ forall al, al ∈ live -> holds b' (slot_of al) = Some al /\ routes b' (slot_of al) = Some (rule al);
}.

(** ** The stub backend *)

Definition StubBackend : Type := Allocator.

Definition stub_allocate (client_ip : Z) (pr : Proto) (internal_port suggested lifetime : Z) (e : Ambient) (a : StubBackend)
  : option (StubBackend * result Allocation NatPmpError) :=
  let lifetime_secs := Z.min (lifetime / NANOS_PER_SEC) u32_max in
  '(a, out) ← allocate_at_collecting a (make_request client_ip pr internal_port suggested lifetime_secs (clock e)) (draws e)
                (takes (until e) (taken e));
  Some (a, out_result out).
Definition stub_release (alloc : Allocation) (e : Ambient) (a : StubBackend) : StubBackend * result unit NatPmpError :=
  (release_at alloc (clock e) a, Ok tt).
Definition stub_release_by_client (client_ip internal_port : Z) (pr : Proto) (e : Ambient) (a : StubBackend) : StubBackend * result bool NatPmpError :=
  let '(a, removed) := release_by_client_at client_ip internal_port pr (clock e) a in (a, Ok (bool_decide (is_Some removed))).

#[export] Instance stub_backend : PortForwardingBackend StubBackend := {|
  allocate := stub_allocate;
  release := stub_release;
  release_by_client := stub_release_by_client;
  rate_limit_status := rate_limit_status_at;
  restore := restore_at;
|}.

#[export] Instance nft_backend `{E : NftExecutor} : PortForwardingBackend NftablesBackend := {|
  allocate client_ip pr internal_port suggested lifetime e :=
    NatPmpBackend.allocate_at client_ip pr internal_port suggested lifetime (clock e) (undo_clock e) (draws e) (until e) (taken e);
  release alloc e := NatPmpBackend.release alloc (clock e);
  release_by_client client_ip internal_port pr e := NatPmpBackend.release_by_client client_ip internal_port pr (clock e);
  rate_limit_status := NatPmpBackend.rate_limit_status;
  restore := NatPmpBackend.restore;
|}.

(** ** The server *)

Definition octet (ip : Z) (i : Z) : Z := Z.land (Z.shiftr ip (24 - 8 * i)) 255.
Definition in_tunnel_pool (ip : Z) : bool := (octet ip 0 =? 10) && (octet ip 1 =? 66).

Definition proto_from_wire (p : NatPmpProtocol.MapProto) : Proto :=
  match p with NatPmpProtocol.MapTcp => Tcp | NatPmpProtocol.MapUdp => Udp end.
Definition proto_to_wire (p : Proto) : NatPmpProtocol.MapProto :=
  match p with Tcp => NatPmpProtocol.MapTcp | Udp => NatPmpProtocol.MapUdp end.

Inductive CredentialVerdict := Grant | Refuse.

(** The deployer's authority: its verdicts are in [Weather], what it is told is an [Event]. *)
Record CredentialAuthority := mkAuthority { requires_credential : bool }.

Inductive Event :=
| Presented (client_ip : Z) (credential : list Z)
| OnGranted (credential : list Z) (allocation : Allocation)
| OnReleasedByClient (client_ip : Z).

Inductive IpAddr := V4 (ip : Z) | V6 (octets : list Z).

Record Server := mkServer {
  public_ip : Z;
  auth_filter : Z -> bool;
  credential_authority : option CredentialAuthority;
}.

Definition bind_with_filter (ip : Z) (filter : Z -> bool) : Server := mkServer ip filter None.
Definition bind (ip : Z) : Server := bind_with_filter ip in_tunnel_pool.
Definition with_credential_authority (a : CredentialAuthority) (s : Server) : Server := mkServer (public_ip s) (auth_filter s) (Some a).

(** How the backend task's result reaches the request: in time; after the request stopped waiting, which the
    task sees; or sent just as the request's timer fires, which it does not see. *)
Inductive Delivery := InTime | Late | Crossed.

Record Weather := mkWeather {
  epoch_elapsed : Z;
  (** [None]: no answer within the bound *)
  verdict : option CredentialVerdict;
  slot_acquired : bool;
  delivery : Delivery;
  ambient : Ambient;
  answer_clock : Z;
}.

Definition epoch_secs (w : Weather) : Z := let secs := epoch_elapsed w / NANOS_PER_SEC in if secs <=? u32_max then secs else u32_max.

Definition map_success_response (alloc : Allocation) (internal_port epoch_secs now : Z) (rate_limit : option NatPmpProtocol.RateLimitInfo)
  : NatPmpProtocol.Response :=
  let secs := Z.max 0 (expires_at alloc - now) / NANOS_PER_SEC in
  let lifetime_secs := if secs <=? u32_max then secs else u32_max in
  NatPmpProtocol.RespMap (proto_to_wire (proto alloc)) NatPmpProtocol.Success epoch_secs internal_port (external_port alloc) lifetime_secs rate_limit.

Definition map_failure_response (pr : NatPmpProtocol.MapProto) (internal_port : Z) (err : NatPmpError) (epoch_secs : Z)
  : NatPmpProtocol.Response :=
  let '(result_code, rate_limit) :=
    match err with
    | RateLimited _ retry_after_secs => (NatPmpProtocol.RateLimited, Some (NatPmpProtocol.mkRateLimitInfo 0 retry_after_secs))
    | Exhausted | QuotaExceeded _ => (NatPmpProtocol.OutOfResources, None)
    | SuggestedPortInUse _ => (NatPmpProtocol.SuggestedPortUnavailable, None)
    | NotAuthorized _ => (NatPmpProtocol.NotAuthorized, None)
    | Backend _ => (NatPmpProtocol.NetworkFailure, None)
    end in
  NatPmpProtocol.RespMap pr result_code epoch_secs internal_port 0 0 rate_limit.

Definition error_response (frame : list Z) (result_code : NatPmpProtocol.ResultCode) (epoch_secs : Z) : NatPmpProtocol.Response :=
  match frame with
  | v :: op :: _ =>
      if (v =? NatPmpProtocol.NATPMP_VERSION) && (op =? 1) then NatPmpProtocol.RespMap NatPmpProtocol.MapUdp result_code epoch_secs 0 0 0 None
      else if (v =? NatPmpProtocol.NATPMP_VERSION) && (op =? 2) then NatPmpProtocol.RespMap NatPmpProtocol.MapTcp result_code epoch_secs 0 0 0 None
      else NatPmpProtocol.RespExternalAddress result_code epoch_secs 0
  | _ => NatPmpProtocol.RespExternalAddress result_code epoch_secs 0
  end.

(** The credential to bind to a grant, or the response that refuses the request. *)
Definition present_credential (s : Server) (frame : list Z) (client_ip : Z) (pr : NatPmpProtocol.MapProto) (internal_port : Z) (w : Weather)
  : list Event * result (option (list Z)) NatPmpProtocol.Response :=
  match credential_authority s with
  | None => ([], Ok None)
  | Some authority =>
      let refused := map_failure_response pr internal_port (NotAuthorized client_ip) (epoch_secs w) in
      match NatPmpProtocol.credential_trailer frame with
      | Some credential =>
          ([Presented client_ip credential],
           match verdict w with
           | Some Grant => Ok (Some credential)
           | Some Refuse => Err refused
           | None => Err (error_response frame NatPmpProtocol.NetworkFailure (epoch_secs w))
           end)
      | None => ([], if requires_credential authority then Err refused else Ok None)
      end
  end.

Section Dispatch.
Context {B : Type} `{P : PortForwardingBackend B}.

(** The delete task and the request that waits for it. *)
Definition dispatch_delete (s : Server) (frame : list Z) (client_ip : Z) (pr : NatPmpProtocol.MapProto) (internal_port : Z) (w : Weather)
  (b : B) : B * list Event * NatPmpProtocol.Response :=
  let failed := error_response frame NatPmpProtocol.NetworkFailure (epoch_secs w) in
  if slot_acquired w then
    let '(b, r) := release_by_client client_ip internal_port (proto_from_wire pr) (ambient w) b in
    match delivery w, r with
    | InTime, Ok released =>
        (b, match credential_authority s with Some _ => if released then [OnReleasedByClient client_ip] else [] | None => [] end,
         NatPmpProtocol.RespMap pr NatPmpProtocol.Success (epoch_secs w) internal_port internal_port 0 None)
    | _, _ => (b, [], failed)
    end
  else (b, [], failed).

(** The task that allocates: it binds the credential, and takes back a grant it could not deliver. *)
Definition grant_task (client_ip : Z) (pr : NatPmpProtocol.MapProto) (internal_port suggested lifetime_secs : Z) (binding : option (list Z))
  (w : Weather) (b : B) : option (B * list Event * result Allocation NatPmpError) :=
  let clamped_secs := Z.min (Z.max lifetime_secs NATPMP_LIFETIME_MIN_SECS) NATPMP_LIFETIME_MAX_SECS in
  '(b, r) ← allocate client_ip (proto_from_wire pr) internal_port suggested (from_secs clamped_secs) (ambient w) b;
  match r with
  | Err e => Some (b, [], Err e)
  | Ok alloc =>
      let events := match binding with Some credential => [OnGranted credential alloc] | None => [] end in
      match delivery w with
      | Late => Some (fst (release alloc (ambient w) b), events, Ok alloc)
      | _ => Some (b, events, Ok alloc)
      end
  end.

(** The request that waits for it; [others] is what other requests do between the task's end and the answer. *)
Definition dispatch_grant (frame : list Z) (client_ip : Z) (pr : NatPmpProtocol.MapProto) (internal_port suggested lifetime_secs : Z)
  (binding : option (list Z)) (w : Weather) (others : B -> B) (b : B) : option (B * list Event * NatPmpProtocol.Response) :=
  if slot_acquired w then
    '(b, events, r) ← grant_task client_ip pr internal_port suggested lifetime_secs binding w b;
    match delivery w with
    | InTime =>
        match r with
        | Ok alloc =>
            let '(b, info) := rate_limit_status client_ip (answer_clock w) (others b) in
            let info := NatPmpProtocol.mkRateLimitInfo (attempts_remaining info) (window_reset info) in
            Some (b, events, map_success_response alloc internal_port (epoch_secs w) (answer_clock w) (Some info))
        | Err e => Some (others b, events, map_failure_response pr internal_port e (epoch_secs w))
        end
    | _ => Some (others b, events, map_failure_response pr internal_port (Backend (text "allocate timed out")) (epoch_secs w))
    end
  else Some (b, [], error_response frame NatPmpProtocol.NetworkFailure (epoch_secs w)).

Definition dispatch (s : Server) (frame : list Z) (src : IpAddr) (w : Weather) (others : B -> B) (b : B)
  : option (B * list Event * NatPmpProtocol.Response) :=
  match src with
  | V6 _ => Some (b, [], error_response frame NatPmpProtocol.NotAuthorized (epoch_secs w))
  | V4 client_ip =>
      if negb (auth_filter s client_ip) then Some (b, [], error_response frame NatPmpProtocol.NotAuthorized (epoch_secs w))
      else match NatPmpProtocol.parse_request frame with
      | Err (NatPmpProtocol.UnsupportedVersion _) => Some (b, [], error_response frame NatPmpProtocol.CodeUnsupportedVersion (epoch_secs w))
      | Err _ => Some (b, [], error_response frame NatPmpProtocol.CodeUnsupportedOpcode (epoch_secs w))
      | Ok NatPmpProtocol.ReqExternalAddress => Some (b, [], NatPmpProtocol.RespExternalAddress NatPmpProtocol.Success (epoch_secs w) (public_ip s))
      | Ok (NatPmpProtocol.ReqMap pr internal_port suggested lifetime_secs) =>
          if lifetime_secs =? 0 then Some (dispatch_delete s frame client_ip pr internal_port w b)
          else
            let '(presented, admitted) := present_credential s frame client_ip pr internal_port w in
            match admitted with
            | Err refused => Some (b, presented, refused)
            | Ok binding =>
                '(b, events, resp) ← dispatch_grant frame client_ip pr internal_port suggested lifetime_secs binding w others b;
                Some (b, presented ++ events, resp)
            end
      end
  end.

(** The datagram sent back. *)
Definition handle_one (s : Server) (frame : list Z) (src : IpAddr) (w : Weather) (others : B -> B) (b : B) : option (B * list Event * list Z) :=
  '(b, events, resp) ← dispatch s frame src w others b; Some (b, events, NatPmpProtocol.serialize_response resp).

End Dispatch.

(** ** Both backends keep the trait's promises *)

Definition tuple_of (al : Allocation) (c ip : Z) (pr : Proto) : Prop := internal_ip al = c /\ internal_port al = ip /\ proto al = pr.

Definition fits (cf : AllocatorConfig) : Prop := 0 <= fst (range cf) /\ fst (range cf) <= snd (range cf) <= u16_max.

Lemma answered_fits a rq draw r : fits (cfg a) -> draw_ok draw -> answered a rq draw r ->
  match r with
  | Ok al => tuple_of al (rq_client_ip rq) (rq_internal_port rq) (rq_proto rq) /\ in_width 16 (external_port al)
  | Err (RateLimited _ secs) => in_width 16 secs
  | Err _ => True
  end.
Proof.
  intros [H0 H1] Hd. destruct r as [al|[]]; cbn; try done.
  - intros [Ha Hr]. specialize (Hr Hd (proj1 H1)). apply port_in_range_iff in Hr. split; [by rewrite Ha|].
    unfold in_width, u16_max in *. lia.
  - unfold in_width, u16_max. lia.
Qed.

Lemma stub_allocate_law c pr ip sp lt e (a : StubBackend) : Inv (inner a) /\ fits (cfg a) -> draw_ok (draws e) ->
  exists a' r, allocate c pr ip sp lt e a = Some (a', r) /\ (Inv (inner a') /\ fits (cfg a')) /\
    match r with
    | Ok al => tuple_of al c ip pr /\ in_width 16 (external_port al) /\ active (inner a') !! slot_of al = Some al
    | Err (RateLimited _ secs) => in_width 16 secs
    | Err _ => True
    end.
Proof.
  intros [HI Hf] Hd. cbn [allocate stub_backend]. unfold stub_allocate. cbn zeta. match goal with |- context [allocate_at_collecting a ?rq ?d ?e] => destruct (allocate_runs a rq d e) as (a' & out & Hr) end.
  rewrite Hr. exists a', (out_result out). split; [done|]. apply request_accounted in Hr as (HI' & Hacc & Hans & Hcfg); [|done].
  rewrite Hcfg. split; [done|]. apply answered_fits in Hans; [|done..]. unfold outcome_granted in Hacc.
  destruct (out_result out) as [al|]; [|done]. destruct Hans as [H1 H2]. split; [done|]. split; [done|]. by apply (acc_granted _ _ _ _ _ Hacc).
Qed.


Lemma stub_release_by_client_law c ip pr e (a a' : StubBackend) r : Inv (inner a) -> release_by_client c ip pr e a = (a', r) ->
  Inv (inner a') /\ cfg a' = cfg a /\ match r with
  | Ok true => exists al, tuple_of al c ip pr /\ active (inner a) !! slot_of al = Some al /\ active (inner a') !! slot_of al = None
  | Ok false => a' = a /\ forall key al, active (inner a) !! key = Some al -> ~ tuple_of al c ip pr
  | Err _ => False
  end.
Proof.
  intros HI. cbn [release_by_client stub_backend]. unfold stub_release_by_client.
  pose proof (locked_step_inv (clock e) _ _ (step_release_by_client (clock e) a c ip pr) HI) as HI'. revert HI'.
  unfold release_by_client_at. cbn zeta. set (rq := mkRequest _ _ _ _ _ _).
  destruct (same_tuple (inner a) rq) as [|key keys] eqn:Es.
  - cbn. intros HI' [= <- <-]. split; [done|]. split; [done|]. split; [done|]. intros [p pr'] al Hl (Hip & Hport & Hpr).
    assert (Hin : (p, pr') ∈ same_tuple (inner a) rq); [|rewrite Es in Hin; by apply elem_of_nil in Hin].
    apply same_tuple_elem. exists al. destruct (inv_key _ HI _ _ _ Hl) as [_ <-]. by rewrite Hpr in *.
  - assert (Hin : key ∈ same_tuple (inner a) rq) by (rewrite Es; by left). apply same_tuple_elem in Hin as (al & Hl & Hpr & Hip & Hport).
    rewrite Hl. cbn [fst]. intros HI' [= <- <-]. split; [done|]. split; [done|]. exists al.
    destruct key as [p pr']. destruct (inv_key _ HI _ _ _ Hl) as [Hp Hpr']. cbn in Hpr. unfold slot_of. rewrite Hp, Hpr'.
    split; [by rewrite <- Hpr, <- Hpr'|]. split; [done|]. cbn. apply lookup_delete_eq.
Qed.

#[export] Instance stub_laws : BackendLaws StubBackend.
Proof.
  refine {| sound := fun a => Inv (inner a) /\ fits (cfg a);
            holds := fun a key => active (inner a) !! key;
            routes := fun a key => rule <$> active (inner a) !! key |}.
  - intros c pr ip sp lt e a Ha Hd. destruct (stub_allocate_law c pr ip sp lt e a Ha Hd) as (a' & r & Hr & Ha' & Hres).
    exists a', r. split; [done|]. split; [done|]. destruct r as [al|]; [|done]. destruct Hres as (H1 & H2 & ->). done.
  - intros al e a a' r [HI Hf] [= <- <-]. rewrite release_at_held, lookup_delete_eq, release_at_cfg.
    split; [|done]. split; [by apply release_at_inv|done].
  - intros c ip pr e a a' r [HI Hf] Hr. apply stub_release_by_client_law in Hr as (HI' & Hc & Hr); [|done]. rewrite Hc. split; [done|].
    destruct r as [[]|]; [|done..]. destruct Hr as (al & H1 & H2 & H3). exists al. by rewrite H3.
  - intros c now a a' info [HI Hf] Hr. cbn in Hr. pose proof (status_table c now a HI) as Hs.
    assert (Hc : cfg a' = cfg a) by (unfold rate_limit_status_at in Hr; cbn zeta in Hr; destruct (rate_limit_log _ !! c); by injection Hr as <- _).
    rewrite Hr in Hs. destruct Hs as (Ha & [Hi Hj] & HI'). rewrite Hc, Ha. split; [done|]. split; [done|].
    unfold in_width, u8_max, u16_max in *. lia.
  - intros entries now a a' live [HI Hf] Hr. cbn in Hr.
    assert (HI' : Inv (inner a')) by (pose proof (table_step_inv _ _ (step_restore a entries now) HI) as H; by rewrite Hr in H).
    assert (Hc : cfg a' = cfg a) by (unfold restore_at in Hr; by destruct (fold_left _ _ _); injection Hr as <- _).
    apply restore_at_spec in Hr as (_ & Hin & _). rewrite Hc. split; [done|]. intros al Hal. by rewrite (Hin al Hal).
Defined.

Section NftLaws.
Context `{E : NftExecutor} `{L : !NftLaws E}.
Implicit Types b : NftablesBackend.

Lemma history_fits b : history b -> fits (cfg (allocator b)).
Proof using L. intros ->%history_cfg. done. Qed.

Lemma find_tuple_none c ip pr b : 
  List.find (fun al => (internal_ip al =? c) && (internal_port al =? ip) && bool_decide (proto al = pr)) (snapshot_active (allocator b)) = None ->
  forall key al, held b key = Some al -> ~ tuple_of al c ip pr.
Proof using Type.
  intros Hf key al Hl (Hc & Hi & Hp). assert (Hin : In al (snapshot_active (allocator b))).
  { apply list_elem_of_In. unfold snapshot_active. apply list_elem_of_fmap. exists (key, al). split; [done|]. by apply elem_of_map_to_list. }
  pose proof (List.find_none _ _ Hf al Hin) as H. cbn in H. by rewrite Hc, Hi, Hp, !Z.eqb_refl, bool_decide_eq_true_2 in H.
Qed.

#[export] Instance nft_laws : BackendLaws NftablesBackend.
Proof using L.
  refine {| sound := history; holds := held; routes := forwards |}.
  - intros c pr ip sp lt e b Hb Hd. unfold allocate, nft_backend.
    destruct (allocate_at c pr ip sp lt (clock e) (undo_clock e) (draws e) (until e) (taken e) b) as [[b' r]|] eqn:Ea; [|by apply allocate_at_returns in Ea].
    exists b', r. split; [done|]. split; [by eapply allocate_step|]. pose proof (history_mirrored _ Hb) as Hm.
    apply allocate_mirrored in Ea as HA; [|done]. apply allocate_answers in Ea as [_ Hans]; [|apply Hm].
    apply answered_fits in Hans; [|by apply history_fits|done]. destruct r as [al|]; [|done]. destruct Hans as [H1 H2].
    destruct HA as [[_ Hm'] Ha]. destruct (Ha al eq_refl) as (_ & _ & _ & Hh & Hs). by rewrite (Hm' _ Hs), Hh.
  - intros al e b b' r Hb Hr. split; [by apply (f_equal fst) in Hr; cbn in Hr; subst b'; apply release_step|].
    apply release_spec in Hr as [[_ Hm] Hr]; [|by apply history_mirrored]. destruct r as [[]|].
    + destruct Hr as [Hh Hs]. by rewrite (Hm _ Hs), Hh.
    + unfold held. by rewrite Hr.
  - intros c ip pr e b b' r Hb Hr. split; [by apply (f_equal fst) in Hr; cbn in Hr; subst b'; apply client_release_step|].
    apply release_by_client_spec in Hr as HS; [|by apply history_mirrored]. destruct HS as [[_ Hm] HS]. destruct r as [[]|].
    + destruct HS as (al & H1 & H2 & H3 & H4 & Hh & Hs). exists al. by rewrite (Hm _ Hs), Hh.
    + unfold release_by_client, nft_backend, NatPmpBackend.release_by_client in Hr. destruct (List.find _ _) as [al|] eqn:Ef.
      { destruct (delete_element _ _ b) as [b1 [[]|]]; done. }
      injection Hr as <-. split; [done|]. by apply find_tuple_none.
    + unfold held. by rewrite HS.
  - intros c now b b' info Hb Hr. split; [by apply (f_equal fst) in Hr; cbn in Hr; subst b'; apply status_step|].
    unfold rate_limit_status, nft_backend, NatPmpBackend.rate_limit_status in Hr.
    pose proof (status_table c now (allocator b) (proj1 (history_mirrored _ Hb))) as Hs.
    destruct (rate_limit_status_at c now (allocator b)) as [a i]. injection Hr as <- <-. destruct Hs as (Ha & [Hi Hj] & _).
    unfold held. cbn. rewrite Ha. split; [done|]. unfold in_width, u8_max, u16_max in *. lia.
  - intros entries now b b' live Hb Hr. split; [by apply (f_equal fst) in Hr; cbn in Hr; subst b'; apply restore_step|].
    apply restore_mirrored in Hr as [[_ Hm] Hl]; [|by apply history_mirrored]. intros al [Hh Hs]%Hl. by rewrite (Hm _ Hs), Hh.
Defined.

End NftLaws.

(** ** Widths *)

Lemma byte_at_width buf i : all_bytes buf -> is_byte (NatPmpProtocol.byte_at buf i).
Proof.
  intros Hb. unfold NatPmpProtocol.byte_at. destruct (buf !! i) as [x|] eqn:E; [|done]. by apply (Forall_lookup_1 _ _ _ _ Hb E).
Qed.

Lemma be_at_width buf i n : all_bytes buf -> in_width (8 * Z.of_nat n) (NatPmpProtocol.be_at buf i n).
Proof.
  intros Hb. unfold NatPmpProtocol.be_at. pose proof (be_val_bound (NatPmpProtocol.byte_at buf <$> seq i n)) as H.
  rewrite length_fmap, length_seq in H. apply H. apply Forall_forall. intros x (j & -> & _)%list_elem_of_fmap. by apply byte_at_width.
Qed.

Lemma parse_request_width frame pr ip sp lt : all_bytes frame -> NatPmpProtocol.parse_request frame = Ok (NatPmpProtocol.ReqMap pr ip sp lt) ->
  in_width 16 ip /\ in_width 16 sp /\ in_width 32 lt.
Proof.
  intros Hb. unfold NatPmpProtocol.parse_request. repeat case_match; try done; intros [= _ <- <- <-]; (split_and!; by apply be_at_width).
Qed.

Lemma capped_width x : 0 <= x -> in_width 32 (if x <=? u32_max then x else u32_max).
Proof. intros Hx. unfold in_width, u32_max. case_match; lia. Qed.

Lemma epoch_width w : 0 <= epoch_elapsed w -> in_width 32 (epoch_secs w).
Proof. intros Hw. apply capped_width. by apply Z.div_pos. Qed.

Lemma error_response_valid frame code ep : in_width 32 ep -> NatPmpProtocol.valid_response (error_response frame code ep).
Proof. intros H. unfold error_response. by repeat case_match. Qed.

Lemma success_valid al ip ep now info : in_width 32 ep -> in_width 16 ip -> in_width 16 (external_port al) -> NatPmpProtocol.valid_info info ->
  NatPmpProtocol.valid_response (map_success_response al ip ep now (Some info)).
Proof. intros. cbn. split_and!; try done; try apply H2. apply capped_width, Z.div_pos; [lia|done]. Qed.

Lemma failure_valid pr ip e ep : in_width 32 ep -> in_width 16 ip -> match e with RateLimited _ secs => in_width 16 secs | _ => True end ->
  NatPmpProtocol.valid_response (map_failure_response pr ip e ep).
Proof. intros. by destruct e. Qed.

(** ** The guarantee *)

Definition code_of (r : NatPmpProtocol.Response) : NatPmpProtocol.ResultCode :=
  match r with NatPmpProtocol.RespExternalAddress c _ _ => c | NatPmpProtocol.RespMap _ c _ _ _ _ _ => c end.
Definition port_of (r : NatPmpProtocol.Response) : option Z :=
  match r with NatPmpProtocol.RespExternalAddress _ _ _ => None | NatPmpProtocol.RespMap _ _ _ _ p _ _ => Some p end.

Definition life_of (r : NatPmpProtocol.Response) : Z :=
  match r with NatPmpProtocol.RespExternalAddress _ _ _ => 0 | NatPmpProtocol.RespMap _ _ _ _ _ lt _ => lt end.

(** The response names the allocation's port, and a lifetime the lease still has when it is sent. *)
Definition tells (r : NatPmpProtocol.Response) (al : Allocation) (now : Z) : Prop :=
  port_of r = Some (external_port al) /\ from_secs (life_of r) <= Z.max 0 (expires_at al - now).

Lemma success_tells al ip ep now rl : tells (map_success_response al ip ep now rl) al now.
Proof.
  split; [done|]. unfold map_success_response, life_of, from_secs. cbn zeta. set (left_ns := Z.max 0 (expires_at al - now)).
  pose proof (Z.mul_div_le left_ns NANOS_PER_SEC ltac:(done)). destruct (Z.leb_spec (left_ns / NANOS_PER_SEC) u32_max); unfold NANOS_PER_SEC in *; lia.
Qed.

(** The deployer lets a Map request with this lifetime through. *)
Definition admitted (s : Server) (frame : list Z) (w : Weather) (lifetime_secs : Z) : Prop :=
  lifetime_secs = 0 \/
  match credential_authority s with
  | None => True
  | Some a => match NatPmpProtocol.credential_trailer frame with Some _ => verdict w = Some Grant | None => requires_credential a = false end
  end.

(** The request may reach the backend. *)
Definition served (s : Server) (frame : list Z) (src : IpAddr) (w : Weather) : Prop :=
  exists c pr ip sp lt, src = V4 c /\ auth_filter s c = true /\ NatPmpProtocol.parse_request frame = Ok (NatPmpProtocol.ReqMap pr ip sp lt) /\
    admitted s frame w lt /\ slot_acquired w = true.

Lemma present_spec s frame c pr ip w ev r : in_width 32 (epoch_secs w) -> in_width 16 ip -> present_credential s frame c pr ip w = (ev, r) ->
  (forall cred al, OnGranted cred al ∉ ev) /\
  match r with
  | Err resp => NatPmpProtocol.valid_response resp /\ code_of resp <> NatPmpProtocol.Success /\ forall lt, admitted s frame w lt -> lt = 0
  | Ok binding => (forall lt, admitted s frame w lt) /\ forall cred, binding = Some cred -> NatPmpProtocol.credential_trailer frame = Some cred
  end.
Proof.
  intros He Hip. unfold present_credential, admitted. destruct (credential_authority s) as [a|]; [|intros [= <- <-]].
  - destruct (NatPmpProtocol.credential_trailer frame) as [cred|] eqn:Et.
    + intros [= <- <-]. split; [by intros cred' al ?%list_elem_of_singleton|].
      destruct (verdict w) as [[]|] eqn:Ev; [split; [by right|by intros ? [= <-]]|split_and!; [done|done|by intros lt []]|].
      split_and!; [by apply error_response_valid|unfold error_response; by repeat case_match|by intros lt []].
    + intros [= <- <-]. split; [by intros cred al ?%elem_of_nil|]. destruct (requires_credential a); [split_and!; [done|done|by intros lt []]|split; [by right|done]].
  - split; [by intros cred al ?%elem_of_nil|]. split; [by right|done].
Qed.

Lemma error_code frame code ep : code_of (error_response frame code ep) = code.
Proof. unfold error_response. by repeat case_match. Qed.

Lemma failure_code pr ip e ep : code_of (map_failure_response pr ip e ep) <> NatPmpProtocol.Success.
Proof. by destruct e. Qed.

Section Guarantee.
Context {B : Type} `{Laws : BackendLaws B}.
Implicit Types b : B.

(** The call a grant makes to the backend. *)
Definition asks (c : Z) (pr : NatPmpProtocol.MapProto) (ip sp lt : Z) (w : Weather) b : option (B * result Allocation NatPmpError) :=
  allocate c (proto_from_wire pr) ip sp (from_secs (Z.min (Z.max lt NATPMP_LIFETIME_MIN_SECS) NATPMP_LIFETIME_MAX_SECS)) (ambient w) b.

(** What the backend holds for an answered mapping. *)
Definition stands (c ip : Z) (pr : Proto) (al : Allocation) b : Prop :=
  tuple_of al c ip pr /\ holds b (slot_of al) = Some al /\ routes b (slot_of al) = Some (rule al).

(** A grant nobody waited for was given to the backend's [release]: it is gone when that succeeds, and the table is as it was when that
    fails. *)
Definition rolled_back (al : Allocation) (w : Weather) (others : B -> B) b1 b' : Prop :=
  exists b2 r, release al (ambient w) b1 = (b2, r) /\ b' = others b2 /\
    match r with Ok _ => holds b2 (slot_of al) = None /\ routes b2 (slot_of al) = None | Err _ => holds b2 = holds b1 end.

(** What becomes of a mapping the backend granted, leaving [b1]: told in time it stands; a grant that came after the request had
    stopped waiting is rolled back; one sent just as the request's timer fired stands although the client is told of a failure. *)
Definition fate (al : Allocation) (w : Weather) (others : B -> B) b1 b' (resp : NatPmpProtocol.Response) : Prop :=
  match delivery w with
  | InTime => code_of resp = NatPmpProtocol.Success /\ tells resp al (answer_clock w) /\ holds b' = holds (others b1)
  | Late => code_of resp = NatPmpProtocol.NetworkFailure /\ rolled_back al w others b1 b'
  | Crossed => code_of resp = NatPmpProtocol.NetworkFailure /\ b' = others b1
  end.

(** What a delete that is answered with success did. *)
Definition cleared (c ip : Z) (pr : Proto) b b' : Prop :=
  (b' = b /\ forall key al, holds b key = Some al -> ~ tuple_of al c ip pr) \/
  exists al, tuple_of al c ip pr /\ holds b (slot_of al) = Some al /\ holds b' (slot_of al) = None /\ routes b' (slot_of al) = None.

Lemma delete_dispatched s frame c pr ip w b b' ev resp :
  in_width 32 (epoch_secs w) -> in_width 16 ip -> sound b -> dispatch_delete s frame c pr ip w b = (b', ev, resp) ->
  sound b' /\ NatPmpProtocol.valid_response resp /\ (forall cred al, OnGranted cred al ∉ ev) /\ (b' = b \/ slot_acquired w = true) /\
  (code_of resp = NatPmpProtocol.Success -> slot_acquired w = true /\ delivery w = InTime /\ cleared c ip (proto_from_wire pr) b b').
Proof using Type.
  intros He Hip Hb. unfold dispatch_delete. destruct (slot_acquired w).
  2:{ intros [= <- <- <-]. split_and!; [done|by apply error_response_valid|by intros ?? ?%elem_of_nil|by left|by rewrite error_code]. }
  destruct (release_by_client c ip (proto_from_wire pr) (ambient w) b) as [b1 r] eqn:Er.
  apply release_by_client_law in Er as [Hb1 Hr]; [|done]. 
  assert (Hfail : (b1, [], error_response frame NatPmpProtocol.NetworkFailure (epoch_secs w)) = (b', ev, resp) ->
    sound b' /\ NatPmpProtocol.valid_response resp /\ (forall cred al, OnGranted cred al ∉ ev) /\ (b' = b \/ true = true) /\
    (code_of resp = NatPmpProtocol.Success -> true = true /\ delivery w = InTime /\ cleared c ip (proto_from_wire pr) b b')).
  { intros [= <- <- <-]. split_and!; [done|by apply error_response_valid|by intros ?? ?%elem_of_nil|by right|by rewrite error_code]. }
  destruct (delivery w); [|done..]. destruct r as [released|e]; [|done]. intros [= <- <- <-]. split; [done|]. split; [done|].
  split; [|split; [by right|]].
  - intros cred al. destruct (credential_authority s), released; (by intros ?%list_elem_of_singleton) || by intros ?%elem_of_nil.
  - intros _. split; [done|]. split; [done|]. destruct released; [right; exact Hr|left; exact Hr].
Qed.

Lemma task_spec c pr ip sp lt binding w b : sound b -> draw_ok (draws (ambient w)) ->
  exists b1 r, asks c pr ip sp lt w b = Some (b1, r) /\ 
    match r with
    | Err e => grant_task c pr ip sp lt binding w b = Some (b1, [], Err e) /\ sound b1 /\
        match e with RateLimited _ secs => in_width 16 secs | _ => True end
    | Ok al => stands c ip (proto_from_wire pr) al b1 /\ sound b1 /\ in_width 16 (external_port al) /\
        exists b2 ev, grant_task c pr ip sp lt binding w b = Some (b2, ev, Ok al) /\ sound b2 /\
          (forall cred al', OnGranted cred al' ∈ ev -> binding = Some cred /\ al' = al) /\
          match delivery w with Late => exists rr, release al (ambient w) b1 = (b2, rr) | _ => b2 = b1 end
    end.
Proof using Type.
  intros Hb Hd. unfold asks, grant_task. cbn zeta.
  match goal with |- context [allocate c ?p ip sp ?l (ambient w) b] => destruct (allocate_law c p ip sp l (ambient w) b Hb Hd) as (b1 & r & -> & Hb1 & Hr) end.
  exists b1, r. split; [done|]. cbn [mbind option_bind]. destruct r as [al|e]; [|done]. destruct Hr as (Ht & Hw & Hh & Hro).
  split; [done|]. split; [done|]. split; [done|].
  assert (Hev : forall cred al', OnGranted cred al' ∈ match binding with Some credential => [OnGranted credential al] | None => [] end -> binding = Some cred /\ al' = al).
  { intros cred al'. destruct binding; [|by intros ?%elem_of_nil]. by intros [= -> ->]%list_elem_of_singleton. }
  destruct (delivery w); [by do 2 eexists| |by do 2 eexists].
  destruct (release al (ambient w) b1) as [b2 rr] eqn:Er. apply release_law in Er as Hl; [|done]. exists b2. eexists. cbn [fst].
  split; [reflexivity|]. split; [apply Hl|]. split; [done|]. by exists rr.
Qed.

Lemma grant_dispatched frame c pr ip sp lt binding w others b :
  in_width 32 (epoch_secs w) -> in_width 16 ip -> sound b -> draw_ok (draws (ambient w)) -> (forall b0, sound b0 -> sound (others b0)) ->
  exists b' ev resp, dispatch_grant frame c pr ip sp lt binding w others b = Some (b', ev, resp) /\ sound b' /\
  NatPmpProtocol.valid_response resp /\ (b' = b /\ ev = [] \/ slot_acquired w = true) /\
  (forall cred al, OnGranted cred al ∈ ev -> binding = Some cred /\ internal_ip al = c) /\
  (code_of resp = NatPmpProtocol.Success -> slot_acquired w = true /\ delivery w = InTime /\
     exists b1 al, asks c pr ip sp lt w b = Some (b1, Ok al) /\ stands c ip (proto_from_wire pr) al b1 /\ tells resp al (answer_clock w)) /\
  (slot_acquired w = true -> forall b1 al, asks c pr ip sp lt w b = Some (b1, Ok al) -> fate al w others b1 b' resp).
Proof using Type.
  intros He Hip Hb Hd Ho. unfold dispatch_grant. destruct (slot_acquired w).
  2:{ do 3 eexists. split; [done|]. split_and!; [done|by apply error_response_valid|by left|by intros ?? ?%elem_of_nil|by rewrite error_code|done]. }
  destruct (task_spec c pr ip sp lt binding w b Hb Hd) as (b1 & r & Ha & Hr). destruct r as [al|e].
  - destruct Hr as (Hst & Hb1 & Hw & b2 & ev & -> & Hb2 & Hev & Hdel). cbn [mbind option_bind].
    assert (Hev' : forall cred al', OnGranted cred al' ∈ ev -> binding = Some cred /\ internal_ip al' = c).
    { intros cred al' [-> ->]%Hev. split; [done|apply Hst]. }
    assert (Hfate : forall b' resp, fate al w others b1 b' resp ->
      forall b1' al', asks c pr ip sp lt w b = Some (b1', Ok al') -> fate al' w others b1' b' resp).
    { intros b' resp Hf b1' al'. rewrite Ha. by intros [= <- <-]. }
    unfold fate at 1 in Hfate. destruct (delivery w) eqn:Ed.
    + subst b2. destruct (rate_limit_status c (answer_clock w) (others b1)) as [b3 info] eqn:Es.
      apply status_law in Es as (Hb3 & Hh3 & Hi1 & Hi2); [|by apply Ho]. do 3 eexists. split; [done|].
      split_and!; [done|by apply success_valid|by right|done| |].
      * intros _. split; [done|]. split; [done|]. exists b1, al. split; [done|]. split; [done|]. apply success_tells.
      * intros _. apply Hfate. split; [done|]. split; [apply success_tells|done].
    + do 3 eexists. split; [done|]. split_and!; [by apply Ho|by apply failure_valid|by right|done|by intros ?%failure_code|].
      intros _. apply Hfate. split; [done|]. destruct Hdel as [rr Hrel]. exists b2, rr. split; [done|]. split; [done|].
      by apply release_law in Hrel as [_ ?].
    + do 3 eexists. split; [done|]. split_and!; [by apply Ho|by apply failure_valid|by right|done|by intros ?%failure_code|].
      intros _. apply Hfate. by subst b2.
  - destruct Hr as (-> & Hb1 & Hw). cbn [mbind option_bind].
    assert (Hnone : forall cred al, OnGranted cred al ∈ @nil Event -> binding = Some cred /\ internal_ip al = c) by (by intros ?? ?%elem_of_nil).
    assert (Hlate : forall b' resp b1' al', asks c pr ip sp lt w b = Some (b1', Ok al') -> fate al' w others b1' b' resp) by (intros *; by rewrite Ha).
    destruct (delivery w); do 3 eexists; (split; [done|]); split_and!;
      try (by apply Ho); try (by apply failure_valid); try (by right); try (by intros ?%failure_code); eauto.
Qed.


(** What the guarantee says of an answered datagram. *)
Definition closed s frame src w (others : B -> B) b b' (ev : list Event) resp : Prop :=
  sound b' /\ NatPmpProtocol.parse_response (NatPmpProtocol.serialize_response resp) = Ok resp /\
  (b' = b \/ served s frame src w) /\
  (forall cred al, OnGranted cred al ∈ ev ->
     served s frame src w /\ NatPmpProtocol.credential_trailer frame = Some cred /\ src = V4 (internal_ip al)) /\
  (forall c pr ip sp lt, src = V4 c -> NatPmpProtocol.parse_request frame = Ok (NatPmpProtocol.ReqMap pr ip sp lt) ->
     (code_of resp = NatPmpProtocol.Success -> served s frame src w /\ delivery w = InTime /\
        if lt =? 0 then cleared c ip (proto_from_wire pr) b b'
        else exists b1 al, asks c pr ip sp lt w b = Some (b1, Ok al) /\ stands c ip (proto_from_wire pr) al b1 /\
               tells resp al (answer_clock w)) /\
     (served s frame src w -> lt <> 0 ->
        forall b1 al, asks c pr ip sp lt w b = Some (b1, Ok al) -> fate al w others b1 b' resp)).

(** A datagram turned away. *)
Lemma untouched s frame src w others b ev resp :
  sound b -> NatPmpProtocol.valid_response resp -> (forall cred al, OnGranted cred al ∉ ev) ->
  (forall c pr ip sp lt, src = V4 c -> NatPmpProtocol.parse_request frame = Ok (NatPmpProtocol.ReqMap pr ip sp lt) ->
     code_of resp <> NatPmpProtocol.Success /\ (served s frame src w -> lt = 0)) ->
  closed s frame src w others b b ev resp.
Proof using Type.
  intros Hb Hv Hev Hr. split; [done|]. split; [by apply NatPmpProtocol.response_roundtrip|]. split; [by left|].
  split; [intros cred al ?; by destruct (Hev cred al)|]. intros c pr ip sp lt Hs Hp. destruct (Hr c pr ip sp lt Hs Hp) as [Hc Hl].
  split; [done|]. by intros ?%Hl.
Qed.

Lemma map_request_closed s frame c pr ip sp lt w others b :
  in_width 32 (epoch_secs w) -> in_width 16 ip -> sound b -> draw_ok (draws (ambient w)) -> (forall b0, sound b0 -> sound (others b0)) ->
  auth_filter s c = true -> NatPmpProtocol.parse_request frame = Ok (NatPmpProtocol.ReqMap pr ip sp lt) ->
  exists b' ev resp, dispatch s frame (V4 c) w others b = Some (b', ev, resp) /\ closed s frame (V4 c) w others b b' ev resp.
Proof using Type.
  intros He Hip Hb Hd Ho Hauth Hp. unfold dispatch. rewrite Hauth, Hp. cbn [negb].
  assert (Hserved : admitted s frame w lt -> slot_acquired w = true -> served s frame (V4 c) w) by (intros; by exists c, pr, ip, sp, lt).
  destruct (Z.eqb_spec lt 0) as [->|Hlt].
  - destruct (dispatch_delete s frame c pr ip w b) as [[b' ev] resp] eqn:Ed.
    apply delete_dispatched in Ed as (Hb' & Hv & Hev & Hslot & Hok); [|done..]. exists b', ev, resp. split; [done|].
    split; [done|]. split; [by apply NatPmpProtocol.response_roundtrip|].
    split; [destruct Hslot; [by left|right; apply Hserved; [by left|done]]|]. split; [intros cred al ?; by destruct (Hev cred al)|].
    intros c' pr' ip' sp' lt' [= <-] Hp'. rewrite Hp in Hp'. injection Hp' as <- <- <- <-. split; [|done].
    intros (Hs & Hdel & Hc)%Hok. split; [apply Hserved; [by left|done]|done].
  - destruct (present_credential s frame c pr ip w) as [presented r] eqn:Ep. apply present_spec in Ep as [Hev Hr]; [|done..].
    destruct r as [binding|refused].
    + destruct Hr as [Hadm Hbind].
      destruct (grant_dispatched frame c pr ip sp lt binding w others b He Hip Hb Hd Ho) as (b' & ev & resp & -> & Hb' & Hv & Hslot & Hgr & Hok & Hlate).
      cbn [mbind option_bind]. exists b', (presented ++ ev), resp. split; [done|]. split; [done|]. split; [by apply NatPmpProtocol.response_roundtrip|].
      split; [destruct Hslot as [[]|]; [by left|right; by apply Hserved]|]. split.
      * intros cred al [Hin|Hin]%elem_of_app; [by destruct (Hev cred al)|]. destruct (Hgr cred al Hin) as [Hb1 <-]. split; [|by split; [apply Hbind|]].
        apply Hserved; [done|]. destruct Hslot as [[_ ->]|]; [by apply elem_of_nil in Hin|done].
      * intros c' pr' ip' sp' lt' [= <-] Hp'. rewrite Hp in Hp'. injection Hp' as <- <- <- <-. split.
        -- intros (Hs & Hdel & Hc)%Hok. split; [by apply Hserved|]. split; [done|]. by rewrite (proj2 (Z.eqb_neq lt 0) Hlt).
        -- intros (? & ? & ? & ? & ? & _ & _ & _ & _ & Hs) _. by apply Hlate.
    + exists b, presented, refused. split; [done|]. destruct Hr as (Hv & Hc & Hadm). apply untouched; [done..|].
      intros c' pr' ip' sp' lt' _ Hp'. split; [done|].
      intros (c1 & pr1 & ip1 & sp1 & lt1 & _ & _ & Hp1 & Hadm1 & _). rewrite Hp1 in Hp'. injection Hp' as <- <- <- <-. by apply Hadm.
Qed.

Lemma dispatch_closed s frame src w others b :
  all_bytes frame -> in_width 32 (public_ip s) -> 0 <= epoch_elapsed w -> draw_ok (draws (ambient w)) ->
  sound b -> (forall b0, sound b0 -> sound (others b0)) ->
  exists b' ev resp, dispatch s frame src w others b = Some (b', ev, resp) /\ closed s frame src w others b b' ev resp.
Proof using Type.
  intros Hf Hip He Hd Hb Ho. apply epoch_width in He.
  assert (Haway : forall code, code <> NatPmpProtocol.Success ->
    (forall c pr ip sp lt, src = V4 c -> NatPmpProtocol.parse_request frame = Ok (NatPmpProtocol.ReqMap pr ip sp lt) -> served s frame src w -> lt = 0) ->
    closed s frame src w others b b [] (error_response frame code (epoch_secs w))).
  { intros code Hcode Hs. apply untouched; [done|by apply error_response_valid|by intros ?? ?%elem_of_nil|].
    intros c pr ip sp lt Hc Hp. rewrite error_code. split; [done|]. by eapply Hs. }
  destruct src as [c|v6].
  2:{ do 3 eexists. split; [done|]. by apply Haway. }
  destruct (auth_filter s c) eqn:Ea.
  2:{ do 3 eexists. split; [unfold dispatch; by rewrite Ea|]. apply Haway; [done|]. intros ? ? ? ? ? _ _ (c' & ? & ? & ? & ? & [= <-] & Ha & _). congruence. }
  destruct (NatPmpProtocol.parse_request frame) as [[|pr ip sp lt]|e] eqn:Ep.
  - do 3 eexists. split; [unfold dispatch; by rewrite Ea, Ep|]. apply untouched; [done|done|by intros ?? ?%elem_of_nil|]. intros ? ? ? ? ? _. by rewrite Ep.
  - destruct (parse_request_width _ _ _ _ _ Hf Ep) as (Hw & _). by apply (map_request_closed s frame c pr ip sp lt).
  - destruct e; (do 3 eexists; split; [unfold dispatch; by rewrite Ea, Ep|]; apply Haway; [done|]; by intros ? ? ? ? ? _).
Qed.

(** C17.  The NAT-PMP service fails closed and tells the truth.  Whatever datagram comes from wherever,
    and however the deployer, the clock and the other requests behave, it is answered with a response a client can parse,
    and the backend stays sound.  The backend is touched, and a credential bound, only for a source
    the filter admits whose credential was granted, or that needed none.  A Map request answered
    with success stood in the table, was routed to the client, and has the lifetime it is told; a delete answered with success removed the mapping
    or had none to remove.  A mapping the backend granted is told when its answer comes in time; when it comes after the request stopped
    waiting, the client is told of a failure and the mapping is given back to the backend, gone unless that removal fails; when it is
    sent just as the request's timer fires, the client is told of a failure and the mapping stands
    ([crossed_answer_keeps_mapping]). *)
Theorem dispatch_fails_closed s frame src w others b :
  all_bytes frame -> in_width 32 (public_ip s) -> 0 <= epoch_elapsed w -> draw_ok (draws (ambient w)) ->
  sound b -> (forall b0, sound b0 -> sound (others b0)) ->
  exists b' ev resp, dispatch s frame src w others b = Some (b', ev, resp) /\ sound b' /\
  NatPmpProtocol.parse_response (NatPmpProtocol.serialize_response resp) = Ok resp /\
  (b' = b \/ served s frame src w) /\
  (forall cred al, OnGranted cred al ∈ ev ->
     served s frame src w /\ NatPmpProtocol.credential_trailer frame = Some cred /\ src = V4 (internal_ip al)) /\
  (forall c pr ip sp lt, src = V4 c -> NatPmpProtocol.parse_request frame = Ok (NatPmpProtocol.ReqMap pr ip sp lt) ->
     (code_of resp = NatPmpProtocol.Success -> served s frame src w /\ delivery w = InTime /\
        if lt =? 0 then cleared c ip (proto_from_wire pr) b b'
        else exists b1 al, asks c pr ip sp lt w b = Some (b1, Ok al) /\ stands c ip (proto_from_wire pr) al b1 /\
               tells resp al (answer_clock w)) /\
     (served s frame src w -> lt <> 0 ->
        forall b1 al, asks c pr ip sp lt w b = Some (b1, Ok al) -> fate al w others b1 b' resp)).
Proof using Type. apply dispatch_closed. Qed.

End Guarantee.

(** ** A gated exit *)

(** A deployer that wants a credential, and a client at 10.66.0.2 that presents one. *)
Definition gated : Server := with_credential_authority (mkAuthority true) (bind 0xC6336401).
Definition pool_client : Z := 0x0A420002.
Definition map_frame : list Z :=
  fst (NatPmpProtocol.append_credential_trailer (NatPmpProtocol.serialize_request (NatPmpProtocol.ReqMap NatPmpProtocol.MapTcp 8080 50000 3600)) [9; 8; 7]).
Definition fair_weather (d : Delivery) (now : Z) : Weather :=
  mkWeather now (Some Grant) true d (mkAmbient now now (fun _ _ => 0) 0 (fun _ => [])) now.

Definition visit (d : Delivery) (now : Z) (b : NftablesBackend) : option (NftablesBackend * list Event * NatPmpProtocol.Response) :=
  dispatch gated map_frame (V4 pool_client) (fair_weather d now) id b.

Lemma map_frame_bytes : all_bytes map_frame.
Proof. apply Forall_fold_right. vm_compute. intuition congruence. Qed.

Lemma visit_answered : match toy_start with
  | Some b => match visit InTime 0 b with Some (_, _, resp) => code_of resp = NatPmpProtocol.Success /\ port_of resp = Some 50000 | None => False end
  | None => False
  end.
Proof. vm_compute. done. Qed.

Lemma toy_start_history b : toy_start = Some b -> history b.
Proof.
  unfold toy_start. destruct (with_names _ _ _ _ _ _) as [[k' [b'|e]]|] eqn:Ew; [|done..]. intros [= ->]. by eapply setup_step.
Qed.

Lemma dispatch_fails_closed_witness : exists b b' ev resp, toy_start = Some b /\ visit InTime 0 b = Some (b', ev, resp) /\
  code_of resp = NatPmpProtocol.Success /\ port_of resp = Some 50000 /\
  NatPmpProtocol.parse_response (NatPmpProtocol.serialize_response resp) = Ok resp.
Proof.
  pose proof visit_answered as Hv. destruct toy_start as [b|] eqn:Eb; [|done]. exists b.
  destruct (dispatch_fails_closed (B := NftablesBackend) gated map_frame (V4 pool_client) (fair_weather InTime 0) id b)
    as (b' & ev & resp & Hd & _ & Hparse & _);
    [exact map_frame_bytes|by vm_compute|by vm_compute|intros ?? ?; cbn; lia|exact (toy_start_history b Eb)|done|].
  exists b', ev, resp. fold (visit InTime 0 b) in Hd. rewrite Hd in Hv. split; [done|]. split; [exact Hd|]. destruct Hv. by split_and!.
Defined.

(** The result is sent just as the request's timer fires: the client is told of a failure, and the mapping stands. *)
Lemma crossed_answer_keeps_mapping : match toy_start ≫= visit Crossed 0 with
  | Some (b, _, resp) => code_of resp = NatPmpProtocol.NetworkFailure /\ forwards b (50000, Tcp) = Some (pool_client, 8080)
  | None => False
  end.
Proof. vm_compute. done. Qed.

(** A renewal that comes too late takes the running mapping with it. *)
Lemma late_renewal_drops_mapping : match toy_start ≫= visit InTime 0 with
  | Some (b1, _, resp1) => code_of resp1 = NatPmpProtocol.Success /\ forwards b1 (50000, Tcp) = Some (pool_client, 8080) /\
      match visit Late (from_secs 600) b1 with
      | Some (b2, _, resp2) => code_of resp2 = NatPmpProtocol.NetworkFailure /\ forwards b2 (50000, Tcp) = None
      | None => False
      end
  | None => False
  end.
Proof. vm_compute. done. Qed.
