(* ===== verification/NatPmpClient.v ===== *)
(** The NAT-PMP client ([crates/warrenguard-natpmp-client/src/lib.rs], [refresh.rs]): one request with its retransmissions, and
    the loop that keeps a forward rule alive.

    The network is an argument: what each attempt meets, and where the caller cancels.  A request returns what was
    sent and how long it took; a cycle of the loop returns its log.  [None] is a panic. *)

From S2P Require Import Prelude NatPmpProtocol.
Import NatPmpProtocol.

(** ** One request *)

Record NatPmpMapping := mkMapping {
  map_proto : MapProto;
  map_internal_port : Z;
  map_external_port : Z;
  map_lifetime_secs : Z;
  map_epoch_secs : Z;
  map_rate_limit : option RateLimitInfo;
}.

Inductive NatPmpClientError :=
| IoError
| TimedOut
| BadResponse (e : ParseError)
| ServerRefused (code : ResultCode)
| ClientRateLimited (retry_after_secs : Z)
| UnexpectedOpcode.

Definition DEFAULT_MAX_ATTEMPTS : nat := 5.
Definition INITIAL_TIMEOUT_MS : Z := 250.
(** The length of the receive buffer. *)
Definition RECV_BUF : nat := 64.

(** What one attempt meets: whether the send succeeds, and what [recv] returns before the timeout, after so many milliseconds. *)
Inductive Recv := Silence | RecvError (ms : Z) | Datagram (ms : Z) (d : list Z).
Record Attempt := mkAttempt { sent_ok : bool; received : Recv }.
Record Net := mkNet { bound : bool; connected : bool; attempt_at : nat -> Attempt }.

Definition request_bytes (proto : MapProto) (internal_port suggested lifetime_secs : Z) (credential : option (list Z)) : list Z :=
  let req_bytes := serialize_request (ReqMap proto internal_port suggested lifetime_secs) in
  match credential with Some c => fst (append_credential_trailer req_bytes c) | None => req_bytes end.

Definition read_response (d : list Z) : result NatPmpMapping NatPmpClientError :=
  match parse_response (take RECV_BUF d) with
  | Err e => Err (BadResponse e)
  | Ok (RespMap proto Success epoch ip xp lt rl) => Ok (mkMapping proto ip xp lt epoch rl)
  | Ok (RespMap _ RateLimited _ _ _ _ rl) => Err (ClientRateLimited (match rl with Some info => window_reset_secs info | None => 0 end))
  | Ok (RespMap _ code _ _ _ _ _) => Err (ServerRefused code)
  | Ok (RespExternalAddress _ _ _) => Err UnexpectedOpcode
  end.

(** What a request left: its result, the datagrams sent, the milliseconds it took. *)
Record Exchange := mkExchange { outcome : result NatPmpMapping NatPmpClientError; sent : list (list Z); took_ms : Z }.

(** The attempts still to make, from number [k]; the last arm is the [unreachable!] after the loop. *)
Fixpoint attempt_loop (tries k : nat) (timeout_ms : Z) (req_bytes : list Z) (net : Net) : option Exchange :=
  match tries with
  | O => None
  | S tries =>
      let a := attempt_at net k in
      if negb (sent_ok a) then Some (mkExchange (Err IoError) [] 0)
      else match received a with
      | Silence =>
          if (tries =? 0)%nat then Some (mkExchange (Err TimedOut) [req_bytes] timeout_ms)
          else
            x ← attempt_loop tries (S k) (Z.min u64_max (timeout_ms * 2)) req_bytes net;
            Some (mkExchange (outcome x) (req_bytes :: sent x) (timeout_ms + took_ms x))
      | RecvError ms => Some (mkExchange (Err IoError) [req_bytes] ms)
      | Datagram ms d => Some (mkExchange (read_response d) [req_bytes] ms)
      end
  end.

Definition request_map_with_credential (proto : MapProto) (internal_port suggested lifetime_secs : Z) (max_attempts : nat)
  (credential : option (list Z)) (net : Net) : option Exchange :=
  if (max_attempts =? 0)%nat then None
  else if negb (bound net) || negb (connected net) then Some (mkExchange (Err IoError) [] 0)
  else attempt_loop max_attempts 0 INITIAL_TIMEOUT_MS (request_bytes proto internal_port suggested lifetime_secs credential) net.

(** ** The forward rule *)

Inductive SuggestionKind := Pinned | Sticky.
Inductive ForwardProtos := FwdUdp | FwdTcp | FwdBoth.

Definition legs (p : ForwardProtos) : list MapProto :=
  match p with FwdUdp => [MapUdp] | FwdTcp => [MapTcp] | FwdBoth => [MapUdp; MapTcp] end.

Definition MIN_LIFETIME_FOR_REFRESH : Z := 2.
Definition INITIAL_BACKOFF_SECS : Z := 5.
Definition MAX_BACKOFF_SECS : Z := 60.
Definition MAX_INITIAL_MAP_ATTEMPTS : Z := 3.
Definition PINNED_CONFLICT_RETRY_WINDOW_SECS : Z := 600.
Definition PINNED_CONFLICT_MAX_BACKOFF_SECS : Z := 30.

Definition clamp (lo hi x : Z) : Z := if x <? lo then lo else if hi <? x then hi else x.

Definition pinned_conflict_retry_delay (waited_secs : Z) : option Z :=
  if waited_secs <? PINNED_CONFLICT_RETRY_WINDOW_SECS then Some (clamp 1 PINNED_CONFLICT_MAX_BACKOFF_SECS waited_secs) else None.

Definition epoch_indicates_restart (prev new : Z) : bool := new <? prev.

Inductive NatPmpFailureReason := SuggestedPortInUse | ReasonOutOfResources | ReasonNotAuthorized | Other.

Definition from_client_error (e : NatPmpClientError) : NatPmpFailureReason :=
  match e with
  | ServerRefused SuggestedPortUnavailable => SuggestedPortInUse
  | ServerRefused OutOfResources => ReasonOutOfResources
  | ServerRefused NotAuthorized => ReasonNotAuthorized
  | _ => Other
  end.

Inductive NatPmpEvent :=
| Mapped (external_port lifetime_secs : Z) (remaining : option Z) (window_reset : Z)
| Renewed (external_port lifetime_secs : Z) (remaining : option Z) (window_reset : Z)
| RateLimitedFor (retry_after_secs : Z)
| Failed (reason : NatPmpFailureReason) (error : NatPmpClientError)
| Cancelled.

Record RefreshLoopConfig := mkConfig {
  protos : ForwardProtos;
  internal_port : Z;
  suggested_external_port : Z;
  lifetime_secs : Z;
  suggestion : SuggestionKind;
}.

(** The variables of the task that live across cycles. *)
Record Loop := mkLoop {
  suggested : Z;
  is_first : bool;
  initial_transient_failures : Z;
  backoff_secs : Z;
  pinned_conflict_waited : Z;
  last_epoch_secs : option Z;
}.

Definition loop_start (cfg : RefreshLoopConfig) : Loop := mkLoop (suggested_external_port cfg) true 0 INITIAL_BACKOFF_SECS 0 None.

(** Those of one cycle. *)
Record Cycle := mkCycle {
  granted_this_cycle : list MapProto;
  pair_port : Z;
  min_lifetime : Z;
  external_port : Z;
  rate_limit : option RateLimitInfo;
  epoch_secs : Z;
}.

(** What a cycle meets: the credential, each leg's network or a cancel during its request, the network of the releases,
    whether a cancel ends the sleep, and whether the receiver is there. *)
Record Env := mkEnv {
  cycle_credential : option (list Z);
  leg_net : nat -> option Net;
  release_net : MapProto -> Net;
  sleep_cancelled : bool;
  receiver_alive : bool;
}.

Inductive Act :=
| Asked (proto : MapProto) (port : Z) (x : Exchange)
| Released (proto : MapProto) (x : Exchange)
| Emitted (e : NatPmpEvent)
| Slept (secs : Z).

(** [send_release]: one attempt, whose result is ignored. *)
Definition send_release (cfg : RefreshLoopConfig) (env : Env) (proto : MapProto) : option Act :=
  x ← request_map_with_credential proto (internal_port cfg) 0 0 1 None (release_net env proto); Some (Released proto x).

Definition release_all (cfg : RefreshLoopConfig) (env : Env) (ps : list MapProto) : option (list Act) := mapM (send_release cfg env) ps.

(** [select!] between the cancel and a sleep. *)
Definition rest (env : Env) (secs : Z) (s : Loop) : option Loop * list Act :=
  if sleep_cancelled env then (None, [Emitted Cancelled]) else (Some s, [Slept secs]).

Definition stop_failed (cfg : RefreshLoopConfig) (env : Env) (granted : list MapProto) (reason : NatPmpFailureReason) (e : NatPmpClientError)
  : option (option Loop * list Act) :=
  acts ← release_all cfg env granted; Some (None, acts ++ [Emitted (Failed reason e)]).

(** The arms of the match on an error: the loop goes on with the next cycle, or returned. *)
Definition on_error (cfg : RefreshLoopConfig) (env : Env) (leg_index : nat) (s : Loop) (granted : list MapProto) (e : NatPmpClientError)
  : option (option Loop * list Act) :=
  let refused_first := match e with ServerRefused SuggestedPortUnavailable => (leg_index =? 0)%nat && negb (suggested s =? 0) | _ => false end in
  match e with
  | ClientRateLimited retry_after_secs =>
      let '(s, acts) := rest env (clamp 1 120 retry_after_secs) s in Some (s, Emitted (RateLimitedFor retry_after_secs) :: acts)
  | _ =>
      if refused_first then
        match suggestion cfg with
        | Sticky => Some (Some (mkLoop 0 (is_first s) (initial_transient_failures s) (backoff_secs s) (pinned_conflict_waited s) (last_epoch_secs s)), [])
        | Pinned =>
            match pinned_conflict_retry_delay (pinned_conflict_waited s) with
            | None => Some (None, [Emitted (Failed (from_client_error e) e)])
            | Some delay =>
                Some (rest env delay (mkLoop (suggested s) (is_first s) (initial_transient_failures s) (backoff_secs s)
                                        (Z.min u32_max (pinned_conflict_waited s + delay)) (last_epoch_secs s)))
            end
        end
      else
        match from_client_error e with
        | Other =>
            let failures := if is_first s then initial_transient_failures s + 1 else initial_transient_failures s in
            if is_first s && (MAX_INITIAL_MAP_ATTEMPTS <=? failures) then stop_failed cfg env granted Other e
            else
              Some (rest env (backoff_secs s) (mkLoop (suggested s) (is_first s) failures (Z.min MAX_BACKOFF_SECS (Z.min u32_max (backoff_secs s * 2)))
                                                 (pinned_conflict_waited s) (last_epoch_secs s)))
        | reason => stop_failed cfg env granted reason e
        end
  end.

(** The state after a grant. *)
Definition recovered (s : Loop) : Loop :=
  mkLoop (suggested s) (is_first s) (initial_transient_failures s) INITIAL_BACKOFF_SECS 0 (last_epoch_secs s).

Definition grant (proto : MapProto) (m : NatPmpMapping) (c : Cycle) : Cycle :=
  mkCycle (granted_this_cycle c ++ [proto]) (map_external_port m) (Z.min (min_lifetime c) (map_lifetime_secs m)) (map_external_port m)
    (match map_rate_limit m with Some r => Some r | None => rate_limit c end) (map_epoch_secs m).

(** The legs of a cycle: all granted, or what ended the cycle. *)
Fixpoint run_legs (cfg : RefreshLoopConfig) (env : Env) (ps : list MapProto) (leg_index : nat) (s : Loop) (c : Cycle)
  : option ((Loop * Cycle + option Loop) * list Act) :=
  match ps with
  | [] => Some (inl (s, c), [])
  | proto :: ps =>
      let leg_suggested := if (leg_index =? 0)%nat then suggested s else pair_port c in
      match leg_net env leg_index with
      | None => Some (inr None, [Emitted Cancelled])
      | Some net =>
          x ← request_map_with_credential proto (internal_port cfg) leg_suggested (lifetime_secs cfg) DEFAULT_MAX_ATTEMPTS (cycle_credential env) net;
          let asked := Asked proto leg_suggested x in
          match outcome x with
          | Ok m =>
              '(r, acts) ← run_legs cfg env ps (S leg_index) (recovered s) (grant proto m c); Some (r, asked :: acts)
          | Err e => '(s, acts) ← on_error cfg env leg_index s (granted_this_cycle c) e; Some (inr s, asked :: acts)
          end
      end
  end.

(** One turn of ['cycle]: the state of the next, or [None] when the task returned. *)
Definition run_cycle (cfg : RefreshLoopConfig) (env : Env) (s : Loop) : option (option Loop * list Act) :=
  '(r, acts) ← run_legs cfg env (legs (protos cfg)) 0 s (mkCycle [] (suggested s) u32_max 0 None 0);
  match r with
  | inr s => Some (s, acts)
  | inl (s, c) =>
      let remaining := attempts_remaining <$> rate_limit c in
      let window_reset := match rate_limit c with Some r => window_reset_secs r | None => 0 end in
      let restart := match last_epoch_secs s with Some prev => epoch_indicates_restart prev (epoch_secs c) | None => false end in
      let event := if is_first s || restart then Mapped (external_port c) (min_lifetime c) remaining window_reset
                   else Renewed (external_port c) (min_lifetime c) remaining window_reset in
      if negb (receiver_alive env) then Some (None, acts ++ [Emitted event])
      else
        let s := mkLoop (suggested s) false (initial_transient_failures s) (backoff_secs s) (pinned_conflict_waited s) (Some (epoch_secs c)) in
        let '(s, acts') := rest env (Z.max (min_lifetime c) MIN_LIFETIME_FOR_REFRESH / 2) s in
        Some (s, acts ++ Emitted event :: acts')
  end.

(** The task, for as many cycles as there are environments. *)
Fixpoint run_loop (cfg : RefreshLoopConfig) (envs : list Env) (s : Loop) : option (option Loop * list Act) :=
  match envs with
  | [] => Some (Some s, [])
  | env :: envs =>
      '(s, acts) ← run_cycle cfg env s;
      match s with
      | None => Some (None, acts)
      | Some s => '(s, acts') ← run_loop cfg envs s; Some (s, acts ++ acts')
      end
  end.

(** [RefreshLoopHandle::release], after the cancel. *)
Definition release (cfg : RefreshLoopConfig) (env : Env) : option (list Act) := release_all cfg env (legs (protos cfg)).

(** ** What a request does *)

Definition quiet_attempt (a : Attempt) : Prop := sent_ok a = true /\ received a = Silence.

(** What an attempt that is not silent gives the caller. *)
Definition answer (a : Attempt) : result NatPmpMapping NatPmpClientError :=
  if sent_ok a then match received a with Datagram _ d => read_response d | _ => Err IoError end else Err IoError.

Definition recv_ms (r : Recv) : Z := match r with Silence => 0 | RecvError ms | Datagram ms _ => ms end.

(** The timeouts of [n] attempts, the first of which waits [t]. *)
Fixpoint waits (n : nat) (t : Z) : Z := match n with O => 0 | S n => t + waits n (Z.min u64_max (t * 2)) end.

(** Nothing arrives before it was asked for, or after the timeout, which is 250 ms doubled at each attempt. *)
Definition timely (net : Net) : Prop := forall k, 0 <= recv_ms (received (attempt_at net k)) <= INITIAL_TIMEOUT_MS * 2 ^ Z.of_nat k.

Definition answered_at (net : Net) (k j : nat) : Prop :=
  (forall i, (i < j)%nat -> quiet_attempt (attempt_at net (k + i))) /\ ~ quiet_attempt (attempt_at net (k + j)).

(** The result is that of the first attempt that is not silent, or a timeout after as many as there are. *)
Definition attempted (tries k : nat) (t : Z) (req : list Z) (net : Net) (x : Exchange) : Prop :=
  (exists j, (j < tries)%nat /\ answered_at net k j /\ outcome x = answer (attempt_at net (k + j)) /\
     sent x = replicate (if sent_ok (attempt_at net (k + j)) then S j else j) req) \/
  ((forall i, (i < tries)%nat -> quiet_attempt (attempt_at net (k + i))) /\ outcome x = Err TimedOut /\ sent x = replicate tries req /\ took_ms x = waits tries t).

Lemma answered_here net k : ~ quiet_attempt (attempt_at net k) -> answered_at net k 0.
Proof. intros H. split; [lia|]. by rewrite Nat.add_0_r. Qed.

Lemma attempt_loop_spec tries k t req net : (0 < tries)%nat -> exists x, attempt_loop tries k t req net = Some x /\ attempted tries k t req net x.
Proof.
  revert k t. induction tries as [|tries IH]; intros k t H0; [lia|]. cbn [attempt_loop]. unfold attempted.
  destruct (sent_ok (attempt_at net k)) eqn:Es; cbn [negb].
  2:{ eexists. split; [reflexivity|]. left. exists 0%nat. rewrite Nat.add_0_r, Es. unfold answer. rewrite Es. split; [lia|]. split; [|done].
      apply answered_here. by intros [? _]; congruence. }
  destruct (received (attempt_at net k)) as [|ms|ms d] eqn:Er.
  - assert (Hq : quiet_attempt (attempt_at net k)) by done. destruct (Nat.eqb_spec tries 0) as [->|Hne].
    { eexists. split; [reflexivity|]. right. cbn. split_and!; [|done|done|lia]. intros i Hi. by replace (k + i)%nat with k by lia. }
    destruct (IH (S k) (Z.min u64_max (t * 2))) as (x & -> & Hx); [lia|]. eexists. split; [reflexivity|].
    destruct Hx as [(j & Hj & [Hs Ha] & Ho & Hb)|(Hs & Ho & Hb & Ht)]; [left|right]; cbn [outcome sent took_ms].
    + exists (S j). replace (k + S j)%nat with (S k + j)%nat by lia. split; [lia|]. split; [|split; [done|]; rewrite Hb; by destruct (sent_ok (attempt_at net (S k + j)))].
      split; [|by replace (k + S j)%nat with (S k + j)%nat by lia]. intros [|i] Hi; [by rewrite Nat.add_0_r|].
      replace (k + S i)%nat with (S k + i)%nat by lia. apply Hs. lia.
    + rewrite Hb, Ht. split_and!; [|done|done|done]. intros [|i] Hi; [by rewrite Nat.add_0_r|]. replace (k + S i)%nat with (S k + i)%nat by lia. apply Hs. lia.
  - eexists. split; [reflexivity|]. left. exists 0%nat. rewrite Nat.add_0_r, Es. unfold answer. rewrite Es, Er. split; [lia|]. split; [|done].
    apply answered_here. intros [_ ?]. congruence.
  - eexists. split; [reflexivity|]. left. exists 0%nat. rewrite Nat.add_0_r, Es. unfold answer. rewrite Es, Er. split; [lia|]. split; [|done].
    apply answered_here. intros [_ ?]. congruence.
Qed.

Lemma waits_nonneg n t : 0 <= t -> 0 <= waits n t.
Proof. revert t. induction n as [|n IH]; intros t Ht; cbn; [lia|]. specialize (IH (Z.min u64_max (t * 2))). unfold u64_max in *. lia. Qed.

Lemma attempt_loop_time tries k req net x : timely net -> (0 < tries)%nat -> (k + tries <= 50)%nat ->
  attempt_loop tries k (INITIAL_TIMEOUT_MS * 2 ^ Z.of_nat k) req net = Some x -> 0 <= took_ms x <= waits tries (INITIAL_TIMEOUT_MS * 2 ^ Z.of_nat k).
Proof.
  intros Hn. revert k x. induction tries as [|tries IH]; intros k x H0 Hk; [lia|]. cbn [attempt_loop waits].
  assert (Hp : 0 < INITIAL_TIMEOUT_MS * 2 ^ Z.of_nat k) by (unfold INITIAL_TIMEOUT_MS; lia).
  pose proof (Hn k) as Hms.
  assert (Hd : Z.min u64_max (INITIAL_TIMEOUT_MS * 2 ^ Z.of_nat k * 2) = INITIAL_TIMEOUT_MS * 2 ^ Z.of_nat (S k)).
  { rewrite Nat2Z.inj_succ, Z.pow_succ_r by lia. assert (2 ^ Z.of_nat k <= 2 ^ 50) by (apply Z.pow_le_mono_r; lia).
    unfold u64_max, INITIAL_TIMEOUT_MS. lia. }
  rewrite Hd. pose proof (waits_nonneg tries (INITIAL_TIMEOUT_MS * 2 ^ Z.of_nat (S k))) as Hw.
  assert (H1 : 0 <= INITIAL_TIMEOUT_MS * 2 ^ Z.of_nat (S k)) by (unfold INITIAL_TIMEOUT_MS; lia).
  destruct (sent_ok _); cbn [negb]; [|intros [= <-]; cbn; lia]. destruct (received _) as [|ms|ms d]; cbn [recv_ms] in Hms.
  - destruct (Nat.eqb_spec tries 0) as [->|Hne]; [intros [= <-]; cbn in *; lia|].
    destruct (attempt_loop tries _ _ _ _) as [y|] eqn:Ey; [|done]. intros [= <-]. cbn [took_ms]. apply IH in Ey; [lia|lia|lia].
  - intros [= <-]. cbn. lia.
  - intros [= <-]. cbn. lia.
Qed.

Lemma request_total proto ip sp lt n cred net : (0 < n)%nat -> exists x, request_map_with_credential proto ip sp lt n cred net = Some x.
Proof.
  intros Hn. unfold request_map_with_credential. destruct (Nat.eqb_spec n 0); [lia|]. destruct (negb _ || _); [by eexists|].
  destruct (attempt_loop_spec n 0 INITIAL_TIMEOUT_MS (request_bytes proto ip sp lt cred) net Hn) as (x & Hx & _). by exists x.
Qed.

Lemma request_time proto ip sp lt cred net x : timely net ->
  request_map_with_credential proto ip sp lt DEFAULT_MAX_ATTEMPTS cred net = Some x -> 0 <= took_ms x <= 7750.
Proof.
  intros Hn. unfold request_map_with_credential. cbn [Nat.eqb DEFAULT_MAX_ATTEMPTS]. destruct (negb _ || _); [intros [= <-]; cbn; lia|].
  change INITIAL_TIMEOUT_MS with (INITIAL_TIMEOUT_MS * 2 ^ Z.of_nat 0). intros H. apply attempt_loop_time in H; [exact H|done|unfold DEFAULT_MAX_ATTEMPTS; lia..].
Qed.

(** ** The legs of a cycle *)

Definition leg_port (i : nat) (s : Loop) (c : Cycle) : Z := if (i =? 0)%nat then suggested s else pair_port c.

(** Legs that were all granted, from number [i]. *)
Inductive asked_ok (s : Loop) : nat -> list MapProto -> Cycle -> list Act -> Cycle -> Prop :=
| ok_nil i c : asked_ok s i [] c [] c
| ok_cons i p ps c x m l c' : outcome x = Ok m -> asked_ok s (S i) ps (grant p m c) l c' ->
    asked_ok s i (p :: ps) c (Asked p (leg_port i s c) x :: l) c'.

Definition after_grants (ps : list MapProto) (s : Loop) : Loop := match ps with [] => s | _ => recovered s end.

(** How the legs end: granted, cancelled, or one refused. *)
Inductive legs_end (cfg : RefreshLoopConfig) (env : Env) (ps : list MapProto) (i : nat) (s : Loop) (c : Cycle) : (Loop * Cycle + option Loop) -> list Act -> Prop :=
| all_granted l c' : asked_ok s i ps c l c' -> legs_end cfg env ps i s c (inl (after_grants ps s, c')) l
| leg_cancelled ps1 p ps2 l c' : ps = ps1 ++ p :: ps2 -> asked_ok s i ps1 c l c' -> legs_end cfg env ps i s c (inr None) (l ++ [Emitted Cancelled])
| leg_refused ps1 p ps2 l c' x e s' l' : ps = ps1 ++ p :: ps2 -> asked_ok s i ps1 c l c' -> outcome x = Err e ->
    on_error cfg env (i + length ps1) (after_grants ps1 s) (granted_this_cycle c') e = Some (s', l') ->
    legs_end cfg env ps i s c (inr s') (l ++ Asked p (leg_port (i + length ps1) s c') x :: l').

Lemma asked_ok_granted s i ps c l c' : asked_ok s i ps c l c' -> granted_this_cycle c' = granted_this_cycle c ++ ps.
Proof. induction 1 as [|i p ps c x m l c' _ _ IH]; [by rewrite app_nil_r|]. rewrite IH. cbn. by rewrite <- app_assoc. Qed.

Lemma asked_ok_recovered s i ps c l c' : (0 < i)%nat -> asked_ok (recovered s) i ps c l c' -> asked_ok s i ps c l c'.
Proof.
  intros Hi H. remember (recovered s) as s1 eqn:Es. induction H as [|i p ps c x m l c' Ho _ IH]; [constructor|].
  replace (leg_port i s1 c) with (leg_port i s c) by (subst; destruct i as [|i]; [lia|done]). econstructor; [done|]. apply IH. lia.
Qed.

Lemma run_legs_end cfg env ps i s c r l : run_legs cfg env ps i s c = Some (r, l) -> legs_end cfg env ps i s c r l.
Proof.
  revert i s c r l. induction ps as [|p ps IH]; intros i s c r l; cbn [run_legs]. { intros [= <- <-]. apply (all_granted cfg env [] i s c). constructor. }
  destruct (leg_net env i) as [net|]; [|intros [= <- <-]; apply (leg_cancelled cfg env (p :: ps) i s c [] p ps [] c); [done|constructor]].
  destruct (request_map_with_credential _ _ _ _ _ _ _) as [x|]; [|done]. cbn [mbind option_bind]. destruct (outcome x) as [m|e] eqn:Eo.
  - destruct (run_legs cfg env ps (S i) (recovered s) (grant p m c)) as [[r1 l1]|] eqn:Er; [|done]. intros [= <- <-]. apply IH in Er.
    fold (leg_port i s c). destruct Er as [l1 c' Hok|ps1 p' ps2 l1 c' Hps Hok|ps1 p' ps2 l1 c' y e s' l' Hps Hok He Hon].
    + apply asked_ok_recovered in Hok; [|lia]. replace (after_grants ps (recovered s)) with (after_grants (p :: ps) s) by by destruct ps.
      apply all_granted. by econstructor.
    + apply asked_ok_recovered in Hok; [|lia]. apply (leg_cancelled cfg env (p :: ps) i s c (p :: ps1) p' ps2 (Asked p (leg_port i s c) x :: l1) c'); [by rewrite Hps|by econstructor].
    + apply asked_ok_recovered in Hok; [|lia].
      replace (leg_port (S i + length ps1) (recovered s) c') with (leg_port (i + length (p :: ps1)) s c') by (cbn [length]; by rewrite Nat.add_succ_r).
      apply (leg_refused cfg env (p :: ps) i s c (p :: ps1) p' ps2 (Asked p (leg_port i s c) x :: l1) c' y e s' l'); [by rewrite Hps|by econstructor|done|].
      cbn [length]. rewrite Nat.add_succ_r. by destruct ps1.
  - destruct (on_error _ _ _ _ _ _) as [[s' l']|] eqn:Er; [|done]. intros [= <- <-].
    fold (leg_port i s c). pose proof (leg_refused cfg env (p :: ps) i s c [] p ps [] c x e s' l' eq_refl (ok_nil s i c) Eo) as H.
    cbn [length after_grants app] in H. rewrite Nat.add_0_r in H. by apply H.
Qed.

Lemma release_all_total cfg env ps : exists l, release_all cfg env ps = Some l /\ (forall p, p ∈ ps -> exists x, Released p x ∈ l) /\ Forall (fun a => exists p x, a = Released p x) l.
Proof.
  induction ps as [|p ps (l & Hl & Hin & Hf)]; [exists []; split; [done|]; split; [by intros ? ?%elem_of_nil|done]|].
  destruct (request_total p (internal_port cfg) 0 0 1 None (release_net env p)) as (x & Hx); [lia|].
  exists (Released p x :: l). split.
  { change (release_all cfg env (p :: ps)) with (y ← send_release cfg env p; k ← release_all cfg env ps; Some (y :: k)).
    unfold send_release. rewrite Hx, Hl. done. }
  split; [|constructor; [by exists p, x|done]]. intros q [->|Hq]%elem_of_cons; [exists x; by left|]. destruct (Hin q Hq) as [y Hy]. exists y. by right.
Qed.

(** How the match on an error ends. *)
Inductive error_end (cfg : RefreshLoopConfig) (i : nat) (s : Loop) (granted : list MapProto) (e : NatPmpClientError) : option Loop -> list Act -> Prop :=
| err_failed l : Forall (fun a => exists p x, a = Released p x) l -> (forall p, p ∈ granted -> exists x, Released p x ∈ l) ->
    (from_client_error e = Other -> is_first s = true /\ MAX_INITIAL_MAP_ATTEMPTS <= initial_transient_failures s + 1) ->
    (from_client_error e = SuggestedPortInUse -> i = 0%nat -> suggested s <> 0 -> suggestion cfg = Pinned /\ PINNED_CONFLICT_RETRY_WINDOW_SECS <= pinned_conflict_waited s) ->
    error_end cfg i s granted e None (l ++ [Emitted (Failed (from_client_error e) e)])
| err_cancelled l : l = [] \/ (exists r, l = [Emitted (RateLimitedFor r)]) -> error_end cfg i s granted e None (l ++ [Emitted Cancelled])
| err_limited r : e = ClientRateLimited r -> error_end cfg i s granted e (Some s) [Emitted (RateLimitedFor r); Slept (clamp 1 120 r)]
| err_downgraded : suggestion cfg = Sticky -> i = 0%nat -> suggested s <> 0 -> e = ServerRefused SuggestedPortUnavailable ->
    error_end cfg i s granted e (Some (mkLoop 0 (is_first s) (initial_transient_failures s) (backoff_secs s) (pinned_conflict_waited s) (last_epoch_secs s))) []
| err_conflict d : suggestion cfg = Pinned -> i = 0%nat -> suggested s <> 0 -> e = ServerRefused SuggestedPortUnavailable ->
    pinned_conflict_retry_delay (pinned_conflict_waited s) = Some d ->
    error_end cfg i s granted e (Some (mkLoop (suggested s) (is_first s) (initial_transient_failures s) (backoff_secs s)
                                   (Z.min u32_max (pinned_conflict_waited s + d)) (last_epoch_secs s))) [Slept d]
| err_transient f : from_client_error e = Other -> (forall r, e <> ClientRateLimited r) ->
    (is_first s = true -> f = initial_transient_failures s + 1 /\ f < MAX_INITIAL_MAP_ATTEMPTS) -> (is_first s = false -> f = initial_transient_failures s) ->
    error_end cfg i s granted e (Some (mkLoop (suggested s) (is_first s) f (Z.min MAX_BACKOFF_SECS (Z.min u32_max (backoff_secs s * 2)))
                                   (pinned_conflict_waited s) (last_epoch_secs s))) [Slept (backoff_secs s)].

Lemma rest_cases env n s : rest env n s = (None, [Emitted Cancelled]) \/ rest env n s = (Some s, [Slept n]).
Proof. unfold rest. destruct (sleep_cancelled env); [by left|by right]. Qed.

Lemma stop_failed_end cfg env i s granted e :
  (from_client_error e = Other -> is_first s = true /\ MAX_INITIAL_MAP_ATTEMPTS <= initial_transient_failures s + 1) ->
  (from_client_error e = SuggestedPortInUse -> i = 0%nat -> suggested s <> 0 -> suggestion cfg = Pinned /\ PINNED_CONFLICT_RETRY_WINDOW_SECS <= pinned_conflict_waited s) ->
  exists s' l, stop_failed cfg env granted (from_client_error e) e = Some (s', l) /\ error_end cfg i s granted e s' l.
Proof.
  intros H1 H2. unfold stop_failed. destruct (release_all_total cfg env granted) as (l & -> & Hin & Hf). do 2 eexists. split; [reflexivity|]. by constructor.
Qed.

Lemma transient_end cfg env i s granted e : from_client_error e = Other -> (forall r, e <> ClientRateLimited r) ->
  exists s' l,
    (let failures := if is_first s then initial_transient_failures s + 1 else initial_transient_failures s in
     if is_first s && (MAX_INITIAL_MAP_ATTEMPTS <=? failures) then stop_failed cfg env granted Other e
     else Some (rest env (backoff_secs s) (mkLoop (suggested s) (is_first s) failures (Z.min MAX_BACKOFF_SECS (Z.min u32_max (backoff_secs s * 2)))
                                             (pinned_conflict_waited s) (last_epoch_secs s)))) = Some (s', l) /\ error_end cfg i s granted e s' l.
Proof.
  intros He Hr. cbn zeta. destruct (is_first s) eqn:Ef; cbn [andb].
  - destruct (Z.leb_spec MAX_INITIAL_MAP_ATTEMPTS (initial_transient_failures s + 1)) as [Hf|Hf].
    + destruct (stop_failed_end cfg env i s granted e) as (s' & l & Hs & Hend); [done|congruence|]. exists s', l. split; [by rewrite <- Hs, He|done].
    + destruct (rest_cases env (backoff_secs s) (mkLoop (suggested s) true (initial_transient_failures s + 1) (Z.min MAX_BACKOFF_SECS (Z.min u32_max (backoff_secs s * 2)))
        (pinned_conflict_waited s) (last_epoch_secs s))) as [-> | ->]; do 2 eexists; (split; [reflexivity|]).
      * apply (err_cancelled _ _ _ _ _ []). by left.
      * rewrite <- Ef. apply err_transient; [done|done|done|congruence].
  - destruct (rest_cases env (backoff_secs s) (mkLoop (suggested s) false (initial_transient_failures s) (Z.min MAX_BACKOFF_SECS (Z.min u32_max (backoff_secs s * 2)))
      (pinned_conflict_waited s) (last_epoch_secs s))) as [-> | ->]; do 2 eexists; (split; [reflexivity|]).
    + apply (err_cancelled _ _ _ _ _ []). by left.
    + rewrite <- Ef. apply err_transient; [done|done|congruence|done].
Qed.

Lemma on_error_end cfg env i s granted e : (i = 0%nat -> granted = []) ->
  exists s' l, on_error cfg env i s granted e = Some (s', l) /\ error_end cfg i s granted e s' l.
Proof.
  intros Hg. assert (Hd : e = ServerRefused SuggestedPortUnavailable \/ (exists r, e = ClientRateLimited r) \/
    (from_client_error e <> SuggestedPortInUse /\ forall r, e <> ClientRateLimited r)).
  { destruct e as [| | |[]| |]; naive_solver. }
  destruct Hd as [->|[[r ->]|[Hns Hnr]]].
  - unfold on_error. destruct (Nat.eqb_spec i 0) as [->|Hi]; cbn [andb]; [|apply (stop_failed_end cfg env i s granted (ServerRefused SuggestedPortUnavailable)); [done|lia]].
    destruct (Z.eqb_spec (suggested s) 0) as [Hz|Hz]; cbn [negb]; [by apply (stop_failed_end cfg env 0 s granted (ServerRefused SuggestedPortUnavailable))|].
    destruct (suggestion cfg) eqn:Es; [|do 2 eexists; split; [reflexivity|by apply err_downgraded]].
    destruct (pinned_conflict_retry_delay _) as [d|] eqn:Ed.
    + destruct (rest_cases env d (mkLoop (suggested s) (is_first s) (initial_transient_failures s) (backoff_secs s) (Z.min u32_max (pinned_conflict_waited s + d)) (last_epoch_secs s)))
        as [-> | ->]; do 2 eexists; (split; [reflexivity|]); [|by apply err_conflict]. apply (err_cancelled _ _ _ _ _ []). by left.
    + do 2 eexists. split; [reflexivity|]. apply (err_failed cfg 0 s granted (ServerRefused SuggestedPortUnavailable) []); [done|rewrite Hg by done; by intros ? ?%elem_of_nil|done|].
      intros _ _ _. split; [done|]. unfold pinned_conflict_retry_delay in Ed. destruct (Z.ltb_spec (pinned_conflict_waited s) PINNED_CONFLICT_RETRY_WINDOW_SECS); [done|lia].
  - cbn [on_error]. destruct (rest_cases env (clamp 1 120 r) s) as [-> | ->]; do 2 eexists; (split; [reflexivity|]).
    + apply (err_cancelled _ _ _ _ _ [_]). right. by exists r.
    + by apply err_limited.
  - destruct (from_client_error e) eqn:Ef; try done.
    + assert (Hon : on_error cfg env i s granted e = stop_failed cfg env granted (from_client_error e) e) by (by destruct e as [| | |[]| |]).
      rewrite Hon. apply stop_failed_end; congruence.
    + assert (Hon : on_error cfg env i s granted e = stop_failed cfg env granted (from_client_error e) e) by (by destruct e as [| | |[]| |]).
      rewrite Hon. apply stop_failed_end; congruence.
    + destruct (transient_end cfg env i s granted e Ef Hnr) as (s' & l & Ht & Hend). exists s', l. split; [|done]. rewrite <- Ht.
      destruct e as [| |pe|code|r|]; [done|done|done|by destruct code|by destruct (Hnr r)|done].
Qed.

Definition cycle_start (s : Loop) : Cycle := mkCycle [] (suggested s) u32_max 0 None 0.

Definition grant_event (s : Loop) (c : Cycle) : NatPmpEvent :=
  let remaining := attempts_remaining <$> rate_limit c in
  let window_reset := match rate_limit c with Some r => window_reset_secs r | None => 0 end in
  let restart := match last_epoch_secs s with Some prev => epoch_indicates_restart prev (epoch_secs c) | None => false end in
  if is_first s || restart then Mapped (external_port c) (min_lifetime c) remaining window_reset
  else Renewed (external_port c) (min_lifetime c) remaining window_reset.

Definition kept (s : Loop) (c : Cycle) : Loop := mkLoop (suggested s) false (initial_transient_failures s) INITIAL_BACKOFF_SECS 0 (Some (epoch_secs c)).
Definition refresh_in (c : Cycle) : Z := Z.max (min_lifetime c) MIN_LIFETIME_FOR_REFRESH / 2.

Inductive cycle_end (cfg : RefreshLoopConfig) (env : Env) (s : Loop) : option Loop -> list Act -> Prop :=
| cyc_granted l c s' l' : asked_ok s 0 (legs (protos cfg)) (cycle_start s) l c ->
    (s' = None /\ l' = [] /\ receiver_alive env = false) \/ (s' = None /\ l' = [Emitted Cancelled]) \/ (s' = Some (kept s c) /\ l' = [Slept (refresh_in c)]) ->
    (sleep_cancelled env = false -> receiver_alive env = true -> s' = Some (kept s c)) ->
    cycle_end cfg env s s' (l ++ Emitted (grant_event s c) :: l')
| cyc_cancelled ps p ps' l c : legs (protos cfg) = ps ++ p :: ps' -> asked_ok s 0 ps (cycle_start s) l c -> cycle_end cfg env s None (l ++ [Emitted Cancelled])
| cyc_refused ps p ps' l c x e s' l' : legs (protos cfg) = ps ++ p :: ps' -> asked_ok s 0 ps (cycle_start s) l c -> outcome x = Err e ->
    error_end cfg (length ps) (after_grants ps s) ps e s' l' ->
    cycle_end cfg env s s' (l ++ Asked p (leg_port (length ps) s c) x :: l').

Lemma run_legs_total cfg env ps i s c : (i = 0%nat -> granted_this_cycle c = []) -> exists r l, run_legs cfg env ps i s c = Some (r, l).
Proof.
  revert i s c. induction ps as [|p ps IH]; intros i s c Hg; cbn [run_legs]; [by do 2 eexists|]. destruct (leg_net env i) as [net|]; [|by do 2 eexists].
  fold (leg_port i s c). destruct (request_total p (internal_port cfg) (leg_port i s c) (lifetime_secs cfg) DEFAULT_MAX_ATTEMPTS (cycle_credential env) net) as [x ->];
    [unfold DEFAULT_MAX_ATTEMPTS; lia|]. cbn [mbind option_bind].
  destruct (outcome x) as [m|e].
  - destruct (IH (S i) (recovered s) (grant p m c)) as (r & l & ->); [lia|]. by do 2 eexists.
  - destruct (on_error_end cfg env i s (granted_this_cycle c) e Hg) as (s' & l & -> & _). by do 2 eexists.
Qed.

Lemma legs_some p : legs p <> [].
Proof. by destruct p. Qed.

Lemma run_cycle_end cfg env s : exists s' l, run_cycle cfg env s = Some (s', l) /\ cycle_end cfg env s s' l.
Proof.
  unfold run_cycle. destruct (run_legs_total cfg env (legs (protos cfg)) 0 s (cycle_start s)) as (r & l & Hr); [done|].
  fold (cycle_start s). rewrite Hr. cbn [mbind option_bind]. apply run_legs_end in Hr. destruct Hr as [l c Hok|ps p ps' l c Hps Hok|ps p ps' l c x e s' l' Hps Hok Ho Hon].
  - assert (Ha : after_grants (legs (protos cfg)) s = recovered s) by by destruct (protos cfg). rewrite Ha. fold (grant_event (recovered s) c) (refresh_in c).
    change (grant_event (recovered s) c) with (grant_event s c).
    destruct (receiver_alive env) eqn:Er; cbn [negb].
    + fold (kept s c). change (mkLoop (suggested (recovered s)) false _ _ _ _) with (kept s c).
      unfold rest. destruct (sleep_cancelled env) eqn:Es; do 2 eexists; (split; [reflexivity|]).
      * apply cyc_granted; [done|right; by left|congruence].
      * apply cyc_granted; [done|by do 2 right|done].
    + do 2 eexists. split; [reflexivity|]. apply cyc_granted; [done|by left|congruence].
  - do 2 eexists. split; [reflexivity|]. by eapply cyc_cancelled.
  - do 2 eexists. split; [reflexivity|]. pose proof (asked_ok_granted _ _ _ _ _ _ Hok) as Hg. cbn in Hg, Hon. rewrite Hg in Hon.
    destruct (on_error_end cfg env (length ps) (after_grants ps s) ps e) as (s1 & l1 & Hon' & Hend); [by destruct ps|]. rewrite Hon in Hon'. injection Hon' as -> ->.
    by eapply cyc_refused.
Qed.

(** ** A cycle's log *)

(** A leg that was granted. *)
Record Grant := mkGrant { g_proto : MapProto; g_exchange : Exchange; g_mapping : NatPmpMapping }.
Definition is_granted (g : Grant) : Prop := outcome (g_exchange g) = Ok (g_mapping g).
Definition g_port (g : Grant) : Z := map_external_port (g_mapping g).
Definition g_life (g : Grant) : Z := map_lifetime_secs (g_mapping g).

(** Each leg asks for the port the one before it was granted. *)
Fixpoint chain (port : Z) (gs : list Grant) : list Act :=
  match gs with [] => [] | g :: gs => Asked (g_proto g) port (g_exchange g) :: chain (g_port g) gs end.

Lemma asked_ok_chain s i ps c l c' : asked_ok s i ps c l c' ->
  exists gs, l = chain (leg_port i s c) gs /\ g_proto <$> gs = ps /\ Forall is_granted gs /\
    (forall g, g ∈ gs -> min_lifetime c' <= g_life g) /\ min_lifetime c' <= min_lifetime c /\
    leg_port (i + length ps) s c' = default (leg_port i s c) (g_port <$> last gs) /\
    (forall g, last gs = Some g -> external_port c' = g_port g /\ epoch_secs c' = map_epoch_secs (g_mapping g)) /\ (gs = [] -> c' = c).
Proof.
  induction 1 as [i c|i p ps c x m l c' Ho _ (gs & -> & <- & Hf & Hm & Hc & Hp & Hl & Hn)].
  { exists []. cbn. rewrite Nat.add_0_r. split_and!; try done. by intros ? ?%elem_of_nil. }
  exists (mkGrant p x m :: gs). cbn [min_lifetime grant] in Hc. rewrite Nat.add_succ_comm in Hp. split_and!; try done.
  - by constructor.
  - intros g [->|Hg]%elem_of_cons; [unfold g_life; cbn; lia|by apply Hm].
  - lia.
  - cbn [fmap list_fmap length] in *. rewrite Hp, last_cons. by destruct (last gs).
  - intros g. rewrite last_cons. destruct (last gs) as [g'|] eqn:El; [intros [= <-]; by apply Hl|]. intros [= <-]. apply last_None in El as ->. by rewrite Hn by done.
Qed.

(** ** The rule over its cycles *)

Definition was_mapped (log : list Act) : Prop := exists port life r w, Emitted (Mapped port life r w) ∈ log.
Definition terminal (e : NatPmpEvent) : bool := match e with Failed _ _ | Cancelled => true | _ => false end.
Definition said_mapped (e : NatPmpEvent) : option (Z * Z) := match e with Mapped port life _ _ | Renewed port life _ _ => Some (port, life) | _ => None end.

(** The seconds slept after a refusal of the suggested port, since the last grant. *)
Definition conflict_step (st : Z * bool) (a : Act) : Z * bool :=
  match a with
  | Asked _ _ x =>
      match outcome x with
      | Ok _ => (0, false)
      | Err (ServerRefused SuggestedPortUnavailable) => (fst st, true)
      | Err _ => (fst st, false)
      end
  | Slept n => if snd st then (fst st + n, snd st) else st
  | _ => st
  end.
Definition conflict_wait (log : list Act) : Z := fst (fold_left conflict_step log (0, false)).

Record rule_inv (cfg : RefreshLoopConfig) (log : list Act) (s : Loop) : Prop := mkRuleInv {
  ri_suggested : suggested s = suggested_external_port cfg \/ (suggestion cfg = Sticky /\ suggested s = 0);
  ri_backoff : INITIAL_BACKOFF_SECS <= backoff_secs s <= MAX_BACKOFF_SECS;
  ri_failures : is_first s = true -> 0 <= initial_transient_failures s < MAX_INITIAL_MAP_ATTEMPTS;
  ri_first : is_first s = false <-> was_mapped log;
  ri_epoch : is_first s = true <-> last_epoch_secs s = None;
  ri_waited : pinned_conflict_waited s = conflict_wait log /\ 0 <= conflict_wait log <= PINNED_CONFLICT_RETRY_WINDOW_SECS + PINNED_CONFLICT_MAX_BACKOFF_SECS;
}.

Lemma rule_inv_start cfg : rule_inv cfg [] (loop_start cfg).
Proof. split; [by left|done|done| |done|done]. split; [done|]. intros (? & ? & ? & ? & []%elem_of_nil). Qed.

Lemma was_mapped_app log l : was_mapped (log ++ l) <-> was_mapped log \/ was_mapped l.
Proof. unfold was_mapped. setoid_rewrite elem_of_app. naive_solver. Qed.

Lemma chain_acts port gs a : a ∈ chain port gs -> exists g port', g ∈ gs /\ a = Asked (g_proto g) port' (g_exchange g).
Proof.
  revert port. induction gs as [|g gs IH]; intros port; cbn; [by intros ?%elem_of_nil|]. intros [->|Ha]%elem_of_cons.
  - exists g, port. split; [by left|done].
  - destruct (IH _ Ha) as (g' & port' & Hg & ->). exists g', port'. split; [by right|done].
Qed.

Lemma chain_conflict port gs st : Forall is_granted gs -> fold_left conflict_step (chain port gs) st = match gs with [] => st | _ => (0, false) end.
Proof.
  revert port st. induction gs as [|g gs IH]; intros port st Hf; [done|]. apply Forall_cons in Hf as [Hg Hf]. cbn [chain fold_left].
  rewrite IH by done. cbn [conflict_step]. rewrite Hg. by destruct gs.
Qed.

(** What one cycle shows, whatever it met. *)
Record cycle_ok (cfg : RefreshLoopConfig) (log : list Act) (s : Loop) (s' : option Loop) (l : list Act) : Prop := mkCycleOk {
  (** the legs granted, in order, each asking for the port of the one before; what is announced as a renewal was
      announced before, by a gateway that did not restart since *)
  co_chain : exists gs tail, l = chain (suggested s) gs ++ tail /\ Forall is_granted gs /\ (g_proto <$> gs) `prefix_of` legs (protos cfg) /\
    (forall e port life, Emitted e ∈ l -> said_mapped e = Some (port, life) ->
       g_proto <$> gs = legs (protos cfg) /\ (g_port <$> last gs = Some port) /\ forall g, g ∈ gs -> life <= g_life g) /\
    (forall port life r w, Emitted (Renewed port life r w) ∈ l ->
       was_mapped log /\ exists prev g, last_epoch_secs s = Some prev /\ last gs = Some g /\ prev <= map_epoch_secs (g_mapping g)) /\
    (forall r e, Emitted (Failed r e) ∈ l -> forall g, g ∈ gs -> exists x, Released (g_proto g) x ∈ l);
  (** a failure ends the rule, with the reason and the evidence *)
  co_failed : forall r e, Emitted (Failed r e) ∈ l -> r = from_client_error e /\ (r = Other -> ~ was_mapped log) /\
    (r = SuggestedPortInUse -> suggested s <> 0 -> (forall p port x m, Asked p port x ∈ l -> outcome x <> Ok m) ->
       suggestion cfg = Pinned /\ PINNED_CONFLICT_RETRY_WINDOW_SECS <= conflict_wait log);
  co_stopped : s' = None -> exists l' e, l = l' ++ [Emitted e] /\ (terminal e = true \/ is_Some (said_mapped e));
  (** a rule that goes on sleeps first, unless it gives up a carried-over port, which it never takes up again *)
  co_running : forall s1, s' = Some s1 -> rule_inv cfg (log ++ l) s1 /\ (forall e, Emitted e ∈ l -> terminal e = false) /\
    (suggested s1 = suggested s \/ (suggestion cfg = Sticky /\ suggested s1 = 0)) /\
    ((exists l' n, l = l' ++ [Slept n] /\ 1 <= n /\
        (n <= 120 \/ exists e port life, Emitted e ∈ l /\ said_mapped e = Some (port, life) /\ n = Z.max life MIN_LIFETIME_FOR_REFRESH / 2)) \/
     (suggestion cfg = Sticky /\ suggested s <> 0 /\ suggested s1 = 0));
}.

Definition said_in (l : list Act) : list NatPmpEvent := omap (fun a => match a with Emitted e => Some e | _ => None end) l.

Lemma said_in_elem l e : Emitted e ∈ l <-> e ∈ said_in l.
Proof.
  unfold said_in. rewrite list_elem_of_omap. split.
  - intros H. by exists (Emitted e).
  - intros ([] & Hin & Hs); try done. by injection Hs as ->.
Qed.

Lemma said_in_app l l' : said_in (l ++ l') = said_in l ++ said_in l'.
Proof. apply omap_app. Qed.

Lemma said_in_chain port gs : said_in (chain port gs) = [].
Proof. revert port. induction gs as [|g gs IH]; intros port; [done|apply IH]. Qed.

Lemma said_in_released l : Forall (fun a => exists p x, a = Released p x) l -> said_in l = [].
Proof. induction 1 as [|a l (p & x & ->) _ IH]; [done|exact IH]. Qed.

Lemma was_mapped_said l : was_mapped l <-> exists port life r w, Mapped port life r w ∈ said_in l.
Proof. unfold was_mapped. by setoid_rewrite said_in_elem. Qed.

Lemma conflict_wait_cycle log gs tail port : Forall is_granted gs -> exists b,
  fold_left conflict_step (log ++ chain port gs ++ tail) (0, false) = fold_left conflict_step tail (match gs with [] => conflict_wait log | _ => 0 end, b).
Proof.
  intros Hg. rewrite !fold_left_app, chain_conflict by done. unfold conflict_wait. destruct (fold_left conflict_step log (0, false)) as [w b]. exists (match gs with [] => b | _ => false end).
  by destruct gs.
Qed.

(** The state a refused leg is judged in. *)
Lemma after_grants_inv cfg log s gs : rule_inv cfg log s ->
  let s1 := after_grants (g_proto <$> gs) s in
  suggested s1 = suggested s /\ is_first s1 = is_first s /\ initial_transient_failures s1 = initial_transient_failures s /\ last_epoch_secs s1 = last_epoch_secs s /\
  pinned_conflict_waited s1 = (match gs with [] => conflict_wait log | _ => 0 end) /\ INITIAL_BACKOFF_SECS <= backoff_secs s1 <= MAX_BACKOFF_SECS /\
  0 <= pinned_conflict_waited s1 <= PINNED_CONFLICT_RETRY_WINDOW_SECS + PINNED_CONFLICT_MAX_BACKOFF_SECS.
Proof. intros [_ Hb _ _ _ [Hw Hc]] s1. subst s1. destruct gs as [|g gs]; cbn; [rewrite Hw|]; split_and!; done || lia. Qed.

Lemma clamp_bound lo hi x : lo <= hi -> lo <= clamp lo hi x <= hi.
Proof. intros H. unfold clamp. destruct (Z.ltb_spec x lo); [lia|]. destruct (Z.ltb_spec hi x); lia. Qed.

Lemma retry_delay_bound w d : pinned_conflict_retry_delay w = Some d -> w < PINNED_CONFLICT_RETRY_WINDOW_SECS /\ 1 <= d <= PINNED_CONFLICT_MAX_BACKOFF_SECS.
Proof.
  unfold pinned_conflict_retry_delay. destruct (Z.ltb_spec w PINNED_CONFLICT_RETRY_WINDOW_SECS); [|done]. intros [= <-].
  split; [done|]. apply clamp_bound. done.
Qed.

(** A state that goes on after a refused leg, and its sleep. *)
Lemma error_running cfg i s ps e s1 l : error_end cfg i s ps e (Some s1) l ->
  INITIAL_BACKOFF_SECS <= backoff_secs s <= MAX_BACKOFF_SECS -> (is_first s = true -> 0 <= initial_transient_failures s < MAX_INITIAL_MAP_ATTEMPTS) ->
  0 <= pinned_conflict_waited s <= PINNED_CONFLICT_RETRY_WINDOW_SECS + PINNED_CONFLICT_MAX_BACKOFF_SECS ->
  (suggested s1 = suggested s \/ (suggestion cfg = Sticky /\ suggested s1 = 0)) /\
  INITIAL_BACKOFF_SECS <= backoff_secs s1 <= MAX_BACKOFF_SECS /\ (is_first s1 = true -> 0 <= initial_transient_failures s1 < MAX_INITIAL_MAP_ATTEMPTS) /\
  is_first s1 = is_first s /\ last_epoch_secs s1 = last_epoch_secs s /\
  0 <= pinned_conflict_waited s1 <= PINNED_CONFLICT_RETRY_WINDOW_SECS + PINNED_CONFLICT_MAX_BACKOFF_SECS /\
  (forall x p port b, outcome x = Err e -> fst (fold_left conflict_step (Asked p port x :: l) (pinned_conflict_waited s, b)) = pinned_conflict_waited s1) /\
  ((suggestion cfg = Sticky /\ suggested s <> 0 /\ suggested s1 = 0) \/ exists l' n, l = l' ++ [Slept n] /\ 1 <= n <= 120) /\ (forall ev, ev ∈ said_in l -> exists r, ev = RateLimitedFor r).
Proof.
  intros H Hb Hf Hw. unfold INITIAL_BACKOFF_SECS, MAX_BACKOFF_SECS, PINNED_CONFLICT_RETRY_WINDOW_SECS, PINNED_CONFLICT_MAX_BACKOFF_SECS, MAX_INITIAL_MAP_ATTEMPTS in *.
  inversion H as [| |r Hr Hs Hl|Hk Hi Hz Hr Hs Hl|d Hk Hi Hz Hr Hd Hs Hl|f Ho Hr Hf1 Hf2 Hs Hl]; subst s1 l.
  - split_and!; try done; try (by left); try lia.
    + intros x p port b Hx. cbn. rewrite Hx, Hr. done.
    + right. exists [Emitted (RateLimitedFor r)], (clamp 1 120 r). split; [done|]. by apply clamp_bound.
    + intros ev Hev. exists r. by apply list_elem_of_singleton in Hev.
  - cbn [suggested backoff_secs is_first initial_transient_failures last_epoch_secs pinned_conflict_waited]. split_and!; try done; try lia; [by right|by intros x p port b Hx; cbn; rewrite Hx, Hr|by left|by intros ? ?%elem_of_nil].
  - apply retry_delay_bound in Hd as [Hd1 Hd2]. unfold PINNED_CONFLICT_RETRY_WINDOW_SECS, PINNED_CONFLICT_MAX_BACKOFF_SECS in *. cbn [suggested backoff_secs is_first initial_transient_failures last_epoch_secs pinned_conflict_waited].
    assert (Hu : Z.min u32_max (pinned_conflict_waited s + d) = pinned_conflict_waited s + d) by (unfold u32_max; lia). rewrite Hu.
    split_and!; try done; try lia; try (by intros ? ?%elem_of_nil); [by intros x p port b Hx; cbn; rewrite Hx, Hr|]. right. exists [], d. split; [done|lia].
  - cbn [suggested backoff_secs is_first initial_transient_failures last_epoch_secs pinned_conflict_waited]. unfold MAX_BACKOFF_SECS, u32_max, MAX_INITIAL_MAP_ATTEMPTS in *.
    split_and!; try done; try lia; try (by intros ? ?%elem_of_nil); try (intros Hfi; specialize (Hf1 Hfi); specialize (Hf Hfi); lia).
    + intros x p port b Hx. cbn. rewrite Hx. by destruct e as [| | |[]| |].
    + right. exists [], (backoff_secs s). split; [done|lia].
Qed.

Lemma quiet_cycle cfg log s gs tail s' : rule_inv cfg log s -> Forall is_granted gs -> (g_proto <$> gs) `prefix_of` legs (protos cfg) ->
  (forall e, e ∈ said_in tail -> said_mapped e = None /\ (forall r err, e <> Failed r err)) ->
  (s' = None -> exists l' e, tail = l' ++ [Emitted e] /\ (terminal e = true \/ is_Some (said_mapped e))) ->
  (forall s1, s' = Some s1 -> rule_inv cfg (log ++ chain (suggested s) gs ++ tail) s1 /\ (forall e, e ∈ said_in tail -> terminal e = false) /\
    (suggested s1 = suggested s \/ (suggestion cfg = Sticky /\ suggested s1 = 0)) /\
    ((exists l' n, tail = l' ++ [Slept n] /\ 1 <= n <= 120) \/ (suggestion cfg = Sticky /\ suggested s <> 0 /\ suggested s1 = 0))) ->
  cycle_ok cfg log s s' (chain (suggested s) gs ++ tail).
Proof.
  intros Hi Hg Hpre Hsaid Hstop Hrun.
  assert (Hin : forall e, Emitted e ∈ chain (suggested s) gs ++ tail -> e ∈ said_in tail).
  { intros e He%said_in_elem. by rewrite said_in_app, said_in_chain in He. }
  split.
  - exists gs, tail. split; [done|]. split; [done|]. split; [done|]. split_and!.
    + intros e port life He%Hin Hm. destruct (Hsaid e He). congruence.
    + intros port life r w He%Hin. by destruct (Hsaid _ He).
    + intros r e He%Hin. destruct (Hsaid _ He) as [_ Hn]. by destruct (Hn r e).
  - intros r e He%Hin. destruct (Hsaid _ He) as [_ Hn]. by destruct (Hn r e).
  - intros Hn. destruct (Hstop Hn) as (l' & e & -> & He). exists (chain (suggested s) gs ++ l'), e. split; [by rewrite app_assoc|done].
  - intros s1 Hs1. destruct (Hrun s1 Hs1) as (Hinv & Ht & Hsu & Hsl). split; [done|]. split; [by intros e He%Hin; apply Ht|]. split; [done|].
    destruct Hsl as [(l' & n & -> & Hn1 & Hn2)|Hd]; [left|by right]. exists (chain (suggested s) gs ++ l'), n. split; [by rewrite app_assoc|]. split; [done|by left].
Qed.

Lemma failed_cycle cfg log s gs p port x e l : rule_inv cfg log s -> Forall is_granted gs -> (g_proto <$> gs) `prefix_of` legs (protos cfg) -> outcome x = Err e ->
  Forall (fun a => exists p x, a = Released p x) l -> (forall p, p ∈ g_proto <$> gs -> exists x, Released p x ∈ l) ->
  (from_client_error e = Other -> is_first s = true) ->
  (from_client_error e = SuggestedPortInUse -> gs = [] -> suggested s <> 0 -> suggestion cfg = Pinned /\ PINNED_CONFLICT_RETRY_WINDOW_SECS <= conflict_wait log) ->
  cycle_ok cfg log s None (chain (suggested s) gs ++ Asked p port x :: l ++ [Emitted (Failed (from_client_error e) e)]).
Proof.
  intros Hi Hg Hpre Hx Hf Hrel Hfirst Hpin. set (tail := Asked p port x :: l ++ _).
  assert (Hin : forall ev, Emitted ev ∈ chain (suggested s) gs ++ tail -> ev = Failed (from_client_error e) e).
  { intros ev He%said_in_elem. rewrite said_in_app, said_in_chain in He. unfold tail in He. cbn in He. fold (said_in (l ++ [Emitted (Failed (from_client_error e) e)])) in He.
    rewrite said_in_app, said_in_released in He by done. by apply list_elem_of_singleton in He. }
  split.
  - exists gs, tail. split; [done|]. split; [done|]. split; [done|]. split_and!.
    + by intros ev po life ->%Hin.
    + by intros po life r w ?%Hin.
    + intros r er _ g Hgin. destruct (Hrel (g_proto g)) as (y & Hy); [apply list_elem_of_fmap; by exists g|]. exists y. unfold tail.
      apply elem_of_app. right. right. apply elem_of_app. by left.
  - intros r er [= -> ->]%Hin. split; [done|]. split.
    + intros Ho Hm. apply (ri_first _ _ _ Hi) in Hm. rewrite Hfirst in Hm by done. done.
    + intros Hr Hs Hno. apply Hpin; [done| |done]. destruct gs as [|g gs]; [done|]. exfalso. apply Forall_cons in Hg as [Hg _].
      apply (Hno (g_proto g) (suggested s) (g_exchange g) (g_mapping g)); [cbn; by left|exact Hg].
  - intros _. exists (chain (suggested s) gs ++ Asked p port x :: l), (Failed (from_client_error e) e). split; [unfold tail; by rewrite <- app_assoc|by left].
  - done.
Qed.

Lemma refused_cycle cfg log s gs p port x e s' l : rule_inv cfg log s -> Forall is_granted gs -> (g_proto <$> gs) `prefix_of` legs (protos cfg) -> outcome x = Err e ->
  error_end cfg (length gs) (after_grants (g_proto <$> gs) s) (g_proto <$> gs) e s' l ->
  cycle_ok cfg log s s' (chain (suggested s) gs ++ Asked p port x :: l).
Proof.
  intros Hi Hg Hpre Hx He. destruct (after_grants_inv cfg log s gs Hi) as (Hs & Hfi & Hfl & Hep & Hw & Hb & Hwb). destruct s' as [s1|].
  - apply error_running in He as (Hsug & Hb1 & Hf1 & Hfirst & Hepo & Hw1 & Hconf & Hsl & Hsaid); [|done|rewrite Hfi, Hfl; apply Hi|done].
    apply quiet_cycle; try done.
    + intros ev Hev. apply Hsaid in Hev as [r ->]. done.
    + intros s2 [= <-]. split; [|split; [|split]].
      * destruct (conflict_wait_cycle log gs (Asked p port x :: l) (suggested s) Hg) as [b Hcw]. pose proof (Hconf x p port b Hx) as Hc. rewrite Hw in Hc.
        assert (Hwait : conflict_wait (log ++ chain (suggested s) gs ++ Asked p port x :: l) = pinned_conflict_waited s1) by (unfold conflict_wait at 1; by rewrite Hcw).
        split; [|done|done| | |by rewrite Hwait].
        -- rewrite Hs in Hsug. destruct Hsug as [->|[Hk Hz]]; [apply Hi|by right].
        -- rewrite Hfirst, Hfi, (ri_first _ _ _ Hi), was_mapped_app. split; [by left|]. intros [?|Hm]; [done|]. exfalso.
           apply was_mapped_said in Hm as (po & li & r & w & Hm). rewrite said_in_app, said_in_chain in Hm. by apply Hsaid in Hm as [? ?].
        -- rewrite Hfirst, Hfi, Hepo, Hep. apply Hi.
      * intros ev Hev. apply Hsaid in Hev as [r ->]. done.
      * by rewrite Hs in Hsug.
      * rewrite Hs in Hsl. destruct Hsl as [?|(l' & n & -> & Hn)]; [by right|left; by exists (Asked p port x :: l'), n].
  - inversion He as [l0 Hf Hrel Ho Hpin Hs0 Hl0|l0 Hl0 Hs0 Hl1| | | |]; subst.
    + apply failed_cycle; try done.
      * intros Hr. destruct (Ho Hr) as [Hfirst _]. congruence.
      * intros Hr -> Hz. cbn in Hpin, Hw. rewrite <- Hw. by apply Hpin.
    + apply quiet_cycle; try done.
      * intros ev Hev. cbn in Hev. fold (said_in (l0 ++ [Emitted Cancelled])) in Hev. rewrite said_in_app in Hev. apply elem_of_app in Hev as [Hev|Hev].
        -- destruct Hl0 as [->|[r ->]]; [by apply elem_of_nil in Hev|]. by apply list_elem_of_singleton in Hev as ->.
        -- by apply list_elem_of_singleton in Hev as ->.
      * intros _. exists (Asked p port x :: l0), Cancelled. split; [done|by left].
Qed.

Lemma granted_cycle cfg log env s gs c s' l : rule_inv cfg log s -> Forall is_granted gs -> g_proto <$> gs = legs (protos cfg) ->
  (forall g, g ∈ gs -> min_lifetime c <= g_life g) -> (forall g, last gs = Some g -> external_port c = g_port g /\ epoch_secs c = map_epoch_secs (g_mapping g)) ->
  (s' = None /\ l = [] /\ receiver_alive env = false) \/ (s' = None /\ l = [Emitted Cancelled]) \/ (s' = Some (kept s c) /\ l = [Slept (refresh_in c)]) ->
  cycle_ok cfg log s s' (chain (suggested s) gs ++ Emitted (grant_event s c) :: l).
Proof.
  intros Hi Hg Hp Hlife Hlast Hend. destruct (last gs) as [g|] eqn:El; [|apply last_None in El; subst; by destruct (protos cfg)]. destruct (Hlast g eq_refl) as [Hport Hepoch].
  assert (Hev : forall e, Emitted e ∈ chain (suggested s) gs ++ Emitted (grant_event s c) :: l -> e = grant_event s c \/ e = Cancelled).
  { intros e He%said_in_elem. rewrite said_in_app, said_in_chain in He. cbn in He. apply elem_of_cons in He as [->|He]; [by left|].
    destruct Hend as [(_ & -> & _)|[(_ & ->)|(_ & ->)]]; cbn in He; [by apply elem_of_nil in He|apply list_elem_of_singleton in He; by right|by apply elem_of_nil in He]. }
  assert (Hsm : said_mapped (grant_event s c) = Some (external_port c, min_lifetime c)) by (unfold grant_event; by destruct (is_first s || _)).
  split.
  - exists gs, (Emitted (grant_event s c) :: l). split; [done|]. split; [done|]. split; [by rewrite Hp|]. split_and!.
    + intros e port life [->| ->]%Hev Hs; [|done]. rewrite Hsm in Hs. injection Hs as <- <-. split; [done|]. split; [by rewrite El, Hport|done].
    + intros port life r w [He|He]%Hev; [|done]. unfold grant_event in He. destruct (is_first s) eqn:Ef; [done|]. split; [by apply Hi|].
      destruct (last_epoch_secs s) as [prev|] eqn:Ep; [|apply (ri_epoch _ _ _ Hi) in Ep; congruence]. exists prev, g. split; [done|]. split; [done|].
      unfold epoch_indicates_restart in He. cbn [orb] in He. destruct (Z.ltb_spec (epoch_secs c) prev); [done|]. lia.
    + intros r e [He|He]%Hev; [|done]. rewrite <- He in Hsm. done.
  - intros r e [He|He]%Hev; [|done]. rewrite <- He in Hsm. done.
  - intros ->. destruct Hend as [(_ & -> & _)|[(_ & ->)|(? & _)]]; [| |done].
    + exists (chain (suggested s) gs), (grant_event s c). split; [done|]. right. by rewrite Hsm.
    + exists (chain (suggested s) gs ++ [Emitted (grant_event s c)]), Cancelled. split; [by rewrite <- app_assoc|by left].
  - intros s1 ->. destruct Hend as [(? & _)|[(? & _)|([= ->] & ->)]]; [done..|]. split_and!.
    + assert (Hcw : conflict_wait (log ++ chain (suggested s) gs ++ [Emitted (grant_event s c); Slept (refresh_in c)]) = 0).
      { unfold conflict_wait. rewrite !fold_left_app, chain_conflict by done. by destruct gs. }
      split; [apply Hi|done|done| |done|by rewrite Hcw]. split; [intros _|done]. apply was_mapped_app. destruct (is_first s) eqn:Ef; [right|left; by apply Hi].
      apply was_mapped_said. rewrite said_in_app, said_in_chain. unfold grant_event. rewrite Ef. cbn. do 4 eexists. by left.
    + intros e He%said_in_elem. rewrite said_in_app, said_in_chain in He. apply list_elem_of_singleton in He as ->. unfold grant_event. by destruct (is_first s || _).
    + by left.
    + left. exists (chain (suggested s) gs ++ [Emitted (grant_event s c)]), (refresh_in c). split; [by rewrite <- app_assoc|].
      split; [unfold refresh_in, MIN_LIFETIME_FOR_REFRESH; apply Z.div_le_lower_bound; lia|]. right.
      exists (grant_event s c), (external_port c), (min_lifetime c). split; [|done]. apply elem_of_app. right. by left.
Qed.

Lemma cycle_holds cfg log env s s' l : rule_inv cfg log s -> cycle_end cfg env s s' l -> cycle_ok cfg log s s' l.
Proof.
  intros Hi [l0 c s1 l1 Hok Hend _|ps p ps' l0 c Hps Hok|ps p ps' l0 c x e s1 l1 Hps Hok Hx Herr];
    apply asked_ok_chain in Hok as (gs & -> & Hgp & Hg & Hlife & _ & Hport & Hlast & _); change (leg_port 0 s (cycle_start s)) with (suggested s).
  - by eapply granted_cycle.
  - subst ps. apply quiet_cycle; try done.
    + rewrite Hps. by apply prefix_app_r.
    + intros e He. by apply list_elem_of_singleton in He as ->.
    + intros _. exists [], Cancelled. split; [done|by left].
  - subst ps. rewrite length_fmap in Herr. eapply refused_cycle; try done. rewrite Hps. by apply prefix_app_r.
Qed.

Lemma run_cycle_ok cfg log env s : rule_inv cfg log s -> exists s' l, run_cycle cfg env s = Some (s', l) /\ cycle_ok cfg log s s' l.
Proof. intros Hi. destruct (run_cycle_end cfg env s) as (s' & l & -> & He). exists s', l. split; [done|]. by eapply cycle_holds. Qed.

(** *** What a cycle asks for *)

Definition asks_in (l : list Act) : list Act := List.filter (fun a => match a with Asked _ _ _ => true | _ => false end) l.

Lemma asks_in_chain port gs : asks_in (chain port gs) = chain port gs.
Proof. revert port. induction gs as [|g gs IH]; intros port; [done|]. unfold asks_in in *. cbn. by rewrite IH. Qed.

Lemma asks_in_none l : (forall p port x, Asked p port x ∉ l) -> asks_in l = [].
Proof.
  induction l as [|a l IH]; intros H; [done|]. unfold asks_in in *. cbn. destruct a as [p port x|p x|e|n];
    [by destruct (H p port x); left|apply IH; intros p' port' x' ?; by apply (H p' port' x'); right..].
Qed.

Lemma error_end_asks cfg i s granted e s' l : error_end cfg i s granted e s' l -> asks_in l = [].
Proof.
  intros H. apply asks_in_none. intros p port x. destruct H as [l Hf _ _ _|l Hl|r _|_ _ _ _|d _ _ _ _ _|f _ _ _ _].
  - rewrite Forall_forall in Hf. intros [(q & y & ?)%Hf| ?%list_elem_of_singleton]%elem_of_app; done.
  - destruct Hl as [->|[r ->]]; cbn; rewrite ?elem_of_cons, elem_of_nil; naive_solver.
  - rewrite !elem_of_cons, elem_of_nil. naive_solver.
  - by intros ?%elem_of_nil.
  - by intros ?%list_elem_of_singleton.
  - by intros ?%list_elem_of_singleton.
Qed.

(** The requests of a cycle: the granted legs, the first for the loop's port and each next for the port of the one before, and at most one more,
    for the port that is next in this row, which was refused. *)
Definition asks_ok (cfg : RefreshLoopConfig) (s : Loop) (l : list Act) : Prop := exists gs refused,
  Forall is_granted gs /\ (g_proto <$> gs) `prefix_of` legs (protos cfg) /\ asks_in l = chain (suggested s) gs ++ refused /\
  (refused = [] \/ exists p x e, refused = [Asked p (default (suggested s) (g_port <$> last gs)) x] /\ outcome x = Err e).

Lemma cycle_asks cfg env s s' l : cycle_end cfg env s s' l -> asks_ok cfg s l.
Proof.
  assert (Happ : forall l1 l2, asks_in (l1 ++ l2) = asks_in l1 ++ asks_in l2) by apply List.filter_app.
  intros [l0 c s1 l1 Hok Hend _|ps p ps' l0 c Hps Hok|ps p ps' l0 c x e s1 l1 Hps Hok Hx Herr];
    apply asked_ok_chain in Hok as (gs & -> & Hgp & Hg & _ & _ & Hport & _ & _); change (leg_port 0 s (cycle_start s)) with (suggested s) in *; exists gs.
  - exists []. split; [done|]. split; [by rewrite Hgp|]. split; [|by left]. rewrite Happ, asks_in_chain. f_equal.
    by destruct Hend as [(_ & -> & _)|[(_ & ->)|(_ & ->)]].
  - exists []. split; [done|]. split; [rewrite Hgp, Hps; by apply prefix_app_r|]. split; [|by left]. by rewrite Happ, asks_in_chain.
  - exists [Asked p (default (suggested s) (g_port <$> last gs)) x]. split; [done|]. split; [rewrite Hgp, Hps; by apply prefix_app_r|]. split; [|right; by exists p, x, e].
    rewrite Happ, asks_in_chain. cbn [Nat.add] in Hport. rewrite Hport. f_equal. unfold asks_in. cbn. f_equal. by eapply error_end_asks.
Qed.

(** The runs of a rule. *)
Inductive rule_run (cfg : RefreshLoopConfig) : Loop -> list Act -> Prop :=
| rule_started : rule_run cfg (loop_start cfg) []
| rule_went_on s log env s' l : rule_run cfg s log -> run_cycle cfg env s = Some (Some s', l) -> rule_run cfg s' (log ++ l).

Lemma rule_run_inv cfg s log : rule_run cfg s log -> rule_inv cfg log s.
Proof.
  induction 1 as [|s log env s' l _ IH Hr]; [apply rule_inv_start|]. destruct (run_cycle_ok cfg log env s IH) as (s1 & l1 & Hr1 & Hok).
  rewrite Hr in Hr1. injection Hr1 as <- <-. by apply (co_running _ _ _ _ _ Hok).
Qed.

(** ** Outages and refusals *)

Definition act_ms (a : Act) : Z := match a with Asked _ _ x | Released _ x => took_ms x | Slept n => 1000 * n | Emitted _ => 0 end.
Definition elapsed (l : list Act) : Z := foldr (fun a t => act_ms a + t) 0 l.
Definition requests (l : list Act) : nat := length (List.filter (fun a => match a with Asked _ _ _ => true | _ => false end) l).
Definition slept (l : list Act) : list Z := omap (fun a => match a with Slept n => Some n | _ => None end) l.

Lemma elapsed_app l l' : elapsed (l ++ l') = elapsed l + elapsed l'.
Proof. induction l as [|a l IH]; cbn; [done|]. unfold elapsed in *. lia. Qed.

Lemma requests_app l l' : requests (l ++ l') = (requests l + requests l')%nat.
Proof. unfold requests. by rewrite List.filter_app, length_app. Qed.

Lemma slept_app l l' : slept (l ++ l') = slept l ++ slept l'.
Proof. apply omap_app. Qed.

(** Nothing comes back: no datagram, whatever else fails. *)
Definition mute (net : Net) : Prop := forall k, match received (attempt_at net k) with Datagram _ _ => False | _ => True end.
Definition outage (env : Env) : Prop := sleep_cancelled env = false /\ exists net, leg_net env 0 = Some net /\ timely net /\ mute net.

(** What the first attempt that is not silent returns. *)
Definition replies (net : Net) (r : result NatPmpMapping NatPmpClientError) : Prop :=
  bound net = true /\ connected net = true /\ exists j, (j < DEFAULT_MAX_ATTEMPTS)%nat /\ answered_at net 0 j /\ answer (attempt_at net j) = r.

Lemma replies_outcome net r proto ip sp lt cred x : replies net r ->
  request_map_with_credential proto ip sp lt DEFAULT_MAX_ATTEMPTS cred net = Some x -> outcome x = r.
Proof.
  intros (Hb & Hc & j & Hj & [Hs Hn] & Ha). unfold request_map_with_credential, DEFAULT_MAX_ATTEMPTS in *. rewrite Hb, Hc. cbn [Nat.eqb negb orb].
  destruct (attempt_loop_spec 5 0 INITIAL_TIMEOUT_MS (request_bytes proto ip sp lt cred) net) as (y & -> & Hy); [lia|]. intros [= <-].
  destruct Hy as [(j' & Hj' & [Hs' Hn'] & Ho & _)|(Hq & _)]; [|by destruct Hn; apply Hq]. cbn [Nat.add] in *.
  assert (j = j') as <-; [|by rewrite Ho]. destruct (Nat.lt_trichotomy j j') as [Hlt|[|Hlt]]; [by destruct Hn; apply Hs'|done|by destruct Hn'; apply Hs].
Qed.

Lemma mute_outcome net proto ip sp lt cred x : mute net ->
  request_map_with_credential proto ip sp lt DEFAULT_MAX_ATTEMPTS cred net = Some x -> outcome x = Err IoError \/ outcome x = Err TimedOut.
Proof.
  intros Hm. unfold request_map_with_credential, DEFAULT_MAX_ATTEMPTS. cbn [Nat.eqb]. destruct (negb _ || _); [intros [= <-]; by left|].
  destruct (attempt_loop_spec 5 0 INITIAL_TIMEOUT_MS (request_bytes proto ip sp lt cred) net) as (y & -> & Hy); [lia|]. intros [= <-].
  destruct Hy as [(j & _ & _ & Ho & _)|(_ & Ho & _)]; [left|by right]. rewrite Ho. unfold answer. specialize (Hm (0 + j)%nat).
  destruct (sent_ok _); [|done]. by destruct (received _).
Qed.

(** The first leg's request decides the cycle when it fails. *)
Lemma first_leg_fails cfg env s net : leg_net env 0 = Some net -> exists p x,
  request_map_with_credential p (internal_port cfg) (suggested s) (lifetime_secs cfg) DEFAULT_MAX_ATTEMPTS (cycle_credential env) net = Some x /\
  forall e s' l, outcome x = Err e -> on_error cfg env 0 s [] e = Some (s', l) -> run_cycle cfg env s = Some (s', Asked p (suggested s) x :: l).
Proof.
  intros Hn. destruct (legs (protos cfg)) as [|p ps] eqn:El; [by destruct (legs_some (protos cfg))|].
  destruct (request_total p (internal_port cfg) (suggested s) (lifetime_secs cfg) DEFAULT_MAX_ATTEMPTS (cycle_credential env) net) as [x Hx]; [unfold DEFAULT_MAX_ATTEMPTS; lia|].
  exists p, x. split; [done|]. intros e s' l He Hon. unfold run_cycle. rewrite El. cbn [run_legs Nat.eqb]. rewrite Hn, Hx. cbn [mbind option_bind]. rewrite He.
  cbn [granted_this_cycle]. rewrite Hon. done.
Qed.

Definition backed_off (s : Loop) : Loop :=
  mkLoop (suggested s) (is_first s) (if is_first s then initial_transient_failures s + 1 else initial_transient_failures s)
    (Z.min MAX_BACKOFF_SECS (Z.min u32_max (backoff_secs s * 2))) (pinned_conflict_waited s) (last_epoch_secs s).

Lemma outage_cycle cfg env s : outage env -> exists p x e, 0 <= took_ms x <= 7750 /\
  run_cycle cfg env s =
    if is_first s && (MAX_INITIAL_MAP_ATTEMPTS <=? initial_transient_failures s + 1)
    then Some (None, [Asked p (suggested s) x; Emitted (Failed Other e)])
    else Some (Some (backed_off s), [Asked p (suggested s) x; Slept (backoff_secs s)]).
Proof.
  intros (Hc & net & Hn & Ht & Hm). destruct (first_leg_fails cfg env s net Hn) as (p & x & Hx & Hrun).
  pose proof (request_time _ _ _ _ _ _ _ Ht Hx) as Hms.
  assert (He : exists e, outcome x = Err e /\ from_client_error e = Other /\ on_error cfg env 0 s [] e =
    (if is_first s && (MAX_INITIAL_MAP_ATTEMPTS <=? (if is_first s then initial_transient_failures s + 1 else initial_transient_failures s)) then stop_failed cfg env [] Other e
     else Some (rest env (backoff_secs s) (backed_off s)))).
  { destruct (mute_outcome _ _ _ _ _ _ _ Hm Hx) as [-> | ->]; eexists; (split; [done|]); (split; [done|]); done. }
  destruct He as (e & Ho & _ & Hon). exists p, x, e. split; [done|]. unfold rest in Hon. rewrite Hc in Hon.
  destruct (is_first s) eqn:Ef; cbn [andb] in *; [destruct (MAX_INITIAL_MAP_ATTEMPTS <=? _) eqn:Em|].
  - by apply (Hrun e None [Emitted (Failed Other e)] Ho).
  - by apply (Hrun e (Some (backed_off s)) [Slept (backoff_secs s)] Ho).
  - by apply (Hrun e (Some (backed_off s)) [Slept (backoff_secs s)] Ho).
Qed.

(** An outage of any length does not stop a rule that was mapped: it asks again every 67.75 s at least. *)
Lemma outage_kept cfg envs s : is_first s = false -> 0 <= backoff_secs s <= MAX_BACKOFF_SECS -> Forall outage envs ->
  exists s' l, run_loop cfg envs s = Some (Some s', l) /\ is_first s' = false /\ suggested s' = suggested s /\ 0 <= backoff_secs s' <= MAX_BACKOFF_SECS /\
    0 <= elapsed l <= 67750 * Z.of_nat (length envs) /\ requests l = length envs.
Proof.
  intros Hf Hb Hall. revert s Hf Hb. induction Hall as [|env envs He _ IH]; intros s Hf Hb; cbn [run_loop].
  { exists s, []. split_and!; try done; cbn; lia. }
  destruct (outage_cycle cfg env s He) as (p & x & e & Hms & ->). rewrite Hf. cbn [andb mbind option_bind].
  destruct (IH (backed_off s)) as (s' & l & -> & Hf' & Hs' & Hb' & He' & Hr'); [done|unfold backed_off, MAX_BACKOFF_SECS, u32_max in *; cbn; lia|].
  do 2 eexists. split; [reflexivity|]. rewrite elapsed_app, requests_app. cbn [elapsed foldr act_ms length]. unfold MAX_BACKOFF_SECS in *.
  split_and!; try done; try lia. by rewrite Hr'.
Qed.

(** An exit that never answers is reported at the third request. *)
Lemma dead_exit_reported cfg env1 env2 env3 envs : outage env1 -> outage env2 -> outage env3 ->
  exists l e, run_loop cfg (env1 :: env2 :: env3 :: envs) (loop_start cfg) = Some (None, l ++ [Emitted (Failed Other e)]) /\
    requests l = 3%nat /\ 15000 <= elapsed l <= 38250 /\ said_in l = [].
Proof.
  intros H1 H2 H3. cbn [run_loop].
  destruct (outage_cycle cfg env1 (loop_start cfg) H1) as (p1 & x1 & e1 & Hm1 & ->). cbn [is_first loop_start initial_transient_failures andb].
  change (MAX_INITIAL_MAP_ATTEMPTS <=? 0 + 1) with false. cbn [mbind option_bind].
  destruct (outage_cycle cfg env2 (backed_off (loop_start cfg)) H2) as (p2 & x2 & e2 & Hm2 & ->). cbn [is_first backed_off loop_start initial_transient_failures andb].
  change (MAX_INITIAL_MAP_ATTEMPTS <=? 0 + 1 + 1) with false. cbn [mbind option_bind].
  destruct (outage_cycle cfg env3 (backed_off (backed_off (loop_start cfg))) H3) as (p3 & x3 & e3 & Hm3 & ->). cbn [is_first backed_off loop_start initial_transient_failures andb].
  change (MAX_INITIAL_MAP_ATTEMPTS <=? 0 + 1 + 1 + 1) with true. cbn [mbind option_bind app].
  set (sug := suggested_external_port cfg). exists [Asked p1 sug x1; Slept 5; Asked p2 sug x2; Slept 10; Asked p3 sug x3], e3.
  split; [done|]. split; [done|]. split; [|done]. cbn. lia.
Qed.

(** ** A port that is held *)

Definition refusing (env : Env) : Prop := sleep_cancelled env = false /\ exists net, leg_net env 0 = Some net /\ replies net (Err (ServerRefused SuggestedPortUnavailable)).

(** The delays of a conflict. *)
Fixpoint delays (n : nat) (waited : Z) : list Z :=
  match n with
  | O => []
  | S n => match pinned_conflict_retry_delay waited with Some d => d :: delays n (waited + d) | None => [] end
  end.

Definition bumped (d : Z) (s : Loop) : Loop :=
  mkLoop (suggested s) (is_first s) (initial_transient_failures s) (backoff_secs s) (Z.min u32_max (pinned_conflict_waited s + d)) (last_epoch_secs s).

Lemma refusing_cycle cfg env s : refusing env -> suggestion cfg = Pinned -> suggested s <> 0 -> exists p x, outcome x = Err (ServerRefused SuggestedPortUnavailable) /\
  run_cycle cfg env s = match pinned_conflict_retry_delay (pinned_conflict_waited s) with
    | Some d => Some (Some (bumped d s), [Asked p (suggested s) x; Slept d])
    | None => Some (None, [Asked p (suggested s) x; Emitted (Failed SuggestedPortInUse (ServerRefused SuggestedPortUnavailable))])
    end.
Proof.
  intros (Hc & net & Hn & Hr) Hp Hs. destruct (first_leg_fails cfg env s net Hn) as (p & x & Hx & Hrun). pose proof (replies_outcome _ _ _ _ _ _ _ _ Hr Hx) as Ho.
  exists p, x. split; [done|]. pose proof (Hrun (ServerRefused SuggestedPortUnavailable)) as Hrun'. unfold on_error in Hrun'.
  cbn [Nat.eqb andb] in Hrun'. apply Z.eqb_neq in Hs. rewrite Hs, Hp in Hrun'. cbn [negb] in Hrun'. unfold rest in Hrun'. rewrite Hc in Hrun'.
  destruct (pinned_conflict_retry_delay _); by apply Hrun'.
Qed.

Lemma refusing_run cfg envs s : Forall refusing envs -> suggestion cfg = Pinned -> suggested s <> 0 -> 0 <= pinned_conflict_waited s <= 1000 ->
  exists s' l, run_loop cfg envs s = Some (s', l) /\ slept l = delays (length envs) (pinned_conflict_waited s) /\
    (forall p port x, Asked p port x ∈ l -> port = suggested s) /\
    match s' with
    | Some _ => requests l = length (slept l) /\ said_in l = [] /\ length (slept l) = length envs
    | None => exists l', l = l' ++ [Emitted (Failed SuggestedPortInUse (ServerRefused SuggestedPortUnavailable))] /\ said_in l' = [] /\ requests l' = S (length (slept l))
    end.
Proof.
  intros Hall Hp. revert s. induction Hall as [|env envs He _ IH]; intros s Hs Hw; cbn [run_loop delays length].
  { exists (Some s), []. split_and!; try done. by intros ??? ?%elem_of_nil. }
  destruct (refusing_cycle cfg env s He Hp Hs) as (p & x & Ho & ->). destruct (pinned_conflict_retry_delay _) as [d|] eqn:Ed; cbn [mbind option_bind].
  - pose proof (retry_delay_bound _ _ Ed) as [Hd1 Hd2]. unfold PINNED_CONFLICT_RETRY_WINDOW_SECS, PINNED_CONFLICT_MAX_BACKOFF_SECS in *.
    assert (Hb : pinned_conflict_waited (bumped d s) = pinned_conflict_waited s + d) by (cbn; unfold u32_max; lia).
    destruct (IH (bumped d s)) as (s' & l & -> & Hsl & Hport & Hend); [done|rewrite Hb; lia|]. rewrite Hb in Hsl. do 2 eexists. split; [reflexivity|].
    rewrite slept_app, Hsl. change (slept [Asked p (suggested s) x; Slept d]) with [d]. split; [done|]. split.
    { intros q port y [Hin|Hin]%elem_of_app; [|by apply Hport in Hin]. rewrite !elem_of_cons, elem_of_nil in Hin. by destruct Hin as [[= -> -> ->]|[?|[]]]. }
    destruct s' as [s'|].
    + destruct Hend as (Hr & Hsaid & Hlen). rewrite requests_app, said_in_app, Hr, Hsaid. rewrite Hsl in *. cbn. split_and!; [done|done|by rewrite Hlen].
    + destruct Hend as (l' & -> & Hsaid & Hr). exists ([Asked p (suggested s) x; Slept d] ++ l'). rewrite <- app_assoc. split; [done|].
      rewrite said_in_app, requests_app, Hsaid, Hr. split; [done|]. rewrite Hsl in *. done.
  - do 2 eexists. split; [reflexivity|]. split; [done|]. split.
    { intros q port y. rewrite !elem_of_cons, elem_of_nil. by intros [[= -> -> ->]|[?|[]]]. }
    by exists [Asked p (suggested s) x].
Qed.

Lemma delays_all n : delays (25 + n) 0 = [1; 1; 2; 4; 8; 16] ++ replicate 19 30.
Proof. destruct n; vm_compute; reflexivity. Qed.

(** ** A lease is renewed in time *)

Definition granting (env : Env) : Prop := forall i, exists net m, leg_net env i = Some net /\ replies net (Ok m).

Lemma granting_legs cfg env ps i s c : granting env -> exists s' c' l, run_legs cfg env ps i s c = Some (inl (s', c'), l).
Proof.
  intros Hg. revert i s c. induction ps as [|p ps IH]; intros i s c; cbn [run_legs]; [by do 3 eexists|]. destruct (Hg i) as (net & m & -> & Hr). fold (leg_port i s c).
  destruct (request_total p (internal_port cfg) (leg_port i s c) (lifetime_secs cfg) DEFAULT_MAX_ATTEMPTS (cycle_credential env) net) as [x Hx]; [unfold DEFAULT_MAX_ATTEMPTS; lia|].
  rewrite Hx. cbn [mbind option_bind]. rewrite (replies_outcome _ _ _ _ _ _ _ _ Hr Hx). destruct (IH (S i) (recovered s) (grant p m c)) as (s' & c' & l & ->). by do 3 eexists.
Qed.

Lemma granting_cycle cfg env s : granting env -> exists s' l e port life, run_cycle cfg env s = Some (s', l) /\ Emitted e ∈ l /\ said_mapped e = Some (port, life).
Proof.
  intros Hg. unfold run_cycle. fold (cycle_start s). destruct (granting_legs cfg env (legs (protos cfg)) 0 s (cycle_start s) Hg) as (s1 & c & l & ->).
  cbn [mbind option_bind]. fold (grant_event s1 c) (refresh_in c).
  assert (Hs : said_mapped (grant_event s1 c) = Some (external_port c, min_lifetime c)) by (unfold grant_event; by destruct (is_first s1 || _)).
  destruct (receiver_alive env); cbn [negb]; unfold rest; [destruct (sleep_cancelled env)|];
    (do 2 eexists; exists (grant_event s1 c), (external_port c), (min_lifetime c); split; [reflexivity|]; split; [apply elem_of_app; right; by left|done]).
Qed.

(** What a cycle that announced a mapping and went on leaves. *)
Lemma announced cfg env s s1 l e port life : run_cycle cfg env s = Some (Some s1, l) -> Emitted e ∈ l -> said_mapped e = Some (port, life) ->
  is_first s1 = false /\ backoff_secs s1 = INITIAL_BACKOFF_SECS /\ last l = Some (Slept (Z.max life MIN_LIFETIME_FOR_REFRESH / 2)).
Proof.
  intros Hr He Hm. destruct (run_cycle_end cfg env s) as (s' & l0 & Hr' & Hend). rewrite Hr in Hr'. injection Hr' as <- <-.
  apply said_in_elem in He. inversion Hend as [l0 c s2 l1 Hok Hcase _ Hs Hl|ps p ps' l0 c Hps Hok Hs Hl|ps p ps' l0 c x er s2 l1 Hps Hok Hx Herr Hs Hl]; subst.
  - destruct Hcase as [(? & _)|[(? & _)|([= ->] & ->)]]; [done..|]. apply asked_ok_chain in Hok as (gs & -> & _). rewrite said_in_app, said_in_chain in He.
    apply list_elem_of_singleton in He as ->. assert (life = min_lifetime c) as -> by (unfold grant_event in Hm; by destruct (is_first s || _); injection Hm as _ <-).
    split; [done|]. split; [done|]. by rewrite last_app.
  - exfalso. apply asked_ok_chain in Hok as (gs & -> & _). rewrite said_in_app, said_in_chain in He. cbn in He. fold (said_in l1) in He.
    assert (exists r, e = RateLimitedFor r) as [r ->]; [|done]. clear -Herr He.
    inversion Herr as [| |r Hr Hs Hl| | |]; subst; cbn in He; try by apply elem_of_nil in He. exists r. by apply list_elem_of_singleton in He.
Qed.

(** C20.  A forward rule tells its user the truth.  Whatever the exit answers, the network loses and the caller cancels, every cycle of a
    rule's task ends, without a panic, and: its first request is for the rule's port, which for a pinned rule is the pinned one, and each next
    one, granted or refused, for the port the leg before it was granted; a mapping is announced only when every leg was granted, the last on the announced port, each for at least the
    announced lifetime; a renewal only after a mapping, by a gateway whose epoch did not go back; a failure is final, gives back every leg
    granted in its cycle and is never a network failure once the rule was mapped; a cycle in which no leg was granted reports a conflict over
    the rule's port only for a pinned rule, after ten minutes of waiting for it (a conflict over the second leg is reported at once,
    [second_leg_conflict]); and a cycle that goes on sleeps a second at least, half the granted lifetime
    or two minutes at most, except the one that gives up a carried-over port for good. *)
Theorem forward_rule_honest cfg s log env : rule_run cfg s log ->
  exists s' l, run_cycle cfg env s = Some (s', l) /\ cycle_ok cfg log s s' l /\ asks_ok cfg s l /\
    (suggestion cfg = Pinned -> suggested s = suggested_external_port cfg) /\
    conflict_wait log <= PINNED_CONFLICT_RETRY_WINDOW_SECS + PINNED_CONFLICT_MAX_BACKOFF_SECS.
Proof.
  intros Hr%rule_run_inv. destruct (run_cycle_end cfg env s) as (s' & l & Hc & He). exists s', l. split; [done|].
  split; [by eapply cycle_holds|]. split; [by eapply cycle_asks|]. split; [|apply Hr].
  intros Hp. destruct (ri_suggested _ _ _ Hr) as [|[? _]]; [done|congruence].
Qed.

(** C21.  A forward rule neither hangs nor gives up early.  An exit that never answers is reported at the third request, within 38.25 s.
    A pinned port that stays held is asked for twenty-six times over 602 s, at no other port, and then reported.
    And once a mapping was announced no outage ends the rule: it asks again every 67.75 s at least, so that after an outage of [n]
    cycles that fits in the second half of the lease the next request still finds it running, and
    the first answered cycle announces the mapping again. *)
Theorem forward_rule_lives cfg :
  (forall env1 env2 env3 envs, outage env1 -> outage env2 -> outage env3 ->
     exists l e, run_loop cfg (env1 :: env2 :: env3 :: envs) (loop_start cfg) = Some (None, l ++ [Emitted (Failed Other e)]) /\
       requests l = 3%nat /\ 15000 <= elapsed l <= 38250 /\ said_in l = []) /\
  (forall s log envs, rule_run cfg s log -> suggestion cfg = Pinned -> suggested_external_port cfg <> 0 -> conflict_wait log = 0 ->
     Forall refusing envs -> (26 <= length envs)%nat ->
     exists l, run_loop cfg envs s = Some (None, l ++ [Emitted (Failed SuggestedPortInUse (ServerRefused SuggestedPortUnavailable))]) /\
       requests l = 26%nat /\ slept l = [1; 1; 2; 4; 8; 16] ++ replicate 19 30 /\ foldr Z.add 0 (slept l) = 602 /\ said_in l = [] /\
       forall p port x, Asked p port x ∈ l -> port = suggested_external_port cfg) /\
  (forall s env s1 l e port life envs, run_cycle cfg env s = Some (Some s1, l) -> Emitted e ∈ l -> said_mapped e = Some (port, life) ->
     Forall outage envs ->
     exists n s2 l2, last l = Some (Slept n) /\ run_loop cfg envs s1 = Some (Some s2, l2) /\ requests l2 = length envs /\
       (2 <= life -> 67750 * Z.of_nat (length envs) < 500 * life -> 1000 * n + elapsed l2 < 1000 * life) /\
       forall env', granting env' -> exists s3 l3 e' port' life', run_cycle cfg env' s2 = Some (s3, l3) /\ Emitted e' ∈ l3 /\ said_mapped e' = Some (port', life')).
Proof.
  split; [|split].
  - apply dead_exit_reported.
  - intros s log envs Hr%rule_run_inv Hp Hne Hc Hall Hlen.
    assert (Hs : suggested s = suggested_external_port cfg) by (destruct (ri_suggested _ _ _ Hr) as [|[? _]]; [done|congruence]).
    destruct (ri_waited _ _ _ Hr) as [Hw _]. rewrite Hc in Hw. destruct (refusing_run cfg envs s Hall Hp) as (s' & l & Hrun & Hsl & Hport & Hend); [congruence|lia|].
    rewrite Hw in Hsl. replace (length envs) with (25 + (length envs - 25))%nat in Hsl by lia. rewrite delays_all in Hsl. destruct s' as [s'|].
    { destruct Hend as (_ & _ & Hl). rewrite Hsl in Hl. cbn in Hl. lia. }
    destruct Hend as (l' & -> & Hsaid & Hreq). rewrite slept_app in *. cbn [slept omap list_omap] in Hsl, Hreq. rewrite app_nil_r in Hsl, Hreq. exists l'.
    split; [done|]. rewrite Hsl in Hreq. split; [done|]. split; [done|]. rewrite Hsl. split; [done|]. split; [done|]. intros p port x Hin. rewrite <- Hs. eapply Hport.
    apply elem_of_app. by left.
  - intros s env s1 l e port life envs Hr He Hm Hall. destruct (announced _ _ _ _ _ _ _ _ Hr He Hm) as (Hf & Hb & Hlast).
    destruct (outage_kept cfg envs s1 Hf) as (s2 & l2 & Hrun & _ & _ & _ & Hel & Hreq); [by rewrite Hb|done|].
    exists (Z.max life MIN_LIFETIME_FOR_REFRESH / 2), s2, l2. split_and!; [done|done|done| |].
    + intros Hl Hn. unfold MIN_LIFETIME_FOR_REFRESH. rewrite Z.max_l by lia. pose proof (Z.mul_div_le life 2 ltac:(lia)). lia.
    + intros env' Hg. by apply granting_cycle.
Qed.

(** ** Scenes *)

(** The first datagram is lost, the second answered after 40 ms. *)
Definition lossy_net (resp : Response) : Net :=
  mkNet true true (fun k => if (k =? 0)%nat then mkAttempt true Silence else mkAttempt true (Datagram 40 (serialize_response resp))).
Definition silent_net : Net := mkNet true true (fun _ => mkAttempt true Silence).

Definition map_answer (p : MapProto) (code : ResultCode) (epoch port : Z) (rl : option RateLimitInfo) : Response := RespMap p code epoch 8080 port 3600 rl.

(** A cycle whose legs meet these networks. *)
Definition scene (udp tcp : Net) (alive : bool) : Env := mkEnv None (fun i => Some (if (i =? 0)%nat then udp else tcp)) (fun _ => silent_net) false alive.

Definition granted_net (p : MapProto) (epoch : Z) : Net := lossy_net (map_answer p Success epoch 50000 None).
Definition limited_net (p : MapProto) : Net := lossy_net (map_answer p RateLimited 7 0 (Some (mkRateLimitInfo 0 30))).
Definition refused_net (p : MapProto) (code : ResultCode) : Net := lossy_net (map_answer p code 7 0 None).

Definition pinned_pair : RefreshLoopConfig := mkConfig FwdBoth 8080 50000 3600 Pinned.
Definition told (r : option (option Loop * list Act)) : option (bool * list NatPmpEvent) := match r with Some (s, l) => Some (bool_decide (is_Some s), said_in l) | None => None end.

(** A pair mapped, renewed, and mapped again after the gateway restarted. *)
Lemma pair_kept : told (run_loop pinned_pair [scene (granted_net MapUdp 100) (granted_net MapTcp 100) true; scene (granted_net MapUdp 1900) (granted_net MapTcp 1900) true;
    scene (granted_net MapUdp 5) (granted_net MapTcp 5) true] (loop_start pinned_pair)) =
  Some (true, [Mapped 50000 3600 None 0; Renewed 50000 3600 None 0; Mapped 50000 3600 None 0]).
Proof. vm_compute. reflexivity. Qed.

(** The first cycle maps the UDP leg and is told to wait for the other; the next is refused at its first leg.  The rule fails,
    and the UDP mapping is not given back: only the legs of the failing cycle are. *)
Lemma earlier_leg_left_behind :
  match run_loop pinned_pair [scene (granted_net MapUdp 100) (limited_net MapTcp) true; scene (refused_net MapUdp OutOfResources) silent_net true] (loop_start pinned_pair) with
  | Some (None, l) => said_in l = [RateLimitedFor 30; Failed ReasonOutOfResources (ServerRefused OutOfResources)] /\
      existsb (fun a => match a with Asked MapUdp 50000 x => is_ok (outcome x) | _ => false end) l = true /\
      existsb (fun a => match a with Released _ _ => true | _ => false end) l = false
  | _ => False
  end.
Proof. vm_compute. done. Qed.

(** A rule whose receiver is gone goes on as long as it is told to wait. *)
Lemma limited_rule_outlives_receiver :
  told (run_loop pinned_pair (replicate 10 (scene (limited_net MapUdp) silent_net false)) (loop_start pinned_pair)) = Some (true, replicate 10 (RateLimitedFor 30)).
Proof. vm_compute. reflexivity. Qed.

(** Three failures with answers in between end a rule that was not mapped yet. *)
Lemma failures_need_not_be_consecutive :
  told (run_loop pinned_pair [scene silent_net silent_net true; scene (limited_net MapUdp) silent_net true; scene silent_net silent_net true;
    scene (granted_net MapUdp 100) (limited_net MapTcp) true; scene silent_net silent_net true] (loop_start pinned_pair)) =
  Some (false, [RateLimitedFor 30; RateLimitedFor 30; Failed Other TimedOut]).
Proof. vm_compute. reflexivity. Qed.

Definition first_scene : Env := scene (granted_net MapUdp 100) (granted_net MapTcp 100) true.
Definition half_scene : Env := scene (granted_net MapUdp 100) (refused_net MapTcp OutOfResources) true.

Lemma half_run : match run_cycle pinned_pair half_scene (loop_start pinned_pair) with
  | Some (s', l) => s' = None /\ Emitted (Failed ReasonOutOfResources (ServerRefused OutOfResources)) ∈ l
  | None => False
  end.
Proof. vm_compute. split; [done|]. right. right. right. left. Qed.

(** A pair whose second leg is refused because its port is held: the first is given back and the conflict reported at once. *)
Lemma second_leg_conflict :
  told (run_cycle pinned_pair (scene (granted_net MapUdp 100) (refused_net MapTcp SuggestedPortUnavailable) true) (loop_start pinned_pair)) =
  Some (false, [Failed SuggestedPortInUse (ServerRefused SuggestedPortUnavailable)]).
Proof. vm_compute. reflexivity. Qed.

(** A pair whose second leg is refused: the first is given back. *)
Lemma forward_rule_honest_witness : exists l gs, run_cycle pinned_pair half_scene (loop_start pinned_pair) = Some (None, l) /\
  Forall is_granted gs /\ forall g, g ∈ gs -> exists x, Released (g_proto g) x ∈ l.
Proof.
  destruct (forward_rule_honest pinned_pair (loop_start pinned_pair) [] half_scene (rule_started pinned_pair)) as (s' & l & Hrun & Hok & _).
  pose proof half_run as Hh. rewrite Hrun in Hh. destruct Hh as [-> Hf]. destruct (co_chain _ _ _ _ _ Hok) as (gs & tail & _ & Hg & _ & _ & _ & Hrel).
  exists l, gs. split; [exact Hrun|]. split; [exact Hg|]. exact (Hrel _ _ Hf).
Defined.

Lemma silent_outage : outage (scene silent_net silent_net true).
Proof. split; [done|]. exists silent_net. split; [done|]. split; [|done]. intros k. cbn. unfold INITIAL_TIMEOUT_MS. lia. Qed.

Lemma first_run : match run_cycle pinned_pair first_scene (loop_start pinned_pair) with
  | Some (Some s1, l) => Emitted (Mapped 50000 3600 None 0) ∈ l
  | _ => False
  end.
Proof. vm_compute. right. right. left. Qed.

(** Twenty silent cycles in a lease of an hour, then an answer. *)
Lemma forward_rule_lives_witness : exists s1 l n s2 l2, run_cycle pinned_pair first_scene (loop_start pinned_pair) = Some (Some s1, l) /\ last l = Some (Slept n) /\
  run_loop pinned_pair (replicate 20 (scene silent_net silent_net true)) s1 = Some (Some s2, l2) /\ 1000 * n + elapsed l2 < 3600000.
Proof.
  pose proof first_run as Hf. destruct (run_cycle pinned_pair first_scene (loop_start pinned_pair)) as [[[s1|] l]|] eqn:Er; [|done..].
  destruct (proj2 (proj2 (forward_rule_lives pinned_pair)) _ _ s1 l _ 50000 3600 (replicate 20 (scene silent_net silent_net true)) Er Hf eq_refl) as (n & s2 & l2 & Hn & Hrun & _ & Ht & _);
    [apply Forall_replicate, silent_outage|].
  exists s1, l, n, s2, l2. split; [done|]. split; [exact Hn|]. split; [exact Hrun|]. apply Ht; [lia|]. rewrite length_replicate. lia.
Defined.
