(* ===== verification/NatPmpEndToEnd.v ===== *)
(** The NAT-PMP client against the NAT-PMP server: what an announcement of a forward rule says about the exit.

    The two ends are those of [NatPmpClient] and [NatPmpServer]; between them the network may lose and delay datagrams, but what the
    client receives is a datagram the exit sent for the request, at one of its visits.  The exit's backend is any that keeps the promises of
    [BackendLaws], and anything may happen to it between two requests. *)

From S2P Require Import Prelude NatPmpProtocol NatPmpAllocator NatPmpTable NatPmpBackend NatPmpServer NatPmpClient.

Section EndToEnd.
Context {B : Type} `{Laws : BackendLaws B}.
Variables (exit : Server) (client : Z) (cfg : RefreshLoopConfig).

(** One visit to the exit: the state it finds, and what it meets. *)
Record Visit := mkVisit { backend : B; weather : Weather; meanwhile : B -> B }.

Definition visit_ok (v : Visit) : Prop :=
  sound (backend v) /\ 0 <= epoch_elapsed (weather v) /\ draw_ok (draws (ambient (weather v))) /\ forall b, sound b -> sound (meanwhile v b).

Definition frame_of (p : NatPmpProtocol.MapProto) (port : Z) (credential : option (list Z)) : list Z :=
  request_bytes p (NatPmpClient.internal_port cfg) port (lifetime_secs cfg) credential.

(** The visits the exit had. *)
Variable visited : list Visit.

(** The exit's answer to the request at this visit was the datagram [d]. *)
Definition answered_by (p : NatPmpProtocol.MapProto) (port : Z) (credential : option (list Z)) (d : list Z) (v : Visit) : Prop :=
  v ∈ visited /\ visit_ok v /\
  exists b' ev, handle_one exit (frame_of p port credential) (V4 client) (weather v) (meanwhile v) (backend v) = Some (b', ev, d).

(** Every datagram of this network is the exit's answer to the request at some visit. *)
Definition carries (p : NatPmpProtocol.MapProto) (port : Z) (credential : option (list Z)) (net : Net) : Prop :=
  forall k ms d, received (attempt_at net k) = Datagram ms d -> exists v, answered_by p port credential d v.

(** At this visit the exit granted the mapping, had it in its table and routed it, and still had so much of the lease when it
    answered. *)
Definition granted_at (p : NatPmpProtocol.MapProto) (asked port life : Z) (v : Visit) : Prop :=
  exists b1 al, asks client p (NatPmpClient.internal_port cfg) asked (lifetime_secs cfg) (weather v) (backend v) = Some (b1, Ok al) /\
    stands client (NatPmpClient.internal_port cfg) (proto_from_wire p) al b1 /\ NatPmpAllocator.external_port al = port /\ in_width 16 port /\
    from_secs life <= Z.max 0 (NatPmpAllocator.expires_at al - answer_clock (weather v)).

(** The exchange [x] ended with a datagram that the leg's network delivered, and every visit at which the exit sent that datagram in answer to
    this request was one that granted what [x] tells; there was one. *)
Definition granted_at_exit (env : Env) (p : NatPmpProtocol.MapProto) (asked : Z) (x : Exchange) (port life : Z) : Prop :=
  exists i net k ms d, leg_net env i = Some net /\
    request_map_with_credential p (NatPmpClient.internal_port cfg) asked (lifetime_secs cfg) DEFAULT_MAX_ATTEMPTS (cycle_credential env) net = Some x /\
    received (attempt_at net k) = Datagram ms d /\ outcome x = read_response d /\
    (exists v, answered_by p asked (cycle_credential env) d v) /\
    (forall v, answered_by p asked (cycle_credential env) d v -> granted_at p asked port life v).

Definition well_typed (port : Z) (credential : option (list Z)) : Prop :=
  in_width 16 (NatPmpClient.internal_port cfg) /\ in_width 16 port /\ in_width 32 (lifetime_secs cfg) /\ match credential with Some c => all_bytes c | None => True end.

(** ** What the exit reads, what the client reads *)

Lemma serialize_short r : (length (NatPmpProtocol.serialize_response r) <= RECV_BUF)%nat.
Proof using Type. destruct r as [|? ? ? ? ? ? [[]|]]; cbn; unfold RECV_BUF; lia. Qed.

Lemma frame_parses p port credential : well_typed port credential ->
  NatPmpProtocol.parse_request (frame_of p port credential) = Ok (NatPmpProtocol.ReqMap p (NatPmpClient.internal_port cfg) port (lifetime_secs cfg)).
Proof using Type.
  intros (Hi & Hp & Hl & _). assert (Hv : NatPmpProtocol.valid_request (NatPmpProtocol.ReqMap p (NatPmpClient.internal_port cfg) port (lifetime_secs cfg))) by done.
  unfold frame_of, request_bytes. destruct credential as [c|]; [|rewrite <- (app_nil_r (NatPmpProtocol.serialize_request _)); by apply NatPmpProtocol.parse_request_tail].
  unfold NatPmpProtocol.append_credential_trailer. destruct (_ <? _)%nat; cbn [fst]; [rewrite <- (app_nil_r (NatPmpProtocol.serialize_request _))|]; by apply NatPmpProtocol.parse_request_tail.
Qed.

Lemma map_request_bytes p ip port lt : all_bytes (NatPmpProtocol.serialize_request (NatPmpProtocol.ReqMap p ip port lt)).
Proof using Type.
  cbn [NatPmpProtocol.serialize_request]. apply Forall_app. split; [destruct p; apply Forall_fold_right; vm_compute; intuition congruence|].
  apply Forall_app. split; [apply Forall_fold_right; vm_compute; intuition congruence|]. do 2 (apply Forall_app; split; [apply be_bytes_all_bytes|]). apply be_bytes_all_bytes.
Qed.

Lemma frame_bytes p port credential : well_typed port credential -> all_bytes (frame_of p port credential).
Proof using Type.
  intros (_ & _ & _ & Hc). unfold frame_of, request_bytes. destruct credential as [c|]; [|apply map_request_bytes].
  unfold NatPmpProtocol.append_credential_trailer. destruct (_ <? _)%nat; cbn [fst]; [apply map_request_bytes|].
  apply Forall_app. split; [apply map_request_bytes|]. do 2 (apply Forall_app; split; [apply be_bytes_all_bytes|]). done.
Qed.

(** The client takes an answer for a grant only when it is one. *)
Lemma read_ok r m : NatPmpProtocol.parse_response (NatPmpProtocol.serialize_response r) = Ok r -> read_response (NatPmpProtocol.serialize_response r) = Ok m ->
  code_of r = NatPmpProtocol.Success /\ port_of r = Some (map_external_port m) /\ life_of r = map_lifetime_secs m.
Proof using Type.
  intros Hp. unfold read_response. rewrite take_ge by apply serialize_short. rewrite Hp. destruct r as [|p code ep ip xp lt rl]; [done|].
  destruct code; try done. intros [= <-]. done.
Qed.

(** A visit whose datagram the client reads as a grant granted it. *)
Lemma visit_granted p port credential d v m : well_typed port credential -> lifetime_secs cfg <> 0 -> in_width 32 (public_ip exit) ->
  answered_by p port credential d v -> read_response d = Ok m -> granted_at p port (map_external_port m) (map_lifetime_secs m) v.
Proof using Type.
  intros Ht Hlt Hip (_ & (Hs & He & Hd & Hm) & b' & ev & Hh) Ho. unfold handle_one in Hh.
  destruct (dispatch_closed exit (frame_of p port credential) (V4 client) (weather v) (meanwhile v) (backend v)) as (b2 & ev2 & resp & Hdis & Hcl);
    [by apply frame_bytes|done..|].
  rewrite Hdis in Hh. cbn [mbind option_bind] in Hh. injection Hh as <- <- <-. destruct Hcl as (_ & Hparse & _ & _ & Hmap).
  destruct (read_ok resp m Hparse Ho) as (Hcode & Hport & Hlife).
  destruct (proj1 (Hmap client p _ _ _ eq_refl (frame_parses p port credential Ht)) Hcode) as (_ & _ & Hst). apply Z.eqb_neq in Hlt. rewrite Hlt in Hst.
  destruct Hst as (b1 & al & Hasks & Hst & Htp & Htl). exists b1, al. split; [done|]. split; [done|]. rewrite Hport in Htp. rewrite <- Hlife.
  assert (Hport' : NatPmpAllocator.external_port al = map_external_port m) by congruence. rewrite <- Hport'. split; [done|]. split; [|done].
  unfold asks in Hasks. match type of Hasks with allocate ?c ?q ?i ?sp ?l ?e ?b = _ => destruct (allocate_law c q i sp l e b Hs Hd) as (b3 & r & Hal & _ & Hr) end.
  rewrite Hal in Hasks. injection Hasks as -> ->. apply Hr.
Qed.

(** A grant the client saw was one. *)
Lemma exchange_granted env i p port net x m : well_typed port (cycle_credential env) -> lifetime_secs cfg <> 0 -> in_width 32 (public_ip exit) ->
  leg_net env i = Some net -> carries p port (cycle_credential env) net ->
  request_map_with_credential p (NatPmpClient.internal_port cfg) port (lifetime_secs cfg) DEFAULT_MAX_ATTEMPTS (cycle_credential env) net = Some x -> outcome x = Ok m ->
  granted_at_exit env p port x (map_external_port m) (map_lifetime_secs m).
Proof using Type.
  intros Ht Hlt Hip Hi Hc Hx Ho. pose proof Hx as Hx0. unfold request_map_with_credential, DEFAULT_MAX_ATTEMPTS in Hx. cbn [Nat.eqb] in Hx.
  destruct (negb _ || _); [injection Hx as <-; done|].
  destruct (attempt_loop_spec 5 0 INITIAL_TIMEOUT_MS (request_bytes p (NatPmpClient.internal_port cfg) port (lifetime_secs cfg) (cycle_credential env)) net) as (y & Hy & Ha); [lia|].
  rewrite Hy in Hx. injection Hx as <-. destruct Ha as [(j & _ & _ & Ha & _)|(_ & Ha & _)]; rewrite Ho in Ha; [|done]. cbn [Nat.add] in Ha. unfold answer in Ha.
  destruct (sent_ok _); [|done]. destruct (received (attempt_at net j)) as [| |ms d] eqn:Er; [done..|].
  exists i, net, j, ms, d. split; [done|]. split; [done|]. split; [done|]. split; [by rewrite Ho|]. split; [by eapply Hc|].
  intros v Hv. by eapply visit_granted.
Qed.

(** ** Announcements *)

(** Every exchange of a cycle was with the exit. *)
Definition met_exit (env : Env) (l : list Act) : Prop := forall p port x, Asked p port x ∈ l ->
  exists i net, leg_net env i = Some net /\ carries p port (cycle_credential env) net /\
    request_map_with_credential p (NatPmpClient.internal_port cfg) port (lifetime_secs cfg) DEFAULT_MAX_ATTEMPTS (cycle_credential env) net = Some x.

Lemma chain_granted env l port gs : lifetime_secs cfg <> 0 -> in_width 32 (public_ip exit) -> met_exit env l -> well_typed port (cycle_credential env) ->
  Forall is_granted gs -> (forall a, a ∈ chain port gs -> a ∈ l) ->
  Forall (fun g => exists asked, Asked (g_proto g) asked (g_exchange g) ∈ l /\ granted_at_exit env (g_proto g) asked (g_exchange g) (g_port g) (g_life g)) gs.
Proof using Type.
  intros Hlt Hip Hmet. revert port. induction gs as [|g gs IH]; intros port Ht Hg Hin; [constructor|]. apply Forall_cons in Hg as [Hg1 Hg]. cbn [chain] in Hin.
  assert (Ha : Asked (g_proto g) port (g_exchange g) ∈ l) by (apply Hin; by left). destruct (Hmet _ _ _ Ha) as (i & net & Hn & Hc & Hx).
  pose proof (exchange_granted _ _ _ _ _ _ _ Ht Hlt Hip Hn Hc Hx Hg1) as Hgr. constructor; [by exists port|].
  assert (Hw : in_width 16 (g_port g)).
  { destruct Hgr as (j & net' & k & ms & d & _ & _ & _ & _ & (v & Hv) & Hall). by destruct (Hall v Hv) as (b1 & al & _ & _ & _ & Hw & _). }
  destruct Ht as (Hi & _ & Hl & Hcr). apply (IH (g_port g)); [done|done|]. intros a Hag. apply Hin. by right.
Qed.


End EndToEnd.

(** ** An exit and a client *)

Definition home_exit : StubBackend :=
  NatPmpAllocator.mkAllocator NatPmpAllocator.empty_inner (NatPmpAllocator.mkConfig (50000, 50010) (from_secs 300) 12 (from_secs 60) 4) None None None None
    NatPmpAllocator.zero_counters.
Definition home_server : Server := bind 0xC6336401.
Definition home_rule : RefreshLoopConfig := NatPmpClient.mkConfig FwdTcp 8080 50000 3600 Pinned.

(** The exit's answer to the rule's request. *)
Definition home_answer (b : StubBackend) : option (list Z) :=
  match handle_one home_server (frame_of home_rule NatPmpProtocol.MapTcp 50000 None) (V4 pool_client) (fair_weather InTime 0) id b with
  | Some (_, _, d) => Some d
  | None => None
  end.

(** A network that loses the first datagram and carries the answer to the second. *)
Definition home_net (b : StubBackend) : Net :=
  mkNet true true (fun k => match home_answer b with
                            | Some d => if (k =? 0)%nat then mkAttempt true Silence else mkAttempt true (Datagram 40 d)
                            | None => mkAttempt true Silence
                            end).
Definition home_env (b : StubBackend) : Env := mkEnv None (fun _ => Some (home_net b)) (fun _ => home_net b) false true.

Definition announced_of (r : option (option Loop * list Act)) : option (list NatPmpEvent) := match r with Some (_, l) => Some (said_in l) | None => None end.

Lemma home_run : announced_of (run_cycle home_rule (home_env home_exit) (loop_start home_rule)) = Some [Mapped 50000 3600 (Some 11) 60].
Proof. vm_compute. reflexivity. Qed.

(** The port was closed after an abuse report: the exit grants another one, and the rule announces it, although it is pinned. *)
Lemma pinned_port_substituted :
  announced_of (run_cycle home_rule (home_env (fst (NatPmpAllocator.revoke_for_abuse_at 50000 (from_secs 3600) 0 home_exit))) (loop_start home_rule)) =
  Some [Mapped 50001 3600 (Some 11) 60].
Proof. vm_compute. reflexivity. Qed.

Lemma home_sound : sound home_exit.
Proof. split; [apply inv_empty|]. by vm_compute. Qed.

(** The one visit to it. *)
Definition home_visits : list (Visit (B := StubBackend)) := [mkVisit home_exit (fair_weather InTime 0) id].

Lemma home_carries : carries (B := StubBackend) home_server pool_client home_rule home_visits NatPmpProtocol.MapTcp 50000 None (home_net home_exit).
Proof.
  intros k ms d Hr. unfold home_net in Hr. cbn [attempt_at] in Hr. destruct (home_answer home_exit) as [d'|] eqn:Ea; [|done].
  destruct (k =? 0)%nat; [done|]. injection Hr as <- <-. unfold home_answer in Ea.
  destruct (handle_one home_server (frame_of home_rule NatPmpProtocol.MapTcp 50000 None) (V4 pool_client) (fair_weather InTime 0) id home_exit) as [[[b' ev] d]|] eqn:Eh; [|done].
  injection Ea as <-. exists (mkVisit home_exit (fair_weather InTime 0) id). split; [by left|]. split; [|by exists b', ev].
  split; [apply home_sound|]. split; [done|]. split; [intros ?? ?; cbn; lia|done].
Qed.

Lemma home_met s' l : run_cycle home_rule (home_env home_exit) (loop_start home_rule) = Some (s', l) -> met_exit (B := StubBackend) home_server pool_client home_rule home_visits (home_env home_exit) l.
Proof.
  intros Hr p port x Hin. exists 0%nat, (home_net home_exit). split; [done|].
  assert (Hx : exists y, request_map_with_credential NatPmpProtocol.MapTcp 8080 50000 3600 DEFAULT_MAX_ATTEMPTS None (home_net home_exit) = Some y /\
    l = [Asked NatPmpProtocol.MapTcp 50000 y; Emitted (Mapped 50000 3600 (Some 11) 60); Slept 1800]).
  { destruct (request_total NatPmpProtocol.MapTcp 8080 50000 3600 DEFAULT_MAX_ATTEMPTS None (home_net home_exit)) as [y Hy]; [unfold DEFAULT_MAX_ATTEMPTS; lia|]. exists y. split; [done|].
    vm_compute in Hr, Hy. injection Hy as <-. by injection Hr as _ <-. }
  destruct Hx as (y & Hy & ->). rewrite !elem_of_cons, elem_of_nil in Hin. destruct Hin as [[= -> -> ->]|[?|[?|[]]]]; [|done..]. split; [apply home_carries|exact Hy].
Qed.

Lemma home_cycle : match run_cycle home_rule (home_env home_exit) (loop_start home_rule) with Some (_, l) => Emitted (Mapped 50000 3600 (Some 11) 60) ∈ l | None => False end.
Proof. vm_compute. right. left. Qed.

