(* ===== verification/IpHoldings.v ===== *)
(** The live allocations of an address pool
    ([Holdings] of [crates/warrenguard-multihop-server/src/ip_pool.rs]).

    The code keeps three maps: the address of each connection, the key that
    authenticated it, and the connections of each address.  [leases] is the one
    map they stand for, a connection to its address and owner; [HInv] says that
    the three maps agree, and each operation is characterised by what it does to
    [leases].  Both pools are built on these lemmas.

    Connection ids and keys are numbers; addresses are any countable type, as in
    the code. *)

From S2P Require Import Prelude.

Module Holdings.

Section holdings.
Context {A : Type} `{Countable A}.

Record t := mk {
  by_conn : gmap Z A;
  owners : gmap Z Z;
  by_addr : gmap A (list Z);
}.

Definition new : t := mk ∅ ∅ ∅.

Definition address_of (h : t) (conn : Z) : option A := by_conn h !! conn.

Definition owner_of (h : t) (conn : Z) : option Z := owners h !! conn.

Definition holders (h : t) (addr : A) : list Z := default [] (by_addr h !! addr).

Definition hold (conn : Z) (addr : A) (owner : option Z) (h : t) : t :=
  mk (<[conn := addr]> (by_conn h))
     (match owner with Some o => <[conn := o]> (owners h) | None => owners h end)
     (<[addr := holders h addr ++ [conn]]> (by_addr h)).

Definition release (conn : Z) (h : t) : t * option (A * bool) :=
  let owners' := delete conn (owners h) in
  match by_conn h !! conn with
  | None => (mk (by_conn h) owners' (by_addr h), None)
  | Some addr =>
      let by_conn' := delete conn (by_conn h) in
      let '(by_addr', vacated) :=
        match by_addr h !! addr with
        | None => (by_addr h, true)
        | Some hs =>
            let hs' := filter (fun c => c <> conn) hs in
            (<[addr := hs']> (by_addr h), bool_decide (hs' = []))
        end in
      (mk by_conn' owners' (if vacated then delete addr by_addr' else by_addr'),
       Some (addr, vacated))
  end.

Definition is_held (h : t) (addr : A) : bool := bool_decide (is_Some (by_addr h !! addr)).

Definition held_by (h : t) (addr : A) (pubkey : Z) : bool :=
  existsb (fun c => bool_decide (owners h !! c = Some pubkey)) (holders h addr).

Definition len (h : t) : nat := size (by_conn h).

Definition transfer_owner (from to : Z) (h : t) : t :=
  mk (by_conn h) ((fun o => if o =? from then to else o) <$> owners h) (by_addr h).

(** ** The lease map *)

(** Each connection with its address and the key that authenticated it. *)
Definition leases (h : t) : gmap Z (A * option Z) :=
  map_imap (fun c addr => Some (addr, owners h !! c)) (by_conn h).

(** The three maps agree. *)
Record HInv (h : t) : Prop := mkHInv {
  hi_index : forall c addr, c ∈ holders h addr <-> by_conn h !! c = Some addr;
  hi_nonempty : forall addr l, by_addr h !! addr = Some l -> l <> [] /\ NoDup l;
  hi_owners : forall c, is_Some (owners h !! c) -> is_Some (by_conn h !! c);
}.

Lemma leases_lookup h c :
  leases h !! c = (fun addr => (addr, owners h !! c)) <$> by_conn h !! c.
Proof. unfold leases. rewrite map_lookup_imap. by destruct (by_conn h !! c). Qed.

Lemma leases_addr h c addr : by_conn h !! c = Some addr <-> exists o, leases h !! c = Some (addr, o).
Proof. rewrite leases_lookup. destruct (by_conn h !! c); simpl; naive_solver. Qed.

Lemma hinv_new : HInv new.
Proof.
  split; unfold holders; simpl.
  - intros c addr. rewrite !lookup_empty. simpl. split; [by intros ?%elem_of_nil|done].
  - intros addr l. by rewrite lookup_empty.
  - intros c. rewrite lookup_empty. by intros [].
Qed.

Lemma is_held_spec h addr :
  HInv h -> is_held h addr = true <-> exists c, by_conn h !! c = Some addr.
Proof.
  intros HI. unfold is_held. rewrite bool_decide_eq_true. split.
  - intros [l Hl]. destruct (hi_nonempty h HI _ _ Hl) as [Hne _].
    destruct l as [|c l]; [done|]. exists c. apply (hi_index h HI). unfold holders.
    rewrite Hl. by left.
  - intros [c Hc]. apply (hi_index h HI) in Hc. unfold holders in Hc.
    destruct (by_addr h !! addr); [eauto|by apply elem_of_nil in Hc].
Qed.

Lemma held_by_spec h addr k :
  HInv h -> held_by h addr k = true <-> exists c, leases h !! c = Some (addr, Some k).
Proof.
  intros HI. unfold held_by. rewrite existsb_exists. setoid_rewrite <- list_elem_of_In.
  setoid_rewrite bool_decide_eq_true. setoid_rewrite leases_lookup. split.
  - intros (c & Hc & Ho). exists c. apply (hi_index h HI) in Hc. by rewrite Hc, <- Ho.
  - intros (c & Hc). exists c. destruct (by_conn h !! c) as [x|] eqn:E; simplify_eq/=.
    by rewrite (hi_index h HI).
Qed.

Lemma holders_spec h addr c :
  HInv h -> c ∈ holders h addr <-> exists o, leases h !! c = Some (addr, o).
Proof. intros HI. by rewrite (hi_index h HI), leases_addr. Qed.

(** ** The operations on the lease map *)

Lemma hold_inv h c addr o : HInv h -> by_conn h !! c = None -> HInv (hold c addr o h).
Proof.
  intros HI Hc. split.
  - intros d x. unfold holders, hold. simpl. rewrite !lookup_insert.
    destruct (decide (addr = x)) as [->|Hx], (decide (c = d)) as [->|Hd]; simpl.
    + rewrite elem_of_app, list_elem_of_singleton. naive_solver.
    + rewrite elem_of_app, list_elem_of_singleton, (hi_index h HI).
      naive_solver.
    + fold (holders h x). rewrite (hi_index h HI), Hc. naive_solver.
    + fold (holders h x). by rewrite (hi_index h HI).
  - intros x l. unfold hold. simpl. intros [[<- <-]|[_ Hl]]%lookup_insert_Some;
      [|by apply (hi_nonempty h HI) in Hl].
    split; [by destruct (holders h addr)|]. apply NoDup_app. split; [|split].
    + unfold holders. destruct (by_addr h !! addr) eqn:E; [|constructor].
      by apply (hi_nonempty h HI) in E as [_ ?].
    + intros d Hd. rewrite list_elem_of_singleton. intros ->.
      apply (hi_index h HI) in Hd. congruence.
    + apply NoDup_singleton.
  - intros d. unfold hold. simpl. rewrite lookup_insert. case_decide; [eauto|]. intros Hs.
    apply (hi_owners h HI). destruct o; [|done]. by rewrite lookup_insert_ne in Hs.
Qed.

Lemma owners_free h c : HInv h -> by_conn h !! c = None -> owners h !! c = None.
Proof.
  intros HI Hc. apply eq_None_not_Some. intros Hs%(hi_owners h HI).
  rewrite Hc in Hs. by destruct Hs.
Qed.

Lemma hold_leases h c addr o :
  HInv h -> by_conn h !! c = None ->
  leases (hold c addr o h) = <[c := (addr, o)]> (leases h).
Proof.
  intros HI Hc. apply map_eq. intros d. rewrite leases_lookup. unfold hold. simpl.
  rewrite !lookup_insert. case_decide as Hd.
  - subst d. simpl. destruct o; [by rewrite lookup_insert_eq|]. by rewrite owners_free.
  - rewrite leases_lookup. destruct o; [|done]. by rewrite lookup_insert_ne.
Qed.

Lemma release_leases h c : leases (fst (release c h)) = delete c (leases h).
Proof.
  apply map_eq. intros d. rewrite leases_lookup, lookup_delete. unfold release.
  destruct (by_conn h !! c) as [addr|] eqn:E.
  - destruct (by_addr h !! addr); simpl; rewrite !lookup_delete;
      case_decide; [done|by rewrite leases_lookup|done|by rewrite leases_lookup].
  - simpl. rewrite lookup_delete. case_decide; [subst; by rewrite E|by rewrite leases_lookup].
Qed.

Lemma transfer_leases h from to :
  leases (transfer_owner from to h) =
  (fun l : A * option Z => (fst l, (fun o => if o =? from then to else o) <$> snd l)) <$> leases h.
Proof.
  apply map_eq. intros c. rewrite lookup_fmap, !leases_lookup. simpl.
  rewrite lookup_fmap. by destruct (by_conn h !! c).
Qed.

Lemma transfer_inv h from to : HInv h -> HInv (transfer_owner from to h).
Proof.
  intros [Hi Hn Ho]. split; [done|done|]. simpl. intros c Hs. apply Ho.
  rewrite lookup_fmap in Hs. by apply fmap_is_Some in Hs.
Qed.

(** The new list of holders of the released address. *)
Lemma release_holders h c addr :
  HInv h -> by_conn h !! c = Some addr ->
  exists hs, by_addr h !! addr = Some hs /\ c ∈ hs /\
    release c h =
      (mk (delete c (by_conn h)) (delete c (owners h))
          (let hs' := filter (fun d => d <> c) hs in
           if bool_decide (hs' = []) then delete addr (by_addr h)
           else <[addr := hs']> (by_addr h)),
       Some (addr, bool_decide (filter (fun d => d <> c) hs = []))).
Proof.
  intros HI Hc. pose proof Hc as Hin. apply (hi_index h HI) in Hin. unfold holders in Hin.
  destruct (by_addr h !! addr) as [hs|] eqn:E; [|by apply elem_of_nil in Hin].
  exists hs. split; [done|]. split; [done|]. unfold release. rewrite Hc, E. simpl.
  case_bool_decide; [|done]. by rewrite delete_insert_eq.
Qed.

Lemma release_inv h c : HInv h -> HInv (fst (release c h)).
Proof.
  intros HI. destruct (by_conn h !! c) as [addr|] eqn:Hc.
  2:{ unfold release. rewrite Hc. simpl. destruct HI as [Hi Hn Ho]. split; [done|done|].
      simpl. intros d [x Hx]. apply lookup_delete_Some in Hx as [_ Hx]. eauto. }
  destruct (release_holders h c addr HI Hc) as (hs & Hhs & Hin & ->). simpl.
  destruct (hi_nonempty h HI _ _ Hhs) as [_ Hnd].
  split; simpl.
  - intros d x. unfold holders. simpl. rewrite lookup_delete.
    assert (Hx : x <> addr -> default [] ((if bool_decide (filter (fun d => d <> c) hs = [])
      then delete addr (by_addr h) else <[addr := filter (fun d => d <> c) hs]> (by_addr h)) !! x)
      = holders h x).
    { intros Hne. case_bool_decide; [by rewrite lookup_delete_ne|by rewrite lookup_insert_ne]. }
    destruct (decide (x = addr)) as [->|Hne].
    + trans (d ∈ filter (fun d => d <> c) hs).
      { case_bool_decide as Hf; [|by rewrite lookup_insert_eq].
        rewrite lookup_delete_eq, Hf. done. }
      rewrite list_elem_of_filter. pose proof (hi_index h HI d addr) as Hd.
      unfold holders in Hd. rewrite Hhs in Hd. simpl in Hd.
      case_decide; naive_solver.
    + rewrite (Hx Hne), (hi_index h HI). case_decide; [subst d|done]. naive_solver.
  - intros x l. case_bool_decide.
    + intros [_ Hl]%lookup_delete_Some. by apply (hi_nonempty h HI) in Hl.
    + intros [[<- <-]|[_ Hl]]%lookup_insert_Some; [|by apply (hi_nonempty h HI) in Hl].
      split; [done|]. by apply NoDup_filter.
  - intros d [x Hx]. apply lookup_delete_Some in Hx as [Hne Hx]. rewrite lookup_delete_ne by done.
    apply (hi_owners h HI). eauto.
Qed.

(** A release reports the address vacated exactly when no other connection has it. *)
Lemma release_vacated h c addr v :
  HInv h -> snd (release c h) = Some (addr, v) ->
  by_conn h !! c = Some addr /\
  (v = true <-> forall d, d <> c -> by_conn h !! d <> Some addr).
Proof.
  intros HI Hr. destruct (by_conn h !! c) as [x|] eqn:Hc.
  2:{ unfold release in Hr. by rewrite Hc in Hr. }
  destruct (release_holders h c x HI Hc) as (hs & Hhs & Hin & He). rewrite He in Hr.
  simpl in Hr. injection Hr as -> <-. split; [done|]. rewrite bool_decide_eq_true.
  assert (Hd : forall d, d ∈ hs <-> by_conn h !! d = Some addr).
  { intros d. rewrite <- (hi_index h HI). unfold holders. by rewrite Hhs. }
  split.
  - intros Hf d Hne Hdc. apply Hd in Hdc. apply (not_elem_of_nil d). rewrite <- Hf.
    by apply list_elem_of_filter.
  - intros Hnone. apply elem_of_nil_inv. intros d [Hne Hdin]%list_elem_of_filter.
    apply Hd in Hdin. by eapply Hnone.
Qed.

Lemma release_unknown h c : by_conn h !! c = None -> snd (release c h) = None.
Proof. intros Hc. unfold release. by rewrite Hc. Qed.

(** A release that names an address is the release of its holder. *)
Lemma release_known h c addr :
  HInv h -> by_conn h !! c = Some addr -> exists v, snd (release c h) = Some (addr, v).
Proof. intros HI Hc. destruct (release_holders h c addr HI Hc) as (hs & _ & _ & ->). by eexists. Qed.

Lemma len_leases h : len h = size (leases h).
Proof.
  unfold len. rewrite <- !size_dom. f_equal. apply set_eq. intros c.
  rewrite !elem_of_dom, leases_lookup. by rewrite fmap_is_Some.
Qed.

(** ** One key per address *)

(** Connections that share an address were authenticated by one key. *)
Definition one_key (h : t) : Prop :=
  forall c1 c2 addr o1 o2,
    leases h !! c1 = Some (addr, o1) -> leases h !! c2 = Some (addr, o2) -> c1 <> c2 ->
    o1 = o2 /\ is_Some o1.

(** [addr] may get a holder of key [o]: nobody holds it, or that key does. *)
Definition may_hold (h : t) (addr : A) (o : option Z) : Prop :=
  (forall c, by_conn h !! c <> Some addr) \/ exists k, o = Some k /\ held_by h addr k = true.

Lemma one_key_new : one_key new.
Proof.
  intros c1 c2 addr o1 o2 H1. rewrite leases_lookup in H1. simpl in H1.
  by rewrite lookup_empty in H1.
Qed.

Lemma may_hold_owner h addr o :
  HInv h -> one_key h -> may_hold h addr o ->
  forall c o', leases h !! c = Some (addr, o') -> o' = o /\ is_Some o.
Proof.
  intros HI Hone [Hno|(k & -> & Hk)] c o' Hc.
  { exfalso. apply (Hno c), leases_addr. eauto. }
  apply held_by_spec in Hk as [c0 Hc0]; [|done]. destruct (decide (c = c0)) as [->|Hne].
  - rewrite Hc0 in Hc. injection Hc as <-. eauto.
  - destruct (Hone c c0 addr o' (Some k) Hc Hc0 Hne) as [-> ?]. auto.
Qed.

Lemma hold_one_key h c addr o :
  HInv h -> one_key h -> by_conn h !! c = None -> may_hold h addr o -> one_key (hold c addr o h).
Proof.
  intros HI Hone Hc Hmay c1 c2 a o1 o2. rewrite hold_leases by done.
  pose proof (may_hold_owner h addr o HI Hone Hmay) as Hown.
  intros [[<- [= -> ->]]|[Hn1 H1]]%lookup_insert_Some [[<- E2]|[Hn2 H2]]%lookup_insert_Some Hne.
  - done.
  - destruct (Hown c2 o2 H2) as [-> ?]. done.
  - injection E2 as -> ->. destruct (Hown c1 o1 H1) as [-> ?]. done.
  - by apply (Hone c1 c2 a).
Qed.

Lemma release_one_key h c : one_key h -> one_key (fst (release c h)).
Proof.
  intros Hone c1 c2 a o1 o2. rewrite release_leases.
  intros [_ H1]%lookup_delete_Some [_ H2]%lookup_delete_Some. by apply (Hone c1 c2 a).
Qed.

Lemma transfer_lease h from to c a o :
  leases (transfer_owner from to h) !! c = Some (a, o) ->
  exists o0, leases h !! c = Some (a, o0) /\ o = (fun x => if x =? from then to else x) <$> o0.
Proof.
  rewrite transfer_leases, lookup_fmap.
  destruct (leases h !! c) as [[x o0]|]; simpl; [|done]. intros [= <- <-]. eauto.
Qed.

Lemma transfer_one_key h from to : one_key h -> one_key (transfer_owner from to h).
Proof.
  intros Hone c1 c2 a o1 o2 (x1 & H1 & ->)%transfer_lease (x2 & H2 & ->)%transfer_lease Hne.
  destruct (Hone c1 c2 a x1 x2 H1 H2 Hne) as [-> ?]. split; [done|]. by apply fmap_is_Some.
Qed.

Lemma release_by_conn h c : by_conn (fst (release c h)) = delete c (by_conn h).
Proof.
  unfold release. destruct (by_conn h !! c) as [x|] eqn:E.
  - by destruct (by_addr h !! x).
  - simpl. by rewrite delete_id.
Qed.

(** What the release of [c] vacates. *)
Lemma release_vacates h c :
  HInv h -> forall addr, snd (release c h) = Some (addr, true) <->
    by_conn h !! c = Some addr /\ forall d, d <> c -> by_conn h !! d <> Some addr.
Proof.
  intros HI addr. split.
  - intros Hr. apply release_vacated in Hr as [Hc Hv]; [|done]. split; [done|]. by apply Hv.
  - intros [Hc Hd]. destruct (release_known h c addr HI Hc) as [v Hv]. rewrite Hv.
    apply release_vacated in Hv as [_ Hv]; [|done]. apply Hv in Hd as ->. done.
Qed.

(** ** Refinement of the lease map *)

Inductive op := Hold (c : Z) (addr : A) (o : option Z) | Release (c : Z) | Transfer (from to : Z).

Definition run_op (h : t) (x : op) : t * option (A * bool) :=
  match x with
  | Hold c addr o => (hold c addr o h, None)
  | Release c => release c h
  | Transfer from to => (transfer_owner from to h, None)
  end.

(** The same operations on one map.  A release names the address and whether it
    was the last lease of it. *)
Definition spec_op (m : gmap Z (A * option Z)) (x : op)
  : gmap Z (A * option Z) * option (A * bool) :=
  match x with
  | Hold c addr o => (<[c := (addr, o)]> m, None)
  | Release c =>
      (delete c m,
       (fun l : A * option Z =>
          (fst l, bool_decide (map_Forall (fun d (l' : A * option Z) => d <> c -> fst l' <> fst l) m)))
       <$> m !! c)
  | Transfer from to =>
      ((fun l : A * option Z => (fst l, (fun o => if o =? from then to else o) <$> snd l)) <$> m, None)
  end.

(** Callers give an address only to a connection that holds none. *)
Definition legal (m : gmap Z (A * option Z)) (x : op) : Prop :=
  match x with Hold c _ _ => m !! c = None | _ => True end.

Lemma conn_free_leases h c : leases h !! c = None -> by_conn h !! c = None.
Proof. rewrite leases_lookup. by destruct (by_conn h !! c). Qed.

Lemma run_op_refines h x :
  HInv h -> legal (leases h) x ->
  HInv (fst (run_op h x)) /\
  (leases (fst (run_op h x)), snd (run_op h x)) = spec_op (leases h) x.
Proof.
  intros HI Hl. destruct x as [c addr o|c|from to]; simpl in *.
  - apply conn_free_leases in Hl. split; [by apply hold_inv|]. by rewrite hold_leases.
  - split; [by apply release_inv|]. rewrite release_leases. f_equal.
    rewrite leases_lookup. destruct (by_conn h !! c) as [addr|] eqn:Hc.
    + destruct (release_known h c addr HI Hc) as [v Hv]. rewrite Hv. simpl. do 2 f_equal.
      apply release_vacated in Hv as [_ Hv]; [|done]. symmetry. destruct v.
      * apply bool_decide_eq_true. intros d [x o] Hd Hne Hx. simpl in Hx. subst x.
        apply (proj1 Hv eq_refl d Hne). apply leases_addr. eauto.
      * apply bool_decide_eq_false. intros Hall.
        assert (Hv' : false = true); [|done]. apply Hv. intros d Hne Hd.
        apply leases_addr in Hd as [o Hd]. by apply (Hall d _ Hd Hne).
    + by rewrite release_unknown.
  - split; [by apply transfer_inv|]. by rewrite transfer_leases.
Qed.

End holdings.

Arguments t A {_ _}.
Arguments HInv {A _ _} h.
Arguments new {A _ _}.
Arguments op A : clear implicits.

(** A run of operations, with what each returned. *)
Fixpoint run {A} `{Countable A} (h : t A) (xs : list (op A)) : t A * list (option (A * bool)) :=
  match xs with
  | [] => (h, [])
  | x :: xs' => let '(h1, r) := run_op h x in let '(h2, rs) := run h1 xs' in (h2, r :: rs)
  end.

Fixpoint spec_run {A} `{Countable A} (m : gmap Z (A * option Z)) (xs : list (op A))
  : gmap Z (A * option Z) * list (option (A * bool)) :=
  match xs with
  | [] => (m, [])
  | x :: xs' => let '(m1, r) := spec_op m x in let '(m2, rs) := spec_run m1 xs' in (m2, r :: rs)
  end.

Fixpoint all_legal {A} `{Countable A} (m : gmap Z (A * option Z)) (xs : list (op A)) : Prop :=
  match xs with
  | [] => True
  | x :: xs' => legal m x /\ all_legal (fst (spec_op m x)) xs'
  end.

Lemma run_refines {A} `{Countable A} (xs : list (op A)) (h : t A) :
  HInv h -> all_legal (leases h) xs ->
  HInv (fst (run h xs)) /\ leases (fst (run h xs)) = fst (spec_run (leases h) xs) /\
  snd (run h xs) = snd (spec_run (leases h) xs).
Proof.
  revert h. induction xs as [|x xs IH]; intros h HI Hall; simpl in *; [done|].
  destruct Hall as [Hx Hall]. destruct (run_op_refines h x HI Hx) as [HI1 He].
  destruct (run_op h x) as [h1 r]. destruct (spec_op (leases h) x) as [m1 r'].
  simpl in *. injection He as <- <-. specialize (IH h1 HI1 Hall).
  destruct (run h1 xs) as [h2 rs], (spec_run (leases h1) xs) as [m2 rs']. simpl in *.
  destruct IH as (? & ? & ->). done.
Qed.

(** The three indexed maps refine one map from connections to leases: after
    any sequence of holds (of connections that hold nothing), releases and owner
    transfers, they agree with each other and with that map, and every release
    returned the address and the "last holder left" flag that the map says; the
    queries read off the same map. *)
Theorem holdings_refine {A} `{Countable A} (xs : list (op A)) :
  all_legal ∅ xs ->
  let h := fst (run new xs) in
  let m := fst (spec_run ∅ xs) in
  snd (run new xs) = snd (spec_run ∅ xs) /\
  (forall c, address_of h c = fst <$> m !! c) /\
  (forall c, owner_of h c = m !! c ≫= snd) /\
  (forall addr c, c ∈ holders h addr <-> exists o, m !! c = Some (addr, o)) /\
  (forall addr k, held_by h addr k = true <-> exists c, m !! c = Some (addr, Some k)) /\
  (forall addr, is_held h addr = true <-> exists c o, m !! c = Some (addr, o)) /\
  len h = size m.
Proof.
  intros Hall h m.
  assert (Hnew : leases new = (∅ : gmap Z (A * option Z))) by apply map_imap_empty.
  rewrite <- Hnew in Hall. destruct (run_refines xs new hinv_new Hall) as (HI & Hm & Hr).
  rewrite Hnew in Hm, Hr. fold h m in HI, Hm. split; [done|]. rewrite <- Hm.
  split; [|split; [|split; [|split; [|split]]]].
  - intros c. rewrite leases_lookup. unfold address_of. by destruct (by_conn h !! c).
  - intros c. rewrite leases_lookup. unfold owner_of. destruct (by_conn h !! c) eqn:E; [done|].
    by apply owners_free.
  - intros addr c. by apply holders_spec.
  - intros addr k. by apply held_by_spec.
  - intros addr. rewrite is_held_spec by done. setoid_rewrite leases_addr. done.
  - apply len_leases.
Qed.

(** Two connections of key 7 share address 100; the first leaves, the key moves. *)
Lemma holdings_refine_witness :
  snd (run (A := Z) new [Hold 1 100 (Some 7); Hold 2 100 (Some 7); Release 1; Transfer 7 8; Release 2])
  = [None; None; Some (100, false); None; Some (100, true)].
Proof.
  rewrite (proj1 (holdings_refine
    [Hold 1 100 (Some 7); Hold 2 100 (Some 7); Release 1; Transfer 7 8; Release 2]
    ltac:(vm_compute; tauto))).
  vm_compute. reflexivity.
Defined.

End Holdings.
