(* ===== verification/IpPool.v ===== *)
(** The exit's tunnel address pools
    ([crates/warrenguard-multihop-server/src/ip_pool.rs]): the random number
    generator and the IPv4 pool [IpAllocator] and the IPv6 pool [IpAllocatorV6].

    Addresses are numbers (32 or 128 bits), keys and connection ids too, instants
    are nanoseconds.  The seed that the code draws from the operating system is
    an argument, and the deployer's [AddressClaims] is a function that a step of
    the environment may replace. *)

From S2P Require Import Prelude IpHoldings.

(** ** [Vec] operations *)

(** [slice::swap], in range. *)
Definition swap {A} (l : list A) (i j : nat) : list A :=
  match l !! i, l !! j with
  | Some x, Some y => <[i := y]> (<[j := x]> l)
  | _, _ => l
  end.

(** [iter().position(|&x| x == a)]. *)
Fixpoint position (a : Z) (l : list Z) : option nat :=
  match l with
  | [] => None
  | x :: l' => if x =? a then Some 0%nat else S <$> position a l'
  end.

Module SplitMix64.

Definition new (seed : Z) : Z := seed.

(** The next state and the number drawn. *)
Definition next_u64 (s : Z) : Z * Z :=
  let s := wrap 64 (s + 0x9E3779B97F4A7C15) in
  let z := s in
  let z := wrap 64 (Z.lxor z (Z.shiftr z 30) * 0xBF58476D1CE4E5B9) in
  let z := wrap 64 (Z.lxor z (Z.shiftr z 27) * 0x94D049BB133111EB) in
  (s, Z.lxor z (Z.shiftr z 31)).

Definition bounded (s n : Z) : Z * Z :=
  let '(s, x) := next_u64 s in (s, x mod n).

End SplitMix64.

Inductive SessionIntent := Legacy | Fresh | Join (target : Z).

(** The wire hint, [None] or four bytes. *)
Definition from_prefer_ipv4 (hint : option (list Z)) : SessionIntent :=
  match hint with
  | None => Legacy
  | Some bytes => if bool_decide (bytes = [0; 0; 0; 0]) then Fresh else Join (be_val bytes)
  end.

Inductive SessionIntentV6 := LegacyV6 | FreshV6 | JoinV6 (siblings : list Z).

Inductive IpPoolError :=
| InvalidPrefix (prefix_len : Z)
| NoUsableHosts (network prefix_len gateway capacity : Z)
| GatewayOutsideSubnet (network prefix_len gateway : Z).

Definition RESTART_RECLAIM_WINDOW : Z := from_secs 120.

(** ** Sticky bindings, as both pools keep them *)

(** Drops the binding of another key on [addr]. *)
Definition drop_stale (sticky : gmap Z Z) (pubkey addr : Z) : gmap Z Z :=
  match fst <$> List.find (fun kv : Z * Z => snd kv =? addr) (map_to_list sticky) with
  | Some stale => if negb (stale =? pubkey) then delete stale sticky else sticky
  | None => sticky
  end.

(** Moves the binding of [from] to [to]. *)
Definition move_binding (sticky : gmap Z Z) (from to : Z) : gmap Z Z :=
  match sticky !! from with
  | None => sticky
  | Some addr => <[to := addr]> (filter (fun kv : Z * Z => snd kv <> addr) (delete from sticky))
  end.

Module IpAllocator.

Record RestartReclaim := mkReclaim {
  until : Z;
  eligible : gset Z;
}.

Record t := mk {
  network : Z;
  prefix_len : Z;
  gateway : Z;
  free : list Z;
  rng : Z;
  used : Holdings.t Z;
  sticky : gmap Z Z;
  reclaim : option RestartReclaim;
  claims : option (Z -> bool);
  last_holder : gmap Z (option Z);
}.

Definition set_free (l : list Z) (p : t) : t :=
  mk (network p) (prefix_len p) (gateway p) l (rng p) (used p) (sticky p) (reclaim p)
    (claims p) (last_holder p).
Definition set_rng (s : Z) (p : t) : t :=
  mk (network p) (prefix_len p) (gateway p) (free p) s (used p) (sticky p) (reclaim p)
    (claims p) (last_holder p).
Definition set_used (h : Holdings.t Z) (p : t) : t :=
  mk (network p) (prefix_len p) (gateway p) (free p) (rng p) h (sticky p) (reclaim p)
    (claims p) (last_holder p).
Definition set_sticky (m : gmap Z Z) (p : t) : t :=
  mk (network p) (prefix_len p) (gateway p) (free p) (rng p) (used p) m (reclaim p)
    (claims p) (last_holder p).
Definition set_reclaim (r : option RestartReclaim) (p : t) : t :=
  mk (network p) (prefix_len p) (gateway p) (free p) (rng p) (used p) (sticky p) r
    (claims p) (last_holder p).
Definition set_last_holder (m : gmap Z (option Z)) (p : t) : t :=
  mk (network p) (prefix_len p) (gateway p) (free p) (rng p) (used p) (sticky p) (reclaim p)
    (claims p) m.

Definition netmask (prefix_len : Z) : Z :=
  let host_bits := 32 - prefix_len in
  if host_bits =? 32 then 0 else wrap 32 (Z.shiftl u32_max host_bits).

(** The hosts of the subnet other than the gateway. *)
Definition hosts (network_u32 broadcast_u32 gateway : Z) : list Z :=
  List.filter (fun a => negb (a =? gateway))
    (seqZ (network_u32 + 1) (broadcast_u32 - (network_u32 + 1))).

Definition with_seed (network_ipv4 prefix_len gateway seed : Z) : result t IpPoolError :=
  if (prefix_len =? 0) || (32 <? prefix_len) then Err (InvalidPrefix prefix_len)
  else
    let host_bits := 32 - prefix_len in
    let mask := netmask prefix_len in
    let network_u32 := Z.land network_ipv4 mask in
    let broadcast_u32 := Z.lor network_u32 (u32_max - mask) in
    let subnet_capacity :=
      if 31 <=? host_bits then u32_max else Z.max 0 (Z.shiftl 1 host_bits - 2) in
    if negb (Z.land gateway mask =? network_u32) then
      Err (GatewayOutsideSubnet network_u32 prefix_len gateway)
    else if subnet_capacity =? 0 then
      Err (NoUsableHosts network_u32 prefix_len gateway subnet_capacity)
    else
      match hosts network_u32 broadcast_u32 gateway with
      | [] => Err (NoUsableHosts network_u32 prefix_len gateway subnet_capacity)
      | free =>
          Ok (mk network_u32 prefix_len gateway free (SplitMix64.new seed) Holdings.new ∅ None
                None ∅)
      end.

Definition set_address_claims (is_claimed : Z -> bool) (p : t) : t :=
  mk (network p) (prefix_len p) (gateway p) (free p) (rng p) (used p) (sticky p) (reclaim p)
    (Some is_claimed) (last_holder p).

Definition enable_restart_reclaim (addrs : list Z) (now : Z) (p : t) : t :=
  let free_set : gset Z := list_to_set (free p) in
  set_reclaim
    (Some (mkReclaim (now + RESTART_RECLAIM_WINDOW)
             (list_to_set (filter (fun a => a ∈ free_set) addrs)))) p.

Definition hold (conn addr : Z) (owner : option Z) (p : t) : t :=
  let p :=
    match reclaim p with
    | Some r => set_reclaim (Some (mkReclaim (until r) (eligible r ∖ {[addr]}))) p
    | None => p
    end in
  let p :=
    match claims p with
    | Some _ => set_last_holder (<[addr := owner]> (last_holder p)) p
    | None => p
    end in
  set_used (Holdings.hold conn addr owner (used p)) p.

Definition reclaimable (target now : Z) (p : t) : t * bool :=
  match reclaim p with
  | Some r =>
      if now <? until r then (p, bool_decide (target ∈ eligible r)) else (set_reclaim None p, false)
  | None => (p, false)
  end.

Definition last_held_by (p : t) (addr pubkey : Z) : bool :=
  bool_decide (last_holder p !! addr = Some (Some pubkey)).

Definition claimed (p : t) (addr : Z) : bool :=
  match claims p with Some is_claimed => is_claimed addr | None => false end.

Definition take_free (addr pubkey : Z) (p : t) : t * bool :=
  match position addr (free p) with
  | None => (p, false)
  | Some pos =>
      if claimed p addr && negb (last_held_by p addr pubkey) then (p, false)
      else (set_free (swap_remove (free p) pos) p, true)
  end.

(** The draw loop, on the undrawn prefix of [free]. *)
Fixpoint pop_random_loop (undrawn : nat) (p : t) : t * option Z :=
  match undrawn with
  | O => (p, None)
  | S undrawn' =>
      let '(s, idx) := SplitMix64.bounded (rng p) (Z.of_nat undrawn) in
      let p := set_rng s p in
      let idx := Z.to_nat idx in
      match free p !! idx with
      | None => (p, None)
      | Some addr =>
          if negb (claimed p addr) then (set_free (swap_remove (free p) idx) p, Some addr)
          else pop_random_loop undrawn' (set_free (swap (free p) idx undrawn') p)
      end
  end.

Definition pop_random (p : t) : t * option Z := pop_random_loop (length (free p)) p.

Definition allocate (conn : Z) (p : t) : t * option Z :=
  match Holdings.address_of (used p) conn with
  | Some addr => (p, Some addr)
  | None =>
      let '(p, r) := pop_random p in
      match r with
      | None => (p, None)
      | Some addr => (hold conn addr None p, Some addr)
      end
  end.

Definition conns_holding (p : t) (ip : Z) : list Z := Holdings.holders (used p) ip.

Definition held_by_pubkey (p : t) (ip pubkey : Z) : bool := Holdings.held_by (used p) ip pubkey.

Definition bind_sticky (pubkey addr : Z) (p : t) : t :=
  let p := set_sticky (drop_stale (sticky p) pubkey addr) p in
  let incumbent_live :=
    match sticky p !! pubkey with Some ip => held_by_pubkey p ip pubkey | None => false end in
  if incumbent_live then p else set_sticky (<[pubkey := addr]> (sticky p)) p.

(** The owner-gated, clean-close and reclaim grants of a join; [None] degrades. *)
Definition try_join (conn pubkey target now : Z) (may_reclaim : bool) (p : t) : t * option Z :=
  if held_by_pubkey p target pubkey then (hold conn target (Some pubkey) p, Some target)
  else
    let own := bool_decide (sticky p !! pubkey = Some target) ||
               (claimed p target && last_held_by p target pubkey) in
    let '(p, took) := if own then take_free target pubkey p else (p, false) in
    if took then (hold conn target (Some pubkey) p, Some target)
    else
      let '(p, may) := if may_reclaim then reclaimable target now p else (p, false) in
      let '(p, took) := if may then take_free target pubkey p else (p, false) in
      if took then (bind_sticky pubkey target (hold conn target (Some pubkey) p), Some target)
      else (p, None).

(** The sticky grant: the bound address when it is free, or shared by a hint-less
    request. *)
Definition try_sticky (conn pubkey : Z) (legacy : bool) (p : t) : t * option Z :=
  match sticky p !! pubkey with
  | None => (p, None)
  | Some preferred =>
      let '(p, took) := take_free preferred pubkey p in
      if took then (hold conn preferred (Some pubkey) p, Some preferred)
      else if legacy && held_by_pubkey p preferred pubkey
      then (hold conn preferred (Some pubkey) p, Some preferred)
      else (p, None)
  end.

Definition allocate_at (conn pubkey : Z) (intent : SessionIntent) (now : Z) (may_reclaim : bool)
  (p : t) : t * option Z :=
  match Holdings.address_of (used p) conn with
  | Some addr => (p, Some addr)
  | None =>
      let '(p, joined) :=
        match intent with
        | Join target => try_join conn pubkey target now may_reclaim p
        | _ => (p, None)
        end in
      match joined with
      | Some addr => (p, Some addr)
      | None =>
          let '(p, stuck) :=
            try_sticky conn pubkey (match intent with Legacy => true | _ => false end) p in
          match stuck with
          | Some addr => (p, Some addr)
          | None =>
              let '(p, r) := pop_random p in
              match r with
              | None => (p, None)
              | Some addr => (bind_sticky pubkey addr (hold conn addr (Some pubkey) p), Some addr)
              end
          end
      end
  end.

(** The entry points read the clock; [now] is that reading. *)
Definition allocate_for_pubkey_with_intent (conn pubkey : Z) (intent : SessionIntent) (now : Z)
  (p : t) : t * option Z :=
  allocate_at conn pubkey intent now false p.

Definition allocate_for_pubkey (conn pubkey now : Z) (p : t) : t * option Z :=
  allocate_for_pubkey_with_intent conn pubkey Legacy now p.

Definition allocate_for_pubkey_reclaiming (conn pubkey : Z) (intent : SessionIntent) (now : Z)
  (p : t) : t * option Z :=
  allocate_at conn pubkey intent now true p.

Definition transfer_owner (from to : Z) (p : t) : t :=
  if from =? to then p
  else
    let p := set_used (Holdings.transfer_owner from to (used p)) p in
    let p := set_sticky (move_binding (sticky p) from to) p in
    set_last_holder
      ((fun h : option Z => if bool_decide (h = Some from) then Some to else h) <$> last_holder p) p.

Definition release (conn : Z) (p : t) : t :=
  let '(h, r) := Holdings.release conn (used p) in
  let p := set_used h p in
  match r with
  | Some (addr, true) => set_free (free p ++ [addr]) p
  | _ => p
  end.

Definition free_count (p : t) : nat := length (free p).
Definition used_count (p : t) : nat := Holdings.len (used p).
Definition sticky_count (p : t) : nat := size (sticky p).

End IpAllocator.
