(* ===== verification/IpPoolInv.v ===== *)
(** The IPv4 address pool: its invariant and what every operation does to it.

    [PInvX out p] is the pool invariant with an address "in hand", taken out of
    the free list and not yet held; between operations nothing is in hand
    ([PInv]). *)

From S2P Require Import Prelude IpHoldings IpPool.
Import IpAllocator.
Abbreviation leases := Holdings.leases.
Abbreviation by_conn := Holdings.by_conn.

Implicit Types (p : t) (a addr k c : Z).

(** ** Vectors *)

Lemma insert_perm {A} (l : list A) i x y :
  l !! i = Some x -> y :: l ≡ₚ x :: <[i := y]> l.
Proof.
  intros H. apply list_elem_of_split_length in H as (l1 & l2 & -> & ->).
  rewrite insert_app_r_alt, Nat.sub_diag by lia. simpl.
  rewrite <- !Permutation_middle. by constructor.
Qed.

Lemma swap_perm {A} (l : list A) i j : swap l i j ≡ₚ l.
Proof.
  unfold swap. destruct (l !! i) as [x|] eqn:Ei; [|done]. destruct (l !! j) as [y|] eqn:Ej; [|done].
  pose proof (insert_perm l j y x Ej) as H1.
  assert (Hi : <[j := x]> l !! i = Some x).
  { destruct (decide (j = i)) as [->|Hne].
    - apply list_lookup_insert_eq. by eapply lookup_lt_Some.
    - by rewrite list_lookup_insert_ne. }
  pose proof (insert_perm _ i x y Hi) as H2.
  apply (Permutation_cons_inv (a := x)). by rewrite H1, H2.
Qed.

Lemma swap_remove_perm {A} (l : list A) i x :
  l !! i = Some x -> l ≡ₚ x :: swap_remove l i.
Proof.
  intros Hi. unfold swap_remove. destruct (last l) as [y|] eqn:El.
  2:{ apply last_None in El as ->. done. }
  apply last_Some in El as [l' ->]. rewrite length_app. simpl.
  replace (length l' + 1 - 1)%nat with (length l') by lia.
  apply lookup_app_Some in Hi as [Hi|[Hle Hi]].
  - rewrite insert_app_l by (by eapply lookup_lt_Some). rewrite take_app_le by (by rewrite length_insert).
    rewrite take_ge by (by rewrite length_insert). rewrite <- (insert_perm l' i x y Hi).
    by rewrite Permutation_app_comm.
  - apply list_lookup_singleton_Some in Hi as [Hi ->].
    rewrite list_insert_id by (rewrite lookup_app_r by done; by rewrite Hi).
    rewrite take_app_length. by rewrite Permutation_app_comm.
Qed.

Lemma position_Some a l i : position a l = Some i -> l !! i = Some a.
Proof.
  revert i; induction l as [|x l IH]; intros i; simpl; [done|].
  destruct (Z.eqb_spec x a) as [->|_]; [by intros [= <-]|].
  destruct (position a l) as [j|]; simpl; [|done]. intros [= <-]. simpl. auto.
Qed.

Lemma position_None a l : position a l = None -> a ∉ l.
Proof.
  induction l as [|x l IH]; simpl; [intros _; apply not_elem_of_nil|].
  destruct (Z.eqb_spec x a) as [->|Hne]; [done|]. destruct (position a l); simpl; [done|].
  intros _. apply not_elem_of_cons. split; [congruence|auto].
Qed.

(** ** The invariant *)

(** Every address of the pool. *)
Definition pool_hosts p : list Z :=
  hosts (network p) (Z.lor (network p) (u32_max - netmask (prefix_len p))) (gateway p).

(** No address is bound to two keys. *)
Definition injective (m : gmap Z Z) : Prop :=
  forall k1 k2 a, m !! k1 = Some a -> m !! k2 = Some a -> k1 = k2.

Record PInvX (out : option Z) p : Prop := mkPInv {
  pi_used : Holdings.HInv (used p);
  (** connections on one address were authenticated by one key *)
  pi_one : Holdings.one_key (used p);
  (** the free list, the held addresses and the address in hand partition the hosts *)
  pi_nodup : NoDup (free p);
  pi_free : forall a, a ∈ free p -> out <> Some a /\ forall c, by_conn (used p) !! c <> Some a;
  pi_out : forall a c, out = Some a -> by_conn (used p) !! c <> Some a;
  pi_cover : forall a,
    a ∈ pool_hosts p <-> a ∈ free p \/ out = Some a \/ exists c, by_conn (used p) !! c = Some a;
  (** an address is sticky for at most one key *)
  pi_sticky : injective (sticky p);
  pi_sticky_host : forall k a, sticky p !! k = Some a -> a ∈ pool_hosts p;
  (** what may be reclaimed was handed to nobody *)
  pi_reclaim : forall r a, reclaim p = Some r -> a ∈ eligible r -> a ∈ free p \/ out = Some a;
  (** with claims wired, the last holder of a held address is its owner *)
  pi_last : is_Some (claims p) -> forall c a o,
    leases (used p) !! c = Some (a, o) -> last_holder p !! a = Some o;
}.

Definition PInv p : Prop := PInvX None p.

Lemma held_lease p c a :
  by_conn (used p) !! c = Some a <-> exists o, leases (used p) !! c = Some (a, o).
Proof. apply Holdings.leases_addr. Qed.

(** Fields that no allocation changes. *)
Definition same_pool p p' : Prop :=
  network p' = network p /\ prefix_len p' = prefix_len p /\ gateway p' = gateway p /\
  claims p' = claims p.

Lemma same_pool_hosts p p' : same_pool p p' -> pool_hosts p' = pool_hosts p.
Proof. unfold pool_hosts. by intros (-> & -> & -> & _). Qed.

(** ** Taking an address out of the free list *)

Lemma take_out p l s a :
  PInv p -> free p ≡ₚ a :: l -> PInvX (Some a) (set_free l (set_rng s p)).
Proof.
  intros [Hu Ho Hn Hf _ Hc Hs Hsh Hr Hl] Hp.
  assert (Hin : forall x, x ∈ free p <-> x = a \/ x ∈ l)
    by (intros x; rewrite Hp; apply elem_of_cons).
  assert (Hnd : NoDup (a :: l)) by (by rewrite <- Hp).
  apply NoDup_cons in Hnd as [Hal Hnd].
  split; simpl; try done.
  - intros x Hx. split; [congruence|]. apply Hf. apply Hin. by right.
  - intros x c [= <-]. apply Hf. apply Hin. by left.
  - intros x. change (pool_hosts (set_free l (set_rng s p))) with (pool_hosts p).
    rewrite Hc, Hin. naive_solver.
  - intros r x Hr1 Hx. destruct (Hr r x Hr1 Hx) as [Hx'|?]; [|done].
    apply Hin in Hx' as [->|?]; auto.
Qed.

Lemma put_rng p l s : PInv p -> l ≡ₚ free p -> PInv (set_free l (set_rng s p)).
Proof.
  intros [Hu Ho Hn Hf Hi Hc Hs Hsh Hr Hl] Hp. split; simpl; try done.
  - by rewrite Hp.
  - intros x. rewrite Hp. apply Hf.
  - intros x. change (pool_hosts (set_free l (set_rng s p))) with (pool_hosts p).
    rewrite Hp. apply Hc.
  - intros r x. rewrite Hp. apply Hr.
Qed.

Lemma set_rng_id p : set_rng (rng p) p = p.
Proof. by destruct p. Qed.

Lemma take_free_spec addr k p p' b :
  PInv p -> take_free addr k p = (p', b) ->
  if b then PInvX (Some addr) p' /\ addr ∈ free p /\
            (claimed p addr = true -> last_held_by p addr k = true) /\
            exists l, p' = set_free l p
  else p' = p /\ (addr ∉ free p \/ claimed p addr = true /\ last_held_by p addr k = false).
Proof.
  intros HI. unfold take_free. destruct (position addr (free p)) as [i|] eqn:Ep.
  2:{ intros [= <- <-]. apply position_None in Ep. auto. }
  apply position_Some in Ep.
  destruct (claimed p addr) eqn:Ec, (last_held_by p addr k) eqn:El; simpl; intros [= <- <-]; auto;
    (split; [rewrite <- (set_rng_id p) at 2; apply take_out; [done|by apply swap_remove_perm]|]);
    (split; [by eapply list_elem_of_lookup_2|]); (split; [done|eauto]).
Qed.

(** The draw loop: an unclaimed free address, or none when all are claimed. *)
Lemma pop_random_loop_spec n p p' r :
  (n <= length (free p))%nat ->
  (forall i x, (n <= i)%nat -> free p !! i = Some x -> claimed p x = true) ->
  pop_random_loop n p = (p', r) ->
  exists l s, p' = set_free l (set_rng s p) /\
    match r with
    | Some a => claimed p a = false /\ free p ≡ₚ a :: l
    | None => l ≡ₚ free p /\ forall a, a ∈ free p -> claimed p a = true
    end.
Proof.
  revert p; induction n as [|n IH]; intros p Hn Hall; cbn [pop_random_loop].
  { intros [= <- <-]. exists (free p), (rng p). split; [by destruct p|]. split; [done|].
    intros a [i Hi]%list_elem_of_lookup. eapply Hall; [|done]. lia. }
  unfold SplitMix64.bounded. destruct (SplitMix64.next_u64 (rng p)) as [s x].
  set (idx := Z.to_nat (x mod Z.of_nat (S n))).
  assert (Hidx : (idx < S n)%nat).
  { pose proof (Z.mod_pos_bound x (Z.of_nat (S n)) ltac:(lia)). lia. }
  cbn [free set_rng]. destruct (free p !! idx) as [addr|] eqn:Ei.
  2:{ apply lookup_ge_None in Ei. lia. }
  change (claimed (set_rng s p) addr) with (claimed p addr).
  destruct (claimed p addr) eqn:Ec; cbn [negb].
  - intros H. set (p1 := set_free (swap (free p) idx n) (set_rng s p)) in H.
    assert (Hlen : length (free p1) = length (free p)) by (apply Permutation_length, swap_perm).
    apply IH in H as (l & s' & -> & Hr).
    + exists l, s'. split; [done|]. change (free p1) with (swap (free p) idx n) in Hr.
      destruct r as [a|]; [by rewrite swap_perm in Hr|].
      destruct Hr as [Hl Hc]. rewrite swap_perm in Hl. split; [done|].
      intros a Ha. apply Hc. by rewrite swap_perm.
    + rewrite Hlen. lia.
    + intros i y Hi. change (free p1) with (swap (free p) idx n). unfold swap.
      change (claimed p1 y) with (claimed p y). rewrite Ei.
      destruct (free p !! n) as [z|] eqn:En; [|apply lookup_ge_None in En; lia].
      intros Hy. destruct (decide (idx = i)) as [<-|Hne].
      * rewrite list_lookup_insert_eq in Hy by (rewrite length_insert; lia).
        replace n with idx in En by lia. congruence.
      * rewrite list_lookup_insert_ne in Hy by done. destruct (decide (n = i)) as [<-|Hne'].
        -- rewrite list_lookup_insert_eq in Hy by lia. congruence.
        -- rewrite list_lookup_insert_ne in Hy by done. apply (Hall i); [lia|done].
  - intros [= <- <-]. eexists _, s. split; [done|]. split; [done|]. by apply swap_remove_perm.
Qed.

Lemma pop_random_spec p p' r :
  PInv p -> pop_random p = (p', r) ->
  (exists l s, p' = set_free l (set_rng s p)) /\
  match r with
  | Some a => PInvX (Some a) p' /\ a ∈ free p /\ claimed p a = false
  | None => PInv p' /\ forall a, a ∈ free p -> claimed p a = true
  end.
Proof.
  intros HI H. apply pop_random_loop_spec in H as (l & s & -> & Hr); [|lia|].
  2:{ intros i x Hi Hx. apply lookup_lt_Some in Hx. lia. }
  split; [eauto|]. destruct r as [a|].
  - destruct Hr as [Hc Hp]. split; [by apply take_out|]. split; [rewrite Hp; by left|done].
  - destruct Hr as [Hl Hc]. split; [by apply put_rng|done].
Qed.

(** ** Holding an address *)

Lemma hold_fields c a o p :
  used (hold c a o p) = Holdings.hold c a o (used p) /\
  free (hold c a o p) = free p /\ sticky (hold c a o p) = sticky p /\
  reclaim (hold c a o p) = (fun r => mkReclaim (until r) (eligible r ∖ {[a]})) <$> reclaim p /\
  (is_Some (claims p) -> last_holder (hold c a o p) = <[a := o]> (last_holder p)) /\
  same_pool p (hold c a o p).
Proof.
  unfold hold, same_pool.
  destruct (reclaim p) as [r|] eqn:Er, (claims p) as [f|] eqn:Ec; simpl; rewrite ?Er, ?Ec;
    repeat split; try done; by intros [].
Qed.

(** What makes [addr] fit for a new holder of key [o]: it is in hand, or
    connections of that same key hold it. *)
Definition fit (out : option Z) (addr : Z) (o : option Z) p : Prop :=
  out = Some addr \/ (out = None /\ exists k, o = Some k /\ held_by_pubkey p addr k = true).

Lemma fit_may_hold out addr o p :
  PInvX out p -> fit out addr o p -> Holdings.may_hold (used p) addr o.
Proof.
  intros HI [->|(-> & k & -> & Hk)]; [left|right; eauto]. intros c. by apply (pi_out _ _ HI).
Qed.

(** An address fit for a new holder is a host of the pool and is not free. *)
Lemma fit_host out addr o p :
  PInvX out p -> fit out addr o p ->
  addr ∉ free p /\ (out = Some addr \/ exists c, by_conn (used p) !! c = Some addr).
Proof.
  intros HI [->|(-> & k & -> & Hk)].
  - split; [|by left]. intros Hf. by apply (pi_free _ _ HI) in Hf as [? _].
  - apply (Holdings.held_by_spec _ _ _ (pi_used _ _ HI)) in Hk as [c0 Hc0].
    assert (Hb : by_conn (used p) !! c0 = Some addr) by (apply held_lease; eauto).
    split; [|eauto]. intros Hf. apply (pi_free _ _ HI) in Hf as [_ Hf]. by apply (Hf c0).
Qed.

Lemma pool_hold_inv out c addr o p :
  PInvX out p -> by_conn (used p) !! c = None -> fit out addr o p -> PInv (hold c addr o p).
Proof.
  intros HI Hc Hfit. pose proof (fit_may_hold out addr o p HI Hfit) as Hmay.
  pose proof (Holdings.may_hold_owner _ _ _ (pi_used _ _ HI) (pi_one _ _ HI) Hmay) as Hown.
  destruct (fit_host out addr o p HI Hfit) as [Hnf Hhost].
  assert (Hout : forall a, out = Some a -> a = addr)
    by (intros a Ha; destruct Hfit as [|[]]; congruence).
  destruct (hold_fields c addr o p) as (Hu & Hf & Hs & Hr & Hl & Hsame).
  pose proof (same_pool_hosts _ _ Hsame) as Hh. destruct Hsame as (_ & _ & _ & Hcl).
  pose proof (Holdings.hold_leases (used p) c addr o (pi_used _ _ HI) Hc) as Hle.
  assert (Hb : by_conn (used (hold c addr o p)) = <[c := addr]> (by_conn (used p))) by (by rewrite Hu).
  split; rewrite ?Hf, ?Hs, ?Hh, ?Hb; try done.
  - rewrite Hu. apply Holdings.hold_inv; [apply (pi_used _ _ HI)|done].
  - rewrite Hu. apply Holdings.hold_one_key; [apply HI|apply HI|done|done].
  - apply (pi_nodup _ _ HI).
  - intros a Ha. split; [done|]. intros d [[_ ->]|[_ Hd]]%lookup_insert_Some; [done|].
    apply (pi_free _ _ HI) in Ha as [_ Ha]. by apply (Ha d).
  - intros a. rewrite (pi_cover _ _ HI a). split.
    + intros [?|[Ha|[d Hd]]]; [by left| |].
      * right; right. exists c. apply Hout in Ha as ->. apply lookup_insert_eq.
      * right; right. exists d. rewrite lookup_insert_ne; [done|congruence].
    + intros [?|[?|[d [[_ ->]|[_ Hd]]%lookup_insert_Some]]]; [by left|done|by right|].
      right; right. eauto.
  - apply (pi_sticky _ _ HI).
  - apply (pi_sticky_host _ _ HI).
  - intros r a Hr' Ha. rewrite Hr in Hr'. destruct (reclaim p) as [r0|] eqn:Er; [|done].
    injection Hr' as <-. simpl in Ha. apply elem_of_difference in Ha as [Ha Hne].
    destruct (pi_reclaim _ _ HI r0 a Er Ha) as [?|Ha']; [by left|].
    apply Hout in Ha'. set_solver.
  - rewrite Hcl. intros Hsome d a o' Hd. rewrite (Hl Hsome). rewrite Hu, Hle in Hd.
    apply lookup_insert_Some in Hd as [[_ [= -> ->]]|[Hne Hd]]; [apply lookup_insert_eq|].
    rewrite lookup_insert. case_decide as Ha; [|by apply (pi_last _ _ HI Hsome d)].
    subst a. by destruct (Hown d o' Hd) as [-> _].
Qed.

(** ** Sticky bindings *)

Lemma bind_sticky_used k a p :
  used (bind_sticky k a p) = used p /\ free (bind_sticky k a p) = free p /\
  reclaim (bind_sticky k a p) = reclaim p /\ last_holder (bind_sticky k a p) = last_holder p /\
  same_pool p (bind_sticky k a p).
Proof. unfold bind_sticky. by repeat case_match. Qed.

Lemma drop_stale_spec m k a :
  injective m ->
  (forall k', drop_stale m k a !! k' = Some a -> k' = k) /\
  (forall k' x, drop_stale m k a !! k' = Some x -> m !! k' = Some x).
Proof.
  intros Hinj. unfold drop_stale. destruct (List.find _ _) as [[stale ip]|] eqn:Ef; simpl.
  - apply List.find_some in Ef as [Hin He]. simpl in He. apply Z.eqb_eq in He. subst ip.
    apply list_elem_of_In, elem_of_map_to_list in Hin.
    destruct (Z.eqb_spec stale k) as [->|Hne]; simpl.
    + split; [|done]. intros k' Hk'. by eapply Hinj.
    + split; [|by intros k' x [_ ?]%lookup_delete_Some].
      intros k' [Hn Hk']%lookup_delete_Some. by destruct (Hinj _ _ _ Hin Hk').
  - split; [|done]. intros k' Hk'. exfalso. apply elem_of_map_to_list, list_elem_of_In in Hk'.
    apply (List.find_none _ _ Ef) in Hk'. simpl in Hk'. by rewrite Z.eqb_refl in Hk'.
Qed.

(** Binding [k] to [a] after the stale binding is gone. *)
Lemma rebind_spec m k a m' :
  injective m -> (m' = drop_stale m k a \/ m' = <[k := a]> (drop_stale m k a)) ->
  injective m' /\ forall k' x, m' !! k' = Some x -> x = a \/ m !! k' = Some x.
Proof.
  intros Hinj Hm. destruct (drop_stale_spec m k a Hinj) as [Hd Hsub]. destruct Hm as [-> | ->].
  - split; [|eauto]. intros k1 k2 x H1 H2. eapply Hinj; eauto.
  - split.
    + intros k1 k2 x [[<- <-]|[Hn1 H1]]%lookup_insert_Some [[<- E]|[Hn2 H2]]%lookup_insert_Some;
        try done.
      * by destruct (Hd _ H2).
      * subst x. by destruct (Hd _ H1).
      * eapply Hinj; eauto.
    + intros k' x [[_ <-]|[_ Hx]]%lookup_insert_Some; [by left|eauto].
Qed.

Lemma move_binding_spec m from to :
  injective m ->
  injective (move_binding m from to) /\
  forall k x, move_binding m from to !! k = Some x -> exists k', m !! k' = Some x.
Proof.
  intros Hinj. unfold move_binding. destruct (m !! from) as [a|] eqn:E; [|split; [done|eauto]].
  assert (Hrest : forall k x, filter (fun kv : Z * Z => snd kv <> a) (delete from m) !! k = Some x ->
    m !! k = Some x /\ x <> a).
  { intros k x [Hk Hx]%map_lookup_filter_Some. by apply lookup_delete_Some in Hk as [_ ?]. }
  split.
  - intros k1 k2 x [[<- <-]|[_ H1]]%lookup_insert_Some [[<- E2]|[_ H2]]%lookup_insert_Some; try done.
    + by apply Hrest in H2 as [_ ?].
    + subst x. by apply Hrest in H1 as [_ ?].
    + apply Hrest in H1 as [H1 _]. apply Hrest in H2 as [H2 _]. by eapply Hinj.
  - intros k x [[_ <-]|[_ Hx]]%lookup_insert_Some; [eauto|]. apply Hrest in Hx as [Hx _]. eauto.
Qed.

Lemma bind_sticky_inv k a p : PInv p -> a ∈ pool_hosts p -> PInv (bind_sticky k a p).
Proof.
  intros HI Ha. destruct (bind_sticky_used k a p) as (Hu & Hf & Hr & Hl & Hsame).
  pose proof (same_pool_hosts _ _ Hsame) as Hh. destruct Hsame as (_ & _ & _ & Hcl).
  destruct (rebind_spec (sticky p) k a (sticky (bind_sticky k a p)) (pi_sticky _ _ HI)) as [Hi Hst].
  { unfold bind_sticky. case_match; [by left|by right]. }
  split; rewrite ?Hu, ?Hf, ?Hr, ?Hl, ?Hh, ?Hcl; try apply HI; [done|].
  intros k' x Hx. destruct (Hst k' x Hx) as [->|Hk]; [done|]. by eapply (pi_sticky_host _ _ HI).
Qed.

(** ** Allocation *)

(** Connection [c] of key [o] was given [addr]: as one more connection on an
    address its own key holds ([sh]), or out of the free list, where an address
    that is claimed only goes to its last holder. *)
Definition granted p (c : Z) (o : option Z) (addr : Z) p' (sh : bool) : Prop :=
  leases (used p') = <[c := (addr, o)]> (leases (used p)) /\
  if sh then exists k, o = Some k /\ held_by_pubkey p addr k = true
  else addr ∈ free p /\
       (claimed p addr = true -> exists k, o = Some k /\ last_held_by p addr k = true).

(** [p'] differs from [p] at most in its reclaim state. *)
Definition same_view p p' : Prop :=
  used p' = used p /\ free p' = free p /\ sticky p' = sticky p /\
  last_holder p' = last_holder p /\ same_pool p p'.

Lemma same_view_refl p : same_view p p.
Proof. done. Qed.

Lemma same_pool_trans p1 p2 p3 : same_pool p1 p2 -> same_pool p2 p3 -> same_pool p1 p3.
Proof.
  unfold same_pool. intros (H1 & H2 & H3 & H4) (-> & -> & -> & ->). done.
Qed.

Lemma claimed_pool p p' a : same_pool p p' -> claimed p' a = claimed p a.
Proof. unfold claimed. by intros (_ & _ & _ & ->). Qed.

Lemma granted_view p p1 c o addr p' sh :
  same_view p p1 -> granted p1 c o addr p' sh -> granted p c o addr p' sh.
Proof.
  intros (Hu & Hf & _ & Hl & Hsame). unfold granted, held_by_pubkey, last_held_by.
  rewrite Hu, Hf, Hl, (claimed_pool _ _ _ Hsame). done.
Qed.

(** Holding a shared address. *)
Lemma hold_shared c addr k p :
  PInv p -> by_conn (used p) !! c = None -> held_by_pubkey p addr k = true ->
  let p' := hold c addr (Some k) p in
  PInv p' /\ same_pool p p' /\ granted p c (Some k) addr p' true.
Proof.
  intros HI Hc Hk p'. destruct (hold_fields c addr (Some k) p) as (Hu & _ & _ & _ & _ & Hsame).
  split; [|split; [done|split]].
  - apply (pool_hold_inv None); [done|done|]. right. eauto.
  - unfold p'. rewrite Hu. apply Holdings.hold_leases; [apply (pi_used _ _ HI)|done].
  - eauto.
Qed.

(** Holding an address just taken out of the free list. *)
Lemma hold_taken c addr o p l s :
  PInv p -> PInvX (Some addr) (set_free l (set_rng s p)) -> by_conn (used p) !! c = None ->
  addr ∈ free p ->
  (claimed p addr = true -> exists k, o = Some k /\ last_held_by p addr k = true) ->
  let p' := hold c addr o (set_free l (set_rng s p)) in
  PInv p' /\ same_pool p p' /\ granted p c o addr p' false.
Proof.
  intros HI HI1 Hc Hf Hcl p'.
  destruct (hold_fields c addr o (set_free l (set_rng s p))) as (Hu & _ & _ & _ & _ & Hsame).
  split; [|split; [done|split; [|done]]].
  - apply (pool_hold_inv (Some addr)); [done|done|by left].
  - unfold p'. rewrite Hu. apply Holdings.hold_leases; [apply (pi_used _ _ HI)|done].
Qed.

Lemma hold_taken_same_rng c addr k p l :
  PInv p -> PInvX (Some addr) (set_free l p) -> by_conn (used p) !! c = None -> addr ∈ free p ->
  (claimed p addr = true -> last_held_by p addr k = true) ->
  let p' := hold c addr (Some k) (set_free l p) in
  PInv p' /\ same_pool p p' /\ granted p c (Some k) addr p' false.
Proof.
  intros HI HI1 Hc Hf Hcl.
  pose proof (hold_taken c addr (Some k) p l (rng p)) as Ht. rewrite set_rng_id in *.
  apply Ht; eauto.
Qed.

(** Binding after a grant. *)
Lemma bind_granted c o addr k p p' sh :
  PInv p' -> same_pool p p' -> granted p c o addr p' sh ->
  let p2 := bind_sticky k addr p' in
  PInv p2 /\ same_pool p p2 /\ granted p c o addr p2 sh.
Proof.
  intros HI Hsame [Hle Hg] p2. destruct (bind_sticky_used k addr p') as (Hu & _ & _ & _ & Hs2).
  split; [|split; [by eapply same_pool_trans|split; [by unfold p2; rewrite Hu|done]]].
  apply bind_sticky_inv; [done|]. apply (pi_cover _ _ HI). right; right. exists c.
  apply held_lease. exists o. rewrite Hle. apply lookup_insert_eq.
Qed.

Lemma reclaimable_view target now p p' b :
  PInv p -> reclaimable target now p = (p', b) -> same_view p p' /\ PInv p'.
Proof.
  intros HI. unfold reclaimable. destruct (reclaim p) as [r|]; [|by intros [= <- <-]].
  destruct (now <? until r); intros [= <- <-]; [done|]. split; [done|].
  destruct HI. by split.
Qed.

(** A join: a grant on the named address, or nothing but the reclaim state
    changed. *)
Lemma try_join_spec c k target now may p p' r :
  PInv p -> by_conn (used p) !! c = None -> try_join c k target now may p = (p', r) ->
  match r with
  | Some addr => addr = target /\ PInv p' /\ same_pool p p' /\
                 exists sh, granted p c (Some k) addr p' sh
  | None => same_view p p' /\ PInv p' /\ held_by_pubkey p target k = false
  end.
Proof.
  intros HI Hc. unfold try_join. destruct (held_by_pubkey p target k) eqn:Eh.
  { intros [= <- <-]. destruct (hold_shared c target k p HI Hc Eh) as (? & ? & ?). eauto. }
  destruct (if _ || _ then _ else _) as [p1 took] eqn:E1.
  assert (H1 : if took then exists l, p1 = set_free l p /\ PInvX (Some target) p1 /\
      target ∈ free p /\ (claimed p target = true -> last_held_by p target k = true)
    else p1 = p).
  { destruct (_ || _); [|by injection E1 as <- <-].
    apply take_free_spec in E1; [|done]. destruct took; [naive_solver|tauto]. }
  destruct took.
  { intros [= <- <-]. destruct H1 as (l & -> & HI1 & Hf & Hcl).
    destruct (hold_taken_same_rng c target k p l HI HI1 Hc Hf Hcl) as (? & ? & ?). eauto. }
  subst p1. destruct (if may then _ else _) as [p1 ok] eqn:E2.
  assert (H2 : same_view p p1 /\ PInv p1).
  { destruct may; [by eapply reclaimable_view|]. injection E2 as <- <-. done. }
  destruct H2 as [Hv HI1]. destruct (if ok then _ else _) as [p2 took2] eqn:E3.
  assert (Hc1 : by_conn (used p1) !! c = None) by (destruct Hv as (-> & _); done).
  destruct took2.
  - intros [= <- <-]. destruct ok; [|done].
    apply take_free_spec in E3 as (HI2 & Hf & Hcl & l & ->); [|done].
    destruct (hold_taken_same_rng c target k p1 l HI1 HI2 Hc1 Hf Hcl) as (HI3 & Hs3 & Hg3).
    destruct (bind_granted c (Some k) target k p1 _ false HI3 Hs3 Hg3) as (? & ? & ?).
    split; [done|]. split; [done|]. split; [|exists false; by eapply granted_view].
    eapply same_pool_trans; [|done]. by destruct Hv as (_ & _ & _ & _ & ?).
  - intros [= <- <-]. destruct ok; [|injection E3 as <-; done].
    apply take_free_spec in E3 as [-> _]; done.
Qed.

Lemma try_sticky_spec c k legacy p p' r :
  PInv p -> by_conn (used p) !! c = None -> try_sticky c k legacy p = (p', r) ->
  match r with
  | Some addr => PInv p' /\ same_pool p p' /\
                 exists sh, granted p c (Some k) addr p' sh /\ (sh = true -> legacy = true)
  | None => p' = p
  end.
Proof.
  intros HI Hc. unfold try_sticky. destruct (sticky p !! k) as [a|]; [|by intros [= <- <-]].
  destruct (take_free a k p) as [p1 took] eqn:E. apply take_free_spec in E; [|done].
  destruct took.
  - destruct E as (HI1 & Hf & Hcl & l & ->). intros [= <- <-].
    destruct (hold_taken_same_rng c a k p l HI HI1 Hc Hf Hcl) as (? & ? & ?).
    split; [done|]. split; [done|]. by exists false.
  - destruct E as [-> _]. destruct legacy; simpl; [|by intros [= <- <-]].
    destruct (held_by_pubkey p a k) eqn:Eh; intros [= <- <-]; [|done].
    destruct (hold_shared c a k p HI Hc Eh) as (? & ? & ?).
    split; [done|]. split; [done|]. by exists true.
Qed.

Lemma allocate_at_spec c k intent now may p p' r :
  PInv p -> Holdings.address_of (used p) c = None ->
  allocate_at c k intent now may p = (p', r) ->
  PInv p' /\ same_pool p p' /\
  match r with
  | Some addr => exists sh, granted p c (Some k) addr p' sh /\
                   (sh = true -> intent = Legacy \/ intent = Join addr)
  | None => leases (used p') = leases (used p) /\ forall a, a ∈ free p -> claimed p a = true
  end.
Proof.
  intros HI Hc. unfold allocate_at. rewrite Hc. unfold Holdings.address_of in Hc.
  destruct (match intent with Join _ => _ | _ => _ end) as [p1 joined] eqn:E1.
  destruct joined as [addr|].
  { intros [= <- <-]. destruct intent as [| |target]; [done|done|].
    apply try_join_spec in E1 as (-> & HI1 & Hs & sh & Hg); [|done|done]. eauto 10. }
  assert (Hv : same_view p p1 /\ PInv p1).
  { destruct intent; [by injection E1 as <-|by injection E1 as <-|].
    by apply try_join_spec in E1 as (? & ? & _). }
  clear E1. destruct Hv as [Hv HI1].
  assert (Hc1 : by_conn (used p1) !! c = None) by (destruct Hv as (-> & _); done).
  assert (Hs1 : same_pool p p1) by (by destruct Hv as (_ & _ & _ & _ & ?)).
  destruct (try_sticky c k _ p1) as [p2 stuck] eqn:E2.
  apply try_sticky_spec in E2; [|done|done]. destruct stuck as [addr|].
  { intros [= <- <-]. destruct E2 as (HI2 & Hs2 & sh & Hg & Hsh). split; [done|].
    split; [by eapply same_pool_trans|]. exists sh. split; [by eapply granted_view|].
    intros Ht. left. by destruct intent; try specialize (Hsh Ht). }
  subst p2. destruct (pop_random p1) as [p3 popped] eqn:E3.
  apply pop_random_spec in E3 as [(l & s & ->) Hr]; [|done]. destruct popped as [addr|].
  - intros [= <- <-]. destruct Hr as (HI3 & Hf & Hcl).
    destruct (hold_taken c addr (Some k) p1 l s HI1 HI3 Hc1 Hf) as (HI4 & Hs4 & Hg4);
      [by rewrite Hcl|].
    destruct (bind_granted c (Some k) addr k p1 _ false HI4 Hs4 Hg4) as (? & ? & ?).
    split; [done|]. split; [by eapply same_pool_trans|]. exists false.
    split; [by eapply granted_view|done].
  - intros [= <- <-]. destruct Hr as [HI3 Hall]. split; [done|]. split; [done|].
    destruct Hv as (Hu & Hf & _). split; [by simpl; rewrite Hu|].
    intros a Ha. rewrite <- (claimed_pool p p1) by done. apply Hall. by rewrite Hf.
Qed.
