(* ===== verification/IpPoolGuarantees.v ===== *)
(** The IPv4 address pool at work: building it, the invariant of every pool any
    sequence of operations can reach, and what an allocation guarantees. *)

From S2P Require Import Prelude IpHoldings IpPool IpPoolInv.
Import IpAllocator.

Implicit Types (p : t) (a addr k c : Z).

(** ** Building a pool *)

Section subnet.
Context (prefix_len : Z).
Hypothesis Hpl : 1 <= prefix_len <= 32.
Let h : Z := 32 - prefix_len.

Lemma netmask_arith : netmask prefix_len = 2 ^ 32 - 2 ^ h.
Proof.
  unfold netmask, h. destruct (Z.eqb_spec (32 - prefix_len) 32); [lia|].
  rewrite Z.shiftl_mul_pow2 by lia. unfold wrap, u32_max.
  assert (0 < 2 ^ (32 - prefix_len)) by (apply Z.pow_pos_nonneg; lia).
  assert (2 ^ (32 - prefix_len) <= 2 ^ 32) by (apply Z.pow_le_mono_r; lia).
  symmetry. apply (Z.mod_unique _ _ (2 ^ (32 - prefix_len) - 1)); lia.
Qed.

Lemma wildcard_ones : u32_max - netmask prefix_len = Z.ones h.
Proof. rewrite netmask_arith, Z.ones_equiv. unfold u32_max. lia. Qed.

(** Masking an address clears its host bits. *)
Lemma land_netmask x : in_width 32 x -> Z.land x (netmask prefix_len) = 2 ^ h * (x / 2 ^ h).
Proof.
  intros Hx. assert (Hh : 0 <= h) by (unfold h; lia).
  trans (Z.ldiff x (Z.ones h)).
  - apply Z.bits_inj'. intros i Hi. rewrite Z.land_spec, Z.ldiff_spec.
    destruct (Z.lt_ge_cases i 32) as [Hlt|Hge].
    2:{ by rewrite (testbit_above_width 32) by (done || lia). }
    f_equal. unfold netmask. fold h. destruct (Z.eqb_spec h 32); [unfold h in *; lia|].
    rewrite testbit_wrap, Z.shiftl_spec, Z.testbit_ones_nonneg by lia.
    destruct (Z.ltb_spec i 32); [|lia]. simpl.
    change u32_max with (Z.ones 32). destruct (Z.ltb_spec i h); simpl.
    + apply Z.testbit_neg_r. lia.
    + rewrite Z.testbit_ones_nonneg by lia. apply Z.ltb_lt. lia.
  - rewrite Z.ldiff_ones_r, Z.shiftl_mul_pow2, Z.shiftr_div_pow2 by lia. lia.
Qed.

(** The broadcast address is the last one of the block. *)
Lemma broadcast_arith q : Z.lor (2 ^ h * q) (u32_max - netmask prefix_len) = 2 ^ h * q + 2 ^ h - 1.
Proof.
  assert (Hh : 0 <= h) by (unfold h; lia). rewrite wildcard_ones.
  pose proof (Z.add_lor_land (2 ^ h * q) (Z.ones h)) as Hadd.
  assert (H0 : Z.land (2 ^ h * q) (Z.ones h) = 0).
  { rewrite Z.land_ones by done. rewrite Z.mul_comm. apply Z.mod_mul.
    apply Z.pow_nonzero; lia. }
  rewrite H0 in Hadd. rewrite Z.ones_equiv in *. lia.
Qed.

End subnet.

Lemma hosts_elem n b g a : a ∈ hosts n b g <-> n < a < b /\ a <> g.
Proof.
  unfold hosts. rewrite list_elem_of_In, filter_In, <- list_elem_of_In, elem_of_seqZ.
  rewrite negb_true_iff, Z.eqb_neq. lia.
Qed.

Lemma hosts_nodup n b g : NoDup (hosts n b g).
Proof. apply NoDup_ListNoDup, List.NoDup_filter, NoDup_ListNoDup, NoDup_seqZ. Qed.

(** A pool that holds nothing is well formed when its free list is its hosts. *)
Lemma empty_pool_inv n pl g s :
  PInv (mk n pl g (hosts n (Z.lor n (u32_max - netmask pl)) g) s Holdings.new ∅ None None ∅).
Proof.
  assert (Hnone : forall c x, by_conn (Holdings.new (A := Z)) !! c <> Some x)
    by (intros c x; simpl; by rewrite lookup_empty).
  split; simpl.
  - apply Holdings.hinv_new.
  - apply Holdings.one_key_new.
  - apply hosts_nodup.
  - intros a _. split; [done|]. intros c. apply Hnone.
  - done.
  - intros a. unfold pool_hosts. simpl. split; [by left|].
    intros [?|[?|[c Hc]]]; [done|done|by apply Hnone in Hc].
  - intros k1 k2 a. by rewrite lookup_empty.
  - intros k a. by rewrite lookup_empty.
  - done.
  - by intros [].
Qed.

(** Building a pool: it succeeds exactly for prefixes 1 to 30 with the gateway
    in the subnet, the free list is then every address strictly between the
    network and the broadcast address other than the gateway, and each error
    means what it says. *)
Theorem with_seed_spec n pl g seed :
  in_width 32 n -> in_width 32 g -> in_width 8 pl ->
  let block := 2 ^ (32 - pl) in
  match with_seed n pl g seed with
  | Ok p =>
      1 <= pl <= 30 /\ g / block = n / block /\ PInv p /\
      network p = block * (n / block) /\
      forall a, a ∈ free p <-> network p < a < network p + block - 1 /\ a <> g
  | Err (InvalidPrefix _) => pl = 0 \/ 32 < pl
  | Err (GatewayOutsideSubnet _ _ _) => 1 <= pl <= 32 /\ g / block <> n / block
  | Err (NoUsableHosts _ _ _ _) => 31 <= pl <= 32
  end.
Proof.
  intros Hn Hg Hp block. unfold with_seed.
  destruct (Z.eqb_spec pl 0) as [|Hp0]; [by left|]. simpl.
  destruct (Z.ltb_spec 32 pl) as [|Hp32]; [by right|].
  assert (Hpl : 1 <= pl <= 32) by (unfold in_width in Hp; lia).
  assert (Hb : 0 < block) by (apply Z.pow_pos_nonneg; lia).
  rewrite !land_netmask by done. fold block.
  destruct (Z.eqb_spec (block * (g / block)) (block * (n / block))) as [Heq|Hne]; simpl.
  2:{ split; [done|]. intros He. by rewrite He in Hne. }
  apply Z.mul_reg_l in Heq; [|lia].
  assert (Hbroad : Z.lor (block * (n / block)) (u32_max - netmask pl) = block * (n / block) + block - 1)
    by (apply broadcast_arith; lia).
  set (net := block * (n / block)) in *.
  destruct (Z.eq_dec pl 32) as [->|]; [simpl; lia|].
  destruct (Z.eq_dec pl 31) as [->|]; [simpl; lia|].
  assert (Hb4 : 4 <= block) by (apply (Z.pow_le_mono_r 2 2 (32 - pl)); lia).
  destruct (Z.eqb_spec (if 31 <=? 32 - pl then u32_max else Z.max 0 (Z.shiftl 1 (32 - pl) - 2)) 0)
    as [Hz|_].
  { exfalso. revert Hz. destruct (31 <=? 32 - pl); [done|].
    rewrite Z.shiftl_mul_pow2 by lia. fold block. lia. }
  assert (Hel : forall a, a ∈ hosts net (Z.lor net (u32_max - netmask pl)) g <->
    net < a < net + block - 1 /\ a <> g) by (intros a; by rewrite hosts_elem, Hbroad).
  destruct (hosts net _ g) as [|x l] eqn:Eh.
  { exfalso. assert (net + 1 <> g \/ net + 2 <> g) as [H|H] by lia;
      [apply (not_elem_of_nil (net + 1))|apply (not_elem_of_nil (net + 2))]; apply Hel; lia. }
  split; [lia|]. split; [done|]. split; [rewrite <- Eh; apply empty_pool_inv|]. split; [done|].
  exact Hel.
Qed.

Lemma with_seed_spec_witness :
  exists p, with_seed 0x0A420000 30 0x0A420001 7 = Ok p /\
    1 <= 30 <= 30 /\ 0x0A420001 / 2 ^ (32 - 30) = 0x0A420000 / 2 ^ (32 - 30) /\ PInv p /\
    network p = 2 ^ (32 - 30) * (0x0A420000 / 2 ^ (32 - 30)) /\
    forall a, a ∈ free p <-> network p < a < network p + 2 ^ (32 - 30) - 1 /\ a <> 0x0A420001.
Proof.
  eexists. split; [vm_compute; reflexivity|].
  pose proof (with_seed_spec 0x0A420000 30 0x0A420001 7 ltac:(unfold in_width; lia)
    ltac:(unfold in_width; lia) ltac:(unfold in_width; lia)) as H.
  cbv zeta in H. assert (E : with_seed 0x0A420000 30 0x0A420001 7 = ltac:(let x := eval vm_compute in
    (with_seed 0x0A420000 30 0x0A420001 7) in exact x)) by (vm_compute; reflexivity).
  rewrite E in H. exact H.
Defined.

(** ** Every operation keeps the pool well formed *)

Lemma with_seed_inv n pl g seed p : with_seed n pl g seed = Ok p -> PInv p.
Proof.
  unfold with_seed. destruct (_ || _); [done|]. destruct (negb _); [done|].
  destruct (_ =? 0); [done|]. destruct (hosts _ _ _) eqn:Eh; [done|]. intros [= <-].
  rewrite <- Eh. apply empty_pool_inv.
Qed.

Lemma allocate_spec c p p' r :
  PInv p -> Holdings.address_of (used p) c = None -> allocate c p = (p', r) ->
  PInv p' /\ same_pool p p' /\
  match r with
  | Some addr => granted p c None addr p' false
  | None => leases (used p') = leases (used p) /\ forall a, a ∈ free p -> claimed p a = true
  end.
Proof.
  intros HI Hc. unfold allocate. rewrite Hc.
  destruct (pop_random p) as [p1 popped] eqn:E.
  apply pop_random_spec in E as [(l & s & ->) Hr]; [|done]. destruct popped as [addr|].
  - intros [= <- <-]. destruct Hr as (HI1 & Hf & Hcl).
    by destruct (hold_taken c addr None p l s HI HI1 Hc Hf) as (? & ? & ?); [rewrite Hcl|].
  - intros [= <- <-]. by destruct Hr.
Qed.

Lemma release_fields c p :
  exists h r, Holdings.release c (used p) = (h, r) /\
    release c p = set_free (match r with Some (addr, true) => free p ++ [addr] | _ => free p end)
                    (set_used h p).
Proof.
  unfold release. destruct (Holdings.release c (used p)) as [h r]. exists h, r. split; [done|].
  destruct r as [[addr []]|]; [done| |]; by destruct p.
Qed.

(** What a release leaves free. *)
Lemma release_free c p h r :
  PInv p -> Holdings.release c (used p) = (h, r) ->
  forall a, a ∈ (match r with Some (addr, true) => free p ++ [addr] | _ => free p end) <->
    a ∈ free p \/ (by_conn (used p) !! c = Some a /\ forall d, d <> c -> by_conn (used p) !! d <> Some a).
Proof.
  intros HI Hr a. pose proof (pi_used _ _ HI) as Hu.
  destruct (by_conn (used p) !! c) as [x|] eqn:Ec.
  - destruct (Holdings.release_known _ _ _ Hu Ec) as [v Hv].
    pose proof (Holdings.release_vacated _ _ _ _ Hu Hv) as [_ Hvac].
    rewrite Hr in Hv. simpl in Hv. subst r. destruct v.
    + rewrite elem_of_app, list_elem_of_singleton. naive_solver.
    + split; [by left|]. intros [?|[[= ->] Hd]]; [done|]. by apply Hvac in Hd.
  - pose proof (Holdings.release_unknown _ _ Ec) as Hv. rewrite Hr in Hv. simpl in Hv. subst r.
    naive_solver.
Qed.

Lemma release_pool_inv c p : PInv p -> PInv (release c p).
Proof.
  intros HI. destruct (release_fields c p) as (h & r & Hr & ->).
  pose proof (release_free c p h r HI Hr) as Hfree. pose proof (pi_used _ _ HI) as Hu.
  assert (Hh : h = fst (Holdings.release c (used p))) by (by rewrite Hr).
  assert (Hle : leases h = delete c (leases (used p))) by (rewrite Hh; apply Holdings.release_leases).
  assert (Hb : by_conn h = delete c (by_conn (used p))) by (rewrite Hh; apply Holdings.release_by_conn).
  set (fr := match r with Some (addr, true) => _ | _ => _ end) in *.
  assert (Hdel : forall d a, by_conn h !! d = Some a <-> d <> c /\ by_conn (used p) !! d = Some a).
  { intros d a. rewrite Hb, lookup_delete_Some. naive_solver. }
  assert (Hlsub : forall d x, leases h !! d = Some x -> leases (used p) !! d = Some x).
  { intros d x. rewrite Hle. by intros [_ ?]%lookup_delete_Some. }
  split; simpl; try apply HI.
  - rewrite Hh. by apply Holdings.release_inv.
  - rewrite Hh. apply Holdings.release_one_key, HI.
  - unfold fr. destruct r as [[addr []]|]; try apply (pi_nodup _ _ HI).
    apply NoDup_app. split; [apply (pi_nodup _ _ HI)|]. split; [|apply NoDup_singleton].
    intros x Hx Ha. apply list_elem_of_singleton in Ha as ->.
    assert (Hv : snd (Holdings.release c (used p)) = Some (addr, true)) by (by rewrite Hr).
    apply Holdings.release_vacated in Hv as [Hv _]; [|done].
    apply (pi_free _ _ HI) in Hx as [_ Hx]. by apply (Hx c).
  - intros a Ha. split; [done|]. intros d [Hne Hd]%Hdel.
    apply Hfree in Ha as [Ha|[_ Ha]]; [|by apply (Ha d)].
    apply (pi_free _ _ HI) in Ha as [_ Ha]. by apply (Ha d).
  - done.
  - intros a. etrans; [apply (pi_cover _ _ HI a)|]. rewrite Hfree. split.
    + intros [?|[?|[d Hd]]]; [auto|done|].
      destruct (decide (map_Forall (fun e x => e <> c -> x <> a) (by_conn (used p)))) as [Hno|Hex].
      * left; right. assert (d = c) as ->.
        { destruct (decide (d = c)) as [|Hne]; [done|]. by destruct (Hno d a Hd Hne). }
        split; [done|]. intros e Hne He. by apply (Hno e a He Hne).
      * apply map_not_Forall in Hex as (e & x & He & Hx); [|apply _].
        right; right. exists e. apply Hdel. destruct (decide (e = c)), (decide (x = a)); naive_solver.
    + intros [[?|[Hc _]]|[?|[d [_ Hd]%Hdel]]]; eauto.
  - intros rc a Hrc Ha. left. apply Hfree. left.
    by destruct (pi_reclaim _ _ HI rc a Hrc Ha).
  - intros Hs d a o Hd. apply (pi_last _ _ HI Hs d). by apply Hlsub.
Qed.

Lemma transfer_fields from to p :
  from <> to ->
  used (transfer_owner from to p) = Holdings.transfer_owner from to (used p) /\
  free (transfer_owner from to p) = free p /\ reclaim (transfer_owner from to p) = reclaim p /\
  last_holder (transfer_owner from to p)
    = (fun o : option Z => if bool_decide (o = Some from) then Some to else o) <$> last_holder p /\
  same_pool p (transfer_owner from to p) /\
  sticky (transfer_owner from to p) = move_binding (sticky p) from to.
Proof. intros Hne. unfold transfer_owner. by destruct (Z.eqb_spec from to). Qed.

Lemma transfer_pool_inv from to p : PInv p -> PInv (transfer_owner from to p).
Proof.
  intros HI. destruct (decide (from = to)) as [->|Hne].
  { unfold transfer_owner. by rewrite Z.eqb_refl. }
  destruct (transfer_fields from to p Hne) as (Hu & Hf & Hr & Hl & Hsame & Hst).
  pose proof (same_pool_hosts _ _ Hsame) as Hh. destruct Hsame as (_ & _ & _ & Hcl).
  destruct (move_binding_spec (sticky p) from to (pi_sticky _ _ HI)) as [Hi Hmv].
  split; rewrite ?Hu, ?Hf, ?Hr, ?Hl, ?Hh, ?Hcl, ?Hst; try apply HI.
  - apply Holdings.transfer_inv, HI.
  - apply Holdings.transfer_one_key, HI.
  - done.
  - intros k a (k' & Hk)%Hmv. by eapply (pi_sticky_host _ _ HI).
  - intros Hs c a o (o0 & H & ->)%Holdings.transfer_lease. rewrite lookup_fmap.
    rewrite (pi_last _ _ HI Hs c a o0 H). simpl. f_equal.
    destruct o0 as [x|]; simpl; [|done]. destruct (Z.eqb_spec x from) as [->|].
    + by rewrite bool_decide_true.
    + by rewrite bool_decide_false by congruence.
Qed.

Lemma enable_reclaim_inv addrs now p : PInv p -> PInv (enable_restart_reclaim addrs now p).
Proof.
  intros HI. split; simpl; try apply HI. intros r a [= <-] Ha. simpl in Ha. left.
  apply elem_of_list_to_set, list_elem_of_filter in Ha as [Ha _].
  by apply elem_of_list_to_set in Ha.
Qed.

(** ** Reachable pools *)

(** One call on the pool.  Claims are wired on a pool that serves nobody yet; from
    then on the deployer's answers may change at any time. *)
Inductive pool_step : t -> t -> Prop :=
| step_allocate c p : pool_step p (fst (allocate c p))
| step_allocate_at c k intent now may p : pool_step p (fst (allocate_at c k intent now may p))
| step_release c p : pool_step p (release c p)
| step_transfer from to p : pool_step p (transfer_owner from to p)
| step_reclaim addrs now p : pool_step p (enable_restart_reclaim addrs now p)
| step_claims f p :
    (Holdings.by_conn (used p) = ∅ \/ is_Some (claims p)) -> pool_step p (set_address_claims f p).

Lemma pool_step_inv p p' : pool_step p p' -> PInv p -> PInv p'.
Proof.
  intros [c q|c k intent now may q|c q|from to q|addrs now q|f q Hq] HI.
  - destruct (Holdings.address_of (used q) c) eqn:Ec.
    { unfold allocate. by rewrite Ec. }
    destruct (allocate c q) as [q' r] eqn:E. by apply allocate_spec in E as (? & _).
  - destruct (Holdings.address_of (used q) c) eqn:Ec.
    { unfold allocate_at. by rewrite Ec. }
    destruct (allocate_at c k intent now may q) as [q' r] eqn:E. by apply allocate_at_spec in E as (? & _).
  - by apply release_pool_inv.
  - by apply transfer_pool_inv.
  - by apply enable_reclaim_inv.
  - split; simpl; try apply HI. intros _ c a o Hl. destruct Hq as [Hq|Hq].
    + exfalso. assert (Hb : by_conn (used q) !! c = Some a) by (apply held_lease; eauto).
      by rewrite Hq, lookup_empty in Hb.
    + by apply (pi_last _ _ HI Hq c).
Qed.

(** A pool some sequence of calls can reach from a newly built one. *)
Definition reachable p : Prop :=
  exists n pl g seed p0, with_seed n pl g seed = Ok p0 /\ rtc pool_step p0 p.

Lemma reachable_inv p : reachable p -> PInv p.
Proof.
  intros (n & pl & g & seed & p0 & H0 & H). apply with_seed_inv in H0.
  induction H as [|p1 p2 p3 Hs _ IH]; [done|]. apply IH. by eapply pool_step_inv.
Qed.

(** The pool's invariant: in every reachable pool the free list, without
    repetition, and the held addresses partition the hosts of the subnet; no
    address is sticky for two keys; what a restart may reclaim was handed to
    nobody; and with claims wired the recorded last holder of a held address is
    the key that holds it. *)
Theorem reachable_pool_inv p :
  reachable p ->
  NoDup (free p) /\
  (forall a, a ∈ pool_hosts p <-> a ∈ free p \/ Holdings.is_held (used p) a = true) /\
  (forall a, a ∈ free p -> Holdings.is_held (used p) a = false) /\
  (forall k1 k2 a, sticky p !! k1 = Some a -> sticky p !! k2 = Some a -> k1 = k2) /\
  (forall r a, reclaim p = Some r -> a ∈ eligible r -> a ∈ free p) /\
  (is_Some (claims p) -> forall c a, Holdings.address_of (used p) c = Some a ->
     last_holder p !! a = Some (Holdings.owner_of (used p) c)).
Proof.
  intros HI%reachable_inv. pose proof (pi_used _ _ HI) as Hu.
  split; [apply HI|]. split; [|split; [|split; [apply HI|split]]].
  - intros a. rewrite Holdings.is_held_spec by done. rewrite (pi_cover _ _ HI). naive_solver.
  - intros a Ha. apply not_true_is_false. rewrite Holdings.is_held_spec by done. intros [c Hc].
    apply (pi_free _ _ HI) in Ha as [_ Ha]. by apply (Ha c).
  - intros r a Hr Ha. by destruct (pi_reclaim _ _ HI r a Hr Ha).
  - intros Hs c a Hc. apply (pi_last _ _ HI Hs c). rewrite Holdings.leases_lookup.
    unfold Holdings.address_of in Hc. by rewrite Hc.
Qed.

(** C15.  No address serves two identities: in every reachable pool, two connections
    on the same address were authenticated by the same key. *)
Theorem one_key_per_address p c1 c2 a :
  reachable p -> c1 <> c2 ->
  Holdings.address_of (used p) c1 = Some a -> Holdings.address_of (used p) c2 = Some a ->
  exists k, Holdings.owner_of (used p) c1 = Some k /\ Holdings.owner_of (used p) c2 = Some k.
Proof.
  intros HI%reachable_inv Hne H1 H2. unfold Holdings.address_of, Holdings.owner_of in *.
  destruct (pi_one _ _ HI c1 c2 a (Holdings.owners (used p) !! c1) (Holdings.owners (used p) !! c2))
    as [He [k Hk]]; [| |done|]; try (rewrite Holdings.leases_lookup; by rewrite ?H1, ?H2).
  exists k. split; congruence.
Qed.

(** The sticky map is bounded by the subnet, whatever number of keys ever
    connected. *)
Theorem sticky_bounded p : reachable p -> (sticky_count p <= length (pool_hosts p))%nat.
Proof.
  intros HI%reachable_inv. unfold sticky_count. rewrite <- length_map_to_list.
  rewrite <- (length_fmap snd). apply submseteq_length, NoDup_submseteq.
  - apply NoDup_fmap_2_strong; [|apply NoDup_map_to_list].
    intros [k1 a1] [k2 a2] H1%elem_of_map_to_list H2%elem_of_map_to_list. simpl. intros ->.
    by rewrite (pi_sticky _ _ HI k1 k2 a2).
  - intros a ([k x] & -> & Hin)%list_elem_of_fmap. apply elem_of_map_to_list in Hin.
    by apply (pi_sticky_host _ _ HI) in Hin.
Qed.

(** ** What an allocation guarantees *)

(** A fresh session never shares an address: a connection that declares a new
    session, or names an address its key does not hold, is alone on the address
    it gets, so that the downlink route of that address has one session. *)
Theorem fresh_session_alone p c k intent now may p' addr :
  reachable p -> Holdings.address_of (used p) c = None ->
  intent <> Legacy -> (forall a, intent = Join a -> held_by_pubkey p a k = false) ->
  allocate_at c k intent now may p = (p', Some addr) ->
  forall d, d ∈ conns_holding p' addr <-> d = c.
Proof.
  intros HI%reachable_inv Hc Hleg Hjoin H d.
  apply allocate_at_spec in H as (HI' & _ & sh & [Hle Hg] & Hsh); [|done|done].
  destruct sh.
  { exfalso. destruct (Hsh eq_refl) as [?| ->]; [done|]. destruct Hg as (k' & [= <-] & Hk).
    by rewrite Hjoin in Hk. }
  destruct Hg as [Hf _]. unfold conns_holding.
  rewrite Holdings.holders_spec by apply (pi_used _ _ HI'). rewrite Hle. split.
  - intros [o [[<- _]|[_ Ho]]%lookup_insert_Some]; [done|]. exfalso.
    apply (pi_free _ _ HI) in Hf as [_ Hf]. apply (Hf d), held_lease. eauto.
  - intros ->. eexists. apply lookup_insert_eq.
Qed.

(** A claimed address goes to its last holder only: while something outside
    the pool routes traffic to an address, a connection is given it only when its
    key already holds it or was the last to hold it. *)
Theorem claimed_address_to_last_holder p c k intent now may p' addr :
  reachable p -> Holdings.address_of (used p) c = None ->
  allocate_at c k intent now may p = (p', Some addr) -> claimed p addr = true ->
  held_by_pubkey p addr k = true \/ last_held_by p addr k = true.
Proof.
  intros HI%reachable_inv Hc H Hcl.
  apply allocate_at_spec in H as (_ & _ & sh & [_ Hg] & _); [|done|done]. destruct sh.
  - left. by destruct Hg as (k' & [= <-] & ?).
  - right. destruct Hg as [_ Hg]. by destruct (Hg Hcl) as (k' & [= <-] & ?).
Qed.

(** An allocation fails only when it must: as long as one free address is not
    claimed, every request is given an address. *)
Theorem allocation_complete p c k intent now may a :
  reachable p -> a ∈ free p -> claimed p a = false ->
  exists p' addr, allocate_at c k intent now may p = (p', Some addr) /\
    Holdings.address_of (used p') c = Some addr.
Proof.
  intros HI%reachable_inv Ha Hcl. destruct (Holdings.address_of (used p) c) as [x|] eqn:Ec.
  { exists p, x. unfold allocate_at. by rewrite Ec. }
  destruct (allocate_at c k intent now may p) as [p' r] eqn:E.
  apply allocate_at_spec in E as (_ & _ & Hr); [|done|done]. destruct r as [addr|].
  - exists p', addr. split; [done|]. destruct Hr as (sh & [Hle _] & _).
    apply held_lease. eexists. rewrite Hle. apply lookup_insert_eq.
  - destruct Hr as [_ Hall]. by rewrite (Hall a Ha) in Hcl.
Qed.

(** A first binding takes effect. *)
Lemma bind_sticky_first k a p : sticky p !! k = None -> sticky (bind_sticky k a p) !! k = Some a.
Proof.
  intros Hk. unfold bind_sticky.
  assert (Hd : drop_stale (sticky p) k a !! k = None).
  { unfold drop_stale. destruct (List.find _ _) as [[stale ip]|]; simpl; [|done].
    destruct (Z.eqb_spec stale k) as [->|Hne]; simpl; [done|]. by rewrite lookup_delete_ne. }
  simpl. rewrite Hd. apply lookup_insert_eq.
Qed.

(** The first allocation of a key without a binding. *)
Lemma first_allocation p c k intent now may p1 addr :
  PInv p -> Holdings.address_of (used p) c = None -> sticky p !! k = None ->
  (intent = Legacy \/ intent = Fresh) ->
  allocate_at c k intent now may p = (p1, Some addr) -> sticky p1 !! k = Some addr /\ addr ∈ free p.
Proof.
  intros HI Hc Hk Hi H. unfold allocate_at in H. rewrite Hc in H.
  destruct (pop_random p) as [p2 popped] eqn:E. pose proof (pop_random_spec _ _ _ HI E) as [(l & s & ->) Hr].
  assert (Hp1 : popped = Some addr /\
    p1 = bind_sticky k addr (hold c addr (Some k) (set_free l (set_rng s p)))).
  { destruct Hi as [-> | ->]; unfold try_sticky in H; rewrite Hk, E in H;
      (destruct popped as [x|]; [|done]); by injection H as <- <-. }
  destruct Hp1 as [-> ->]. split; [|by destruct Hr as (_ & ? & _)].
  apply bind_sticky_first. by destruct (hold_fields c addr (Some k) (set_free l (set_rng s p)))
    as (_ & _ & -> & _).
Qed.

(** A sticky address that can be taken is the one served. *)
Lemma sticky_served p c k intent now may a :
  PInv p -> Holdings.address_of (used p) c = None -> (intent = Legacy \/ intent = Fresh) ->
  sticky p !! k = Some a -> a ∈ free p -> (claimed p a = true -> last_held_by p a k = true) ->
  snd (allocate_at c k intent now may p) = Some a.
Proof.
  intros HI Hc Hi Hk Hf Hcl. unfold allocate_at. rewrite Hc.
  replace (match intent with Join target => try_join c k target now may p | _ => (p, None) end)
    with (p, @None Z) by (by destruct Hi as [-> | ->]).
  unfold try_sticky. rewrite Hk. destruct (take_free a k p) as [p1 took] eqn:E.
  apply take_free_spec in E; [|done]. destruct took; [done|].
  destruct E as [_ [Hn|[H1 H2]]]; [done|]. rewrite Hcl in H2; done.
Qed.

(** A client that leaves and comes back keeps its address: after the first
    allocation of a key and the release of its connection, the key's next
    connection is served the same address. *)
Theorem reconnect_keeps_address p c c' k i1 i2 t1 t2 m1 m2 p1 addr :
  reachable p -> Holdings.address_of (used p) c = None -> Holdings.address_of (used p) c' = None ->
  sticky p !! k = None -> (i1 = Legacy \/ i1 = Fresh) -> (i2 = Legacy \/ i2 = Fresh) ->
  allocate_at c k i1 t1 m1 p = (p1, Some addr) ->
  snd (allocate_at c' k i2 t2 m2 (release c p1)) = Some addr.
Proof.
  intros HI%reachable_inv Hc Hc' Hk Hi1 Hi2 H.
  destruct (first_allocation _ _ _ _ _ _ _ _ HI Hc Hk Hi1 H) as [Hst Hf].
  apply allocate_at_spec in H as (HI1 & Hsame & sh & [Hle _] & _); [|done|done].
  assert (Hby : forall d x, by_conn (used p1) !! d = Some x <->
    (d = c /\ x = addr) \/ (d <> c /\ by_conn (used p) !! d = Some x)).
  { intros d x. rewrite held_lease, Hle. setoid_rewrite lookup_insert_Some. rewrite held_lease.
    naive_solver. }
  destruct (release_fields c p1) as (h & r & Hr & Hrel).
  pose proof (release_free c p1 h r HI1 Hr) as Hfree.
  apply sticky_served; [by apply release_pool_inv| |done| | |]; rewrite Hrel; simpl.
  - unfold Holdings.address_of. replace h with (fst (Holdings.release c (used p1))) by (by rewrite Hr).
    rewrite Holdings.release_by_conn. apply eq_None_not_Some. intros [x [Hn Hx]%lookup_delete_Some].
    apply Hby in Hx as [[-> _]|[_ Hx]]; [done|]. unfold Holdings.address_of in Hc'. congruence.
  - done.
  - apply Hfree. right. split; [apply Hby; by left|]. intros d Hne Hd.
    apply Hby in Hd as [[? _]|[_ Hd]]; [done|].
    apply (pi_free _ _ HI) in Hf as [_ Hf]. by apply (Hf d).
  - intros Hcl. unfold last_held_by. simpl. apply bool_decide_eq_true.
    apply (pi_last _ _ HI1) with c.
    + unfold claimed in Hcl. simpl in Hcl. destruct (claims p1); [eauto|done].
    + rewrite Hle. apply lookup_insert_eq.
Qed.

(** ** A small pool

    10.66.0.0/29 behind 10.66.0.1: five hosts.  Connections 1 and 2 of key 77
    share an address. *)

Definition small_pool : t :=
  match with_seed 0x0A420000 29 0x0A420001 7 with
  | Ok p => set_address_claims (fun a => a =? 0x0A420004) p
  | Err _ => mk 0 0 0 [] 0 Holdings.new ∅ None None ∅
  end.

Definition shared_pool : t :=
  fst (allocate_at 2 77 Legacy 0 false (fst (allocate_at 1 77 Legacy 0 false small_pool))).

Lemma small_pool_reachable : reachable small_pool.
Proof.
  eexists 0x0A420000, 29, 0x0A420001, 7, _. split; [vm_compute; reflexivity|].
  apply rtc_once. apply (step_claims (fun a => a =? 0x0A420004)). left. reflexivity.
Qed.

Lemma reachable_step p p' : reachable p -> pool_step p p' -> reachable p'.
Proof.
  intros (n & pl & g & seed & p0 & H0 & H) Hs. exists n, pl, g, seed, p0. split; [done|].
  by eapply rtc_r.
Qed.

Lemma shared_pool_reachable : reachable shared_pool.
Proof. do 2 (eapply reachable_step; [|apply step_allocate_at]). apply small_pool_reachable. Qed.

(** The address that connections 1 and 2 share. *)
Definition shared_addr : Z := default 0 (Holdings.address_of (used shared_pool) 1).

Lemma reachable_pool_inv_witness : NoDup (free shared_pool).
Proof. exact (proj1 (reachable_pool_inv _ shared_pool_reachable)). Defined.

Lemma one_key_per_address_witness :
  exists k, Holdings.owner_of (used shared_pool) 1 = Some k /\
            Holdings.owner_of (used shared_pool) 2 = Some k.
Proof.
  apply (one_key_per_address shared_pool 1 2 shared_addr shared_pool_reachable);
    [discriminate|vm_compute; reflexivity|vm_compute; reflexivity].
Defined.

Lemma sticky_bounded_witness : (sticky_count shared_pool <= length (pool_hosts shared_pool))%nat.
Proof. exact (sticky_bounded _ shared_pool_reachable). Defined.

Lemma fresh_session_alone_witness :
  exists p' addr, allocate_at 3 77 Fresh 0 false shared_pool = (p', Some addr) /\
    (forall d, d ∈ conns_holding p' addr <-> d = 3).
Proof.
  eexists _, _. split; [vm_compute; reflexivity|].
  apply (fresh_session_alone shared_pool 3 77 Fresh 0 false _ _ shared_pool_reachable);
    [vm_compute; reflexivity|discriminate|discriminate|vm_compute; reflexivity].
Defined.

(** Both connections left while something still routes to their address. *)
Definition claimed_pool : t :=
  set_address_claims (fun a => a =? shared_addr) (release 2 (release 1 shared_pool)).

Lemma claimed_pool_reachable : reachable claimed_pool.
Proof.
  eapply reachable_step.
  - do 2 (eapply reachable_step; [|apply step_release]). apply shared_pool_reachable.
  - apply step_claims. left. vm_compute. reflexivity.
Qed.

Lemma claimed_address_to_last_holder_witness :
  exists p', allocate_at 5 77 Fresh 0 false claimed_pool = (p', Some shared_addr) /\
    (held_by_pubkey claimed_pool shared_addr 77 = true \/
     last_held_by claimed_pool shared_addr 77 = true).
Proof.
  eexists. split; [vm_compute; reflexivity|].
  apply (claimed_address_to_last_holder claimed_pool 5 77 Fresh 0 false
           (fst (allocate_at 5 77 Fresh 0 false claimed_pool)) _ claimed_pool_reachable);
    [vm_compute; reflexivity|vm_compute; reflexivity|vm_compute; reflexivity].
Defined.

Lemma allocation_complete_witness :
  exists p' addr, allocate_at 9 80 (Join 0) 0 true small_pool = (p', Some addr) /\
    Holdings.address_of (used p') 9 = Some addr.
Proof.
  apply (allocation_complete small_pool 9 80 (Join 0) 0 true 0x0A420002 small_pool_reachable);
    [apply (bool_decide_unpack _); vm_compute; exact I|vm_compute; reflexivity].
Defined.

Lemma reconnect_keeps_address_witness :
  exists p1 addr, allocate_at 1 77 Fresh 0 false small_pool = (p1, Some addr) /\
    snd (allocate_at 6 77 Legacy 0 false (release 1 p1)) = Some addr.
Proof.
  eexists _, _. split; [vm_compute; reflexivity|].
  apply (reconnect_keeps_address small_pool 1 6 77 Fresh Legacy 0 0 false false _ _
           small_pool_reachable); try (vm_compute; reflexivity); [by right|by left].
Defined.
