(* ===== verification/IpPoolV6.v ===== *)
(** The exit's IPv6 address pool ([IpAllocatorV6] of
    [crates/warrenguard-multihop-server/src/ip_pool.rs]): interface ids drawn at
    random in a /64, the invariant of every reachable pool, and the addresses it
    hands out. *)

From S2P Require Import Prelude IpHoldings IpPool IpPoolInv.

Module IpAllocatorV6.

Record t := mk {
  network : Z;
  gateway : Z;
  rng : Z;
  recycled : list Z;
  used : Holdings.t Z;
  sticky : gmap Z Z;
}.

Definition set_rng (s : Z) (p : t) : t :=
  mk (network p) (gateway p) s (recycled p) (used p) (sticky p).
Definition set_recycled (l : list Z) (p : t) : t :=
  mk (network p) (gateway p) (rng p) l (used p) (sticky p).
Definition set_used (h : Holdings.t Z) (p : t) : t :=
  mk (network p) (gateway p) (rng p) (recycled p) h (sticky p).
Definition set_sticky (m : gmap Z Z) (p : t) : t :=
  mk (network p) (gateway p) (rng p) (recycled p) (used p) m.

Definition u128_max : Z := 2 ^ 128 - 1.

Definition with_seed (network_ipv6 seed : Z) : t :=
  let net_u128 := Z.land network_ipv6 (wrap 128 (Z.shiftl u128_max 64)) in
  mk net_u128 (Z.lor net_u128 1) (SplitMix64.new seed) [] Holdings.new ∅.

Definition addr_of (p : t) (offset : Z) : Z := Z.lor (network p) offset.

(** The bounded draw of a fresh offset. *)
Fixpoint draw_offset (tries : nat) (p : t) : t * option Z :=
  match tries with
  | O => (p, None)
  | S tries' =>
      let '(s, offset) := SplitMix64.next_u64 (rng p) in
      let p := set_rng s p in
      if offset <? 2 then draw_offset tries' p
      else if Holdings.is_held (used p) offset then draw_offset tries' p
      else (p, Some offset)
  end.

Definition pop_offset (p : t) : t * option Z :=
  match recycled p with
  | [] => draw_offset 64 p
  | _ =>
      let '(s, idx) := SplitMix64.bounded (rng p) (Z.of_nat (length (recycled p))) in
      let p := set_rng s p in
      let idx := Z.to_nat idx in
      match recycled p !! idx with
      | None => (p, None)
      | Some offset => (set_recycled (swap_remove (recycled p) idx) p, Some offset)
      end
  end.

Definition hold (conn offset : Z) (owner : option Z) (p : t) : t :=
  set_used (Holdings.hold conn offset owner (used p)) p.

Definition allocate (conn : Z) (p : t) : t * option Z :=
  match Holdings.address_of (used p) conn with
  | Some offset => (p, Some (addr_of p offset))
  | None =>
      let '(p, r) := pop_offset p in
      match r with
      | None => (p, None)
      | Some offset => (hold conn offset None p, Some (addr_of p offset))
      end
  end.

Definition held_by_pubkey (p : t) (offset pubkey : Z) : bool :=
  Holdings.held_by (used p) offset pubkey.

(** The first sibling connection of this key that holds an offset. *)
Fixpoint shared_offset (p : t) (pubkey : Z) (siblings : list Z) : option Z :=
  match siblings with
  | [] => None
  | c :: rest =>
      match (if bool_decide (Holdings.owner_of (used p) c = Some pubkey)
             then Holdings.address_of (used p) c else None) with
      | Some offset => Some offset
      | None => shared_offset p pubkey rest
      end
  end.

Definition bind_sticky (pubkey offset : Z) (p : t) : t :=
  let p := set_sticky (drop_stale (sticky p) pubkey offset) p in
  let incumbent_live :=
    match sticky p !! pubkey with Some o => held_by_pubkey p o pubkey | None => false end in
  if incumbent_live then p else set_sticky (<[pubkey := offset]> (sticky p)) p.

(** The sticky grant: the bound offset when it is recycled, or shared by a
    hint-less request. *)
Definition try_sticky (conn pubkey : Z) (legacy : bool) (p : t) : t * option Z :=
  match sticky p !! pubkey with
  | None => (p, None)
  | Some preferred =>
      match position preferred (recycled p) with
      | Some pos =>
          (hold conn preferred (Some pubkey) (set_recycled (swap_remove (recycled p) pos) p),
           Some preferred)
      | None =>
          if legacy && held_by_pubkey p preferred pubkey
          then (hold conn preferred (Some pubkey) p, Some preferred)
          else (p, None)
      end
  end.

Definition allocate_for_pubkey_with_intent (conn pubkey : Z) (intent : SessionIntentV6) (p : t)
  : t * option Z :=
  match Holdings.address_of (used p) conn with
  | Some offset => (p, Some (addr_of p offset))
  | None =>
      let shared :=
        match intent with JoinV6 siblings => shared_offset p pubkey siblings | _ => None end in
      match shared with
      | Some offset => (hold conn offset (Some pubkey) p, Some (addr_of p offset))
      | None =>
          let '(p, stuck) :=
            try_sticky conn pubkey (match intent with LegacyV6 => true | _ => false end) p in
          match stuck with
          | Some offset => (p, Some (addr_of p offset))
          | None =>
              let '(p, r) := pop_offset p in
              match r with
              | None => (p, None)
              | Some offset =>
                  (bind_sticky pubkey offset (hold conn offset (Some pubkey) p),
                   Some (addr_of p offset))
              end
          end
      end
  end.

Definition allocate_for_pubkey (conn pubkey : Z) (p : t) : t * option Z :=
  allocate_for_pubkey_with_intent conn pubkey LegacyV6 p.

Definition transfer_owner (from to : Z) (p : t) : t :=
  if from =? to then p
  else
    let p := set_used (Holdings.transfer_owner from to (used p)) p in
    set_sticky (move_binding (sticky p) from to) p.

Definition release (conn : Z) (p : t) : t :=
  let '(h, r) := Holdings.release conn (used p) in
  let p := set_used h p in
  match r with
  | Some (offset, true) => set_recycled (recycled p ++ [offset]) p
  | _ => p
  end.

Definition used_count (p : t) : nat := Holdings.len (used p).
Definition recycled_count (p : t) : nat := length (recycled p).
Definition sticky_count (p : t) : nat := size (sticky p).

End IpAllocatorV6.

Import IpAllocatorV6.
Implicit Types (p : t) (o k c : Z).

(** ** The generator stays in range *)

Lemma in_width_lxor w x y : 0 <= w -> in_width w x -> in_width w y -> in_width w (Z.lxor x y).
Proof.
  intros Hw Hx Hy. rewrite <- (wrap_small w x Hx), <- (wrap_small w y Hy). unfold wrap.
  rewrite <- !Z.land_ones by done.
  replace (Z.lxor (Z.land x (Z.ones w)) (Z.land y (Z.ones w))) with (wrap w (Z.lxor x y)).
  - by apply wrap_in_width.
  - unfold wrap. rewrite <- Z.land_ones by done. apply Z.bits_inj'. intros i Hi.
    rewrite !Z.land_spec, !Z.lxor_spec, !Z.land_spec.
    by destruct (Z.testbit x i), (Z.testbit y i), (Z.testbit (Z.ones w) i).
Qed.

Lemma next_u64_width s s' x : SplitMix64.next_u64 s = (s', x) -> in_width 64 x.
Proof.
  intros [= <- <-]. apply in_width_lxor; [done| |apply in_width_shiftr; [done|]];
    by apply wrap_in_width.
Qed.

(** ** The invariant *)

Definition known (out : option Z) p o : Prop :=
  o ∈ recycled p \/ out = Some o \/ exists c, Holdings.by_conn (used p) !! c = Some o.

Record VInvX (out : option Z) p : Prop := mkVInv {
  vi_used : Holdings.HInv (used p);
  vi_one : Holdings.one_key (used p);
  (** the recycled offsets, the held ones and the one in hand are disjoint *)
  vi_nodup : NoDup (recycled p);
  vi_rec : forall o, o ∈ recycled p ->
    out <> Some o /\ forall c, Holdings.by_conn (used p) !! c <> Some o;
  vi_out : forall o c, out = Some o -> Holdings.by_conn (used p) !! c <> Some o;
  (** no reserved interface id *)
  vi_valid : forall o, known out p o -> 2 <= o < 2 ^ 64;
  vi_sticky : injective (sticky p);
  (** a sticky offset is recycled or held *)
  vi_known : forall k o, sticky p !! k = Some o -> known out p o;
  vi_net : exists q, network p = q * 2 ^ 64 /\ gateway p = q * 2 ^ 64 + 1;
}.

Definition VInv p : Prop := VInvX None p.

(** What no call changes. *)
Definition same_net p p' : Prop := network p' = network p /\ gateway p' = gateway p.

Lemma lor_low q x : 0 <= x < 2 ^ 64 -> Z.lor (q * 2 ^ 64) x = q * 2 ^ 64 + x.
Proof.
  intros Hx. pose proof (Z.add_lor_land (q * 2 ^ 64) x) as H.
  replace (Z.land (q * 2 ^ 64) x) with 0 in H; [lia|]. symmetry.
  rewrite <- (Z.shiftl_mul_pow2 q 64) by lia. apply Z.bits_inj'. intros i Hi.
  rewrite Z.land_spec, Z.shiftl_spec, Z.bits_0 by done.
  destruct (Z.lt_ge_cases i 64).
  - by rewrite Z.testbit_neg_r by lia.
  - rewrite (testbit_above_width 64 x i) by (done || lia). apply andb_false_r.
Qed.

Lemma with_seed_vinv n seed : 0 <= n -> VInv (with_seed n seed).
Proof.
  intros Hn.
  assert (Hnone : forall c x, Holdings.by_conn (Holdings.new (A := Z)) !! c <> Some x)
    by (intros c x; simpl; by rewrite lookup_empty).
  split; simpl.
  - apply Holdings.hinv_new.
  - apply Holdings.one_key_new.
  - constructor.
  - by intros o ?%elem_of_nil.
  - done.
  - intros o [?%elem_of_nil|[?|[c ?%Hnone]]]; done.
  - intros k1 k2 o. by rewrite lookup_empty.
  - intros k o. by rewrite lookup_empty.
  - set (m := wrap 128 (Z.shiftl u128_max 64)).
    exists (Z.land (Z.shiftr n 64) (Z.shiftr m 64)).
    assert (Hm : Z.land n m = Z.land (Z.shiftr n 64) (Z.shiftr m 64) * 2 ^ 64).
    { rewrite <- Z.shiftr_land, Z.shiftr_div_pow2 by lia.
      rewrite Z.mul_comm. apply Z_div_exact_full_2; [lia|].
      rewrite <- Z.land_ones by lia. rewrite <- Z.land_assoc.
      replace (Z.land m (Z.ones 64)) with 0 by (vm_compute; reflexivity). apply Z.land_0_r. }
    rewrite Hm. split; [done|]. by apply lor_low.
Qed.

(** ** Drawing an offset *)

Lemma draw_offset_spec n p p' r :
  Holdings.HInv (used p) -> draw_offset n p = (p', r) ->
  exists s, p' = set_rng s p /\
    forall o, r = Some o -> 2 <= o < 2 ^ 64 /\ forall c, Holdings.by_conn (used p) !! c <> Some o.
Proof.
  revert p; induction n as [|n IH]; intros p HI; cbn [draw_offset].
  { intros [= <- <-]. exists (rng p). split; [by destruct p|done]. }
  destruct (SplitMix64.next_u64 (rng p)) as [s x] eqn:En. apply next_u64_width in En.
  destruct (Z.ltb_spec x 2).
  { intros H'. apply IH in H' as (s' & -> & Hr); [|done]. eauto. }
  change (used (set_rng s p)) with (used p). destruct (Holdings.is_held (used p) x) eqn:Eh.
  { intros H'. apply IH in H' as (s' & -> & Hr); [|done]. eauto. }
  intros [= <- <-]. exists s. split; [done|]. intros o [= <-]. split; [unfold in_width in En; lia|].
  intros c Hc. assert (Ht : Holdings.is_held (used p) x = true)
    by (apply Holdings.is_held_spec; eauto). congruence.
Qed.

(** An offset in hand: recycled or fresh. *)
Lemma vtake p l s o :
  VInv p -> (recycled p ≡ₚ o :: l \/ l = recycled p /\ o ∉ recycled p /\ 2 <= o < 2 ^ 64 /\
             forall c, Holdings.by_conn (used p) !! c <> Some o) ->
  VInvX (Some o) (set_recycled l (set_rng s p)).
Proof.
  intros HI Ho.
  assert (Hin : forall x, x ∈ l \/ x = o <-> x ∈ recycled p \/ x = o).
  { intros x. destruct Ho as [Hp|(-> & _)]; [|done]. rewrite Hp, elem_of_cons. tauto. }
  assert (Hl : NoDup (o :: l)).
  { destruct Ho as [<-|(-> & Hn & _)]; [apply HI|]. constructor; [done|apply HI]. }
  apply NoDup_cons in Hl as [Hol Hnd].
  assert (Hfree : forall c, Holdings.by_conn (used p) !! c <> Some o).
  { destruct Ho as [Hp|(_ & _ & _ & ?)]; [|done]. apply (vi_rec _ _ HI). rewrite Hp. by left. }
  assert (Hval : 2 <= o < 2 ^ 64).
  { destruct Ho as [Hp|(_ & _ & ? & _)]; [|done]. apply (vi_valid _ _ HI). left. rewrite Hp. by left. }
  assert (Hknown : forall x, known None p x -> known (Some o) (set_recycled l (set_rng s p)) x).
  { intros x [Hx|[?|?]]; [|done|by right; right]. specialize (Hin x). unfold known. simpl. naive_solver. }
  assert (Hback : forall x, known (Some o) (set_recycled l (set_rng s p)) x -> x = o \/ known None p x).
  { intros x [Hx|[[= ->]|?]]; [|by left|right; by right; right]. specialize (Hin x).
    unfold known. naive_solver. }
  split; simpl; try apply HI.
  - done.
  - intros x Hx. split; [congruence|]. destruct (decide (x = o)) as [->|Hne]; [done|].
    apply (vi_rec _ _ HI). specialize (Hin x). naive_solver.
  - by intros x c [= <-].
  - intros x [->|Hx]%Hback; [done|]. by apply (vi_valid _ _ HI).
  - intros k x Hx. apply Hknown. by apply (vi_known _ _ HI k).
Qed.

Lemma set_rng_vinv p s : VInv p -> VInv (set_rng s p).
Proof. intros []. by split. Qed.

Lemma pop_offset_spec p p' r :
  VInv p -> pop_offset p = (p', r) ->
  used p' = used p /\ same_net p p' /\
  match r with Some o => VInvX (Some o) p' | None => VInv p' end.
Proof.
  intros HI. unfold pop_offset. destruct (recycled p) as [|x l] eqn:Er.
  - intros H. apply draw_offset_spec in H as (s & -> & Hr); [|apply HI].
    split; [done|]. split; [done|]. destruct r as [o|]; [|by apply set_rng_vinv].
    destruct (Hr o eq_refl) as [Hv Hn].
    replace (set_rng s p) with (set_recycled (recycled p) (set_rng s p)) by (by destruct p).
    apply vtake; [done|]. right. rewrite Er. split; [done|]. split; [apply not_elem_of_nil|done].
  - unfold SplitMix64.bounded. destruct (SplitMix64.next_u64 (rng p)) as [s y].
    cbn [recycled set_rng]. rewrite Er.
    destruct ((x :: l) !! Z.to_nat _) as [o|] eqn:Ei; intros [= <- <-].
    + split; [done|]. split; [done|]. apply vtake; [done|]. left. rewrite Er.
      by apply swap_remove_perm.
    + split; [done|]. split; [done|]. by apply set_rng_vinv.
Qed.

(** ** Holding, binding, releasing *)

Definition vfit (out : option Z) o (ow : option Z) p : Prop :=
  out = Some o \/ (out = None /\ exists k, ow = Some k /\ held_by_pubkey p o k = true).

Lemma vhold_inv out c o ow p :
  VInvX out p -> Holdings.by_conn (used p) !! c = None -> vfit out o ow p -> VInv (hold c o ow p).
Proof.
  intros HI Hc Hfit. pose proof (vi_used _ _ HI) as Hu.
  assert (Hheld : out = Some o \/ exists d, Holdings.by_conn (used p) !! d = Some o).
  { destruct Hfit as [?|(_ & k & -> & Hk)]; [by left|right].
    apply Holdings.held_by_spec in Hk as [d Hd]; [|done]. exists d. apply Holdings.leases_addr. eauto. }
  assert (Hmay : Holdings.may_hold (used p) o ow).
  { destruct Hfit as [->|(_ & k & -> & Hk)]; [left|right; eauto]. intros d. by apply (vi_out _ _ HI). }
  assert (Hout : forall x, out = Some x -> x = o)
    by (intros x Hx; destruct Hfit as [|[]]; congruence).
  assert (Hnr : o ∉ recycled p).
  { intros [H1 H2]%(vi_rec _ _ HI). destruct Hheld as [?|[d Hd]]; [done|]. by apply (H2 d). }
  assert (Hk : forall x, known None (hold c o ow p) x <-> known out p x).
  { intros x. unfold known. simpl. split.
    - intros [?|[?|[d [[_ ->]|[_ Hd]]%lookup_insert_Some]]]; [by left|done| |right; right; eauto].
      destruct Hheld as [?|?]; auto.
    - intros [?|[->%Hout|[d Hd]]]; [by left|right; right; exists c; apply lookup_insert_eq|].
      right; right. exists d. rewrite lookup_insert_ne; [done|congruence]. }
  split; simpl; try apply HI.
  - by apply Holdings.hold_inv.
  - apply Holdings.hold_one_key; [done|apply HI|done|done].
  - intros x Hx. split; [done|]. intros d [[_ ->]|[_ Hd]]%lookup_insert_Some; [done|].
    apply (vi_rec _ _ HI) in Hx as [_ Hx]. by apply (Hx d).
  - done.
  - intros x Hx. apply (vi_valid _ _ HI). by apply Hk.
  - intros k x Hx. apply Hk. by apply (vi_known _ _ HI k).
Qed.

Lemma vbind_inv k o p : VInv p -> known None p o -> VInv (bind_sticky k o p).
Proof.
  intros HI Ho.
  destruct (rebind_spec (sticky p) k o (sticky (bind_sticky k o p)) (vi_sticky _ _ HI)) as [Hi Hst].
  { unfold bind_sticky. case_match; [by left|by right]. }
  assert (Hsame : used (bind_sticky k o p) = used p /\ recycled (bind_sticky k o p) = recycled p /\
    same_net p (bind_sticky k o p)) by (unfold bind_sticky; by case_match).
  destruct Hsame as (Hu & Hr & Hn & Hg).
  assert (Hk : forall x, known None (bind_sticky k o p) x <-> known None p x)
    by (intros x; unfold known; by rewrite Hu, Hr).
  split; rewrite ?Hu, ?Hr, ?Hn, ?Hg; try apply HI.
  - intros x Hx. apply (vi_valid _ _ HI). by apply Hk.
  - done.
  - intros k' x Hx. apply Hk. destruct (Hst k' x Hx) as [->|Hx']; [done|]. by apply (vi_known _ _ HI k').
Qed.

Lemma vrelease_inv c p : VInv p -> VInv (release c p).
Proof.
  intros HI. pose proof (vi_used _ _ HI) as Hu.
  pose proof (Holdings.release_vacates (used p) c Hu) as Hvac.
  pose proof (Holdings.release_inv (used p) c Hu) as HI'.
  pose proof (Holdings.release_one_key (used p) c (vi_one _ _ HI)) as Hone.
  pose proof (Holdings.release_by_conn (used p) c) as Hb.
  unfold release. destruct (Holdings.release c (used p)) as [h r]. simpl in *.
  set (rec := match r with Some (o, true) => recycled p ++ [o] | _ => recycled p end).
  replace (match r with Some (offset, true) => _ | _ => _ end) with (set_recycled rec (set_used h p))
    by (unfold rec; destruct r as [[o []]|]; by destruct p).
  assert (Hrec : forall x, x ∈ rec <-> x ∈ recycled p \/ r = Some (x, true)).
  { intros x. unfold rec. destruct r as [[o []]|]; rewrite ?elem_of_app, ?list_elem_of_singleton;
      naive_solver. }
  assert (Hdel : forall d x, Holdings.by_conn h !! d = Some x <->
    d <> c /\ Holdings.by_conn (used p) !! d = Some x).
  { intros d x. rewrite Hb, lookup_delete_Some. naive_solver. }
  assert (Hknown : forall x, known None (set_recycled rec (set_used h p)) x <-> known None p x).
  { intros x. unfold known. simpl. rewrite Hrec, Hvac. split.
    - intros [[?|[? _]]|[?|[d [_ Hd]%Hdel]]]; eauto.
    - intros [?|[?|[d Hd]]]; [by left; left|done|].
      destruct (decide (map_Forall (fun e y => e <> c -> y <> x) (Holdings.by_conn (used p))))
        as [Hno|Hex].
      + left; right. assert (d = c) as ->.
        { destruct (decide (d = c)) as [|Hne]; [done|]. by destruct (Hno d x Hd Hne). }
        split; [done|]. intros e Hne He. by apply (Hno e x He Hne).
      + apply map_not_Forall in Hex as (e & y & He & Hy); [|apply _].
        right; right. exists e. apply Hdel.
        destruct (decide (e = c)), (decide (y = x)); naive_solver. }
  split; simpl; try apply HI; try done.
  - unfold rec. destruct r as [[o []]|]; try apply (vi_nodup _ _ HI).
    apply NoDup_app. split; [apply HI|]. split; [|apply NoDup_singleton].
    intros x Hx ->%list_elem_of_singleton. apply (vi_rec _ _ HI) in Hx as [_ Hx].
    apply (Hx c). by apply Hvac.
  - intros x Hx. split; [done|]. intros d [Hne Hd]%Hdel.
    apply Hrec in Hx as [Hx|Hx]; [apply (vi_rec _ _ HI) in Hx as [_ Hx]|apply Hvac in Hx as [_ Hx]];
      by apply (Hx d).
  - intros x Hx. apply (vi_valid _ _ HI). by apply Hknown.
  - intros k x Hx. apply Hknown. by apply (vi_known _ _ HI k).
Qed.

Lemma vtransfer_inv from to p : VInv p -> VInv (transfer_owner from to p).
Proof.
  intros HI. unfold transfer_owner. destruct (from =? to); [done|].
  destruct (move_binding_spec (sticky p) from to (vi_sticky _ _ HI)) as [Hi Hmv].
  split; simpl; try apply HI.
  - apply Holdings.transfer_inv, HI.
  - apply Holdings.transfer_one_key, HI.
  - done.
  - intros k x (k' & Hk)%Hmv. by apply (vi_known _ _ HI k').
Qed.

(** ** Allocation *)

Lemma vgrant out c o ow p q :
  VInvX out q -> used q = used p -> same_net p q ->
  Holdings.by_conn (used p) !! c = None -> vfit out o ow q ->
  VInv (hold c o ow q) /\ same_net p (hold c o ow q) /\
  Holdings.leases (used (hold c o ow q)) = <[c := (o, ow)]> (Holdings.leases (used p)).
Proof.
  intros HI Hu Hn Hc Hfit. split; [|split; [done|]].
  - by apply (vhold_inv out); [|rewrite Hu|].
  - simpl. rewrite Hu. apply Holdings.hold_leases; [|done]. rewrite <- Hu. apply HI.
Qed.

Lemma shared_offset_held p k l o :
  VInv p -> shared_offset p k l = Some o -> held_by_pubkey p o k = true.
Proof.
  intros HI. induction l as [|c l IH]; simpl; [done|].
  case_bool_decide as Ho; [|done].
  destruct (Holdings.address_of (used p) c) as [x|] eqn:Ea; [|done]. intros [= <-].
  apply Holdings.held_by_spec; [apply HI|]. exists c. rewrite Holdings.leases_lookup.
  unfold Holdings.address_of, Holdings.owner_of in *. by rewrite Ea, Ho.
Qed.

(** Connection [c] of key [k] was given offset [o]: one nobody held, or one its
    own key holds. *)
Definition vgranted p c k o p' (sh : bool) : Prop :=
  VInv p' /\ same_net p p' /\
  Holdings.leases (used p') = <[c := (o, Some k)]> (Holdings.leases (used p)) /\
  if sh then held_by_pubkey p o k = true else forall d, Holdings.by_conn (used p) !! d <> Some o.

Lemma vtry_sticky_spec c k legacy p p' r :
  VInv p -> Holdings.by_conn (used p) !! c = None -> try_sticky c k legacy p = (p', r) ->
  match r with
  | Some o => exists sh, vgranted p c k o p' sh /\ (sh = true -> legacy = true)
  | None => p' = p
  end.
Proof.
  intros HI Hc. unfold try_sticky. destruct (sticky p !! k) as [o|]; [|by intros [= <- <-]].
  destruct (position o (recycled p)) as [i|] eqn:Ei.
  - intros [= <- <-]. apply position_Some in Ei.
    assert (HX : VInvX (Some o) (set_recycled (swap_remove (recycled p) i) p)).
    { replace p with (set_rng (rng p) p) at 2 by (by destruct p). apply vtake; [done|].
      left. by apply swap_remove_perm. }
    destruct (vgrant (Some o) c o (Some k) p _ HX) as (H1 & H2 & H3); [done|done|done|by left|].
    exists false. split; [|done]. split; [done|]. split; [done|]. split; [done|].
    apply (vi_rec _ _ HI). by eapply list_elem_of_lookup_2.
  - destruct (legacy && held_by_pubkey p o k) eqn:Eh; intros [= <- <-]; [|done].
    apply andb_true_iff in Eh as [El Eh].
    destruct (vgrant None c o (Some k) p p HI) as (H1 & H2 & H3); [done|done|done|right; eauto|].
    by exists true.
Qed.

(** The tail of an allocation: a drawn offset, bound to the key. *)
Lemma vfresh_spec c k p q o :
  VInv p -> Holdings.by_conn (used p) !! c = None -> pop_offset p = (q, Some o) ->
  vgranted p c k o (bind_sticky k o (hold c o (Some k) q)) false /\ addr_of q o = addr_of p o.
Proof.
  intros HI Hc Ep. apply pop_offset_spec in Ep as (Hu & Hn & Hr); [|done].
  destruct (vgrant (Some o) c o (Some k) p q Hr Hu Hn Hc) as (H1 & H2 & H3); [by left|].
  assert (Hko : known None (hold c o (Some k) q) o)
    by (right; right; exists c; apply lookup_insert_eq).
  assert (Hsame : used (bind_sticky k o (hold c o (Some k) q)) = used (hold c o (Some k) q) /\
    same_net (hold c o (Some k) q) (bind_sticky k o (hold c o (Some k) q)))
    by (unfold bind_sticky; by case_match).
  destruct Hsame as [Hu' [Hn1 Hn2]]. split.
  - split; [by apply vbind_inv|]. split; [destruct H2; split; congruence|].
    split; [by rewrite Hu'|]. intros d. rewrite <- Hu. by apply (vi_out _ _ Hr).
  - unfold addr_of. by destruct Hn as [-> _].
Qed.

(** What an allocation does: the new lease, and whether it shares. *)
Lemma v6_allocate_spec c k intent p p' r :
  VInv p -> Holdings.address_of (used p) c = None ->
  allocate_for_pubkey_with_intent c k intent p = (p', r) ->
  match r with
  | Some x => exists o sh, x = addr_of p o /\ vgranted p c k o p' sh /\ (sh = true -> intent <> FreshV6)
  | None => VInv p' /\ same_net p p'
  end.
Proof.
  intros HI Hc. unfold allocate_for_pubkey_with_intent. rewrite Hc. unfold Holdings.address_of in Hc.
  destruct (match intent with JoinV6 l => shared_offset p k l | _ => None end) as [o|] eqn:Es.
  { intros [= <- <-]. destruct intent as [| |l]; [done|done|].
    apply shared_offset_held in Es; [|done].
    destruct (vgrant None c o (Some k) p p HI) as (H1 & H2 & H3); [done|done|done|right; eauto|].
    by exists o, true. }
  destruct (try_sticky c k _ p) as [q stuck] eqn:Et.
  apply vtry_sticky_spec in Et; [|done|done]. destruct stuck as [o|].
  { intros [= <- <-]. destruct Et as (sh & Hg & Hsh). exists o, sh.
    split; [unfold addr_of; by destruct Hg as (_ & [-> _] & _)|]. split; [done|].
    intros Ht%Hsh. by destruct intent. }
  subst q. destruct (pop_offset p) as [q popped] eqn:Ep. destruct popped as [o|]; intros [= <- <-].
  - destruct (vfresh_spec c k p q o HI Hc Ep) as [Hg Ha]. by exists o, false.
  - by apply pop_offset_spec in Ep as (_ & ? & ?).
Qed.

Lemma v6_allocate_keyless_inv c p : VInv p -> VInv (fst (allocate c p)).
Proof.
  intros HI. unfold allocate. destruct (Holdings.address_of (used p) c) as [o|] eqn:Ec; [done|].
  destruct (pop_offset p) as [q [o|]] eqn:Ep; apply pop_offset_spec in Ep as (Hu & Hn & Hr); try done.
  simpl. by destruct (vgrant (Some o) c o None p q Hr Hu Hn Ec) as (? & _); [left|].
Qed.

(** ** Reachable pools *)

Inductive v6_step : t -> t -> Prop :=
| v6_allocate c p : v6_step p (fst (allocate c p))
| v6_allocate_keyed c k intent p : v6_step p (fst (allocate_for_pubkey_with_intent c k intent p))
| v6_transfer from to p : v6_step p (transfer_owner from to p)
| v6_release c p : v6_step p (release c p).

Definition v6_reachable p : Prop :=
  exists n seed, 0 <= n /\ rtc v6_step (with_seed n seed) p.

Lemma v6_reachable_inv p : v6_reachable p -> VInv p.
Proof.
  intros (n & seed & Hn & H). pose proof (with_seed_vinv n seed Hn) as HI.
  induction H as [|p1 p2 p3 Hs _ IH]; [done|]. apply IH.
  destruct Hs as [c q|c k intent q|from to q|c q].
  - by apply v6_allocate_keyless_inv.
  - destruct (Holdings.address_of (used q) c) eqn:Ec.
    { unfold allocate_for_pubkey_with_intent. by rewrite Ec. }
    destruct (allocate_for_pubkey_with_intent c k intent q) as [q' [x|]] eqn:E;
      apply v6_allocate_spec in E; try done; [|tauto].
    by destruct E as (o & sh & _ & (? & _) & _).
  - by apply vtransfer_inv.
  - by apply vrelease_inv.
Qed.

(** The IPv6 pool's invariant: in every reachable pool two connections on one
    interface id were authenticated by one key, no held id is queued for reuse, no
    reserved id (network or gateway) is ever held or queued, and no id is sticky
    for two keys. *)
Theorem v6_pool_inv p :
  v6_reachable p ->
  (forall c1 c2 o, c1 <> c2 ->
     Holdings.address_of (used p) c1 = Some o -> Holdings.address_of (used p) c2 = Some o ->
     exists k, Holdings.owner_of (used p) c1 = Some k /\ Holdings.owner_of (used p) c2 = Some k) /\
  NoDup (recycled p) /\
  (forall o, o ∈ recycled p -> Holdings.is_held (used p) o = false) /\
  (forall o, o ∈ recycled p \/ Holdings.is_held (used p) o = true -> 2 <= o < 2 ^ 64) /\
  injective (sticky p).
Proof.
  intros HI%v6_reachable_inv. pose proof (vi_used _ _ HI) as Hu. split; [|split; [apply HI|split; [|split]]].
  - intros c1 c2 o Hne H1 H2. unfold Holdings.address_of, Holdings.owner_of in *.
    destruct (vi_one _ _ HI c1 c2 o (Holdings.owners (used p) !! c1) (Holdings.owners (used p) !! c2))
      as [He [k Hk]]; [| |done|]; try (rewrite Holdings.leases_lookup; by rewrite ?H1, ?H2).
    exists k. split; congruence.
  - intros o Ho. apply not_true_is_false. rewrite Holdings.is_held_spec by done. intros [c Hc].
    apply (vi_rec _ _ HI) in Ho as [_ Ho]. by apply (Ho c).
  - intros o Ho. apply (vi_valid _ _ HI). rewrite Holdings.is_held_spec in Ho by done.
    destruct Ho; [by left|by right; right].
  - apply HI.
Qed.

(** An IPv6 allocation: the address lies in the pool's /64, is neither the
    network nor the gateway address, and its interface id is the connection's
    lease; a session that declares itself fresh is alone on it. *)
Theorem v6_allocation p c k intent p' x :
  v6_reachable p -> Holdings.address_of (used p) c = None ->
  allocate_for_pubkey_with_intent c k intent p = (p', Some x) ->
  exists o, x = network p + o /\ 2 <= o < 2 ^ 64 /\ x <> gateway p /\
    Holdings.address_of (used p') c = Some o /\
    (intent = FreshV6 -> forall d, Holdings.address_of (used p') d = Some o -> d = c).
Proof.
  intros HI%v6_reachable_inv Hc H. apply v6_allocate_spec in H as (o & sh & -> & Hg & Hsh); [|done|done].
  destruct Hg as (HI' & [Hn Hgw] & Hle & Ho).
  assert (Ha : Holdings.by_conn (used p') !! c = Some o)
    by (apply Holdings.leases_addr; rewrite Hle; eexists; apply lookup_insert_eq).
  assert (Hv : 2 <= o < 2 ^ 64) by (apply (vi_valid _ _ HI'); right; right; eauto).
  destruct (vi_net _ _ HI) as (q & Hq & Hqg). exists o.
  assert (Hx : addr_of p o = network p + o) by (unfold addr_of; rewrite Hq; apply lor_low; lia).
  split; [done|]. split; [done|]. split; [lia|]. split; [done|].
  intros -> d Hd. apply Holdings.leases_addr in Hd as [ow Hd]. rewrite Hle in Hd.
  apply lookup_insert_Some in Hd as [[<- _]|[_ Hd]]; [done|]. destruct sh; [by destruct (Hsh eq_refl)|].
  exfalso. apply (Ho d), Holdings.leases_addr. eauto.
Qed.

(** ** fdcc:f:1::/64 *)

Definition small_v6 : t := with_seed 0xfdcc000f000100000000000000000001 3.

Definition small_v6_used : t :=
  fst (allocate_for_pubkey_with_intent 2 77 LegacyV6
    (fst (allocate_for_pubkey_with_intent 1 77 LegacyV6 small_v6))).

Lemma small_v6_reachable : v6_reachable small_v6_used.
Proof.
  exists 0xfdcc000f000100000000000000000001, 3. split; [done|].
  eapply rtc_l; [apply (v6_allocate_keyed 1 77 LegacyV6)|].
  apply rtc_once. apply (v6_allocate_keyed 2 77 LegacyV6).
Qed.

Lemma v6_pool_inv_witness : NoDup (recycled small_v6_used).
Proof. exact (proj1 (proj2 (v6_pool_inv _ small_v6_reachable))). Defined.

Lemma v6_allocation_witness :
  exists p' x o, allocate_for_pubkey_with_intent 3 77 FreshV6 small_v6_used = (p', Some x) /\
    x = network small_v6_used + o.
Proof.
  destruct (allocate_for_pubkey_with_intent 3 77 FreshV6 small_v6_used) as [p' [x|]] eqn:E.
  - destruct (v6_allocation small_v6_used 3 77 FreshV6 p' x small_v6_reachable) as (o & Ho & _);
      [vm_compute; reflexivity|exact E|]. exists p', x, o. split; [reflexivity|exact Ho].
  - vm_compute in E. discriminate E.
Defined.

(** A departed key keeps its binding, so that the number of bindings can exceed
    the number of interface ids in use. *)
Lemma sticky_outlives_use :
  let p := release 1 (fst (allocate_for_pubkey_with_intent 1 77 LegacyV6 small_v6)) in
  sticky_count p = 1%nat /\ used_count p = 0%nat.
Proof. vm_compute. split; reflexivity. Qed.
