(* ===== verification/Backoff.v ===== *)
(** Exponential backoff with jitter ([crates/warrenguard-backoff/src/lib.rs]).

    Durations are nanoseconds, at most [DURATION_MAX] ([Duration::MAX]).  The
    [rand] crate is not part of the sources: the draw of one step is an argument
    [draw], where [draw h] stands for [random_range(0..=h)]. *)

From S2P Require Import Prelude.

(** [Duration::MAX]: [u64::MAX] seconds and 999,999,999 nanoseconds. *)
Definition DURATION_MAX : Z := u64_max * NANOS_PER_SEC + 999999999.

Module Backoff.

Record t := mk {
  base : Z;
  max : Z;
}.

Definition MIN_EFFECTIVE_BASE : Z := 1.

Definition HANDSHAKE : t := mk (from_millis 500) (from_secs 15).
Definition BACKGROUND : t := mk (from_secs 1) (from_secs 60).
Definition SHORT : t := mk (from_millis 200) (from_secs 5).

(** The new [next] and the delay of this attempt. *)
Definition jitter_step (b : t) (next : Z) (draw : Z -> Z) : Z * Z :=
  if next =? 0 then
    let floor := Z.min MIN_EFFECTIVE_BASE (max b) in
    (Z.max (Z.min (base b) (max b)) floor, 0)
  else
    let current := Z.min next (max b) in
    let next' := Z.min (Z.min (current * 2) DURATION_MAX) (max b) in
    let half := current / 2 in
    let half_nanos := if half <=? u64_max then half else u64_max in
    (next', half + draw half_nanos).

Record BackoffIter := mkIter {
  iter_backoff : t;
  remaining : nat;
  iter_next : Z;
}.

Definition take (b : t) (attempts : nat) : BackoffIter := mkIter b attempts 0.

(** [Iterator::next]. *)
Definition next (it : BackoffIter) (draw : Z -> Z) : BackoffIter * option Z :=
  match remaining it with
  | O => (it, None)
  | S n =>
      let '(nx, d) := jitter_step (iter_backoff it) (iter_next it) draw in
      (mkIter (iter_backoff it) n nx, Some d)
  end.

Record JitterBackoff := mkJitter {
  jb_backoff : t;
  jb_next : Z;
}.

Definition forever (b : t) : JitterBackoff := mkJitter b 0.

Definition next_delay (j : JitterBackoff) (draw : Z -> Z) : JitterBackoff * Z :=
  let '(nx, d) := jitter_step (jb_backoff j) (jb_next j) draw in (mkJitter (jb_backoff j) nx, d).

Definition reset (j : JitterBackoff) : JitterBackoff := mkJitter (jb_backoff j) 0.

(** The first [n] delays of an unbounded schedule; [draws i] is the source of
    randomness of attempt [i]. *)
Fixpoint delays (n : nat) (j : JitterBackoff) (draws : nat -> Z -> Z) : list Z :=
  match n with
  | O => []
  | S n' => let '(j', d) := next_delay j (draws O) in d :: delays n' j' (fun i => draws (S i))
  end.

(** Everything a finite iterator yields. *)
Fixpoint collect (fuel : nat) (it : BackoffIter) (draws : nat -> Z -> Z) : list Z :=
  match fuel with
  | O => []
  | S fuel' =>
      match next it (draws O) with
      | (_, None) => []
      | (it', Some d) => d :: collect fuel' it' (fun i => draws (S i))
      end
  end.

(** ** The schedule *)

(** The documented behaviour of [random_range(0..=h)]. *)
Definition draws_ok (draws : nat -> Z -> Z) : Prop :=
  forall i h, 0 <= h -> 0 <= draws i h <= h.

Definition valid (b : t) : Prop := 0 <= base b <= DURATION_MAX /\ 0 <= max b <= DURATION_MAX.

(** The jitter's upper end at retry [i]: the base, floored at one nanosecond,
    doubled [i] times and capped. *)
Definition envelope (b : t) (i : nat) : Z :=
  Z.min (max b) (Z.max (Z.min (base b) (max b)) (Z.min MIN_EFFECTIVE_BASE (max b)) * 2 ^ Z.of_nat i).

Lemma envelope_0 b : valid b -> envelope b 0 = Z.max (Z.min (base b) (max b)) (Z.min 1 (max b)).
Proof. intros [Hb Hm]. unfold envelope, MIN_EFFECTIVE_BASE. simpl. lia. Qed.

Lemma envelope_S b i : valid b -> envelope b (S i) = Z.min (envelope b i * 2) (max b).
Proof.
  intros [Hb Hm]. unfold envelope. rewrite Nat2Z.inj_succ, Z.pow_succ_r by lia.
  assert (0 < 2 ^ Z.of_nat i) by (apply Z.pow_pos_nonneg; lia).
  set (s := Z.max _ _). set (q := 2 ^ Z.of_nat i) in *. nia.
Qed.

Lemma envelope_bounds b i : valid b -> 0 <= envelope b i <= max b.
Proof.
  intros Hv. pose proof Hv as [Hb Hm].
  induction i as [|i IH]; [rewrite envelope_0 by done; lia|rewrite envelope_S by done; lia].
Qed.

Lemma envelope_pos b i : valid b -> 0 < max b -> 0 < envelope b i.
Proof.
  intros Hv Hm. pose proof Hv as [Hb _].
  induction i as [|i IH]; [rewrite envelope_0 by done; lia|rewrite envelope_S by done; lia].
Qed.

(** One retry at envelope [i] draws from the upper half and moves to the next. *)
Lemma step_at_envelope b i draw :
  valid b -> 0 < max b -> (forall h, 0 <= h -> 0 <= draw h <= h) ->
  exists d, jitter_step b (envelope b i) draw = (envelope b (S i), d) /\
    envelope b i / 2 <= d <= envelope b i.
Proof.
  intros Hv Hm Hd. pose proof (envelope_pos b i Hv Hm) as Hp.
  pose proof (envelope_bounds b i Hv) as He. pose proof Hv as [_ [_ Hmax]].
  unfold jitter_step. destruct (Z.eqb_spec (envelope b i) 0); [lia|].
  rewrite (Z.min_l (envelope b i)) by lia. rewrite envelope_S by done. eexists. split.
  { f_equal. lia. }
  assert (Hh : 0 <= envelope b i / 2) by (apply Z.div_pos; lia).
  pose proof (Z.mul_div_le (envelope b i) 2 ltac:(lia)).
  destruct (Z.leb_spec (envelope b i / 2) u64_max).
  - specialize (Hd (envelope b i / 2) Hh). lia.
  - specialize (Hd u64_max ltac:(unfold u64_max; lia)). unfold u64_max in *. lia.
Qed.

Lemma delays_from_envelope b n i draws k :
  valid b -> 0 < max b -> draws_ok draws -> (k < n)%nat ->
  exists d, delays n (mkJitter b (envelope b i)) draws !! k = Some d /\
    envelope b (i + k) / 2 <= d <= envelope b (i + k).
Proof.
  revert i draws k; induction n as [|n IH]; intros i draws k Hv Hm Hd Hk; [lia|].
  cbn [delays]. unfold next_delay. cbn [jb_backoff jb_next].
  destruct (step_at_envelope b i (draws O) Hv Hm (Hd O)) as (d & -> & Hb).
  destruct k as [|k].
  - exists d. rewrite Nat.add_0_r. done.
  - replace (i + S k)%nat with (S i + k)%nat by lia.
    apply IH; [done|done|by intros i' h; apply (Hd (S i'))|lia].
Qed.

Lemma delays_forever b n draws :
  valid b ->
  delays (S n) (forever b) draws = 0 :: delays n (mkJitter b (envelope b 0)) (fun i => draws (S i)).
Proof. intros Hv. by rewrite envelope_0. Qed.

(** The delay law: the first attempt fires at once, retry [i + 1] waits between
    half of its envelope and the envelope, the envelope doubles from the base up
    to the ceiling, and no delay exceeds the ceiling. *)
Theorem delays_follow_envelope b n draws :
  valid b -> 0 < max b -> draws_ok draws ->
  (delays (S n) (forever b) draws !! O = Some 0) /\
  (forall i, (i < n)%nat -> exists d, delays (S n) (forever b) draws !! S i = Some d /\
     envelope b i / 2 <= d <= envelope b i /\ envelope b i <= max b).
Proof.
  intros Hv Hm Hd. rewrite delays_forever by done. split; [done|]. intros i Hi.
  destruct (delays_from_envelope b n 0 (fun i => draws (S i)) i Hv Hm) as (d & Hdl & Hb);
    [by intros i' h; apply (Hd (S i'))|done|].
  exists d. split; [exact Hdl|]. pose proof (envelope_bounds b i Hv). simpl in Hb. lia.
Qed.

Lemma delays_follow_envelope_witness :
  exists d, delays 4 (forever HANDSHAKE) (fun _ h => h / 3) !! 3%nat = Some d /\
    envelope HANDSHAKE 2 / 2 <= d <= envelope HANDSHAKE 2 /\ envelope HANDSHAKE 2 <= max HANDSHAKE.
Proof.
  apply (delays_follow_envelope HANDSHAKE 3 (fun _ h => h / 3)).
  - split; split; vm_compute; discriminate.
  - vm_compute. reflexivity.
  - intros i h Hh. split; [apply Z.div_pos; lia|apply Z.div_le_upper_bound; lia].
  - lia.
Defined.

(** The envelope doubles until it meets the ceiling. *)
Lemma envelope_grows b i : valid b -> 0 < max b -> Z.min (max b) (2 ^ Z.of_nat i) <= envelope b i.
Proof.
  intros Hv Hm. induction i as [|i IH].
  - rewrite envelope_0 by done. destruct Hv as [Hb _]. simpl. lia.
  - rewrite envelope_S by done. rewrite Nat2Z.inj_succ, Z.pow_succ_r by lia. lia.
Qed.

(** Progress: whatever the base, zero included, the schedule escalates: once
    the doubling has passed the ceiling every delay is at least half of it, so
    that a misconfigured base never makes a busy retry loop. *)
Theorem backoff_escalates b n i draws :
  valid b -> 2 <= max b -> draws_ok draws -> max b <= 2 ^ Z.of_nat i -> (i < n)%nat ->
  exists d, delays (S n) (forever b) draws !! S i = Some d /\ 0 < max b / 2 <= d.
Proof.
  intros Hv Hm Hd Hi Hn.
  destruct (delays_from_envelope b n 0 (fun i => draws (S i)) i Hv) as (d & Hdl & Hb);
    [lia|by intros i' h; apply (Hd (S i'))|done|].
  exists d. rewrite delays_forever by done. split; [done|].
  pose proof (envelope_grows b i Hv ltac:(lia)). pose proof (envelope_bounds b i Hv).
  simpl in Hb. replace (envelope b i) with (max b) in Hb by lia.
  split; [|lia]. apply Z.div_str_pos. lia.
Qed.

Lemma backoff_escalates_witness :
  exists d, delays 36 (forever (mk 0 (from_secs 15))) (fun _ _ => 0) !! 35%nat = Some d /\
    0 < from_secs 15 / 2 <= d.
Proof.
  apply (backoff_escalates (mk 0 (from_secs 15)) 35 34 (fun _ _ => 0)).
  - split; split; vm_compute; discriminate.
  - vm_compute. discriminate.
  - intros i h Hh. lia.
  - vm_compute. discriminate.
  - lia.
Defined.

(** The finite iterator yields as many delays as asked, of the same law. *)
Lemma collect_delays n b nx draws :
  collect (S n) (mkIter b n nx) draws = delays n (mkJitter b nx) draws.
Proof.
  revert nx draws; induction n as [|n IH]; intros nx draws; [done|].
  cbn [collect delays]. unfold next, next_delay. cbn [remaining iter_backoff iter_next jb_backoff jb_next].
  destruct (jitter_step b nx (draws O)) as [nx' d]. f_equal.
  exact (IH nx' (fun i => draws (S i))).
Qed.

End Backoff.
