(* ===== verification/ConnectionLimiter.v ===== *)
(** Per-key connection-attempt rate limiter
    ([crates/warrenguard-ratelimit/src/connection_limiter.rs]).

    Keys are numbers, instants and durations nanoseconds.  Counters saturate at 32
    bits as in the code.  The instants the code computes lie between instants it
    was given, so that [checked_add] always succeeds and is an addition here. *)

From S2P Require Import Prelude Backoff.

Module ConnectionLimiter.

Record State := mkState {
  tokens : Z;
  last_refill : Z;
}.

Record Tracked := mkTracked {
  keys : gmap Z State;
  last_reclaim : option Z;
}.

Record t := mk {
  burst : Z;
  refill_interval : Z;
  max_tracked : nat;
  state : Tracked;
}.

Definition MAX_TRACKED_KEYS : nat := Z.to_nat 1000000.
Definition RECLAIM_MIN_INTERVAL : Z := from_secs 1.

(** [None] is the panic on a zero burst or interval. *)
Definition with_max_tracked (burst refill_interval : Z) (max_tracked : nat) : option t :=
  if (0 <? burst) && negb (refill_interval =? 0)
  then Some (mk burst refill_interval max_tracked (mkTracked ∅ None))
  else None.

Definition new (burst refill_interval : Z) : option t :=
  with_max_tracked burst refill_interval MAX_TRACKED_KEYS.

Definition with_state (s : Tracked) (l : t) : t :=
  mk (burst l) (refill_interval l) (max_tracked l) s.

(** The reclaim walk of a full map. *)
Definition reclaim (l : t) (now : Z) : Tracked :=
  let s := state l in
  let walk_due :=
    match last_reclaim s with
    | None => true
    | Some r => RECLAIM_MIN_INTERVAL <=? duration_since now r
    end in
  if walk_due then
    let full_recovery := Z.min (refill_interval l * burst l) DURATION_MAX in
    mkTracked
      (filter (fun kv : Z * State => duration_since now (last_refill (snd kv)) < full_recovery) (keys s))
      (Some now)
  else s.

(** The refill of one bucket. *)
Definition refill (l : t) (now : Z) (e : State) : State :=
  let elapsed := duration_since now (last_refill e) in
  let refills :=
    if refill_interval l =? 0 then 0 else Z.min (elapsed / refill_interval l) u32_max in
  if 0 <? refills
  then mkState (Z.min (Z.min (tokens e + refills) u32_max) (burst l))
         (last_refill e + Z.min (refill_interval l * refills) DURATION_MAX)
  else e.

Definition try_acquire_at (l : t) (key now : Z) : t * bool :=
  let s := state l in
  let at_cap m := (max_tracked l <=? size m)%nat in
  let new_key := negb (bool_decide (is_Some (keys s !! key))) in
  let s := if new_key && at_cap (keys s) then reclaim l now else s in
  if new_key && at_cap (keys s) then (with_state s l, false)
  else
    let entry := refill l now (default (mkState (burst l) now) (keys s !! key)) in
    if 0 <? tokens entry
    then (with_state (mkTracked (<[key := mkState (tokens entry - 1) (last_refill entry)]> (keys s))
                        (last_reclaim s)) l, true)
    else (with_state (mkTracked (<[key := entry]> (keys s)) (last_reclaim s)) l, false).

(** [Instant::now] is the reading [now]. *)
Definition try_acquire (l : t) (key now : Z) : t * bool := try_acquire_at l key now.

Definition tracked_count (l : t) : nat := size (keys (state l)).

Definition retain_active (l : t) (idle now : Z) : t :=
  with_state
    (mkTracked
       (filter (fun kv : Z * State => duration_since now (last_refill (snd kv)) < idle) (keys (state l)))
       (last_reclaim (state l))) l.

(** A run of attempts [(key, instant)], and the number granted to [k]. *)
Fixpoint run (l : t) (attempts : list (Z * Z)) (k : Z) : t * Z :=
  match attempts with
  | [] => (l, 0)
  | (key, now) :: rest =>
      let '(l, ok) := try_acquire_at l key now in
      let '(l, n) := run l rest k in
      (l, (if ok && (key =? k) then 1 else 0) + n)
  end.

(** ** The refill *)

Definition valid (l : t) : Prop :=
  0 < burst l <= u32_max /\ 0 < refill_interval l /\ refill_interval l * burst l <= DURATION_MAX.

(** A bucket at instant [now]. *)
Definition wf_state (l : t) (now : Z) (e : State) : Prop :=
  0 <= tokens e <= burst l /\ last_refill e <= now.

Lemma refill_spec l now e :
  valid l -> wf_state l now e -> now - last_refill e <= DURATION_MAX ->
  exists r, 0 <= r /\ r * refill_interval l <= now - last_refill e /\
    last_refill (refill l now e) = last_refill e + r * refill_interval l /\
    tokens (refill l now e) = Z.min (tokens e + r) (burst l) /\
    (r = 0 -> now - last_refill e < refill_interval l) /\
    (now - last_refill e < (u32_max + 1) * refill_interval l ->
     now - last_refill (refill l now e) < refill_interval l).
Proof.
  intros (Hb & Hi & _) [Ht Hl] Hmax. unfold refill, duration_since.
  destruct (Z.eqb_spec (refill_interval l) 0); [lia|].
  rewrite Z.max_r by lia. set (el := now - last_refill e) in *.
  pose proof (Z.div_pos el (refill_interval l) ltac:(lia) Hi) as Hdp.
  pose proof (Z.mul_div_le el (refill_interval l) Hi) as Hdl.
  pose proof (Z.mul_succ_div_gt el (refill_interval l) Hi) as Hdg.
  set (q := el / refill_interval l) in *. exists (Z.min q u32_max).
  assert (Hr : Z.min q u32_max * refill_interval l <= el) by nia.
  destruct (Z.ltb_spec 0 (Z.min q u32_max)) as [Hpos|Hz]; simpl.
  - rewrite (Z.min_l (refill_interval l * _)) by lia. unfold u32_max in *.
    split; [lia|]. split; [done|]. split; [lia|]. split; [lia|]. split; [lia|].
    intros Hsat. assert (q < 2 ^ 32 - 1 + 1) by nia. rewrite Z.min_l by lia. lia.
  - assert (Hq : Z.min q u32_max = 0) by (unfold u32_max in *; lia). rewrite Hq.
    assert (q = 0) by (unfold u32_max in *; lia).
    split; [lia|]. split; [lia|]. split; [lia|]. split; [lia|]. split; [lia|]. lia.
Qed.

Lemma refill_wf l now e :
  valid l -> wf_state l now e -> now - last_refill e <= DURATION_MAX -> wf_state l now (refill l now e).
Proof.
  intros Hv He Hm. destruct (refill_spec l now e Hv He Hm) as (r & Hr & Hle & Hl & Ht & _ & _).
  destruct He as [He1 He2]. destruct Hv as (Hb & Hi & _).
  split; [rewrite Ht; lia|]. rewrite Hl. lia.
Qed.

(** ** The limiter *)

(** Every bucket is well formed and was refilled after [T0]. *)
Definition good (l : t) (T0 now : Z) : Prop :=
  forall key e, keys (state l) !! key = Some e -> wf_state l now e /\ T0 <= last_refill e.

(** From [T0] to [t2] no clock computation saturates. *)
Definition horizon (l : t) (T0 t2 : Z) : Prop :=
  t2 - T0 <= DURATION_MAX /\ t2 - T0 < (u32_max + 1) * refill_interval l.

(** [l'] tracks what [l] tracked, minus buckets idle long enough to be full. *)
Definition reclaimed (l : t) (now : Z) (m : gmap Z State) : Prop :=
  forall key,
    m !! key = keys (state l) !! key \/
    (m !! key = None /\ exists e, keys (state l) !! key = Some e /\
       refill_interval l * burst l <= now - last_refill e).

Lemma reclaim_spec l now T0 now0 :
  valid l -> good l T0 now0 -> now0 <= now -> reclaimed l now (keys (reclaim l now)).
Proof.
  intros (Hb & Hi & Hf) Hg Hn key. unfold reclaim.
  destruct (match last_reclaim (state l) with None => true | Some r => _ end); [|by left]. simpl.
  destruct (keys (state l) !! key) as [e|] eqn:Ek.
  - destruct (Hg key e Ek) as [[_ Hle] _].
    destruct (decide (duration_since now (last_refill e) < Z.min (refill_interval l * burst l) DURATION_MAX))
      as [Hlt|Hge].
    + left. by apply map_lookup_filter_Some.
    + right. split; [|exists e; split; [done|unfold duration_since in Hge; lia]].
      apply map_lookup_filter_None. right. intros e' He'. rewrite Ek in He'. by injection He' as <-.
  - left. apply map_lookup_filter_None. by left.
Qed.

(** What one attempt does: the table after a possible reclaim, and the attempted
    bucket after its refill and withdrawal. *)
Lemma try_acquire_spec l key now T0 now0 l' ok :
  valid l -> good l T0 now0 -> now0 <= now -> try_acquire_at l key now = (l', ok) ->
  burst l' = burst l /\ refill_interval l' = refill_interval l /\ max_tracked l' = max_tracked l /\
  exists m, reclaimed l now m /\
    ((ok = false /\ keys (state l') = m /\ keys (state l) !! key = None /\
      (max_tracked l <= size m)%nat) \/
     (exists e, e = refill l now (default (mkState (burst l) now) (m !! key)) /\
        m !! key = keys (state l) !! key /\
        (keys (state l) !! key = None -> (size m < max_tracked l)%nat) /\
        ok = (0 <? tokens e) /\
        keys (state l') = <[key := if ok then mkState (tokens e - 1) (last_refill e) else e]> m)).
Proof.
  intros Hv Hg Hn. unfold try_acquire_at.
  assert (Hid : reclaimed l now (keys (state l))) by (intros k; by left).
  destruct (keys (state l) !! key) as [e0|] eqn:Ek.
  - rewrite bool_decide_true by eauto. cbn [negb andb]. rewrite Ek. intros H.
    assert (Hl : exists e, e = refill l now e0 /\ ok = (0 <? tokens e) /\
      l' = with_state (mkTracked (<[key := if ok then mkState (tokens e - 1) (last_refill e) else e]>
             (keys (state l))) (last_reclaim (state l))) l).
    { eexists. split; [done|]. simpl in H. destruct (0 <? tokens (refill l now e0));
        by injection H as <- <-. }
    destruct Hl as (e & -> & Hok & ->). do 3 (split; [done|]). exists (keys (state l)).
    split; [done|]. right. rewrite Ek. eexists. by do 3 (split; [done|]).
  - rewrite bool_decide_false by (by intros [? ?]). cbn [negb andb].
    set (s := if (max_tracked l <=? size (keys (state l)))%nat then reclaim l now else state l).
    assert (Hm : reclaimed l now (keys s))
      by (unfold s; case_match; [by eapply reclaim_spec|done]).
    assert (Hnone : keys s !! key = None)
      by (destruct (Hm key) as [->|[-> _]]; done).
    destruct (Nat.leb_spec (max_tracked l) (size (keys s))) as [Hcap|Hroom]; intros H.
    + injection H as <- <-. do 3 (split; [done|]). exists (keys s). split; [done|]. left. auto.
    + rewrite Hnone in H. simpl in H.
      assert (Hl : exists e, e = refill l now (mkState (burst l) now) /\ ok = (0 <? tokens e) /\
        l' = with_state (mkTracked (<[key := if ok then mkState (tokens e - 1) (last_refill e) else e]>
               (keys s)) (last_reclaim s)) l).
      { eexists. split; [done|]. destruct (0 <? tokens (refill l now (mkState (burst l) now)));
          by injection H as <- <-. }
      destruct Hl as (e & -> & Hok & ->). do 3 (split; [done|]). exists (keys s).
      split; [done|]. right. rewrite Hnone. eexists. by do 3 (split; [done|]).
Qed.

(** The credit of key [k] at [now] when [n] attempts were granted since [t1]: what
    its bucket holds, plus the grants, never exceeds a full bucket, one interval
    and the time elapsed. *)
Definition credit (l : t) (k t1 now n : Z) : Prop :=
  n = 0 \/
  match keys (state l) !! k with
  | Some e => tokens e * refill_interval l + (now - last_refill e) + n * refill_interval l
              <= burst l * refill_interval l + (refill_interval l - 1) + (now - t1)
  | None => n * refill_interval l <= refill_interval l - 1 + (now - t1)
  end.

Lemma good_reclaimed l now T0 now0 m :
  good l T0 now0 -> now0 <= now -> reclaimed l now m ->
  forall key e, m !! key = Some e -> wf_state l now e /\ T0 <= last_refill e.
Proof.
  intros Hg Hn Hm key e He. destruct (Hm key) as [Hk|[Hk _]]; [|congruence].
  rewrite Hk in He. destruct (Hg key e He) as [[Ht Hl] HT]. split; [|done]. split; [done|lia].
Qed.

Lemma attempt_good l key now T0 t2 now0 l' ok :
  valid l -> good l T0 now0 -> now0 <= now <= t2 -> horizon l T0 t2 -> T0 <= now0 ->
  try_acquire_at l key now = (l', ok) -> valid l' /\ good l' T0 now /\ horizon l' T0 t2.
Proof.
  intros Hv Hg Hn Hh HT H. destruct (try_acquire_spec _ _ _ _ _ _ _ Hv Hg (proj1 Hn) H)
    as (Hb & Hi & _ & m & Hm & Hcase).
  pose proof (good_reclaimed l now T0 now0 m Hg (proj1 Hn) Hm) as Hgm.
  unfold valid, horizon. rewrite Hb, Hi. split; [done|]. split; [|done].
  assert (Hgm' : forall k e, m !! k = Some e -> wf_state l' now e /\ T0 <= last_refill e)
    by (unfold wf_state; rewrite Hb; exact Hgm).
  destruct Hcase as [(_ & Hk & _)|(e & He & Hmk & _ & Hok & Hk)]; intros key' e'; rewrite Hk; [eauto|].
  assert (Hd : wf_state l now (default (mkState (burst l) now) (m !! key)) /\
    T0 <= last_refill (default (mkState (burst l) now) (m !! key))).
  { destruct (m !! key) as [e0|] eqn:E0; [by apply (Hgm key)|]. simpl. unfold wf_state. simpl.
    destruct Hv as (? & _). lia. }
  destruct Hd as [Hwf HT0]. set (e0 := default _ _) in *.
  assert (Hdm : now - last_refill e0 <= DURATION_MAX) by (destruct Hh; lia).
  pose proof (refill_wf l now e0 Hv Hwf Hdm) as Hwf'. rewrite <- He in Hwf'.
  destruct (refill_spec l now e0 Hv Hwf Hdm) as (r & Hr & _ & Hl & _). rewrite <- He in Hl.
  assert (HTe : T0 <= last_refill e) by (destruct Hv as (_ & ? & _); nia).
  intros [[<- <-]|[_ Hm']]%lookup_insert_Some; [|eauto]. unfold wf_state in *. rewrite Hb.
  destruct ok; simpl; [|lia]. symmetry in Hok. apply Z.ltb_lt in Hok. lia.
Qed.

(** Time and the reclaim walk keep the credit bound of the table [m]. *)
Lemma credit_reclaimed l k t1 now0 now n m T0 :
  valid l -> good l T0 now0 -> now0 <= now -> reclaimed l now m -> 0 <= n -> credit l k t1 now0 n ->
  n = 0 \/
  match m !! k with
  | Some e => tokens e * refill_interval l + (now - last_refill e) + n * refill_interval l
              <= burst l * refill_interval l + (refill_interval l - 1) + (now - t1)
  | None => n * refill_interval l <= refill_interval l - 1 + (now - t1)
  end.
Proof.
  intros Hv Hg Hn Hm Hn0 [?|Hc]; [by left|right].
  destruct (Hm k) as [->|[-> (e & He & Hidle)]].
  - destruct (keys (state l) !! k); lia.
  - rewrite He in Hc. destruct (Hg k e He) as [[Ht _] _]. destruct Hv as (_ & Hi & _).
    assert (0 <= tokens e * refill_interval l) by nia. lia.
Qed.

Lemma attempt_credit l key now T0 t2 now0 l' ok k t1 n :
  valid l -> good l T0 now0 -> t1 <= now0 -> now0 <= now <= t2 -> horizon l T0 t2 -> T0 <= now0 ->
  0 <= n -> credit l k t1 now0 n -> try_acquire_at l key now = (l', ok) ->
  credit l' k t1 now ((if ok && (key =? k) then 1 else 0) + n).
Proof.
  intros Hv Hg Ht1 Hn Hh HT Hn0 Hc H.
  destruct (try_acquire_spec _ _ _ _ _ _ _ Hv Hg (proj1 Hn) H) as (Hb & Hi & _ & m & Hm & Hcase).
  pose proof (credit_reclaimed l k t1 now0 now n m T0 Hv Hg (proj1 Hn) Hm Hn0 Hc) as Hcm.
  pose proof (good_reclaimed l now T0 now0 m Hg (proj1 Hn) Hm) as Hgm.
  unfold credit. rewrite Hb, Hi.
  destruct Hcase as [(-> & -> & _)|(e & He & Hmk & _ & Hok & ->)]; [done|].
  destruct (Z.eqb_spec key k) as [->|Hne].
  2:{ rewrite andb_false_r, Z.add_0_l. by rewrite lookup_insert_ne. }
  rewrite andb_true_r, lookup_insert_eq.
  assert (Hwf : wf_state l now (default (mkState (burst l) now) (m !! k)) /\
    T0 <= last_refill (default (mkState (burst l) now) (m !! k))).
  { destruct (m !! k) as [e0|] eqn:E0; [by apply (Hgm k)|]. simpl. unfold wf_state. simpl.
    destruct Hv as (? & _). lia. }
  assert (Hdef : n = 0 \/ let e0 := default (mkState (burst l) now) (m !! k) in
    tokens e0 * refill_interval l + (now - last_refill e0) + n * refill_interval l
    <= burst l * refill_interval l + (refill_interval l - 1) + (now - t1)).
  { destruct Hcm as [?|Hcm]; [by left|right]. destruct (m !! k); simpl in *; lia. }
  set (e0 := default _ _) in *. destruct Hwf as [Hwf HT0]. destruct Hh as [Hh1 Hh2].
  destruct (refill_spec l now e0 Hv Hwf ltac:(lia)) as (r & Hr & _ & Hl & Ht & _ & Hfrac).
  rewrite <- He in Hl, Ht, Hfrac. specialize (Hfrac ltac:(lia)). destruct Hv as (Hb0 & Hi0 & _).
  assert (Hbt : tokens e * refill_interval l <= burst l * refill_interval l) by nia.
  assert (Htr : tokens e * refill_interval l <= (tokens e0 + r) * refill_interval l) by nia.
  cbv zeta in Hdef. destruct ok; cbn [andb tokens last_refill]; [right; destruct Hdef as [->|Hdef]; lia|].
  destruct Hdef as [->|Hdef]; [by left|right]. lia.
Qed.

(** Instants that do not run backwards, up to [t2]. *)
Fixpoint chain (now : Z) (attempts : list (Z * Z)) (t2 : Z) : Prop :=
  match attempts with
  | [] => now <= t2
  | (_, t) :: rest => now <= t /\ chain t rest t2
  end.

Lemma chain_le now attempts t2 : chain now attempts t2 -> now <= t2.
Proof.
  revert now; induction attempts as [|[k t] rest IH]; intros now; simpl; [done|].
  intros [Hn Hc]. specialize (IH t Hc). lia.
Qed.

Lemma run_credit l attempts k T0 t1 t2 now n :
  valid l -> good l T0 now -> t1 <= now -> T0 <= now -> horizon l T0 t2 -> chain now attempts t2 ->
  0 <= n -> credit l k t1 now n ->
  let '(l', g) := run l attempts k in
  0 <= g /\ refill_interval l' = refill_interval l /\ burst l' = burst l /\
  exists now', now <= now' <= t2 /\ good l' T0 now' /\ credit l' k t1 now' (n + g).
Proof.
  revert l now n; induction attempts as [|[key t] rest IH]; intros l now n Hv Hg Ht1 HT Hh Hc Hn0 Hcr.
  - simpl. split; [lia|]. split; [done|]. split; [done|]. simpl in Hc. exists now.
    rewrite Z.add_0_r. split; [lia|done].
  - cbn [run]. destruct (try_acquire_at l key t) as [l1 ok] eqn:E. destruct Hc as [Hnt Hc].
    pose proof (chain_le _ _ _ Hc) as Ht2.
    destruct (attempt_good l key t T0 t2 now l1 ok Hv Hg ltac:(lia) Hh HT E) as (Hv1 & Hg1 & Hh1).
    pose proof (attempt_credit l key t T0 t2 now l1 ok k t1 n Hv Hg Ht1 ltac:(lia) Hh HT Hn0 Hcr E) as Hcr1.
    destruct (try_acquire_spec _ _ _ _ _ _ _ Hv Hg Hnt E) as (Hb & Hi & _).
    set (i := if ok && (key =? k) then 1 else 0) in *.
    assert (0 <= i) by (unfold i; case_match; lia).
    specialize (IH l1 t (i + n) Hv1 Hg1 ltac:(lia) ltac:(lia) Hh1 Hc ltac:(lia) Hcr1).
    destruct (run l1 rest k) as [l2 g]. destruct IH as (Hg0 & Hi2 & Hb2 & now' & Hn' & Hgd & Hcd).
    split; [lia|]. split; [congruence|]. split; [congruence|]. exists now'. split; [lia|].
    split; [done|]. by replace (n + (i + g)) with (i + n + g) by lia.
Qed.

(** The rate bound: whatever keys attempt whatever, including the evictions of a
    full table, one key is granted in any window of time at most its burst plus
    one plus the number of refill intervals in the window. *)
Theorem acquire_rate_bound l attempts k T0 t1 t2 :
  valid l -> good l T0 t1 -> T0 <= t1 -> horizon l T0 t2 -> chain t1 attempts t2 ->
  snd (run l attempts k) * refill_interval l < (burst l + 1) * refill_interval l + (t2 - t1).
Proof.
  intros Hv Hg HT Hh Hc.
  pose proof (run_credit l attempts k T0 t1 t2 t1 0 Hv Hg ltac:(lia) HT Hh Hc ltac:(lia) ltac:(by left)) as Hr.
  destruct (run l attempts k) as [l' g]. simpl.
  destruct Hr as (Hg0 & Hi & Hb & now' & Hn & Hgd & Hcr). destruct Hv as (Hb0 & Hi0 & _).
  rewrite Z.add_0_l in Hcr. unfold credit in Hcr. rewrite Hi, Hb in Hcr.
  destruct Hcr as [->|Hcr]; [nia|]. destruct (keys (state l') !! k) as [e|] eqn:Ek; [|nia].
  destruct (Hgd k e Ek) as [[Ht Hl] _]. assert (0 <= tokens e * refill_interval l) by nia. nia.
Qed.

Definition small_limiter : t := mk 2 (from_secs 60) 2 (mkTracked ∅ None).

Lemma acquire_rate_bound_witness :
  snd (run small_limiter [(7, 0); (7, 0); (7, 1); (8, 2); (9, 3); (7, from_secs 60)] 7)
    * from_secs 60 < (2 + 1) * from_secs 60 + (from_secs 61 - 0).
Proof.
  apply (acquire_rate_bound small_limiter
    [(7, 0); (7, 0); (7, 1); (8, 2); (9, 3); (7, from_secs 60)] 7 0 0 (from_secs 61)).
  - split; [split; vm_compute; congruence|split; vm_compute; congruence].
  - intros key e H. vm_compute in H. discriminate H.
  - lia.
  - split; vm_compute; congruence.
  - vm_compute. repeat split; discriminate.
Defined.

(** Bounded memory and no undue refusal: the table never exceeds its cap; a
    tracked key is refused only when its bucket is empty and less than one
    interval has passed since its last refill; an unknown key is refused only
    when the table, after the reclaim walk, is full. *)
Theorem acquire_bounded_and_live l key now T0 now0 l' ok :
  valid l -> good l T0 now0 -> T0 <= now0 <= now -> now - T0 <= DURATION_MAX ->
  (1 <= max_tracked l)%nat -> (tracked_count l <= max_tracked l)%nat ->
  try_acquire_at l key now = (l', ok) ->
  (tracked_count l' <= max_tracked l)%nat /\
  (ok = false ->
     (exists e, keys (state l) !! key = Some e /\ tokens e = 0 /\
        now - last_refill e < refill_interval l) \/
     (keys (state l) !! key = None /\ (max_tracked l <= tracked_count l')%nat)).
Proof.
  intros Hv Hg HT Hmax H1 Hcap H.
  destruct (try_acquire_spec _ _ _ _ _ _ _ Hv Hg (proj2 HT) H) as (Hb & Hi & _ & m & Hm & Hcase).
  assert (Hsub : m ⊆ keys (state l)).
  { apply map_subseteq_spec. intros k e He. destruct (Hm k) as [<-|[Hk _]]; [done|congruence]. }
  assert (Hsz : (size m <= max_tracked l)%nat)
    by (etrans; [apply map_subseteq_size, Hsub|exact Hcap]).
  unfold tracked_count. destruct Hcase as [(-> & -> & Hk & Hfull)|(e & He & Hmk & Hroom & Hok & ->)].
  { split; [done|]. intros _. by right. }
  split.
  - destruct (m !! key) as [x|] eqn:Ex.
    + rewrite map_size_insert_Some by eauto. done.
    + rewrite map_size_insert_None by done. symmetry in Hmk. specialize (Hroom Hmk). lia.
  - intros ->. left. symmetry in Hok. apply Z.ltb_ge in Hok.
    destruct Hv as (Hb0 & Hi0 & Hf0).
    assert (Hv : valid l) by (split; [done|split; done]).
    destruct (keys (state l) !! key) as [e0|] eqn:Ek; rewrite Hmk in He; simpl in He.
    + destruct (Hg key e0 Ek) as [[Ht Hl] HT0].
      destruct (refill_spec l now e0 Hv ltac:(split; [done|lia]) ltac:(lia))
        as (r & Hr & _ & _ & Htk & Hz & _).
      rewrite <- He in Htk. exists e0. split; [done|]. assert (r = 0) by lia. split; [lia|auto].
    + destruct (refill_spec l now (mkState (burst l) now) Hv ltac:(split; simpl; lia) ltac:(simpl; unfold DURATION_MAX, u64_max, NANOS_PER_SEC; lia))
        as (r & Hr & _ & _ & Htk & _). rewrite <- He in Htk. simpl in Htk. lia.
Qed.

Lemma acquire_bounded_and_live_witness :
  exists l' ok, try_acquire_at small_limiter 7 5 = (l', ok) /\
    (tracked_count l' <= 2)%nat.
Proof.
  eexists _, _. split; [vm_compute; reflexivity|].
  eapply (acquire_bounded_and_live small_limiter 7 5 0 0).
  - split; [split; vm_compute; congruence|split; vm_compute; congruence].
  - intros key e H. vm_compute in H. discriminate H.
  - lia.
  - vm_compute. discriminate.
  - simpl. lia.
  - vm_compute. lia.
  - vm_compute. reflexivity.
Defined.

End ConnectionLimiter.
