(* ===== verification/UdpHostility.v ===== *)
(** Memory of networks hostile to UDP
    ([crates/warrenguard-tcp-fallback/src/hostility.rs]): when to dial the TCP
    carrier first.

    The tracker is a pure state machine with an injected clock; [Event] is one
    call on it and [run] a sequence of calls. *)

From S2P Require Import Prelude.

Module UdpHostility.

Definition POST_HANDSHAKE_KILL_WINDOW : Z := from_secs 60.
Definition KILLS_BEFORE_CARRIER_FIRST : Z := 2.
Definition CARRIER_FIRST_TTL : Z := from_secs (15 * 60).
Definition CARRIER_FAILURES_BEFORE_COOLDOWN : Z := 3.
Definition CARRIER_COOLDOWN : Z := from_secs (5 * 60).

Inductive Carrier := Udp | Tcp.

Record SessionEnd := mkEnd {
  carrier : Carrier;
  lifetime : Z;
  watchdog_forced : bool;
}.

Inductive DialPreference := Race | CarrierFirst.

Record UdpHostilityTracker := mkTracker {
  young_udp_kills : Z;
  carrier_first_until : option Z;
  carrier_failures : Z;
  cooldown_until : option Z;
}.

Definition new : UdpHostilityTracker := mkTracker 0 None 0 None.

(** [u32::saturating_add(1)]. *)
Definition saturating_succ (n : Z) : Z := Z.min (n + 1) u32_max.

Definition note_carrier_failure (w : UdpHostilityTracker) (now : Z) : UdpHostilityTracker :=
  let f := saturating_succ (carrier_failures w) in
  if CARRIER_FAILURES_BEFORE_COOLDOWN <=? f
  then mkTracker (young_udp_kills w) (carrier_first_until w) 0 (Some (now + CARRIER_COOLDOWN))
  else mkTracker (young_udp_kills w) (carrier_first_until w) f (cooldown_until w).

Definition record_session_end (w : UdpHostilityTracker) (e : SessionEnd) (now : Z)
  : UdpHostilityTracker :=
  let young := lifetime e <? POST_HANDSHAKE_KILL_WINDOW in
  match carrier e with
  | Udp =>
      if negb young then mkTracker 0 None (carrier_failures w) (cooldown_until w)
      else if watchdog_forced e then
        let kills := saturating_succ (young_udp_kills w) in
        mkTracker kills
          (if KILLS_BEFORE_CARRIER_FIRST <=? kills then Some (now + CARRIER_FIRST_TTL)
           else carrier_first_until w)
          (carrier_failures w) (cooldown_until w)
      else w
  | Tcp =>
      if negb young then
        mkTracker (young_udp_kills w)
          (match carrier_first_until w with
           | Some _ => Some (now + CARRIER_FIRST_TTL)
           | None => None
           end) 0 (cooldown_until w)
      else if watchdog_forced e then note_carrier_failure w now
      else w
  end.

Definition record_setup_timeout (w : UdpHostilityTracker) (c : Carrier) (now : Z)
  : UdpHostilityTracker :=
  match c with
  | Udp =>
      mkTracker (saturating_succ (young_udp_kills w)) (Some (now + CARRIER_FIRST_TTL))
        (carrier_failures w) (cooldown_until w)
  | Tcp => note_carrier_failure w now
  end.

Definition record_carrier_dial_failed (w : UdpHostilityTracker) (now : Z) : UdpHostilityTracker :=
  note_carrier_failure w now.

Definition record_carrier_dial_succeeded (w : UdpHostilityTracker) : UdpHostilityTracker :=
  mkTracker (young_udp_kills w) (carrier_first_until w) 0 (cooldown_until w).

Definition running (deadline : option Z) (now : Z) : bool :=
  match deadline with Some until => now <? until | None => false end.

Definition preference (w : UdpHostilityTracker) (now : Z) : DialPreference :=
  if running (cooldown_until w) now then Race
  else if running (carrier_first_until w) now then CarrierFirst
  else Race.

(** ** Histories *)

Inductive Event :=
| SessionEnded (e : SessionEnd) (now : Z)
| SetupTimedOut (c : Carrier) (now : Z)
| CarrierDialFailed (now : Z)
| CarrierDialSucceeded.

Definition step (w : UdpHostilityTracker) (ev : Event) : UdpHostilityTracker :=
  match ev with
  | SessionEnded e now => record_session_end w e now
  | SetupTimedOut c now => record_setup_timeout w c now
  | CarrierDialFailed now => record_carrier_dial_failed w now
  | CarrierDialSucceeded => record_carrier_dial_succeeded w
  end.

Definition run (w : UdpHostilityTracker) (evs : list Event) : UdpHostilityTracker :=
  fold_left step evs w.

(** A UDP session a watchdog killed young. *)
Definition is_udp_kill (ev : Event) : bool :=
  match ev with
  | SessionEnded (mkEnd Udp life true) _ => life <? POST_HANDSHAKE_KILL_WINDOW
  | _ => false
  end.

(** A UDP session that outlived the window. *)
Definition is_udp_proof (ev : Event) : bool :=
  match ev with
  | SessionEnded (mkEnd Udp life _) _ => negb (life <? POST_HANDSHAKE_KILL_WINDOW)
  | _ => false
  end.

Definition is_udp_setup_timeout (ev : Event) : bool :=
  match ev with SetupTimedOut Udp _ => true | _ => false end.

Fixpoint count (f : Event -> bool) (evs : list Event) : Z :=
  match evs with [] => 0 | ev :: evs' => (if f ev then 1 else 0) + count f evs' end.

Lemma count_nonneg f evs : 0 <= count f evs.
Proof. induction evs; simpl; [lia|case_match; lia]. Qed.

(** The UDP half of the tracker after one event. *)
Lemma step_udp w ev :
  (is_udp_proof ev = true -> young_udp_kills (step w ev) = 0 /\ carrier_first_until (step w ev) = None) /\
  (is_udp_kill ev = true -> young_udp_kills (step w ev) = saturating_succ (young_udp_kills w)) /\
  (is_udp_proof ev = false -> is_udp_kill ev = false -> is_udp_setup_timeout ev = false ->
     young_udp_kills (step w ev) = young_udp_kills w /\
     (carrier_first_until w = None -> carrier_first_until (step w ev) = None)).
Proof.
  destruct ev as [[[] life []] now|[] now|now|]; simpl;
    unfold record_session_end, record_carrier_dial_failed, note_carrier_failure; simpl;
    try destruct (life <? POST_HANDSHAKE_KILL_WINDOW); simpl;
    (split; [done|split; [done|]]); intros; try done; case_match; simpl; try done;
    by destruct (carrier_first_until w).
Qed.

Lemma kill_below_threshold w ev :
  is_udp_kill ev = true -> young_udp_kills w <= 0 -> carrier_first_until w = None ->
  carrier_first_until (step w ev) = None.
Proof.
  destruct ev as [[[] life []] now|[] now|now|]; simpl; try done. intros Hy Hk Hc.
  unfold record_session_end. simpl. rewrite Hy. simpl.
  destruct (Z.leb_spec KILLS_BEFORE_CARRIER_FIRST (saturating_succ (young_udp_kills w))) as [H|]; [|done].
  unfold KILLS_BEFORE_CARRIER_FIRST, saturating_succ in H. lia.
Qed.

(** While at most one kill and no setup timeout was seen, nothing is armed. *)
Lemma unarmed_run w evs :
  young_udp_kills w <= 1 -> 0 <= young_udp_kills w -> carrier_first_until w = None ->
  young_udp_kills w + count is_udp_kill evs <= 1 -> count is_udp_setup_timeout evs = 0 ->
  carrier_first_until (run w evs) = None.
Proof.
  revert w; induction evs as [|ev evs IH]; intros w H1 H0 Hc Hk Ht; [done|]. simpl in *.
  pose proof (count_nonneg is_udp_kill evs). pose proof (count_nonneg is_udp_setup_timeout evs).
  destruct (is_udp_setup_timeout ev) eqn:Et; [lia|].
  destruct (step_udp w ev) as (Hproof & Hkill & Hother).
  destruct (is_udp_proof ev) eqn:Ep.
  { destruct (Hproof eq_refl) as [Hy Hn]. apply IH; rewrite ?Hy; try done; destruct (is_udp_kill ev); lia. }
  destruct (is_udp_kill ev) eqn:Ek.
  - specialize (Hkill eq_refl). unfold saturating_succ, u32_max in Hkill.
    apply IH; rewrite ?Hkill; [lia|lia| |lia|lia]. apply kill_below_threshold; [done|lia|done].
  - destruct (Hother eq_refl eq_refl Et) as [Hy Hn]. apply IH; rewrite ?Hy; auto with lia.
Qed.

(** One radio drop never flips the transport: after a UDP session that outlived
    the window, in any state, a history with at most one post-handshake kill over
    UDP and no UDP setup timeout leaves the dial racing UDP first, whatever the
    carrier sessions and dials did. *)
Theorem single_kill_tolerated w proof evs now :
  is_udp_proof proof = true ->
  count is_udp_kill evs <= 1 -> count is_udp_setup_timeout evs = 0 ->
  preference (run w (proof :: evs)) now = Race.
Proof.
  intros Hp Hk Ht. destruct (step_udp w proof) as (Hproof & _ & _).
  destruct (Hproof Hp) as [Hy Hc]. unfold preference. simpl.
  rewrite (unarmed_run (step w proof)); try done; [by case_match|lia|lia|lia].
Qed.

Definition udp_kill (now : Z) : Event := SessionEnded (mkEnd Udp (from_secs 25) true) now.

Lemma single_kill_tolerated_witness :
  preference (run new [SessionEnded (mkEnd Udp (from_secs 90) false) 0; udp_kill (from_secs 200);
                       CarrierDialFailed (from_secs 201)]) (from_secs 202) = Race.
Proof.
  apply (single_kill_tolerated new (SessionEnded (mkEnd Udp (from_secs 90) false) 0)
           [udp_kill (from_secs 200); CarrierDialFailed (from_secs 201)]);
    [vm_compute; reflexivity|vm_compute; discriminate|vm_compute; reflexivity].
Defined.

(** The kill count never falls without a proof of a sane path. *)
Lemma kills_persist w evs :
  1 <= young_udp_kills w -> count is_udp_proof evs = 0 -> 1 <= young_udp_kills (run w evs).
Proof.
  revert w; induction evs as [|ev evs IH]; intros w H1 Hp; [done|]. simpl in *.
  pose proof (count_nonneg is_udp_proof evs). destruct (is_udp_proof ev) eqn:Ep; [lia|].
  apply IH; [|lia]. destruct (step_udp w ev) as (_ & Hkill & Hother).
  destruct (is_udp_kill ev); [rewrite Hkill by done; unfold saturating_succ, u32_max; lia|].
  destruct ev as [e now|[] now|now|]; simpl in *;
    try (destruct (Hother Ep eq_refl eq_refl) as [-> _]; done); try done.
  unfold saturating_succ, u32_max. lia.
Qed.

(** A hostile network arms the carrier: two post-handshake kills over UDP with
    no healthy UDP session in between, or one setup timeout after a handshake, make
    the dials of the next fifteen minutes go carrier-first, unless the carrier
    itself is in its failure cooldown. *)
Theorem hostile_network_arms w evs k1 k2 t now :
  0 <= young_udp_kills w ->
  (is_udp_kill k1 = true /\ count is_udp_proof evs = 0 /\
     (exists e, k2 = SessionEnded e t /\ is_udp_kill k2 = true) \/
   k2 = SetupTimedOut Udp t) ->
  now < t + CARRIER_FIRST_TTL ->
  let w' := run w (k1 :: evs ++ [k2]) in
  preference w' now = CarrierFirst \/ running (cooldown_until w') now = true.
Proof.
  intros Hw Hk Hn w'. unfold preference.
  destruct (running (cooldown_until w') now); [by right|left].
  assert (Hu : carrier_first_until w' = Some (t + CARRIER_FIRST_TTL)).
  { unfold w', run. cbn [fold_left]. rewrite fold_left_app. cbn [fold_left].
    fold (run (step w k1) evs). destruct Hk as [(H1 & H2 & [[] life []] & -> & H3)| ->]; try done.
    assert (Hy : 1 <= young_udp_kills (run (step w k1) evs)).
    { apply kills_persist; [|done]. destruct (step_udp w k1) as (_ & Hkill & _).
      rewrite (Hkill H1). unfold saturating_succ, u32_max. lia. }
    set (w1 := run (step w k1) evs) in *. cbn -[KILLS_BEFORE_CARRIER_FIRST CARRIER_FIRST_TTL POST_HANDSHAKE_KILL_WINDOW].
    cbn [is_udp_kill] in H3. unfold record_session_end. cbn [lifetime carrier watchdog_forced].
    rewrite H3. cbn [negb carrier_first_until].
    destruct (Z.leb_spec KILLS_BEFORE_CARRIER_FIRST (saturating_succ (young_udp_kills w1))) as [|H]; [done|].
    unfold KILLS_BEFORE_CARRIER_FIRST, saturating_succ, u32_max in H. lia. }
  rewrite Hu. simpl. destruct (Z.ltb_spec now (t + CARRIER_FIRST_TTL)); [done|lia].
Qed.

Lemma hostile_network_arms_witness :
  let w' := run new (udp_kill 0 :: [CarrierDialSucceeded] ++ [udp_kill (from_secs 40)]) in
  preference w' (from_secs 41) = CarrierFirst \/ running (cooldown_until w') (from_secs 41) = true.
Proof.
  apply (hostile_network_arms new [CarrierDialSucceeded] (udp_kill 0) (udp_kill (from_secs 40))
           (from_secs 40) (from_secs 41)).
  - vm_compute. discriminate.
  - left. split; [vm_compute; reflexivity|]. split; [vm_compute; reflexivity|].
    eexists. split; [reflexivity|vm_compute; reflexivity].
  - vm_compute. reflexivity.
Defined.

(** One carrier failure: counted, or the third that starts the cooldown. *)
Lemma failure_cases w now :
  0 <= carrier_failures w ->
  carrier_failures w < 2 /\ carrier_failures (note_carrier_failure w now) = carrier_failures w + 1 /\
    cooldown_until (note_carrier_failure w now) = cooldown_until w \/
  2 <= carrier_failures w /\ carrier_failures (note_carrier_failure w now) = 0 /\
    cooldown_until (note_carrier_failure w now) = Some (now + CARRIER_COOLDOWN).
Proof.
  intros Hf. unfold note_carrier_failure, CARRIER_FAILURES_BEFORE_COOLDOWN, saturating_succ, u32_max.
  destruct (Z.leb_spec 3 (Z.min (carrier_failures w + 1) (2 ^ 32 - 1))); [right|left];
    cbn [carrier_failures cooldown_until]; (split; [lia|]); split; [|done| |done]; lia.
Qed.

(** A carrier that keeps failing is given a rest: after three carrier failures in
    a row the dials race for the length of the cooldown from the first of them. *)
Lemma carrier_cooldown w t1 t2 t3 now :
  0 <= carrier_failures w -> t1 <= t2 <= t3 -> t3 <= now -> now < t1 + CARRIER_COOLDOWN ->
  preference (run w [CarrierDialFailed t1; CarrierDialFailed t2; CarrierDialFailed t3]) now = Race.
Proof.
  intros Hf Ht Hn Hlt. unfold preference.
  set (w' := run w _).
  assert (Hr : running (cooldown_until w') now = true); [|by rewrite Hr].
  unfold w', run. cbn [fold_left step]. unfold record_carrier_dial_failed.
  destruct (failure_cases w t1 Hf) as [(H1 & H1' & H1'')|(H1 & H1' & H1'')];
  destruct (failure_cases (note_carrier_failure w t1) t2 ltac:(lia)) as [(H2 & H2' & H2'')|(H2 & H2' & H2'')];
  destruct (failure_cases (note_carrier_failure (note_carrier_failure w t1) t2) t3 ltac:(lia))
    as [(H3 & H3' & H3'')|(H3 & H3' & H3'')];
  rewrite ?H3'', ?H2'', ?H1''; try lia; apply Z.ltb_lt; lia.
Qed.

End UdpHostility.
