(* ===== verification/IpPackets.v ===== *)
(** IP headers of inner packets and the exit's uplink gates
    ([crates/warrenguard-transport-core/src/ip_parse.rs]).

    A packet is its list of bytes.  The functions index into it, so that each
    returns [option]: [None] is a panic, and [classify_source_total] and
    [classify_destination_total] show that no input causes one.  Addresses are their 32-bit and 128-bit values. *)

From S2P Require Import Prelude.

Definition IPV4_MIN_HEADER : nat := 20.
Definition IPV6_MIN_HEADER : nat := 40.

(** Read the address in bytes [a..b) of a packet of version [v] that is at least
    [min] bytes long. *)
Definition extract (min : nat) (v : Z) (a b : nat) (pkt : list Z) : option (option Z) :=
  if (length pkt <? min)%nat then Some None
  else
    b0 ← pkt !! O;
    if negb (nibble b0 =? v) then Some None
    else octets ← slice pkt a b; Some (Some (be_val octets)).

Definition extract_src_ipv4 : list Z -> option (option Z) := extract IPV4_MIN_HEADER 4 12 16.
Definition extract_src_ipv6 : list Z -> option (option Z) := extract IPV6_MIN_HEADER 6 8 24.
Definition extract_dst_ipv4 : list Z -> option (option Z) := extract IPV4_MIN_HEADER 4 16 20.
Definition extract_dst_ipv6 : list Z -> option (option Z) := extract IPV6_MIN_HEADER 6 24 40.

(** ** The source gate *)

Inductive SpoofRefusal := Malformed | V4Mismatch | V6LinkLocal | V6Unallocated | V6Mismatch.

#[export] Instance SpoofRefusal_eq_dec : EqDecision SpoofRefusal.
Proof. solve_decision. Defined.

(** [o[0] == 0xfe && (o[1] & 0xc0) == 0x80] on the octets of an address. *)
Definition is_link_local_ipv6 (addr : Z) : bool :=
  (Z.shiftr addr 120 =? 0xfe) && (Z.land (Z.land (Z.shiftr addr 112) 0xff) 0xc0 =? 0x80).

(** The verdict: [Some None] admits, [Some (Some r)] refuses. *)
Definition classify_source (pkt : list Z) (client_ipv4 : Z) (client_ipv6 : option Z)
  : option (option SpoofRefusal) :=
  match pkt with
  | [] => Some (Some Malformed)
  | b0 :: _ =>
      if nibble b0 =? 4 then
        src ← extract_src_ipv4 pkt;
        Some match src with
             | None => Some Malformed
             | Some src => if src =? client_ipv4 then None else Some V4Mismatch
             end
      else if nibble b0 =? 6 then
        src ← extract_src_ipv6 pkt;
        Some match src with
             | None => Some Malformed
             | Some src =>
                 if (src =? 0) || is_link_local_ipv6 src then Some V6LinkLocal
                 else
                   match client_ipv6 with
                   | None => Some V6Unallocated
                   | Some expected => if src =? expected then None else Some V6Mismatch
                   end
             end
      else Some None
  end.

Definition source_ip_matches (pkt : list Z) (client_ipv4 : Z) (client_ipv6 : option Z) : option bool :=
  r ← classify_source pkt client_ipv4 client_ipv6;
  Some match r with None => true | Some _ => false end.

(** ** The destination gate *)

Record TunnelPool := mkPool {
  v4_network : Z;
  v4_prefix_len : Z;
  v4_gateway : Z;
  v6_net : option (Z * Z);
}.

Definition pool_new (network prefix_len gateway : Z) : TunnelPool :=
  mkPool network prefix_len gateway None.

Definition with_v6 (p : TunnelPool) (network gateway : Z) : TunnelPool :=
  mkPool (v4_network p) (v4_prefix_len p) (v4_gateway p) (Some (network, gateway)).

Definition holds_v4 (p : TunnelPool) (addr : Z) : bool :=
  if v4_prefix_len p =? 0 then true
  else if 32 <? v4_prefix_len p then false
  else
    let mask := wrap 32 (Z.shiftl u32_max (32 - v4_prefix_len p)) in
    Z.land addr mask =? Z.land (v4_network p) mask.

Inductive PoolRefusal := V4Peer | V6Peer.

Definition classify_destination (pkt : list Z) (pool : TunnelPool) : option (option PoolRefusal) :=
  match pkt with
  | [] => Some None
  | b0 :: _ =>
      if nibble b0 =? 4 then
        dst ← extract_dst_ipv4 pkt;
        Some match dst with
             | None => Some V4Peer
             | Some dst =>
                 if dst =? v4_gateway pool then None
                 else if holds_v4 pool dst then Some V4Peer
                 else None
             end
      else if nibble b0 =? 6 then
        match v6_net pool with
        | None => Some None
        | Some (network, gateway) =>
            dst ← extract_dst_ipv6 pkt;
            Some match dst with
                 | None => Some V6Peer
                 | Some dst =>
                     if dst =? gateway then None
                     else if Z.shiftr dst 64 =? Z.shiftr network 64 then Some V6Peer
                     else None
                 end
        end
      else Some None
  end.

(** ** No input panics *)

Lemma extract_total min v a b pkt :
  (a <= b)%nat -> (b <= min)%nat -> (0 < min)%nat -> exists r, extract min v a b pkt = Some r.
Proof.
  intros Hab Hb Hm. unfold extract. destruct (Nat.ltb_spec (length pkt) min) as [|Hl]; [eauto|].
  destruct (lookup_in_range pkt 0) as [b0 ->]; [lia|]. simpl.
  destruct (nibble b0 =? v); simpl; [|eauto]. rewrite slice_some by lia. simpl. eauto.
Qed.

(** What a successful read says: the packet has the version and the bytes. *)
Lemma extract_spec min v a b pkt x :
  extract min v a b pkt = Some (Some x) ->
  (min <= length pkt)%nat /\ (exists b0, pkt !! O = Some b0 /\ nibble b0 = v) /\
  exists octets, slice pkt a b = Some octets /\ x = be_val octets.
Proof.
  unfold extract. destruct (Nat.ltb_spec (length pkt) min); [done|].
  destruct (pkt !! O) as [b0|]; simpl; [|done].
  destruct (Z.eqb_spec (nibble b0) v); simpl; [|done].
  destruct (slice pkt a b) as [o|]; simpl; [|done]. intros [= <-].
  split; [done|]. split; [by exists b0|by exists o].
Qed.

(** Closes a read that cannot panic. *)
Ltac extracted :=
  match goal with |- context [extract ?m ?v ?a ?b ?p] =>
    let r := fresh "r" in
    destruct (extract_total m v a b p) as [r ->];
      [unfold IPV4_MIN_HEADER, IPV6_MIN_HEADER; lia..|]
  end.

Lemma classify_source_total pkt v4 v6 : exists r, classify_source pkt v4 v6 = Some r.
Proof.
  destruct pkt as [|b0 pkt]; [eauto|]. unfold classify_source, extract_src_ipv4, extract_src_ipv6.
  destruct (nibble b0 =? 4); [|destruct (nibble b0 =? 6); [|eauto]]; extracted; eexists; reflexivity.
Qed.

Lemma classify_destination_total pkt pool : exists r, classify_destination pkt pool = Some r.
Proof.
  destruct pkt as [|b0 pkt]; [eauto|]. unfold classify_destination, extract_dst_ipv4, extract_dst_ipv6.
  destruct (nibble b0 =? 4); [|destruct (nibble b0 =? 6); [|eauto]].
  - extracted. eexists; reflexivity.
  - destruct (v6_net pool) as [[]|]; [|eauto]. extracted. eexists; reflexivity.
Qed.

(** ** What the gates admit *)

(** Decide the version tests once the version is known. *)
Ltac version_cases :=
  change (4 =? 4) with true; change (6 =? 6) with true; change (6 =? 4) with false; cbv iota.


(** The prefix test of the pool, as a division. *)
Lemma mask_prefix x len :
  in_width 32 x -> 1 <= len <= 32 ->
  Z.land x (wrap 32 (Z.shiftl u32_max (32 - len))) = (x / 2 ^ (32 - len)) * 2 ^ (32 - len).
Proof.
  intros Hx Hl. rewrite <- Z.shiftr_div_pow2, <- Z.shiftl_mul_pow2 by lia.
  apply Z.bits_inj'. intros i Hi. rewrite Z.land_spec, testbit_wrap by lia.
  assert (Hm : forall j, 0 <= j -> Z.testbit u32_max j = (j <? 32)).
  { intros j Hj. change u32_max with (Z.ones 32). destruct (Z.ltb_spec j 32).
    - apply Z.ones_spec_low. lia.
    - apply Z.ones_spec_high. lia. }
  rewrite Z.shiftl_spec by lia. destruct (Z.ltb_spec i 32).
  - destruct (Z_lt_le_dec i (32 - len)).
    + rewrite !(Z.shiftl_spec_low _ _ i), (Z.testbit_neg_r _ (i - (32 - len))) by lia. by rewrite andb_false_r.
    + rewrite Hm, Z.shiftl_spec, Z.shiftr_spec by lia.
      replace (i - (32 - len) + (32 - len)) with i by lia.
      destruct (Z.ltb_spec (i - (32 - len)) 32); [|lia]. by rewrite !andb_true_r.
  - simpl. rewrite andb_false_r. rewrite Z.shiftl_spec, Z.shiftr_spec by lia.
    replace (i - (32 - len) + (32 - len)) with i by lia.
    by rewrite (testbit_above_width 32).
Qed.

Lemma holds_v4_spec p addr :
  in_width 32 addr -> in_width 32 (v4_network p) -> 1 <= v4_prefix_len p <= 32 ->
  holds_v4 p addr = true <->
  addr / 2 ^ (32 - v4_prefix_len p) = v4_network p / 2 ^ (32 - v4_prefix_len p).
Proof.
  intros Ha Hn Hl. unfold holds_v4.
  destruct (Z.eqb_spec (v4_prefix_len p) 0); [lia|]. destruct (Z.ltb_spec 32 (v4_prefix_len p)); [lia|].
  rewrite !mask_prefix by done. rewrite Z.eqb_eq.
  assert (0 < 2 ^ (32 - v4_prefix_len p)) by (apply Z.pow_pos_nonneg; lia).
  split; [intros E; by apply Z.mul_reg_r in E; [|lia]|by intros ->].
Qed.

(** An admitted IPv4 packet is from the assigned address. *)
Lemma source_admitted_v4 pkt b0 a4 a6 :
  pkt !! O = Some b0 -> nibble b0 = 4 -> classify_source pkt a4 a6 = Some None ->
  extract_src_ipv4 pkt = Some (Some a4).
Proof.
  destruct pkt as [|b pkt]; [done|]. intros [= ->] Hn. unfold classify_source. rewrite Hn. version_cases. destruct (extract_src_ipv4 (b0 :: pkt)) as [[src|]|]; try done.
  cbn [mbind option_bind]. intros [= E]. destruct (Z.eqb_spec src a4); [by subst|done].
Qed.

Lemma source_admitted_v6 pkt b0 a4 a6 :
  pkt !! O = Some b0 -> nibble b0 = 6 -> classify_source pkt a4 a6 = Some None ->
  exists a, a6 = Some a /\ extract_src_ipv6 pkt = Some (Some a).
Proof.
  destruct pkt as [|b pkt]; [done|]. intros [= ->] Hn. unfold classify_source. rewrite Hn. version_cases. destruct (extract_src_ipv6 (b0 :: pkt)) as [[src|]|]; try done.
  cbn [mbind option_bind]. destruct ((src =? 0) || is_link_local_ipv6 src); [done|].
  destruct a6 as [a|]; [|done]. intros [= E]. exists a. destruct (Z.eqb_spec src a); [by subst|done].
Qed.

(** The IPv4 destination of an admitted packet is the gateway or outside the pool. *)
Lemma destination_admitted_v4 pkt dst pool :
  extract_dst_ipv4 pkt = Some (Some dst) -> classify_destination pkt pool = Some None ->
  dst = v4_gateway pool \/ holds_v4 pool dst = false.
Proof.
  intros He. destruct (extract_spec _ _ _ _ _ _ He) as (_ & (b0 & Hb & Hn) & _).
  destruct pkt as [|b pkt]; [done|]. injection Hb as ->. unfold classify_destination. rewrite Hn.
  version_cases. rewrite He. cbn [mbind option_bind].
  destruct (Z.eqb_spec dst (v4_gateway pool)); [by left|]. destruct (holds_v4 pool dst); [done|by right].
Qed.

Lemma destination_admitted_v6 pkt dst pool net gw :
  v6_net pool = Some (net, gw) -> extract_dst_ipv6 pkt = Some (Some dst) ->
  classify_destination pkt pool = Some None ->
  dst = gw \/ Z.shiftr dst 64 <> Z.shiftr net 64.
Proof.
  intros Hv He. destruct (extract_spec _ _ _ _ _ _ He) as (_ & (b0 & Hb & Hn) & _).
  destruct pkt as [|b pkt]; [done|]. injection Hb as ->. unfold classify_destination. rewrite Hn.
  version_cases. rewrite Hv, He. cbn [mbind option_bind].
  destruct (Z.eqb_spec dst gw); [by left|].
  destruct (Z.eqb_spec (Z.shiftr dst 64) (Z.shiftr net 64)); [done|by right].
Qed.
