(* ===== verification/Checksum.v ===== *)
(** The internet checksum ([crates/warrenguard-transport-core/src/inner_mtu.rs]):
    the RFC 1071 sum over a buffer, the RFC 1624 update of one word, and the
    pseudo-header sums that seed them.

    The code accumulates 16-bit words in a [u32], which a release build wraps, and
    folds the carries at the end.  The theory works with the exact sum
    ([words_sum]) modulo 65535: a buffer verifies when its sum is a positive
    multiple of 65535 ([checksum_zero]). *)

From S2P Require Import Prelude.

(** [!x] of a [u16]. *)
Definition not16 (x : Z) : Z := u16_max - x.

(** [while sum >> 16 != 0 { sum = (sum & 0xffff) + (sum >> 16); }], with enough
    turns for every [u32] ([fold_carries_spec]). *)
Fixpoint fold_loop (fuel : nat) (sum : Z) : Z :=
  match fuel with
  | O => sum
  | S n =>
      if negb (Z.shiftr sum 16 =? 0)
      then fold_loop n (Z.land sum 0xffff + Z.shiftr sum 16)
      else sum
  end.

Definition fold_carries (sum : Z) : Z := fold_loop 3 sum.

Definition incremental_checksum_update (ck old new : Z) : Z :=
  let sum := not16 ck + not16 old + new in
  not16 (wrap 16 (fold_carries sum)).

(** The word loop over [chunks_exact(2)] and the odd byte that remains. *)
Fixpoint add_words (sum : Z) (data : list Z) : Z :=
  match data with
  | a :: b :: rest => add_words (wrap 32 (sum + be_val [a; b])) rest
  | [last] => wrap 32 (sum + be_val [last; 0])
  | [] => sum
  end.

Definition internet_checksum (seed : Z) (data : list Z) : Z :=
  not16 (wrap 16 (fold_carries (add_words seed data))).

Definition ICMPV6_NEXT_HEADER : Z := 58.

Definition icmpv6_pseudo_sum (src dst icmp_len : Z) : Z :=
  let sum := add_words 0 (be_bytes 16 src ++ be_bytes 16 dst) in
  wrap 32 (wrap 32 (sum + icmp_len) + ICMPV6_NEXT_HEADER).

(** [l4_pseudo_sum], on the octets of the addresses. *)
Definition l4_pseudo_sum (src dst : list Z) (proto len : Z) : Z :=
  wrap 32 (wrap 32 (wrap 32 (add_words 0 src + add_words 0 dst) + proto) + len).

(** ** Folding carries *)

Lemma land_ffff x : Z.land x 0xffff = x mod 65536.
Proof. change 0xffff with (Z.ones 16). rewrite Z.land_ones by lia. done. Qed.

Lemma shiftr_16 x : Z.shiftr x 16 = x / 65536.
Proof. by rewrite Z.shiftr_div_pow2 by lia. Qed.

Lemma fold_loop_step n x :
  fold_loop (S n) x = if x / 65536 =? 0 then x else fold_loop n (x mod 65536 + x / 65536).
Proof. cbn [fold_loop]. rewrite land_ffff, shiftr_16. by destruct (x / 65536 =? 0). Qed.

Lemma fold_step_bounds x :
  0 <= x -> x / 65536 <> 0 ->
  0 < x mod 65536 + x / 65536 <= 65535 + x / 65536 /\
  (x mod 65536 + x / 65536) mod 65535 = x mod 65535.
Proof.
  intros Hx Hn. pose proof (Z.div_mod x 65536). pose proof (Z.mod_pos_bound x 65536).
  assert (0 <= x / 65536) by (apply Z.div_pos; lia). split; [lia|].
  set (q := x / 65536) in *. set (r := x mod 65536) in *.
  replace x with (r + q + q * 65535) by lia. by rewrite Z.mod_add.
Qed.

(** The loop ends within its turns on every [u32], keeps the residue, and is zero
    only on zero. *)
Lemma fold_carries_spec x :
  in_width 32 x ->
  in_width 16 (fold_carries x) /\ fold_carries x mod 65535 = x mod 65535 /\
  (fold_carries x = 0 <-> x = 0).
Proof.
  unfold in_width, fold_carries. change (2 ^ 32) with 4294967296. change (2 ^ 16) with 65536.
  intros Hx. rewrite fold_loop_step. destruct (Z.eqb_spec (x / 65536) 0) as [E|E].
  { apply Z.div_small_iff in E; [|lia]. split; [lia|done]. }
  destruct (fold_step_bounds x) as [Hb Hm]; [lia..|]. rewrite <- Hm.
  assert (x <> 0) by (by intros ->).
  assert (x / 65536 < 65536) by (apply Z.div_lt_upper_bound; lia).
  set (y := x mod 65536 + x / 65536) in *. rewrite fold_loop_step.
  destruct (Z.eqb_spec (y / 65536) 0) as [E'|E'].
  { apply Z.div_small_iff in E'; [|lia]. split; [lia|]. split; [done|lia]. }
  destruct (fold_step_bounds y) as [Hb' Hm']; [lia..|]. rewrite <- Hm'.
  assert (y / 65536 = 1) as Hy.
  { assert (y / 65536 < 2) by (apply Z.div_lt_upper_bound; lia).
    assert (0 <= y / 65536) by (apply Z.div_pos; lia). lia. }
  pose proof (Z.div_mod y 65536). rewrite Hy in *. set (z := y mod 65536 + 1) in *.
  rewrite fold_loop_step. rewrite Z.div_small by lia. change (0 =? 0) with true. cbv iota.
  split; [lia|]. split; [done|lia].
Qed.

(** ** Exact sums *)

Fixpoint words_sum (data : list Z) : Z :=
  match data with
  | a :: b :: rest => be_val [a; b] + words_sum rest
  | [last] => be_val [last; 0]
  | [] => 0
  end.

(** Induction two bytes at a time. *)
Lemma pairs_ind (P : list Z -> Prop) :
  P [] -> (forall a, P [a]) -> (forall a b l, P l -> P (a :: b :: l)) -> forall l, P l.
Proof.
  intros H0 H1 H2 l. enough (P l /\ forall a, P (a :: l)) by tauto.
  induction l as [|a l [IH1 IH2]]; [auto|]. split; [apply IH2|]. intros b. by apply H2.
Qed.

Lemma be_val_pair a b : be_val [a; b] = a * 256 + b.
Proof. unfold be_val. simpl. lia. Qed.

Lemma words_sum_bounds data :
  all_bytes data -> 0 <= 2 * words_sum data <= 65535 * (Z.of_nat (length data) + 1).
Proof.
  induction data as [|a|a b l IH] using pairs_ind; intros Hb; cbn [words_sum length].
  - lia.
  - inversion_clear Hb as [|? ? Ha _]. unfold is_byte, in_width in Ha. rewrite be_val_pair. lia.
  - inversion_clear Hb as [|? ? Ha Hb']. inversion_clear Hb' as [|? ? Hb Hl].
    unfold is_byte, in_width in Ha, Hb. rewrite be_val_pair. specialize (IH Hl). lia.
Qed.

(** The accumulator does not overflow on the documented domain. *)
Lemma add_words_exact data seed :
  all_bytes data -> 0 <= seed -> seed + words_sum data <= u32_max ->
  add_words seed data = seed + words_sum data.
Proof.
  revert seed. induction data as [|a|a b l IH] using pairs_ind; intros seed Hb Hs Hm;
    cbn [words_sum add_words] in *.
  - lia.
  - inversion_clear Hb as [|? ? Ha _]. unfold is_byte, in_width in Ha.
    apply wrap_small. unfold in_width, u32_max in *. rewrite be_val_pair in *. lia.
  - inversion_clear Hb as [|? ? Ha Hb']. inversion_clear Hb' as [|? ? Hb Hl].
    unfold is_byte, in_width in Ha, Hb. pose proof (words_sum_bounds l Hl).
    rewrite be_val_pair in *. rewrite wrap_small by (unfold in_width, u32_max in *; lia).
    rewrite IH by (done || lia). lia.
Qed.

Lemma words_sum_app l1 l2 :
  Nat.Even (length l1) -> words_sum (l1 ++ l2) = words_sum l1 + words_sum l2.
Proof.
  induction l1 as [|a|a b l IH] using pairs_ind; intros He; cbn [words_sum app length] in *.
  - done.
  - by destruct He as [k Hk]; lia.
  - rewrite IH; [lia|]. destruct He as [k Hk]. exists (k - 1)%nat. lia.
Qed.

(** ** What a checksum of zero means *)

Lemma checksum_value seed data :
  all_bytes data -> 0 <= seed -> seed + words_sum data <= u32_max ->
  exists f, internet_checksum seed data = 65535 - f /\ 0 <= f <= 65535 /\
    f mod 65535 = (seed + words_sum data) mod 65535 /\ (f = 0 <-> seed + words_sum data = 0).
Proof.
  intros Hb Hs Hm. pose proof (words_sum_bounds data Hb) as Hw.
  destruct (fold_carries_spec (seed + words_sum data)) as (Hf & Hr & Hz).
  { unfold in_width, u32_max in *. lia. }
  exists (fold_carries (seed + words_sum data)). unfold internet_checksum.
  rewrite add_words_exact, (wrap_small 16) by done. unfold in_width in Hf.
  split; [done|]. split; [lia|]. by split.
Qed.

Lemma residue_zero f : 0 <= f <= 65535 -> f mod 65535 = 0 -> f = 0 \/ f = 65535.
Proof.
  intros Hf Hr. destruct (Z.eq_dec f 65535); [by right|]. rewrite Z.mod_small in Hr by lia. by left.
Qed.

Lemma checksum_zero seed data :
  all_bytes data -> 0 <= seed -> seed + words_sum data <= u32_max ->
  internet_checksum seed data = 0 <->
  0 < seed + words_sum data /\ (seed + words_sum data) mod 65535 = 0.
Proof.
  intros Hb Hs Hm. destruct (checksum_value seed data) as (f & -> & Hf & Hr & Hz); [done..|].
  pose proof (words_sum_bounds data Hb). split.
  - intros E. assert (f = 65535) as -> by lia. split; [|by rewrite <- Hr]. lia.
  - intros [Hp Ht]. rewrite Ht in Hr. destruct (residue_zero f Hf Hr); lia.
Qed.

(** ** The documented domain *)

(** One IP packet at a time, seeded with a pseudo-header sum. *)
Definition checksum_domain (seed : Z) (data : list Z) : Prop :=
  all_bytes data /\ Z.of_nat (length data) <= 65535 /\ 0 <= seed <= 2 ^ 31.

Lemma domain_exact seed data :
  checksum_domain seed data ->
  all_bytes data /\ 0 <= seed /\ seed + words_sum data <= u32_max.
Proof.
  intros (Hb & Hl & Hs). pose proof (words_sum_bounds data Hb). unfold u32_max. split; [done|]. lia.
Qed.

Lemma pseudo_sum_bound l proto len :
  all_bytes l -> Z.of_nat (length l) = 32 -> in_width 16 len -> in_width 8 proto ->
  0 <= add_words 0 l + len + proto <= 2 ^ 21.
Proof.
  intros Hb Hl Hlen Hp. pose proof (words_sum_bounds l Hb). unfold in_width in *.
  rewrite add_words_exact by (done || unfold u32_max; lia). lia.
Qed.

(** ** Changing bytes *)

(** What one byte contributes to the sum. *)
Definition byte_weight (i : nat) : Z := if Nat.even i then 256 else 1.

Lemma words_sum_insert l i a x :
  l !! i = Some a -> words_sum (<[i := x]> l) = words_sum l + byte_weight i * (x - a).
Proof.
  revert i. induction l as [|c|c d l IH] using pairs_ind; intros i Hi.
  - done.
  - destruct i; [|done]. injection Hi as ->. cbn. lia.
  - destruct i as [|[|i]]; cbn in Hi; simplify_eq; cbn [words_sum insert list_insert].
    1,2: rewrite !be_val_pair; unfold byte_weight; simpl; lia.
    change (byte_weight (S (S i))) with (byte_weight i). rewrite IH by done. lia.
Qed.

Lemma splice_pair l k x y l' :
  splice l k [x; y] = Some l' -> l' = <[S k := y]> (<[k := x]> l) /\ (S k < length l)%nat.
Proof.
  unfold splice. change (length [x; y]) with 2%nat.
  destruct (Nat.leb_spec (k + 2) (length l)); [|done]. intros [= <-].
  split; [|lia]. apply list_eq. intros i. rewrite !list_lookup_insert.
  destruct (decide (i < k)%nat).
  { rewrite lookup_app_l, lookup_take_lt by (rewrite ?length_take; lia).
    rewrite !decide_False by lia. done. }
  rewrite lookup_app_r, length_take, Nat.min_l by (rewrite ?length_take; lia).
  rewrite length_insert. destruct (decide (i = k)) as [->|].
  { rewrite Nat.sub_diag, decide_False, decide_True by lia. done. }
  destruct (decide (i = S k)) as [->|].
  { replace (S k - k)%nat with 1%nat by lia. rewrite decide_True by lia. done. }
  rewrite !decide_False by lia. change (x :: y :: ?t) with ([x; y] ++ t).
  rewrite lookup_app_r, lookup_drop by (simpl; lia).
  f_equal. simpl. lia.
Qed.

(** Replacing two bytes at [k]: the word itself at an even index, the swapped word
    at an odd one. *)
Lemma words_sum_splice l k a b x y l' :
  l !! k = Some a -> l !! S k = Some b -> splice l k [x; y] = Some l' ->
  words_sum l' = words_sum l +
    if Nat.even k then be_val [x; y] - be_val [a; b] else be_val [y; x] - be_val [b; a].
Proof.
  intros Ha Hb (-> & Hl)%splice_pair.
  rewrite (words_sum_insert _ (S k) b), (words_sum_insert _ k a) by
    (rewrite ?list_lookup_insert_ne by lia; done).
  unfold byte_weight. rewrite Nat.even_succ, <- Nat.negb_even, !be_val_pair.
  destruct (Nat.even k); simpl; lia.
Qed.

Lemma splice_bytes l k new l' :
  all_bytes l -> all_bytes new -> splice l k new = Some l' -> all_bytes l'.
Proof.
  unfold splice. case_match; [|done]. intros Hl Hn [= <-].
  apply Forall_app. split; [by apply Forall_take|]. apply Forall_app. split; [done|by apply Forall_drop].
Qed.

(** ** Filling a checksum field *)

Lemma be_bytes_2 x : be_bytes 2 x = [x / 256 mod 256; x mod 256].
Proof. done. Qed.

(** Writing a big-endian word at [k]. *)
Definition put_word (k : nat) (w : Z) (l : list Z) : list Z :=
  <[S k := w mod 256]> (<[k := w / 256 mod 256]> l).

Lemma splice_word l k w :
  (S k < length l)%nat -> splice l k (be_bytes 2 w) = Some (put_word k w l).
Proof.
  intros Hk. rewrite be_bytes_2. destruct (splice l k _) eqn:E.
  - by apply splice_pair in E as [-> _].
  - unfold splice in E. simpl in E. destruct (Nat.leb_spec (k + 2) (length l)); [done|lia].
Qed.

Lemma length_put_word k w l : length (put_word k w l) = length l.
Proof. unfold put_word. by rewrite !length_insert. Qed.

Lemma lookup_put_word_ne k w l i : i <> k -> i <> S k -> put_word k w l !! i = l !! i.
Proof. intros. unfold put_word. by rewrite !list_lookup_insert_ne by lia. Qed.

Lemma lookup_put_word k w l :
  (S k < length l)%nat -> in_width 16 w ->
  exists a b, put_word k w l !! k = Some a /\ put_word k w l !! S k = Some b /\ be_val [a; b] = w.
Proof.
  intros Hk Hw. exists (w / 256 mod 256), (w mod 256). unfold put_word.
  rewrite list_lookup_insert_eq by (rewrite length_insert; lia).
  rewrite list_lookup_insert_ne, list_lookup_insert_eq by lia.
  split; [done|]. split; [done|]. rewrite <- be_bytes_2. by apply (be_val_be_bytes 2).
Qed.

Lemma put_word_bytes k w l : all_bytes l -> all_bytes (put_word k w l).
Proof.
  intros Hl. unfold put_word, all_bytes. pose proof (wrap_in_width 8 w). 
  pose proof (wrap_in_width 8 (w / 256)). apply Forall_insert; [apply Forall_insert; [done|]|].
  all: unfold is_byte, wrap in *; auto with lia.
Qed.

Lemma drop_put_word n k w l :
  (n <= k)%nat -> drop n (put_word k w l) = put_word (k - n) w (drop n l).
Proof.
  intros Hn. unfold put_word. rewrite !drop_insert_ge by lia.
  by replace (S k - n)%nat with (S (k - n)) by lia.
Qed.

Lemma words_sum_put_word l k a b w :
  l !! k = Some a -> l !! S k = Some b -> in_width 16 w ->
  words_sum (put_word k w l) mod 65535 =
  (words_sum l + (if Nat.even k then 1 else 256) * (w - be_val [a; b])) mod 65535.
Proof.
  intros Ha Hb Hw. assert (Hk : (S k < length l)%nat) by by eapply lookup_lt_Some.
  pose proof (splice_word l k w Hk) as Hs. rewrite be_bytes_2 in Hs.
  rewrite (words_sum_splice _ _ _ _ _ _ _ Ha Hb Hs).
  assert (be_val (be_bytes 2 w) = w) as E by (by apply (be_val_be_bytes 2)).
  rewrite be_bytes_2, be_val_pair in E. rewrite !be_val_pair.
  destruct (Nat.even k); [f_equal; lia|].
  set (h := w / 256 mod 256) in *. set (o := w mod 256) in *. rewrite <- E.
  replace (words_sum l + 256 * (h * 256 + o - (a * 256 + b))) with
    (words_sum l + (o * 256 + h - (b * 256 + a)) + (h - a) * 65535) by lia.
  by rewrite Z.mod_add.
Qed.

Lemma be_val_bytes_2 x : in_width 16 x -> be_val (be_bytes 2 x) = x.
Proof. apply (be_val_be_bytes 2). Qed.

Lemma domain_splice seed l k new l' :
  checksum_domain seed l -> all_bytes new -> splice l k new = Some l' -> checksum_domain seed l'.
Proof.
  intros (Hb & Hl & Hs) Hn Hsp. split; [exact (splice_bytes _ _ _ _ Hb Hn Hsp)|].
  by apply length_splice in Hsp as ->.
Qed.

(** Writing the checksum of a buffer into its zeroed field makes it verify. *)
Lemma fill_verifies seed data k data' :
  checksum_domain seed data -> Nat.Even k -> data !! k = Some 0 -> data !! S k = Some 0 ->
  splice data k (be_bytes 2 (internet_checksum seed data)) = Some data' ->
  internet_checksum seed data' = 0.
Proof.
  intros Hd He Ha Hb Hs.
  pose proof (domain_splice _ _ _ _ _ Hd (be_bytes_all_bytes 2 _) Hs) as Hd'.
  destruct (domain_exact _ _ Hd) as (Hby & Hseed & Hmax).
  destruct (domain_exact _ _ Hd') as (Hby' & _ & Hmax').
  destruct (checksum_value seed data) as (f & Hck & Hf & Hr & Hz); [done..|].
  pose proof (words_sum_bounds data Hby).
  apply checksum_zero; [done..|].
  rewrite be_bytes_2 in Hs. rewrite (words_sum_splice _ _ _ _ _ _ _ Ha Hb Hs).
  rewrite (proj2 (Nat.even_spec k) He), <- be_bytes_2, be_val_bytes_2, Hck, be_val_pair by
    (unfold in_width; rewrite Hck; lia).
  split; [lia|]. replace (seed + (words_sum data + _)) with
    (((seed + words_sum data) - f) + 1 * 65535) by lia.
  rewrite Z.mod_add by lia. rewrite Zminus_mod, Hr, Z.sub_diag. done.
Qed.

(** ** The incremental update *)

(** The update shifts the checksum by the change of the word, and never yields the
    negative zero unless nothing but zero was summed. *)
Lemma incremental_value ck old new :
  in_width 16 ck -> in_width 16 old -> in_width 16 new ->
  exists f, incremental_checksum_update ck old new = 65535 - f /\ 0 <= f <= 65535 /\
    f mod 65535 = (new - old - ck) mod 65535 /\ (f = 0 <-> ck = 65535 /\ old = 65535 /\ new = 0).
Proof.
  unfold in_width, incremental_checksum_update, not16, u16_max. change (2 ^ 16) with 65536.
  intros Hck Ho Hn. change (65536 - 1) with 65535. set (s := 65535 - ck + (65535 - old) + new).
  destruct (fold_carries_spec s) as (Hf & Hr & Hz); [unfold in_width, s; lia|].
  exists (fold_carries s). rewrite (wrap_small 16) by done. unfold in_width in Hf.
  split; [done|]. split; [lia|]. split; [|unfold s in *; lia].
  rewrite Hr. unfold s. replace (65535 - ck + (65535 - old) + new) with
    (new - old - ck + 2 * 65535) by lia. by rewrite Z.mod_add.
Qed.

Lemma incremental_width ck old new :
  in_width 16 ck -> in_width 16 old -> in_width 16 new ->
  in_width 16 (incremental_checksum_update ck old new).
Proof.
  intros H1 H2 H3. destruct (incremental_value ck old new) as (f & -> & Hf & _); [done..|].
  unfold in_width. lia.
Qed.

Lemma lookup_word_width (data : list Z) k a b :
  all_bytes data -> data !! k = Some a -> data !! S k = Some b -> in_width 16 (be_val [a; b]).
Proof.
  intros Hb Ha Hb'. apply (lookup_byte _ _ _ Hb) in Ha. apply (lookup_byte _ _ _ Hb) in Hb'.
  unfold in_width. rewrite be_val_pair. lia.
Qed.

Lemma same_residue f g :
  0 <= f <= 65535 -> 0 <= g <= 65535 -> f mod 65535 = g mod 65535 -> (f = 0 <-> g = 0) -> f = g.
Proof.
  intros Hf Hg E Hz. destruct (Z.eq_dec f 65535) as [->|], (Z.eq_dec g 65535) as [->|]; try done.
  - change (65535 mod 65535) with 0 in E. symmetry in E. destruct (residue_zero g); lia.
  - change (65535 mod 65535) with 0 in E. destruct (residue_zero f); lia.
  - by rewrite !Z.mod_small in E by lia.
Qed.

Lemma residue_shift a b : a mod 65535 = b mod 65535 -> exists k, a = b + k * 65535.
Proof.
  intros E. exists (a / 65535 - b / 65535).
  pose proof (Z.div_mod a 65535). pose proof (Z.div_mod b 65535). lia.
Qed.

(** A byte bounds the sum from below. *)
Lemma words_sum_pos l i a : all_bytes l -> l !! i = Some a -> 0 < a -> 0 < words_sum l.
Proof.
  intros Hl Hi Ha. pose proof (words_sum_insert l i a 0 Hi) as E.
  assert (all_bytes (<[i := 0]> l)) as Hl' by (apply Forall_insert; [done|by vm_compute]).
  pose proof (words_sum_bounds _ Hl'). unfold byte_weight in E. destruct (Nat.even i); lia.
Qed.

(** The incremental update computes what recomputing would: for a buffer in
    the documented domain and a 16-bit word at an even index, updating the
    checksum of the old buffer gives the checksum of the buffer with the new
    word, provided the new buffer and seed do not sum to zero. *)
Theorem incremental_is_recompute seed data k a b new data' :
  checksum_domain seed data -> Nat.Even k -> in_width 16 new ->
  data !! k = Some a -> data !! S k = Some b ->
  splice data k (be_bytes 2 new) = Some data' -> seed + words_sum data' <> 0 ->
  incremental_checksum_update (internet_checksum seed data) (be_val [a; b]) new =
  internet_checksum seed data'.
Proof.
  intros Hd He Hn Ha Hb Hs Hnz.
  pose proof (domain_splice _ _ _ _ _ Hd (be_bytes_all_bytes 2 _) Hs) as Hd'.
  destruct (domain_exact _ _ Hd) as (Hby & Hseed & Hmax).
  destruct (domain_exact _ _ Hd') as (Hby' & _ & Hmax').
  pose proof (lookup_word_width _ _ _ _ Hby Ha Hb) as Ho.
  destruct (checksum_value seed data) as (f & -> & Hf & Hr & Hz); [done..|].
  destruct (checksum_value seed data') as (g & -> & Hg & Hrg & Hzg); [done..|].
  destruct (incremental_value (65535 - f) (be_val [a; b]) new) as (h & -> & Hh & Hrh & Hzh);
    [unfold in_width; lia|done..|].
  rewrite be_bytes_2 in Hs. pose proof (words_sum_splice _ _ _ _ _ _ _ Ha Hb Hs) as Hw.
  rewrite (proj2 (Nat.even_spec k) He), <- be_bytes_2, be_val_bytes_2 in Hw by done.
  f_equal. apply same_residue; try done.
  - rewrite Hrh, Hrg, Hw.
    replace (new - be_val [a; b] - (65535 - f)) with (f + (new - be_val [a; b]) + (-1) * 65535) by lia.
    rewrite Z.mod_add, Zplus_mod, Hr, <- Zplus_mod by lia. f_equal. lia.
  - rewrite Hzh, Hzg. split; [|lia]. intros (Hf0 & Hold & Hnew).
    pose proof (words_sum_bounds data Hby) as Hdb.
    destruct (Z.eq_dec (seed + words_sum data) 0) as [E|]; [|lia].
    pose proof (words_sum_bounds data' Hby'). lia.
Qed.

Lemma incremental_is_recompute_witness :
  incremental_checksum_update (internet_checksum 7 [1; 2; 3; 4; 5]) (be_val [3; 4]) 1234 =
  internet_checksum 7 [1; 2; 4; 210; 5].
Proof.
  apply (incremental_is_recompute 7 [1; 2; 3; 4; 5] 2 3 4 1234 [1; 2; 4; 210; 5]); try done.
  - split; [|by vm_compute]. by repeat constructor.
  - by exists 1%nat.
Defined.
