(* ===== verification/InnerMtu.v ===== *)
(** Inner packets on narrow paths
    ([crates/warrenguard-transport-core/src/inner_mtu.rs]): the clamp of the TCP
    MSS option and the ICMP errors that report a packet too big.

    The functions index into the packet, so that each returns [option] and
    [None] is a panic; a function that changes the packet in place returns it. *)

From S2P Require Import Prelude Checksum.

Definition IPV4_MIN_HEADER : nat := 20.
Definition IPV6_HEADER : nat := 40.
Definition TCP_MIN_HEADER : nat := 20.
Definition MSS_FLOOR : Z := 536.

Definition effective_mss (max_inner : Z) (v6 : bool) : Z :=
  let hdrs := if v6 then 60 else 40 in
  Z.max (Z.max 0 (max_inner - hdrs)) MSS_FLOOR.

(** The header length of an IPv4 packet, from its first byte. *)
Definition ihl_of (first : Z) : nat := Z.to_nat (Z.land first 0x0f) * 4.

Definition syn_tcp_offset (pkt : list Z) : option (option (nat * bool)) :=
  match pkt with
  | [] => Some None
  | first :: _ =>
      if nibble first =? 4 then
        let ihl := ihl_of first in
        if ((ihl <? IPV4_MIN_HEADER) || (length pkt <? ihl + TCP_MIN_HEADER))%nat then Some None
        else
          proto ← pkt !! 9%nat;
          if negb (proto =? 6) then Some None
          else
            f0 ← pkt !! 6%nat; f1 ← pkt !! 7%nat;
            if negb (Z.land (be_val [f0; f1]) 0x1fff =? 0) then Some None
            else Some (Some (ihl, false))
      else if nibble first =? 6 then
        if (length pkt <? IPV6_HEADER + TCP_MIN_HEADER)%nat then Some None
        else
          next ← pkt !! 6%nat;
          if negb (next =? 6) then Some None else Some (Some (IPV6_HEADER, true))
      else Some None
  end.

Definition is_tcp_syn (pkt : list Z) : option bool :=
  at_tcp ← syn_tcp_offset pkt;
  Some match at_tcp with
       | None => false
       | Some (tcp, _) =>
           match pkt !! (tcp + 13)%nat with
           | Some flags => negb (Z.land flags 0x02 =? 0)
           | None => false
           end
       end.

(** The option found at [i]: its value is lowered and the checksum follows. *)
Definition rewrite_mss (pkt : list Z) (tcp : nat) (max_mss : Z) (i : nat)
  : option (list Z * option (Z * Z)) :=
  m0 ← pkt !! (i + 2)%nat; m1 ← pkt !! (i + 3)%nat;
  let old := be_val [m0; m1] in
  if old <=? max_mss then Some (pkt, None)
  else
    pkt ← splice pkt (i + 2) (be_bytes 2 max_mss);
    let ck_at := (tcp + 16)%nat in
    c0 ← pkt !! ck_at; c1 ← pkt !! (ck_at + 1)%nat;
    let new_ck := incremental_checksum_update (be_val [c0; c1]) old max_mss in
    pkt ← splice pkt ck_at (be_bytes 2 new_ck);
    Some (pkt, Some (old, max_mss)).

(** The walk over the options; [mss_loop_spec] shows that [end_ - i] turns and one
    are enough. *)
Fixpoint mss_loop (fuel : nat) (pkt : list Z) (tcp : nat) (max_mss : Z) (i end_ : nat)
  : option (list Z * option (Z * Z)) :=
  match fuel with
  | O => None
  | S n =>
      if (i <? end_)%nat then
        kind ← pkt !! i;
        if kind =? 0 then Some (pkt, None)
        else if kind =? 1 then mss_loop n pkt tcp max_mss (i + 1) end_
        else if (end_ <=? i + 1)%nat then Some (pkt, None)
        else
          len ← pkt !! (i + 1)%nat;
          let optlen := Z.to_nat len in
          if ((optlen <? 2) || (end_ <? i + optlen))%nat then Some (pkt, None)
          else if (kind =? 2) && (optlen =? 4)%nat then rewrite_mss pkt tcp max_mss i
          else mss_loop n pkt tcp max_mss (i + optlen) end_
      else Some (pkt, None)
  end.

Definition clamp_syn_mss (pkt : list Z) (max_inner : Z) : option (list Z * option (Z * Z)) :=
  at_tcp ← syn_tcp_offset pkt;
  match at_tcp with
  | None => Some (pkt, None)
  | Some (tcp, v6) =>
      flags ← pkt !! (tcp + 13)%nat;
      if Z.land flags 0x02 =? 0 then Some (pkt, None)
      else
        off ← pkt !! (tcp + 12)%nat;
        let doff := (Z.to_nat (nibble off) * 4)%nat in
        if ((doff <? TCP_MIN_HEADER) || (length pkt <? tcp + doff))%nat then Some (pkt, None)
        else
          mss_loop (S doff) pkt tcp (effective_mss max_inner v6) (tcp + TCP_MIN_HEADER) (tcp + doff)
  end.

Definition PROXY_BUDGET_MARGIN : Z := 48.

Definition clamp_uplink_syn (pkt : list Z) (budget : Z) : option (list Z * option (Z * Z)) :=
  clamp_syn_mss pkt (Z.max 0 (budget - PROXY_BUDGET_MARGIN)).

Definition clamp_downlink_syn (pkt : list Z) (budget : Z) : option (list Z * option (Z * Z)) :=
  clamp_syn_mss pkt budget.

Definition QUIC_SAFE_INNER_MTU : Z := 1228.
Definition CARRIER_MAX_INNER_MTU : Z := 1100.

Definition carrier_capped_inner_mtu (inner_mtu : Z) (over_carrier : bool) : Z :=
  if over_carrier then Z.min inner_mtu CARRIER_MAX_INNER_MTU else inner_mtu.

(** ** ICMP errors *)

Definition is_icmp_error (pkt : list Z) : option bool :=
  match pkt with
  | [] => Some false
  | first :: _ =>
      if nibble first =? 4 then
        let ihl := ihl_of first in
        if (ihl <? length pkt)%nat then
          proto ← pkt !! 9%nat;
          if proto =? 1 then
            ty ← pkt !! ihl;
            Some (bool_decide (ty ∈ [3; 4; 5; 11; 12]))
          else Some false
        else Some false
      else if (nibble first =? 6) && (IPV6_HEADER <? length pkt)%nat then
        next ← pkt !! 6%nat;
        if next =? 58 then ty ← pkt !! IPV6_HEADER; Some (ty <? 128) else Some false
      else Some false
  end.

(** The classes of [std::net::Ipv4Addr] and [Ipv6Addr] the code asks for. *)
Definition v4_is_multicast (a : Z) : bool := Z.land (Z.shiftr a 24) 0xf0 =? 0xe0.
Definition v4_is_broadcast (a : Z) : bool := a =? u32_max.
Definition v4_is_loopback (a : Z) : bool := Z.shiftr a 24 =? 127.
Definition v6_is_multicast (a : Z) : bool := Z.shiftr a 120 =? 0xff.
Definition v6_is_loopback (a : Z) : bool := a =? 1.

Definition v4_error (dropped : list Z) (ty code : Z) (rest : list Z) (gw_v4 : Z) (ihl : nat)
  (src : list Z) : option (list Z) :=
  let quote_len := Nat.min (ihl + 8) (length dropped) in
  let total := (IPV4_MIN_HEADER + 8 + quote_len)%nat in
  let pkt := replicate total 0 in
  pkt ← splice pkt 0 [0x45];
  pkt ← splice pkt 2 (be_bytes 2 (wrap 16 (Z.of_nat total)));
  pkt ← splice pkt 8 [64];
  pkt ← splice pkt 9 [1];
  pkt ← splice pkt 12 (be_bytes 4 gw_v4);
  pkt ← splice pkt 16 src;
  header ← slice pkt 0 IPV4_MIN_HEADER;
  pkt ← splice pkt 10 (be_bytes 2 (internet_checksum 0 header));
  let icmp := IPV4_MIN_HEADER in
  pkt ← splice pkt icmp [ty];
  pkt ← splice pkt (icmp + 1) [code];
  pkt ← splice pkt (icmp + 4) rest;
  quote ← slice dropped 0 quote_len;
  pkt ← splice pkt (icmp + 8) quote;
  msg ← slice pkt icmp (length pkt);
  splice pkt (icmp + 2) (be_bytes 2 (internet_checksum 0 msg)).

Definition v6_error (dropped : list Z) (ty code : Z) (rest : list Z) (gw_v6 : Z)
  (src : list Z) : option (list Z) :=
  let quote_len := Nat.min (length dropped) (1280 - IPV6_HEADER - 8) in
  let icmp_len := (8 + quote_len)%nat in
  let total := (IPV6_HEADER + icmp_len)%nat in
  let pkt := replicate total 0 in
  pkt ← splice pkt 0 [0x60];
  pkt ← splice pkt 4 (be_bytes 2 (wrap 16 (Z.of_nat icmp_len)));
  pkt ← splice pkt 6 [58];
  pkt ← splice pkt 7 [64];
  pkt ← splice pkt 8 (be_bytes 16 gw_v6);
  pkt ← splice pkt 24 src;
  let icmp := IPV6_HEADER in
  pkt ← splice pkt icmp [ty];
  pkt ← splice pkt (icmp + 1) [code];
  pkt ← splice pkt (icmp + 4) rest;
  quote ← slice dropped 0 quote_len;
  pkt ← splice pkt (icmp + 8) quote;
  let seed := icmpv6_pseudo_sum gw_v6 (be_val src) (Z.of_nat icmp_len) in
  msg ← slice pkt icmp (length pkt);
  splice pkt (icmp + 2) (be_bytes 2 (internet_checksum seed msg)).

Definition build_icmp_error (dropped : list Z) (v4 v6 : Z * Z) (rest : list Z) (gw_v4 gw_v6 : Z)
  : option (option (list Z)) :=
  err ← is_icmp_error dropped;
  if err : bool then Some None
  else
    match dropped with
    | [] => Some None
    | first :: _ =>
        if nibble first =? 4 then
          let ihl := ihl_of first in
          if ((ihl <? IPV4_MIN_HEADER) || (length dropped <? ihl))%nat then Some None
          else
            src ← slice dropped 12 16;
            let src_ip := be_val src in
            if v4_is_multicast src_ip || v4_is_broadcast src_ip || (src_ip =? 0)
               || v4_is_loopback src_ip
            then Some None
            else Some <$> v4_error dropped (fst v4) (snd v4) rest gw_v4 ihl src
        else if nibble first =? 6 then
          if (length dropped <? IPV6_HEADER)%nat then Some None
          else
            src ← slice dropped 8 24;
            let src_ip := be_val src in
            if v6_is_multicast src_ip || (src_ip =? 0) || v6_is_loopback src_ip then Some None
            else Some <$> v6_error dropped (fst v6) (snd v6) rest gw_v6 src
        else Some None
    end.

Definition build_frag_needed (dropped : list Z) (effective_mtu gw_v4 gw_v6 : Z)
  : option (option (list Z)) :=
  build_icmp_error dropped (3, 4) (2, 0) ([0; 0] ++ be_bytes 2 effective_mtu) gw_v4 gw_v6.

Definition TUNNEL_GATEWAY_IP : Z := ipv4 10 66 0 1.
Definition TUNNEL_GATEWAY_IPV6 : Z := 0xfdcc000f000100000000000000000001.

Definition uplink_frag_needed (dropped : list Z) (budget : Z) : option (option (list Z)) :=
  build_frag_needed dropped budget TUNNEL_GATEWAY_IP TUNNEL_GATEWAY_IPV6.

(** ** The clamp *)

(** Index into a packet that is long enough. *)
Ltac index_in pkt i x :=
  let H := fresh in
  destruct (lookup_in_range pkt i) as [x H]; [simpl in *; lia|rewrite H; cbn [mbind option_bind]].

Lemma ihl_even first : Nat.Even (ihl_of first).
Proof. exists (Z.to_nat (Z.land first 0x0f) * 2)%nat. unfold ihl_of. lia. Qed.

Lemma syn_tcp_offset_spec pkt :
  exists r, syn_tcp_offset pkt = Some r /\
    forall tcp v6, r = Some (tcp, v6) ->
      Nat.Even tcp /\ (20 <= tcp)%nat /\ (tcp + TCP_MIN_HEADER <= length pkt)%nat.
Proof.
  unfold syn_tcp_offset, IPV4_MIN_HEADER, TCP_MIN_HEADER, IPV6_HEADER.
  destruct pkt as [|first pkt']; [by eexists|]. set (pkt := first :: pkt').
  destruct (nibble first =? 4).
  - destruct (Nat.ltb_spec (ihl_of first) 20), (Nat.ltb_spec (length pkt) (ihl_of first + 20));
      cbn [orb]; [by eexists..|].
    index_in pkt 9%nat p. destruct (p =? 6); cbn [negb]; [|by eexists].
    index_in pkt 6%nat f0. index_in pkt 7%nat f1.
    destruct (Z.land _ _ =? 0); cbn [negb]; [|by eexists].
    eexists; split; [done|]. intros tcp v6 [= <- <-]. split; [apply ihl_even|lia].
  - destruct (nibble first =? 6); [|by eexists].
    destruct (Nat.ltb_spec (length pkt) (40 + 20)); [by eexists|].
    index_in pkt 6%nat p. destruct (p =? 6); cbn [negb]; [|by eexists].
    eexists; split; [done|]. intros tcp v6 [= <- <-]. split; [by exists 20%nat|lia].
Qed.

Lemma effective_mss_width max_inner v6 :
  in_width 16 max_inner -> in_width 16 (effective_mss max_inner v6).
Proof. unfold in_width, effective_mss, MSS_FLOOR. destruct v6; lia. Qed.

(** The rewrite of a value above the maximum: two words change. *)
Lemma rewrite_mss_some pkt tcp max_mss i m0 m1 c0 c1 :
  (tcp + 20 <= i)%nat ->
  pkt !! (i + 2)%nat = Some m0 -> pkt !! (i + 3)%nat = Some m1 ->
  pkt !! (tcp + 16)%nat = Some c0 -> pkt !! (tcp + 17)%nat = Some c1 ->
  max_mss < be_val [m0; m1] ->
  rewrite_mss pkt tcp max_mss i =
    Some (put_word (tcp + 16)
            (incremental_checksum_update (be_val [c0; c1]) (be_val [m0; m1]) max_mss)
            (put_word (i + 2) max_mss pkt),
          Some (be_val [m0; m1], max_mss)).
Proof.
  intros Hi H0 H1 Hc0 Hc1 Hm. unfold rewrite_mss. rewrite H0, H1. cbn [mbind option_bind].
  destruct (Z.leb_spec (be_val [m0; m1]) max_mss); [lia|].
  apply lookup_lt_Some in H1 as Hl. rewrite splice_word by lia. cbn [mbind option_bind]. cbv zeta.
  replace (tcp + 16 + 1)%nat with (tcp + 17)%nat by lia.
  rewrite !lookup_put_word_ne, Hc0 by lia. cbn [mbind option_bind]. rewrite Hc1. cbn [mbind option_bind].
  by rewrite splice_word by (rewrite length_put_word; lia).
Qed.

(** The option at [j] announces at most the maximum in [l']. *)
Definition settled (l' : list Z) (max_mss : Z) (j : nat) : Prop :=
  exists m0 m1, l' !! (j + 2)%nat = Some m0 /\ l' !! (j + 3)%nat = Some m1 /\ be_val [m0; m1] <= max_mss.

(** The walk leaves the packet alone, or rewrites the option at some [j]; then the
    walk over any packet with the same option headers and a settled value there
    changes nothing. *)
Lemma mss_loop_spec fuel pkt tcp max_mss i end_ :
  (tcp + 20 <= i)%nat -> (end_ <= length pkt)%nat -> (end_ - i < fuel)%nat ->
  mss_loop fuel pkt tcp max_mss i end_ = Some (pkt, None) \/
  exists j m0 m1,
    (i <= j)%nat /\ (j + 4 <= end_)%nat /\ pkt !! j = Some 2 /\ pkt !! (j + 1)%nat = Some 4 /\
    pkt !! (j + 2)%nat = Some m0 /\ pkt !! (j + 3)%nat = Some m1 /\ max_mss < be_val [m0; m1] /\
    mss_loop fuel pkt tcp max_mss i end_ = rewrite_mss pkt tcp max_mss j /\
    forall l', (forall x, (i <= x < j + 2)%nat -> l' !! x = pkt !! x) -> settled l' max_mss j ->
      mss_loop fuel l' tcp max_mss i end_ = Some (l', None).
Proof.
  revert i. induction fuel as [|n IH]; intros i Hi He Hf; [lia|]. cbn [mss_loop].
  destruct (Nat.ltb_spec i end_) as [Hlt|]; [|by left].
  destruct (lookup_in_range pkt i) as [k Hk]; [lia|]. rewrite Hk. cbn [mbind option_bind].
  destruct (Z.eqb_spec k 0); [by left|]. destruct (Z.eqb_spec k 1) as [->|].
  { destruct (IH (i + 1)%nat) as [->|(j & m0 & m1 & ? & ? & ? & ? & ? & ? & ? & -> & Hst)]; [lia..|by left|].
    right. exists j, m0, m1. repeat (split; [done || lia|]). intros l' Hl' Hs.
    rewrite (Hl' i), Hk by lia. cbn [mbind option_bind]. apply Hst; [|done]. intros. apply Hl'. lia. }
  destruct (Nat.leb_spec end_ (i + 1)); [by left|].
  destruct (lookup_in_range pkt (i + 1)) as [len Hlen]; [lia|]. rewrite Hlen. cbn [mbind option_bind].
  destruct (Nat.ltb_spec (Z.to_nat len) 2); [by left|].
  destruct (Nat.ltb_spec end_ (i + Z.to_nat len)); [by left|]. cbn [orb].
  destruct ((k =? 2) && (Z.to_nat len =? 4)%nat) eqn:Hmss.
  - apply andb_true_iff in Hmss as [->%Z.eqb_eq H4%Nat.eqb_eq].
    assert (len = 4) as -> by lia.
    destruct (lookup_in_range pkt (i + 2)) as [m0 Hm0]; [lia|].
    destruct (lookup_in_range pkt (i + 3)) as [m1 Hm1]; [lia|].
    destruct (Z.le_gt_cases (be_val [m0; m1]) max_mss) as [Hle|Hgt].
    + left. unfold rewrite_mss. rewrite Hm0, Hm1. cbn [mbind option_bind]. by apply Z.leb_le in Hle as ->.
    + right. exists i, m0, m1. repeat (split; [done || lia|]). intros l' Hl' (m0' & m1' & Hm0' & Hm1' & Hle).
      rewrite (Hl' i), (Hl' (i + 1)%nat), Hk, Hlen by lia. cbn [mbind option_bind].
      change (2 =? 0) with false. change (2 =? 1) with false. cbv iota.
      change (Z.to_nat 4) with 4%nat in *. change (4 <? 2)%nat with false.
      destruct (Nat.ltb_spec end_ (i + 4)); [lia|]. cbn [orb andb Z.eqb Pos.eqb Nat.eqb].
      unfold rewrite_mss. rewrite Hm0', Hm1'. cbn [mbind option_bind]. by apply Z.leb_le in Hle as ->.
  - destruct (IH (i + Z.to_nat len)%nat) as [->|(j & m0 & m1 & ? & ? & ? & ? & ? & ? & ? & -> & Hst)];
      [lia..|by left|].
    right. exists j, m0, m1. repeat (split; [done || lia|]). intros l' Hl' Hs.
    rewrite (Hl' i), (Hl' (i + 1)%nat), Hk, Hlen by lia. cbn [mbind option_bind].
    destruct (Z.eqb_spec k 0); [done|]. destruct (Z.eqb_spec k 1); [done|].
    destruct (Nat.ltb_spec (Z.to_nat len) 2); [lia|].
    destruct (Nat.ltb_spec end_ (i + Z.to_nat len)); [lia|]. cbn [orb]. rewrite Hmss.
    apply Hst; [|done]. intros. apply Hl'. lia.
Qed.

Lemma syn_tcp_offset_agree l l' :
  length l = length l' -> (forall x, (x < 20)%nat -> l' !! x = l !! x) ->
  syn_tcp_offset l' = syn_tcp_offset l.
Proof.
  intros Hl Ha. destruct l as [|f l], l' as [|f' l']; try done.
  assert (f' = f) as -> by (specialize (Ha O ltac:(lia)); by injection Ha).
  unfold syn_tcp_offset. rewrite <- Hl. by rewrite !Ha by lia.
Qed.

(** Where and how a packet is rewritten. *)
Record clamped (pkt : list Z) (max_inner : Z) (tcp : nat) (v6 : bool) (j : nat) (old ck : Z)
  (pkt' : list Z) : Prop := {
  cl_tcp : syn_tcp_offset pkt = Some (Some (tcp, v6));
  cl_even : Nat.Even tcp;
  cl_option : (20 <= tcp)%nat /\ (tcp + 20 <= j)%nat /\ (j + 4 <= length pkt)%nat;
  cl_kind : pkt !! j = Some 2 /\ pkt !! (j + 1)%nat = Some 4;
  cl_syn : exists flags, pkt !! (tcp + 13)%nat = Some flags /\ Z.land flags 0x02 <> 0;
  cl_old : exists m0 m1, pkt !! (j + 2)%nat = Some m0 /\ pkt !! (j + 3)%nat = Some m1 /\ old = be_val [m0; m1];
  cl_ck : exists c0 c1, pkt !! (tcp + 16)%nat = Some c0 /\ pkt !! (tcp + 17)%nat = Some c1 /\ ck = be_val [c0; c1];
  cl_lower : effective_mss max_inner v6 < old;
  cl_new : pkt' = put_word (tcp + 16) (incremental_checksum_update ck old (effective_mss max_inner v6))
                    (put_word (j + 2) (effective_mss max_inner v6) pkt);
}.

Lemma clamp_cases pkt max_inner :
  in_width 16 max_inner ->
  clamp_syn_mss pkt max_inner = Some (pkt, None) \/
  exists tcp v6 j old ck pkt',
    clamped pkt max_inner tcp v6 j old ck pkt' /\
    clamp_syn_mss pkt max_inner = Some (pkt', Some (old, effective_mss max_inner v6)) /\
    clamp_syn_mss pkt' max_inner = Some (pkt', None).
Proof.
  intros Hm. unfold clamp_syn_mss. destruct (syn_tcp_offset_spec pkt) as (r & Hr & Hspec). rewrite Hr.
  cbn [mbind option_bind]. destruct r as [[tcp v6]|]; [|by left].
  destruct (Hspec _ _ eq_refl) as (He & Ht & Hl). unfold TCP_MIN_HEADER in *.
  destruct (lookup_in_range pkt (tcp + 13)) as [flags Hfl]; [lia|]. rewrite Hfl. cbn [mbind option_bind].
  destruct (Z.eqb_spec (Z.land flags 0x02) 0) as [|Hsyn]; [by left|].
  destruct (lookup_in_range pkt (tcp + 12)) as [off Hoff]; [lia|]. rewrite Hoff. cbn [mbind option_bind].
  set (doff := (Z.to_nat (nibble off) * 4)%nat).
  destruct (Nat.ltb_spec doff 20); [by left|]. destruct (Nat.ltb_spec (length pkt) (tcp + doff)); [by left|].
  cbn [orb]. set (mss := effective_mss max_inner v6).
  destruct (mss_loop_spec (S doff) pkt tcp mss (tcp + 20) (tcp + doff))
    as [->|(j & m0 & m1 & Hj & Hj4 & Hk & Hlen & Hm0 & Hm1 & Hlow & -> & Hst)]; [lia..|by left|].
  destruct (lookup_in_range pkt (tcp + 16)) as [c0 Hc0]; [lia|].
  destruct (lookup_in_range pkt (tcp + 17)) as [c1 Hc1]; [lia|].
  rewrite (rewrite_mss_some _ _ _ _ m0 m1 c0 c1) by done.
  set (ck := incremental_checksum_update _ _ _). set (pkt' := put_word _ _ _).
  right. exists tcp, v6, j, (be_val [m0; m1]), (be_val [c0; c1]), pkt'.
  assert (Hagree : forall x, (x < tcp + 16 \/ tcp + 18 <= x < j + 2)%nat -> pkt' !! x = pkt !! x).
  { intros x Hx. unfold pkt'. by rewrite !lookup_put_word_ne by lia. }
  assert (Hlen' : length pkt = length pkt') by (unfold pkt'; by rewrite !length_put_word).
  split; [|split; [done|]].
  - constructor; eauto 10. lia.
  - rewrite (syn_tcp_offset_agree pkt pkt'), Hr by (done || intros; apply Hagree; lia).
    cbn [mbind option_bind]. rewrite !Hagree, Hfl by lia. cbn [mbind option_bind].
    destruct (Z.eqb_spec (Z.land flags 0x02) 0); [done|]. rewrite Hoff. cbn [mbind option_bind].
    fold doff. rewrite <- Hlen'. destruct (Nat.ltb_spec doff 20); [lia|].
    destruct (Nat.ltb_spec (length pkt) (tcp + doff)); [lia|]. cbn [orb]. apply Hst.
    + intros x Hx. apply Hagree. lia.
    + destruct (lookup_put_word (j + 2) mss pkt) as (a & b & Ha & Hb & Hab);
        [lia|by apply effective_mss_width|].
      exists a, b. unfold pkt'. rewrite !(lookup_put_word_ne (tcp + 16)) by lia.
      replace (j + 3)%nat with (S (j + 2)) by lia. split; [done|]. split; [done|]. lia.
Qed.

(** The clamp terminates without a panic on every packet and budget, keeps the
    length, changes nothing when it reports nothing, and leaves nothing to clamp:
    a second run with the same budget is the identity.  The cheap filter
    [is_tcp_syn] never hides a packet that would have been rewritten. *)
Theorem clamp_total_idempotent pkt max_inner :
  in_width 16 max_inner ->
  exists pkt' r,
    clamp_syn_mss pkt max_inner = Some (pkt', r) /\ length pkt' = length pkt /\
    (r = None -> pkt' = pkt) /\ clamp_syn_mss pkt' max_inner = Some (pkt', None) /\
    (is_tcp_syn pkt = Some false -> r = None).
Proof.
  intros Hm. destruct (clamp_cases pkt max_inner Hm) as [E|(tcp & v6 & j & old & ck & pkt' & Hc & E & Hid)].
  { exists pkt, None. by rewrite E. }
  exists pkt', (Some (old, effective_mss max_inner v6)). destruct Hc.
  split; [done|]. split; [rewrite cl_new0; by rewrite !length_put_word|]. split; [done|]. split; [done|].
  destruct cl_syn0 as (flags & Hf & Hsyn). unfold is_tcp_syn. rewrite cl_tcp0. cbn [mbind option_bind].
  rewrite Hf. by destruct (Z.eqb_spec (Z.land flags 2) 0).
Qed.

(** The sum of the rewritten segment. *)
Lemma clamped_sum pkt max_inner tcp v6 j old ck pkt' :
  in_width 16 max_inner -> all_bytes pkt -> clamped pkt max_inner tcp v6 j old ck pkt' ->
  exists k, words_sum (drop tcp pkt') = words_sum (drop tcp pkt) +
    (if Nat.even (j - tcp) then 0 else 255) * (effective_mss max_inner v6 - old) + k * 65535.
Proof.
  intros Hm Hb [_ _ (Ht & Hj & Hl) _ _ (m0 & m1 & H0 & H1 & ->) (c0 & c1 & Hc0 & Hc1 & ->) _ ->].
  set (mss := effective_mss max_inner v6). pose proof (effective_mss_width max_inner v6 Hm) as Hmss.
  assert (Hd : forall x, drop tcp pkt !! x = pkt !! (tcp + x)%nat) by (intros; apply lookup_drop).
  rewrite !drop_put_word by lia. replace (tcp + 16 - tcp)%nat with 16%nat by lia.
  replace (j + 3)%nat with (S (j + 2)) in H1 by lia. replace (tcp + 17)%nat with (S (tcp + 16)) in Hc1 by lia.
  pose proof (lookup_word_width _ _ _ _ Hb H0 H1) as Ho. pose proof (lookup_word_width _ _ _ _ Hb Hc0 Hc1) as Hc.
  destruct (incremental_value (be_val [c0; c1]) (be_val [m0; m1]) mss) as (f & Ef & Hf & Hrf & _); [done..|].
  pose proof (incremental_width _ _ mss Hc Ho Hmss) as Hw.
  destruct (residue_shift _ _ Hrf) as [k1 Hk1].
  pose proof (words_sum_put_word (put_word (j + 2 - tcp) mss (drop tcp pkt)) 16 c0 c1 _
    ltac:(rewrite lookup_put_word_ne, Hd by lia; done)
    ltac:(rewrite lookup_put_word_ne, Hd by lia; rewrite <- Hc1; f_equal; lia) Hw) as S1.
  pose proof (words_sum_put_word (drop tcp pkt) (j + 2 - tcp) m0 m1 mss
    ltac:(rewrite Hd; rewrite <- H0; f_equal; lia)
    ltac:(rewrite Hd; rewrite <- H1; f_equal; lia) Hmss) as S2.
  destruct (residue_shift _ _ S1) as [k2 Hk2]. destruct (residue_shift _ _ S2) as [k3 Hk3].
  change (Nat.even 16) with true in Hk2. cbv iota in Hk2.
  replace (j + 2 - tcp)%nat with (S (S (j - tcp))) in * by lia.
  change (Nat.even (S (S (j - tcp)))) with (Nat.even (j - tcp)) in *.
  exists (k2 + k3 + 1 - k1). rewrite Hk2, Hk3, Ef. destruct (Nat.even (j - tcp)); lia.
Qed.

Lemma clamped_verifies pkt max_inner tcp v6 j old ck pkt' seed :
  all_bytes pkt -> Z.of_nat (length pkt) <= 65535 -> in_width 16 max_inner ->
  clamped pkt max_inner tcp v6 j old ck pkt' ->
  0 <= seed <= 2 ^ 31 -> internet_checksum seed (drop tcp pkt) = 0 ->
  internet_checksum seed (drop tcp pkt') = 0 <->
  Nat.Even (j - tcp) \/ (257 | old - effective_mss max_inner v6).
Proof.
  intros Hb Hlen Hm Hc Hs Hv. destruct (clamped_sum _ _ _ _ _ _ _ _ Hm Hb Hc) as [k Hk].
  destruct Hc as [_ _ (Ht20 & Hj & Hl) _ (flags & Hf & Hsyn) _ _ _ Hnew].
  set (mss := effective_mss max_inner v6) in *.
  assert (Hb' : all_bytes pkt') by (rewrite Hnew; by apply put_word_bytes, put_word_bytes).
  assert (Hd : checksum_domain seed (drop tcp pkt)).
  { split; [by apply Forall_drop|]. rewrite length_drop. lia. }
  assert (Hd' : checksum_domain seed (drop tcp pkt')).
  { split; [by apply Forall_drop|]. rewrite Hnew, length_drop, !length_put_word. lia. }
  apply domain_exact in Hd as (B1 & B2 & B3), Hd' as (B1' & _ & B3').
  apply checksum_zero in Hv as [_ Hv]; [|done..]. apply Z.mod_divide in Hv as [q Hq]; [|lia].
  assert (Hpos : 0 < words_sum (drop tcp pkt')).
  { apply (words_sum_pos _ 13 flags); [done| |].
    - rewrite lookup_drop, Hnew. by rewrite !lookup_put_word_ne by lia.
    - assert (flags <> 0) by (by intros ->). pose proof (lookup_byte _ _ _ Hb Hf). lia. }
  rewrite checksum_zero, <- Nat.even_spec by done. rewrite Hk in *. destruct (Nat.even (j - tcp)).
  - split; [by left|]. intros _. split; [lia|].
    replace (seed + _) with ((q + k) * 65535) by lia. by rewrite Z.mod_mul.
  - replace (seed + _) with (255 * (mss - old) + (q + k) * 65535) by lia.
    rewrite Z.mod_add by lia. split.
    + intros [_ Hd]. right. apply Z.mod_divide in Hd as [z Hz]; [|lia]. exists (- z). lia.
    + intros [?|[z Hz]]; [done|]. split; [lia|]. apply Z.mod_divide; [lia|]. exists (- z). lia.
Qed.

(** C33.  What the clamp does to a SYN it rewrites.  The announced value drops to
    the effective MSS, only that value and the TCP checksum change, and a segment
    that verified (under any pseudo-header sum) verifies afterwards exactly when
    the MSS option starts at an even offset of the TCP header, or the change is a
    multiple of 257: RFC 1624 updates an aligned word. *)
Theorem clamp_checksum_exact pkt max_inner pkt' old new :
  all_bytes pkt -> Z.of_nat (length pkt) <= 65535 -> in_width 16 max_inner ->
  clamp_syn_mss pkt max_inner = Some (pkt', Some (old, new)) ->
  exists tcp v6 j,
    syn_tcp_offset pkt = Some (Some (tcp, v6)) /\ new = effective_mss max_inner v6 /\ new < old /\
    pkt !! j = Some 2 /\ pkt !! (j + 1)%nat = Some 4 /\
    (exists a b, pkt' !! (j + 2)%nat = Some a /\ pkt' !! (j + 3)%nat = Some b /\ be_val [a; b] = new) /\
    (forall x, x ∉ [tcp + 16; tcp + 17; j + 2; j + 3]%nat -> pkt' !! x = pkt !! x) /\
    forall seed, 0 <= seed <= 2 ^ 31 -> internet_checksum seed (drop tcp pkt) = 0 ->
      (internet_checksum seed (drop tcp pkt') = 0 <-> Nat.Even (j - tcp) \/ (257 | old - new)).
Proof.
  intros Hb Hlen Hm E.
  destruct (clamp_cases pkt max_inner Hm) as [E'|(tcp & v6 & j & o & ck & p & Hc & E' & _)];
    rewrite E' in E; [done|]. injection E as -> -> <-.
  pose proof Hc as [Ht He (Ht20 & Hj & Hl) [Hk2 Hk4] _ _ _ Hlow Hnew].
  set (mss := effective_mss max_inner v6) in *.
  exists tcp, v6, j. repeat (split; [done|]). split; [|split].
  - destruct (lookup_put_word (j + 2) mss pkt) as (a & b & Ha & Hab); [lia|by apply effective_mss_width|].
    exists a, b. rewrite Hnew, !(lookup_put_word_ne (tcp + 16)) by lia.
    by replace (j + 3)%nat with (S (j + 2)) by lia.
  - intros x Hx. rewrite Hnew, !lookup_put_word_ne; try done; intros ->; apply Hx;
      rewrite !elem_of_cons; lia.
  - intros seed Hs Hv. exact (clamped_verifies _ _ _ _ _ _ _ _ seed Hb Hlen Hm Hc Hs Hv).
Qed.

(** A SYN whose MSS option follows one padding byte, and its pseudo-header sum. *)
Definition odd_syn : list Z :=
  [69; 0; 0; 48; 0; 0; 0; 0; 64; 6; 0; 0; 10; 66; 0; 5; 93; 184; 216; 34;
   192; 0; 1; 187; 0; 0; 0; 1; 0; 0; 0; 0; 112; 2; 255; 255; 211; 242; 0; 0;
   1; 2; 4; 5; 180; 1; 1; 1].
Definition odd_syn_seed : Z := l4_pseudo_sum [10; 66; 0; 5] [93; 184; 216; 34] 6 28.

Lemma clamp_total_idempotent_witness :
  exists pkt' r, clamp_syn_mss odd_syn 1240 = Some (pkt', r) /\ clamp_syn_mss pkt' 1240 = Some (pkt', None).
Proof.
  destruct (clamp_total_idempotent odd_syn 1240) as (p & r & E & _ & _ & Hid & _); [done|].
  by exists p, r.
Defined.

(** The checksum of the rewritten packet is wrong. *)
Lemma clamp_checksum_exact_witness :
  exists pkt', clamp_syn_mss odd_syn 1240 = Some (pkt', Some (1460, 1200)) /\
    internet_checksum odd_syn_seed (drop 20 odd_syn) = 0 /\
    internet_checksum odd_syn_seed (drop 20 pkt') <> 0.
Proof.
  destruct (clamp_syn_mss odd_syn 1240) as [[p r]|] eqn:E; [|by vm_compute in E].
  pose proof E as E'. vm_compute in E'. injection E' as Hp Hr. rewrite <- Hr in E.
  exists p. rewrite <- Hr. split; [done|]. split; [by vm_compute|]. intros Hv.
  destruct (clamp_checksum_exact odd_syn 1240 p 1460 1200) as
    (tcp & v6 & j & Ht & _ & _ & Hj & Hj1 & _ & _ & Hsum); [|done|done|done|].
  { by repeat constructor. }
  vm_compute in Ht. injection Ht as <- <-.
  destruct (Hsum odd_syn_seed) as [Hout _]; [done|by vm_compute|].
  destruct (Hout Hv) as [He|[z Hz]]; [|lia].
  assert (j = 41%nat) as ->; [|by destruct He; lia].
  apply lookup_lt_Some in Hj1 as Hl. change (length odd_syn) with 48%nat in Hl.
  do 48 (destruct j as [|j]; [by first [done|vm_compute in Hj|vm_compute in Hj1]|]). lia.
Defined.
