(* ===== verification/IcmpErrors.v ===== *)
(** The ICMP errors of [crates/warrenguard-transport-core/src/inner_mtu.rs]: the
    packets [build_frag_needed] produces are well formed, go to the sender of the
    dropped packet and never answer an ICMP error. *)

From S2P Require Import Prelude Checksum IpPackets InnerMtu.
(** ** What the ICMP errors look like *)

Lemma four_bytes (l : list Z) : length l = 4%nat -> exists a b c d, l = [a; b; c; d].
Proof. intros H. destruct l as [|a [|b [|c [|d [|]]]]]; try done. by exists a, b, c, d. Qed.

Lemma bind_some {A B} (m : option A) (f : A -> option B) x r : m = Some x -> f x = r -> m ≫= f = r.
Proof. by intros -> <-. Qed.

(** One write into the concrete front of a buffer. *)
Ltac run_splice :=
  eapply bind_some; [cbn [splice slice andb app take drop length Nat.add Nat.sub Nat.leb]; reflexivity|];
  cbv beta.

Lemma splice_quote front (q : nat) (quote : list Z) :
  length quote = q -> splice (front ++ replicate q 0) (length front) quote = Some (front ++ quote).
Proof.
  intros Hq. unfold splice. rewrite length_app, length_replicate, Hq, Nat.leb_refl.
  rewrite take_app_length, drop_ge by (rewrite length_app, length_replicate; lia). by rewrite app_nil_r.
Qed.

Lemma v4_error_form dropped ty code rest gw ihl src :
  length rest = 4%nat -> length src = 4%nat ->
  let q := Nat.min (ihl + 8) (length dropped) in
  let total := be_bytes 2 (wrap 16 (Z.of_nat (28 + q))) in
  let header0 := [0x45; 0] ++ total ++ [0; 0; 0; 0; 64; 1; 0; 0] ++ be_bytes 4 gw ++ src in
  let msg0 := [ty; code; 0; 0] ++ rest ++ take q dropped in
  v4_error dropped ty code rest gw ihl src =
    Some (put_word 10 (internet_checksum 0 header0) header0 ++
          put_word 2 (internet_checksum 0 msg0) msg0).
Proof.
  intros Hr Hs q total header0 msg0. unfold v4_error. fold q.
  change (IPV4_MIN_HEADER + 8 + q)%nat with (28 + q)%nat. fold total.
  rewrite replicate_add. change (replicate 28 0) with
    [0; 0; 0; 0; 0; 0; 0; 0; 0; 0; 0; 0; 0; 0; 0; 0; 0; 0; 0; 0; 0; 0; 0; 0; 0; 0; 0; 0].
  destruct (four_bytes (be_bytes 4 gw) (length_be_bytes 4 gw)) as (g0 & g1 & g2 & g3 & Hg).
  destruct (four_bytes src Hs) as (s0 & s1 & s2 & s3 & ->).
  destruct (four_bytes rest Hr) as (r0 & r1 & r2 & r3 & ->).
  unfold header0, msg0. rewrite Hg. unfold total. rewrite be_bytes_2. cbn [app].
  set (t1 := _ / 256 mod 256). set (t0 := _ mod 256). clearbody t1 t0. unfold IPV4_MIN_HEADER. cbv zeta.
  do 7 run_splice. generalize (internet_checksum 0 [69; 0; t1; t0; 0; 0; 0; 0; 64; 1; 0; 0; g0; g1; g2; g3;
    s0; s1; s2; s3]). intros ck. rewrite be_bytes_2. do 4 run_splice.
  eapply bind_some; [apply slice_some; lia|]. rewrite Nat.sub_0_r. change (drop 0 dropped) with dropped.
  set (front := [69; 0; t1; t0; 0; 0; 0; 0; 64; 1; ck / 256 mod 256; ck mod 256; g0; g1; g2; g3;
                 s0; s1; s2; s3; ty; code; 0; 0; r0; r1; r2; r3]).
  eapply bind_some; [apply (splice_quote front q); rewrite length_take; lia|].
  eapply bind_some; [apply slice_some; rewrite ?length_app; simpl; lia|].
  rewrite (take_ge (drop 20 (front ++ _))) by (rewrite length_drop; lia).
  change (drop 20 (front ++ take q dropped)) with
    (ty :: code :: 0 :: 0 :: r0 :: r1 :: r2 :: r3 :: take q dropped).
  generalize (internet_checksum 0 (ty :: code :: 0 :: 0 :: r0 :: r1 :: r2 :: r3 :: take q dropped)).
  intros ck'. rewrite be_bytes_2. done.
Qed.

Lemma sixteen_bytes (l : list Z) :
  length l = 16%nat ->
  exists a b c d e f g h i j k m n o p q, l = [a; b; c; d; e; f; g; h; i; j; k; m; n; o; p; q].
Proof. intros H. do 16 (destruct l as [|? l]; [done|]). destruct l; [|done]. by eexists _, _, _, _, _, _, _, _, _, _, _, _, _, _, _, _. Qed.

Lemma v6_error_form dropped ty code rest gw src :
  length rest = 4%nat -> length src = 16%nat ->
  let q := Nat.min (length dropped) 1232 in
  let header := [0x60; 0; 0; 0] ++ be_bytes 2 (wrap 16 (Z.of_nat (8 + q))) ++ [58; 64] ++ be_bytes 16 gw ++ src in
  let msg0 := [ty; code; 0; 0] ++ rest ++ take q dropped in
  let seed := icmpv6_pseudo_sum gw (be_val src) (Z.of_nat (8 + q)) in
  v6_error dropped ty code rest gw src = Some (header ++ put_word 2 (internet_checksum seed msg0) msg0).
Proof.
  intros Hr Hs q header msg0 seed. unfold v6_error. change (1280 - IPV6_HEADER - 8)%nat with 1232%nat.
  fold q. fold seed. clearbody seed. change (IPV6_HEADER + (8 + q))%nat with (48 + q)%nat.
  rewrite replicate_add. change (replicate 48 0) with
    [0; 0; 0; 0; 0; 0; 0; 0; 0; 0; 0; 0; 0; 0; 0; 0; 0; 0; 0; 0; 0; 0; 0; 0;
     0; 0; 0; 0; 0; 0; 0; 0; 0; 0; 0; 0; 0; 0; 0; 0; 0; 0; 0; 0; 0; 0; 0; 0].
  destruct (sixteen_bytes (be_bytes 16 gw) (length_be_bytes 16 gw)) as (g0 & g1 & g2 & g3 & g4 & g5 & g6 & g7 & g8 & g9 & g10 & g11 & g12 & g13 & g14 & g15 & Hg).
  destruct (sixteen_bytes src Hs) as (s0 & s1 & s2 & s3 & s4 & s5 & s6 & s7 & s8 & s9 & s10 & s11 & s12 & s13 & s14 & s15 & ->).
  destruct (four_bytes rest Hr) as (r0 & r1 & r2 & r3 & ->).
  unfold header, msg0. rewrite Hg, be_bytes_2. cbn [app].
  set (t1 := _ / 256 mod 256). set (t0 := _ mod 256). clearbody t1 t0. unfold IPV6_HEADER. cbv zeta.
  do 9 run_splice.
  eapply bind_some; [apply slice_some; lia|]. rewrite Nat.sub_0_r. change (drop 0 dropped) with dropped.
  set (front := [96; 0; 0; 0; t1; t0; 58; 64; g0; g1; g2; g3; g4; g5; g6; g7; g8; g9; g10; g11; g12; g13; g14; g15;
                 s0; s1; s2; s3; s4; s5; s6; s7; s8; s9; s10; s11; s12; s13; s14; s15;
                 ty; code; 0; 0; r0; r1; r2; r3]).
  eapply bind_some; [apply (splice_quote front q); rewrite length_take; lia|].
  eapply bind_some; [apply slice_some; rewrite ?length_app; simpl; lia|].
  rewrite (take_ge (drop 40 (front ++ _))) by (rewrite length_drop; lia).
  change (drop 40 (front ++ take q dropped)) with
    (ty :: code :: 0 :: 0 :: r0 :: r1 :: r2 :: r3 :: take q dropped).
  generalize (internet_checksum seed (ty :: code :: 0 :: 0 :: r0 :: r1 :: r2 :: r3 :: take q dropped)).
  intros ck'. rewrite be_bytes_2. done.
Qed.

(** ** Where the loop guard panics *)

Lemma is_icmp_error_panics dropped :
  is_icmp_error dropped = None <->
  exists first, dropped !! O = Some first /\ nibble first = 4 /\
    (ihl_of first < length dropped <= 9)%nat.
Proof.
  unfold is_icmp_error. destruct dropped as [|first l]; [split; [done|by intros (? & ? & _)]|].
  set (pkt := first :: l). change (pkt !! O) with (Some first).
  destruct (Z.eqb_spec (nibble first) 4) as [H4|H4].
  - destruct (Nat.ltb_spec (ihl_of first) (length pkt)) as [Hi|Hi].
    + destruct (Nat.le_gt_cases (length pkt) 9) as [Hl|Hl].
      * rewrite (lookup_ge_None_2 pkt 9) by lia. split; [|done]. intros _. by exists first.
      * destruct (lookup_in_range pkt 9) as [p ->]; [lia|]. cbn [mbind option_bind].
        destruct (lookup_in_range pkt (ihl_of first)) as [ty ->]; [lia|]. cbn [mbind option_bind].
        destruct (p =? 1); (split; [done|]); intros (f & [= <-] & _ & ?); lia.
    + split; [done|]. intros (f & [= <-] & _ & ?). lia.
  - split; [|by intros (f & [= <-] & ? & _)].
    destruct ((nibble first =? 6) && (IPV6_HEADER <? length pkt)%nat) eqn:E; [|done].
    apply andb_true_iff in E as [_ E%Nat.ltb_lt]. unfold IPV6_HEADER in *.
    destruct (lookup_in_range pkt 6) as [p ->]; [lia|]. cbn [mbind option_bind].
    destruct (lookup_in_range pkt 40) as [ty ->]; [lia|]. by destruct (p =? 58).
Qed.

(** A report and what it answers. *)
Inductive reports (dropped : list Z) (rest : list Z) (gw_v4 gw_v6 : Z) (v4 v6 : Z * Z) : list Z -> Prop :=
| reports_v4 ihl src e :
    slice dropped 12 16 = Some src -> extract_src_ipv4 dropped = Some (Some (be_val src)) ->
    (ihl <= 60)%nat -> v4_error dropped (fst v4) (snd v4) rest gw_v4 ihl src = Some e ->
    reports dropped rest gw_v4 gw_v6 v4 v6 e
| reports_v6 src e :
    slice dropped 8 24 = Some src -> extract_src_ipv6 dropped = Some (Some (be_val src)) ->
    v6_error dropped (fst v6) (snd v6) rest gw_v6 src = Some e ->
    reports dropped rest gw_v4 gw_v6 v4 v6 e.

Lemma ihl_bound first : (ihl_of first <= 60)%nat.
Proof.
  unfold ihl_of. change 0x0f with (Z.ones 4). rewrite Z.land_ones by lia.
  pose proof (Z.mod_pos_bound first (2 ^ 4)). lia.
Qed.

Lemma build_cases dropped v4 v6 rest gw_v4 gw_v6 :
  length rest = 4%nat -> is_icmp_error dropped <> None ->
  exists r, build_icmp_error dropped v4 v6 rest gw_v4 gw_v6 = Some r /\
    forall e, r = Some e -> reports dropped rest gw_v4 gw_v6 v4 v6 e.
Proof.
  intros Hr Hp. unfold build_icmp_error. destruct (is_icmp_error dropped) as [b|]; [|done].
  cbn [mbind option_bind]. destruct b; [by eexists|]. destruct dropped as [|first l]; [by eexists|].
  set (pkt := first :: l). destruct (Z.eqb_spec (nibble first) 4) as [H4|_].
  - destruct (Nat.ltb_spec (ihl_of first) IPV4_MIN_HEADER), (Nat.ltb_spec (length pkt) (ihl_of first));
      cbn [orb]; [by eexists..|]. unfold IPV4_MIN_HEADER in *.
    rewrite slice_some by lia. cbn [mbind option_bind]. set (src := take _ _).
    assert (Hs : slice pkt 12 16 = Some src) by (by rewrite slice_some by lia).
    assert (Hl : length src = 4%nat) by (by apply length_slice in Hs).
    destruct (_ || _); [by eexists|]. rewrite v4_error_form by done.
    eexists; split; [reflexivity|]. intros e [= <-].
    eapply (reports_v4 _ _ _ _ _ _ (ihl_of first) src); [done| |apply ihl_bound|by apply v4_error_form].
    unfold extract_src_ipv4, extract, IpPackets.IPV4_MIN_HEADER.
    destruct (Nat.ltb_spec (length pkt) 20); [lia|]. change (pkt !! O) with (Some first).
    cbn [mbind option_bind]. rewrite H4. change (negb (4 =? 4)) with false. by rewrite Hs.
  - destruct (Z.eqb_spec (nibble first) 6) as [H6|_]; [|by eexists].
    destruct (Nat.ltb_spec (length pkt) IPV6_HEADER); [by eexists|]. unfold IPV6_HEADER in *.
    rewrite slice_some by lia. cbn [mbind option_bind]. set (src := take _ _).
    assert (Hs : slice pkt 8 24 = Some src) by (by rewrite slice_some by lia).
    assert (Hl : length src = 16%nat) by (by apply length_slice in Hs).
    destruct (_ || _); [by eexists|]. rewrite v6_error_form by done.
    eexists; split; [reflexivity|]. intros e [= <-].
    eapply (reports_v6 _ _ _ _ _ _ src); [done| |by apply v6_error_form].
    unfold extract_src_ipv6, extract, IPV6_MIN_HEADER.
    destruct (Nat.ltb_spec (length pkt) 40); [lia|]. change (pkt !! O) with (Some first).
    cbn [mbind option_bind]. rewrite H6. change (negb (6 =? 6)) with false. by rewrite Hs.
Qed.

(** C34.  Reporting a packet too big panics on exactly the IPv4 packets of at most
    nine bytes whose header-length field is shorter than the packet: the loop
    guard reads the protocol byte before the header length is validated. *)
Theorem frag_needed_panics_exactly dropped mtu gw_v4 gw_v6 :
  build_frag_needed dropped mtu gw_v4 gw_v6 = None <->
  exists first, dropped !! O = Some first /\ nibble first = 4 /\
    (ihl_of first < length dropped <= 9)%nat.
Proof.
  rewrite <- is_icmp_error_panics. unfold build_frag_needed. split; intros E.
  - destruct (is_icmp_error dropped) as [b|] eqn:Hi; [|done].
    destruct (build_cases dropped (3, 4) (2, 0) ([0; 0] ++ be_bytes 2 mtu) gw_v4 gw_v6) as (r & E' & _);
      [done|congruence|congruence].
  - unfold build_icmp_error. by rewrite E.
Qed.

(** ** The reports are well formed *)

Lemma fill_put_word seed data k :
  checksum_domain seed data -> Nat.Even k -> data !! k = Some 0 -> data !! S k = Some 0 ->
  internet_checksum seed (put_word k (internet_checksum seed data) data) = 0.
Proof.
  intros Hd He H0 H1. apply (fill_verifies seed data k); try done.
  apply splice_word. by eapply lookup_lt_Some.
Qed.

Lemma all_bytes_app l1 l2 : all_bytes l1 -> all_bytes l2 -> all_bytes (l1 ++ l2).
Proof. intros. by apply Forall_app. Qed.

(** Closes [all_bytes] of a concatenation of literals, encodings and slices. *)
Ltac bytes := repeat first [assumption | apply be_bytes_all_bytes | apply Forall_take; assumption
  | progress (apply all_bytes_app) | by repeat constructor].

Lemma put_word_cons2 k w a b l : put_word (S (S k)) w (a :: b :: l) = a :: b :: put_word k w l.
Proof. done. Qed.

Lemma put_word_0 w a b l : put_word 0 w (a :: b :: l) = w / 256 mod 256 :: w mod 256 :: l.
Proof. done. Qed.

Definition v4_well_formed (gw_v4 src : Z) (rest : list Z) (e : list Z) : Prop :=
  (length e <= 96)%nat /\
  internet_checksum 0 (take 20 e) = 0 /\ internet_checksum 0 (drop 20 e) = 0 /\
  extract_src_ipv4 e = Some (Some gw_v4) /\ extract_dst_ipv4 e = Some (Some src) /\
  slice e 24 28 = Some rest /\ is_icmp_error e = Some true.

Lemma v4_error_well_formed dropped ty code rest gw ihl src e :
  ty ∈ [3; 4; 5; 11; 12] -> is_byte code -> all_bytes dropped -> all_bytes rest -> all_bytes src -> length rest = 4%nat -> length src = 4%nat ->
  in_width 32 gw -> (ihl <= 60)%nat ->
  v4_error dropped ty code rest gw ihl src = Some e -> v4_well_formed gw (be_val src) rest e.
Proof.
  intros Hty Hcode Hd Hr Hs Hlr Hls Hg Hi. rewrite v4_error_form by done. intros E%(inj Some). subst e.
  set (q := Nat.min _ _). set (t := be_bytes 2 _).
  set (header0 := [69; 0] ++ t ++ _). set (msg0 := [ty; code; 0; 0] ++ _).
  assert (Ht : length t = 2%nat) by apply length_be_bytes.
  assert (Hg4 : length (be_bytes 4 gw) = 4%nat) by apply length_be_bytes.
  assert (Hq : (length (take q dropped) <= 68)%nat) by (rewrite length_take; lia).
  assert (Hh : length header0 = 20%nat).
  { unfold header0. rewrite !length_app, Ht, Hg4, Hls. done. }
  assert (Hm : (length msg0 <= 76)%nat).
  { unfold msg0. rewrite !length_app, Hlr. simpl. lia. }
  assert (Hhd : checksum_domain 0 header0).
  { unfold checksum_domain. rewrite Hh. split; [unfold header0, t; bytes|lia]. }
  assert (Hmd : checksum_domain 0 msg0).
  { unfold checksum_domain. split; [|lia]. unfold msg0. apply (all_bytes_app [ty; code; 0; 0]); [|bytes].
    repeat apply Forall_cons_2; [|done..|by apply Forall_nil_2].
    unfold is_byte, in_width. rewrite !elem_of_cons, elem_of_nil in Hty. lia. }
  pose proof (length_put_word 10 (internet_checksum 0 header0) header0) as Hlp. rewrite Hh in Hlp.
  split; [|split; [|split]].
  - rewrite length_app, !length_put_word, Hh. lia.
  - rewrite take_app_length' by done. apply fill_put_word; [done|by exists 5%nat| |].
    all: unfold header0; by destruct t as [|t1 [|t0 [|]]].
  - rewrite drop_app_length' by done. apply fill_put_word; [done|by exists 1%nat|done|done].
  - destruct t as [|t1 [|t0 [|]]]; try done.
    pose proof (be_val_be_bytes 4 gw Hg) as Hgv.
    generalize (internet_checksum 0 header0), (internet_checksum 0 msg0). intros ck ck'.
    unfold header0, msg0. destruct (four_bytes (be_bytes 4 gw) Hg4) as (g0 & g1 & g2 & g3 & Hgb).
    rewrite Hgb in *. rewrite <- Hgv.
    destruct (four_bytes src Hls) as (s0 & s1 & s2 & s3 & ->).
    destruct (four_bytes rest Hlr) as (r0 & r1 & r2 & r3 & ->).
    cbn [app]. rewrite !put_word_cons2, !put_word_0. cbn [app].
    do 3 (split; [done|]). rewrite !elem_of_cons, elem_of_nil in Hty.
    by destruct Hty as [->|[->|[->|[->|[->|[]]]]]].
Qed.

Lemma icmpv6_seed_bound src dst len :
  in_width 16 len -> 0 <= icmpv6_pseudo_sum src dst len <= 2 ^ 31.
Proof.
  intros Hl. unfold icmpv6_pseudo_sum, ICMPV6_NEXT_HEADER. set (l := be_bytes 16 src ++ be_bytes 16 dst).
  assert (Hb : all_bytes l) by (unfold l; bytes).
  assert (length l = 32%nat) as Hn by (unfold l; by rewrite length_app, !length_be_bytes).
  pose proof (words_sum_bounds l Hb) as Hw. rewrite Hn in Hw. unfold in_width in Hl.
  rewrite add_words_exact by (done || unfold u32_max; lia).
  rewrite !wrap_small by (unfold in_width; rewrite ?wrap_small; unfold in_width; lia). lia.
Qed.

Definition v6_well_formed (gw_v6 src : Z) (rest : list Z) (e : list Z) : Prop :=
  (length e <= 1280)%nat /\
  internet_checksum (icmpv6_pseudo_sum gw_v6 src (Z.of_nat (length e - 40))) (drop 40 e) = 0 /\
  extract_src_ipv6 e = Some (Some gw_v6) /\ extract_dst_ipv6 e = Some (Some src) /\
  slice e 44 48 = Some rest /\ is_icmp_error e = Some true.

Lemma v6_error_well_formed dropped ty code rest gw src e :
  0 <= ty < 128 -> is_byte code -> all_bytes dropped -> all_bytes rest -> all_bytes src -> length rest = 4%nat -> length src = 16%nat ->
  in_width 128 gw ->
  v6_error dropped ty code rest gw src = Some e -> v6_well_formed gw (be_val src) rest e.
Proof.
  intros Hty Hcode Hd Hr Hs Hlr Hls Hg. rewrite v6_error_form by done. intros E%(inj Some). subst e.
  set (q := Nat.min _ _). set (t := be_bytes 2 _). set (seed := icmpv6_pseudo_sum _ _ (Z.of_nat (8 + q))).
  set (header := [96; 0; 0; 0] ++ t ++ _). set (msg0 := [ty; code; 0; 0] ++ _).
  assert (Ht : length t = 2%nat) by apply length_be_bytes.
  assert (Hg16 : length (be_bytes 16 gw) = 16%nat) by apply length_be_bytes.
  assert (Hq : length (take q dropped) = q) by (rewrite length_take; lia).
  assert (Hh : length header = 40%nat).
  { unfold header. rewrite !length_app, Ht, Hg16, Hls. done. }
  assert (Hm : length msg0 = (8 + q)%nat).
  { unfold msg0. rewrite !length_app, Hlr, Hq. simpl. lia. }
  assert (Hmd : checksum_domain seed msg0).
  { unfold checksum_domain. split; [|split; [lia|]].
    { unfold msg0. apply (all_bytes_app [ty; code; 0; 0]); [|bytes].
      repeat apply Forall_cons_2; [unfold is_byte, in_width; lia|done..|by apply Forall_nil_2]. }
    apply icmpv6_seed_bound. unfold in_width. lia. }
  split; [|split].
  - rewrite length_app, length_put_word, Hh. lia.
  - rewrite drop_app_length' by done. rewrite length_app, length_put_word, Hh, Hm.
    replace (40 + (8 + q) - 40)%nat with (8 + q)%nat by lia. fold seed.
    apply fill_put_word; [done|by exists 1%nat|done|done].
  - destruct t as [|t1 [|t0 [|]]]; try done. pose proof (be_val_be_bytes 16 gw Hg) as Hgv.
    generalize (internet_checksum seed msg0). intros ck.
    unfold header, msg0. destruct (sixteen_bytes (be_bytes 16 gw) Hg16) as
      (g0 & g1 & g2 & g3 & g4 & g5 & g6 & g7 & g8 & g9 & g10 & g11 & g12 & g13 & g14 & g15 & Hgb).
    rewrite Hgb in *. rewrite <- Hgv.
    destruct (sixteen_bytes src Hls) as
      (s0 & s1 & s2 & s3 & s4 & s5 & s6 & s7 & s8 & s9 & s10 & s11 & s12 & s13 & s14 & s15 & ->).
    destruct (four_bytes rest Hlr) as (r0 & r1 & r2 & r3 & ->).
    cbn [app]. rewrite !put_word_cons2, !put_word_0.
    do 3 (split; [done|]). transitivity (Some (ty <? 128)); [done|]. f_equal. apply Z.ltb_lt. lia.
Qed.

(** Every report is well formed, whatever error it carries. *)
Lemma reports_well_formed dropped rest gw_v4 gw_v6 v4 v6 e :
  fst v4 ∈ [3; 4; 5; 11; 12] -> is_byte (snd v4) -> 0 <= fst v6 < 128 -> is_byte (snd v6) ->
  all_bytes dropped -> all_bytes rest -> length rest = 4%nat -> in_width 32 gw_v4 -> in_width 128 gw_v6 ->
  reports dropped rest gw_v4 gw_v6 v4 v6 e ->
  (exists src, extract_src_ipv4 dropped = Some (Some src) /\ v4_well_formed gw_v4 src rest e) \/
  (exists src, extract_src_ipv6 dropped = Some (Some src) /\ v6_well_formed gw_v6 src rest e).
Proof.
  intros H4 Hc4 H6 Hc6 Hd Hr Hl Hg4 Hg6 [ihl src e' Hs Hx Hi He|src e' Hs Hx He].
  - left. exists (be_val src). split; [done|].
    exact (v4_error_well_formed _ _ _ _ _ _ _ _ H4 Hc4 Hd Hr (slice_bytes _ _ _ _ Hd Hs) Hl
             (length_slice _ _ _ _ Hs) Hg4 Hi He).
  - right. exists (be_val src). split; [done|].
    exact (v6_error_well_formed _ _ _ _ _ _ _ H6 Hc6 Hd Hr (slice_bytes _ _ _ _ Hd Hs) Hl
             (length_slice _ _ _ _ Hs) Hg6 He).
Qed.

(** Nothing answers a report. *)
Lemma no_error_about_error e v4 v6 rest gw_v4 gw_v6 :
  is_icmp_error e = Some true -> build_icmp_error e v4 v6 rest gw_v4 gw_v6 = Some None.
Proof. intros E. unfold build_icmp_error. by rewrite E. Qed.

(** The report of a packet too big is well formed: an IPv4 report has valid
    header and ICMP checksums and at most 96 bytes, an IPv6 report a valid ICMPv6
    checksum and at most 1280; it comes from the gateway, goes to the source of
    the dropped packet, carries the MTU, and is itself never answered, so that
    reports cannot loop. *)
Theorem frag_needed_well_formed dropped mtu gw_v4 gw_v6 e :
  all_bytes dropped -> in_width 32 gw_v4 -> in_width 128 gw_v6 ->
  build_frag_needed dropped mtu gw_v4 gw_v6 = Some (Some e) ->
  let rest := [0; 0] ++ be_bytes 2 mtu in
  ((exists src, extract_src_ipv4 dropped = Some (Some src) /\ v4_well_formed gw_v4 src rest e) \/
   (exists src, extract_src_ipv6 dropped = Some (Some src) /\ v6_well_formed gw_v6 src rest e)) /\
  forall mtu' gw_v4' gw_v6', build_frag_needed e mtu' gw_v4' gw_v6' = Some None.
Proof.
  intros Hd Hg4 Hg6 E rest. unfold build_frag_needed in *. fold rest in E.
  assert (Hr : all_bytes rest) by (unfold rest; bytes).
  destruct (build_cases dropped (3, 4) (2, 0) rest gw_v4 gw_v6) as (r & E' & Hrep); [done| |].
  { intros Hp. unfold build_icmp_error in E. by rewrite Hp in E. }
  rewrite E' in E. injection E as ->.
  assert (Hw := reports_well_formed dropped rest gw_v4 gw_v6 (3, 4) (2, 0) e ltac:(set_solver) ltac:(done)
    ltac:(simpl; lia) ltac:(done) Hd Hr eq_refl Hg4 Hg6 (Hrep _ eq_refl)).
  split; [done|]. intros. apply no_error_about_error. destruct Hw as [(? & _ & Hw)|(? & _ & Hw)]; apply Hw.
Qed.

(** A 40-byte UDP packet. *)
Definition sample_dropped : list Z :=
  [69; 0; 0; 40; 0; 0; 0; 0; 64; 17; 0; 0; 10; 66; 0; 5; 93; 184; 216; 34] ++ replicate 20 7.

Lemma frag_needed_well_formed_witness :
  exists e, build_frag_needed sample_dropped 1228 TUNNEL_GATEWAY_IP TUNNEL_GATEWAY_IPV6 = Some (Some e) /\
    internet_checksum 0 (drop 20 e) = 0 /\ extract_dst_ipv4 e = Some (Some (ipv4 10 66 0 5)).
Proof.
  destruct (build_frag_needed sample_dropped 1228 TUNNEL_GATEWAY_IP TUNNEL_GATEWAY_IPV6) as [[e|]|] eqn:E;
    [|by vm_compute in E..].
  destruct (frag_needed_well_formed sample_dropped 1228 TUNNEL_GATEWAY_IP TUNNEL_GATEWAY_IPV6 e)
    as [[(src & Hs & _ & _ & Hck & _ & Hdst & _)|(src & Hs & _)] _]; [|done..| |].
  - by repeat constructor.
  - exists e. split; [done|]. split; [done|]. rewrite Hdst. vm_compute in Hs. by injection Hs as <-.
  - by vm_compute in Hs.
Defined.
