(* ===== verification/StaleSource.v ===== *)
(** The answer to an uplink packet the exit can never admit
    ([crates/warrenguard-transport-core/src/stale_source.rs]): a TCP reset, or an
    ICMP error.  [None] is a panic; the code's [None], silence, is [Some None]. *)

From S2P Require Import Prelude Checksum IpPackets InnerMtu IcmpErrors.

Definition PROTO_TCP : Z := 6.
Definition TCP_FIN : Z := 0x01.
Definition TCP_SYN : Z := 0x02.
Definition TCP_RST : Z := 0x04.
Definition TCP_ACK : Z := 0x10.

Definition ICMPV4_HOST_UNREACHABLE : Z * Z := (3, 1).
Definition ICMPV6_ADDRESS_UNREACHABLE : Z * Z := (1, 3).

Inductive IpAddr := V4 (a : Z) | V6 (a : Z).

Definition octets (ip : IpAddr) : list Z :=
  match ip with V4 a => be_bytes 4 a | V6 a => be_bytes 16 a end.

Module Head.

Record t := mk {
  src : IpAddr;
  dst : IpAddr;
  proto : Z;
  l4 : option nat;
  end_ : nat;
}.

(** [usize::clamp], on bounds in order. *)
Definition clamp (x lo hi : nat) : nat := Nat.min (Nat.max x lo) hi.

Definition parse (pkt : list Z) : option (option t) :=
  match pkt with
  | [] => Some None
  | first :: _ =>
      if nibble first =? 4 then
        let ihl := ihl_of first in
        if ((ihl <? IPV4_MIN_HEADER) || (length pkt <? ihl))%nat then Some None
        else
          src ← slice pkt 12 16; dst ← slice pkt 16 20;
          f0 ← pkt !! 6%nat; f1 ← pkt !! 7%nat;
          let frag_offset := Z.land (be_val [f0; f1]) 0x1fff in
          t0 ← pkt !! 2%nat; t1 ← pkt !! 3%nat;
          let total := Z.to_nat (be_val [t0; t1]) in
          proto ← pkt !! 9%nat;
          Some (Some (mk (V4 (be_val src)) (V4 (be_val dst)) proto
                        (if frag_offset =? 0 then Some ihl else None)
                        (clamp total ihl (length pkt))))
      else if nibble first =? 6 then
        if (length pkt <? IPV6_HEADER)%nat then Some None
        else
          src ← slice pkt 8 24; dst ← slice pkt 24 40;
          p0 ← pkt !! 4%nat; p1 ← pkt !! 5%nat;
          let payload := Z.to_nat (be_val [p0; p1]) in
          next ← pkt !! 6%nat;
          Some (Some (mk (V6 (be_val src)) (V6 (be_val dst)) next (Some IPV6_HEADER)
                        (Nat.min (IPV6_HEADER + payload) (length pkt))))
      else Some None
  end.

Definition unicast (ip : IpAddr) : bool :=
  match ip with
  | V4 a => negb (v4_is_multicast a || v4_is_broadcast a || (a =? 0) || v4_is_loopback a)
  | V6 a => negb (v6_is_multicast a || (a =? 0) || v6_is_loopback a)
  end.

Definition answerable (h : t) : bool :=
  match l4 h with Some _ => unicast (src h) && unicast (dst h) | None => false end.

End Head.

(** Sequence number, acknowledgement and flags of the reset. *)
Definition reset_fields (flags seq ack : Z) (payload_len : nat) : Z * Z * Z :=
  if negb (Z.land flags TCP_ACK =? 0) then (ack, 0, TCP_RST)
  else
    let consumed := if Z.of_nat payload_len <=? u32_max then Z.of_nat payload_len else u32_max in
    let consumed := wrap 32 (consumed + (if negb (Z.land flags TCP_SYN =? 0) then 1 else 0)) in
    let consumed := wrap 32 (consumed + (if negb (Z.land flags TCP_FIN =? 0) then 1 else 0)) in
    (0, wrap 32 (seq + consumed), Z.lor TCP_RST TCP_ACK).

Definition reset_segment (h : Head.t) (tcp : list Z) (rst_seq rst_ack rst_flags : Z) : option (list Z) :=
  let seg := replicate TCP_MIN_HEADER 0 in
  dport ← slice tcp 2 4; seg ← splice seg 0 dport;
  sport ← slice tcp 0 2; seg ← splice seg 2 sport;
  seg ← splice seg 4 (be_bytes 4 rst_seq);
  seg ← splice seg 8 (be_bytes 4 rst_ack);
  seg ← splice seg 12 [Z.shiftl 5 4];
  seg ← splice seg 13 [rst_flags];
  let seed := l4_pseudo_sum (octets (Head.dst h)) (octets (Head.src h)) PROTO_TCP (Z.of_nat TCP_MIN_HEADER) in
  splice seg 16 (be_bytes 2 (internet_checksum seed seg)).

Definition reset_header_v4 (from to : Z) : option (list Z) :=
  let ip := replicate IPV4_MIN_HEADER 0 in
  ip ← splice ip 0 [0x45];
  ip ← splice ip 2 (be_bytes 2 (Z.of_nat (IPV4_MIN_HEADER + TCP_MIN_HEADER)));
  ip ← splice ip 8 [64];
  ip ← splice ip 9 [PROTO_TCP];
  ip ← splice ip 12 (be_bytes 4 from);
  ip ← splice ip 16 (be_bytes 4 to);
  splice ip 10 (be_bytes 2 (internet_checksum 0 ip)).

Definition reset_header_v6 (from to : Z) : option (list Z) :=
  let ip := replicate IPV6_HEADER 0 in
  ip ← splice ip 0 [0x60];
  ip ← splice ip 4 (be_bytes 2 (Z.of_nat TCP_MIN_HEADER));
  ip ← splice ip 6 [PROTO_TCP];
  ip ← splice ip 7 [64];
  ip ← splice ip 8 (be_bytes 16 from);
  splice ip 24 (be_bytes 16 to).

Definition tcp_reset (pkt : list Z) (h : Head.t) : option (option (list Z)) :=
  match Head.l4 h with
  | None => Some None
  | Some l4 =>
      match slice pkt l4 (l4 + TCP_MIN_HEADER) with
      | None => Some None
      | Some tcp =>
          flags ← tcp !! 13%nat;
          if negb (Z.land flags TCP_RST =? 0) then Some None
          else
            off ← tcp !! 12%nat;
            let doff := (Z.to_nat (nibble off) * 4)%nat in
            let payload_len := (Head.end_ h - (l4 + doff))%nat in
            seq ← slice tcp 4 8; ack ← slice tcp 8 12;
            let '(rst_seq, rst_ack, rst_flags) :=
              reset_fields flags (be_val seq) (be_val ack) payload_len in
            seg ← reset_segment h tcp rst_seq rst_ack rst_flags;
            match Head.dst h, Head.src h with
            | V4 from, V4 to => ip ← reset_header_v4 from to; Some (Some (ip ++ seg))
            | V6 from, V6 to => ip ← reset_header_v6 from to; Some (Some (ip ++ seg))
            | _, _ => Some None
            end
      end
  end.

Definition reject_stale_source (pkt : list Z) (refusal : SpoofRefusal) (gw_v4 gw_v6 : Z)
  : option (option (list Z)) :=
  match refusal with
  | Malformed | V6LinkLocal => Some None
  | V4Mismatch | V6Unallocated | V6Mismatch =>
      err ← is_icmp_error pkt;
      if err : bool then Some None
      else
        head ← Head.parse pkt;
        match head with
        | None => Some None
        | Some h =>
            if negb (Head.answerable h) then Some None
            else if Head.proto h =? PROTO_TCP then tcp_reset pkt h
            else
              build_icmp_error pkt ICMPV4_HOST_UNREACHABLE ICMPV6_ADDRESS_UNREACHABLE [0; 0; 0; 0]
                gw_v4 gw_v6
        end
  end.

Definition uplink_reject_stale_source (pkt : list Z) (refusal : SpoofRefusal) : option (option (list Z)) :=
  reject_stale_source pkt refusal TUNNEL_GATEWAY_IP TUNNEL_GATEWAY_IPV6.

(** ** The parts of a reset, in closed form *)

Lemma reset_segment_form h tcp rst_seq rst_ack rst_flags :
  length tcp = 20%nat ->
  let seg0 := take 2 (drop 2 tcp) ++ take 2 tcp ++ be_bytes 4 rst_seq ++ be_bytes 4 rst_ack ++
              [80; rst_flags; 0; 0; 0; 0; 0; 0] in
  let seed := l4_pseudo_sum (octets (Head.dst h)) (octets (Head.src h)) PROTO_TCP 20 in
  reset_segment h tcp rst_seq rst_ack rst_flags = Some (put_word 16 (internet_checksum seed seg0) seg0).
Proof.
  intros Hl seg0 seed. unfold reset_segment. change (Z.of_nat TCP_MIN_HEADER) with 20. fold seed.
  clearbody seed. change (replicate TCP_MIN_HEADER 0) with
    [0; 0; 0; 0; 0; 0; 0; 0; 0; 0; 0; 0; 0; 0; 0; 0; 0; 0; 0; 0].
  destruct (four_bytes (be_bytes 4 rst_seq) (length_be_bytes 4 _)) as (q0 & q1 & q2 & q3 & Hq).
  destruct (four_bytes (be_bytes 4 rst_ack) (length_be_bytes 4 _)) as (a0 & a1 & a2 & a3 & Ha).
  destruct tcp as [|s0 [|s1 [|d0 [|d1 tl]]]]; [done..|]. unfold seg0. rewrite Hq, Ha.
  cbn [take drop app]. change (Z.shiftl 5 4) with 80. cbv zeta. do 8 run_splice.
  generalize (internet_checksum seed [d0; d1; s0; s1; q0; q1; q2; q3; a0; a1; a2; a3; 80; rst_flags;
    0; 0; 0; 0; 0; 0]).
  intros ck. rewrite be_bytes_2. done.
Qed.

Lemma reset_header_v4_form from to :
  let header0 := [69; 0; 0; 40; 0; 0; 0; 0; 64; 6; 0; 0] ++ be_bytes 4 from ++ be_bytes 4 to in
  reset_header_v4 from to = Some (put_word 10 (internet_checksum 0 header0) header0).
Proof.
  intros header0. unfold reset_header_v4, PROTO_TCP.
  change (be_bytes 2 (Z.of_nat (IPV4_MIN_HEADER + TCP_MIN_HEADER))) with [0; 40].
  change (replicate IPV4_MIN_HEADER 0) with [0; 0; 0; 0; 0; 0; 0; 0; 0; 0; 0; 0; 0; 0; 0; 0; 0; 0; 0; 0].
  unfold header0.
  destruct (four_bytes (be_bytes 4 from) (length_be_bytes 4 _)) as (f0 & f1 & f2 & f3 & ->).
  destruct (four_bytes (be_bytes 4 to) (length_be_bytes 4 _)) as (t0 & t1 & t2 & t3 & ->).
  cbn [app]. do 6 run_splice.
  generalize (internet_checksum 0 [69; 0; 0; 40; 0; 0; 0; 0; 64; 6; 0; 0; f0; f1; f2; f3; t0; t1; t2; t3]).
  intros ck. rewrite be_bytes_2. done.
Qed.

Lemma reset_header_v6_form from to :
  reset_header_v6 from to =
  Some ([96; 0; 0; 0; 0; 20; 6; 64] ++ be_bytes 16 from ++ be_bytes 16 to).
Proof.
  unfold reset_header_v6, PROTO_TCP. change (be_bytes 2 (Z.of_nat TCP_MIN_HEADER)) with [0; 20].
  change (replicate IPV6_HEADER 0) with
    [0; 0; 0; 0; 0; 0; 0; 0; 0; 0; 0; 0; 0; 0; 0; 0; 0; 0; 0; 0;
     0; 0; 0; 0; 0; 0; 0; 0; 0; 0; 0; 0; 0; 0; 0; 0; 0; 0; 0; 0].
  destruct (sixteen_bytes (be_bytes 16 from) (length_be_bytes 16 _)) as
    (g0 & g1 & g2 & g3 & g4 & g5 & g6 & g7 & g8 & g9 & g10 & g11 & g12 & g13 & g14 & g15 & ->).
  destruct (sixteen_bytes (be_bytes 16 to) (length_be_bytes 16 _)) as
    (t0 & t1 & t2 & t3 & t4 & t5 & t6 & t7 & t8 & t9 & t10 & t11 & t12 & t13 & t14 & t15 & ->).
  do 5 run_splice. done.
Qed.

(** ** No panic *)

Lemma parse_total pkt : exists r, Head.parse pkt = Some r.
Proof.
  unfold Head.parse, IPV4_MIN_HEADER, IPV6_HEADER. destruct pkt as [|first l]; [by eexists|].
  set (pkt := first :: l). destruct (nibble first =? 4).
  - destruct (Nat.ltb_spec (ihl_of first) 20), (Nat.ltb_spec (length pkt) (ihl_of first)); [by eexists..|].
    cbn [orb]. rewrite !slice_some by lia. cbn [mbind option_bind].
    index_in pkt 6%nat f0. index_in pkt 7%nat f1. index_in pkt 2%nat p0. index_in pkt 3%nat p1.
    index_in pkt 9%nat p. by eexists.
  - destruct (nibble first =? 6); [|by eexists]. destruct (Nat.ltb_spec (length pkt) 40); [by eexists|].
    rewrite !slice_some by lia. cbn [mbind option_bind].
    index_in pkt 4%nat p0. index_in pkt 5%nat p1. index_in pkt 6%nat p. by eexists.
Qed.

(** ** The reset is well formed *)

Lemma l4_seed_bound a b : 0 <= l4_pseudo_sum (octets a) (octets b) PROTO_TCP 20 <= 2 ^ 31.
Proof.
  assert (Ho : forall ip, 0 <= add_words 0 (octets ip) <= 2 ^ 20).
  { intros ip. assert (all_bytes (octets ip)) as Hb by (destruct ip; apply be_bytes_all_bytes).
    assert (length (octets ip) <= 16)%nat as Hl by (destruct ip; unfold octets; rewrite length_be_bytes; lia).
    pose proof (words_sum_bounds _ Hb). rewrite add_words_exact by (done || unfold u32_max; lia). lia. }
  pose proof (Ho a). pose proof (Ho b). unfold l4_pseudo_sum, PROTO_TCP.
  rewrite (wrap_small 32 (add_words 0 (octets a) + _)) by (unfold in_width; lia).
  rewrite (wrap_small 32 (add_words 0 (octets a) + add_words 0 (octets b) + 6)) by (unfold in_width; lia).
  rewrite wrap_small by (unfold in_width; lia). lia.
Qed.

Lemma reset_segment_ok h tcp rst_seq rst_ack rst_flags :
  all_bytes tcp -> length tcp = 20%nat -> is_byte rst_flags ->
  exists seg, reset_segment h tcp rst_seq rst_ack rst_flags = Some seg /\ length seg = 20%nat /\
    internet_checksum (l4_pseudo_sum (octets (Head.dst h)) (octets (Head.src h)) PROTO_TCP 20) seg = 0 /\
    slice seg 0 2 = slice tcp 2 4 /\ slice seg 2 4 = slice tcp 0 2 /\
    slice seg 4 8 = Some (be_bytes 4 rst_seq) /\ slice seg 8 12 = Some (be_bytes 4 rst_ack) /\
    seg !! 13%nat = Some rst_flags.
Proof.
  intros Hb Hl Hf. rewrite reset_segment_form by done. set (seed := l4_pseudo_sum _ _ _ _).
  eexists. split; [reflexivity|]. set (seg0 := take 2 (drop 2 tcp) ++ _).
  assert (Hl0 : length seg0 = 20%nat).
  { unfold seg0. rewrite !length_app, !length_take, length_drop, !length_be_bytes, Hl. done. }
  split; [by rewrite length_put_word|]. split.
  - assert (H16 : seg0 !! 16%nat = Some 0 /\ seg0 !! 17%nat = Some 0).
    { unfold seg0. destruct (four_bytes _ (length_be_bytes 4 rst_seq)) as (? & ? & ? & ? & ->).
      destruct (four_bytes _ (length_be_bytes 4 rst_ack)) as (? & ? & ? & ? & ->).
      by destruct tcp as [|s0 [|s1 [|d0 [|d1 tl]]]]. }
    apply fill_put_word; [|by exists 8%nat|apply H16|apply H16].
    split; [|split; [lia|apply l4_seed_bound]]. unfold seg0.
    repeat first [apply be_bytes_all_bytes | apply all_bytes_app | by apply Forall_take, Forall_drop | by apply Forall_take].
    repeat apply Forall_cons_2; try done.
  - generalize (internet_checksum seed seg0). intros ck. unfold seg0.
    destruct (four_bytes _ (length_be_bytes 4 rst_seq)) as (? & ? & ? & ? & ->).
    destruct (four_bytes _ (length_be_bytes 4 rst_ack)) as (? & ? & ? & ? & ->).
    destruct tcp as [|s0 [|s1 [|d0 [|d1 tl]]]]; [done..|]. by repeat split.
Qed.

Lemma parse_v4_header from to ck seg :
  in_width 32 from -> in_width 32 to -> length seg = 20%nat ->
  Head.parse (put_word 10 ck ([69; 0; 0; 40; 0; 0; 0; 0; 64; 6; 0; 0] ++ be_bytes 4 from ++ be_bytes 4 to) ++ seg) =
  Some (Some (Head.mk (V4 from) (V4 to) 6 (Some 20%nat) 40)).
Proof.
  intros Hf Ht Hs. pose proof (be_val_be_bytes 4 from Hf) as Ef. pose proof (be_val_be_bytes 4 to Ht) as Et.
  destruct (four_bytes _ (length_be_bytes 4 from)) as (f0 & f1 & f2 & f3 & Hf').
  destruct (four_bytes _ (length_be_bytes 4 to)) as (t0 & t1 & t2 & t3 & Ht'). rewrite Hf', Ht' in *.
  rewrite <- Ef, <- Et. do 20 (destruct seg as [|? seg]; [done|]). by destruct seg.
Qed.

Lemma parse_v6_header from to seg :
  in_width 128 from -> in_width 128 to -> length seg = 20%nat ->
  Head.parse (([96; 0; 0; 0; 0; 20; 6; 64] ++ be_bytes 16 from ++ be_bytes 16 to) ++ seg) =
  Some (Some (Head.mk (V6 from) (V6 to) 6 (Some 40%nat) 60)).
Proof.
  intros Hf Ht Hs. pose proof (be_val_be_bytes 16 from Hf) as Ef. pose proof (be_val_be_bytes 16 to Ht) as Et.
  destruct (sixteen_bytes _ (length_be_bytes 16 from)) as
    (g0 & g1 & g2 & g3 & g4 & g5 & g6 & g7 & g8 & g9 & g10 & g11 & g12 & g13 & g14 & g15 & Hf').
  destruct (sixteen_bytes _ (length_be_bytes 16 to)) as
    (t0 & t1 & t2 & t3 & t4 & t5 & t6 & t7 & t8 & t9 & t10 & t11 & t12 & t13 & t14 & t15 & Ht').
  rewrite Hf', Ht' in *. rewrite <- Ef, <- Et. do 20 (destruct seg as [|? seg]; [done|]). by destruct seg.
Qed.

(** Follows the binds of a computation that returned. *)
Ltac bind_cases :=
  repeat match goal with
         | |- mbind _ ?m = Some _ -> _ => destruct m; cbn [mbind option_bind]; [|done]
         end.

Lemma parse_families pkt h :
  all_bytes pkt -> Head.parse pkt = Some (Some h) ->
  (exists a b, Head.src h = V4 a /\ Head.dst h = V4 b /\ in_width 32 a /\ in_width 32 b) \/
  (exists a b, Head.src h = V6 a /\ Head.dst h = V6 b /\ in_width 128 a /\ in_width 128 b).
Proof.
  intros Hb. unfold Head.parse. destruct pkt as [|first l]; [done|]. set (pkt := first :: l) in *.
  assert (Hw : forall i j n s, slice pkt i j = Some s -> (j - i)%nat = n -> in_width (8 * Z.of_nat n) (be_val s)).
  { intros i j n s Hs <-. rewrite <- (length_slice _ _ _ _ Hs).
    apply be_val_bound. exact (slice_bytes _ _ _ _ Hb Hs). }
  destruct (nibble first =? 4); [|destruct (nibble first =? 6); [|done]].
  - destruct (_ || _); [done|]. destruct (slice pkt 12 16) as [s|] eqn:Es; [|done].
    destruct (slice pkt 16 20) as [d|] eqn:Ed; [|done].
    cbn [mbind option_bind]. bind_cases.
    intros [= <-]. left. exists (be_val s), (be_val d).
    split; [done|]. split; [done|]. split; [by apply (Hw _ _ 4%nat _ Es)|by apply (Hw _ _ 4%nat _ Ed)].
  - destruct (_ <? _)%nat; [done|]. destruct (slice pkt 8 24) as [s|] eqn:Es; [|done].
    destruct (slice pkt 24 40) as [d|] eqn:Ed; [|done].
    cbn [mbind option_bind]. bind_cases.
    intros [= <-]. right. exists (be_val s), (be_val d).
    split; [done|]. split; [done|]. split; [by apply (Hw _ _ 16%nat _ Es)|by apply (Hw _ _ 16%nat _ Ed)].
Qed.

Definition header_len (ip : IpAddr) : nat := match ip with V4 _ => 20 | V6 _ => 40 end.

(** What a reset says to the sender of a segment: the exact acknowledged sequence
    for one that carries an acknowledgement (RFC 5961), the acknowledgement of
    everything it occupied otherwise (RFC 9293). *)
Definition resets (flags seq ack payload_len rst_seq rst_ack rst_flags : Z) : Prop :=
  if negb (Z.land flags TCP_ACK =? 0)
  then rst_seq = ack /\ rst_ack = 0 /\ rst_flags = TCP_RST
  else
    rst_seq = 0 /\ rst_flags = Z.lor TCP_RST TCP_ACK /\
    rst_ack = (seq + payload_len + (if Z.land flags TCP_SYN =? 0 then 0 else 1)
               + (if Z.land flags TCP_FIN =? 0 then 0 else 1)) mod 2 ^ 32.

Lemma reset_fields_resets flags seq ack payload_len a b c :
  Z.of_nat payload_len <= u32_max -> in_width 32 ack ->
  reset_fields flags seq ack payload_len = (a, b, c) ->
  resets flags seq ack (Z.of_nat payload_len) a b c /\ in_width 32 a /\ in_width 32 b /\ is_byte c.
Proof.
  intros Hp Ha. unfold reset_fields, resets. destruct (negb (Z.land flags TCP_ACK =? 0)).
  - intros [= <- <- <-]. by repeat split; try apply Ha.
  - rewrite (proj2 (Z.leb_le _ _) Hp). intros [= <- <- <-].
    split; [|split; [done|split; [|done]]]; [|apply (wrap_in_width 32); lia].
    split; [done|]. split; [done|]. unfold wrap. rewrite Zplus_mod_idemp_l, Zplus_mod_idemp_r.
    f_equal. destruct (Z.land flags TCP_SYN =? 0), (Z.land flags TCP_FIN =? 0); simpl; lia.
Qed.

Record reset_for (pkt : list Z) (h : Head.t) (l4 : nat) (e : list Z) : Prop := {
  rf_parse : Head.parse e = Some (Some (Head.mk (Head.dst h) (Head.src h) PROTO_TCP
    (Some (header_len (Head.src h))) (header_len (Head.src h) + 20)));
  rf_header : header_len (Head.src h) = 20%nat -> internet_checksum 0 (take 20 e) = 0;
  rf_segment : internet_checksum
    (l4_pseudo_sum (octets (Head.dst h)) (octets (Head.src h)) PROTO_TCP 20)
    (drop (header_len (Head.src h)) e) = 0;
  rf_ports : let n := header_len (Head.src h) in
    slice e n (n + 2) = slice pkt (l4 + 2) (l4 + 4) /\ slice e (n + 2) (n + 4) = slice pkt l4 (l4 + 2);
  rf_fields : exists flags off seq ack rst_seq rst_ack rst_flags,
    let n := header_len (Head.src h) in
    pkt !! (l4 + 13)%nat = Some flags /\ pkt !! (l4 + 12)%nat = Some off /\
    slice pkt (l4 + 4) (l4 + 8) = Some seq /\ slice pkt (l4 + 8) (l4 + 12) = Some ack /\
    slice e (n + 4) (n + 8) = Some rst_seq /\ slice e (n + 8) (n + 12) = Some rst_ack /\
    e !! (n + 13)%nat = Some rst_flags /\
    resets flags (be_val seq) (be_val ack)
      (Z.of_nat (Head.end_ h - (l4 + Z.to_nat (nibble off) * 4)))
      (be_val rst_seq) (be_val rst_ack) rst_flags;
}.

Lemma parse_end pkt h : Head.parse pkt = Some (Some h) -> (Head.end_ h <= length pkt)%nat.
Proof.
  unfold Head.parse. destruct pkt as [|first l]; [done|]. set (pkt := first :: l).
  destruct (nibble first =? 4); [|destruct (nibble first =? 6); [|done]].
  - destruct (_ || _); [done|]. bind_cases. intros E%(inj Some)%(inj Some). subst h. apply Nat.le_min_r.
  - destruct (_ <? _)%nat; [done|]. bind_cases. intros E%(inj Some)%(inj Some). subst h. apply Nat.le_min_r.
Qed.

(** The two headers a reset can have. *)
Lemma reset_header_cases pkt h :
  all_bytes pkt -> Head.parse pkt = Some (Some h) ->
  exists ip, length ip = header_len (Head.src h) /\
    (forall seg : list Z,
      match Head.dst h, Head.src h with
      | V4 from, V4 to => ip ← reset_header_v4 from to; Some (Some (ip ++ seg))
      | V6 from, V6 to => ip ← reset_header_v6 from to; Some (Some (ip ++ seg))
      | _, _ => Some None
      end = Some (Some (ip ++ seg))) /\
    (header_len (Head.src h) = 20%nat -> internet_checksum 0 ip = 0) /\
    forall seg, length seg = 20%nat ->
      Head.parse (ip ++ seg) = Some (Some (Head.mk (Head.dst h) (Head.src h) PROTO_TCP
        (Some (header_len (Head.src h))) (header_len (Head.src h) + 20))).
Proof.
  intros Hb Hp. destruct (parse_families pkt h Hb Hp) as [(a & b & -> & -> & Ha & Hb')|(a & b & -> & -> & Ha & Hb')].
  - rewrite reset_header_v4_form. cbn [mbind option_bind header_len].
    eexists. split; [|split; [by intros; reflexivity|split]].
    + by rewrite length_put_word, !length_app, !length_be_bytes.
    + intros _. set (h0 := _ ++ _).
      assert (H10 : h0 !! 10%nat = Some 0 /\ h0 !! 11%nat = Some 0) by done.
      apply fill_put_word; [|by exists 5%nat|apply H10|apply H10]. unfold h0.
      split; [bytes|]. rewrite !length_app, !length_be_bytes. simpl. lia.
    + intros seg Hs. by apply parse_v4_header.
  - rewrite reset_header_v6_form. cbn [mbind option_bind header_len].
    eexists. split; [|split; [by intros; reflexivity|split; [done|]]].
    + by rewrite !length_app, !length_be_bytes.
    + intros seg Hs. by apply parse_v6_header.
Qed.

Lemma tcp_reset_spec pkt h l4 :
  all_bytes pkt -> Z.of_nat (length pkt) <= 65535 ->
  Head.parse pkt = Some (Some h) -> Head.l4 h = Some l4 ->
  exists r, tcp_reset pkt h = Some r /\ forall e, r = Some e -> reset_for pkt h l4 e.
Proof.
  intros Hb Hlen Hp Hl4. unfold tcp_reset. rewrite Hl4. unfold TCP_MIN_HEADER.
  destruct (slice pkt l4 (l4 + 20)) as [tcp|] eqn:Hs; [|by eexists].
  assert (Hbt : all_bytes tcp) by (exact (slice_bytes _ _ _ _ Hb Hs)).
  assert (Hlt : length tcp = 20%nat) by (rewrite (length_slice _ _ _ _ Hs); lia).
  destruct (lookup_in_range tcp 13) as [flags Hfl]; [lia|]. rewrite Hfl. cbn [mbind option_bind].
  destruct (negb (Z.land flags TCP_RST =? 0)); [by eexists|].
  destruct (lookup_in_range tcp 12) as [off Hoff]; [lia|]. rewrite Hoff. cbn [mbind option_bind].
  destruct (slice tcp 4 8) as [seq|] eqn:Hseq; [|by rewrite slice_some in Hseq by lia].
  destruct (slice tcp 8 12) as [ack|] eqn:Hack; [|by rewrite slice_some in Hack by lia].
  cbn [mbind option_bind]. destruct (reset_fields _ _ _ _) as [[rs ra] rf] eqn:Hrf.
  pose proof (parse_end pkt h Hp) as Hend.
  apply reset_fields_resets in Hrf as (Hres & Hws & Hwa & Hbf); [|unfold u32_max; lia|].
  2:{ pose proof (be_val_bound _ (slice_bytes _ _ _ _ Hbt Hack)) as Hw.
      by rewrite (length_slice _ _ _ _ Hack) in Hw. }
  destruct (reset_segment_ok h tcp rs ra rf Hbt Hlt Hbf) as (seg & -> & Hls & Hck & Hp1 & Hp2 & Hsq & Hak & H13).
  cbn [mbind option_bind]. destruct (reset_header_cases pkt h Hb Hp) as (ip & Hip & Hout & Hhck & Hparse).
  rewrite Hout. eexists. split; [reflexivity|]. intros e [= <-].
  rewrite (slice_slice _ _ _ _ _ _ Hs) in Hseq by lia. rewrite (slice_slice _ _ _ _ _ _ Hs) in Hack by lia.
  rewrite (slice_slice _ _ _ _ _ _ Hs) in Hp1 by lia.
  rewrite (slice_slice _ _ _ _ _ _ Hs), Nat.add_0_r in Hp2 by lia.
  rewrite (slice_lookup _ _ _ _ _ Hs) in Hfl by lia. rewrite (slice_lookup _ _ _ _ _ Hs) in Hoff by lia.
  constructor.
  - by apply Hparse.
  - intros H20. rewrite take_app_length' by lia. by apply Hhck.
  - by rewrite drop_app_length' by done.
  - split; [|by rewrite slice_app_r].
    rewrite <- (Nat.add_0_r (header_len _)) at 1. by rewrite slice_app_r.
  - exists flags, off, seq, ack, (be_bytes 4 rs), (be_bytes 4 ra), rf. cbv zeta.
    rewrite !slice_app_r, lookup_app_r, Hip by lia.
    replace (header_len (Head.src h) + 13 - header_len (Head.src h))%nat with 13%nat by lia.
    rewrite !(be_val_be_bytes 4) by done. by repeat (split; [done|]).
Qed.

(** ** The answer as a whole *)

(** A refusal that is answered names a packet with a whole header. *)
Lemma refusal_long pkt a4 a6 refusal :
  classify_source pkt a4 a6 = Some (Some refusal) -> refusal <> Malformed -> (20 <= length pkt)%nat.
Proof.
  unfold classify_source. destruct pkt as [|first l]; [congruence|]. set (pkt := first :: l).
  destruct (nibble first =? 4); [|destruct (nibble first =? 6); [|done]].
  - destruct (extract_src_ipv4 pkt) as [[s|]|] eqn:E; cbn [mbind option_bind]; [|congruence|done].
    intros _ _. by apply extract_spec in E as [Hl _].
  - destruct (extract_src_ipv6 pkt) as [[s|]|] eqn:E; cbn [mbind option_bind]; [|congruence|done].
    intros _ _. apply extract_spec in E as [Hl _]. unfold IPV6_MIN_HEADER in Hl. lia.
Qed.

Lemma long_no_panic pkt : (10 <= length pkt)%nat -> is_icmp_error pkt <> None.
Proof. intros Hl Hn. apply is_icmp_error_panics in Hn as (f & _ & _ & ?). lia. Qed.

Lemma reset_silences pkt h l4 e refusal gw_v4 gw_v6 :
  reset_for pkt h l4 e -> reject_stale_source e refusal gw_v4 gw_v6 = Some None.
Proof.
  intros [Hp _ _ _ (flags & off & seq & ack & rs & ra & rf & _ & _ & _ & _ & _ & _ & Hf & Hres)].
  set (n := header_len _) in *.
  assert (Hrst : negb (Z.land rf TCP_RST =? 0) = true).
  { unfold resets in Hres. destruct (negb (Z.land flags TCP_ACK =? 0)).
    - by destruct Hres as (_ & _ & ->).
    - by destruct Hres as (_ & -> & _). }
  assert (Hlen : (n + 13 < length e)%nat) by by eapply lookup_lt_Some.
  unfold reject_stale_source. destruct refusal; try done.
  all: destruct (is_icmp_error e) as [b|] eqn:Hi; [|exfalso; eapply long_no_panic, Hi; lia].
  all: cbn [mbind option_bind]; destruct b; [done|]; rewrite Hp; cbn [mbind option_bind].
  all: destruct (negb (Head.answerable _)); [done|]; cbn [Head.proto]; change (PROTO_TCP =? PROTO_TCP) with true; cbv iota.
  all: unfold tcp_reset; cbn [Head.l4]; destruct (slice e n (n + TCP_MIN_HEADER)) as [tcp|] eqn:Hs; [|done].
  all: rewrite (slice_lookup _ _ _ _ 13 Hs), Hf by (unfold TCP_MIN_HEADER; lia); cbn [mbind option_bind].
  all: by rewrite Hrst.
Qed.

Definition answered_well (pkt : list Z) (gw_v4 gw_v6 : Z) (e : list Z) : Prop :=
  (exists h l4, Head.parse pkt = Some (Some h) /\ Head.l4 h = Some l4 /\ reset_for pkt h l4 e) \/
  (exists src, extract_src_ipv4 pkt = Some (Some src) /\ v4_well_formed gw_v4 src [0; 0; 0; 0] e) \/
  (exists src, extract_src_ipv6 pkt = Some (Some src) /\ v6_well_formed gw_v6 src [0; 0; 0; 0] e).

Lemma icmp_answer pkt gw_v4 gw_v6 :
  all_bytes pkt -> in_width 32 gw_v4 -> in_width 128 gw_v6 -> is_icmp_error pkt <> None ->
  exists r, build_icmp_error pkt ICMPV4_HOST_UNREACHABLE ICMPV6_ADDRESS_UNREACHABLE [0; 0; 0; 0] gw_v4 gw_v6 = Some r /\
    forall e, r = Some e -> answered_well pkt gw_v4 gw_v6 e /\
      forall refusal', reject_stale_source e refusal' gw_v4 gw_v6 = Some None.
Proof.
  intros Hb Hg4 Hg6 Hi.
  destruct (build_cases pkt ICMPV4_HOST_UNREACHABLE ICMPV6_ADDRESS_UNREACHABLE [0; 0; 0; 0] gw_v4 gw_v6)
    as (r & -> & Hr); [done|done|]. exists r. split; [done|]. intros e He.
  assert (Hw := reports_well_formed pkt [0; 0; 0; 0] gw_v4 gw_v6 ICMPV4_HOST_UNREACHABLE
    ICMPV6_ADDRESS_UNREACHABLE e ltac:(simpl; set_solver) ltac:(done) ltac:(simpl; lia) ltac:(done) Hb
    ltac:(by repeat constructor) eq_refl Hg4 Hg6 (Hr e He)).
  split; [by right|]. intros refusal'. unfold reject_stale_source.
  assert (is_icmp_error e = Some true) as -> by (destruct Hw as [(? & _ & Hw)|(? & _ & Hw)]; apply Hw).
  by destruct refusal'.
Qed.

Lemma reset_answer pkt h l4 gw_v4 gw_v6 :
  all_bytes pkt -> Z.of_nat (length pkt) <= 65535 ->
  Head.parse pkt = Some (Some h) -> Head.l4 h = Some l4 ->
  exists r, tcp_reset pkt h = Some r /\
    forall e, r = Some e -> answered_well pkt gw_v4 gw_v6 e /\
      forall refusal', reject_stale_source e refusal' gw_v4 gw_v6 = Some None.
Proof.
  intros Hb Hlen Hp Hl4. destruct (tcp_reset_spec pkt h l4 Hb Hlen Hp Hl4) as (r & -> & Hr).
  exists r. split; [done|]. intros e He. specialize (Hr e He).
  split; [left; by exists h, l4|]. intros. by eapply reset_silences.
Qed.

(** C39.  The answer to a packet the source gate refuses.  Whatever the packet, no
    panic; a packet that is answered gets a TCP reset that its socket accepts
    (addresses and ports swapped, both checksums valid, sequence numbers as RFC
    5961 and RFC 9293 ask) or a well-formed ICMP error to its source; and an
    answer is never answered itself. *)
Theorem stale_source_answer pkt a4 a6 refusal gw_v4 gw_v6 :
  all_bytes pkt -> Z.of_nat (length pkt) <= 65535 -> in_width 32 gw_v4 -> in_width 128 gw_v6 ->
  classify_source pkt a4 a6 = Some (Some refusal) ->
  exists r, reject_stale_source pkt refusal gw_v4 gw_v6 = Some r /\
    forall e, r = Some e -> answered_well pkt gw_v4 gw_v6 e /\
      forall refusal', reject_stale_source e refusal' gw_v4 gw_v6 = Some None.
Proof.
  intros Hb Hlen Hg4 Hg6 Hc.
  assert (Hlong : refusal <> Malformed -> is_icmp_error pkt <> None).
  { intros Hr. apply long_no_panic. pose proof (refusal_long _ _ _ _ Hc Hr). lia. }
  unfold reject_stale_source at 1. destruct refusal; try (by eexists); specialize (Hlong ltac:(done)).
  all: destruct (is_icmp_error pkt) as [b|] eqn:Hi; [|done]; cbn [mbind option_bind].
  all: destruct b; [by eexists|]; destruct (parse_total pkt) as [[h|] Hp]; rewrite Hp; cbn [mbind option_bind]; [|by eexists].
  all: destruct (Head.answerable h) eqn:Ha; cbn [negb]; [|by eexists].
  all: unfold Head.answerable in Ha; destruct (Head.l4 h) as [l4|] eqn:Hl4; [|done].
  all: destruct (Head.proto h =? PROTO_TCP).
  all: first [by eapply reset_answer | by apply icmp_answer; [done..|congruence]].
Qed.

(** A segment of a connection that predates the tunnel. *)
Definition stale_segment : list Z :=
  [69; 0; 0; 40; 0; 0; 0; 0; 64; 6; 0; 0; 192; 168; 1; 7; 93; 184; 216; 34;
   16; 225; 1; 187; 0; 0; 0; 9; 0; 0; 0; 77; 80; 16; 0; 0; 0; 0; 0; 0].

Lemma stale_source_answer_witness :
  exists e, reject_stale_source stale_segment V4Mismatch TUNNEL_GATEWAY_IP TUNNEL_GATEWAY_IPV6 = Some (Some e) /\
    forall refusal', reject_stale_source e refusal' TUNNEL_GATEWAY_IP TUNNEL_GATEWAY_IPV6 = Some None.
Proof.
  destruct (stale_source_answer stale_segment (ipv4 10 66 0 5) None V4Mismatch TUNNEL_GATEWAY_IP
    TUNNEL_GATEWAY_IPV6) as (r & E & Hr); [by repeat constructor|done..|].
  destruct r as [e|]; [|by vm_compute in E]. exists e. split; [done|]. by apply (Hr e).
Defined.
