(* ===== verification/EchoProbe.v ===== *)
(** The in-tunnel echo probe
    ([crates/warrenguard-transport-core/src/icmp_probe.rs]): the request the client
    sends to the gateway and the predicate that intercepts the replies. *)

From S2P Require Import Prelude Checksum IpPackets InnerMtu IcmpErrors.

Definition ICMP_ECHO_HEADER : nat := 8.
Definition MIN_PROBE_LEN : nat := 20 + ICMP_ECHO_HEADER.

Definition build_echo_request (src dst id seq : Z) (total_len : nat) : option (option (list Z)) :=
  if (total_len <? MIN_PROBE_LEN)%nat || (u16_max <? Z.of_nat total_len) then Some None
  else
    let pkt := replicate total_len 0 in
    pkt ← splice pkt 0 [0x45];
    pkt ← splice pkt 2 (be_bytes 2 (wrap 16 (Z.of_nat total_len)));
    pkt ← splice pkt 8 [64];
    pkt ← splice pkt 9 [1];
    pkt ← splice pkt 12 (be_bytes 4 src);
    pkt ← splice pkt 16 (be_bytes 4 dst);
    header ← slice pkt 0 20;
    pkt ← splice pkt 10 (be_bytes 2 (internet_checksum 0 header));
    let icmp := 20%nat in
    pkt ← splice pkt icmp [8];
    pkt ← splice pkt (icmp + 4) (be_bytes 2 id);
    pkt ← splice pkt (icmp + 6) (be_bytes 2 seq);
    msg ← slice pkt icmp (length pkt);
    pkt ← splice pkt (icmp + 2) (be_bytes 2 (internet_checksum 0 msg));
    Some (Some pkt).

Definition parse_echo_reply (pkt : list Z) (id : Z) : option (option (Z * nat)) :=
  if (length pkt <? MIN_PROBE_LEN)%nat then Some None
  else
    b0 ← pkt !! O;
    if negb (nibble b0 =? 4) then Some None
    else
      let ihl := ihl_of b0 in
      if ((ihl <? 20) || (length pkt <? ihl + ICMP_ECHO_HEADER))%nat then Some None
      else
        p ← pkt !! 9%nat;
        if negb (p =? 1) then Some None
        else
          ty ← pkt !! ihl;
          if negb (ty =? 0) then Some None
          else
            code ← pkt !! (ihl + 1)%nat;
            if negb (code =? 0) then Some None
            else
              i0 ← pkt !! (ihl + 4)%nat; i1 ← pkt !! (ihl + 5)%nat;
              if negb (be_val [i0; i1] =? id) then Some None
              else
                s0 ← pkt !! (ihl + 6)%nat; s1 ← pkt !! (ihl + 7)%nat;
                Some (Some (be_val [s0; s1], length pkt)).

Lemma parse_echo_reply_total pkt id : exists r, parse_echo_reply pkt id = Some r.
Proof.
  unfold parse_echo_reply, MIN_PROBE_LEN, ICMP_ECHO_HEADER.
  destruct (Nat.ltb_spec (length pkt) (20 + 8)); [by eexists|].
  destruct (lookup_in_range pkt 0) as [b0 ->]; [lia|]. cbn [mbind option_bind].
  destruct (negb (nibble b0 =? 4)); [by eexists|].
  destruct (Nat.ltb_spec (ihl_of b0) 20); [by eexists|].
  destruct (Nat.ltb_spec (length pkt) (ihl_of b0 + 8)); [by eexists|]. cbn [orb].
  index_in pkt 9%nat p. destruct (negb (p =? 1)); [by eexists|].
  index_in pkt (ihl_of b0) ty. destruct (negb (ty =? 0)); [by eexists|].
  index_in pkt (ihl_of b0 + 1)%nat code. destruct (negb (code =? 0)); [by eexists|].
  index_in pkt (ihl_of b0 + 4)%nat i0. index_in pkt (ihl_of b0 + 5)%nat i1.
  destruct (negb (be_val [i0; i1] =? id)); [by eexists|].
  index_in pkt (ihl_of b0 + 6)%nat s0. index_in pkt (ihl_of b0 + 7)%nat s1. by eexists.
Qed.

(** The request in closed form. *)
Lemma echo_request_form src dst id seq q :
  Z.of_nat (28 + q) <= u16_max ->
  let total := be_bytes 2 (wrap 16 (Z.of_nat (28 + q))) in
  let header0 := [0x45; 0] ++ total ++ [0; 0; 0; 0; 64; 1; 0; 0] ++ be_bytes 4 src ++ be_bytes 4 dst in
  let msg0 := [8; 0; 0; 0] ++ be_bytes 2 id ++ be_bytes 2 seq ++ replicate q 0 in
  build_echo_request src dst id seq (28 + q) =
    Some (Some (put_word 10 (internet_checksum 0 header0) header0 ++
                put_word 2 (internet_checksum 0 msg0) msg0)).
Proof.
  intros Hq total header0 msg0. unfold build_echo_request.
  rewrite (proj2 (Z.ltb_ge _ _)) by done. unfold MIN_PROBE_LEN, ICMP_ECHO_HEADER.
  rewrite (proj2 (Nat.ltb_ge _ _)) by lia. cbn [orb]. fold total.
  rewrite replicate_add. change (replicate 28 0) with
    [0; 0; 0; 0; 0; 0; 0; 0; 0; 0; 0; 0; 0; 0; 0; 0; 0; 0; 0; 0; 0; 0; 0; 0; 0; 0; 0; 0].
  unfold header0, msg0.
  destruct (four_bytes _ (length_be_bytes 4 src)) as (f0 & f1 & f2 & f3 & ->).
  destruct (four_bytes _ (length_be_bytes 4 dst)) as (t0 & t1 & t2 & t3 & ->).
  unfold total. rewrite !be_bytes_2. set (n1 := wrap 16 _ / 256 mod 256). set (n0 := wrap 16 _ mod 256).
  set (i1 := id / 256 mod 256). set (i0 := id mod 256). set (s1 := seq / 256 mod 256). set (s0 := seq mod 256).
  clearbody n1 n0 i1 i0 s1 s0. cbn [app]. cbv zeta. do 7 run_splice.
  generalize (internet_checksum 0 [69; 0; n1; n0; 0; 0; 0; 0; 64; 1; 0; 0; f0; f1; f2; f3; t0; t1; t2; t3]).
  intros ck. rewrite be_bytes_2. do 4 run_splice.
  eapply bind_some; [apply slice_some; rewrite ?length_app; simpl; lia|].
  rewrite take_ge by (rewrite length_drop; lia).
  cbn [drop]. rewrite drop_0. generalize (internet_checksum 0 (8 :: 0 :: 0 :: 0 :: i1 :: i0 :: s1 :: s0 :: replicate q 0)).
  intros ck'. rewrite be_bytes_2. run_splice. done.
Qed.

(** The probe: every total length from 28 to 65535 gives a request of exactly
    that many bytes, from and to the given addresses, with valid header and ICMP
    checksums; other lengths give none.  The request is never taken for a reply,
    and the reply to it (the message with its type cleared) is recognised, with
    its sequence number and size, under its own id and no other. *)
Theorem echo_probe_roundtrip src dst id seq total_len :
  in_width 32 src -> in_width 32 dst -> in_width 16 id -> in_width 16 seq ->
  if bool_decide ((28 <= total_len)%nat /\ Z.of_nat total_len <= 65535) then
    exists req, build_echo_request src dst id seq total_len = Some (Some req) /\ length req = total_len /\
      internet_checksum 0 (take 20 req) = 0 /\ internet_checksum 0 (drop 20 req) = 0 /\
      extract_src_ipv4 req = Some (Some src) /\ extract_dst_ipv4 req = Some (Some dst) /\
      (forall id', parse_echo_reply req id' = Some None) /\
      forall id', parse_echo_reply (<[20%nat := 0]> req) id' =
        Some (if id' =? id then Some (seq, total_len) else None)
  else build_echo_request src dst id seq total_len = Some None.
Proof.
  intros Hs Hd Hi Hq. case_bool_decide as Hr.
  2:{ unfold build_echo_request, MIN_PROBE_LEN, ICMP_ECHO_HEADER, u16_max.
      destruct (Nat.ltb_spec total_len (20 + 8)); [done|].
      destruct (Z.ltb_spec (2 ^ 16 - 1) (Z.of_nat total_len)); [done|lia]. }
  destruct Hr as [Hlo Hhi]. replace total_len with (28 + (total_len - 28))%nat in * by lia.
  set (q := (total_len - 28)%nat) in *. clearbody q. clear Hlo total_len.
  rewrite echo_request_form by done. eexists. split; [reflexivity|].
  set (t := be_bytes 2 (wrap 16 _)). set (header0 := [69; 0] ++ _). set (msg0 := [8; 0; 0; 0] ++ _).
  assert (Hh : length header0 = 20%nat) by (unfold header0; by rewrite !length_app, !length_be_bytes).
  assert (Hm : length msg0 = (8 + q)%nat).
  { unfold msg0. rewrite !length_app, !length_be_bytes, length_replicate. simpl. lia. }
  assert (Hhd : checksum_domain 0 header0).
  { unfold checksum_domain. rewrite Hh. split; [unfold header0, t; bytes|lia]. }
  assert (Hmd : checksum_domain 0 msg0).
  { unfold checksum_domain. rewrite Hm. split; [|lia]. unfold msg0.
    repeat (apply all_bytes_app; [bytes|]). by apply Forall_replicate. }
  split; [rewrite length_app, !length_put_word; lia|]. split; [|split].
  - rewrite take_app_length' by (by rewrite length_put_word).
    apply fill_put_word; [done|by exists 5%nat|done|done].
  - rewrite drop_app_length' by (by rewrite length_put_word).
    apply fill_put_word; [done|by exists 1%nat|done|done].
  - clear Hhd Hmd. generalize (internet_checksum 0 header0), (internet_checksum 0 msg0). intros ck ck'.
    pose proof (be_val_be_bytes 4 src Hs) as Es. pose proof (be_val_be_bytes 4 dst Hd) as Ed.
    pose proof (be_val_be_bytes 2 id Hi) as Ei. pose proof (be_val_be_bytes 2 seq Hq) as Eq.
    unfold header0, msg0. clear header0 msg0 Hh Hm.
    destruct (four_bytes _ (length_be_bytes 4 src)) as (f0 & f1 & f2 & f3 & Hf). rewrite Hf in *.
    destruct (four_bytes _ (length_be_bytes 4 dst)) as (t0 & t1 & t2 & t3 & Ht). rewrite Ht in *.
    rewrite !be_bytes_2 in *. rewrite <- Es, <- Ed. unfold t. rewrite !be_bytes_2. cbn [app].
    set (i1 := id / 256 mod 256) in *. set (i0 := id mod 256) in *.
    set (s1 := seq / 256 mod 256) in *. set (s0 := seq mod 256) in *.
    clearbody i1 i0 s1 s0. subst id seq. rewrite !put_word_cons2, !put_word_0. cbn [app].
    split; [done|]. split; [done|]. split; [done|]. intros id'.

    unfold parse_echo_reply, MIN_PROBE_LEN, ICMP_ECHO_HEADER.
    cbn [insert list_insert length Nat.ltb Nat.leb Nat.add lookup list_lookup mbind option_bind].
    change (ihl_of 69) with 20%nat. change (negb (nibble 69 =? 4)) with false. cbv iota.
    cbn [orb Nat.ltb Nat.leb Nat.add lookup list_lookup mbind option_bind Z.eqb Pos.eqb negb].
    rewrite length_replicate, (Z.eqb_sym id'). by destruct (be_val [i1; i0] =? id').
Qed.

Lemma echo_probe_roundtrip_witness :
  exists req, build_echo_request (ipv4 10 66 0 5) (ipv4 10 66 0 1) 4242 7 1200 = Some (Some req) /\
    internet_checksum 0 (drop 20 req) = 0.
Proof.
  destruct (echo_probe_roundtrip (ipv4 10 66 0 5) (ipv4 10 66 0 1) 4242 7 1200) as (req & E & _ & _ & Hck & _);
    [done..|]. by exists req.
Defined.
