(* ===== verification/PathHealth.v ===== *)
(** Path health ([crates/warrenguard-transport/src/path_health.rs]): the verdict on the
    tunnel's datapath from paired echo probes, the verdicts on each leg of a bond, and the probe
    round that feeds both.

    The tracker's rings are read as the list of the outcomes they hold, oldest first; an episode is the
    sequence of rounds since the start or the last recovery. *)

From S2P Require Import Prelude EchoProbe.
#[local] Open Scope nat_scope.

(** ** The tracker *)

Inductive PathHealth := Healthy | DegradedLarge | DegradedBoth.

#[export] Instance path_health_eq_dec : EqDecision PathHealth.
Proof. solve_decision. Defined.

Inductive HealthEvent := Entered (h : PathHealth) | Recovered | RequestMigration.

#[export] Instance health_event_eq_dec : EqDecision HealthEvent.
Proof. solve_decision. Defined.

Definition WINDOW : nat := 5.
Definition DEGRADE_MIN_LOST : nat := 4.
Definition SMALL_SURVIVES_MAX_LOST : nat := 1.
Definition RECOVER_STREAK : nat := 3.
Definition MIGRATION_RETRY_COOLDOWN : nat := WINDOW.
Definition MAX_MIGRATIONS_PER_EPISODE : nat := 3.

Record OutcomeRing := mkRing { slots : list bool; len : nat; next : nat }.

Definition ring_default : OutcomeRing := mkRing (replicate WINDOW false) 0 0.

Definition push (ok : bool) (r : OutcomeRing) : OutcomeRing :=
  mkRing (<[next r := ok]> (slots r)) (Nat.min (len r + 1) WINDOW) ((next r + 1) mod WINDOW).

Definition full (r : OutcomeRing) : bool := len r =? WINDOW.

Definition count_lost (l : list bool) : nat := length (filter (fun ok => ok = false) l).
Definition lost (r : OutcomeRing) : nat := count_lost (firstn (len r) (slots r)).

Record HealthTracker := mkTracker {
  small : OutcomeRing;
  large : OutcomeRing;
  state : PathHealth;
  recover_streak : nat;
  migrations_requested : nat;
  migration_cooldown : nat;
}.

Definition tracker_default : HealthTracker := mkTracker ring_default ring_default Healthy 0 0 0.

Definition wants_fast (t : HealthTracker) : bool :=
  bool_decide (state t <> Healthy) ||
  ((0 <? len (large t)) && negb (default false (slots (large t) !! ((next (large t) + WINDOW - 1) mod WINDOW)))).

Definition classify (t : HealthTracker) : option PathHealth :=
  if negb (full (large t)) then None
  else if lost (large t) <? DEGRADE_MIN_LOST then None
  else if lost (small t) <=? SMALL_SURVIVES_MAX_LOST then Some DegradedLarge
  else Some DegradedBoth.

(** The tail of [record_pair], after the recovery check. *)
Definition reclassify (t : HealthTracker) : HealthTracker * list HealthEvent :=
  match classify t with
  | None => (t, [])
  | Some verdict =>
      let '(t, events) :=
        if bool_decide (verdict <> state t)
        then (mkTracker (small t) (large t) verdict 0 (migrations_requested t) (migration_cooldown t), [Entered verdict])
        else (t, []) in
      if bool_decide (verdict = DegradedBoth) then
        if 0 <? migration_cooldown t
        then (mkTracker (small t) (large t) (state t) (recover_streak t) (migrations_requested t) (migration_cooldown t - 1), events)
        else if migrations_requested t <? MAX_MIGRATIONS_PER_EPISODE
        then (mkTracker (small t) (large t) (state t) (recover_streak t) (migrations_requested t + 1) MIGRATION_RETRY_COOLDOWN,
              events ++ [RequestMigration])
        else (t, events)
      else (t, events)
  end.

Definition record_pair (small_ok large_ok : bool) (t : HealthTracker) : HealthTracker * list HealthEvent :=
  let s := push small_ok (small t) in
  let l := push large_ok (large t) in
  let with_streak n := mkTracker s l (state t) n (migrations_requested t) (migration_cooldown t) in
  if bool_decide (state t <> Healthy) then
    if small_ok && large_ok then
      let streak := recover_streak t + 1 in
      if RECOVER_STREAK <=? streak then (mkTracker ring_default ring_default Healthy 0 0 0, [Recovered])
      else reclassify (with_streak streak)
    else reclassify (with_streak 0)
  else reclassify (with_streak (recover_streak t)).

(** ** The rings as lists *)

Definition lastn {A} (n : nat) (l : list A) : list A := drop (length l - n) l.

(** The outcomes a ring holds, oldest first. *)
Definition window (r : OutcomeRing) : list bool :=
  if full r then drop (next r) (slots r) ++ firstn (next r) (slots r) else firstn (len r) (slots r).

Record ring_ok (r : OutcomeRing) : Prop := mkRingOk {
  ring_slots : length (slots r) = WINDOW;
  ring_len : len r <= WINDOW;
  ring_next : if full r then next r < WINDOW else next r = len r;
}.

Lemma lastn_snoc {A} n (l : list A) x : lastn (S n) (l ++ [x]) = lastn n l ++ [x].
Proof.
  unfold lastn. rewrite length_app. cbn [length]. replace (length l + 1 - S n) with (length l - n) by lia.
  by rewrite drop_app_le by lia.
Qed.

Lemma count_lost_app a b : count_lost (a ++ b) = count_lost a + count_lost b.
Proof. unfold count_lost. by rewrite filter_app, length_app. Qed.

Lemma ring_lost r : ring_ok r -> lost r = count_lost (window r).
Proof.
  intros [Hs Hl Hn]. unfold lost, window. destruct (full r) eqn:E; [|done]. apply Nat.eqb_eq in E.
  rewrite count_lost_app, Nat.add_comm, <- count_lost_app, take_drop. by rewrite firstn_all2 by lia.
Qed.

Lemma window_default : window ring_default = [] /\ ring_ok ring_default.
Proof. split; [done|]. split; cbn; unfold WINDOW; lia. Qed.

(** A push drops the oldest of a full window. *)
Lemma push_window b r : ring_ok r -> ring_ok (push b r) /\ window (push b r) = lastn WINDOW (window r ++ [b]) /\ length (window r) = len r.
Proof.
  intros [Hs Hl Hn]. destruct r as [sl ln nx]. cbn [slots len next] in *. unfold full in Hn. cbn [len] in Hn.
  destruct sl as [|a0 [|a1 [|a2 [|a3 [|a4 [|]]]]]]; try done. unfold WINDOW in *. destruct (Nat.eqb_spec ln 5) as [->|Hne].
  - do 5 (destruct nx as [|nx]; [by split; [split; vm_compute; lia|]|]). cbn in Hn. lia.
  - subst nx. do 5 (destruct ln as [|ln]; [by split; [split; vm_compute; lia|]|]). lia.
Qed.

(** ** Episodes *)

Abbreviation Pair := (bool * bool)%type.

(** What the last five rounds say: at least four large probes lost, and with them the small ones or not. *)
Definition evidence (seen : list Pair) : option PathHealth :=
  if length seen <? WINDOW then None
  else if count_lost (snd <$> lastn WINDOW seen) <? DEGRADE_MIN_LOST then None
  else if count_lost (fst <$> lastn WINDOW seen) <=? SMALL_SURVIVES_MAX_LOST then Some DegradedLarge
  else Some DegradedBoth.

(** A tracker, the rounds of its episode and the events of each. *)
Inductive reached : HealthTracker -> list Pair -> list (list HealthEvent) -> Prop :=
| reached_start : reached tracker_default [] []
| reached_round t seen trace s l t' ev :
    reached t seen trace -> record_pair s l t = (t', ev) -> Recovered ∉ ev -> reached t' (seen ++ [(s, l)]) (trace ++ [ev])
| reached_recovery t seen trace s l t' ev :
    reached t seen trace -> record_pair s l t = (t', ev) -> Recovered ∈ ev -> reached t' [] [].

Definition requests (trace : list (list HealthEvent)) : nat := length (filter (fun ev => RequestMigration ∈ ev) trace).

Record episode (t : HealthTracker) (seen : list Pair) (trace : list (list HealthEvent)) : Prop := mkEpisode {
  ep_small : ring_ok (small t) /\ window (small t) = fst <$> lastn WINDOW seen;
  ep_large : ring_ok (large t) /\ window (large t) = snd <$> lastn WINDOW seen;
  ep_length : length trace = length seen;
  ep_streak : recover_streak t < RECOVER_STREAK /\ recover_streak t <= length seen /\ Forall (fun p => p = (true, true)) (lastn (recover_streak t) seen);
  ep_healthy : state t = Healthy -> recover_streak t = 0;
  ep_requests : migrations_requested t = requests trace /\ requests trace <= MAX_MIGRATIONS_PER_EPISODE;
  ep_fresh : migrations_requested t = 0 -> migration_cooldown t = 0;
  ep_cooldown : migration_cooldown t <= MIGRATION_RETRY_COOLDOWN;
  ep_spaced k ev : trace !! k = Some ev -> RequestMigration ∈ ev -> MIGRATION_RETRY_COOLDOWN <= length trace - 1 - k + migration_cooldown t;
}.

Lemma lastn_fmap {A B} (f : A -> B) n l : f <$> lastn n l = lastn n (f <$> l).
Proof. unfold lastn. by rewrite fmap_drop, length_fmap. Qed.

Lemma lastn_lastn {A} n (l : list A) x : lastn n (lastn n l ++ [x]) = lastn n (l ++ [x]).
Proof.
  destruct n as [|n]; [unfold lastn; rewrite !Nat.sub_0_r, !drop_all; done|]. rewrite !lastn_snoc. f_equal. unfold lastn.
  rewrite length_drop, drop_drop. f_equal. lia.
Qed.

Lemma length_lastn {A} n (l : list A) : length (lastn n l) = Nat.min n (length l).
Proof. unfold lastn. rewrite length_drop. lia. Qed.

(** A ring that held the last outcomes holds the last outcomes. *)
Lemma push_seen {A} (f : A -> bool) r seen x : ring_ok r -> window r = f <$> lastn WINDOW seen ->
  ring_ok (push (f x) r) /\ window (push (f x) r) = f <$> lastn WINDOW (seen ++ [x]).
Proof.
  intros Hr Hw. destruct (push_window (f x) r Hr) as (H1 & -> & _). split; [done|]. rewrite Hw, <- (fmap_app f _ [x]), <- lastn_fmap. by rewrite lastn_lastn.
Qed.

Lemma window_length r : ring_ok r -> length (window r) = len r.
Proof. intros Hr. by apply (push_window true r). Qed.

Lemma classify_evidence t seen :
  ring_ok (small t) -> window (small t) = fst <$> lastn WINDOW seen ->
  ring_ok (large t) -> window (large t) = snd <$> lastn WINDOW seen -> classify t = evidence seen.
Proof.
  intros Hs Hws Hl Hwl. unfold classify, evidence. rewrite (ring_lost _ Hs), (ring_lost _ Hl), Hws, Hwl.
  pose proof (window_length _ Hl) as Hlen. rewrite Hwl, length_fmap, length_lastn in Hlen. unfold full. rewrite <- Hlen.
  destruct (Nat.ltb_spec (length seen) WINDOW).
  - rewrite (proj2 (Nat.eqb_neq _ _)); [done|]. unfold WINDOW in *. lia.
  - rewrite (proj2 (Nat.eqb_eq _ _)); [done|]. lia.
Qed.

Record reclassified (t t' : HealthTracker) (ev : list HealthEvent) : Prop := mkReclassified {
  rc_rings : small t' = small t /\ large t' = large t;
  rc_state : state t' = default (state t) (classify t);
  rc_streak : recover_streak t' = recover_streak t \/ recover_streak t' = 0 /\ state t' <> state t;
  rc_recovered : Recovered ∉ ev;
  rc_entered v : Entered v ∈ ev -> classify t = Some v;
  rc_request : RequestMigration ∈ ev <->
    classify t = Some DegradedBoth /\ migration_cooldown t = 0 /\ migrations_requested t < MAX_MIGRATIONS_PER_EPISODE;
  rc_budget : if bool_decide (RequestMigration ∈ ev)
    then migrations_requested t' = migrations_requested t + 1 /\ migration_cooldown t' = MIGRATION_RETRY_COOLDOWN
    else migrations_requested t' = migrations_requested t /\
         migration_cooldown t' = migration_cooldown t - (if bool_decide (classify t = Some DegradedBoth) then 1 else 0);
}.

Lemma reclassify_spec t t' ev : reclassify t = (t', ev) -> reclassified t t' ev.
Proof.
  unfold reclassify. destruct (classify t) as [v|] eqn:Ec.
  2:{ intros [= <- <-]. assert (Hn : forall e : HealthEvent, e ∉ []) by (intros e ?%elem_of_nil; done).
      split; rewrite ?Ec; try done; [by left|by intros v ?%Hn|split; [by intros ?%Hn|by intros ([=] & _)]|]. rewrite !bool_decide_eq_false_2 by done. split; [done|lia]. }
  assert (Hchg : forall e : HealthEvent, e ∈ (if bool_decide (v <> state t) then [Entered v] else []) -> e = Entered v).
  { intros e. case_bool_decide; intros He; [by apply list_elem_of_singleton in He|by apply elem_of_nil in He]. }
  set (t1 := mkTracker (small t) (large t) v 0 (migrations_requested t) (migration_cooldown t)).
  set (t2 := if bool_decide (v <> state t) then t1 else t). set (ev1 := if bool_decide (v <> state t) then [Entered v] else []) in *.
  replace (if bool_decide (v <> state t) then (t1, [Entered v]) else (t, [])) with (t2, ev1) by (unfold t2, ev1; by destruct (bool_decide (v <> state t))).
  assert (H2 : small t2 = small t /\ large t2 = large t /\ state t2 = v /\ migrations_requested t2 = migrations_requested t /\
    migration_cooldown t2 = migration_cooldown t /\ (recover_streak t2 = recover_streak t \/ recover_streak t2 = 0 /\ v <> state t)).
  { unfold t2. destruct (decide (v = state t)) as [->|Hne]; [rewrite bool_decide_eq_false_2 by auto|rewrite bool_decide_eq_true_2 by done]; split_and!; auto. }
  destruct H2 as (Hsm & Hla & Hst & Hmi & Hco & Hstr). clearbody t2 ev1. rewrite Hmi, Hco.
  assert (Hrec : Recovered ∉ ev1) by (by intros ?%Hchg). assert (Hreq : RequestMigration ∉ ev1) by (by intros ?%Hchg).
  destruct (bool_decide_reflect (v = DegradedBoth)) as [->|Hv]; [destruct (Nat.ltb_spec 0 (migration_cooldown t)) as [Hc|Hc];
    [|destruct (Nat.ltb_spec (migrations_requested t) MAX_MIGRATIONS_PER_EPISODE) as [Hm|Hm]]|]; intros [= <- <-].
  - split; cbn; rewrite ?Ec; cbn; try done; [by rewrite Hst|by intros w [= ->]%Hchg|split; [done|intros (_ & ? & _); lia]|].
    rewrite bool_decide_eq_false_2, bool_decide_eq_true_2 by done. done.
  - split; cbn; rewrite ?Ec; cbn; try done; [by rewrite Hst|..].
    + rewrite elem_of_app, list_elem_of_singleton. by intros [?|?].
    + intros w. rewrite elem_of_app, list_elem_of_singleton. by intros [[= ->]%Hchg|?].
    + rewrite elem_of_app, list_elem_of_singleton. split; [intros _; split_and!; [done|lia|done]|by right].
    + rewrite bool_decide_eq_true_2 by (rewrite elem_of_app, list_elem_of_singleton; by right). done.
  - split; rewrite ?Ec; cbn; try done; [by rewrite Hst|by intros w [= ->]%Hchg|split; [done|intros (_ & _ & ?); lia]|].
    rewrite bool_decide_eq_false_2, bool_decide_eq_true_2 by done. split; [done|lia].
  - split; rewrite ?Ec; cbn; try done; [by rewrite Hst|by intros w [= ->]%Hchg|split; [done|by intros ([=] & _)]|].
    rewrite !bool_decide_eq_false_2 by (try done; by intros [= ->]). split; [done|lia].
Qed.

(** A round that does not end the episode. *)
Record went_on (t : HealthTracker) (seen : list Pair) (s l : bool) (t1 t' : HealthTracker) (ev : list HealthEvent) : Prop := mkWentOn {
  wo_small : ring_ok (small t1) /\ window (small t1) = fst <$> lastn WINDOW (seen ++ [(s, l)]);
  wo_large : ring_ok (large t1) /\ window (large t1) = snd <$> lastn WINDOW (seen ++ [(s, l)]);
  wo_same : state t1 = state t /\ migrations_requested t1 = migrations_requested t /\ migration_cooldown t1 = migration_cooldown t;
  wo_streak : recover_streak t1 = (if bool_decide (state t <> Healthy) && (s && l) then recover_streak t + 1 else 0);
  wo_bound : recover_streak t1 < RECOVER_STREAK;
  wo_classify : classify t1 = evidence (seen ++ [(s, l)]);
  wo_rest : reclassified t1 t' ev;
}.

Lemma recorded t seen trace s l t' ev : episode t seen trace -> record_pair s l t = (t', ev) ->
  (ev = [Recovered] /\ t' = tracker_default /\ state t <> Healthy /\ recover_streak t = 2 /\ s = true /\ l = true) \/
  exists t1, went_on t seen s l t1 t' ev.
Proof.
  intros Hep. destruct Hep as [[Hs Hws] [Hl Hwl] _ (Hst & _ & _) Hh _ _ _ _]. unfold record_pair. cbn zeta.
  destruct (push_seen fst (small t) seen (s, l) Hs Hws) as [Hs' Hws']. destruct (push_seen snd (large t) seen (s, l) Hl Hwl) as [Hl' Hwl'].
  cbn [fst snd] in *. set (s' := push s (small t)) in *. set (l' := push l (large t)) in *.
  assert (Hgo : forall n, n < RECOVER_STREAK -> n = (if bool_decide (state t <> Healthy) && (s && l) then recover_streak t + 1 else 0) ->
    reclassify (mkTracker s' l' (state t) n (migrations_requested t) (migration_cooldown t)) = (t', ev) -> exists t1, went_on t seen s l t1 t' ev).
  { intros n Hn Hn' Hr. eexists. split; [..|by apply reclassify_spec]; try done. by apply classify_evidence. }
  destruct (bool_decide_reflect (state t <> Healthy)) as [Hne|Heq].
  - destruct (s && l) eqn:Esl; [|intros Hr; right; apply (Hgo 0); [unfold RECOVER_STREAK; lia|done|done]].
    destruct (Nat.leb_spec RECOVER_STREAK (recover_streak t + 1)) as [Hge|Hlt].
    + intros [= <- <-]. left. apply andb_true_iff in Esl as [-> ->]. unfold RECOVER_STREAK in *. split_and!; try done. lia.
    + intros Hr. right. by apply (Hgo (recover_streak t + 1)).
  - apply dec_stable in Heq. rewrite (Hh Heq). intros Hr. right. apply (Hgo 0); [unfold RECOVER_STREAK; lia|done|done].
Qed.

Lemma requests_snoc trace ev : requests (trace ++ [ev]) = requests trace + if bool_decide (RequestMigration ∈ ev) then 1 else 0.
Proof. unfold requests. rewrite filter_app, length_app. f_equal. cbn. unfold decide. case_bool_decide; by case_match. Qed.

Lemma lastn_all {A} (P : A -> Prop) n (l : list A) x : Forall P (lastn n l) -> P x -> Forall P (lastn (S n) (l ++ [x])).
Proof. rewrite lastn_snoc, Forall_app. intros. split; [done|by constructor]. Qed.

Lemma episode_step t seen trace s l t1 t' ev : episode t seen trace -> went_on t seen s l t1 t' ev ->
  episode t' (seen ++ [(s, l)]) (trace ++ [ev]).
Proof.
  intros Hep [Hs Hl (Hst & Hmi & Hco) Hstr Hb Hcl Hrc]. destruct Hep as [_ _ Hlen (Hn & Hns & Hf) Hh [Hr Hr3] Hfr Hcd Hsp].
  destruct Hrc as [[Hrs Hrl] Hrst Hrstr _ _ Hreq Hbud].
  assert (Hlen' : length (trace ++ [ev]) = length (seen ++ [(s, l)])) by (rewrite !length_app; cbn; lia).
  assert (Hle : recover_streak t' <= recover_streak t1) by (destruct Hrstr as [->|[-> _]]; lia).
  split; rewrite ?Hrs, ?Hrl; try done.
  - split; [lia|]. rewrite Hstr in Hle. destruct (bool_decide (state t <> Healthy) && (s && l)) eqn:E.
    + apply andb_true_iff in E as [_ [-> ->]%andb_true_iff]. destruct Hrstr as [->|[-> _]].
      * rewrite Hstr, Nat.add_1_r, length_app. cbn. split; [lia|]. by apply lastn_all.
      * split; [lia|]. unfold lastn. by rewrite Nat.sub_0_r, drop_all.
    + assert (recover_streak t' = 0) as -> by lia. split; [lia|]. unfold lastn. by rewrite Nat.sub_0_r, drop_all.
  - rewrite Hrst, Hst. destruct (classify t1) as [v|] eqn:Ev.
    + cbn. intros ->. exfalso. clear -Ev. unfold classify in Ev. by repeat case_match.
    + cbn. intros Hhe. rewrite Hstr, bool_decide_eq_false_2 in Hle by (by rewrite Hhe; intros []). cbn in Hle. lia.
  - rewrite requests_snoc, <- Hr. case_bool_decide as Hin; destruct Hbud as [-> _].
    + apply Hreq in Hin as (_ & _ & Hm). lia.
    + lia.
  - case_bool_decide as Hin; destruct Hbud as [-> ->]; [lia|]. rewrite Hmi, Hco. intros ->%Hfr. done.
  - case_bool_decide as Hin; destruct Hbud as [_ ->]; lia.
  - intros k ev0 Hk Hin. rewrite length_app. cbn [length]. apply lookup_app_Some in Hk as [Hk|[Hge Hk]].
    + pose proof (lookup_lt_Some _ _ _ Hk) as Hlt. specialize (Hsp k ev0 Hk Hin).
      assert (migration_cooldown t <= migration_cooldown t' + 1) by (rewrite <- Hco; case_bool_decide; [lia|case_bool_decide; lia]). lia.
    + assert (k = length trace) as ->. { apply lookup_lt_Some in Hk. cbn in Hk. lia. }
      rewrite Nat.sub_diag in Hk. injection Hk as ->. rewrite bool_decide_eq_true_2 in Hbud by done. lia.
Qed.

Lemma reached_episode t seen trace : reached t seen trace -> episode t seen trace.
Proof.
  assert (H0 : episode tracker_default [] []).
  { split; try done; try (split; [by apply window_default|done]); cbn; unfold RECOVER_STREAK, MIGRATION_RETRY_COOLDOWN, MAX_MIGRATIONS_PER_EPISODE, requests; cbn; try lia.
    split_and!; [lia|lia|constructor]. }
  induction 1 as [|t seen trace s l t' ev _ IH Hr Hn|t seen trace s l t' ev _ IH Hr Hin]; [done|..].
  - apply (recorded _ _ _ _ _ _ _ IH) in Hr as [(-> & _)|[t1 Hw]]; [by destruct Hn; left|]. by eapply episode_step.
  - apply (recorded _ _ _ _ _ _ _ IH) in Hr as [(_ & -> & _)|[t1 Hw]]; [done|]. by destruct (rc_recovered _ _ _ (wo_rest _ _ _ _ _ _ _ Hw)).
Qed.

(** ** Runs *)

Definition rounds (pairs : list Pair) (t : HealthTracker) : HealthTracker :=
  fold_left (fun t p => fst (record_pair (fst p) (snd p) t)) pairs t.

Definition dead : Pair := (false, false).
Definition clean : Pair := (true, true).

Lemma lastn_replicate {A} n (l : list A) x : lastn n (l ++ replicate n x) = replicate n x.
Proof. unfold lastn. rewrite length_app, length_replicate. replace (length l + n - n) with (length l) by lia. by rewrite drop_app_length. Qed.

Lemma evidence_wedge seen : evidence (seen ++ replicate WINDOW dead) = Some DegradedBoth.
Proof.
  unfold evidence. rewrite lastn_replicate, length_app, length_replicate. rewrite (proj2 (Nat.ltb_ge _ _)) by lia. done.
Qed.

Lemma dead_step t seen trace t' ev : reached t seen trace -> record_pair false false t = (t', ev) ->
  reached t' (seen ++ [dead]) (trace ++ [ev]) /\ exists t1, went_on t seen false false t1 t' ev.
Proof.
  intros Hr He. destruct (recorded _ _ _ _ _ _ _ (reached_episode _ _ _ Hr) He) as [(_ & _ & _ & _ & ? & _)|[t1 Hw]]; [done|].
  split; [|by exists t1]. eapply reached_round; [done|done|]. apply (rc_recovered _ _ _ (wo_rest _ _ _ _ _ _ _ Hw)).
Qed.

Lemma dead_run n t seen trace : reached t seen trace ->
  exists more, reached (rounds (replicate n dead) t) (seen ++ replicate n dead) (trace ++ more).
Proof.
  revert t seen trace. induction n as [|n IH]; intros t seen trace Hr; [exists []; by rewrite !app_nil_r|]. cbn.
  destruct (record_pair false false t) as [t' ev] eqn:E. destruct (dead_step _ _ _ _ _ Hr E) as [Hr' _].
  destruct (IH _ _ _ Hr') as [more Hm]. exists (ev :: more). cbn. by rewrite <- !app_assoc in Hm.
Qed.

Lemma rounds_app a b t : rounds (a ++ b) t = rounds b (rounds a t).
Proof. apply fold_left_app. Qed.

(** A wedge that persists asks again, until the budget is spent. *)
Lemma wedge_requests n t seen trace : reached t (seen ++ replicate WINDOW dead) trace ->
  migrations_requested t <= MAX_MIGRATIONS_PER_EPISODE ->
  6 * (MAX_MIGRATIONS_PER_EPISODE - migrations_requested t) + migration_cooldown t <= n + MIGRATION_RETRY_COOLDOWN ->
  migration_cooldown t <= MIGRATION_RETRY_COOLDOWN -> migrations_requested (rounds (replicate n dead) t) = MAX_MIGRATIONS_PER_EPISODE.
Proof.
  unfold MAX_MIGRATIONS_PER_EPISODE, MIGRATION_RETRY_COOLDOWN, WINDOW. revert t seen trace.
  induction n as [|n IH]; intros t seen trace Hr Hm Hp Hc; [cbn in *; lia|]. cbn [replicate rounds fold_left fst snd dead].
  destruct (record_pair false false t) as [t' ev] eqn:E. destruct (dead_step _ _ _ _ _ Hr E) as [Hr' [t1 Hw]]. cbn [fst].
  destruct Hw as [_ _ (_ & Hmi & Hco) _ _ Hcl [_ _ _ _ _ Hreq Hbud]].
  assert (Hev : evidence ((seen ++ replicate 5 dead) ++ [dead]) = Some DegradedBoth).
  { rewrite <- app_assoc. change (replicate 5 dead ++ [dead]) with ([dead] ++ replicate WINDOW dead). rewrite app_assoc. apply evidence_wedge. }
  unfold dead in Hev at 2. rewrite Hev in Hcl. rewrite Hcl, Hmi, Hco in *. unfold MAX_MIGRATIONS_PER_EPISODE, MIGRATION_RETRY_COOLDOWN, WINDOW in *.
  rewrite (bool_decide_eq_true_2 (Some DegradedBoth = Some DegradedBoth)) in Hbud by done.
  assert (Hpot : migrations_requested t' <= 3 /\ 6 * (3 - migrations_requested t') + migration_cooldown t' <= n + 5 /\ migration_cooldown t' <= 5).
  { case_bool_decide as Hin; destruct Hbud as [-> ->].
    - apply Hreq in Hin as (_ & H0 & H3). lia.
    - assert (~ (migration_cooldown t = 0 /\ migrations_requested t < 3)) by (intros [? ?]; apply Hin, Hreq; done). lia. }
  destruct Hpot as (H1 & H2 & H3). apply (IH t' (seen ++ [dead]) (trace ++ [ev])); [|done..].
  rewrite <- app_assoc. rewrite <- app_assoc in Hr'. exact Hr'.
Qed.

(** Two clean rounds leave at most three losses in the window. *)
Lemma evidence_clean seen : evidence ((seen ++ [clean]) ++ [clean]) = None.
Proof.
  unfold evidence. case_match; [done|]. unfold WINDOW, DEGRADE_MIN_LOST. rewrite !lastn_snoc, !fmap_app, !count_lost_app.
  assert (count_lost (snd <$> lastn 3 seen) <= 3).
  { unfold count_lost. etrans; [apply length_filter|]. rewrite length_fmap, length_lastn. lia. }
  change (count_lost (snd <$> [clean])) with 0. rewrite (proj2 (Nat.ltb_lt _ _)); [done|]. lia.
Qed.

Lemma clean_step t seen trace : reached t seen trace -> state t <> Healthy ->
  let t' := fst (record_pair true true t) in
  state t' = Healthy \/
  state t' <> Healthy /\ (exists ev, reached t' (seen ++ [clean]) (trace ++ [ev])) /\
  (evidence (seen ++ [clean]) = None -> recover_streak t' = recover_streak t + 1).
Proof.
  intros Hr Hne. cbn zeta. destruct (record_pair true true t) as [t' ev] eqn:E. cbn [fst].
  destruct (recorded _ _ _ _ _ _ _ (reached_episode _ _ _ Hr) E) as [(_ & -> & _)|[t1 Hw]]; [by left|]. right.
  pose proof (rc_recovered _ _ _ (wo_rest _ _ _ _ _ _ _ Hw)) as Hn. destruct Hw as [_ _ (Hst & _) Hstr _ Hcl [_ Hrst Hrstr _ _ _ _]].
  split; [|split; [exists ev; by eapply reached_round|]].
  - rewrite Hrst, Hst. destruct (classify t1) as [v|] eqn:Ev; [|done]. cbn. intros ->. unfold classify in Ev. by repeat case_match.
  - intros Hev. rewrite Hcl in Hrst. unfold clean in Hev. rewrite Hev in Hrst. cbn in Hrst. rewrite bool_decide_eq_true_2 in Hstr by done. cbn in Hstr.
    destruct Hrstr as [->|[_ ?]]; [done|]. congruence.
Qed.

(** Four clean rounds end any episode. *)
Lemma clean_run t seen trace : reached t seen trace -> exists k, k <= 4 /\ state (rounds (replicate k clean) t) = Healthy.
Proof.
  intros Hr. destruct (decide (state t = Healthy)) as [H|Hne]; [exists 0; split; [lia|done]|].
  destruct (clean_step _ _ _ Hr Hne) as [H|(Hne1 & [ev1 Hr1] & _)]; [exists 1; split; [lia|exact H]|]. set (t1 := fst _) in *.
  destruct (clean_step _ _ _ Hr1 Hne1) as [H|(Hne2 & [ev2 Hr2] & Hs2)]; [exists 2; split; [lia|exact H]|]. set (t2 := fst _) in *.
  destruct (clean_step _ _ _ Hr2 Hne2) as [H|(Hne3 & [ev3 Hr3] & Hs3)]; [exists 3; split; [lia|exact H]|]. set (t3 := fst _) in *.
  destruct (clean_step _ _ _ Hr3 Hne3) as [H|(Hne4 & [ev4 Hr4] & Hs4)]; [exists 4; split; [lia|exact H]|]. exfalso.
  specialize (Hs2 (evidence_clean _)). specialize (Hs3 (evidence_clean _)). specialize (Hs4 (evidence_clean _)).
  pose proof (proj1 (ep_streak _ _ _ (reached_episode _ _ _ Hr4))) as Hb. unfold RECOVER_STREAK in Hb. lia.
Qed.

(** Three clean rounds are not always enough: one that turns a wedge into a size verdict starts the count again. *)
Lemma three_clean_rounds_may_not_recover :
  let t := rounds [dead; dead; (true, false); (true, false); (true, false)] tracker_default in
  state t = DegradedBoth /\ state (rounds (replicate 3 clean) t) = DegradedLarge.
Proof. vm_compute. done. Qed.

(** C25.  The verdict on the datapath is exact.  In every episode, whatever the probes returned: a
    degraded state is entered only when at least four of the last five large probes were lost, as a wedge when more than one small probe
    was lost with them, and the state is always the last such verdict; recovery is declared only after three
    clean rounds in a row; a migration is asked for only on a wedge, at most three times, with at least five
    rounds between two of them.  And it is not silent: five dead rounds are a wedge, eighteen ask for
    every migration there is, and four clean rounds end the episode. *)
Theorem path_verdicts_exact t seen trace : reached t seen trace ->
  (forall s l t' ev, record_pair s l t = (t', ev) ->
    (forall v, Entered v ∈ ev -> evidence (seen ++ [(s, l)]) = Some v) /\
    (Recovered ∈ ev -> state t <> Healthy /\ t' = tracker_default /\ lastn RECOVER_STREAK (seen ++ [(s, l)]) = replicate RECOVER_STREAK clean) /\
    (Recovered ∉ ev -> state t' = default (state t) (evidence (seen ++ [(s, l)]))) /\
    (RequestMigration ∈ ev -> evidence (seen ++ [(s, l)]) = Some DegradedBoth /\ requests trace < MAX_MIGRATIONS_PER_EPISODE /\
       forall k ev', trace !! k = Some ev' -> RequestMigration ∈ ev' -> MIGRATION_RETRY_COOLDOWN < length trace - k)) /\
  state (rounds (replicate WINDOW dead) t) = DegradedBoth /\
  migrations_requested (rounds (replicate 18 dead) t) = MAX_MIGRATIONS_PER_EPISODE /\
  exists k, k <= 4 /\ state (rounds (replicate k clean) t) = Healthy.
Proof.
  intros Hr. pose proof (reached_episode _ _ _ Hr) as Hep. split; [|split; [|split; [|by eapply clean_run]]].
  - intros s l t' ev He. destruct (recorded _ _ _ _ _ _ _ Hep He) as [(-> & -> & Hne & Hstr & -> & ->)|[t1 Hw]].
    + split_and!; [by intros v ?%list_elem_of_singleton| |intros []; by left|by intros ?%list_elem_of_singleton]. intros _. split; [done|]. split; [done|].
      destruct (ep_streak _ _ _ Hep) as (_ & Hlen & Hcl). rewrite Hstr in Hlen, Hcl. unfold RECOVER_STREAK. rewrite lastn_snoc.
      assert (Hl2 : length (lastn 2 seen) = 2) by (rewrite length_lastn; lia).
      destruct (lastn 2 seen) as [|p [|q [|]]]; try done. apply Forall_cons in Hcl as [-> [-> _]%Forall_cons]. done.
    + destruct Hw as [_ _ (Hst & Hmi & Hco) _ _ Hcl [_ Hrst _ Hrec Hent Hreq _]]. rewrite Hcl in *. split_and!; [done|done| |].
      * intros _. by rewrite Hrst, Hst.
      * intros (Hev & Hc0 & Hm)%Hreq. split; [done|]. rewrite Hmi in Hm. destruct (ep_requests _ _ _ Hep) as [<- _]. split; [done|].
        intros k ev' Hk Hin. pose proof (ep_spaced _ _ _ Hep k ev' Hk Hin) as Hsp. apply lookup_lt_Some in Hk. lia.
  - change (replicate WINDOW dead) with (replicate 4 dead ++ [dead]). rewrite rounds_app.
    destruct (dead_run 4 _ _ _ Hr) as [more Hr4]. set (t4 := rounds (replicate 4 dead) t) in *. cbn [rounds fold_left fst snd dead].
    destruct (record_pair false false t4) as [t5 ev] eqn:E. destruct (dead_step _ _ _ _ _ Hr4 E) as [_ [t1 Hw]].
    destruct Hw as [_ _ _ _ _ Hcl [_ Hrst _ _ _ _ _]]. cbn [fst]. rewrite Hrst, Hcl, <- app_assoc. change (replicate 4 dead ++ [(false, false)]) with (replicate WINDOW dead).
    by rewrite evidence_wedge.
  - change (replicate 18 dead) with (replicate WINDOW dead ++ replicate 13 dead). rewrite rounds_app. destruct (dead_run WINDOW _ _ _ Hr) as [more Hr5].
    pose proof (reached_episode _ _ _ Hr5) as [_ _ _ _ _ [Hm H3] Hfr Hc _]. rewrite <- Hm in H3. eapply wedge_requests; [exact Hr5|done| |done].
    unfold MAX_MIGRATIONS_PER_EPISODE, MIGRATION_RETRY_COOLDOWN, WINDOW in *. set (t5 := rounds _ t) in *. destruct (migrations_requested t5); [rewrite Hfr by done|]; lia.
Qed.

Lemma path_verdicts_exact_witness : exists t, state t = DegradedBoth /\ exists k, k <= 4 /\ state (rounds (replicate k clean) t) = Healthy.
Proof.
  destruct (dead_run 5 tracker_default [] [] reached_start) as [more Hr].
  exists (rounds (replicate 5 dead) tracker_default). split; [reflexivity|]. exact (proj2 (proj2 (proj2 (path_verdicts_exact _ _ _ Hr)))).
Defined.
