(* ===== verification/FlowKeys.v ===== *)
(** Flow keys of inner packets: [flow_hash_5tuple]
    ([crates/warrenguard-transport-core/src/flow_hash.rs]) and the
    direction-agnostic [canonical_flow_key] with the memo [FlowNoter]
    ([crates/warrenguard-multihop-server/src/datapath.rs]).

    [None] is a panic, as for every function that indexes; [Some None] is the
    code's [None]. *)

From S2P Require Import Prelude InnerMtu.

Definition FNV_OFFSET : Z := 0xcbf29ce484222325.
Definition FNV_PRIME : Z := 0x100000001b3.

(** The closure [feed]: FNV-1a over the bytes. *)
Definition feed (h : Z) (bytes : list Z) : Z :=
  fold_left (fun h b => wrap 64 (Z.lxor h b * FNV_PRIME)) bytes h.

Definition flow_hash_5tuple (pkt : list Z) : option (option Z) :=
  match pkt with
  | [] => Some None
  | first :: _ =>
      let h := FNV_OFFSET in
      if nibble first =? 4 then
        if (length pkt <? 24)%nat then Some None
        else
          let ihl := ihl_of first in
          if ((ihl <? 20) || (length pkt <? ihl + 4))%nat then Some None
          else
            proto ← pkt !! 9%nat;
            if negb (proto =? 6) && negb (proto =? 17) then Some None
            else
              let h := feed h [proto] in
              addrs ← slice pkt 12 20; let h := feed h addrs in
              ports ← slice pkt ihl (ihl + 4); let h := feed h ports in
              Some (Some h)
      else if nibble first =? 6 then
        if (length pkt <? 44)%nat then Some None
        else
          next ← pkt !! 6%nat;
          if negb (next =? 6) && negb (next =? 17) then Some None
          else
            let h := feed h [next] in
            addrs ← slice pkt 8 40; let h := feed h addrs in
            ports ← slice pkt 40 44; let h := feed h ports in
            Some (Some h)
      else Some None
  end.

(** [<=] on byte arrays, lexicographic. *)
Fixpoint bytes_le (a b : list Z) : bool :=
  match a, b with
  | [], _ => true
  | _ :: _, [] => false
  | x :: a', y :: b' => (x <? y) || ((x =? y) && bytes_le a' b')
  end.

(** The tail of both branches: order the endpoints and feed. *)
Definition ordered_key (proto : Z) (a b : list Z) : Z :=
  let '(lo, hi) := if bytes_le a b then (a, b) else (b, a) in
  feed (feed (feed FNV_OFFSET [proto]) lo) hi.

Definition canonical_flow_key (pkt : list Z) : option (option Z) :=
  match pkt with
  | [] => Some None
  | first :: _ =>
      if nibble first =? 4 then
        if (length pkt <? 24)%nat then Some None
        else
          let ihl := ihl_of first in
          if ((ihl <? 20) || (length pkt <? ihl + 4))%nat then Some None
          else
            proto ← pkt !! 9%nat;
            if negb (proto =? 6) && negb (proto =? 17) then Some None
            else
              src ← slice pkt 12 16; sport ← slice pkt ihl (ihl + 2);
              dst ← slice pkt 16 20; dport ← slice pkt (ihl + 2) (ihl + 4);
              Some (Some (ordered_key proto (src ++ sport) (dst ++ dport)))
      else if nibble first =? 6 then
        if (length pkt <? 44)%nat then Some None
        else
          next ← pkt !! 6%nat;
          if negb (next =? 6) && negb (next =? 17) then Some None
          else
            src ← slice pkt 8 24; sport ← slice pkt 40 42;
            dst ← slice pkt 24 40; dport ← slice pkt 42 44;
            Some (Some (ordered_key next (src ++ sport) (dst ++ dport)))
      else Some None
  end.

(** ** The memo of announced flows *)

Module FlowNoter.

Definition FLOW_TABLE_CAP_PER_IP : Z := 8192.

Abbreviation t := (gset Z).

Definition new : t := ∅.

(** The new memo and whether the packet opens its flow; the key was computed
    from the packet. *)
Definition is_first_of_flow_key (fk : Z) (m : t) : t * bool :=
  let m := if FLOW_TABLE_CAP_PER_IP <=? Z.of_nat (size m) then ∅ else m in
  ({[fk]} ∪ m, negb (bool_decide (fk ∈ m))).

Definition is_first_of_flow (m : t) (plaintext : list Z) : option (t * bool) :=
  key ← canonical_flow_key plaintext;
  Some match key with
       | None => (m, false)
       | Some fk => is_first_of_flow_key fk m
       end.

End FlowNoter.

(** ** No panic, and the same packets have both keys *)

Lemma flow_keys_total pkt :
  (canonical_flow_key pkt = Some None /\ flow_hash_5tuple pkt = Some None) \/
  (exists k h, canonical_flow_key pkt = Some (Some k) /\ flow_hash_5tuple pkt = Some (Some h)).
Proof.
  unfold canonical_flow_key, flow_hash_5tuple. destruct pkt as [|first l]; [by left|].
  set (pkt := first :: l). destruct (nibble first =? 4).
  - destruct (Nat.ltb_spec (length pkt) 24); [by left|].
    destruct (Nat.ltb_spec (ihl_of first) 20); [by left|].
    destruct (Nat.ltb_spec (length pkt) (ihl_of first + 4)); [by left|]. cbn [orb].
    destruct (lookup_in_range pkt 9) as [p ->]; [lia|]. cbn [mbind option_bind].
    destruct (negb (p =? 6) && negb (p =? 17)); [by left|]. right.
    rewrite !slice_some by lia. cbn [mbind option_bind]. eauto.
  - destruct (nibble first =? 6); [|by left]. destruct (Nat.ltb_spec (length pkt) 44); [by left|].
    destruct (lookup_in_range pkt 6) as [p ->]; [lia|]. cbn [mbind option_bind].
    destruct (negb (p =? 6) && negb (p =? 17)); [by left|]. right.
    rewrite !slice_some by lia. cbn [mbind option_bind]. eauto.
Qed.

(** ** Both directions of a flow *)

Lemma bytes_le_total a b : bytes_le a b = true \/ bytes_le b a = true.
Proof.
  revert b. induction a as [|x a IH]; intros [|y b]; simpl; auto.
  rewrite !orb_true_iff, !andb_true_iff, !Z.ltb_lt, !Z.eqb_eq.
  destruct (Z.lt_total x y) as [|[->|]]; auto. destruct (IH b); auto.
Qed.

Lemma bytes_le_antisym a b : bytes_le a b = true -> bytes_le b a = true -> a = b.
Proof.
  revert b. induction a as [|x a IH]; intros [|y b]; simpl; try done.
  rewrite !orb_true_iff, !andb_true_iff, !Z.ltb_lt, !Z.eqb_eq.
  intros [?|[-> H1]] [?|[? H2]]; try lia. f_equal. by apply IH.
Qed.

Lemma ordered_key_sym proto a b : ordered_key proto a b = ordered_key proto b a.
Proof.
  unfold ordered_key. destruct (bytes_le a b) eqn:E1, (bytes_le b a) eqn:E2; try done.
  - by rewrite (bytes_le_antisym a b).
  - destruct (bytes_le_total a b); congruence.
Qed.

(** [r] answers [p]: the protocol is the same, addresses and ports are swapped.
    The IPv4 headers may differ in their options. *)
Inductive answers (p r : list Z) : Prop :=
| answers_v4 fp fr :
    p !! O = Some fp -> r !! O = Some fr -> nibble fp = 4 -> nibble fr = 4 ->
    (20 <= ihl_of fp)%nat -> (20 <= ihl_of fr)%nat ->
    (ihl_of fp + 4 <= length p)%nat -> (ihl_of fr + 4 <= length r)%nat ->
    p !! 9%nat = r !! 9%nat ->
    slice r 12 16 = slice p 16 20 -> slice r 16 20 = slice p 12 16 ->
    slice r (ihl_of fr) (ihl_of fr + 2) = slice p (ihl_of fp + 2) (ihl_of fp + 4) ->
    slice r (ihl_of fr + 2) (ihl_of fr + 4) = slice p (ihl_of fp) (ihl_of fp + 2) ->
    answers p r
| answers_v6 fp fr :
    p !! O = Some fp -> r !! O = Some fr -> nibble fp = 6 -> nibble fr = 6 ->
    (44 <= length p)%nat -> (44 <= length r)%nat -> p !! 6%nat = r !! 6%nat ->
    slice r 8 24 = slice p 24 40 -> slice r 24 40 = slice p 8 24 ->
    slice r 40 42 = slice p 42 44 -> slice r 42 44 = slice p 40 42 ->
    answers p r.

(** A packet and its answer have the same flow key, whatever the options of
    their headers, so that the exit finds the connection that opened a flow from
    the packets coming back. *)
Lemma canonical_key_symmetric p r : answers p r -> canonical_flow_key r = canonical_flow_key p.
Proof.
  intros [fp fr Hp Hr Vp Vr Ip Ir Lp Lr H9 Ha Hb Hc Hd|fp fr Hp Hr Vp Vr Lp Lr H6 Ha Hb Hc Hd].
  - destruct p as [|fp' p]; [done|]. destruct r as [|fr' r]; [done|].
    injection Hp as ->. injection Hr as ->. unfold canonical_flow_key. rewrite Vp, Vr.
    change (4 =? 4) with true. cbv iota.
    rewrite !(proj2 (Nat.ltb_ge _ _)) by lia. cbn [orb]. rewrite <- H9, Ha, Hb, Hc, Hd.
    destruct (lookup_in_range (fp :: p) 9) as [q ->]; [lia|]. cbn [mbind option_bind].
    destruct (negb (q =? 6) && negb (q =? 17)); [done|].
    rewrite !slice_some by lia. cbn [mbind option_bind]. do 2 f_equal. apply ordered_key_sym.
  - destruct p as [|fp' p]; [done|]. destruct r as [|fr' r]; [done|].
    injection Hp as ->. injection Hr as ->. unfold canonical_flow_key. rewrite Vp, Vr.
    change (6 =? 4) with false. change (6 =? 6) with true. cbv iota.
    rewrite !(proj2 (Nat.ltb_ge _ _)) by lia. rewrite <- H6, Ha, Hb, Hc, Hd.
    destruct (lookup_in_range (fp :: p) 6) as [q ->]; [lia|]. cbn [mbind option_bind].
    destruct (negb (q =? 6) && negb (q =? 17)); [done|].
    rewrite !slice_some by lia. cbn [mbind option_bind]. do 2 f_equal. apply ordered_key_sym.
Qed.

(** A segment from 10.66.0.5:4321 and its answer, whose header has options. *)
Definition sample_out : list Z :=
  [69; 0; 0; 40; 0; 0; 0; 0; 64; 6; 0; 0; 10; 66; 0; 5; 93; 184; 216; 34; 16; 225; 1; 187].
Definition sample_back : list Z :=
  [70; 0; 0; 44; 0; 0; 0; 0; 64; 6; 0; 0; 93; 184; 216; 34; 10; 66; 0; 5; 1; 1; 1; 0; 1; 187; 16; 225].

Lemma sample_answers : answers sample_out sample_back.
Proof. apply (answers_v4 _ _ 69 70); first [reflexivity | by apply Nat.leb_le]. Qed.

Lemma sample_keys :
  canonical_flow_key sample_back = canonical_flow_key sample_out /\ canonical_flow_key sample_out <> Some None.
Proof.
  split; [|by vm_compute]. apply canonical_key_symmetric.
  apply sample_answers.
Qed.

(** ** The memo is bounded and answers once per flow until it is cleared *)

Lemma noter_bounded m fk :
  Z.of_nat (size (fst (FlowNoter.is_first_of_flow_key fk m))) <= FlowNoter.FLOW_TABLE_CAP_PER_IP.
Proof.
  unfold FlowNoter.is_first_of_flow_key. cbn [fst].
  destruct (Z.leb_spec FlowNoter.FLOW_TABLE_CAP_PER_IP (Z.of_nat (size m))) as [|Hm].
  - rewrite (union_empty_r_L {[fk]}), size_singleton. unfold FlowNoter.FLOW_TABLE_CAP_PER_IP. lia.
  - destruct (decide (fk ∈ m)).
    + assert ({[fk]} ∪ m = m) as -> by set_solver. lia.
    + rewrite size_union, size_singleton by set_solver. lia.
Qed.

Lemma noter_repeats m fk :
  fk ∈ m -> Z.of_nat (size m) < FlowNoter.FLOW_TABLE_CAP_PER_IP ->
  FlowNoter.is_first_of_flow_key fk m = (m, false).
Proof.
  intros Hin Hs. unfold FlowNoter.is_first_of_flow_key.
  rewrite (proj2 (Z.leb_gt _ _)) by done. rewrite bool_decide_true by done.
  f_equal. set_solver.
Qed.

Lemma noter_remembers m fk : fk ∈ fst (FlowNoter.is_first_of_flow_key fk m).
Proof. unfold FlowNoter.is_first_of_flow_key. set_solver. Qed.
