(* ===== verification/Control.v ===== *)
(** Control messages ([crates/warrenguard-multihop/src/control.rs]) and the test for
    cover traffic ([is_daita_dummy] of [crates/warrenguard-pump/src/lib.rs]).

    A control message travels as the plaintext of a frame: a marker byte, a
    version byte and the serialized message.  The serializer ([postcard]) is a
    class with its documented law; byte arrays are lists of bytes, and the two
    fractions of [DaitaConfig] their IEEE 754 bit patterns. *)

From S2P Require Import Prelude.
From stdpp Require Import strings.
#[local] Open Scope Z_scope.

Definition CONTROL_FIRST_BYTE : Z := 0xC0.
Definition CONTROL_VERSION_V3 : Z := 0x03.

Abbreviation PopSignature := (list Z) (only parsing).
Abbreviation SessionToken := (list Z) (only parsing).

Record SealedToApi := mkSealed {
  key_id : Z;
  enc : list Z;
  ct : list Z;
}.

Record DaitaConfig := mkDaitaConfig {
  machine_specs : list string;
  max_padding_frac : Z;
  max_blocking_frac : Z;
}.

Inductive WarrenControlMessage :=
| IpRequest (prefer_ipv4 : option (list Z)) (client_pubkey : option (list Z)) (wants_ipv6 : bool)
    (pop_sig : option PopSignature) (wants_daita : bool)
| IpAssign (ipv4 : list Z) (prefix_len : Z) (gateway_ipv4 : list Z) (ipv6 : option (list Z))
    (prefix_len_v6 : Z) (gateway_ipv6 : option (list Z)) (daita_spec : option DaitaConfig)
| IpExhausted
| Rejected
| ExitDraining (deadline_unix_secs reason_code : Z)
| IpRequestV7 (prefer_ipv4 : option (list Z)) (wants_ipv6 : bool) (session_tokens : list SessionToken)
    (wants_daita : bool)
| RejectedBanned (reason_code : Z)
| IpRequestRoute (prefer_ipv4 : option (list Z)) (wants_ipv6 : bool) (route_locator : SealedToApi)
    (wants_daita : bool)
| RouteRejected (reason_code : Z)
| RouteAnchorRequest (sealed_anchor : SealedToApi) (session_token : option SessionToken)
| RouteAnchorAck (status max_routes : Z)
| RouteEnded (reason_code : Z)
| RejectedDeviceLimit
| LeaseRefresh (session_token : option SessionToken)
| LeaseRefreshAck (status : Z)
| IpRequestV7Detailed (prefer_ipv4 : option (list Z)) (wants_ipv6 : bool)
    (session_tokens : list SessionToken) (wants_daita : bool)
| TokenRejected (reason_code : Z).

(** [postcard] on control messages. *)
Class ControlPostcard := {
  ControlPostcardError : Type;
  control_to_stdvec : WarrenControlMessage -> result (list Z) ControlPostcardError;
  control_take_from_bytes : list Z -> result (WarrenControlMessage * list Z) ControlPostcardError;
}.

(** A value followed by anything deserializes to the value and the rest. *)
Class ControlPostcardLaws (P : ControlPostcard) := {
  control_take_to m bs rest :
    control_to_stdvec m = Ok bs -> control_take_from_bytes (bs ++ rest) = Ok (m, rest);
}.

Inductive ControlError {P : ControlPostcard} :=
| TooShort (got : nat)
| UnsupportedVersion (got expected : Z)
| TrailingBytes
| Decode (e : ControlPostcardError).
Arguments ControlError : clear implicits.

Section Codec.
Context `{P : ControlPostcard}.

Definition from_control {A} (r : result A ControlPostcardError) : result A (ControlError P) :=
  match r with Ok a => Ok a | Err e => Err (Decode e) end.

Definition encode_control (msg : WarrenControlMessage) : result (list Z) (ControlError P) :=
  (payload <-? from_control (control_to_stdvec msg);
   Ok (CONTROL_FIRST_BYTE :: CONTROL_VERSION_V3 :: payload))%warren.

Definition try_decode_control (plaintext : list Z)
  : result (option WarrenControlMessage) (ControlError P) :=
  match plaintext with
  | [] => Ok None
  | first :: rest =>
      if negb (first =? CONTROL_FIRST_BYTE) then Ok None
      else
        match rest with
        | [] => Err (TooShort (length plaintext))
        | version :: payload =>
            if negb (version =? CONTROL_VERSION_V3)
            then Err (UnsupportedVersion version CONTROL_VERSION_V3)
            else
              (p <-? from_control (control_take_from_bytes payload);
               let '(msg, rest) := p in
               if negb (bool_decide (rest = [])) then Err TrailingBytes else Ok (Some msg))%warren
        end
  end.

(** ** Uplink classes *)

(** An anchor request and a lease refresh keep their fields, every other control
    frame is dropped. *)
Inductive UplinkKind :=
| Packet
| ControlFrame
| AnchorRequest (sealed_anchor : SealedToApi) (session_token : option SessionToken)
| LeaseRefreshFrame (token : option SessionToken)
| DaitaDummy.

Definition is_daita_dummy (datagram : list Z) : bool :=
  match datagram with
  | b :: _ => negb (nibble b =? 4) && negb (nibble b =? 6)
  | [] => true
  end.

Definition classify_uplink (plaintext : list Z) : UplinkKind :=
  match try_decode_control plaintext with
  | Ok None => if is_daita_dummy plaintext then DaitaDummy else Packet
  | Ok (Some (RouteAnchorRequest sealed_anchor session_token)) =>
      AnchorRequest sealed_anchor session_token
  | Ok (Some (LeaseRefresh session_token)) => LeaseRefreshFrame session_token
  | Ok (Some _) => ControlFrame
  | Err _ => ControlFrame
  end.

(** What classifies as a packet has an IP version. *)
Lemma packet_has_version plaintext :
  classify_uplink plaintext = Packet ->
  exists b0, plaintext !! O = Some b0 /\ (nibble b0 = 4 \/ nibble b0 = 6).
Proof.
  unfold classify_uplink. destruct (try_decode_control plaintext) as [[[]|]|]; try done.
  unfold is_daita_dummy. destruct plaintext as [|b l]; [done|]. intros Hd.
  exists b. split; [done|].
  destruct (Z.eqb_spec (nibble b) 4), (Z.eqb_spec (nibble b) 6); auto; done.
Qed.

End Codec.

(** C40.  Control messages round-trip, one plaintext is exactly one message, and a
    control frame can never be taken for a packet, nor a packet for a control
    frame: a message decodes to itself, the same bytes with anything appended are
    refused as trailing, no encoding classifies as a packet or as cover traffic,
    and a plaintext with an IP version nibble is never decoded as control. *)
Theorem control_roundtrip {P : ControlPostcard} {L : ControlPostcardLaws P} msg bytes :
  encode_control msg = Ok bytes ->
  try_decode_control bytes = Ok (Some msg) /\
  (forall extra, extra <> [] -> try_decode_control (bytes ++ extra) = Err TrailingBytes) /\
  (forall extra, classify_uplink (bytes ++ extra) <> Packet /\ classify_uplink (bytes ++ extra) <> DaitaDummy) /\
  forall b0 pkt, nibble b0 = 4 \/ nibble b0 = 6 -> classify_uplink (b0 :: pkt) = Packet.
Proof.
  unfold encode_control. destruct (control_to_stdvec msg) as [payload|] eqn:E; [|done].
  cbn [from_control]. intros [= <-].
  assert (Hdec : forall extra, try_decode_control (CONTROL_FIRST_BYTE :: CONTROL_VERSION_V3 :: payload ++ extra) =
            if negb (bool_decide (extra = [])) then Err TrailingBytes else Ok (Some msg)).
  { intros extra. cbn [try_decode_control]. rewrite !Z.eqb_refl. cbn [negb].
    by rewrite (control_take_to msg payload extra E). }
  split; [|split; [|split]].
  - specialize (Hdec []). by rewrite app_nil_r in Hdec.
  - intros extra Hx. cbn [app]. rewrite Hdec. by rewrite bool_decide_false.
  - intros extra. cbn [app]. unfold classify_uplink. rewrite Hdec.
    case_bool_decide; cbn [negb]; [by destruct msg|done].
  - intros b0 pkt Hn. unfold classify_uplink. cbn [try_decode_control is_daita_dummy].
    destruct (Z.eqb_spec b0 CONTROL_FIRST_BYTE) as [->|]; cbn [negb]; [by vm_compute in Hn; lia|].
    destruct Hn as [-> | ->]; done.
Qed.

(** A serializer of the messages without fields. *)
#[export] Instance toy_control_postcard : ControlPostcard := {
  ControlPostcardError := unit;
  control_to_stdvec m :=
    match m with
    | IpExhausted => Ok [2] | Rejected => Ok [3] | RejectedDeviceLimit => Ok [12] | _ => Err tt
    end;
  control_take_from_bytes bs :=
    match bs with
    | b :: rest =>
        if b =? 2 then Ok (IpExhausted, rest) else if b =? 3 then Ok (Rejected, rest)
        else if b =? 12 then Ok (RejectedDeviceLimit, rest) else Err tt
    | [] => Err tt
    end;
}.

#[export] Instance toy_control_laws : ControlPostcardLaws toy_control_postcard.
Proof. constructor. intros m bs rest. by destruct m; intros [= <-]. Qed.

Lemma control_roundtrip_witness :
  try_decode_control (P := toy_control_postcard) [0xC0; 0x03; 12] = Ok (Some RejectedDeviceLimit).
Proof.
  by apply (control_roundtrip (L := toy_control_laws) RejectedDeviceLimit [0xC0; 0x03; 12]).
Defined.
