(* ===== verification/UplinkPump.v ===== *)
(** The exit's uplink pump after the replay check
    ([crates/warrenguard-multihop-server/src/datapath.rs], the loop of
    [serve_terminating_connection] in [multihop.rs], and [UplinkMetrics::fold] of
    [metrics.rs]): the gates, the memo of announced flows, the MSS clamp, the TUN
    writer, and the accounting of every datagram.

    One turn of the loop is [handle]: its input is what the front of the loop made
    of a datagram (the classical and the post-quantum pump share everything behind
    it), the readings of the clock, the verdict of the rate policy, the
    live datagram budget and the result of the TUN write.  Effects on the router,
    the anchor handler and the device are its output. *)

From S2P Require Import Prelude IpPackets Checksum InnerMtu FlowKeys Control.

(** ** Rate-limited logs *)

Module RateLimited.

Record t := mk {
  count : Z;
  every : Z;
}.

Definition new (every : Z) : t := mk 0 every.

(** [u64::is_multiple_of]. *)
Definition is_multiple_of (x n : Z) : bool := if n =? 0 then x =? 0 else x mod n =? 0.

Definition hit (r : t) : t * bool :=
  let r := mk (count r + 1) (every r) in
  (r, (count r =? 1) || is_multiple_of (count r) (every r)).

End RateLimited.

(** Record a hit of the limiter at [slot]; [None] when there is none. *)
Definition hit_slot (logs : list RateLimited.t) (slot : nat) : option (list RateLimited.t) :=
  l ← logs !! slot; Some (<[slot := fst (RateLimited.hit l)]> logs).

(** ** The source gate *)

Record SpoofTally := mkTally {
  malformed : Z;
  v4_mismatch : Z;
  v6_link_local : Z;
  v6_unallocated : Z;
  v6_mismatch : Z;
}.

Definition tally_default : SpoofTally := mkTally 0 0 0 0 0.

Definition total (t : SpoofTally) : Z :=
  malformed t + v4_mismatch t + v6_link_local t + v6_unallocated t + v6_mismatch t.

Definition bump (t : SpoofTally) (refusal : SpoofRefusal) : SpoofTally :=
  match refusal with
  | Malformed => mkTally (malformed t + 1) (v4_mismatch t) (v6_link_local t) (v6_unallocated t) (v6_mismatch t)
  | V4Mismatch => mkTally (malformed t) (v4_mismatch t + 1) (v6_link_local t) (v6_unallocated t) (v6_mismatch t)
  | V6LinkLocal => mkTally (malformed t) (v4_mismatch t) (v6_link_local t + 1) (v6_unallocated t) (v6_mismatch t)
  | V6Unallocated => mkTally (malformed t) (v4_mismatch t) (v6_link_local t) (v6_unallocated t + 1) (v6_mismatch t)
  | V6Mismatch => mkTally (malformed t) (v4_mismatch t) (v6_link_local t) (v6_unallocated t) (v6_mismatch t + 1)
  end.

Module SpoofGate.

Record t := mk {
  v4 : Z;
  v6 : option Z;
  tally : SpoofTally;
  logs : list RateLimited.t;
}.

Definition new (v4 : Z) (v6 : option Z) : t :=
  mk v4 v6 tally_default (replicate 5 (RateLimited.new 10000)).

Definition slot (refusal : SpoofRefusal) : nat :=
  match refusal with
  | Malformed => 0 | V4Mismatch => 1 | V6LinkLocal => 2 | V6Unallocated => 3 | V6Mismatch => 4
  end.

Definition admits (g : t) (plaintext : list Z) : option (t * bool) :=
  verdict ← classify_source plaintext (v4 g) (v6 g);
  match verdict with
  | None => Some (g, true)
  | Some refusal =>
      logs' ← hit_slot (logs g) (slot refusal);
      Some (mk (v4 g) (v6 g) (bump (tally g) refusal) logs', false)
  end.

End SpoofGate.

(** ** The destination gate *)

Module PoolGate.

Record t := mk {
  pool : TunnelPool;
  drops : Z;
  logs : list RateLimited.t;
}.

Definition new (pool : TunnelPool) : t := mk pool 0 (replicate 2 (RateLimited.new 10000)).

Definition admits (g : t) (plaintext : list Z) : option (t * bool) :=
  verdict ← classify_destination plaintext (pool g);
  match verdict with
  | None => Some (g, true)
  | Some refusal =>
      let slot := match refusal with V4Peer => 0%nat | V6Peer => 1%nat end in
      logs' ← hit_slot (logs g) slot;
      Some (mk (pool g) (drops g + 1) logs', false)
  end.

End PoolGate.

(** ** The TUN writer *)

Definition MAX_CONSECUTIVE_TUN_WRITE_ERRORS : Z := 10000.

Inductive TunWrite := Wrote | Dropped | Fatal.

Module TunWriter.

Record t := mk {
  consecutive_errors : Z;
  errors : RateLimited.t;
}.

Definition new : t := mk 0 (RateLimited.new 1000).

(** [sent] is the result of the device. *)
Definition write (w : t) (sent : bool) : t * TunWrite :=
  if sent then (mk 0 (errors w), Wrote)
  else
    let n := consecutive_errors w + 1 in
    (mk n (fst (RateLimited.hit (errors w))),
     if MAX_CONSECUTIVE_TUN_WRITE_ERRORS <=? n then Fatal else Dropped).

End TunWriter.

(** ** MTU adaptation *)

Definition inner_budget (max_datagram_size : option Z) (frame_overhead : Z) : Z :=
  let size := match max_datagram_size with Some n => n | None => u16_max end in
  let budget := Z.max 0 (size - frame_overhead) in
  if budget <=? u16_max then budget else u16_max.

Definition clamp_mss_logged (packet : list Z) (budget : Z) : option (list Z) :=
  fst <$> clamp_syn_mss packet budget.

Definition clamp_uplink (packet : list Z) (max_datagram_size : option Z) (frame_overhead : Z)
  : option (list Z) :=
  syn ← is_tcp_syn packet;
  if negb syn then Some packet
  else clamp_mss_logged packet (inner_budget max_datagram_size frame_overhead).

(** The packet as it is sealed, and the report to reflect instead. *)
Definition adapt_inner_for_budget (packet : list Z) (budget : Z) : option (list Z * option (list Z)) :=
  syn ← is_tcp_syn packet;
  if syn : bool then p ← clamp_mss_logged packet budget; Some (p, None)
  else if Z.of_nat (length packet) <=? budget then Some (packet, None)
  else
    r ← build_frag_needed packet budget TUNNEL_GATEWAY_IP TUNNEL_GATEWAY_IPV6;
    Some (packet, r).

Definition overread_should_drop (space mtu gate_mtus : Z) : bool :=
  if gate_mtus =? 0 then false else space <? Z.min u64_max (gate_mtus * mtu).

(** ** The counters *)

Record RxCounters := mkRx {
  datagrams : Z;
  opened : Z;
  to_tun : Z;
  decode_errs : Z;
  exit_id_mismatches : Z;
  session_errs : Z;
  session_evicted : Z;
  open_errs : Z;
  replays : Z;
  control_frames : Z;
  dummies : Z;
  spoof : SpoofTally;
  pool_drops : Z;
  rate_drops : Z;
  tun_write_errs : Z;
}.

Definition rx_default : RxCounters := mkRx 0 0 0 0 0 0 0 0 0 0 0 tally_default 0 0 0.

Definition inc_datagrams (c : RxCounters) : RxCounters :=
  mkRx (datagrams c + 1) (opened c) (to_tun c) (decode_errs c) (exit_id_mismatches c) (session_errs c) (session_evicted c) (open_errs c) (replays c) (control_frames c) (dummies c) (spoof c) (pool_drops c) (rate_drops c) (tun_write_errs c).
Definition inc_opened (c : RxCounters) : RxCounters :=
  mkRx (datagrams c) (opened c + 1) (to_tun c) (decode_errs c) (exit_id_mismatches c) (session_errs c) (session_evicted c) (open_errs c) (replays c) (control_frames c) (dummies c) (spoof c) (pool_drops c) (rate_drops c) (tun_write_errs c).
Definition inc_to_tun (c : RxCounters) : RxCounters :=
  mkRx (datagrams c) (opened c) (to_tun c + 1) (decode_errs c) (exit_id_mismatches c) (session_errs c) (session_evicted c) (open_errs c) (replays c) (control_frames c) (dummies c) (spoof c) (pool_drops c) (rate_drops c) (tun_write_errs c).
Definition inc_decode_errs (c : RxCounters) : RxCounters :=
  mkRx (datagrams c) (opened c) (to_tun c) (decode_errs c + 1) (exit_id_mismatches c) (session_errs c) (session_evicted c) (open_errs c) (replays c) (control_frames c) (dummies c) (spoof c) (pool_drops c) (rate_drops c) (tun_write_errs c).
Definition inc_exit_id_mismatches (c : RxCounters) : RxCounters :=
  mkRx (datagrams c) (opened c) (to_tun c) (decode_errs c) (exit_id_mismatches c + 1) (session_errs c) (session_evicted c) (open_errs c) (replays c) (control_frames c) (dummies c) (spoof c) (pool_drops c) (rate_drops c) (tun_write_errs c).
Definition inc_session_errs (c : RxCounters) : RxCounters :=
  mkRx (datagrams c) (opened c) (to_tun c) (decode_errs c) (exit_id_mismatches c) (session_errs c + 1) (session_evicted c) (open_errs c) (replays c) (control_frames c) (dummies c) (spoof c) (pool_drops c) (rate_drops c) (tun_write_errs c).
Definition inc_session_evicted (c : RxCounters) : RxCounters :=
  mkRx (datagrams c) (opened c) (to_tun c) (decode_errs c) (exit_id_mismatches c) (session_errs c) (session_evicted c + 1) (open_errs c) (replays c) (control_frames c) (dummies c) (spoof c) (pool_drops c) (rate_drops c) (tun_write_errs c).
Definition inc_open_errs (c : RxCounters) : RxCounters :=
  mkRx (datagrams c) (opened c) (to_tun c) (decode_errs c) (exit_id_mismatches c) (session_errs c) (session_evicted c) (open_errs c + 1) (replays c) (control_frames c) (dummies c) (spoof c) (pool_drops c) (rate_drops c) (tun_write_errs c).
Definition inc_replays (c : RxCounters) : RxCounters :=
  mkRx (datagrams c) (opened c) (to_tun c) (decode_errs c) (exit_id_mismatches c) (session_errs c) (session_evicted c) (open_errs c) (replays c + 1) (control_frames c) (dummies c) (spoof c) (pool_drops c) (rate_drops c) (tun_write_errs c).
Definition inc_control_frames (c : RxCounters) : RxCounters :=
  mkRx (datagrams c) (opened c) (to_tun c) (decode_errs c) (exit_id_mismatches c) (session_errs c) (session_evicted c) (open_errs c) (replays c) (control_frames c + 1) (dummies c) (spoof c) (pool_drops c) (rate_drops c) (tun_write_errs c).
Definition inc_dummies (c : RxCounters) : RxCounters :=
  mkRx (datagrams c) (opened c) (to_tun c) (decode_errs c) (exit_id_mismatches c) (session_errs c) (session_evicted c) (open_errs c) (replays c) (control_frames c) (dummies c + 1) (spoof c) (pool_drops c) (rate_drops c) (tun_write_errs c).
Definition set_spoof (t : SpoofTally) (c : RxCounters) : RxCounters :=
  mkRx (datagrams c) (opened c) (to_tun c) (decode_errs c) (exit_id_mismatches c) (session_errs c) (session_evicted c) (open_errs c) (replays c) (control_frames c) (dummies c) t (pool_drops c) (rate_drops c) (tun_write_errs c).
Definition set_pool_drops (n : Z) (c : RxCounters) : RxCounters :=
  mkRx (datagrams c) (opened c) (to_tun c) (decode_errs c) (exit_id_mismatches c) (session_errs c) (session_evicted c) (open_errs c) (replays c) (control_frames c) (dummies c) (spoof c) n (rate_drops c) (tun_write_errs c).
Definition inc_rate_drops (c : RxCounters) : RxCounters :=
  mkRx (datagrams c) (opened c) (to_tun c) (decode_errs c) (exit_id_mismatches c) (session_errs c) (session_evicted c) (open_errs c) (replays c) (control_frames c) (dummies c) (spoof c) (pool_drops c) (rate_drops c + 1) (tun_write_errs c).
Definition inc_tun_write_errs (c : RxCounters) : RxCounters :=
  mkRx (datagrams c) (opened c) (to_tun c) (decode_errs c) (exit_id_mismatches c) (session_errs c) (session_evicted c) (open_errs c) (replays c) (control_frames c) (dummies c) (spoof c) (pool_drops c) (rate_drops c) (tun_write_errs c + 1).

(** The node-wide block. *)
Record UplinkMetrics := mkMetrics {
  received : Z;
  forwarded : Z;
  authenticated : Z;
  dropped_decode : Z;
  dropped_exit_id : Z;
  dropped_session : Z;
  dropped_session_evicted : Z;
  dropped_aead_open : Z;
  dropped_replay : Z;
  dropped_control_frame : Z;
  dropped_daita_dummy : Z;
  dropped_spoofed_source : Z;
  dropped_pool_destination : Z;
  dropped_rate_limit : Z;
  dropped_tun_write : Z;
  spoofed_by_class : list Z;
}.

Definition as_array (t : SpoofTally) : list Z :=
  [malformed t; v4_mismatch t; v6_link_local t; v6_unallocated t; v6_mismatch t].

(** The counters of the block. *)
Inductive Counter :=
| CReceived | CForwarded | CAuthenticated | CDecode | CExitId | CSession | CSessionEvicted | CAeadOpen
| CReplay | CControlFrame | CDaitaDummy | CSpoofedSource | CPoolDestination | CRateLimit | CTunWrite
| CSpoofClass (i : nat).

(** [AtomicU64::fetch_add] on one of them. *)
Definition fetch_add (c : Counter) (d : Z) (m : UplinkMetrics) : UplinkMetrics :=
  let '(mkMetrics a1 a2 a3 a4 a5 a6 a7 a8 a9 a10 a11 a12 a13 a14 a15 l) := m in
  match c with
  | CReceived => mkMetrics (a1 + d) a2 a3 a4 a5 a6 a7 a8 a9 a10 a11 a12 a13 a14 a15 l
  | CForwarded => mkMetrics a1 (a2 + d) a3 a4 a5 a6 a7 a8 a9 a10 a11 a12 a13 a14 a15 l
  | CAuthenticated => mkMetrics a1 a2 (a3 + d) a4 a5 a6 a7 a8 a9 a10 a11 a12 a13 a14 a15 l
  | CDecode => mkMetrics a1 a2 a3 (a4 + d) a5 a6 a7 a8 a9 a10 a11 a12 a13 a14 a15 l
  | CExitId => mkMetrics a1 a2 a3 a4 (a5 + d) a6 a7 a8 a9 a10 a11 a12 a13 a14 a15 l
  | CSession => mkMetrics a1 a2 a3 a4 a5 (a6 + d) a7 a8 a9 a10 a11 a12 a13 a14 a15 l
  | CSessionEvicted => mkMetrics a1 a2 a3 a4 a5 a6 (a7 + d) a8 a9 a10 a11 a12 a13 a14 a15 l
  | CAeadOpen => mkMetrics a1 a2 a3 a4 a5 a6 a7 (a8 + d) a9 a10 a11 a12 a13 a14 a15 l
  | CReplay => mkMetrics a1 a2 a3 a4 a5 a6 a7 a8 (a9 + d) a10 a11 a12 a13 a14 a15 l
  | CControlFrame => mkMetrics a1 a2 a3 a4 a5 a6 a7 a8 a9 (a10 + d) a11 a12 a13 a14 a15 l
  | CDaitaDummy => mkMetrics a1 a2 a3 a4 a5 a6 a7 a8 a9 a10 (a11 + d) a12 a13 a14 a15 l
  | CSpoofedSource => mkMetrics a1 a2 a3 a4 a5 a6 a7 a8 a9 a10 a11 (a12 + d) a13 a14 a15 l
  | CPoolDestination => mkMetrics a1 a2 a3 a4 a5 a6 a7 a8 a9 a10 a11 a12 (a13 + d) a14 a15 l
  | CRateLimit => mkMetrics a1 a2 a3 a4 a5 a6 a7 a8 a9 a10 a11 a12 a13 (a14 + d) a15 l
  | CTunWrite => mkMetrics a1 a2 a3 a4 a5 a6 a7 a8 a9 a10 a11 a12 a13 a14 (a15 + d) l
  | CSpoofClass i => mkMetrics a1 a2 a3 a4 a5 a6 a7 a8 a9 a10 a11 a12 a13 a14 a15 (alter (fun x => x + d) i l)
  end.

(** The additions of a fold, in the order of the code, which skips those of zero. *)
Definition fold_adds (now published : RxCounters) : list (Counter * Z) :=
  let delta new old := Z.max 0 (new - old) in
  [ (CReceived, delta (datagrams now) (datagrams published));
    (CForwarded, delta (to_tun now) (to_tun published));
    (CAuthenticated, delta (opened now) (opened published));
    (CDecode, delta (decode_errs now) (decode_errs published));
    (CExitId, delta (exit_id_mismatches now) (exit_id_mismatches published));
    (CSession, delta (session_errs now) (session_errs published));
    (CSessionEvicted, delta (session_evicted now) (session_evicted published));
    (CAeadOpen, delta (open_errs now) (open_errs published));
    (CReplay, delta (replays now) (replays published));
    (CControlFrame, delta (control_frames now) (control_frames published));
    (CDaitaDummy, delta (dummies now) (dummies published));
    (CSpoofedSource, delta (total (spoof now)) (total (spoof published))) ]
  ++ imap (fun i no => (CSpoofClass i, delta (fst no) (snd no))) (zip (as_array (spoof now)) (as_array (spoof published)))
  ++ [ (CPoolDestination, delta (pool_drops now) (pool_drops published));
       (CRateLimit, delta (rate_drops now) (rate_drops published));
       (CTunWrite, delta (tun_write_errs now) (tun_write_errs published)) ].

Definition apply_adds (adds : list (Counter * Z)) (m : UplinkMetrics) : UplinkMetrics :=
  fold_left (fun m cd => fetch_add (fst cd) (snd cd) m) adds m.

(** A fold that nothing interrupts. *)
Definition fold (m : UplinkMetrics) (now published : RxCounters) : UplinkMetrics := apply_adds (fold_adds now published) m.

Definition RX_REPORT_CHECK_EVERY : Z := 64.
Definition RX_REPORT_INTERVAL : Z := from_secs 5.

Module RxReport.

(** The counters of the report are those of [counters]. *)
Record t := mk {
  counters : RxCounters;
  published : RxCounters;
  last_report : Z;
}.

Definition new (now : Z) : t := mk rx_default rx_default now.

Definition upd (f : RxCounters -> RxCounters) (r : t) : t := mk (f (counters r)) (published r) (last_report r).

Definition publish (r : t) (sink : UplinkMetrics) : t * UplinkMetrics :=
  let now := counters r in
  (mk (counters r) now (last_report r), fold sink now (published r)).

Definition maybe_emit (r : t) (tally : SpoofTally) (now : Z) (sink : UplinkMetrics) : t * UplinkMetrics :=
  let r := upd (set_spoof tally) r in
  if negb (RateLimited.is_multiple_of (datagrams (counters r)) RX_REPORT_CHECK_EVERY)
     || (duration_since now (last_report r) <? RX_REPORT_INTERVAL)
  then (r, sink)
  else
    let '(r, sink) := publish r sink in
    (mk (counters r) (published r) now, sink).

Definition is_uplink_blackhole (r : t) : bool :=
  let c := counters r in
  (to_tun c =? 0) && ((dummies c + control_frames c <? opened c) || (0 <? session_evicted c)).

End RxReport.

(** ** One turn of the loop *)

(** What the front of the loop made of a datagram: an error of one of its gates,
    or an authenticated, first-seen plaintext.  [own] tells that a session missing
    from the post-quantum cache is the connection's own. *)
Inductive Front :=
| DecodeFailed | WrongExit | NoSession (own : bool) | OpenFailed | Replayed | Opened (plaintext : list Z).

Inductive Effect :=
| ToTun (packet : list Z)
| NoteUplink (packet : list Z)
| SubmitAnchor (plaintext : list Z) (sealed_anchor : SealedToApi) (token : option SessionToken)
| SubmitLeaseRefresh (plaintext : list Z) (token : option SessionToken).

Record Pump := mkPump {
  report : RxReport.t;
  flows : FlowNoter.t;
  tun_writer : TunWriter.t;
  spoof_gate : SpoofGate.t;
  pool_gate : PoolGate.t;
}.

Definition pump_new (assigned_ip : Z) (assigned_ip_v6 : option Z) (pool : TunnelPool) (now : Z) : Pump :=
  mkPump (RxReport.new now) FlowNoter.new TunWriter.new (SpoofGate.new assigned_ip assigned_ip_v6)
    (PoolGate.new pool).

Record Input := mkInput {
  front : Front;
  now_top : Z;
  now_tail : Z;
  admitted_by_rate : bool;
  max_datagram_size : option Z;
  tun_sends : bool;
}.

Definition set_report (r : RxReport.t) (p : Pump) : Pump :=
  mkPump r (flows p) (tun_writer p) (spoof_gate p) (pool_gate p).
Definition set_flows (f : FlowNoter.t) (p : Pump) : Pump :=
  mkPump (report p) f (tun_writer p) (spoof_gate p) (pool_gate p).
Definition set_tun_writer (w : TunWriter.t) (p : Pump) : Pump :=
  mkPump (report p) (flows p) w (spoof_gate p) (pool_gate p).
Definition set_spoof_gate (g : SpoofGate.t) (p : Pump) : Pump :=
  mkPump (report p) (flows p) (tun_writer p) g (pool_gate p).
Definition set_pool_gate (g : PoolGate.t) (p : Pump) : Pump :=
  mkPump (report p) (flows p) (tun_writer p) (spoof_gate p) g.

Definition count (f : RxCounters -> RxCounters) (p : Pump) : Pump :=
  set_report (RxReport.upd f (report p)) p.

Definition emit (p : Pump) (now : Z) (sink : UplinkMetrics) : Pump * UplinkMetrics :=
  let '(r, sink) := RxReport.maybe_emit (report p) (SpoofGate.tally (spoof_gate p)) now sink in
  (set_report r p, sink).

Definition MULTIHOP_FRAME_MAX_OVERHEAD : Z := 83.

Section Pump.
Context `{P : ControlPostcard}.

(** The overhead of the frame format the connection speaks. *)
Variable frame_overhead : Z.

(** The part of the loop behind the gates, for a packet they admitted. *)
Definition forward (p : Pump) (sink : UplinkMetrics) (i : Input) (plaintext : list Z)
  : option (Pump * UplinkMetrics * list Effect * bool) :=
  noted ← FlowNoter.is_first_of_flow (flows p) plaintext;
  let '(f, first) := noted in
  let p := set_flows f p in
  let notes := if first : bool then [NoteUplink plaintext] else [] in
  packet ← clamp_uplink plaintext (max_datagram_size i) frame_overhead;
  let '(w, result) := TunWriter.write (tun_writer p) (tun_sends i) in
  let p := set_tun_writer w p in
  let sent := if tun_sends i then [ToTun packet] else [] in
  match result with
  | Wrote =>
      let '(p, sink) := emit (count inc_to_tun p) (now_tail i) sink in
      Some (p, sink, notes ++ sent, true)
  | Dropped =>
      let '(p, sink) := emit (count inc_tun_write_errs p) (now_tail i) sink in
      Some (p, sink, notes ++ sent, true)
  | Fatal => Some (count inc_tun_write_errs p, sink, notes ++ sent, false)
  end.

(** The gates, in the order of the code. *)
Definition gates (p : Pump) (sink : UplinkMetrics) (i : Input) (plaintext : list Z)
  : option (Pump * UplinkMetrics * list Effect * bool) :=
  verdict ← SpoofGate.admits (spoof_gate p) plaintext;
  let '(g, ok) := verdict in
  let p := set_spoof_gate g p in
  if negb ok then
    let '(p, sink) := emit p (now_tail i) sink in Some (p, sink, [], true)
  else
    verdict ← PoolGate.admits (pool_gate p) plaintext;
    let '(g, ok) := verdict in
    let p := set_pool_gate g p in
    if negb ok then
      let '(p, sink) := emit (count (set_pool_drops (PoolGate.drops g)) p) (now_tail i) sink in
      Some (p, sink, [], true)
    else if negb (admitted_by_rate i) then
      let '(p, sink) := emit (count inc_rate_drops p) (now_tail i) sink in Some (p, sink, [], true)
    else forward p sink i plaintext.

(** One datagram: the pump and the node's block afterwards, what the turn did, and
    whether the loop goes on. *)
Definition handle (p : Pump) (sink : UplinkMetrics) (i : Input)
  : option (Pump * UplinkMetrics * list Effect * bool) :=
  let '(p, sink) := emit p (now_top i) sink in
  let p := count inc_datagrams p in
  match front i with
  | DecodeFailed => Some (count inc_decode_errs p, sink, [], true)
  | WrongExit => Some (count inc_exit_id_mismatches p, sink, [], true)
  | NoSession own =>
      let p := count inc_session_errs p in
      Some (if own : bool then count inc_session_evicted p else p, sink, [], true)
  | OpenFailed => Some (count inc_open_errs p, sink, [], true)
  | Replayed => Some (count inc_replays p, sink, [], true)
  | Opened plaintext =>
      let p := count inc_opened p in
      match classify_uplink plaintext with
      | ControlFrame => Some (count inc_control_frames p, sink, [], true)
      | AnchorRequest sealed token =>
          Some (count inc_control_frames p, sink, [SubmitAnchor plaintext sealed token], true)
      | LeaseRefreshFrame token =>
          Some (count inc_control_frames p, sink, [SubmitLeaseRefresh plaintext token], true)
      | DaitaDummy => Some (count inc_dummies p, sink, [], true)
      | Packet => gates p sink i plaintext
      end
  end.

End Pump.

(** The end of the pump: [Drop for RxReport] publishes what is left. *)
Definition pump_drop (p : Pump) (sink : UplinkMetrics) : UplinkMetrics :=
  snd (RxReport.publish (report p) sink).
