(* ===== verification/Bond.v ===== *)
(** The bonded sessions of a client ([crates/warrenguard-transport/src/bundle.rs]): which of the
    bond's legs may carry user traffic, which leg a packet goes to, and how the plan follows the legs' budgets,
    the prober's verdicts and the legs that join late.

    A leg is its index.  What the code asks a leg's QUIC connection, the inner budget, is an argument.  A refresh of the plan
    samples the budgets, reads the verdicts and writes the plan in three critical sections, so that the histories of a bond
    also have the refresh that sampled at one state, read at a later one and writes only now.  [None] is a panic. *)

From S2P Require Import Prelude InnerMtu FlowKeys UplinkPump.
#[local] Open Scope nat_scope.

Definition MAX_BONDED_CONNECTIONS : nat := 8.
Definition ROUTING_PLAN_REFRESH_PACKETS : Z := 256.
Definition TUNNEL_MIN_MTU : Z := 1200.

(** ** The plan *)

Record RoutingPlan := mkPlan { budgets : list Z; usable : list nat; published : Z }.

Definition max_of (l : list Z) : option Z := match l with [] => None | x :: l => Some (fold_left Z.max l x) end.
Definition min_of (l : list Z) : option Z := match l with [] => None | x :: l => Some (fold_left Z.min l x) end.

(** [iter().enumerate().filter(p).map(index)]. *)
Definition legs_where (p : Z -> bool) (bs : list Z) : list nat :=
  filter (fun i => from_option p false (bs !! i) = true) (seq 0 (length bs)).

Definition fallback_budget : Z := (TUNNEL_MIN_MTU - MULTIHOP_FRAME_MAX_OVERHEAD)%Z.

Definition keeps (best b : Z) : bool := negb ((b <? best) && (b <? QUIC_SAFE_INNER_MTU))%Z.

Definition from_budgets (bs : list Z) (unresponsive : list nat) : RoutingPlan :=
  match max_of bs with
  | None => mkPlan bs [] fallback_budget
  | Some best =>
      let kept := legs_where (keeps best) bs in
      let published := default fallback_budget (min_of (omap (fun i => bs !! i) kept)) in
      let answering := filter (fun leg => leg ∉ unresponsive) kept in
      mkPlan bs (if bool_decide (answering = []) then kept else answering) published
  end.

(** [max_by_key] keeps the last of the widest. *)
Definition widest (plan : RoutingPlan) : option nat :=
  fold_left (fun acc leg =>
    match acc with
    | None => Some leg
    | Some best => if (default 0 (budgets plan !! best) <=? default 0 (budgets plan !! leg))%Z then Some leg else acc
    end) (usable plan) None.

Definition fits (plan : RoutingPlan) (pkt_len : Z) (leg : nat) : bool :=
  match budgets plan !! leg with Some b => (pkt_len <=? b)%Z | None => false end.

Definition route (hash : option Z) (rr pkt_len : Z) (plan : RoutingPlan) : option nat :=
  let n := length (usable plan) in
  if n =? 0 then Some 0
  else
    let start := Z.to_nat (match hash with Some h => h mod Z.of_nat n | None => rr mod Z.of_nat n end)%Z in
    pinned ← usable plan !! start;
    budget ← budgets plan !! pinned;
    if (pkt_len <=? budget)%Z then Some pinned
    else
      others ← mapM (fun step => usable plan !! ((start + step) mod n)) (seq 1 (n - 1));
      match List.find (fits plan pkt_len) others with
      | Some leg => Some leg
      | None => Some (default pinned (widest plan))
      end.

(** ** The bundle *)

Record MultiHopBundle := mkBundle {
  exits : list Z;
  sealed : bool;
  rr : Z;
  routing : RoutingPlan;
  routing_tick : Z;
  unresponsive : list nat;
}.

Definition set_routing (p : RoutingPlan) (b : MultiHopBundle) : MultiHopBundle :=
  mkBundle (exits b) (sealed b) (rr b) p (routing_tick b) (unresponsive b).

(** The budgets of the legs, as each is asked. *)
Definition sample (budget : nat -> Z) (n : nat) : list Z := budget <$> seq 0 n.

Definition new_unsealed (clients : list Z) (budget : nat -> Z) : option MultiHopBundle :=
  match clients with
  | [] => None
  | exit :: _ =>
      if forallb (Z.eqb exit) clients then
        let clients := firstn MAX_BONDED_CONNECTIONS clients in
        Some (mkBundle clients false 0 (from_budgets (sample budget (length clients)) []) 0 [])
      else None
  end.

Definition attach_decision (sealed : bool) (current_len : nat) : bool := negb sealed && (current_len <? MAX_BONDED_CONNECTIONS).

Definition seal (b : MultiHopBundle) : MultiHopBundle := mkBundle (exits b) true (rr b) (routing b) (routing_tick b) (unresponsive b).

Definition new (clients : list Z) (budget : nat -> Z) : option MultiHopBundle := seal <$> new_unsealed clients budget.

Definition add_client (client : Z) (budget : nat -> Z) (b : MultiHopBundle) : option (MultiHopBundle * bool) :=
  if negb (attach_decision (sealed b) (length (exits b))) then Some (b, false)
  else
    first ← exits b !! 0;
    if negb (client =? first)%Z then Some (b, false)
    else
      let clients := exits b ++ [client] in
      Some (mkBundle clients (sealed b) (rr b) (from_budgets (sample budget (length clients)) (unresponsive b)) (routing_tick b) (unresponsive b), true).

Definition refresh_routing_plan (budget : nat -> Z) (b : MultiHopBundle) : MultiHopBundle :=
  set_routing (from_budgets (sample budget (length (exits b))) (unresponsive b)) b.

Definition set_unresponsive_legs (legs : list nat) (budget : nat -> Z) (b : MultiHopBundle) : MultiHopBundle :=
  if bool_decide (unresponsive b = legs) then b
  else refresh_routing_plan budget (mkBundle (exits b) (sealed b) (rr b) (routing b) (routing_tick b) legs).

(** The leg that carries [pkt]. *)
Definition pick (pkt : list Z) (budget : nat -> Z) (b : MultiHopBundle) : option (MultiHopBundle * nat) :=
  let tick := routing_tick b in
  let b := mkBundle (exits b) (sealed b) (rr b) (routing b) (wrap 64 (tick + 1)) (unresponsive b) in
  let b := if (tick mod ROUTING_PLAN_REFRESH_PACKETS =? 0)%Z then refresh_routing_plan budget b else b in
  hash ← flow_hash_5tuple pkt;
  let '(cursor, b) :=
    match hash with
    | None => (rr b, mkBundle (exits b) (sealed b) (wrap 64 (rr b + 1)) (routing b) (routing_tick b) (unresponsive b))
    | Some _ => (0%Z, b)
    end in
  idx ← route hash cursor (Z.of_nat (length pkt)) (routing b);
  (* [clients.get(idx)], else the last one *)
  match exits b !! idx with
  | Some _ => Some (b, idx)
  | None => _ ← exits b !! (length (exits b) - 1); Some (b, length (exits b) - 1)
  end.

Definition max_inner_payload (b : MultiHopBundle) : Z := published (routing b).

(** ** The plan's laws *)

Lemma max_of_spec l best : max_of l = Some best -> best ∈ l /\ forall x, x ∈ l -> (x <= best)%Z.
Proof.
  destruct l as [|x l]; [done|]. cbn. intros [= <-]. revert x. induction l as [|y l IH]; intros x; cbn.
  - split; [by left|]. intros z ->%list_elem_of_singleton. done.
  - destruct (IH (Z.max x y)) as [Hin Hle]. split.
    + apply elem_of_cons in Hin as [->|Hin]; [|by do 2 right]. destruct (Z.max_spec x y) as [[_ ->]|[_ ->]]; [by right; left|by left].
    + assert (Z.max x y <= fold_left Z.max l (Z.max x y))%Z by (apply Hle; by left).
      intros z. rewrite !elem_of_cons. intros [->|[->|Hz]]; [lia|lia|apply Hle; by right].
Qed.

Lemma min_of_spec l least : min_of l = Some least -> least ∈ l /\ forall x, x ∈ l -> (least <= x)%Z.
Proof.
  destruct l as [|x l]; [done|]. cbn. intros [= <-]. revert x. induction l as [|y l IH]; intros x; cbn.
  - split; [by left|]. intros z ->%list_elem_of_singleton. done.
  - destruct (IH (Z.min x y)) as [Hin Hle]. split.
    + apply elem_of_cons in Hin as [->|Hin]; [|by do 2 right]. destruct (Z.min_spec x y) as [[_ ->]|[_ ->]]; [by left|by right; left].
    + assert (fold_left Z.min l (Z.min x y) <= Z.min x y)%Z by (apply Hle; by left).
      intros z. rewrite !elem_of_cons. intros [->|[->|Hz]]; [lia|lia|apply Hle; by right].
Qed.

Lemma legs_where_elem p bs i : i ∈ legs_where p bs <-> exists b, bs !! i = Some b /\ p b = true.
Proof.
  unfold legs_where. rewrite list_elem_of_filter, elem_of_seq. destruct (bs !! i) as [b|] eqn:E; cbn.
  - apply lookup_lt_Some in E. split; [intros [? _]; by exists b|]. intros (b' & [= <-] & ?). split; [done|lia].
  - split; [by intros [? _]|by intros (b & ? & _)].
Qed.

(** A leg the MTU rules keep: it is the widest, or carries an inner QUIC handshake. *)
Definition kept (bs : list Z) (leg : nat) : Prop :=
  exists b, bs !! leg = Some b /\ ((forall leg' b', bs !! leg' = Some b' -> (b' <= b)%Z) \/ (QUIC_SAFE_INNER_MTU <= b)%Z).

Lemma keeps_spec best b : keeps best b = true <-> (best <= b)%Z \/ (QUIC_SAFE_INNER_MTU <= b)%Z.
Proof. unfold keeps. rewrite negb_true_iff, andb_false_iff, !Z.ltb_ge. done. Qed.

Record planned (bs : list Z) (un : list nat) (p : RoutingPlan) : Prop := mkPlanned {
  pl_budgets : budgets p = bs;
  pl_some : usable p <> [];
  pl_usable leg : leg ∈ usable p <-> kept bs leg /\ (leg ∉ un \/ forall leg', kept bs leg' -> leg' ∈ un);
  pl_published : (exists leg, kept bs leg /\ bs !! leg = Some (published p)) /\
    forall leg b, kept bs leg -> bs !! leg = Some b -> (published p <= b)%Z;
}.

Lemma from_budgets_spec bs un : bs <> [] -> planned bs un (from_budgets bs un).
Proof.
  intros Hne. unfold from_budgets. destruct (max_of bs) as [best|] eqn:Em; [|by destruct bs]. apply max_of_spec in Em as [Hin Hle].
  assert (Hk : forall leg, leg ∈ legs_where (keeps best) bs <-> kept bs leg).
  { intros leg. rewrite legs_where_elem. unfold kept. apply list_elem_of_lookup in Hin as [i Hi]. split; intros (b & Hb & H); exists b; (split; [done|]).
    - apply keeps_spec in H as [H|H]; [left|by right]. intros leg' b' Hb'. specialize (Hle b' (list_elem_of_lookup_2 _ _ _ Hb')). lia.
    - apply keeps_spec. destruct H as [H|H]; [left|by right]. by apply (H i). }
  assert (Hbest : exists leg, kept bs leg).
  { apply list_elem_of_lookup in Hin as [i Hi]. exists i, best. split; [done|]. left. intros leg' b' Hb'. apply Hle. by eapply list_elem_of_lookup_2. }
  assert (Hans : forall leg, leg ∈ filter (fun leg => leg ∉ un) (legs_where (keeps best) bs) <-> kept bs leg /\ leg ∉ un).
  { intros leg. rewrite list_elem_of_filter, Hk. tauto. }
  set (ans := filter _ _) in *. set (ks := legs_where _ _) in *. split; cbn [budgets usable published]; [done|..].
  - destruct (bool_decide_reflect (ans = [])); [|done]. intros Hks. destruct Hbest as [leg Hl%Hk]. rewrite Hks in Hl. by apply elem_of_nil in Hl.
  - intros leg. destruct (bool_decide_reflect (ans = [])) as [Ha|Ha].
    + rewrite Hk. assert (Hall : forall leg', kept bs leg' -> leg' ∈ un); [|tauto]. intros leg' Hk'. apply dec_stable. intros Hn.
      assert (H : leg' ∈ ans) by (by apply Hans). rewrite Ha in H. by apply elem_of_nil in H.
    + rewrite Hans. split; [tauto|]. intros [Hl [Hn|Hall]]; [done|]. destruct ans as [|a ans']; [done|].
      destruct (proj1 (Hans a) ltac:(left)) as [Hka Hna]. by destruct (Hna (Hall a Hka)).
  - destruct (min_of _) as [m|] eqn:Emin; cbn.
    + apply min_of_spec in Emin as [Hm Hmin]. setoid_rewrite list_elem_of_omap in Hmin. apply list_elem_of_omap in Hm as (leg & Hl%Hk & Hb). split; [by exists leg|].
      intros leg' b' Hk' Hb'. apply Hmin. exists leg'. by rewrite Hk.
    + exfalso. destruct Hbest as [leg Hl]. pose proof Hl as (b & Hb & _). apply Hk in Hl.
      assert (b ∈ omap (fun i => bs !! i) ks) by (apply list_elem_of_omap; eauto). destruct (omap _ _); [by apply elem_of_nil in H|done].
Qed.

(** ** Routing *)

Definition pinned_leg (hash : option Z) (rr : Z) (p : RoutingPlan) : nat :=
  Z.to_nat (match hash with Some h => h mod Z.of_nat (length (usable p)) | None => rr mod Z.of_nat (length (usable p)) end)%Z.

(** Stepping from any start visits every leg but the start. *)
Lemma others_cover (l : list nat) start others : start < length l ->
  mapM (fun step => l !! ((start + step) mod length l)) (seq 1 (length l - 1)) = Some others ->
  (forall x, x ∈ others -> x ∈ l) /\ forall i x, l !! i = Some x -> i <> start -> x ∈ others.
Proof.
  intros Hs Hm. apply mapM_Some in Hm. split.
  - intros x [k Hk]%list_elem_of_lookup. destruct (Forall2_lookup_r _ _ _ _ _ Hm Hk) as (step & _ & Hx). by eapply list_elem_of_lookup_2.
  - intros i x Hi Hne. apply lookup_lt_Some in Hi as Hlt. set (n := length l) in *.
    assert (Hstep : exists k, k < n - 1 /\ (start + (1 + k)) mod n = i).
    { destruct (decide (start < i)); [exists (i - start - 1)|exists (i + n - start - 1)]; (split; [lia|]).
      - replace (start + (1 + (i - start - 1))) with i by lia. by apply Nat.mod_small.
      - replace (start + (1 + (i + n - start - 1))) with (i + 1 * n) by lia. rewrite Nat.Div0.mod_add. by apply Nat.mod_small. }
    destruct Hstep as (k & Hk & Hik). destruct (Forall2_lookup_l _ _ _ k (1 + k) Hm) as (y & Hy & Hxy); [by apply lookup_seq|].
    rewrite Hik, Hi in Hxy. injection Hxy as ->. by eapply list_elem_of_lookup_2.
Qed.

Lemma others_exist (l : list nat) start : l <> [] -> is_Some (mapM (fun step => l !! ((start + step) mod length l)) (seq 1 (length l - 1))).
Proof.
  intros Hl. apply mapM_is_Some. apply Forall_forall. intros step _. apply lookup_lt_is_Some. apply Nat.mod_upper_bound. by destruct l.
Qed.

Lemma widest_usable p : usable p <> [] -> exists leg, widest p = Some leg /\ leg ∈ usable p.
Proof.
  intros Hne. unfold widest. set (f := fun acc leg => _).
  assert (Hgen : forall l best, exists leg, fold_left f l (Some best) = Some leg /\ (leg = best \/ leg ∈ l)).
  { induction l as [|x l IH]; intros best; [exists best; by split; [|left]|]. cbn [fold_left].
    assert (f (Some best) x = Some x \/ f (Some best) x = Some best) as [-> | ->] by (unfold f; case_match; auto).
    - destruct (IH x) as (leg & Hleg & [->|Hin]); [exists x|exists leg]; (split; [exact Hleg|]); right; [by left|by right].
    - destruct (IH best) as (leg & Hleg & [->|Hin]); [exists best|exists leg]; (split; [exact Hleg|]); [by left|right; by right]. }
  destruct (usable p) as [|x l]; [done|]. cbn [fold_left]. destruct (Hgen l x) as (leg & Hleg & H). exists leg. split; [exact Hleg|].
  apply elem_of_cons. tauto.
Qed.

(** A packet goes to its flow's leg when that carries it, to a leg that carries it when there is one, and always to a usable leg. *)
Lemma route_spec bs un p hash cursor len : planned bs un p ->
  exists leg, route hash cursor len p = Some leg /\ leg ∈ usable p /\
    (forall pin, usable p !! pinned_leg hash cursor p = Some pin -> fits p len pin = true -> leg = pin) /\
    ((exists leg', leg' ∈ usable p /\ fits p len leg' = true) -> fits p len leg = true).
Proof.
  intros [Hb Hne Hu _]. unfold route, pinned_leg. set (n := length (usable p)) in *. assert (Hn : 0 < n) by (destruct (usable p); [done|cbn in n; lia]).
  rewrite (proj2 (Nat.eqb_neq n 0)) by lia. cbn zeta. set (start := Z.to_nat _).
  assert (Hstart : start < n) by (unfold start; destruct hash as [h|]; [pose proof (Z.mod_pos_bound h (Z.of_nat n))|pose proof (Z.mod_pos_bound cursor (Z.of_nat n))]; lia).
  destruct (lookup_lt_is_Some_2 _ _ Hstart) as [pin Hpin]. rewrite Hpin. cbn [mbind option_bind].
  pose proof (list_elem_of_lookup_2 _ _ _ Hpin) as Hin. pose proof Hin as [(b & Hbp & _) _]%Hu. rewrite <- Hb in Hbp. rewrite Hbp. cbn [mbind option_bind].
  assert (Hfit : fits p len pin = (len <=? b)%Z) by (unfold fits; by rewrite Hbp).
  destruct (len <=? b)%Z eqn:Eb.
  { exists pin. split; [done|]. split; [done|]. split; [by intros pin' [= <-]|]. by rewrite Hfit. }
  destruct (others_exist (usable p) start Hne) as [others Ho]. fold n in Ho. rewrite Ho. cbn [mbind option_bind].
  destruct (others_cover (usable p) start others Hstart Ho) as [Hsub Hcov].
  destruct (List.find (fits p len) others) as [leg|] eqn:Ef.
  - apply List.find_some in Ef as [Hl Hf]. apply list_elem_of_In, Hsub in Hl. exists leg. split; [done|]. split; [done|].
    split; [intros pin' [= <-]; by rewrite Hfit|done].
  - destruct (widest_usable p Hne) as (leg & -> & Hl). exists leg. split; [done|]. split; [done|]. split; [intros pin' [= <-]; by rewrite Hfit|].
    intros (leg' & Hl' & Hf'). exfalso. apply list_elem_of_lookup in Hl' as [i Hi]. destruct (decide (i = start)) as [->|Hne'].
    + rewrite Hpin in Hi. injection Hi as ->. congruence.
    + pose proof (List.find_none _ _ Ef leg' (proj1 (list_elem_of_In _ _) (Hcov i leg' Hi Hne'))). congruence.
Qed.

(** ** Every bond *)

Definition set_exits (clients : list Z) (b : MultiHopBundle) : MultiHopBundle :=
  mkBundle clients (sealed b) (rr b) (routing b) (routing_tick b) (unresponsive b).
Definition set_unresponsive (legs : list nat) (b : MultiHopBundle) : MultiHopBundle :=
  mkBundle (exits b) (sealed b) (rr b) (routing b) (routing_tick b) legs.
Definition set_counters (cursor tick : Z) (b : MultiHopBundle) : MultiHopBundle :=
  mkBundle (exits b) (sealed b) cursor (routing b) tick (unresponsive b).

(** A bond and the states it has been in, oldest first, the present one last: the operations when nobody interferes, and their critical
    sections among those of other threads. *)
Inductive bond : list MultiHopBundle -> MultiHopBundle -> Prop :=
| bond_new clients budget b : new_unsealed clients budget = Some b -> bond [b] b
| bond_add hist b client budget b' r : bond hist b -> add_client client budget b = Some (b', r) -> bond (hist ++ [b']) b'
| bond_seal hist b : bond hist b -> bond (hist ++ [seal b]) (seal b)
| bond_verdict hist b legs budget b' : bond hist b -> b' = set_unresponsive_legs legs budget b -> bond (hist ++ [b']) b'
| bond_pick hist b pkt budget b' leg : bond hist b -> pick pkt budget b = Some (b', leg) -> bond (hist ++ [b']) b'
(** A leg has joined, or a verdict has been set, and the plan is not written yet; a packet has moved the counters. *)
| bond_joined hist b client budget b1 b' : bond hist b -> add_client client budget b = Some (b1, true) -> b' = set_exits (exits b1) b -> bond (hist ++ [b']) b'
| bond_named hist b legs b' : bond hist b -> b' = set_unresponsive legs b -> bond (hist ++ [b']) b'
| bond_counted hist b cursor tick b' : bond hist b -> b' = set_counters cursor tick b -> bond (hist ++ [b']) b'
(** A refresh that sampled the legs of one state and read the verdicts of the same or a later one writes its plan. *)
| bond_late hist b i j b1 b2 budget b' : bond hist b -> hist !! i = Some b1 -> hist !! j = Some b2 -> i <= j ->
    b' = set_routing (from_budgets (sample budget (length (exits b1))) (unresponsive b2)) b -> bond (hist ++ [b']) b'.

(** The plan [p] was computed from a sample of the legs of one state of the history and the verdicts of the same or a later one. *)
Definition read_from (hist : list MultiHopBundle) (p : RoutingPlan) (bs : list Z) (un : list nat) : Prop :=
  exists i j b1 b2 budget, hist !! i = Some b1 /\ hist !! j = Some b2 /\ i <= j /\
    bs = sample budget (length (exits b1)) /\ un = unresponsive b2 /\ p = from_budgets bs un.

Record bonded (hist : list MultiHopBundle) (b : MultiHopBundle) : Prop := mkBonded {
  bd_legs : 0 < length (exits b) <= MAX_BONDED_CONNECTIONS;
  bd_exit : exists exit, Forall (eq exit) (exits b);
  bd_hist : Forall (fun b1 => 0 < length (exits b1) <= length (exits b)) hist;
  bd_plan : exists bs un, read_from hist (routing b) bs un;
}.

Lemma length_sample budget n : length (sample budget n) = n.
Proof. unfold sample. by rewrite length_fmap, length_seq. Qed.

Lemma planned_of bs un : 0 < length bs -> planned bs un (from_budgets bs un).
Proof. intros Hl. apply from_budgets_spec. by destruct bs; [cbn in Hl; lia|]. Qed.

Lemma read_from_app hist h p bs un : read_from hist p bs un -> read_from (hist ++ h) p bs un.
Proof. intros (i & j & b1 & b2 & budget & Hi & Hj & H). exists i, j, b1, b2, budget. split; [by apply lookup_app_l_Some|]. by split; [apply lookup_app_l_Some|]. Qed.

(** A plan of the present state. *)
Lemma read_from_now hist b budget : read_from (hist ++ [b]) (from_budgets (sample budget (length (exits b))) (unresponsive b)) (sample budget (length (exits b))) (unresponsive b).
Proof. exists (length hist), (length hist), b, b, budget. by rewrite list_lookup_middle. Qed.

(** A step that keeps the legs, and the plan or computes it anew. *)
Lemma bonded_step hist b b' : bonded hist b -> 0 < length (exits b') <= MAX_BONDED_CONNECTIONS -> (exists exit, Forall (eq exit) (exits b')) ->
  length (exits b) <= length (exits b') -> (exists bs un, read_from (hist ++ [b']) (routing b') bs un) -> bonded (hist ++ [b']) b'.
Proof.
  intros [_ _ Hh _] Hl He Hle Hp. split; [done|done| |done]. apply Forall_app. split; [|by constructor; [lia|]].
  eapply Forall_impl; [exact Hh|]. cbn. lia.
Qed.

Lemma bonded_same hist b b' : bonded hist b -> exits b' = exits b -> routing b' = routing b -> bonded (hist ++ [b']) b'.
Proof.
  intros Hb He Hr. apply (bonded_step hist b b' Hb); rewrite ?He, ?Hr; [apply Hb|apply Hb|done|].
  destruct (bd_plan _ _ Hb) as (bs & un & Hp). exists bs, un. by apply read_from_app.
Qed.

Lemma bonded_refreshed hist b b' budget : bonded hist b -> exits b' = exits b -> routing b' = from_budgets (sample budget (length (exits b'))) (unresponsive b') -> bonded (hist ++ [b']) b'.
Proof.
  intros Hb He Hr. apply (bonded_step hist b b' Hb); rewrite ?He; [apply Hb|apply Hb|done|]. rewrite Hr. do 2 eexists. apply read_from_now.
Qed.

Lemma new_bonded clients budget b : new_unsealed clients budget = Some b -> bonded [b] b.
Proof.
  unfold new_unsealed. destruct clients as [|exit clients]; [done|]. destruct (forallb _ _) eqn:Ef; [|done].
  set (cl := firstn _ _). intros [= <-]. assert (Hl : 0 < length cl <= MAX_BONDED_CONNECTIONS) by (unfold cl, MAX_BONDED_CONNECTIONS; rewrite length_firstn; cbn [length]; lia).
  split; [done|..].
  - exists exit. apply Forall_forall. intros x Hx. rewrite forallb_forall in Ef. apply Z.eqb_eq, Ef. apply list_elem_of_In.
    unfold cl in Hx. apply elem_of_take in Hx as (i & Hx & _). by eapply list_elem_of_lookup_2.
  - constructor; [|done]. cbn [exits]. lia.
  - do 2 eexists. apply (read_from_now [] (mkBundle cl false 0 _ 0 [])).
Qed.

Lemma add_client_spec client budget b b' r : add_client client budget b = Some (b', r) ->
  if r then exits b' = exits b ++ [client] /\ length (exits b) < MAX_BONDED_CONNECTIONS /\ exits b !! 0 = Some client /\
    unresponsive b' = unresponsive b /\ routing b' = from_budgets (sample budget (length (exits b'))) (unresponsive b)
  else b' = b.
Proof.
  unfold add_client. destruct (attach_decision _ _) eqn:Ea; cbn [negb]; [|by intros [= <- <-]].
  destruct (exits b !! 0) as [first|] eqn:E0; [|done]. cbn [mbind option_bind]. destruct (Z.eqb_spec client first) as [->|]; cbn [negb]; [|by intros [= <- <-]].
  intros [= <- <-]. apply andb_true_iff in Ea as [_ Hlt%Nat.ltb_lt]. done.
Qed.

(** The legs after one joined. *)
Lemma joined_legs hist b clients client : bonded hist b -> length (exits b) < MAX_BONDED_CONNECTIONS -> exits b !! 0 = Some client -> clients = exits b ++ [client] ->
  0 < length clients <= MAX_BONDED_CONNECTIONS /\ (exists exit, Forall (eq exit) clients) /\ length (exits b) <= length clients.
Proof.
  intros [Hl [exit He] _ _] Hlt H0 ->. rewrite length_app. cbn. split; [lia|]. split; [|lia]. exists exit. apply Forall_app. split; [done|].
  constructor; [|done]. by apply (Forall_lookup_1 _ _ _ _ He H0).
Qed.

Lemma add_bonded hist client budget b b' r : bonded hist b -> add_client client budget b = Some (b', r) -> bonded (hist ++ [b']) b'.
Proof.
  intros Hb Ha%add_client_spec. destruct r; [|subst; by eapply bonded_same]. destruct Ha as (He & Hlt & H0 & Hu & Hr).
  destruct (joined_legs _ _ _ _ Hb Hlt H0 He) as (H1 & H2 & H3). apply (bonded_step hist b); try done. rewrite Hr, <- Hu. do 2 eexists. apply read_from_now.
Qed.

Lemma joined_bonded hist client budget b b1 b' : bonded hist b -> add_client client budget b = Some (b1, true) -> b' = set_exits (exits b1) b -> bonded (hist ++ [b']) b'.
Proof.
  intros Hb (He & Hlt & H0 & _)%add_client_spec ->. destruct (joined_legs _ _ _ _ Hb Hlt H0 He) as (H1 & H2 & H3). apply (bonded_step hist b); try done.
  destruct (bd_plan _ _ Hb) as (bs & un & Hp). exists bs, un. by apply read_from_app.
Qed.

Lemma verdict_spec legs budget b : let b' := set_unresponsive_legs legs budget b in exits b' = exits b /\ unresponsive b' = legs /\
  routing b' = if bool_decide (unresponsive b = legs) then routing b else from_budgets (sample budget (length (exits b))) legs.
Proof. unfold set_unresponsive_legs. case_bool_decide; done. Qed.

Lemma read_from_planned hist b bs un : bonded hist b -> read_from hist (routing b) bs un -> planned bs un (routing b) /\ length bs <= length (exits b).
Proof.
  intros Hb (i & j & b1 & b2 & budget & Hi & _ & _ & -> & _ & ->). pose proof (Forall_lookup_1 _ _ _ _ (bd_hist _ _ Hb) Hi) as Hl. cbn in Hl.
  rewrite length_sample. split; [|lia]. apply planned_of. rewrite length_sample. lia.
Qed.

Lemma pick_keeps pkt budget b b' leg : pick pkt budget b = Some (b', leg) -> exits b' = exits b /\ unresponsive b' = unresponsive b.
Proof.
  unfold pick. cbn zeta. destruct (_ =? 0)%Z; destruct (flow_hash_5tuple pkt) as [[h|]|]; cbn [mbind option_bind]; try done;
    (destruct (route _ _ _ _) as [idx|]; [|done]); cbn [mbind option_bind]; case_match; cbn [mbind option_bind];
    try (match goal with |- context [exits ?b !! ?n ≫= _] => destruct (exits b !! n); [|done] end); by intros [= <- <-].
Qed.

(** The state [pick] leaves, the plan it uses and the leg it gives. *)
Lemma pick_spec hist pkt budget b : bonded hist b ->
  exists b' leg hash cursor, pick pkt budget b = Some (b', leg) /\ bonded (hist ++ [b']) b' /\ flow_hash_5tuple pkt = Some hash /\
    route hash cursor (Z.of_nat (length pkt)) (routing b') = Some leg /\
    routing b' = if (routing_tick b mod ROUTING_PLAN_REFRESH_PACKETS =? 0)%Z then from_budgets (sample budget (length (exits b))) (unresponsive b) else routing b.
Proof.
  intros Hb. unfold pick. cbn zeta. set (b1 := mkBundle (exits b) _ _ _ _ _). set (b2 := if (_ =? 0)%Z then refresh_routing_plan budget b1 else b1).
  assert (H2 : exits b2 = exits b /\ unresponsive b2 = unresponsive b /\
    routing b2 = if (routing_tick b mod ROUTING_PLAN_REFRESH_PACKETS =? 0)%Z then from_budgets (sample budget (length (exits b))) (unresponsive b) else routing b)
    by (unfold b2; by destruct (_ =? 0)%Z).
  destruct H2 as (He2 & Hu2 & Hr2). clearbody b2. clear b1.
  assert (Hgo : forall b3 hash cursor, exits b3 = exits b -> unresponsive b3 = unresponsive b -> routing b3 = routing b2 ->
    bonded (hist ++ [b3]) b3 /\ exists leg, route hash cursor (Z.of_nat (length pkt)) (routing b3) = Some leg /\ is_Some (exits b3 !! leg)).
  { intros b3 hash cursor He Hu Hr. assert (Hb3 : bonded (hist ++ [b3]) b3).
    { rewrite Hr2 in Hr. destruct (_ =? 0)%Z; [eapply bonded_refreshed; [exact Hb|exact He|]; by rewrite Hr, He, Hu|by eapply bonded_same]. }
    split; [done|]. destruct (bd_plan _ _ Hb3) as (bs & un & Hrf). destruct (read_from_planned _ _ _ _ Hb3 Hrf) as [Hp Hlen].
    destruct (route_spec bs un _ hash cursor (Z.of_nat (length pkt)) Hp) as (leg & Hro & Hus & _). exists leg. split; [done|].
    apply (pl_usable _ _ _ Hp) in Hus as [(x & Hx & _) _]. apply lookup_lt_Some in Hx. apply lookup_lt_is_Some. lia. }
  destruct (flow_keys_total pkt) as [[_ Hh]|(k & h & _ & Hh)]; rewrite Hh; cbn [mbind option_bind].
  - set (b3 := mkBundle (exits b2) _ (wrap 64 _) _ _ _). destruct (Hgo b3 None (rr b2) He2 Hu2 eq_refl) as (Hb3 & leg & Hr & [e He]).
    rewrite Hr. cbn [mbind option_bind]. rewrite He. by exists b3, leg, None, (rr b2).
  - destruct (Hgo b2 (Some h) 0%Z He2 Hu2 eq_refl) as (Hb3 & leg & Hr & [e He]). rewrite Hr. cbn [mbind option_bind]. rewrite He.
    by exists b2, leg, (Some h), 0%Z.
Qed.

Lemma bond_bonded hist b : bond hist b -> bonded hist b.
Proof.
  induction 1 as [clients budget b Hn|hist b client budget b' r _ IH Ha|hist b _ IH|hist b legs budget b' _ IH ->|hist b pkt budget b' leg _ IH Hp
    |hist b client budget b1 b' _ IH Ha Hb'|hist b legs b' _ IH ->|hist b cursor tick b' _ IH ->|hist b i j b1 b2 budget b' _ IH Hi Hj Hij ->].
  - by eapply new_bonded.
  - by eapply add_bonded.
  - by eapply bonded_same.
  - destruct (verdict_spec legs budget b) as (He & Hu & Hr). case_bool_decide; [by eapply bonded_same|]. eapply bonded_refreshed; [exact IH|exact He|]. by rewrite Hr, He, Hu.
  - destruct (pick_spec hist pkt budget b IH) as (b1 & leg1 & _ & _ & H & Hb & _). rewrite H in Hp. by injection Hp as <- <-.
  - by eapply joined_bonded.
  - by eapply bonded_same.
  - by eapply bonded_same.
  - apply (bonded_step hist b); [done|apply IH|apply IH|done|]. do 2 eexists. apply read_from_app. exists i, j, b1, b2, budget. by split_and!.
Qed.

(** The plan that gives [pkt] a leg, computed from the budgets [bs] and the verdicts [un]. *)
Record carried (b : MultiHopBundle) (pkt : list Z) (leg : nat) (bs : list Z) (un : list nat) (hash : option Z) (cursor : Z) : Prop := mkCarried {
  ca_kept : kept bs leg /\ (leg ∉ un \/ forall leg', kept bs leg' -> leg' ∈ un);
  ca_pinned pin : usable (routing b) !! pinned_leg hash cursor (routing b) = Some pin -> fits (routing b) (Z.of_nat (length pkt)) pin = true -> leg = pin;
  ca_fits : (exists leg', leg' ∈ usable (routing b) /\ fits (routing b) (Z.of_nat (length pkt)) leg' = true) -> fits (routing b) (Z.of_nat (length pkt)) leg = true;
  ca_published leg' x : kept bs leg' -> bs !! leg' = Some x -> (max_inner_payload b <= x)%Z;
  ca_within : (Z.of_nat (length pkt) <= max_inner_payload b)%Z -> usable (routing b) !! pinned_leg hash cursor (routing b) = Some leg;
}.

Lemma carried_by b pkt leg bs un hash cursor : planned bs un (routing b) -> route hash cursor (Z.of_nat (length pkt)) (routing b) = Some leg -> carried b pkt leg bs un hash cursor.
Proof.
  intros Hp Hroute. destruct (route_spec bs un _ hash cursor (Z.of_nat (length pkt)) Hp) as (leg' & Hroute' & Hu & Hpin & Hfit). rewrite Hroute in Hroute'. injection Hroute' as <-.
  destruct Hp as [Hbs Hne Hus [_ Hmin]]. pose proof Hu as Hu'. apply Hus in Hu' as [Hk Hun]. split; [done|done|done|done|].
  intros Hpub. unfold pinned_leg. set (start := Z.to_nat _). assert (Hn : 0 < length (usable (routing b))) by (destruct (usable (routing b)); [done|cbn; lia]).
  assert (Hstart : start < length (usable (routing b))).
  { unfold start. destruct hash as [h|]; [pose proof (Z.mod_pos_bound h (Z.of_nat (length (usable (routing b)))))|
      pose proof (Z.mod_pos_bound cursor (Z.of_nat (length (usable (routing b)))))]; lia. }
  destruct (lookup_lt_is_Some_2 _ _ Hstart) as [pin Hpi]. rewrite Hpi. f_equal. symmetry. apply (Hpin pin); [exact Hpi|].
  apply list_elem_of_lookup_2, Hus in Hpi as [Hkp _]. pose proof Hkp as (x & Hx & _). unfold fits. rewrite Hbs, Hx. apply Z.leb_le.
  specialize (Hmin pin x Hkp Hx). unfold max_inner_payload in Hpub. lia.
Qed.

(** C24.  A bond carries what its legs can carry.  In every bond, whatever its threads have done in whatever order, a packet is given a leg of the bond, all of whose
    legs end at one exit, and there is no panic.  The plan that decides was computed from a sample of the budgets of the legs the bond had
    and the verdicts it held at that moment or a later one; a packet on whose turn the refresh falls uses the present ones, as do the plans
    written when a verdict changes and when a leg joins.  The leg is one the MTU rules keep by that sample, the widest or one that carries an inner QUIC
    handshake, and not one those verdicts name unresponsive unless they name every such leg.  It is the leg
    the packet's flow is pinned to when that is wide enough, and is wide enough whenever a usable leg is.  The
    budget published to the clamps is that of the narrowest kept leg, so a packet within it never leaves its flow's leg. *)
Theorem bond_carries_flows hist b pkt budget : bond hist b ->
  (exists b' leg bs un hash cursor, pick pkt budget b = Some (b', leg) /\ leg < length (exits b') <= MAX_BONDED_CONNECTIONS /\
     (exists exit, Forall (eq exit) (exits b')) /\ flow_hash_5tuple pkt = Some hash /\
     read_from (hist ++ [b']) (routing b') bs un /\ carried b' pkt leg bs un hash cursor /\
     ((routing_tick b mod ROUTING_PLAN_REFRESH_PACKETS = 0)%Z -> bs = sample budget (length (exits b)) /\ un = unresponsive b)) /\
  (forall legs, legs <> unresponsive b ->
     routing (set_unresponsive_legs legs budget b) = from_budgets (sample budget (length (exits b))) legs) /\
  (forall client b', add_client client budget b = Some (b', true) ->
     routing b' = from_budgets (sample budget (length (exits b'))) (unresponsive b)).
Proof.
  intros Hb%bond_bonded. split_and!.
  - destruct (pick_spec hist pkt budget b Hb) as (b' & leg & hash & cursor & Hpick & Hb' & Hh & Hroute & Hr). exists b', leg.
    assert (Hsrc : exists bs un, read_from (hist ++ [b']) (routing b') bs un /\
      ((routing_tick b mod ROUTING_PLAN_REFRESH_PACKETS = 0)%Z -> bs = sample budget (length (exits b)) /\ un = unresponsive b)).
    { destruct (Z.eqb_spec (routing_tick b mod ROUTING_PLAN_REFRESH_PACKETS) 0) as [E|E].
      - exists (sample budget (length (exits b))), (unresponsive b). split; [|done]. rewrite Hr. destruct (pick_keeps _ _ _ _ _ Hpick) as [<- <-]. apply read_from_now.
      - destruct (bd_plan _ _ Hb') as (bs & un & H). by exists bs, un. }
    destruct Hsrc as (bs & un & Hrf & Hnow). destruct (read_from_planned _ _ _ _ Hb' Hrf) as [Hp Hlen]. pose proof (carried_by _ _ _ _ _ _ _ Hp Hroute) as Hc.
    exists bs, un, hash, cursor. split; [done|]. split; [|split; [apply Hb'|done]].
    destruct (ca_kept _ _ _ _ _ _ _ Hc) as [(x & Hx & _) _]. apply lookup_lt_Some in Hx. pose proof (bd_legs _ _ Hb'). lia.
  - intros legs Hne. destruct (verdict_spec legs budget b) as (_ & _ & ->). by rewrite bool_decide_eq_false_2.
  - intros client b' (_ & _ & _ & _ & ->)%add_client_spec. done.
Qed.

Definition collapsed (leg : nat) : Z := if (leg =? 1)%nat then 1117%Z else 1369%Z.

(** One of three legs collapsed to the base MTU, another stopped answering: flows use the third. *)
Lemma bond_carries_flows_witness : exists hist b b' leg, bond hist b /\ pick (replicate 40 0%Z) collapsed b = Some (b', leg) /\ leg < length (exits b') /\ leg = 2.
Proof.
  destruct (new_unsealed [7; 7; 7]%Z collapsed) as [b0|] eqn:E0; [|done].
  pose proof (bond_verdict _ _ [0] collapsed _ (bond_new _ _ _ E0) eq_refl) as Hb. do 2 eexists.
  destruct (bond_carries_flows _ _ (replicate 40 0%Z) collapsed Hb) as ((b' & leg & bs & un & hash & cursor & Hp & Hl & _) & _).
  exists b', leg. split; [exact Hb|]. split; [exact Hp|]. split; [apply Hl|]. injection E0 as <-. vm_compute in Hp. injection Hp as _ <-. done.
Defined.

(** A refresh that read the verdicts before leg 0 went silent writes its plan after: packets go to leg 0 until the next refresh. *)
Lemma late_plan_forgets_verdict : exists hist b b' leg, bond hist b /\ unresponsive b = [0] /\ routing_tick b = 1%Z /\
  pick (replicate 40 0%Z) (fun _ => 1369%Z) b = Some (b', leg) /\ leg = 0.
Proof.
  destruct (new_unsealed [7; 7]%Z (fun _ => 1369%Z)) as [b0|] eqn:E0; [|done].
  pose proof (bond_new _ _ _ E0) as H0. pose proof (bond_counted _ _ 0%Z 1%Z _ H0 eq_refl) as H1.
  pose proof (bond_verdict _ _ [0] (fun _ => 1369%Z) _ H1 eq_refl) as H2.
  pose proof (bond_late _ _ 0 0 b0 b0 (fun _ => 1369%Z) _ H2 eq_refl eq_refl (le_n 0) eq_refl) as H3.
  injection E0 as <-. do 4 eexists. split; [exact H3|]. vm_compute. by split_and!.
Qed.
