(* ===== verification/PathProber.v ===== *)
(** The path-health prober ([crates/warrenguard-transport/src/path_health.rs]): the probes of a
    round and their replies, the verdicts on each leg of a bond, and what a round publishes.

    The arrival order of the replies, the losses, the shuffle of the legs and the moments a bundle is still alive are arguments.
    The tracker is in [PathHealth], the bond's routing plan in [Bond].  A round feeds the tracker and publishes the readings, and
    then announces the tracker's events one by one; what other probers do comes between any two of these. *)

From stdpp Require Import sorting.
From Stdlib Require Import ZifyNat.
From S2P Require Import Prelude InnerMtu EchoProbe PathHealth Bond.
#[local] Open Scope nat_scope.

Definition SMALL_PROBE_LEN : nat := 84.

(** ** Sequence numbers *)

Definition probe_seq (base : Z) (leg : nat) (large : bool) : Z :=
  wrap 16 (base + wrap 16 (2 * wrap 16 (Z.of_nat leg) + if large then 1 else 0)).

Definition decode_probe_seq (base seq : Z) (legs : nat) : option (nat * bool) :=
  let offset := Z.to_nat (wrap 16 (seq - base)) in
  if offset <? 2 * legs then Some (offset / 2, offset mod 2 =? 1) else None.

(** ** One sweep *)

Record Sweep := mkSweep { small_ok : list bool; large_ok : list bool }.

Definition sweep_new (legs : nat) : Sweep := mkSweep (replicate legs false) (replicate legs false).

(** [get_mut]: nothing happens out of range. *)
Definition record (leg : nat) (is_large : bool) (s : Sweep) : Sweep :=
  if is_large then mkSweep (small_ok s) (<[leg := true]> (large_ok s)) else mkSweep (<[leg := true]> (small_ok s)) (large_ok s).

Definition complete (s : Sweep) : bool := forallb id (small_ok s) && forallb id (large_ok s).

Definition aggregate (s : Sweep) : bool * bool := (existsb id (small_ok s), existsb id (large_ok s)).

Definition named (p : bool -> bool -> bool) (s : Sweep) : list nat :=
  filter (fun leg => match small_ok s !! leg, large_ok s !! leg with Some a, Some b => p a b | _, _ => false end = true) (seq 0 (length (small_ok s))).

Definition unresponsive_legs (s : Sweep) : list nat := named (fun small large => negb small && negb large) s.
Definition size_blackholed_legs (s : Sweep) : list nat := named (fun small large => small && negb large) s.
Definition return_path_lost_a_reply (s : Sweep) : bool :=
  existsb (fun sl => snd sl && negb (fst sl)) (zip (small_ok s) (large_ok s)).

(** ** The verdicts on the legs *)

Record LegVerdicts := mkVerdicts {
  silent : list nat;
  size_legs : list nat;
  silent_suspects : list nat;
  size_suspects : list nat;
}.

Definition verdicts_default : LegVerdicts := mkVerdicts [] [] [] [].

Definition convict (convicted suspects now : list nat) : list nat :=
  merge_sort le (fold_left (fun acc leg => if bool_decide (leg ∈ suspects) && negb (bool_decide (leg ∈ acc)) then acc ++ [leg] else acc) now convicted).

Definition judge (sweep : Sweep) (v : LegVerdicts) : LegVerdicts :=
  let silent_now := unresponsive_legs sweep in
  let size_now := size_blackholed_legs sweep in
  let silent := filter (fun leg => leg ∈ silent_now) (silent v) in
  let size := filter (fun leg => default false (large_ok sweep !! leg) = false) (size_legs v) in
  if return_path_lost_a_reply sweep then mkVerdicts silent size [] []
  else mkVerdicts (convict silent (silent_suspects v) silent_now) (convict size (size_suspects v) size_now) silent_now size_now.

Definition awaiting_confirmation (v : LegVerdicts) : bool :=
  existsb (fun leg => negb (bool_decide (leg ∈ silent v))) (silent_suspects v) ||
  existsb (fun leg => negb (bool_decide (leg ∈ size_legs v))) (size_suspects v).

(** ** Rounds *)

Inductive RoundKind := Seal | Confirm | Cadence.

Definition next_kind (first awaiting tracker_wants_fast : bool) : RoundKind :=
  if first then Seal else if awaiting && negb tracker_wants_fast then Confirm else Cadence.

Definition feeds_tracker (swept_at_seal : bool) (k : RoundKind) : bool :=
  match k with Seal => negb swept_at_seal | Confirm => false | Cadence => true end.

Record LegHealth := mkLegHealth { legs : nat; unresponsive_report : list nat; size_blackholed : list nat }.
Definition leg_health_default : LegHealth := mkLegHealth 0 [] [].

Record ProberShared := mkShared {
  tracker : HealthTracker;
  endpoints : option (Z * Z);
  health : PathHealth;
  seq_counter : Z;
  under_quic_floor : bool;
  leg_health : LegHealth;
  generation : Z;
}.

Definition prober_new : ProberShared := mkShared tracker_default None Healthy 0 false leg_health_default 0.

Definition set_endpoints (assigned gateway : Z) (sh : ProberShared) : ProberShared :=
  mkShared (tracker sh) (Some (assigned, gateway)) (health sh) (seq_counter sh) (under_quic_floor sh) (leg_health sh) (generation sh).

(** A prober is spawned on a published bundle: its generation, and the reading reset under the same lock. *)
Definition spawn_path_health (sh : ProberShared) : ProberShared * Z :=
  let g := wrap 64 (generation sh + 1) in
  (mkShared (tracker sh) (endpoints sh) (health sh) (seq_counter sh) (under_quic_floor sh) leg_health_default g, g).

Definition publish_leg_health (g : Z) (report : LegHealth) (sh : ProberShared) : ProberShared :=
  if (generation sh =? g)%Z
  then mkShared (tracker sh) (endpoints sh) (health sh) (seq_counter sh) (under_quic_floor sh) report (generation sh)
  else sh.

(** The intercept of a downlink packet: the sequence number for the prober, if the packet is one of its replies. *)
Definition try_intercept (id : Z) (pkt : list Z) : option (option Z) :=
  match parse_echo_reply pkt id with Some (Some (seq, _)) => Some (Some seq) | Some None => Some None | None => None end.

(** What a round meets. *)
Record World := mkWorld {
  (** the bond was sealed before the cadence elapsed *)
  sealed_first : bool;
  (** the legs' budgets, or the bundle is gone *)
  leg_budgets : option (list Z);
  alive_to_send : bool;
  order : list nat;
  send_ok : nat -> bool -> bool;
  (** the sequence numbers received before the deadline, oldest first *)
  arrivals : list Z;
  alive_to_judge : bool;
  published_budget : Z;
}.

Inductive Act :=
| ProbeOn (leg : nat) (pkt : list Z)
| KeepOff (legs : list nat)
| NotifyOverlap.

(** The sends of a round: the packets put on the legs, and whether every one went out. *)
Fixpoint send_probes (src gw id base : Z) (budgets : list Z) (ok : nat -> bool -> bool) (legs : list nat) : option (list Act * bool) :=
  match legs with
  | [] => Some ([], true)
  | leg :: rest =>
      budget ← budgets !! leg;
      let large_len := Nat.max (Z.to_nat budget) SMALL_PROBE_LEN in
      small ← build_echo_request src gw id (probe_seq base leg false) SMALL_PROBE_LEN;
      large ← build_echo_request src gw id (probe_seq base leg true) large_len;
      match small, large with
      | Some small, Some large =>
          if negb (ok leg false) then Some ([], false)
          else if negb (ok leg true) then Some ([ProbeOn leg small], false)
          else '(acts, all) ← send_probes src gw id base budgets ok rest; Some (ProbeOn leg small :: ProbeOn leg large :: acts, all)
      | _, _ => Some ([], false)
      end
  end.

(** The replies, until every probe is answered or the deadline. *)
Fixpoint collect (base : Z) (legs : nat) (arrivals : list Z) (s : Sweep) : Sweep :=
  if complete s then s
  else match arrivals with
  | [] => s
  | seq :: rest =>
      collect base legs rest (match decode_probe_seq base seq legs with Some (leg, large) => record leg large s | None => s end)
  end.

(** The verdict's events, in order. *)
Definition act_on (ev : list HealthEvent) (sh : ProberShared) : ProberShared * list Act :=
  fold_left (fun acc e =>
    let '(sh, acts) := acc in
    let say h := mkShared (tracker sh) (endpoints sh) h (seq_counter sh) (under_quic_floor sh) (leg_health sh) (generation sh) in
    match e with
    | Entered kind => (say kind, acts)
    | Recovered => (say Healthy, acts)
    | RequestMigration => (sh, acts ++ [NotifyOverlap])
    end) ev (sh, []).

(** The state after the sends, the sweep and the verdicts, and the tracker's events. *)
Definition conclude (kind : RoundKind) (g : Z) (w : World) (n : nat) (sweep : Sweep) (sh : ProberShared) (v : LegVerdicts)
  : ProberShared * LegVerdicts * list Act * list HealthEvent :=
  let under_floor := (published_budget w <? QUIC_SAFE_INNER_MTU)%Z in
  let sh := mkShared (tracker sh) (endpoints sh) (health sh) (seq_counter sh) under_floor (leg_health sh) (generation sh) in
  let v := judge sweep v in
  let sh := publish_leg_health g (mkLegHealth n (silent v) (size_legs v)) sh in
  let swept_at_seal := match kind with Seal => sealed_first w | _ => false end in
  if negb (feeds_tracker swept_at_seal kind) then (sh, v, [KeepOff (silent v)], [])
  else
    let '(small_ok, large_ok) := aggregate sweep in
    let '(t, events) := record_pair small_ok large_ok (tracker sh) in
    (mkShared t (endpoints sh) (health sh) (seq_counter sh) (under_quic_floor sh) (leg_health sh) (generation sh), v, [KeepOff (silent v)], events).

(** A round, up to its events. *)
Definition judge_round (id : Z) (kind : RoundKind) (g : Z) (w : World) (sh : ProberShared) (v : LegVerdicts)
  : option (ProberShared * LegVerdicts * list Act * list HealthEvent) :=
  match endpoints sh, leg_budgets w with
  | Some (src, gw), Some budgets =>
      let n := length budgets in
      if n =? 0 then Some (sh, v, [], [])
      else
        let base := seq_counter sh in
        let sh := mkShared (tracker sh) (endpoints sh) (health sh) (wrap 16 (base + wrap 16 (2 * wrap 16 (Z.of_nat n))))
                    (under_quic_floor sh) (leg_health sh) (generation sh) in
        if negb (alive_to_send w) then Some (sh, v, [], [])
        else
          '(acts, all) ← send_probes src gw id base budgets (send_ok w) (order w);
          if negb all then Some (sh, v, acts, [])
          else if negb (alive_to_judge w) then Some (sh, v, acts, [])
          else
            let sweep := collect base n (arrivals w) (sweep_new n) in
            let '(sh, v, more, events) := conclude kind g w n sweep sh v in
            Some (sh, v, acts ++ more, events)
  | _, _ => Some (sh, v, [], [])
  end.

(** A round that no other prober interrupts. *)
Definition probe_round (id : Z) (kind : RoundKind) (g : Z) (w : World) (sh : ProberShared) (v : LegVerdicts)
  : option (ProberShared * LegVerdicts * list Act) :=
  '(sh, v, acts, events) ← judge_round id kind g w sh v;
  let '(sh, more) := act_on events sh in Some (sh, v, acts ++ more).

(** What a prober asks of its bond. *)
Definition obey (budget : nat -> Z) (b : MultiHopBundle) (a : Act) : MultiHopBundle :=
  match a with KeepOff legs => set_unresponsive_legs legs budget b | ProbeOn _ _ | NotifyOverlap => b end.

(** ** Replies are credited to the probe they answer *)

#[local] Ltac Zify.zify_post_hook ::= Z.to_euclidean_division_equations.

Lemma probe_seq_offset base leg large : (Z.of_nat leg < 2 ^ 15)%Z ->
  wrap 16 (probe_seq base leg large - base) = (2 * Z.of_nat leg + if large then 1 else 0)%Z.
Proof.
  intros Hl. unfold probe_seq, wrap. change (2 ^ 16)%Z with 65536%Z. change (2 ^ 15)%Z with 32768%Z in Hl.
  rewrite (Z.mod_small (Z.of_nat leg)) by lia. rewrite (Z.mod_small (2 * _ + _)) by (destruct large; lia).
  rewrite Zminus_mod_idemp_l. replace (_ - base)%Z with (2 * Z.of_nat leg + (if large then 1 else 0))%Z by lia. apply Z.mod_small. destruct large; lia.
Qed.

Lemma decode_own base leg large n : leg < n -> (Z.of_nat n <= 2 ^ 15)%Z -> decode_probe_seq base (probe_seq base leg large) n = Some (leg, large).
Proof.
  intros Hl Hn. unfold decode_probe_seq. rewrite probe_seq_offset by lia. cbn zeta.
  assert (Ho : Z.to_nat (2 * Z.of_nat leg + (if large then 1 else 0)) = 2 * leg + (if large then 1 else 0)) by (destruct large; lia).
  rewrite Ho. destruct (Nat.ltb_spec (2 * leg + (if large then 1 else 0)) (2 * n)); [|destruct large; lia]. f_equal. f_equal.
  - destruct large; cbv match; lia.
  - destruct large; cbv match; apply Nat.eqb_eq || apply Nat.eqb_neq; lia.
Qed.

Lemma decode_only base seq n leg large : in_width 16 seq -> decode_probe_seq base seq n = Some (leg, large) -> (Z.of_nat n <= 2 ^ 15)%Z ->
  leg < n /\ seq = probe_seq base leg large.
Proof.
  intros Hs. unfold decode_probe_seq. cbn zeta. set (o := Z.to_nat _). destruct (Nat.ltb_spec o (2 * n)) as [Ho|]; [|done]. intros Hsome Hn.
  assert (leg = o / 2 /\ large = (o mod 2 =? 1)) as [-> ->] by (split; congruence). clear Hsome.
  assert (Hbnd : (0 <= wrap 16 (seq - base) < 65536)%Z) by (unfold wrap; apply Z.mod_pos_bound; lia).
  split; [lia|]. assert (He : wrap 16 (seq - base) = (2 * Z.of_nat (o / 2) + if (o mod 2 =? 1)%nat then 1 else 0)%Z).
  { unfold o. destruct (Nat.eqb_spec (Z.to_nat (wrap 16 (seq - base)) mod 2) 1); lia. }
  unfold probe_seq. unfold wrap at 3. rewrite (Z.mod_small (Z.of_nat (o / 2))) by (change (2 ^ 16)%Z with 65536%Z; change (2 ^ 15)%Z with 32768%Z in Hn; lia).
  rewrite <- He. unfold wrap, in_width in *. change (2 ^ 16)%Z with 65536%Z in *. rewrite Zmod_mod, Zplus_mod_idemp_r.
  replace (base + (seq - base))%Z with seq by lia. symmetry. by apply Z.mod_small.
Qed.

(** A reply to an earlier round is nobody's. *)
Lemma decode_stale base d n n' leg large : leg < n' -> (2 * Z.of_nat n' <= d)%Z -> (d + 2 * Z.of_nat n <= 2 ^ 16)%Z ->
  decode_probe_seq (wrap 16 (base + d)) (probe_seq base leg large) n = None.
Proof.
  intros Hl Hd Hn. unfold decode_probe_seq. cbn zeta. change (2 ^ 16)%Z with 65536%Z in Hn.
  assert (Ho : wrap 16 (probe_seq base leg large - wrap 16 (base + d)) = (65536 + (2 * Z.of_nat leg + (if large then 1 else 0)) - d)%Z).
  { unfold wrap. change (2 ^ 16)%Z with 65536%Z. rewrite Zminus_mod_idemp_r. replace (probe_seq base leg large - (base + d))%Z with ((probe_seq base leg large - base) - d)%Z by lia.
    rewrite <- Zminus_mod_idemp_l. pose proof (probe_seq_offset base leg large) as H. unfold wrap in H. change (2 ^ 16)%Z with 65536%Z in H. rewrite H by (change (2 ^ 15)%Z with 32768%Z; lia).
    rewrite <- (Z.mod_add _ 1) by lia. rewrite Z.mod_small; destruct large; lia. }
  rewrite Ho. destruct (Nat.ltb_spec (Z.to_nat (65536 + (2 * Z.of_nat leg + (if large then 1 else 0)) - d)) (2 * n)); [|done]. destruct large; lia.
Qed.

(** A leg's probe came back. *)
Definition heard (row : list bool) (leg : nat) : Prop := row !! leg = Some true.

Lemma record_rows leg large n s : length (small_ok s) = n -> length (large_ok s) = n ->
  length (small_ok (record leg large s)) = n /\ length (large_ok (record leg large s)) = n.
Proof. intros. unfold record. destruct large; cbn; by rewrite ?length_insert. Qed.

Lemma record_heard leg large s leg' : leg < length (small_ok s) -> leg < length (large_ok s) ->
  (heard (small_ok (record leg large s)) leg' <-> heard (small_ok s) leg' \/ large = false /\ leg' = leg) /\
  (heard (large_ok (record leg large s)) leg' <-> heard (large_ok s) leg' \/ large = true /\ leg' = leg).
Proof.
  intros Hs Hl. unfold record, heard. destruct large; cbn; (split; [|try (split; [by left|by intros [|[]]])]).
  - split; [by left|by intros [|[]]].
  - rewrite list_lookup_insert_Some. destruct (decide (leg = leg')) as [->|]; naive_solver.
  - rewrite list_lookup_insert_Some. destruct (decide (leg = leg')) as [->|]; naive_solver.
Qed.

Lemma complete_heard s leg : complete s = true -> leg < length (small_ok s) -> leg < length (large_ok s) -> heard (small_ok s) leg /\ heard (large_ok s) leg.
Proof.
  unfold complete. rewrite andb_true_iff, !forallb_forall. intros [Hs Hl] H1 H2.
  destruct (lookup_lt_is_Some_2 _ _ H1) as [a Ha], (lookup_lt_is_Some_2 _ _ H2) as [b Hb]. unfold heard. rewrite Ha, Hb.
  specialize (Hs a (proj1 (list_elem_of_In _ _) (list_elem_of_lookup_2 _ _ _ Ha))). specialize (Hl b (proj1 (list_elem_of_In _ _) (list_elem_of_lookup_2 _ _ _ Hb))).
  cbn in Hs, Hl. by subst.
Qed.

(** Stopping early changes nothing: each probe is heard exactly when its own number arrived. *)
Lemma collect_spec base n l : forall s, (Z.of_nat n <= 2 ^ 15)%Z -> Forall (in_width 16) l -> length (small_ok s) = n -> length (large_ok s) = n ->
  length (small_ok (collect base n l s)) = n /\ length (large_ok (collect base n l s)) = n /\
  forall leg, leg < n ->
    (heard (small_ok (collect base n l s)) leg <-> heard (small_ok s) leg \/ probe_seq base leg false ∈ l) /\
    (heard (large_ok (collect base n l s)) leg <-> heard (large_ok s) leg \/ probe_seq base leg true ∈ l).
Proof.
  induction l as [|x l IH]; intros s Hn Hw H1 H2; cbn [collect]; (destruct (complete s) eqn:Ec;
    [split; [done|]; split; [done|]; intros leg Hleg; destruct (complete_heard s leg Ec) as [Ha Hb]; [lia|lia|]; by split; (split; [left|done])|]).
  - split; [done|]. split; [done|]. intros leg Hleg. split; (split; [by left|by intros [|?%elem_of_nil]]).
  - apply Forall_cons in Hw as [Hx Hw]. destruct (decode_probe_seq base x n) as [[leg0 large0]|] eqn:Ed.
    + apply decode_only in Ed as [Hl0 ->]; [|done..]. destruct (record_rows leg0 large0 n s H1 H2) as [H1' H2'].
      destruct (IH _ Hn Hw H1' H2') as (Hr1 & Hr2 & Hr). split; [done|]. split; [done|]. intros leg Hleg. destruct (Hr leg Hleg) as [-> ->].
      destruct (record_heard leg0 large0 s leg) as [-> ->]; [lia..|]. rewrite !elem_of_cons.
      assert (Hinj : forall lg, probe_seq base leg lg = probe_seq base leg0 large0 <-> lg = large0 /\ leg = leg0).
      { intros lg. split; [|by intros [-> ->]]. intros He. pose proof (decode_own base leg lg n Hleg Hn) as D1. rewrite He, decode_own in D1 by done. by injection D1 as -> ->. }
      rewrite !Hinj. destruct large0; naive_solver.
    + destruct (IH s Hn Hw H1 H2) as (Hr1 & Hr2 & Hr). split; [done|]. split; [done|]. intros leg Hleg. destruct (Hr leg Hleg) as [-> ->].
      assert (Hno : forall lg, probe_seq base leg lg <> x) by (intros lg <-; by rewrite decode_own in Ed).
      rewrite !elem_of_cons. split; naive_solver.
Qed.

(** ** Two rounds in a row *)

Definition silent_in (s : Sweep) (leg : nat) : Prop := small_ok s !! leg = Some false /\ large_ok s !! leg = Some false.
Definition size_in (s : Sweep) (leg : nat) : Prop := small_ok s !! leg = Some true /\ large_ok s !! leg = Some false.
Definition no_large (s : Sweep) (leg : nat) : Prop := ~ heard (large_ok s) leg.
Definition quiet_round (s : Sweep) : Prop := return_path_lost_a_reply s = false.

Definition judged (hist : list Sweep) : LegVerdicts := fold_left (fun v s => judge s v) hist verdicts_default.

(** Two quiet rounds in a row failed the leg, and it has kept failing since. *)
Definition convicted (fails still : Sweep -> nat -> Prop) (hist : list Sweep) (leg : nat) : Prop :=
  exists before a b after, hist = before ++ a :: b :: after /\ quiet_round a /\ quiet_round b /\ fails a leg /\ fails b leg /\ Forall (fun s => still s leg) after.

(** The last round, a quiet one, failed the leg. *)
Definition suspected (fails : Sweep -> nat -> Prop) (hist : list Sweep) (leg : nat) : Prop :=
  exists before a, hist = before ++ [a] /\ quiet_round a /\ fails a leg.

Lemma suspected_snoc fails hist s leg : suspected fails (hist ++ [s]) leg <-> quiet_round s /\ fails s leg.
Proof.
  split; [|intros []; by exists hist, s]. intros (before & a & He & Hq & Hf). by apply app_inj_tail in He as [_ <-].
Qed.

Lemma convicted_snoc fails still hist s leg :
  convicted fails still (hist ++ [s]) leg <->
  (convicted fails still hist leg /\ still s leg) \/ (suspected fails hist leg /\ quiet_round s /\ fails s leg).
Proof.
  split.
  - intros (before & a & b & after & He & Hqa & Hqb & Hfa & Hfb & Hall). destruct after as [|z after _] using rev_ind.
    + right. replace (before ++ [a; b]) with ((before ++ [a]) ++ [b]) in He by (by rewrite <- app_assoc).
      apply app_inj_tail in He as [-> ->]. split; [by exists before, a|done].
    + left. replace (before ++ a :: b :: after ++ [z]) with ((before ++ a :: b :: after) ++ [z]) in He by (by rewrite <- app_assoc).
      apply app_inj_tail in He as [-> ->]. apply Forall_app in Hall as [Hall [Hz _]%Forall_cons]. split; [|done]. by exists before, a, b, after.
  - intros [[(before & a & b & after & -> & Hqa & Hqb & Hfa & Hfb & Hall) Hs]|[(before & a & -> & Hqa & Hfa) [Hqs Hfs]]].
    + exists before, a, b, (after ++ [s]). split; [by rewrite <- app_assoc|]. split_and!; try done. apply Forall_app. by split; [|constructor].
    + exists before, a, s, []. by rewrite <- app_assoc.
Qed.

Lemma named_elem p s leg : leg ∈ named p s <-> exists a b, small_ok s !! leg = Some a /\ large_ok s !! leg = Some b /\ p a b = true.
Proof.
  unfold named. rewrite list_elem_of_filter, elem_of_seq. destruct (small_ok s !! leg) as [a|] eqn:Ea; [|naive_solver].
  apply lookup_lt_Some in Ea as Hlt. destruct (large_ok s !! leg) as [b|] eqn:Eb; [|naive_solver].
  split; [intros [H _]; by exists a, b|]. intros (a' & b' & [= <-] & [= <-] & H). split; [done|lia].
Qed.

Lemma unresponsive_elem s leg : leg ∈ unresponsive_legs s <-> silent_in s leg.
Proof. unfold unresponsive_legs, silent_in. rewrite named_elem. split; [intros ([] & [] & ? & ? & ?); done|intros [? ?]; by exists false, false]. Qed.

Lemma size_elem s leg : leg ∈ size_blackholed_legs s <-> size_in s leg.
Proof. unfold size_blackholed_legs, size_in. rewrite named_elem. split; [intros ([] & [] & ? & ? & ?); done|intros [? ?]; by exists true, false]. Qed.

Lemma convict_elem x conv sus now : x ∈ convict conv sus now <-> x ∈ conv \/ (x ∈ sus /\ x ∈ now).
Proof.
  unfold convict. rewrite merge_sort_Permutation. revert conv. induction now as [|leg now IH]; intros conv; cbn [fold_left].
  - split; [by left|by intros [|[_ ?%elem_of_nil]]].
  - rewrite IH, elem_of_cons. do 2 case_bool_decide; cbn [andb negb]; rewrite ?elem_of_app, ?list_elem_of_singleton; naive_solver.
Qed.

(** The verdicts are exactly the convictions, the suspects exactly the suspicions. *)
Lemma judged_exact hist leg :
  (leg ∈ silent (judged hist) <-> convicted silent_in silent_in hist leg) /\
  (leg ∈ size_legs (judged hist) <-> convicted size_in no_large hist leg) /\
  (leg ∈ silent_suspects (judged hist) <-> suspected silent_in hist leg) /\
  (leg ∈ size_suspects (judged hist) <-> suspected size_in hist leg).
Proof.
  induction hist as [|s hist IH] using rev_ind.
  { cbn. split_and!; (split; [by intros ?%elem_of_nil|]); [intros (b & a & c & d & He & _)|intros (b & a & c & d & He & _)|intros (b & a & He & _)|intros (b & a & He & _)];
      by destruct b. }
  unfold judged in *. rewrite fold_left_app. cbn [fold_left]. set (v := fold_left _ hist _) in *. destruct IH as (H1 & H2 & H3 & H4).
  rewrite !convicted_snoc, !suspected_snoc, <- H1, <- H2, <- H3, <- H4. clear H1 H2 H3 H4.
  assert (Hlarge : default false (large_ok s !! leg) = false <-> no_large s leg).
  { unfold no_large, heard. destruct (large_ok s !! leg) as [[]|]; cbn; naive_solver. }
  unfold judge, quiet_round. cbn zeta. destruct (return_path_lost_a_reply s); cbn [silent size_legs silent_suspects size_suspects];
    rewrite ?convict_elem, !list_elem_of_filter, ?unresponsive_elem, ?size_elem, ?Hlarge, ?elem_of_nil; intuition congruence.
Qed.

(** ** The rounds of a prober *)

(** The watch after a list of events. *)
Definition said (ev : list HealthEvent) (h : PathHealth) : PathHealth :=
  fold_left (fun h e => match e with Entered kind => kind | Recovered => Healthy | RequestMigration => h end) ev h.

Lemma act_on_spec ev sh : let '(sh', acts) := act_on ev sh in
  sh' = mkShared (tracker sh) (endpoints sh) (said ev (health sh)) (seq_counter sh) (under_quic_floor sh) (leg_health sh) (generation sh) /\
  Forall (eq NotifyOverlap) acts.
Proof.
  unfold act_on, said.
  enough (Hgen : forall acts, Forall (eq NotifyOverlap) acts ->
    let '(sh', acts') := fold_left (fun acc e => let '(sh, acts) := acc in
      let say h := mkShared (tracker sh) (endpoints sh) h (seq_counter sh) (under_quic_floor sh) (leg_health sh) (generation sh) in
      match e with Entered kind => (say kind, acts) | Recovered => (say Healthy, acts) | RequestMigration => (sh, acts ++ [NotifyOverlap]) end) ev (sh, acts) in
    sh' = mkShared (tracker sh) (endpoints sh) (fold_left (fun h e => match e with Entered kind => kind | Recovered => Healthy | RequestMigration => h end) ev (health sh))
            (seq_counter sh) (under_quic_floor sh) (leg_health sh) (generation sh) /\ Forall (eq NotifyOverlap) acts') by (by apply Hgen).
  revert sh. induction ev as [|e ev IH]; intros sh acts Ha; [by destruct sh|]. cbn [fold_left].
  destruct e; [apply (IH (mkShared _ _ h _ _ _ _)); done|apply (IH (mkShared _ _ Healthy _ _ _ _)); done|apply IH]. apply Forall_app. by split; [|constructor].
Qed.

(** The watch follows the tracker. *)
Lemma said_state s l t t' ev : record_pair s l t = (t', ev) -> said ev (state t) = state t'.
Proof.
  assert (Hre : forall t t' ev, reclassify t = (t', ev) -> said ev (state t) = state t').
  { intros t0 t0' ev0. unfold reclassify. destruct (classify t0) as [v|]; [|by intros [= <- <-]].
    destruct (bool_decide_reflect (v <> state t0)) as [Hv|Hv]; [|apply dec_stable in Hv];
      (destruct (bool_decide _); [destruct (0 <? _); [by intros [= <- <-]|destruct (_ <? MAX_MIGRATIONS_PER_EPISODE); by intros [= <- <-]]|by intros [= <- <-]]). }
  unfold record_pair. cbn zeta. intros H. repeat case_match; try (apply (Hre _ _ _ H)). by injection H as <- <-.
Qed.

Lemma send_probes_quiet src gw id base budgets ok ls acts all legs : send_probes src gw id base budgets ok ls = Some (acts, all) -> KeepOff legs ∉ acts.
Proof.
  revert acts all. induction ls as [|leg ls IH]; intros acts all; cbn [send_probes]; [intros [= <- <-]; by intros ?%elem_of_nil|].
  destruct (budgets !! leg); cbn [mbind option_bind]; [|done]. destruct (build_echo_request _ _ _ (probe_seq base leg false) _) as [small|]; cbn [mbind option_bind]; [|done].
  destruct (build_echo_request _ _ _ (probe_seq base leg true) _) as [large|]; cbn [mbind option_bind]; [|done].
  destruct small as [small|], large as [large|]; try (intros [= <- <-]; by intros ?%elem_of_nil).
  destruct (negb _); [intros [= <- <-]; by intros ?%elem_of_nil|]. destruct (negb _); [intros [= <- <-]; by intros ?%list_elem_of_singleton|].
  destruct (send_probes src gw id base budgets ok ls) as [[acts1 all1]|]; cbn [mbind option_bind]; [|done]. intros [= <- <-].
  rewrite !elem_of_cons. intros [?|[?|?]]; [done|done|by eapply IH].
Qed.

(** The sweep of a round that gets to judge its legs. *)
Definition concluded (id : Z) (w : World) (sh : ProberShared) : option Sweep :=
  match endpoints sh, leg_budgets w with
  | Some (src, gw), Some budgets =>
      let n := length budgets in
      if (n =? 0) || negb (alive_to_send w) || negb (alive_to_judge w) then None
      else match send_probes src gw id (seq_counter sh) budgets (send_ok w) (order w) with
      | Some (_, true) => Some (collect (seq_counter sh) n (arrivals w) (sweep_new n))
      | _ => None
      end
  | _, _ => None
  end.

(** A round's legs are shuffled, its numbers are [u16], its budgets are lengths a packet can have, and a bond has at most eight legs. *)
Record world_ok (w : World) : Prop := mkWorldOk {
  wk_order budgets : leg_budgets w = Some budgets -> order w ≡ₚ seq 0 (length budgets);
  wk_legs budgets : leg_budgets w = Some budgets -> length budgets <= MAX_BONDED_CONNECTIONS /\ Forall (fun b => 0 <= b <= u16_max)%Z budgets;
  wk_arrivals : Forall (in_width 16) (arrivals w);
}.

(** The tracker has only ever been fed, and the addresses are such. *)
Definition well_fed (sh : ProberShared) : Prop :=
  (exists seen trace, reached (tracker sh) seen trace) /\
  forall src gw, endpoints sh = Some (src, gw) -> in_width 32 src /\ in_width 32 gw.

Lemma record_pair_fed s l t t' ev : (exists seen trace, reached t seen trace) -> record_pair s l t = (t', ev) -> exists seen trace, reached t' seen trace.
Proof.
  intros (seen & trace & Hr) H. destruct (decide (Recovered ∈ ev)); [do 2 eexists; by eapply reached_recovery|do 2 eexists; by eapply reached_round].
Qed.

Lemma publish_spec g report sh : exists lh, publish_leg_health g report sh =
  mkShared (tracker sh) (endpoints sh) (health sh) (seq_counter sh) (under_quic_floor sh) lh (generation sh) /\
  lh = if (generation sh =? g)%Z then report else leg_health sh.
Proof. unfold publish_leg_health. case_match; eexists; split; try done. by destruct sh. Qed.

(** The tracker's events are what took it where it is. *)
Definition events_of (sh sh' : ProberShared) (ev : list HealthEvent) : Prop := said ev (state (tracker sh)) = state (tracker sh').

Lemma conclude_spec kind g w n sweep sh v sh' v' acts ev : well_fed sh -> conclude kind g w n sweep sh v = (sh', v', acts, ev) ->
  v' = judge sweep v /\ well_fed sh' /\ generation sh' = generation sh /\ acts = [KeepOff (silent v')] /\ health sh' = health sh /\ events_of sh sh' ev /\
  leg_health sh' = if (generation sh =? g)%Z then mkLegHealth n (silent v') (size_legs v') else leg_health sh.
Proof.
  intros (Hfed & Hep). unfold conclude. cbn zeta. set (sh1 := mkShared _ _ _ _ (_ <? _)%Z _ _). set (report := mkLegHealth _ _ _).
  destruct (publish_spec g report sh1) as (lh & -> & Hlh). destruct (feeds_tracker _ _); cbn [negb].
  - destruct (aggregate sweep) as [a b]. cbn [tracker]. destruct (record_pair a b (tracker sh1)) as [t e] eqn:Er.
    intros [= <- <- <- <-]. split; [done|]. split; [|split_and!; [done|done|done|by eapply said_state|done]].
    split; [by eapply record_pair_fed|done].
  - intros [= <- <- <- <-]. by split_and!.
Qed.

Lemma judge_round_spec id kind g w sh v sh' v' acts ev : well_fed sh -> judge_round id kind g w sh v = Some (sh', v', acts, ev) ->
  well_fed sh' /\ generation sh' = generation sh /\ health sh' = health sh /\ events_of sh sh' ev /\
  match concluded id w sh with
  | None => v' = v /\ leg_health sh' = leg_health sh
  | Some sweep => v' = judge sweep v /\ (exists sent, acts = sent ++ [KeepOff (silent v')] /\ forall legs, KeepOff legs ∉ sent) /\
      exists n, leg_health sh' = if (generation sh =? g)%Z then mkLegHealth n (silent v') (size_legs v') else leg_health sh
  end.
Proof.
  intros Hfed. unfold judge_round, concluded.
  assert (Hfed1 : forall q, well_fed (mkShared (tracker sh) (endpoints sh) (health sh) q (under_quic_floor sh) (leg_health sh) (generation sh))) by done.
  destruct (endpoints sh) as [[src gw]|] eqn:Ee; [|by intros [= <- <- <- <-]].
  destruct (leg_budgets w) as [budgets|]; [|by intros [= <- <- <- <-]]. destruct (length budgets =? 0); cbn [orb]; [by intros [= <- <- <- <-]|].
  destruct (alive_to_send w); cbn [negb orb]; [|intros [= <- <- <- <-]; split; [apply Hfed1|done]].
  destruct (send_probes _ _ _ _ _ _ _) as [[sent []]|] eqn:Es; cbn [mbind option_bind negb]; [| |done].
  2:{ intros [= <- <- <- <-]. split; [apply Hfed1|]. by destruct (alive_to_judge w). }
  destruct (alive_to_judge w); cbn [negb]; [|intros [= <- <- <- <-]; split; [apply Hfed1|done]].
  match goal with |- context [conclude kind g w ?n ?sw ?s v] => destruct (conclude kind g w n sw s v) as [[[sh2 v2] more] e] eqn:Ec end.
  intros [= <- <- <- <-]. apply conclude_spec in Ec as (Hv & Hf & Hg & -> & Hh & Hev & Hl); [|apply Hfed1]. split; [done|]. split; [done|].
  split; [done|]. split; [done|]. split; [done|]. split; [|by eexists]. exists sent. split; [done|]. intros legs0; by eapply send_probes_quiet.
Qed.

(** What the whole round adds. *)
Lemma probe_round_judges id kind g w sh v sh' v' acts : probe_round id kind g w sh v = Some (sh', v', acts) ->
  exists sh1 acts1 ev more, judge_round id kind g w sh v = Some (sh1, v', acts1, ev) /\ acts = acts1 ++ more /\ Forall (eq NotifyOverlap) more /\
    sh' = mkShared (tracker sh1) (endpoints sh1) (said ev (health sh1)) (seq_counter sh1) (under_quic_floor sh1) (leg_health sh1) (generation sh1).
Proof.
  unfold probe_round. destruct (judge_round _ _ _ _ _ _) as [[[[sh1 v1] acts1] ev]|]; [|done]. cbn [mbind option_bind].
  pose proof (act_on_spec ev sh1) as Ha. destruct (act_on ev sh1) as [sh2 more]. destruct Ha as [-> Hm]. intros [= <- <- <-]. by exists sh1, acts1, ev, more.
Qed.

(** ** The probes *)

(** The gateway's echo of a request. *)
Definition echoed (pkt : list Z) : list Z := <[20 := 0%Z]> pkt.

(** A probe of [leg] went out whose echo is handed to the prober as its own number. *)
Definition probed (id base : Z) (leg : nat) (large : bool) (acts : list Act) : Prop :=
  exists pkt, ProbeOn leg pkt ∈ acts /\ try_intercept id (echoed pkt) = Some (Some (probe_seq base leg large)).

Lemma probe_seq_width base leg large : in_width 16 (probe_seq base leg large).
Proof. unfold probe_seq, wrap, in_width. apply Z.mod_pos_bound. done. Qed.

Lemma probe_built src gw id base leg large len : in_width 32 src -> in_width 32 gw -> in_width 16 id -> 28 <= len -> (Z.of_nat len <= 65535)%Z ->
  exists pkt, build_echo_request src gw id (probe_seq base leg large) len = Some (Some pkt) /\
    try_intercept id (echoed pkt) = Some (Some (probe_seq base leg large)).
Proof.
  intros Hs Hg Hi H1 H2. pose proof (echo_probe_roundtrip src gw id (probe_seq base leg large) len Hs Hg Hi (probe_seq_width _ _ _)) as H.
  rewrite bool_decide_eq_true_2 in H by (split; [exact H1|exact H2]). destruct H as (pkt & -> & _ & _ & _ & _ & _ & _ & Hp). exists pkt. split; [done|].
  unfold try_intercept, echoed. by rewrite Hp, Z.eqb_refl.
Qed.

Lemma send_probes_spec src gw id base budgets ok ls : in_width 32 src -> in_width 32 gw -> in_width 16 id ->
  Forall (fun b => 0 <= b <= u16_max)%Z budgets -> Forall (fun leg => leg < length budgets) ls ->
  exists acts all, send_probes src gw id base budgets ok ls = Some (acts, all) /\
    ((forall leg large, ok leg large = true) -> all = true) /\
    (all = true -> forall leg large, leg ∈ ls -> probed id base leg large acts).
Proof.
  intros Hs Hg Hi Hb. induction 1 as [|leg ls Hl Hls (acts & all & IH & Hok & Hp)]; cbn [send_probes].
  { exists [], true. split; [done|]. split; [done|]. by intros _ leg large ?%elem_of_nil. }
  destruct (lookup_lt_is_Some_2 _ _ Hl) as [budget Hbu]. rewrite Hbu. cbn [mbind option_bind].
  pose proof (Forall_lookup_1 _ _ _ _ Hb Hbu) as Hrange. cbn in Hrange. unfold u16_max in Hrange.
  destruct (probe_built src gw id base leg false SMALL_PROBE_LEN) as (small & -> & Hsm); [done..|unfold SMALL_PROBE_LEN; lia|unfold SMALL_PROBE_LEN; lia|].
  destruct (probe_built src gw id base leg true (Nat.max (Z.to_nat budget) SMALL_PROBE_LEN)) as (large & -> & Hla); [done..|unfold SMALL_PROBE_LEN; lia|unfold SMALL_PROBE_LEN; lia|].
  cbn [mbind option_bind]. destruct (ok leg false) eqn:E1; cbn [negb].
  2:{ exists [], false. split; [done|]. split; [intros H; by rewrite H in E1|done]. }
  destruct (ok leg true) eqn:E2; cbn [negb].
  2:{ exists [ProbeOn leg small], false. split; [done|]. split; [intros H; by rewrite H in E2|done]. }
  rewrite IH. cbn [mbind option_bind]. do 2 eexists. split; [done|]. split; [done|]. intros Hall leg' lg [->|Hin]%elem_of_cons.
  - destruct lg; [exists large|exists small]; (split; [|done]); [right; by left|by left].
  - destruct (Hp Hall leg' lg Hin) as (pkt & Hpkt & Ht). exists pkt. split; [by do 2 right|done].
Qed.

Lemma judge_round_runs id kind g w sh v : well_fed sh -> in_width 16 id -> world_ok w ->
  exists sh' v' acts ev, judge_round id kind g w sh v = Some (sh', v', acts, ev) /\
  forall sweep, concluded id w sh = Some sweep -> exists budgets, leg_budgets w = Some budgets /\
    forall leg large, leg < length budgets -> probed id (seq_counter sh) leg large acts /\
      (heard (if large then large_ok sweep else small_ok sweep) leg <-> probe_seq (seq_counter sh) leg large ∈ arrivals w).
Proof.
  intros (_ & Hep) Hi [Ho Hl Ha]. unfold judge_round, concluded. destruct (endpoints sh) as [[src gw]|] eqn:Ee; [|by do 4 eexists].
  destruct (Hep _ _ eq_refl) as [Hs Hg]. destruct (leg_budgets w) as [budgets|]; [|by do 4 eexists].
  specialize (Ho _ eq_refl). destruct (Hl _ eq_refl) as [Hn Hb]. destruct (length budgets =? 0); cbn [orb]; [by do 4 eexists|].
  destruct (alive_to_send w); cbn [negb orb]; [|by do 4 eexists].
  assert (Hls : Forall (fun leg => leg < length budgets) (order w)).
  { apply Forall_forall. intros leg Hleg. rewrite Ho in Hleg. apply elem_of_seq in Hleg. lia. }
  destruct (send_probes_spec src gw id (seq_counter sh) budgets (send_ok w) (order w) Hs Hg Hi Hb Hls) as (sent & all & Hsent & _ & Hp). rewrite Hsent.
  cbn [mbind option_bind]. destruct all; cbn [negb]; [|do 4 eexists; split; [done|]; by destruct (alive_to_judge w)].
  destruct (alive_to_judge w); cbn [negb]; [|by do 4 eexists].
  match goal with |- context [conclude kind g w ?n ?sw ?s v] => destruct (conclude kind g w n sw s v) as [[[sh2 v2] more] ev2] end.
  do 4 eexists. split; [done|]. intros sweep [= <-]. exists budgets. split; [done|]. intros leg large Hleg. split.
  - destruct (Hp eq_refl leg large) as (pkt & Hpkt & Ht); [rewrite Ho; apply elem_of_seq; lia|]. exists pkt. split; [apply elem_of_app; by left|done].
  - destruct (collect_spec (seq_counter sh) (length budgets) (arrivals w) (sweep_new (length budgets))) as (_ & _ & Hc);
      [unfold MAX_BONDED_CONNECTIONS in Hn; lia|done|cbn; by rewrite length_replicate..|].
    assert (Hno : forall row, row = replicate (length budgets) false -> ~ heard row leg).
    { intros row ->. unfold heard. rewrite lookup_replicate_2 by done. done. }
    destruct (Hc leg Hleg) as [H1 H2]. destruct large; [rewrite H2|rewrite H1]; (split; [intros [[]%Hno|]; done|by right]).
Qed.

(** ** A prober among the others *)

Definition set_health (h : PathHealth) (sh : ProberShared) : ProberShared :=
  mkShared (tracker sh) (endpoints sh) h (seq_counter sh) (under_quic_floor sh) (leg_health sh) (generation sh).

(** What happens to the shared state between two steps of the prober of generation [g]: an address assignment, the
    prober of a newer bundle starting, a round of another prober up to its events, or one of its announcements. *)
Inductive elsewhere (id g : Z) : ProberShared -> ProberShared -> Prop :=
| assigned_step sh src gw : in_width 32 src -> in_width 32 gw -> elsewhere id g sh (set_endpoints src gw sh)
| spawned_step sh : (generation sh + 1 < 2 ^ 64)%Z -> elsewhere id g sh (fst (spawn_path_health sh))
| other_round sh kind g' w v sh' v' acts ev : g' <> g -> judge_round id kind g' w sh v = Some (sh', v', acts, ev) -> elsewhere id g sh sh'
| other_said sh h : elsewhere id g sh (set_health h sh).

(** The shared state, the verdicts and the sweeps so far of that prober, and the events it has yet to announce. *)
Inductive probing (id g : Z) : ProberShared -> LegVerdicts -> list Sweep -> list HealthEvent -> Prop :=
| probing_start sh0 sh : well_fed sh0 -> (0 <= generation sh0)%Z -> (generation sh0 + 1 < 2 ^ 64)%Z -> spawn_path_health sh0 = (sh, g) -> probing id g sh verdicts_default [] []
| probing_round sh v hist kind w sh' v' acts ev : probing id g sh v hist [] -> judge_round id kind g w sh v = Some (sh', v', acts, ev) ->
    probing id g sh' v' (hist ++ from_option (fun s => [s]) [] (concluded id w sh)) ev
| probing_said sh v hist e ev : probing id g sh v hist (e :: ev) -> probing id g (fst (act_on [e] sh)) v hist ev
| probing_elsewhere sh v hist ev sh' : probing id g sh v hist ev -> elsewhere id g sh sh' -> probing id g sh' v hist ev.

Record probing_inv (g : Z) (sh : ProberShared) (v : LegVerdicts) (hist : list Sweep) : Prop := mkProbingInv {
  pi_fed : well_fed sh;
  pi_verdicts : v = judged hist;
  pi_generation : (0 <= g <= generation sh)%Z;
  pi_reading : generation sh = g -> hist <> [] -> unresponsive_report (leg_health sh) = silent v /\ size_blackholed (leg_health sh) = size_legs v;
}.

(** Announcing an event changes the published health only. *)
Lemma announced_inv g sh v hist h : probing_inv g sh v hist -> probing_inv g (set_health h sh) v hist.
Proof. intros [Hf Hv Hg Hr]. by split. Qed.

Lemma probing_holds id g sh v hist ev : probing id g sh v hist ev -> probing_inv g sh v hist.
Proof.
  induction 1 as [sh0 sh Hf H0 Hb Hs|sh v hist kind w sh' v' acts ev _ [Hf Hv Hg Hr] Hp|sh v hist e ev _ IH|sh v hist ev sh' _ [Hf Hv Hg Hr] He].
  - unfold spawn_path_health in Hs. injection Hs as <- <-. split; [done|done| |done]. cbn. unfold wrap. rewrite Z.mod_small by lia. lia.
  - apply judge_round_spec in Hp as (Hf' & Hg' & _ & _ & Hc); [|done]. destruct (concluded id w sh) as [sweep|]; cbn [from_option].
    + destruct Hc as (-> & _ & n & Hl). split; [done| |by rewrite Hg'|].
      * unfold judged. rewrite fold_left_app. cbn. by rewrite Hv.
      * rewrite Hg', Hl. intros Heq _. by rewrite Heq, Z.eqb_refl.
    + destruct Hc as [-> Hl]. rewrite app_nil_r. split; [done|done|by rewrite Hg'|]. by rewrite Hg', Hl.
  - pose proof (act_on_spec [e] sh) as Ha. destruct (act_on [e] sh) as [sh2 more]. destruct Ha as [-> _]. cbn [fst]. by apply announced_inv.
  - destruct He as [sh src gw H1 H2|sh Hb|sh kind g' w v2 sh2 v2' acts ev2 Hne Hp|sh h].
    + split; [|done|done|done]. destruct Hf as (Ha & _). split; [done|]. by intros src' gw' [= <- <-].
    + split; [done|done|cbn; unfold wrap; rewrite Z.mod_small; lia|]. cbn. unfold wrap. rewrite Z.mod_small by lia. lia.
    + apply judge_round_spec in Hp as (Hf' & Hg' & _ & _ & Hc); [|done]. split; [done|done|by rewrite Hg'|]. rewrite Hg'. intros Heq Hne'.
      assert (leg_health sh2 = leg_health sh) as ->; [|by apply Hr]. destruct (concluded id w sh) as [sweep|]; [|by destruct Hc].
      destruct Hc as (_ & _ & n & ->). by rewrite (proj2 (Z.eqb_neq _ _)) by congruence.
    + by apply announced_inv.
Qed.

(** The bond after the acts of a round. *)
Definition obeyed (budget : nat -> Z) (b : MultiHopBundle) (acts : list Act) : MultiHopBundle := fold_left (obey budget) acts b.

Lemma obeyed_quiet budget b acts : (forall legs, KeepOff legs ∉ acts) -> obeyed budget b acts = b.
Proof.
  unfold obeyed. revert b. induction acts as [|a acts IH]; intros b Hk; [done|]. cbn [fold_left]. rewrite IH; [|intros legs ?; by apply (Hk legs); right].
  destruct a; [done| |done]. by destruct (Hk legs0); left.
Qed.

Lemma obeyed_round budget b sent legs more : (forall legs', KeepOff legs' ∉ sent) -> Forall (eq NotifyOverlap) more ->
  obeyed budget b ((sent ++ [KeepOff legs]) ++ more) = set_unresponsive_legs legs budget b.
Proof.
  intros Hs Hm. unfold obeyed. rewrite !fold_left_app. fold (obeyed budget b sent). rewrite obeyed_quiet by done. cbn [fold_left obey].
  apply obeyed_quiet. intros legs' Hin. rewrite Forall_forall in Hm. by apply Hm in Hin.
Qed.

(** The plan a bond computes for a verdict gives no packet to a leg it names, unless it names every leg the plan could use. *)
Lemma verdict_routes legs budget b hash cursor len leg : 0 < length (exits b) -> unresponsive b <> legs ->
  route hash cursor len (routing (set_unresponsive_legs legs budget b)) = Some leg ->
  leg ∉ legs \/ forall leg', kept (sample budget (length (exits b))) leg' -> leg' ∈ legs.
Proof.
  intros Hl Hne. destruct (verdict_spec legs budget b) as (_ & _ & ->). rewrite bool_decide_eq_false_2 by done. intros Hroute.
  assert (Hp : planned (sample budget (length (exits b))) legs (from_budgets (sample budget (length (exits b))) legs)) by (apply planned_of; by rewrite length_sample).
  destruct (route_spec _ _ _ hash cursor len Hp) as (leg' & Hr & Hu & _). rewrite Hroute in Hr. injection Hr as <-. by apply (pl_usable _ _ _ Hp) in Hu as [_ ?].
Qed.


(** Two legs, the second of which answers nothing. *)
Definition half_dead (base : Z) : World :=
  mkWorld true (Some [1369; 1369]%Z) true [1; 0] (fun _ _ => true) [probe_seq base 0 false; probe_seq base 0 true] true 1369.

Definition two_rounds : option (ProberShared * LegVerdicts * list HealthEvent) :=
  let '(sh, g) := spawn_path_health (set_endpoints 0x0A420005 0x0A420001 prober_new) in
  '(sh, v, _, _) ← judge_round 7 Seal g (half_dead 0) sh verdicts_default;
  '(sh, v, _, ev) ← judge_round 7 Confirm g (half_dead 4) sh v;
  Some (sh, v, ev).

Lemma two_rounds_convict : match two_rounds with
  | Some (sh, v, ev) => silent v = [1] /\ leg_health sh = mkLegHealth 2 [1] [] /\ ev = []
  | None => False
  end.
Proof. vm_compute. done. Qed.

