(* ===== verification/MigrationWatchdog.v ===== *)
(** The migration watchdog ([crates/warrenguard-transport/src/migration_watchdog.rs]): what the client
    does after a default-route change, from the probe of the migrated path over the forced redial to the escalation.

    The platform behind [MigrationIo] is a class: a world with a clock, whose answers it gives.  Each call is
    logged with the time it ended, and the theorems are about that log.  A loop is bounded by its deadline: fuel is
    the number of rounds that fit in it, and the theorems show it is enough. *)

From S2P Require Import Prelude.

Definition ROUTE_SETTLE : Z := 250 * 1000000.
Definition PROBE_INTERVAL : Z := 250 * 1000000.
Definition MIGRATION_TIMEOUT : Z := from_secs 3.
Definition ESCALATE_TIMEOUT : Z := from_secs 30.

Record RxSample := mkRxSample { sample_id : Z; rx_datagrams : Z }.

(** A wake of [select!] between a timer and the route events. *)
Inductive Wake := TimerFired | RouteEvent (alive : bool).

(** ** The platform *)

Class MigrationIo (W : Type) := {
  now : W -> Z;
  sleep : Z -> W -> W;
  (** [next_route_event], alone and against a timer that fires at the deadline *)
  next_route_event : W -> bool * W;
  route_event_until : Z -> W -> Wake * W;
  has_v4_default_route : W -> bool * W;
  nudge_bypass : W -> W;
  session_can_migrate : W -> bool;
  ensure_route_escape : W -> bool * W;
  rebind_endpoint : W -> W;
  reclaim_escape : W -> W;
  send_probe : W -> W;
  rx_sample : W -> option RxSample;
  force_reconnect : W -> bool * W;
  escalate : W -> W;
  (** the route events still to come before a deadline *)
  events_before : Z -> W -> nat;
}.

(** Time passes: a sleep lasts at least what it was asked, a call takes no negative time, a timer fires at its deadline, and only finitely
    many events come before it.  The last is what the loops over [select!] rely on: a platform whose events are always ready when the timer
    is, and always win, is left out. *)
Class ClockLaws (W : Type) `{Io : MigrationIo W} := {
  sleep_law d w : now w + d <= now (sleep d w);
  probe_law w : now w <= now (send_probe w);
  escalate_law w : now w <= now (escalate w);
  timer_law d w w' : route_event_until d w = (TimerFired, w') -> d <= now w';
  event_law d w w' alive : route_event_until d w = (RouteEvent alive, w') -> (events_before d w' < events_before d w)%nat;
  route_law d w : (events_before d (snd (has_v4_default_route w)) <= events_before d w)%nat;
}.

(** ** The log *)

Inductive Act :=
| RouteAnswer (present : bool)
| Woke (wake : Wake)
| Nudged
| CanMigrate (yes : bool)
| Escape (established : bool)
| Rebound
| Reclaimed
| Probed
| Sampled (s : option RxSample)
| Reconnect (had_session : bool)
| Escalate.

Section Watchdog.
Context {W : Type} `{Io : MigrationIo W}.

Record Entry := mkEntry { at_time : Z; act : Act }.

(** State and log; [None] is a loop that ran out of fuel. *)
Definition IO (A : Type) : Type := W -> option (A * W * list Entry).

Definition ret {A} (a : A) : IO A := fun w => Some (a, w, []).
Definition bind {A B} (m : IO A) (f : A -> IO B) : IO B := fun w =>
  match m w with
  | None => None
  | Some (a, w, l) => match f a w with None => None | Some (b, w, l') => Some (b, w, l ++ l') end
  end.

Definition call {A} (f : W -> A * W) (log : A -> Act) : IO A := fun w =>
  let '(a, w) := f w in Some (a, w, [mkEntry (now w) (log a)]).
Definition ask {A} (f : W -> A) (log : A -> Act) : IO A := call (fun w => (f w, w)) log.
Definition tell (f : W -> W) (a : Act) : IO unit := call (fun w => (tt, f w)) (fun _ => a).
Definition clock : IO Z := fun w => Some (now w, w, []).
Definition pause (d : Z) : IO unit := fun w => Some (tt, sleep d w, []).

#[local] Notation "x <- m ; k" := (bind m (fun x => k)) (at level 20, m at level 100, k at level 200).
#[local] Notation "m ;; k" := (bind m (fun _ => k)) (at level 100, k at level 200).

(** ** The loops *)

Definition rx_advanced (base cur : option RxSample) : bool :=
  match base, cur with
  | Some b, Some c => if sample_id b =? sample_id c then negb (rx_datagrams c =? rx_datagrams b) else negb (sample_id b =? sample_id c)
  | None, Some _ => true
  | _, None => false
  end.

Fixpoint probe_loop (fuel : nat) (base : option RxSample) (deadline : Z) : IO bool :=
  match fuel with
  | O => fun _ => None
  | S fuel =>
      t <- clock;
      if deadline <=? t then ret false
      else
        tell send_probe Probed;; pause PROBE_INTERVAL;; cur <- ask rx_sample Sampled;
        if rx_advanced base cur then ret true else probe_loop fuel base deadline
  end.

(** The rounds of [PROBE_INTERVAL] that fit in the window, and one to see it over. *)
Definition probe_fuel (window : Z) : nat := S (Z.to_nat ((window + PROBE_INTERVAL - 1) / PROBE_INTERVAL)).

Definition probe_until (window : Z) : IO bool :=
  base <- ask rx_sample Sampled; t <- clock; probe_loop (probe_fuel window) base (t + window).

Inductive ParkExit := RouteBack | StillV4Less | ParkSourceClosed.

Fixpoint park_loop (fuel : nat) (backstop : Z) : IO ParkExit :=
  match fuel with
  | O => fun _ => None
  | S fuel =>
      wake <- call (route_event_until backstop) Woke;
      match wake with
      | TimerFired => back <- call has_v4_default_route RouteAnswer; ret (if back : bool then RouteBack else StillV4Less)
      | RouteEvent false => ret ParkSourceClosed
      | RouteEvent true =>
          back <- call has_v4_default_route RouteAnswer;
          if back : bool then ret RouteBack else park_loop fuel backstop
      end
  end.

Definition park_for_route_return : IO ParkExit := fun w =>
  let backstop := now w + ESCALATE_TIMEOUT in park_loop (S (events_before backstop w)) backstop w.

Inductive CycleOutcome := Migrated | Reconnected | Escalated | SourceClosed.

Fixpoint recover_loop (fuel : nat) (deadline : Z) : IO CycleOutcome :=
  match fuel with
  | O => fun _ => None
  | S fuel =>
      t <- clock;
      if deadline <=? t then tell escalate Escalate;; ret Escalated
      else
        alive <- probe_until MIGRATION_TIMEOUT;
        if alive : bool then ret Reconnected else recover_loop fuel deadline
  end.

Definition recover_fuel : nat := S (Z.to_nat (ESCALATE_TIMEOUT / MIGRATION_TIMEOUT)).

(** After the redial. *)
Definition recover : IO CycleOutcome := t <- clock; recover_loop recover_fuel (t + ESCALATE_TIMEOUT).

(** With a route: migrate, or redial. *)
Definition verify : IO CycleOutcome :=
  tell nudge_bypass Nudged;;
  can <- ask session_can_migrate CanMigrate;
  if can : bool then
    escape <- call ensure_route_escape Escape;
    if escape : bool then
      tell rebind_endpoint Rebound;; ask rx_sample Sampled;;
      alive <- probe_until MIGRATION_TIMEOUT;
      if alive : bool then tell reclaim_escape Reclaimed;; ret Migrated
      else ask rx_sample Sampled;; call force_reconnect Reconnect;; recover
    else call force_reconnect Reconnect;; recover
  else call force_reconnect Reconnect;; recover.

Definition run_cycle : IO CycleOutcome :=
  route <- call has_v4_default_route RouteAnswer;
  if route : bool then verify
  else
    parked <- park_for_route_return;
    match parked with
    | ParkSourceClosed => ret SourceClosed
    | StillV4Less =>
        alive <- probe_until MIGRATION_TIMEOUT;
        if alive : bool then ret Migrated else tell escalate Escalate;; ret Escalated
    | RouteBack => verify
    end.

(** The burst of events after the first: [true] when the source closed. *)
Fixpoint settle_loop (fuel : nat) (settle : Z) : IO bool :=
  match fuel with
  | O => fun _ => None
  | S fuel =>
      wake <- call (route_event_until settle) Woke;
      match wake with TimerFired => ret false | RouteEvent false => ret true | RouteEvent true => settle_loop fuel settle end
  end.

Definition coalesce : IO bool := fun w =>
  let settle := now w + ROUTE_SETTLE in settle_loop (S (events_before settle w)) settle w.

(** The main loop, for so many bursts: [None] when it is still watching, else why it stopped. *)
Fixpoint run_watchdog (bursts : nat) : IO (option CycleOutcome) :=
  match bursts with
  | O => ret None
  | S bursts =>
      alive <- call next_route_event (fun alive => Woke (RouteEvent alive));
      if alive : bool then
        closed <- coalesce;
        if closed : bool then ret (Some SourceClosed)
        else
          outcome <- run_cycle;
          match outcome with
          | Escalated | SourceClosed => ret (Some outcome)
          | _ => run_watchdog bursts
          end
      else ret (Some SourceClosed)
  end.

(** ** What a log looks like *)

Definition acts (l : list Entry) : list Act := act <$> l.
Definition probe_act (a : Act) : Prop := match a with Probed | Sampled _ => True | _ => False end.
Definition wait_act (a : Act) : Prop := match a with RouteAnswer _ | Woke _ => True | _ => False end.

(** Rounds of a probe, a wait of [PROBE_INTERVAL] at least and a sample that did not move past the baseline. *)
Inductive rounds (base : option RxSample) : list Entry -> Prop :=
| rounds_none : rounds base []
| rounds_more t t' cur l : t + PROBE_INTERVAL <= t' -> rx_advanced base cur = false -> rounds base l ->
    rounds base (mkEntry t Probed :: mkEntry t' (Sampled cur) :: l).

(** A probe window: the first sample is the baseline; no later one moved past it until the last, which did, or until [MIGRATION_TIMEOUT]
    after the baseline, when the last was taken. *)
Definition window_log (alive : bool) (l : list Entry) : Prop :=
  exists t base quiet tail, l = mkEntry t (Sampled base) :: quiet ++ tail /\ rounds base quiet /\
    if alive then exists u u' cur, tail = [mkEntry u Probed; mkEntry u' (Sampled cur)] /\ rx_advanced base cur = true
    else tail = [] /\ exists e, last quiet = Some e /\ t + MIGRATION_TIMEOUT <= at_time e.

(** Windows without an answer. *)
Inductive dead_windows : list Entry -> Prop :=
| dead_none : dead_windows []
| dead_more l l' : window_log false l -> dead_windows l' -> dead_windows (l ++ l').

(** After a redial at [start]. *)
Inductive recover_log (start : Z) : CycleOutcome -> list Entry -> Prop :=
| recovered l l' : dead_windows l -> window_log true l' -> recover_log start Reconnected (l ++ l')
| given_up l t : dead_windows l -> start + ESCALATE_TIMEOUT <= t -> recover_log start Escalated (l ++ [mkEntry t Escalate]).

(** The redial and what follows. *)
Inductive redial_log : CycleOutcome -> list Entry -> Prop :=
| redialled t had out l : recover_log t out l -> redial_log out (mkEntry t (Reconnect had) :: l).

Inductive verify_log : CycleOutcome -> list Entry -> Prop :=
| over_tcp t t' out l : redial_log out l -> verify_log out (mkEntry t Nudged :: mkEntry t' (CanMigrate false) :: l)
| no_escape t t' u out l : redial_log out l -> verify_log out (mkEntry t Nudged :: mkEntry t' (CanMigrate true) :: mkEntry u (Escape false) :: l)
| rebound_dead t t' u x y s s' z p out l : window_log false p -> redial_log out l ->
    verify_log out ([mkEntry t Nudged; mkEntry t' (CanMigrate true); mkEntry u (Escape true); mkEntry x Rebound; mkEntry y (Sampled s)] ++ p ++ mkEntry z (Sampled s') :: l)
| rebound_alive t t' u x y s z p : window_log true p ->
    verify_log Migrated ([mkEntry t Nudged; mkEntry t' (CanMigrate true); mkEntry u (Escape true); mkEntry x Rebound; mkEntry y (Sampled s)] ++ p ++ [mkEntry z Reclaimed]).

Inductive cycle_log : CycleOutcome -> list Entry -> Prop :=
| with_route l t out l' : Forall (fun e => wait_act (act e)) l -> verify_log out l' -> cycle_log out (l ++ mkEntry t (RouteAnswer true) :: l')
| source_closed l t : Forall (fun e => wait_act (act e)) l -> cycle_log SourceClosed (l ++ [mkEntry t (Woke (RouteEvent false))])
| no_route_alive l t l' : Forall (fun e => wait_act (act e)) l -> window_log true l' -> cycle_log Migrated (l ++ mkEntry t (RouteAnswer false) :: l')
| no_route_dead t0 l tw t l' t' : Forall (fun e => wait_act (act e)) l -> t0 + ESCALATE_TIMEOUT <= tw -> window_log false l' ->
    cycle_log Escalated (mkEntry t0 (RouteAnswer false) :: l ++ mkEntry tw (Woke TimerFired) :: mkEntry t (RouteAnswer false) :: l' ++ [mkEntry t' Escalate]).

(** ** The loops end *)

Context {Laws : ClockLaws W}.

Lemma probe_loop_runs fuel base deadline w : deadline <= now w + Z.of_nat (pred fuel) * PROBE_INTERVAL -> (0 < fuel)%nat ->
  exists r w' quiet tail, probe_loop fuel base deadline w = Some (r, w', quiet ++ tail) /\ rounds base quiet /\
    if r then exists u u' cur, tail = [mkEntry u Probed; mkEntry u' (Sampled cur)] /\ rx_advanced base cur = true
    else tail = [] /\ deadline <= now w' /\ (quiet = [] /\ w' = w \/ exists e, last quiet = Some e /\ at_time e = now w').
Proof using Laws.
  revert w. induction fuel as [|fuel IH]; intros w Hf H0; [lia|]. cbn [probe_loop pred] in *. unfold bind at 1, clock at 1.
  destruct (Z.leb_spec deadline (now w)) as [Hd|Hd].
  { exists false, w, [], []. split; [done|]. split; [constructor|]. split; [done|]. split; [done|by left]. }
  unfold bind, tell, call, ask, pause. cbn zeta. set (w1 := sleep PROBE_INTERVAL (send_probe w)).
  pose proof (sleep_law PROBE_INTERVAL (send_probe w)) as Hw1. fold w1 in Hw1. pose proof (probe_law w) as Hw0.
  unfold call. cbn [app]. destruct (rx_advanced base (rx_sample w1)) eqn:Ea.
  { exists true, w1, []. eexists. split; [reflexivity|]. split; [constructor|]. do 3 eexists. split; [reflexivity|done]. }
  destruct fuel as [|fuel]; [cbn in Hf; lia|].
  destruct (IH w1) as (r & w' & quiet & tail & -> & Hq & Hr); [cbn [pred]; lia|lia|].
  set (round := [mkEntry (now (send_probe w)) Probed; mkEntry (now w1) (Sampled (rx_sample w1))]).
  exists r, w', (round ++ quiet), tail. split; [reflexivity|]. split; [by constructor|]. destruct r; [done|].
  destruct Hr as (Ht & Hnow & Hl). split; [done|]. split; [done|]. right. destruct Hl as [[-> ->]|(e & He & Hte)].
  - by exists (mkEntry (now w1) (Sampled (rx_sample w1))).
  - exists e. split; [|done]. by rewrite last_app, He.
Qed.

Lemma probe_until_runs w :
  exists r w' l, probe_until MIGRATION_TIMEOUT w = Some (r, w', l) /\ window_log r l /\ (r = false -> now w + MIGRATION_TIMEOUT <= now w').
Proof using Laws.
  unfold probe_until, bind, ask, call, clock. cbn zeta.
  destruct (probe_loop_runs (probe_fuel MIGRATION_TIMEOUT) (rx_sample w) (now w + MIGRATION_TIMEOUT) w) as (r & w' & quiet & tail & -> & Hq & Hr); [|unfold probe_fuel; lia|].
  { change (Z.of_nat (pred (probe_fuel MIGRATION_TIMEOUT)) * PROBE_INTERVAL) with MIGRATION_TIMEOUT. lia. }
  exists r, w'. eexists. split; [reflexivity|]. split; [|by destruct r; [|intros _; apply Hr]].
  exists (now w), (rx_sample w), quiet, tail. split; [reflexivity|]. split; [done|]. destruct r; [done|].
  destruct Hr as (Ht & Hnow & [[_ ->]|(e & He & Hte)]); split; try done; [unfold MIGRATION_TIMEOUT, from_secs, NANOS_PER_SEC in Hnow; lia|]. exists e. split; [done|lia].
Qed.

Lemma recover_loop_runs fuel deadline w : deadline <= now w + Z.of_nat (pred fuel) * MIGRATION_TIMEOUT -> (0 < fuel)%nat ->
  exists out w' l, recover_loop fuel deadline w = Some (out, w', l) /\ recover_log (deadline - ESCALATE_TIMEOUT) out l.
Proof using Laws.
  revert w. induction fuel as [|fuel IH]; intros w Hf H0; [lia|]. cbn [recover_loop pred] in *. unfold bind at 1, clock at 1.
  destruct (Z.leb_spec deadline (now w)) as [Hd|Hd].
  { unfold bind, tell, call, ret. do 3 eexists. split; [reflexivity|]. cbn [app]. rewrite <- (app_nil_l [mkEntry _ _]).
    apply given_up; [constructor|]. pose proof (escalate_law w). lia. }
  unfold bind at 1. destruct (probe_until_runs w) as (r & w1 & l & -> & Hl & Hr). destruct r.
  { unfold ret. do 3 eexists. split; [reflexivity|]. rewrite app_nil_r. rewrite <- (app_nil_l l). by apply recovered; [constructor|]. }
  specialize (Hr eq_refl). destruct fuel as [|fuel]; [cbn in Hf; lia|].
  destruct (IH w1) as (out & w' & l' & -> & Hl'); [cbn [pred]; lia|lia|]. do 3 eexists. split; [reflexivity|]. cbn [app].
  destruct Hl' as [m m' Hd' Ha|m t Hd' Ht]; rewrite app_assoc; constructor; try done; by constructor.
Qed.

Lemma redial_runs w : exists out w' l, bind (call force_reconnect Reconnect) (fun _ => recover) w = Some (out, w', l) /\ redial_log out l.
Proof using Laws.
  unfold bind at 1, call. destruct (force_reconnect w) as [had w1]. unfold recover, bind, clock.
  destruct (recover_loop_runs recover_fuel (now w1 + ESCALATE_TIMEOUT) w1) as (out & w' & l & -> & Hl); [|unfold recover_fuel; lia|].
  { change (Z.of_nat (pred recover_fuel) * MIGRATION_TIMEOUT) with ESCALATE_TIMEOUT. lia. }
  do 3 eexists. split; [reflexivity|]. cbn [app]. constructor. by replace (now w1 + ESCALATE_TIMEOUT - ESCALATE_TIMEOUT) with (now w1) in Hl by lia.
Qed.

Lemma verify_runs w : exists out w' l, verify w = Some (out, w', l) /\ verify_log out l.
Proof using Laws.
  unfold verify. unfold bind at 1, tell at 1, call at 1. set (w1 := nudge_bypass w). unfold bind at 1, ask at 1, call at 1.
  destruct (session_can_migrate w1).
  2:{ destruct (redial_runs w1) as (out & w' & l & -> & Hl). do 3 eexists. split; [reflexivity|]. by constructor. }
  unfold bind at 1, call at 1. destruct (ensure_route_escape w1) as [[] w2].
  2:{ destruct (redial_runs w2) as (out & w' & l & -> & Hl). do 3 eexists. split; [reflexivity|]. by constructor. }
  unfold bind at 1, tell at 1, call at 1. set (w3 := rebind_endpoint w2). unfold bind at 1, ask at 1, call at 1. unfold bind at 1.
  destruct (probe_until_runs w3) as ([] & w4 & p & -> & Hp & _).
  - unfold bind, tell, call, ret. do 3 eexists. split; [reflexivity|]. cbn [app]. by apply rebound_alive.
  - unfold bind at 1, ask at 1, call at 1. destruct (redial_runs w4) as (out & w' & l & -> & Hl). do 3 eexists. split; [reflexivity|]. cbn [app].
    by apply rebound_dead.
Qed.

(** How the wait for a route ends. *)
Definition park_log (backstop : Z) (r : ParkExit) (l : list Entry) : Prop :=
  exists l', Forall (fun e => wait_act (act e)) l' /\
    match r with
    | RouteBack => exists t, l = l' ++ [mkEntry t (RouteAnswer true)]
    | StillV4Less => exists tw t, backstop <= tw /\ l = l' ++ [mkEntry tw (Woke TimerFired); mkEntry t (RouteAnswer false)]
    | ParkSourceClosed => exists t, l = l' ++ [mkEntry t (Woke (RouteEvent false))]
    end.

Lemma park_log_after backstop r h l : Forall (fun e => wait_act (act e)) h -> park_log backstop r l -> park_log backstop r (h ++ l).
Proof using Type.
  intros Hh (l' & Hl & Hr). exists (h ++ l'). split; [by apply Forall_app|].
  destruct r; [destruct Hr as (t & ->); exists t|destruct Hr as (tw & t & ? & ->); exists tw, t; split; [done|]|destruct Hr as (t & ->); exists t]; by rewrite app_assoc.
Qed.

Lemma park_loop_runs fuel backstop w : (events_before backstop w < fuel)%nat ->
  exists r w' l, park_loop fuel backstop w = Some (r, w', l) /\ park_log backstop r l.
Proof using Laws.
  revert w. induction fuel as [|fuel IH]; intros w Hf; [lia|]. cbn [park_loop]. unfold bind at 1, call at 1.
  destruct (route_event_until backstop w) as [[|[]] w1] eqn:Ew.
  - apply timer_law in Ew. unfold bind, call, ret. destruct (has_v4_default_route w1) as [[] w2]; do 3 eexists; (split; [cbn; reflexivity|]).
    + eexists [mkEntry _ (Woke TimerFired)]. split; [by repeat constructor|]. by eexists.
    + exists []. split; [done|]. by do 2 eexists.
  - apply event_law in Ew. unfold bind at 1, call at 1. pose proof (route_law backstop w1) as Hrl. destruct (has_v4_default_route w1) as [[] w2]; cbn [snd] in Hrl.
    + unfold ret. do 3 eexists. split; [reflexivity|]. eexists [mkEntry _ (Woke (RouteEvent true))]. split; [by repeat constructor|]. by eexists.
    + destruct (IH w2) as (r & w' & l & -> & Hl); [lia|]. do 3 eexists. split; [reflexivity|].
      apply (park_log_after backstop r [_; _]); [by repeat constructor|done].
  - unfold ret. do 3 eexists. split; [reflexivity|]. exists []. split; [done|]. by eexists.
Qed.

Lemma run_cycle_log w : exists out w' l, run_cycle w = Some (out, w', l) /\ cycle_log out l.
Proof using Laws.
  unfold run_cycle. unfold bind at 1, call at 1. destruct (has_v4_default_route w) as [[] w1].
  { destruct (verify_runs w1) as (out & w' & l & -> & Hl). do 3 eexists. split; [reflexivity|]. by apply (with_route []). }
  unfold bind at 1, park_for_route_return. destruct (park_loop_runs (S (events_before (now w1 + ESCALATE_TIMEOUT) w1)) (now w1 + ESCALATE_TIMEOUT) w1) as
    (r & w2 & l & -> & l' & Hl & Hr); [lia|].
  assert (Hl0 : Forall (fun e => wait_act (act e)) (mkEntry (now w1) (RouteAnswer false) :: l')) by (by constructor). destruct r.
  - destruct Hr as (t & ->). destruct (verify_runs w2) as (out & w' & lv & -> & Hv). do 3 eexists. split; [reflexivity|]. rewrite <- app_assoc. by apply (with_route (_ :: l')).
  - destruct Hr as (tw & t & Htw & ->). unfold bind at 1. destruct (probe_until_runs w2) as ([] & w3 & p & -> & Hp & _).
    + unfold ret. do 3 eexists. split; [reflexivity|]. rewrite app_nil_r, <- app_assoc. cbn [app].
      change (l' ++ mkEntry tw (Woke TimerFired) :: mkEntry t (RouteAnswer false) :: p) with (l' ++ [mkEntry tw (Woke TimerFired)] ++ mkEntry t (RouteAnswer false) :: p).
      rewrite (app_assoc l'). apply (no_route_alive (_ :: l' ++ [_])); [|done]. apply Forall_cons. split; [done|]. apply Forall_app. by split; [|repeat constructor].
    + unfold bind, tell, call, ret. do 3 eexists. split; [reflexivity|]. rewrite <- app_assoc. cbn [app]. by apply no_route_dead.
  - destruct Hr as (t & ->). unfold ret. do 3 eexists. split; [reflexivity|]. rewrite app_nil_r. by apply (source_closed (_ :: l')).
Qed.

(** ** What follows from the shape *)

Definition is_reconnect (a : Act) : bool := match a with Reconnect _ => true | _ => false end.
Definition is_escalate (a : Act) : bool := match a with Escalate => true | _ => false end.
Definition is_rebound (a : Act) : bool := match a with Rebound => true | _ => false end.
Definition tally (p : Act -> bool) (l : list Entry) : nat := length (List.filter p (acts l)).

Lemma tally_app p l l' : tally p (l ++ l') = (tally p l + tally p l')%nat.
Proof using Type. unfold tally, acts. by rewrite fmap_app, List.filter_app, length_app. Qed.

Lemma tally_cons p e l : tally p (e :: l) = ((if p (act e) then 1 else 0) + tally p l)%nat.
Proof using Type. unfold tally, acts. cbn. by destruct (p (act e)). Qed.

Lemma tally_none (P : Act -> Prop) p l : Forall (fun e => P (act e)) l -> (forall a, P a -> p a = false) -> tally p l = 0%nat.
Proof using Type. intros Hl Hp. induction Hl as [|e l He _ IH]; [done|]. by rewrite tally_cons, Hp, IH. Qed.

Lemma tally_elem p l a : tally p l = 0%nat -> p a = true -> a ∉ acts l.
Proof using Type.
  intros Ht Hp Hin. induction l as [|e l IH]; [by apply elem_of_nil in Hin|]. rewrite tally_cons in Ht. cbn in Hin. apply elem_of_cons in Hin as [->|Hin].
  - rewrite Hp in Ht. lia.
  - apply IH; [|done]. lia.
Qed.

Lemma rounds_acts base l : rounds base l -> Forall (fun e => probe_act (act e)) l.
Proof using Type. induction 1; by repeat constructor. Qed.

Lemma window_acts b l : window_log b l -> Forall (fun e => probe_act (act e)) l.
Proof using Type.
  intros (t & base & quiet & tail & -> & Hq%rounds_acts & H). constructor; [done|]. apply Forall_app. split; [done|].
  destruct b; [destruct H as (u & u' & cur & -> & _); by repeat constructor|by destruct H as [-> _]].
Qed.

Lemma dead_acts l : dead_windows l -> Forall (fun e => probe_act (act e)) l.
Proof using Type. induction 1; [constructor|]. apply Forall_app. split; [by eapply window_acts|done]. Qed.

(** The sample a window started from and the one that moved past it. *)
Definition proof_of_life (l : list Entry) : Prop :=
  exists before base after cur, acts l = before ++ Sampled base :: after /\ Sampled cur ∈ after /\ rx_advanced base cur = true.

Lemma window_alive l l1 l2 : window_log true l -> proof_of_life (l1 ++ l ++ l2).
Proof using Type.
  intros (t & base & quiet & tail & -> & _ & u & u' & cur & -> & Ha). exists (acts l1), base, (acts (quiet ++ [mkEntry u Probed; mkEntry u' (Sampled cur)]) ++ acts l2), cur.
  unfold acts. rewrite !fmap_app. cbn. rewrite fmap_app. split; [done|]. split; [|done]. apply elem_of_app. left. apply elem_of_app. right. cbn. right. by left.
Qed.

Record redial_facts (out : CycleOutcome) (l : list Entry) : Prop := mkRedialFacts {
  rf_reconnect : tally is_reconnect l = 1%nat;
  rf_rebound : tally is_rebound l = 0%nat;
  rf_escalate : tally is_escalate l = (match out with Escalated => 1 | _ => 0 end)%nat;
  rf_out : out = Reconnected \/ out = Escalated;
  rf_alive l1 : out = Reconnected -> proof_of_life (l1 ++ l);
  rf_given_up : out = Escalated -> exists t had l' t', l = mkEntry t (Reconnect had) :: l' ++ [mkEntry t' Escalate] /\ dead_windows l' /\ t + ESCALATE_TIMEOUT <= t';
  rf_reclaimed : Reclaimed ∉ acts l;
}.

Lemma redial_log_facts out l : redial_log out l -> redial_facts out l.
Proof using Type.
  assert (Hp : forall p, (forall a, probe_act a -> p a = false) -> forall l, Forall (fun e => probe_act (act e)) l -> tally p l = 0%nat)
    by (intros p Hp l0 Hl0; by eapply tally_none).
  assert (Hrc : forall l, Forall (fun e => probe_act (act e)) l -> Reclaimed ∉ acts l).
  { intros l0 Hl0 Hin. unfold acts in Hin. apply list_elem_of_fmap in Hin as (e & He & Hin). rewrite Forall_forall in Hl0. specialize (Hl0 e Hin). by rewrite <- He in Hl0. }
  intros [t had out' l0 [m m' Hd Ha|m t' Hd Ht]]; pose proof (dead_acts _ Hd) as Hm.
  - pose proof (window_acts _ _ Ha) as Hm'. split; rewrite ?tally_cons, ?tally_app; cbn [act is_reconnect is_rebound is_escalate]; rewrite ?Hp; try done; try (by intros []).
    + by left.
    + intros l1 _. change (mkEntry t (Reconnect had) :: m ++ m') with ([mkEntry t (Reconnect had)] ++ m ++ m').
      rewrite !app_assoc. rewrite <- (app_nil_r m') at 1. by apply window_alive.
    + cbn. rewrite elem_of_cons. unfold acts. rewrite fmap_app, elem_of_app. intros [?|[H|H]]; [done|by apply Hrc in H..].
  - split; rewrite ?tally_cons, ?tally_app, ?tally_cons; cbn [act is_reconnect is_rebound is_escalate]; rewrite ?Hp; try done; try (by intros []).
    + by right.
    + intros _. by exists t, had, m, t'.
    + cbn. rewrite elem_of_cons. unfold acts. rewrite fmap_app, elem_of_app. intros [?|[H|H]]; [done|by apply Hrc in H|by apply list_elem_of_singleton in H].
Qed.

Lemma pivot_unique {A} (x : A) (a b pre post : list A) : a ++ x :: b = pre ++ x :: post -> x ∉ a -> x ∉ b -> pre = a.
Proof using Type.
  revert pre. induction a as [|y a IH]; intros [|z pre] Heq Ha Hb; cbn in Heq; try done.
  - injection Heq as -> Hb'. destruct Hb. rewrite Hb', elem_of_app. right. by left.
  - injection Heq as -> _. destruct Ha. by left.
  - injection Heq as -> Heq. f_equal. apply IH; [done| |done]. intros Hin. apply Ha. by right.
Qed.

Lemma no_rebound l : tally is_rebound l = 0%nat -> forall pre post, acts l = pre ++ Rebound :: post -> False.
Proof using Type. intros Ht pre post Heq. apply (tally_elem is_rebound l Rebound); [done..|]. rewrite Heq, elem_of_app. right. by left. Qed.

(** A verdict that the session died, and on what evidence: since the redial, thirty seconds before, nothing but probe windows without an
    answer; or no route when the cycle began, none thirty seconds later, and a whole window without an answer after that. *)
Definition given_up_for (l : list Entry) : Prop :=
  (exists l1 t had l' t', l = l1 ++ mkEntry t (Reconnect had) :: l' ++ [mkEntry t' Escalate] /\ dead_windows l' /\ t + ESCALATE_TIMEOUT <= t') \/
  (exists l1 t0 parked tw t l' t', l = l1 ++ mkEntry t0 (RouteAnswer false) :: parked ++
       mkEntry tw (Woke TimerFired) :: mkEntry t (RouteAnswer false) :: l' ++ [mkEntry t' Escalate] /\
     Forall (fun e => wait_act (act e)) parked /\ t0 + ESCALATE_TIMEOUT <= tw /\ window_log false l').

Record cycle_facts (out : CycleOutcome) (l : list Entry) : Prop := mkCycleFacts {
  cf_rebind pre post : acts l = pre ++ Rebound :: post -> exists pre', pre = pre' ++ [RouteAnswer true; Nudged; CanMigrate true; Escape true];
  cf_reconnect : match out with Reconnected => tally is_reconnect l = 1 | Escalated => (tally is_reconnect l <= 1) | _ => tally is_reconnect l = 0 end%nat;
  cf_escalate : tally is_escalate l = (match out with Escalated => 1 | _ => 0 end)%nat;
  cf_alive : out = Migrated \/ out = Reconnected -> proof_of_life l;
  cf_given_up : out = Escalated -> given_up_for l;
  cf_closed : out = SourceClosed -> exists l' t, l = l' ++ [mkEntry t (Woke (RouteEvent false))];
}.

(** The facts of a cycle whose tail is a redial, after a head without a redial or an escalation. *)
Lemma redial_cycle out h l : redial_facts out l -> tally is_reconnect h = 0%nat -> tally is_escalate h = 0%nat ->
  (forall pre post, acts (h ++ l) = pre ++ Rebound :: post -> exists pre', pre = pre' ++ [RouteAnswer true; Nudged; CanMigrate true; Escape true]) ->
  cycle_facts out (h ++ l).
Proof using Type.
  intros F Hr He Hb. pose proof (rf_reconnect _ _ F) as F1. pose proof (rf_escalate _ _ F) as F3.
  split; rewrite ?tally_app, ?Hr, ?He, ?F1, ?F3; [done| | | | |].
  - by destruct (rf_out _ _ F) as [-> | ->].
  - done.
  - intros Ho. apply (rf_alive _ _ F). destruct Ho as [-> | ->]; [|done]. by destruct (rf_out _ _ F).
  - intros Ho. destruct (rf_given_up _ _ F Ho) as (t & had & l' & t' & -> & Hdw & Ht). left. by exists h, t, had, l', t'.
  - intros ->. by destruct (rf_out _ _ F).
Qed.

Lemma quiet_tally (p : Act -> bool) l : (forall a, wait_act a -> p a = false) -> Forall (fun e => wait_act (act e)) l -> tally p l = 0%nat.
Proof using Type. intros Hp Hl. by eapply tally_none. Qed.

Lemma probing_tally (p : Act -> bool) b l : (forall a, probe_act a -> p a = false) -> window_log b l -> tally p l = 0%nat.
Proof using Type. intros Hp Hl. eapply tally_none; [by eapply window_acts|done]. Qed.

#[local] Ltac count := repeat (rewrite tally_app || rewrite tally_cons); cbn [act is_reconnect is_rebound is_escalate];
  repeat match goal with
  | H : Forall _ ?l |- context [tally ?p ?l] => rewrite (quiet_tally p l ltac:(by intros []) H)
  | H : window_log _ ?l |- context [tally ?p ?l] => rewrite (probing_tally p _ l ltac:(by intros []) H)
  end;
  repeat match goal with H : redial_facts _ _ |- _ => rewrite ?(rf_rebound _ _ H), ?(rf_reconnect _ _ H), ?(rf_escalate _ _ H) end; cbn.

Lemma rebind_after w t u u' v x rest : Forall (fun e => wait_act (act e)) w -> tally is_rebound rest = 0%nat ->
  forall pre post, acts (w ++ [mkEntry t (RouteAnswer true); mkEntry u Nudged; mkEntry u' (CanMigrate true); mkEntry v (Escape true)] ++ mkEntry x Rebound :: rest) = pre ++ Rebound :: post ->
  exists pre', pre = pre' ++ [RouteAnswer true; Nudged; CanMigrate true; Escape true].
Proof using Type.
  intros Hw Hr pre post Heq. exists (acts w). unfold acts in Heq. rewrite !fmap_app in Heq. cbn in Heq.
  change (RouteAnswer true :: Nudged :: CanMigrate true :: Escape true :: Rebound :: (act <$> rest))
    with ([RouteAnswer true; Nudged; CanMigrate true; Escape true] ++ Rebound :: acts rest) in Heq. rewrite app_assoc in Heq.
  apply pivot_unique in Heq; [done| |by apply (tally_elem is_rebound)].
  rewrite elem_of_app. intros [H|H]; [|by do 4 (apply elem_of_cons in H as [?|H]; [done|]); apply elem_of_nil in H].
  apply (tally_elem is_rebound w Rebound); [by count|done|done].
Qed.

Lemma verify_facts w t out l : Forall (fun e => wait_act (act e)) w -> verify_log out l -> cycle_facts out (w ++ mkEntry t (RouteAnswer true) :: l).
Proof using Type.
  intros Hw [u u' o r Hr|u u' v o r Hr|u u' v x y s s' z p o r Hp Hr|u u' v x y s z p Hp]; try pose proof (redial_log_facts _ _ Hr) as F.
  - replace (w ++ _) with ((w ++ [mkEntry t (RouteAnswer true); mkEntry u Nudged; mkEntry u' (CanMigrate false)]) ++ r) by by rewrite <- app_assoc.
    apply redial_cycle; [done|by count..|]. intros pre post Heq. exfalso. eapply no_rebound; [|done]. by count.
  - replace (w ++ _) with ((w ++ [mkEntry t (RouteAnswer true); mkEntry u Nudged; mkEntry u' (CanMigrate true); mkEntry v (Escape false)]) ++ r) by by rewrite <- app_assoc.
    apply redial_cycle; [done|by count..|]. intros pre post Heq. exfalso. eapply no_rebound; [|done]. by count.
  - match goal with |- cycle_facts _ ?l => replace l with ((w ++ [mkEntry t (RouteAnswer true); mkEntry u Nudged; mkEntry u' (CanMigrate true); mkEntry v (Escape true)] ++
      mkEntry x Rebound :: mkEntry y (Sampled s) :: p ++ [mkEntry z (Sampled s')]) ++ r) by by rewrite <- !app_assoc; cbn; rewrite <- !app_assoc end.
    apply redial_cycle; [done|by count..|]. rewrite <- !app_assoc. cbn [app]. apply (rebind_after w t u u' v x); [done|]. by count.
  - match goal with |- cycle_facts _ ?l => replace l with (w ++ [mkEntry t (RouteAnswer true); mkEntry u Nudged; mkEntry u' (CanMigrate true); mkEntry v (Escape true)] ++
      mkEntry x Rebound :: mkEntry y (Sampled s) :: p ++ [mkEntry z Reclaimed]) by done end.
    split; [|by count|by count| |done|done].
    + apply rebind_after; [done|]. by count.
    + intros _. match goal with |- proof_of_life ?l => replace l with ((w ++ [mkEntry t (RouteAnswer true); mkEntry u Nudged; mkEntry u' (CanMigrate true); mkEntry v (Escape true);
        mkEntry x Rebound; mkEntry y (Sampled s)]) ++ p ++ [mkEntry z Reclaimed]) by by rewrite <- app_assoc end.
      by apply window_alive.
Qed.

Lemma cycle_log_facts out l : cycle_log out l -> cycle_facts out l.
Proof using Type.
  intros [w t out' l' Hw Hv|w t Hw|w t l' Hw Hl|t0 w tw t l' t' Hw Htw Hl].
  - by apply verify_facts.
  - split; try by count.
    + intros pre post Heq. exfalso. eapply no_rebound; [|done]. by count.
    + by intros [].
    + intros _. by exists w, t.
  - split; try by count.
    + intros pre post Heq. exfalso. eapply no_rebound; [|done]. by count.
    + intros _. rewrite <- (app_nil_r l'). change (mkEntry t (RouteAnswer false) :: l' ++ []) with ([mkEntry t (RouteAnswer false)] ++ l' ++ []).
      rewrite app_assoc. by apply window_alive.
  - split; try by count.
    + intros pre post Heq. exfalso. eapply no_rebound; [|done]. by count.
    + count. lia.
    + by intros [].
    + intros _. right. by exists [], t0, w, tw, t, l', t'.
Qed.

(** ** The main loop *)

Definition escaped_rebinds (l : list Entry) : Prop := forall pre post, acts l = pre ++ Rebound :: post ->
  exists pre', pre = pre' ++ [RouteAnswer true; Nudged; CanMigrate true; Escape true].

Lemma escaped_rebinds_app l l' : escaped_rebinds l -> escaped_rebinds l' -> escaped_rebinds (l ++ l').
Proof using Type.
  intros Hl Hl' pre post Heq. unfold acts in Heq. rewrite fmap_app in Heq. apply app_eq_inv in Heq as [(k & H1 & H2)|(k & H1 & H2)].
  - destruct k as [|x k].
    + rewrite app_nil_r in H1. cbn in H2. destruct (Hl' [] post) as (pre' & H); [by unfold acts; rewrite <- H2|]. by destruct pre'.
    + injection H2 as <- _. by apply (Hl pre k).
  - destruct (Hl' k post H2) as (pre' & ->). exists ((act <$> l) ++ pre'). by rewrite H1, app_assoc.
Qed.

Lemma quiet_rebinds l : Forall (fun e => wait_act (act e)) l -> escaped_rebinds l.
Proof using Type. intros Hl pre post Heq. exfalso. eapply no_rebound; [|done]. by count. Qed.

Definition ends_closed (l : list Entry) : Prop := exists l' t, l = l' ++ [mkEntry t (Woke (RouteEvent false))].

Lemma settle_loop_runs fuel settle w : (events_before settle w < fuel)%nat ->
  exists closed w' l, settle_loop fuel settle w = Some (closed, w', l) /\ Forall (fun e => wait_act (act e)) l /\ (closed = true -> ends_closed l) /\
    (closed = false -> settle <= now w').
Proof using Laws.
  revert w. induction fuel as [|fuel IH]; intros w Hf; [lia|]. cbn [settle_loop]. unfold bind at 1, call at 1.
  destruct (route_event_until settle w) as [[|[]] w1] eqn:Ew; unfold ret.
  - do 3 eexists. split; [reflexivity|]. split; [by repeat constructor|]. split; [done|]. intros _. by apply timer_law in Ew.
  - apply event_law in Ew. destruct (IH w1) as (c & w' & l & -> & Hl & Hc & Ht); [lia|]. do 3 eexists. split; [reflexivity|].
    split; [by constructor|]. split; [|done]. intros Hcl. destruct (Hc Hcl) as (l' & t & ->). by eexists (_ :: l'), t.
  - do 3 eexists. split; [reflexivity|]. split; [by repeat constructor|]. split; [|done]. intros _. by eexists [], _.
Qed.

Lemma coalesce_runs w :
  exists closed w' l, coalesce w = Some (closed, w', l) /\ Forall (fun e => wait_act (act e)) l /\ (closed = true -> ends_closed l) /\
    (closed = false -> now w + ROUTE_SETTLE <= now w').
Proof using Laws. apply settle_loop_runs. lia. Qed.

Lemma run_cycle_facts w : exists out w' l, run_cycle w = Some (out, w', l) /\ cycle_facts out l.
Proof using Laws. destruct (run_cycle_log w) as (out & w' & l & -> & Hl). exists out, w', l. split; [done|]. by apply cycle_log_facts. Qed.

(** What a run of the main loop leaves behind, whatever the platform answered. *)
Record run_facts (bursts : nat) (r : option CycleOutcome) (l : list Entry) : Prop := mkRunFacts {
  run_result : match r with None | Some Escalated | Some SourceClosed => True | _ => False end;
  run_rebinds : escaped_rebinds l;
  run_reconnects : (tally is_reconnect l <= bursts)%nat;
  run_escalations : tally is_escalate l = (match r with Some Escalated => 1 | _ => 0 end)%nat;
  run_given_up : r = Some Escalated -> given_up_for l;
  run_closed : r = Some SourceClosed -> ends_closed l;
}.

Lemma given_up_after h l : given_up_for l -> given_up_for (h ++ l).
Proof using Type.
  intros [(l1 & t & had & l' & t' & -> & H)|(l1 & t0 & parked & tw & t & l' & t' & -> & H)].
  - left. exists (h ++ l1), t, had, l', t'. by rewrite <- app_assoc.
  - right. exists (h ++ l1), t0, parked, tw, t, l', t'. by rewrite <- app_assoc.
Qed.

Lemma ends_closed_after h l : ends_closed l -> ends_closed (h ++ l).
Proof using Type. intros (l' & t & ->). exists (h ++ l'), t. by rewrite app_assoc. Qed.

Lemma cycle_run out l n : cycle_facts out l -> out = Escalated \/ out = SourceClosed -> run_facts (S n) (Some out) l.
Proof using Type.
  intros F Ho. pose proof (cf_reconnect _ _ F) as Hr. split; [by destruct Ho as [-> | ->]|exact (cf_rebind _ _ F)|by destruct out; lia|exact (cf_escalate _ _ F)| |].
  - intros [= ->]. by apply (cf_given_up _ _ F).
  - intros [= ->]. by apply (cf_closed _ _ F).
Qed.

Lemma run_after n r h l k : run_facts n r l -> escaped_rebinds h -> (tally is_reconnect h <= k)%nat -> tally is_escalate h = 0%nat -> run_facts (k + n) r (h ++ l).
Proof using Type.
  intros F Hb Hr He. pose proof (run_reconnects _ _ _ F). pose proof (run_escalations _ _ _ F).
  split; rewrite ?tally_app; [apply F|apply escaped_rebinds_app; [done|apply F]|lia|lia| |].
  - intros Hg. apply given_up_after. by apply (run_given_up _ _ _ F).
  - intros Hg. apply ends_closed_after. by apply (run_closed _ _ _ F).
Qed.

Lemma run_watchdog_facts bursts w : exists r w' l, run_watchdog bursts w = Some (r, w', l) /\ run_facts bursts r l.
Proof using Laws.
  revert w. induction bursts as [|n IH]; intros w; cbn [run_watchdog].
  { exists None, w, []. split; [done|]. split; try done. by intros [] ? ?. }
  unfold bind at 1, call at 1. destruct (next_route_event w) as [[] w1]; unfold ret.
  2:{ do 3 eexists. split; [reflexivity|]. cbn [app]. split; [done| |cbn; lia|done|done|by eexists [], _]. apply quiet_rebinds. by repeat constructor. }
  unfold bind at 1. destruct (coalesce_runs w1) as ([] & w2 & l2 & -> & H2 & Hc & _).
  { do 3 eexists. split; [reflexivity|]. rewrite app_nil_r. cbn [app]. split; [done| |by count; lia|by count|done|].
    - apply quiet_rebinds. by constructor.
    - intros _. by apply (ends_closed_after [_]), Hc. }
  unfold bind. destruct (run_cycle_facts w2) as (out & w3 & l3 & -> & F).
  assert (Hq : Forall (fun e => wait_act (act e)) (mkEntry (now w1) (Woke (RouteEvent true)) :: l2)) by by constructor.
  assert (Hh : forall r l m, run_facts m r l -> run_facts m r ((mkEntry (now w1) (Woke (RouteEvent true)) :: l2) ++ l)).
  { intros r l m Fl. apply (run_after m r _ l 0); [done|by apply quiet_rebinds|by rewrite quiet_tally by (done || by intros [])|by apply quiet_tally; [intros []|]]. }
  assert (Hgo : out = Migrated \/ out = Reconnected -> exists r w' l, run_watchdog n w3 = Some (r, w', l) /\ run_facts (S n) r (l3 ++ l)).
  { intros Ho. destruct (IH w3) as (r & w' & l & -> & Fl). exists r, w', l. split; [done|]. pose proof (cf_reconnect _ _ F). pose proof (cf_escalate _ _ F).
    apply (run_after n r l3 l 1); [done|exact (cf_rebind _ _ F)| |]; destruct Ho as [-> | ->]; lia. }
  destruct out.
  1,2: destruct Hgo as (r & w' & l & -> & Fl); [by (left + right)|]; do 3 eexists; split; [reflexivity|]; by apply (Hh r (l3 ++ l)).
  all: do 3 eexists; split; [reflexivity|]; rewrite app_nil_r; apply Hh, cycle_run; [done|by (left + right)].
Qed.

End Watchdog.


(** ** A platform *)

(** A clock, the route events to come, and the time from which the exit answers. *)
Record ToyNet := mkToyNet { toy_now : Z; toy_events : list Z; toy_answers_at : Z }.

Definition toy_at (t : Z) (w : ToyNet) : ToyNet := mkToyNet t (toy_events w) (toy_answers_at w).

#[export] Instance toy_io : MigrationIo ToyNet := {
  now := toy_now;
  sleep d w := toy_at (toy_now w + d) w;
  next_route_event w := match toy_events w with [] => (false, w) | e :: es => (true, mkToyNet (Z.max e (toy_now w)) es (toy_answers_at w)) end;
  route_event_until d w :=
    match toy_events w with
    | e :: es => if e <? d then (RouteEvent true, mkToyNet (Z.max e (toy_now w)) es (toy_answers_at w)) else (TimerFired, toy_at (Z.max d (toy_now w)) w)
    | [] => (TimerFired, toy_at (Z.max d (toy_now w)) w)
    end;
  has_v4_default_route w := (true, w);
  nudge_bypass w := w;
  session_can_migrate _ := true;
  ensure_route_escape w := (true, w);
  rebind_endpoint w := w;
  reclaim_escape w := w;
  send_probe w := w;
  rx_sample w := Some (mkRxSample 1 (if toy_answers_at w <=? toy_now w then toy_now w else 0));
  force_reconnect w := (true, w);
  escalate w := w;
  events_before _ w := length (toy_events w);
}.

#[export] Instance toy_clock : ClockLaws ToyNet.
Proof.
  split; intros; cbn in *; try lia.
  - destruct (toy_events w) as [|e es]; [injection H as <-; cbn; lia|]. destruct (e <? d); [done|]. injection H as <-. cbn. lia.
  - destruct (toy_events w) as [|e es]; [done|]. destruct (e <? d); [|done]. injection H as _ <-. cbn. lia.
Qed.

(** Two changes, one within the settle time of the other, and an exit that answers at once: one cycle, migrated; then the source closes. *)
Definition toy_roaming : ToyNet := mkToyNet 0 [0; 1000] 0.
(** A change after which nothing ever answers. *)
Definition toy_silent : ToyNet := mkToyNet 0 [0] (from_secs 3600).

Definition run_acts {A} (r : option (A * ToyNet * list Entry)) : option (A * list Act) := match r with Some (a, _, l) => Some (a, acts l) | None => None end.

Lemma toy_roaming_run : run_acts (run_watchdog 2 toy_roaming) = Some (Some SourceClosed,
  [Woke (RouteEvent true); Woke (RouteEvent true); Woke TimerFired; RouteAnswer true; Nudged; CanMigrate true; Escape true; Rebound;
   Sampled (Some (mkRxSample 1 250000000)); Sampled (Some (mkRxSample 1 250000000)); Probed; Sampled (Some (mkRxSample 1 500000000)); Reclaimed;
   Woke (RouteEvent false)]).
Proof. vm_compute. reflexivity. Qed.

Lemma toy_silent_run : match run_watchdog 5 toy_silent with Some (r, w, l) => r = Some Escalated /\ toy_now w = 250 * 1000000 + from_secs 33 /\ tally is_reconnect l = 1%nat | None => False end.
Proof. vm_compute. done. Qed.

