(* ===== verification/UplinkAccounting.v ===== *)
(** Every datagram of the exit's uplink is accounted for: the invariant of one pump
    ([UplinkPump.handle]), and the node-wide block that all pumps of the process
    fold into.  A fold is some twenty additions to separate atomics; those of all
    pumps reach the block in any order, and a scrape may come between any two. *)

From S2P Require Import Prelude IpPackets Checksum InnerMtu FlowKeys Control UplinkPump.

(** ** Balance *)

Definition balanced (c : RxCounters) : Prop :=
  datagrams c = to_tun c + decode_errs c + exit_id_mismatches c + session_errs c + open_errs c
    + replays c + control_frames c + dummies c + total (spoof c) + pool_drops c + rate_drops c
    + tun_write_errs c /\
  opened c = to_tun c + control_frames c + dummies c + total (spoof c) + pool_drops c + rate_drops c
    + tun_write_errs c.

Definition tally_le (a b : SpoofTally) : Prop :=
  malformed a <= malformed b /\ v4_mismatch a <= v4_mismatch b /\ v6_link_local a <= v6_link_local b /\
  v6_unallocated a <= v6_unallocated b /\ v6_mismatch a <= v6_mismatch b.

Definition rx_le (a b : RxCounters) : Prop :=
  datagrams a <= datagrams b /\ opened a <= opened b /\ to_tun a <= to_tun b /\
  decode_errs a <= decode_errs b /\ exit_id_mismatches a <= exit_id_mismatches b /\
  session_errs a <= session_errs b /\ session_evicted a <= session_evicted b /\
  open_errs a <= open_errs b /\ replays a <= replays b /\ control_frames a <= control_frames b /\
  dummies a <= dummies b /\ tally_le (spoof a) (spoof b) /\ pool_drops a <= pool_drops b /\
  rate_drops a <= rate_drops b /\ tun_write_errs a <= tun_write_errs b.

(** The reasons of the node-wide block. *)
Definition reasons (m : UplinkMetrics) : Z :=
  dropped_decode m + dropped_exit_id m + dropped_session m + dropped_aead_open m + dropped_replay m
    + dropped_control_frame m + dropped_daita_dummy m + dropped_spoofed_source m
    + dropped_pool_destination m + dropped_rate_limit m + dropped_tun_write m.

Definition sum5 (l : list Z) : Z := match l with [a; b; c; d; e] => a + b + c + d + e | _ => 0 end.

Definition metrics_balanced (m : UplinkMetrics) : Prop :=
  received m = forwarded m + reasons m /\
  length (spoofed_by_class m) = 5%nat /\ dropped_spoofed_source m = sum5 (spoofed_by_class m).

Lemma rx_le_refl c : rx_le c c.
Proof. unfold rx_le, tally_le. lia. Qed.

(** Publishing a balanced reading over a balanced one. *)
Lemma fold_exact m now published :
  metrics_balanced m -> balanced now -> balanced published -> rx_le published now ->
  metrics_balanced (fold m now published) /\
  received (fold m now published) = received m + (datagrams now - datagrams published) /\
  forwarded (fold m now published) = forwarded m + (to_tun now - to_tun published).
Proof.
  intros (Hb & Hl & Hs) [Hn _] [Hp _] Hle. unfold rx_le, tally_le in Hle. destruct m as [a1 a2 a3 a4 a5 a6 a7 a8 a9 a10 a11 a12 a13 a14 a15 l].
  cbn in Hb, Hl, Hs. destruct l as [|a [|b [|c [|d [|e [|]]]]]]; try done.
  unfold metrics_balanced, fold, apply_adds, fold_adds, reasons, total in *. cbn in *.
  destruct Hle as (? & ? & ? & ? & ? & ? & ? & ? & ? & ? & ? & (? & ? & ? & ? & ?) & ? & ? & ?).
  rewrite !Z.max_r by lia. lia.
Qed.

(** ** Additions in any order *)

Definition read (c : Counter) (m : UplinkMetrics) : option Z :=
  match c with
  | CReceived => Some (received m) | CForwarded => Some (forwarded m) | CAuthenticated => Some (authenticated m)
  | CDecode => Some (dropped_decode m) | CExitId => Some (dropped_exit_id m) | CSession => Some (dropped_session m)
  | CSessionEvicted => Some (dropped_session_evicted m) | CAeadOpen => Some (dropped_aead_open m)
  | CReplay => Some (dropped_replay m) | CControlFrame => Some (dropped_control_frame m)
  | CDaitaDummy => Some (dropped_daita_dummy m) | CSpoofedSource => Some (dropped_spoofed_source m)
  | CPoolDestination => Some (dropped_pool_destination m) | CRateLimit => Some (dropped_rate_limit m)
  | CTunWrite => Some (dropped_tun_write m) | CSpoofClass i => spoofed_by_class m !! i
  end.

Definition number (c : Counter) : nat :=
  match c with
  | CReceived => 0 | CForwarded => 1 | CAuthenticated => 2 | CDecode => 3 | CExitId => 4 | CSession => 5 | CSessionEvicted => 6
  | CAeadOpen => 7 | CReplay => 8 | CControlFrame => 9 | CDaitaDummy => 10 | CSpoofedSource => 11 | CPoolDestination => 12
  | CRateLimit => 13 | CTunWrite => 14 | CSpoofClass i => 15 + i
  end.

Definition same_counter (c c' : Counter) : bool := (number c =? number c')%nat.

Lemma same_counter_spec c c' : same_counter c c' = true <-> c = c'.
Proof.
  unfold same_counter. rewrite Nat.eqb_eq. split; [|by intros ->].
  destruct c, c'; cbn; try done; try lia. intros H. f_equal. lia.
Qed.

Lemma read_ext m m' : (forall c, read c m = read c m') -> m = m'.
Proof.
  intros H. destruct m as [a1 a2 a3 a4 a5 a6 a7 a8 a9 a10 a11 a12 a13 a14 a15 l], m' as [b1 b2 b3 b4 b5 b6 b7 b8 b9 b10 b11 b12 b13 b14 b15 l'].
  pose proof (H CReceived). pose proof (H CForwarded). pose proof (H CAuthenticated). pose proof (H CDecode). pose proof (H CExitId).
  pose proof (H CSession). pose proof (H CSessionEvicted). pose proof (H CAeadOpen). pose proof (H CReplay). pose proof (H CControlFrame).
  pose proof (H CDaitaDummy). pose proof (H CSpoofedSource). pose proof (H CPoolDestination). pose proof (H CRateLimit). pose proof (H CTunWrite).
  assert (l = l') as -> by (apply list_eq; intros i; exact (H (CSpoofClass i))). clear H. cbn in *.
  repeat match goal with H : Some _ = Some _ |- _ => injection H as -> end. done.
Qed.

Lemma read_fetch_add c c' d m : read c (fetch_add c' d m) = if same_counter c c' then (fun x => x + d) <$> read c m else read c m.
Proof.
  destruct m as [a1 a2 a3 a4 a5 a6 a7 a8 a9 a10 a11 a12 a13 a14 a15 l]. destruct (same_counter c c') eqn:E; [apply same_counter_spec in E as ->|assert (Hne : c <> c') by (intros He%same_counter_spec; congruence)].
  - destruct c'; try done. cbn. apply list_lookup_alter_eq.
  - destruct c, c'; try done. cbn. apply list_lookup_alter_ne. congruence.
Qed.

(** What a list of additions adds to one counter. *)
Definition added (c : Counter) (adds : list (Counter * Z)) : Z :=
  fold_right (fun cd acc => (if same_counter c (fst cd) then snd cd else 0) + acc) 0 adds.

Lemma read_apply c adds m : read c (apply_adds adds m) = (fun x => x + added c adds) <$> read c m.
Proof.
  revert m. induction adds as [|[c' d] adds IH]; intros m; cbn.
  - destruct (read c m); cbn; [f_equal; lia|done].
  - change (fold_left _ adds ?m) with (apply_adds adds m). rewrite IH, read_fetch_add. destruct (same_counter c c'); cbn; destruct (read c m); cbn; try done; f_equal; unfold added; lia.
Qed.

Lemma added_app c l l' : added c (l ++ l') = added c l + added c l'.
Proof. induction l as [|[c' d] l IH]; cbn; [done|]. unfold added in *. lia. Qed.

Lemma added_perm c l l' : l ≡ₚ l' -> added c l = added c l'.
Proof. induction 1 as [|[] l l' _ IH|[] [] l|l l' l'' _ IH1 _ IH2]; cbn; unfold added in *; lia. Qed.

Lemma apply_same l l' m : (forall c, added c l = added c l') -> apply_adds l m = apply_adds l' m.
Proof. intros H. apply read_ext. intros c. by rewrite !read_apply, H. Qed.

Lemma apply_app l l' m : apply_adds (l ++ l') m = apply_adds l' (apply_adds l m).
Proof. apply fold_left_app. Qed.

(** Folding twice is folding once. *)
Lemma added_fold c x y : added c (fold_adds x y) =
  Z.max 0 (match c with
  | CReceived => datagrams x - datagrams y | CForwarded => to_tun x - to_tun y | CAuthenticated => opened x - opened y
  | CDecode => decode_errs x - decode_errs y | CExitId => exit_id_mismatches x - exit_id_mismatches y
  | CSession => session_errs x - session_errs y | CSessionEvicted => session_evicted x - session_evicted y
  | CAeadOpen => open_errs x - open_errs y | CReplay => replays x - replays y
  | CControlFrame => control_frames x - control_frames y | CDaitaDummy => dummies x - dummies y
  | CSpoofedSource => total (spoof x) - total (spoof y) | CPoolDestination => pool_drops x - pool_drops y
  | CRateLimit => rate_drops x - rate_drops y | CTunWrite => tun_write_errs x - tun_write_errs y
  | CSpoofClass i => default 0 (as_array (spoof x) !! i) - default 0 (as_array (spoof y) !! i)
  end).
Proof.
  destruct c; try (unfold added, fold_adds; cbn; lia). do 5 (destruct i as [|i]; [unfold added, fold_adds; cbn; lia|]). unfold added, fold_adds. cbn. lia.
Qed.

Lemma rx_le_counter c x y : rx_le x y -> added c (fold_adds x y) = 0.
Proof.
  intros H. rewrite added_fold. unfold rx_le, tally_le, total in *.
  destruct c; try (unfold total; lia). do 5 (destruct i as [|i]; [cbn; lia|]). cbn. lia.
Qed.

Lemma fold_same x m : fold m x x = m.
Proof. apply read_ext. intros c. unfold fold. rewrite read_apply, rx_le_counter by apply rx_le_refl. destruct (read c m); cbn; [f_equal; lia|done]. Qed.

(** ** The invariant of a pump *)

Record PumpInv (p : Pump) : Prop := mkPumpInv {
  pi_spoof : spoof (RxReport.counters (report p)) = SpoofGate.tally (spoof_gate p);
  pi_pool : pool_drops (RxReport.counters (report p)) = PoolGate.drops (pool_gate p);
  pi_balanced : balanced (RxReport.counters (report p));
  pi_published : balanced (RxReport.published (report p));
  pi_le : rx_le (RxReport.published (report p)) (RxReport.counters (report p));
  pi_logs : length (SpoofGate.logs (spoof_gate p)) = 5%nat /\ length (PoolGate.logs (pool_gate p)) = 2%nat;
}.

(** What a turn adds to the counters of a pump that the node can see: datagrams and
    forwarded packets not yet published. *)
Definition unpublished (p : Pump) : Z * Z :=
  let r := report p in
  (datagrams (RxReport.counters r) - datagrams (RxReport.published r),
   to_tun (RxReport.counters r) - to_tun (RxReport.published r)).

Lemma pump_new_inv a4 a6 pool now : PumpInv (pump_new a4 a6 pool now).
Proof. by constructor. Qed.

(** Emitting changes what is published, never what is counted. *)
Lemma emit_spec p now sink p' sink' :
  balanced (set_spoof (SpoofGate.tally (spoof_gate p)) (RxReport.counters (report p))) ->
  balanced (RxReport.published (report p)) ->
  rx_le (RxReport.published (report p))
    (set_spoof (SpoofGate.tally (spoof_gate p)) (RxReport.counters (report p))) ->
  metrics_balanced sink -> emit p now sink = (p', sink') ->
  RxReport.counters (report p') = set_spoof (SpoofGate.tally (spoof_gate p)) (RxReport.counters (report p)) /\
  balanced (RxReport.published (report p')) /\ rx_le (RxReport.published (report p')) (RxReport.counters (report p')) /\
  metrics_balanced sink' /\
  received sink' + fst (unpublished p') = received sink + fst (unpublished p) /\
  forwarded sink' + snd (unpublished p') = forwarded sink + snd (unpublished p) /\
  flows p' = flows p /\ tun_writer p' = tun_writer p /\ spoof_gate p' = spoof_gate p /\
  pool_gate p' = pool_gate p.
Proof.
  intros Hb Hpb Hle Hm. unfold emit, RxReport.maybe_emit. set (c := set_spoof _ _) in *.
  change (RxReport.counters (RxReport.upd _ (report p))) with c.
  destruct (negb _ || _).
  - intros [= <- <-]. unfold unpublished. cbn. do 4 (split; [done|]). by repeat split.
  - cbn. intros [= <- <-]. destruct (fold_exact sink c (RxReport.published (report p))) as (Hm' & Hr & Hf);
      try done.
    unfold unpublished. cbn in *. split; [done|]. split; [done|]. split; [apply rx_le_refl|].
    split; [done|]. rewrite Hr, Hf. subst c. cbn. repeat split; lia.
Qed.

(** ** One turn *)

(** The loop counts a datagram before it classifies it. *)
Record MidTurn (d o : Z) (p : Pump) : Prop := mkMid {
  mt_spoof : spoof (RxReport.counters (report p)) = SpoofGate.tally (spoof_gate p);
  mt_pool : pool_drops (RxReport.counters (report p)) = PoolGate.drops (pool_gate p);
  mt_datagrams : let c := RxReport.counters (report p) in
    datagrams c = to_tun c + decode_errs c + exit_id_mismatches c + session_errs c + open_errs c
    + replays c + control_frames c + dummies c + total (spoof c) + pool_drops c + rate_drops c
    + tun_write_errs c + d;
  mt_opened : let c := RxReport.counters (report p) in
    opened c = to_tun c + control_frames c + dummies c + total (spoof c) + pool_drops c + rate_drops c
    + tun_write_errs c + o;
  mt_published : balanced (RxReport.published (report p));
  mt_le : rx_le (RxReport.published (report p)) (RxReport.counters (report p));
  mt_logs : length (SpoofGate.logs (spoof_gate p)) = 5%nat /\ length (PoolGate.logs (pool_gate p)) = 2%nat;
}.

Lemma mid_done p : MidTurn 0 0 p <-> PumpInv p.
Proof.
  split; intros []; constructor; try done; unfold balanced in *; cbv zeta in *; lia.
Qed.

(** Unpacks the counters of a pump and closes the arithmetic. *)
Ltac counters := cbn; unfold rx_le, tally_le; cbn; repeat split; try done; lia.

Lemma count_mid p f d o d' o' :
  MidTurn d o p ->
  (forall c, spoof (f c) = spoof c /\ pool_drops (f c) = pool_drops c /\ rx_le c (f c) /\
     datagrams (f c) - to_tun (f c) - decode_errs (f c) - exit_id_mismatches (f c) - session_errs (f c)
       - open_errs (f c) - replays (f c) - control_frames (f c) - dummies (f c) - rate_drops (f c)
       - tun_write_errs (f c)
     = datagrams c - to_tun c - decode_errs c - exit_id_mismatches c - session_errs c
       - open_errs c - replays c - control_frames c - dummies c - rate_drops c - tun_write_errs c + (d' - d) /\
     opened (f c) - to_tun (f c) - control_frames (f c) - dummies (f c) - rate_drops (f c) - tun_write_errs (f c)
     = opened c - to_tun c - control_frames c - dummies c - rate_drops c - tun_write_errs c + (o' - o)) ->
  MidTurn d' o' (count f p).
Proof.
  intros [Hs Hp Hd Ho Hb Hle Hl] Hf. destruct (Hf (RxReport.counters (report p))) as (F1 & F2 & F3 & F4 & F5).
  cbv zeta in *. constructor; cbn; try done.
  - congruence.
  - congruence.
  - rewrite F1, F2. lia.
  - rewrite F1, F2. lia.
  - unfold rx_le, tally_le in *. lia.
Qed.

Lemma emit_mid p now sink p' sink' :
  MidTurn 0 0 p -> metrics_balanced sink -> emit p now sink = (p', sink') ->
  MidTurn 0 0 p' /\ metrics_balanced sink' /\
  received sink' + fst (unpublished p') = received sink + fst (unpublished p) /\
  forwarded sink' + snd (unpublished p') = forwarded sink + snd (unpublished p) /\
  flows p' = flows p /\ tun_writer p' = tun_writer p /\ spoof_gate p' = spoof_gate p /\ pool_gate p' = pool_gate p.
Proof.
  intros [Hs Hp Hd Ho Hb Hle Hl] Hm He.
  assert (Hset : set_spoof (SpoofGate.tally (spoof_gate p)) (RxReport.counters (report p)) =
                 RxReport.counters (report p)).
  { rewrite <- Hs. by destruct (RxReport.counters (report p)). }
  apply emit_spec in He as (Hc & Hb' & Hle' & Hm' & Hr & Hf & F1 & F2 & F3 & F4); rewrite ?Hset; try done.
  2:{ unfold balanced. cbv zeta in *. lia. }
  rewrite Hset in Hc. split; [|by repeat split; try apply Hm'].
  constructor; rewrite ?Hc, ?F3, ?F4; try done. by rewrite <- Hc.
Qed.

Definition is_to_tun (e : Effect) : bool := match e with ToTun _ => true | _ => false end.

Definition tuns (effs : list Effect) : Z := Z.of_nat (length (List.filter is_to_tun effs)).

(** A turn is accounted for: the pump stays balanced, the block too, and together
    they count [n] more datagrams and the packets written. *)
Definition accounted (p : Pump) (sink : UplinkMetrics) (n : Z)
  (r : option (Pump * UplinkMetrics * list Effect * bool)) : Prop :=
  exists p' sink' effs go, r = Some (p', sink', effs, go) /\ PumpInv p' /\ metrics_balanced sink' /\
    received sink' + fst (unpublished p') = received sink + fst (unpublished p) + n /\
    forwarded sink' + snd (unpublished p') = forwarded sink + snd (unpublished p) + tuns effs.

Lemma spoof_admits_cases g pkt :
  length (SpoofGate.logs g) = 5%nat ->
  SpoofGate.admits g pkt = Some (g, true) \/
  exists g', SpoofGate.admits g pkt = Some (g', false) /\ length (SpoofGate.logs g') = 5%nat /\
    total (SpoofGate.tally g') = total (SpoofGate.tally g) + 1 /\ tally_le (SpoofGate.tally g) (SpoofGate.tally g').
Proof.
  intros Hl. unfold SpoofGate.admits. destruct (classify_source_total pkt (SpoofGate.v4 g) (SpoofGate.v6 g)) as [r ->].
  cbn [mbind option_bind]. destruct r as [refusal|]; [right|by left]. unfold hit_slot.
  destruct (lookup_lt_is_Some_2 (SpoofGate.logs g) (SpoofGate.slot refusal)) as [l ->].
  { rewrite Hl. destruct refusal; simpl; lia. }
  cbn [mbind option_bind]. eexists. split; [reflexivity|]. cbn. rewrite length_insert.
  split; [done|]. destruct refusal; unfold total, tally_le; cbn; lia.
Qed.

Lemma pool_admits_cases g pkt :
  length (PoolGate.logs g) = 2%nat ->
  PoolGate.admits g pkt = Some (g, true) \/
  exists g', PoolGate.admits g pkt = Some (g', false) /\ length (PoolGate.logs g') = 2%nat /\
    PoolGate.drops g' = PoolGate.drops g + 1.
Proof.
  intros Hl. unfold PoolGate.admits. destruct (classify_destination_total pkt (PoolGate.pool g)) as [r ->].
  cbn [mbind option_bind]. destruct r as [refusal|]; [right|by left]. unfold hit_slot.
  destruct (lookup_lt_is_Some_2 (PoolGate.logs g) (match refusal with V4Peer => 0%nat | V6Peer => 1%nat end)) as [l ->].
  { rewrite Hl. destruct refusal; simpl; lia. }
  cbn [mbind option_bind]. eexists. split; [reflexivity|]. cbn. by rewrite length_insert.
Qed.

Lemma inner_budget_width mds overhead : in_width 16 (inner_budget mds overhead).
Proof.
  unfold inner_budget, in_width, u16_max. destruct (Z.leb_spec (Z.max 0 (match mds with Some n => n | None => 2 ^ 16 - 1 end - overhead)) (2 ^ 16 - 1)); lia.
Qed.

Lemma is_tcp_syn_total pkt : exists b, is_tcp_syn pkt = Some b.
Proof. unfold is_tcp_syn. destruct (syn_tcp_offset_spec pkt) as (r & -> & _). cbn. eauto. Qed.

Lemma clamp_uplink_total pkt mds overhead : exists pkt', clamp_uplink pkt mds overhead = Some pkt'.
Proof.
  unfold clamp_uplink. destruct (is_tcp_syn_total pkt) as [b ->]. cbn [mbind option_bind].
  destruct b; [|by eexists]. cbn [negb]. unfold clamp_mss_logged.
  destruct (clamp_cases pkt (inner_budget mds overhead)) as [->|(? & ? & ? & ? & ? & p & _ & -> & _)];
    [apply inner_budget_width|by eexists..].
Qed.

Lemma noter_total m pkt : exists r, FlowNoter.is_first_of_flow m pkt = Some r.
Proof.
  unfold FlowNoter.is_first_of_flow.
  destruct (flow_keys_total pkt) as [[-> _]|(k & h & -> & _)]; by eexists.
Qed.

(** The counters that a turn ends with. *)
Lemma finish_turn p now sink q s n m effs :
  MidTurn 0 0 p -> metrics_balanced s ->
  received s + fst (unpublished p) = received sink + fst (unpublished q) + n ->
  forwarded s + snd (unpublished p) = forwarded sink + snd (unpublished q) + m -> tuns effs = m ->
  accounted q sink n (let '(p, s) := emit p now s in Some (p, s, effs, true)).
Proof.
  intros Hp Hs Hr Hf Ht. destruct (emit p now s) as [p' s'] eqn:E.
  destruct (emit_mid p now s p' s' Hp Hs E) as (Hp' & Hs' & Hr' & Hf' & _).
  exists p', s', effs, true. split; [done|]. split; [by apply mid_done|]. split; [done|]. lia.
Qed.

Section Turn.
Context `{P : ControlPostcard}.
Variable frame_overhead : Z.

(** The turn so far: the datagram is counted, and nothing else yet. *)
Definition counted (q : Pump) (sink : UplinkMetrics) (p : Pump) (s : UplinkMetrics) : Prop :=
  metrics_balanced s /\
  received s + fst (unpublished p) = received sink + fst (unpublished q) + 1 /\
  forwarded s + snd (unpublished p) = forwarded sink + snd (unpublished q).

Lemma forward_accounted q sink p s i pkt :
  MidTurn 1 1 p -> counted q sink p s -> accounted q sink 1 (forward frame_overhead p s i pkt).
Proof.
  intros Hp (Hs & Hr & Hf). unfold forward. destruct (noter_total (flows p) pkt) as [[f first] ->].
  cbn [mbind option_bind]. destruct (clamp_uplink_total pkt (max_datagram_size i) frame_overhead) as [packet ->].
  cbn [mbind option_bind]. unfold TunWriter.write. set (notes := if first then _ else _).
  assert (Hn : tuns notes = 0) by (unfold notes; by destruct first).
  assert (Hp' : forall w, MidTurn 1 1 (set_tun_writer w (set_flows f p))) by (intros w; by destruct Hp; constructor).
  destruct (tun_sends i).
  - apply (finish_turn _ _ _ _ _ 1 1); [|done|unfold unpublished in *; cbn in *; lia..|].
    + apply (count_mid _ _ 1 1); [apply Hp'|]. intros []. counters.
    + unfold tuns in *. rewrite List.filter_app, length_app. simpl. lia.
  - rewrite app_nil_r. destruct (MAX_CONSECUTIVE_TUN_WRITE_ERRORS <=? _).
    + eexists _, s, notes, false. split; [reflexivity|]. rewrite Hn. split.
      * apply mid_done, (count_mid _ _ 1 1); [apply Hp'|]. intros []. counters.
      * split; [done|]. unfold unpublished in *. cbn in *. lia.
    + apply (finish_turn _ _ _ _ _ 1 0); [|done|unfold unpublished in *; cbn in *; lia..|done].
      apply (count_mid _ _ 1 1); [apply Hp'|]. intros []. counters.
Qed.

(** A refusal of the source gate shows in its tally; the emission mirrors it. *)
Lemma spoof_refused q sink p s now g' :
  MidTurn 1 1 p -> counted q sink p s -> length (SpoofGate.logs g') = 5%nat ->
  total (SpoofGate.tally g') = total (SpoofGate.tally (spoof_gate p)) + 1 ->
  tally_le (SpoofGate.tally (spoof_gate p)) (SpoofGate.tally g') ->
  accounted q sink 1 (let '(p, s) := emit (set_spoof_gate g' p) now s in Some (p, s, [], true)).
Proof.
  intros [Hsp Hpo Hd Ho Hb Hle Hl] (Hs & Hr & Hf) Hl' Ht Htl.
  destruct (emit (set_spoof_gate g' p) now s) as [p' s'] eqn:E.
  assert (Hle' : rx_le (RxReport.published (report p)) (set_spoof (SpoofGate.tally g') (RxReport.counters (report p)))).
  { unfold rx_le, tally_le in *. rewrite <- Hsp in Htl. cbn. lia. }
  apply emit_spec in E as (Hc & Hb' & Hle'' & Hm' & Hr' & Hf' & F1 & F2 & F3 & F4); cbn; try done.
  2:{ cbv zeta in *. rewrite Hsp in *. unfold balanced. cbn. lia. }
  exists p', s', [], true. split; [done|]. split; [|split; [done|]].
  - apply mid_done. constructor; rewrite ?F3, ?F4, ?Hc in *; cbn; try done.
    + cbv zeta in *. rewrite Hsp in Hd. lia.
    + cbv zeta in *. rewrite Hsp in Ho. lia.
    + by split; [|apply Hl].
  - change (tuns []) with 0. unfold unpublished in *. cbn [fst snd] in *. cbn in Hr', Hf'. lia.
Qed.

Lemma pool_refused q sink p s now g' :
  MidTurn 1 1 p -> counted q sink p s -> length (PoolGate.logs g') = 2%nat ->
  PoolGate.drops g' = PoolGate.drops (pool_gate p) + 1 ->
  accounted q sink 1
    (let '(p, s) := emit (count (set_pool_drops (PoolGate.drops g')) (set_pool_gate g' p)) now s in
     Some (p, s, [], true)).
Proof.
  intros [Hsp Hpo Hd Ho Hb Hle Hl] (Hs & Hr & Hf) Hl' Hdr.
  apply (finish_turn _ _ _ _ _ 1 0); [|done|unfold unpublished in *; cbn in *; lia..|done].
  cbv zeta in *. constructor; cbn; try done.
  - lia.
  - lia.
  - unfold rx_le, tally_le in *. cbn. lia.
  - by split; [apply Hl|].
Qed.

Lemma gates_accounted q sink p s i pkt :
  MidTurn 1 1 p -> counted q sink p s -> accounted q sink 1 (gates frame_overhead p s i pkt).
Proof.
  intros Hp Hc. unfold gates.
  destruct (spoof_admits_cases (spoof_gate p) pkt) as [->|(g' & -> & Hl & Ht & Htl)]; [apply Hp| |].
  2:{ cbn [mbind option_bind negb]. by apply spoof_refused. }
  cbn [mbind option_bind negb]. change (set_spoof_gate (spoof_gate p) p) with
    (mkPump (report p) (flows p) (tun_writer p) (spoof_gate p) (pool_gate p)).
  assert (mkPump (report p) (flows p) (tun_writer p) (spoof_gate p) (pool_gate p) = p) as -> by (by destruct p).
  destruct (pool_admits_cases (pool_gate p) pkt) as [->|(g' & -> & Hl & Hd)]; [apply Hp| |].
  2:{ cbn [mbind option_bind negb]. by apply pool_refused. }
  cbn [mbind option_bind negb]. change (set_pool_gate (pool_gate p) p) with
    (mkPump (report p) (flows p) (tun_writer p) (spoof_gate p) (pool_gate p)).
  assert (mkPump (report p) (flows p) (tun_writer p) (spoof_gate p) (pool_gate p) = p) as -> by (by destruct p).
  destruct (admitted_by_rate i); cbn [negb]; [by apply forward_accounted|].
  destruct Hc as (Hs & Hr & Hf).
  apply (finish_turn _ _ _ _ _ 1 0); [|done|unfold unpublished in *; cbn in *; lia..|done].
  apply (count_mid _ _ 1 1); [done|]. intros []. counters.
Qed.

Lemma count_accounted q sink p s f d o effs :
  MidTurn d o p -> counted q sink p s ->
  (forall c, datagrams (f c) = datagrams c /\ to_tun (f c) = to_tun c) ->
  MidTurn 0 0 (count f p) -> tuns effs = 0 ->
  accounted q sink 1 (Some (count f p, s, effs, true)).
Proof.
  intros _ (Hs & Hr & Hf) Hc Hm Ht. exists (count f p), s, effs, true. split; [done|].
  split; [by apply mid_done|]. split; [done|].
  destruct (Hc (RxReport.counters (report p))) as [E1 E2]. unfold unpublished in *. cbn in *.
  rewrite E1, E2. lia.
Qed.

Lemma handle_accounted p sink i :
  PumpInv p -> metrics_balanced sink -> accounted p sink 1 (handle frame_overhead p sink i).
Proof.
  intros Hp%mid_done Hs. unfold handle. destruct (emit p (now_top i) sink) as [p1 s1] eqn:E.
  destruct (emit_mid p (now_top i) sink p1 s1 Hp Hs E) as (Hp1 & Hs1 & Hr & Hf & _).
  assert (Hp2 : MidTurn 1 0 (count inc_datagrams p1)) by (apply (count_mid _ _ 0 0); [done|]; intros []; counters).
  assert (Hc2 : counted p sink (count inc_datagrams p1) s1).
  { split; [done|]. unfold unpublished in *. cbn in *. lia. }
  set (p2 := count inc_datagrams p1) in *. clearbody p2. clear p1 Hp Hs E Hp1 Hr Hf.
  destruct (front i) as [| |own| | |pkt].
  all: try (apply (count_accounted _ _ _ _ _ 1 0); [done|done|by intros []|apply (count_mid _ _ 1 0); [done|]; intros []; counters|done]).
  - destruct own.
    + apply (count_accounted _ _ _ _ _ 0 0); [|done|by intros []| |done].
      * apply (count_mid _ _ 1 0); [done|]. intros []. counters.
      * apply (count_mid _ _ 0 0); [apply (count_mid _ _ 1 0); [done|]; intros []; counters|]. intros []. counters.
    + apply (count_accounted _ _ _ _ _ 1 0); [done|done|by intros []| |done].
      apply (count_mid _ _ 1 0); [done|]. intros []. counters.
  - assert (Hp3 : MidTurn 1 1 (count inc_opened p2)) by (apply (count_mid _ _ 1 0); [done|]; intros []; counters).
    assert (Hc3 : counted p sink (count inc_opened p2) s1) by done.
    destruct (classify_uplink pkt); [by apply gates_accounted|..].
    all: apply (count_accounted _ _ _ _ _ 1 1); [done|done|by intros []| |done].
    all: apply (count_mid _ _ 1 1); [done|]; intros []; counters.
Qed.

(** *** What a turn folds *)

Definition pub (p : Pump) : RxCounters := RxReport.published (report p).
Definition seen (p : Pump) : Z := datagrams (RxReport.counters (report p)).

Lemma emit_folds p now : exists p', (forall sink, emit p now sink = (p', fold sink (pub p') (pub p))) /\ seen p' = seen p /\
  (pub p' = pub p \/ seen p mod 64 = 0).
Proof using Type.
  unfold emit, RxReport.maybe_emit, seen, pub. set (r := RxReport.upd _ (report p)).
  change (datagrams (RxReport.counters r)) with (datagrams (RxReport.counters (report p))).
  destruct (RateLimited.is_multiple_of _ _) eqn:Em; cbn [negb orb].
  2:{ exists (set_report r p). split; [intros sink; f_equal; symmetry; exact (fold_same _ _)|]. split; [done|by left]. }
  destruct (_ <? _).
  { exists (set_report r p). split; [intros sink; f_equal; symmetry; exact (fold_same _ _)|]. split; [done|by left]. }
  exists (set_report (RxReport.mk (RxReport.counters r) (RxReport.counters r) now) p). split; [done|]. split; [done|]. right. cbn in Em. by apply Z.eqb_eq in Em.
Qed.

(** A part of a turn, from the pump [p], that folds at most once, and what it does besides does not depend on the block. *)
Definition folds_once (p : Pump) (r : UplinkMetrics -> option (Pump * UplinkMetrics * list Effect * bool)) : Prop :=
  (forall sink, r sink = None) \/
  exists p' effs go, (forall sink, r sink = Some (p', fold sink (pub p') (pub p), effs, go)) /\ (pub p' = pub p \/ seen p mod 64 = 0).

Lemma emitting p q now effs : pub q = pub p -> seen q = seen p ->
  folds_once p (fun sink => let '(x, s) := emit q now sink in Some (x, s, effs, true)).
Proof using Type.
  intros Hp Hs. destruct (emit_folds q now) as (p' & He & _ & Hp'). right. exists p', effs, true.
  split; [intros sink; by rewrite He, Hp|]. by rewrite <- Hp, <- Hs.
Qed.

Lemma folding_nothing p q effs go : pub q = pub p -> folds_once p (fun sink => Some (q, sink, effs, go)).
Proof using Type. intros Hp. right. exists q, effs, go. split; [intros sink; by rewrite Hp, fold_same|by left]. Qed.

Lemma forward_folds p q i pkt : pub q = pub p -> seen q = seen p -> folds_once p (fun sink => forward frame_overhead q sink i pkt).
Proof using Type.
  intros Hp Hs. unfold forward. destruct (FlowNoter.is_first_of_flow _ _) as [[f first]|]; cbn [mbind option_bind]; [|by left].
  destruct (clamp_uplink _ _ _) as [packet|]; cbn [mbind option_bind]; [|by left].
  destruct (TunWriter.write _ _) as [w []]; [by apply emitting|by apply emitting|by apply folding_nothing].
Qed.

Lemma gates_folds p i pkt : folds_once p (fun sink => gates frame_overhead p sink i pkt).
Proof using Type.
  unfold gates. destruct (SpoofGate.admits _ _) as [[g []]|]; cbn [mbind option_bind negb]; [|by apply emitting|by left].
  destruct (PoolGate.admits _ _) as [[g' []]|]; cbn [mbind option_bind negb]; [|by apply emitting|by left].
  destruct (admitted_by_rate i); cbn [negb]; [by apply forward_folds|by apply emitting].
Qed.

(** A turn after its first emission. *)
Definition rest_of_turn (p : Pump) (i : Input) (sink : UplinkMetrics) : option (Pump * UplinkMetrics * list Effect * bool) :=
  match front i with
  | DecodeFailed => Some (count inc_decode_errs p, sink, [], true)
  | WrongExit => Some (count inc_exit_id_mismatches p, sink, [], true)
  | NoSession own => Some (if own : bool then count inc_session_evicted (count inc_session_errs p) else count inc_session_errs p, sink, [], true)
  | OpenFailed => Some (count inc_open_errs p, sink, [], true)
  | Replayed => Some (count inc_replays p, sink, [], true)
  | Opened plaintext =>
      match classify_uplink plaintext with
      | ControlFrame => Some (count inc_control_frames (count inc_opened p), sink, [], true)
      | AnchorRequest sealed token => Some (count inc_control_frames (count inc_opened p), sink, [SubmitAnchor plaintext sealed token], true)
      | LeaseRefreshFrame token => Some (count inc_control_frames (count inc_opened p), sink, [SubmitLeaseRefresh plaintext token], true)
      | DaitaDummy => Some (count inc_dummies (count inc_opened p), sink, [], true)
      | Packet => gates frame_overhead (count inc_opened p) sink i plaintext
      end
  end.

Lemma rest_folds p i : folds_once p (rest_of_turn p i).
Proof using Type.
  unfold rest_of_turn. destruct (front i) as [| |[]| | |pkt]; try by apply folding_nothing.
  destruct (classify_uplink pkt); try by apply folding_nothing. exact (gates_folds (count inc_opened p) i pkt).
Qed.

(** A turn folds at most once: the emissions at its two ends are at different counts of datagrams, of which only one is a multiple of 64. *)
Lemma handle_folds p i : PumpInv p -> exists p' effs go, forall sink, handle frame_overhead p sink i = Some (p', fold sink (pub p') (pub p), effs, go).
Proof using Type.
  intros Hp. destruct (emit_folds p (now_top i)) as (p1 & He & Hs1 & Hp1).
  assert (Hh : forall sink, handle frame_overhead p sink i = rest_of_turn (count inc_datagrams p1) i (fold sink (pub p1) (pub p))).
  { intros sink. unfold handle, rest_of_turn. rewrite He. by destruct (front i) as [| |[]| | |pkt]. }
  assert (Hz : metrics_balanced (mkMetrics 0 0 0 0 0 0 0 0 0 0 0 0 0 0 0 [0; 0; 0; 0; 0])) by done.
  destruct (handle_accounted p _ i Hp Hz) as (q & s & e & g & Hq & _). rewrite Hh in Hq.
  destruct (rest_folds (count inc_datagrams p1) i) as [Hn|(p' & effs & go & Hr & Hp')]; [by rewrite Hn in Hq|].
  exists p', effs, go. intros sink. rewrite Hh, Hr. change (pub (count inc_datagrams p1)) with (pub p1) in *.
  change (seen (count inc_datagrams p1)) with (seen p1 + 1) in Hp'. rewrite Hs1 in Hp'.
  destruct Hp1 as [->|Hm1]; [by rewrite fold_same|]. destruct Hp' as [->|Hm2]; [by rewrite fold_same|].
  exfalso. pose proof (Z.mod_pos_bound (seen p) 64 ltac:(lia)). rewrite <- Zplus_mod_idemp_l, Hm1 in Hm2. done.
Qed.

End Turn.

(** ** The node *)

(** The pumps of the process (a closed one is [None]), the block they share, the
    additions of each fold that have yet to reach it, and, for the statements only,
    how many datagrams were read and what was done. *)
Record Node := mkNode {
  pumps : list (option Pump);
  block : UplinkMetrics;
  flights : list (list (Counter * Z));
  reads : Z;
  log : list (nat * Effect);
}.

Definition metrics_new : UplinkMetrics := mkMetrics 0 0 0 0 0 0 0 0 0 0 0 0 0 0 0 [0; 0; 0; 0; 0].

Definition node_initial : Node := mkNode [] metrics_new [] 0 [].

Inductive NodeEvent :=
| OpenConn (assigned_ip : Z) (assigned_ip_v6 : option Z) (pool : TunnelPool) (now : Z)
| Read (k : nat) (i : Input)
| CloseConn (k : nat)
(** Addition [i] of those left of fold [j] reaches the block. *)
| Lands (j i : nat).

(** The additions of a turn that takes [p] to [p'], and of the end of [p]. *)
Definition turn_adds (p p' : Pump) : list (Counter * Z) := fold_adds (RxReport.published (report p')) (RxReport.published (report p)).
Definition drop_adds (p : Pump) : list (Counter * Z) := fold_adds (RxReport.counters (report p)) (RxReport.published (report p)).

Section Node.
Context `{P : ControlPostcard}.

(** The frame overhead of each connection. *)
Variable overhead : nat -> Z.

Definition node_step (n : Node) (ev : NodeEvent) : option Node :=
  match ev with
  | OpenConn a4 a6 pool now =>
      Some (mkNode (pumps n ++ [Some (pump_new a4 a6 pool now)]) (block n) (flights n) (reads n) (log n))
  | Read k i =>
      match pumps n !! k with
      | Some (Some p) =>
          r ← handle (overhead k) p (block n) i;
          let '(p', _, effs, go) := r in
          let log' := log n ++ ((fun e => (k, e)) <$> effs) in
          Some (if go : bool
                then mkNode (<[k := Some p']> (pumps n)) (block n) (flights n ++ [turn_adds p p']) (reads n + 1) log'
                else mkNode (<[k := None]> (pumps n)) (block n) (flights n ++ [turn_adds p p'; drop_adds p']) (reads n + 1) log')
      | _ => Some n
      end
  | CloseConn k =>
      match pumps n !! k with
      | Some (Some p) => Some (mkNode (<[k := None]> (pumps n)) (block n) (flights n ++ [drop_adds p]) (reads n) (log n))
      | _ => Some n
      end
  | Lands j i =>
      match flights n !! j with
      | Some fl =>
          match fl !! i with
          | Some (c, d) => Some (mkNode (pumps n) (fetch_add c d (block n)) (<[j := delete i fl]> (flights n)) (reads n) (log n))
          | None => Some n
          end
      | None => Some n
      end
  end.

Fixpoint node_run (n : Node) (evs : list NodeEvent) : option Node :=
  match evs with
  | [] => Some n
  | ev :: evs => n ← node_step n ev; node_run n evs
  end.

End Node.

(** The block once every addition has reached it. *)
Definition settled (n : Node) : UplinkMetrics := apply_adds (concat (flights n)) (block n).

(** No counter of the first is above that of the second. *)
Definition counters_le (m m' : UplinkMetrics) : Prop := forall c, match read c m with Some x => exists y, read c m' = Some y /\ x <= y | None => True end.

Lemma counters_le_trans m1 m2 m3 : counters_le m1 m2 -> counters_le m2 m3 -> counters_le m1 m3.
Proof.
  intros H1 H2 c. specialize (H1 c). destruct (read c m1) as [x|]; [|done]. destruct H1 as (y & Hy & Hxy). specialize (H2 c). rewrite Hy in H2.
  destruct H2 as (z & Hz & Hyz). exists z. split; [done|lia].
Qed.

Lemma added_nonneg c l : Forall (fun cd : Counter * Z => 0 <= snd cd) l -> 0 <= added c l.
Proof. induction 1 as [|[c' d] l Hd _ IH]; cbn in *; [lia|]. unfold added in *. destruct (same_counter c c'); lia. Qed.

Lemma apply_le l m : Forall (fun cd : Counter * Z => 0 <= snd cd) l -> counters_le m (apply_adds l m).
Proof.
  intros Hl c. rewrite read_apply. destruct (read c m) as [x|]; [|done]. exists (x + added c l). split; [done|].
  pose proof (added_nonneg c l Hl). lia.
Qed.

Lemma fold_adds_nonneg x y : Forall (fun cd : Counter * Z => 0 <= snd cd) (fold_adds x y).
Proof. unfold fold_adds. cbn. repeat (constructor; [cbn; lia|]). constructor. Qed.

Definition value (f : Pump -> Z) (o : option Pump) : Z := match o with Some p => f p | None => 0 end.

Definition pending (f : Pump -> Z) (l : list (option Pump)) : Z :=
  fold_right (fun o acc => value f o + acc) 0 l.

Lemma pending_cons f o l : pending f (o :: l) = value f o + pending f l.
Proof. done. Qed.

Lemma pending_app f l o : pending f (l ++ [o]) = pending f l + value f o.
Proof. induction l as [|x l IH]; cbn [app]; rewrite !pending_cons; [cbn; lia|]. rewrite IH. lia. Qed.

Lemma pending_insert f l k o o' :
  l !! k = Some o -> pending f (<[k := o']> l) = pending f l - value f o + value f o'.
Proof.
  revert k. induction l as [|x l IH]; intros [|k] Hk; try done.
  - injection Hk as ->. change (<[0%nat := o']> (o :: l)) with (o' :: l). rewrite !pending_cons. lia.
  - change (<[S k := o']> (x :: l)) with (x :: <[k := o']> l). rewrite !pending_cons, (IH k) by done. lia.
Qed.

Lemma pending_none f l : Forall (fun o => o = None) l -> pending f l = 0.
Proof. induction 1 as [|o l -> _ IH]; [done|]. exact IH. Qed.

Definition written (l : list (nat * Effect)) : Z := tuns (snd <$> l).

Lemma written_app l k effs : written (l ++ ((fun e => (k, e)) <$> effs)) = written l + tuns effs.
Proof.
  unfold written, tuns. rewrite fmap_app, <- list_fmap_compose. 
  change (snd ∘ (fun e : Effect => (k, e))) with (fun e : Effect => e). rewrite list_fmap_id.
  rewrite List.filter_app, length_app. lia.
Qed.

Record NodeInv (n : Node) : Prop := mkNodeInv {
  ni_pumps : Forall (fun o => match o with Some p => PumpInv p | None => True end) (pumps n);
  ni_flights : Forall (Forall (fun cd : Counter * Z => 0 <= snd cd)) (flights n);
  ni_block : metrics_balanced (settled n);
  ni_received : received (settled n) + pending (fun p => fst (unpublished p)) (pumps n) = reads n;
  ni_forwarded : forwarded (settled n) + pending (fun p => snd (unpublished p)) (pumps n) = written (log n);
}.

(** The end of a pump publishes all it counted. *)
Lemma pump_drop_exact p sink :
  PumpInv p -> metrics_balanced sink ->
  metrics_balanced (pump_drop p sink) /\
  received (pump_drop p sink) = received sink + fst (unpublished p) /\
  forwarded (pump_drop p sink) = forwarded sink + snd (unpublished p).
Proof. intros [] Hs. unfold pump_drop. cbn. by apply fold_exact. Qed.

(** New folds settle after the old. *)
Lemma settled_more ps b fl more r l ps' r' l' : settled (mkNode ps b (fl ++ more) r l) = apply_adds (concat more) (settled (mkNode ps' b fl r' l')).
Proof. unfold settled. cbn. by rewrite concat_app, apply_app. Qed.

(** An addition that reaches the block was counted among those to come. *)
Lemma settled_lands n j fl i c d : flights n !! j = Some fl -> fl !! i = Some (c, d) ->
  settled (mkNode (pumps n) (fetch_add c d (block n)) (<[j := delete i fl]> (flights n)) (reads n) (log n)) = settled n.
Proof.
  intros Hj Hi. unfold settled. cbn [flights block].
  change (apply_adds ?l (fetch_add c d ?m)) with (apply_adds ((c, d) :: l) m). apply apply_same. intros x. apply added_perm.
  rewrite insert_take_drop by (by eapply lookup_lt_Some). rewrite <- (take_drop_middle _ _ _ Hj) at 3. rewrite !concat_app. cbn [concat].
  rewrite (delete_Permutation fl i (c, d) Hi) at 2. cbn [app]. by rewrite <- Permutation_middle.
Qed.

Lemma turn_adds_folds p p' m : apply_adds (turn_adds p p') m = fold m (pub p') (pub p).
Proof. done. Qed.

Lemma drop_adds_folds p m : apply_adds (drop_adds p) m = pump_drop p m.
Proof. done. Qed.

Lemma node_step_inv `{P : ControlPostcard} overhead n ev :
  NodeInv n -> exists n', node_step overhead n ev = Some n' /\ NodeInv n'.
Proof.
  intros [Hp Hfl Hb Hr Hf].
  assert (Hset : forall ps r l, settled (mkNode ps (block n) (flights n) r l) = settled n) by done.
  assert (Hnew : forall x y fl, Forall (Forall (fun cd : Counter * Z => 0 <= snd cd)) fl -> Forall (Forall (fun cd : Counter * Z => 0 <= snd cd)) (fold_adds x y :: fl))
    by (intros; constructor; [apply fold_adds_nonneg|done]).
  destruct ev as [a4 a6 pool now|k i|k|j i]; cbn [node_step].
  - eexists. split; [done|]. constructor; cbn [pumps block reads log flights]; try done.
    + apply Forall_app. split; [done|]. constructor; [apply pump_new_inv|done].
    + rewrite pending_app, Hset. change (value _ _) with 0. lia.
    + rewrite pending_app, Hset. change (value _ _) with 0. lia.
  - destruct (pumps n !! k) as [[p|]|] eqn:Hk; [|by eexists..].
    assert (Hpi : PumpInv p) by (by eapply (Forall_lookup_1 _ _ _ _ Hp) in Hk).
    destruct (handle_folds (overhead k) p i Hpi) as (p' & effs & go & Hh).
    destruct (handle_accounted (overhead k) p (settled n) i Hpi Hb) as (p2 & s & effs2 & go2 & Hacc & Hp' & Hs & Hr' & Hf').
    rewrite Hh in Hacc. injection Hacc as <- <- <- <-. rewrite Hh. cbn [mbind option_bind]. eexists. split; [done|].
    destruct (pump_drop_exact p' _ Hp' Hs) as (Hd & Hdr & Hdf).
    destruct go; constructor; cbn [pumps reads log flights]; rewrite ?(settled_more _ _ _ _ _ _ (pumps n) (reads n) (log n)), ?Hset;
      cbn [concat]; rewrite ?app_nil_r, ?apply_app, ?turn_adds_folds, ?drop_adds_folds, ?(pending_insert _ _ _ _ _ Hk), ?written_app; cbn [value]; try lia.
    + apply Forall_insert; done.
    + apply Forall_app. split; [done|]. by apply Hnew.
    + done.
    + by apply Forall_insert.
    + apply Forall_app. split; [done|]. by do 2 apply Hnew.
    + done.
  - destruct (pumps n !! k) as [[p|]|] eqn:Hk; [|by eexists..].
    assert (Hpi : PumpInv p) by (by eapply (Forall_lookup_1 _ _ _ _ Hp) in Hk).
    destruct (pump_drop_exact p (settled n) Hpi Hb) as (Hd & Hdr & Hdf).
    eexists. split; [done|]. constructor; cbn [pumps reads log flights]; rewrite ?(settled_more _ _ _ _ _ _ (pumps n) (reads n) (log n)), ?Hset;
      cbn [concat]; rewrite ?app_nil_r, ?drop_adds_folds, ?(pending_insert _ _ _ _ _ Hk); cbn [value]; try lia.
    + by apply Forall_insert.
    + apply Forall_app. split; [done|]. by apply Hnew.
    + done.
  - destruct (flights n !! j) as [fl|] eqn:Hj; [|by eexists]. destruct (fl !! i) as [[c d]|] eqn:Hi; [|by eexists].
    eexists. split; [done|]. constructor; rewrite ?(settled_lands n j fl i c d Hj Hi); cbn [pumps flights reads log]; try done.
    apply Forall_insert; [done|]. pose proof (Forall_lookup_1 _ _ _ _ Hfl Hj) as Hfl1. cbn in Hfl1.
    rewrite (delete_Permutation fl i (c, d) Hi) in Hfl1. by apply Forall_cons in Hfl1 as [_ ?].
Qed.

Lemma node_run_inv `{P : ControlPostcard} overhead evs n :
  NodeInv n -> exists n', node_run overhead n evs = Some n' /\ NodeInv n'.
Proof.
  revert n. induction evs as [|ev evs IH]; intros n Hn; [by exists n|]. cbn [node_run].
  destruct (node_step_inv overhead n ev Hn) as (n' & -> & Hn'). by apply IH.
Qed.

Lemma counters_le_refl m : counters_le m m.
Proof. intros c. destruct (read c m) as [x|]; [|done]. exists x. split; [done|lia]. Qed.

(** No counter of the block ever falls. *)
Lemma node_step_grows `{P : ControlPostcard} overhead n ev n' :
  NodeInv n -> node_step overhead n ev = Some n' -> counters_le (block n) (block n').
Proof.
  intros [_ Hfl _ _ _]. destruct ev as [a4 a6 pool now|k i|k|j i]; cbn [node_step].
  - intros [= <-]. apply counters_le_refl.
  - destruct (pumps n !! k) as [[p|]|]; [|intros [= <-]; apply counters_le_refl..].
    destruct (handle _ _ _ _) as [[[[p' s] effs] []]|]; cbn [mbind option_bind]; [intros [= <-]; apply counters_le_refl..|done].
  - destruct (pumps n !! k) as [[p|]|]; intros [= <-]; apply counters_le_refl.
  - destruct (flights n !! j) as [fl|] eqn:Hj; [|intros [= <-]; apply counters_le_refl].
    destruct (fl !! i) as [[c d]|] eqn:Hi; intros [= <-]; [|apply counters_le_refl]. cbn [block].
    apply (apply_le [(c, d)]). pose proof (Forall_lookup_1 _ _ _ _ Hfl Hj) as Hfl1. cbn in Hfl1.
    constructor; [|done]. exact (Forall_lookup_1 _ _ _ _ Hfl1 Hi).
Qed.

Lemma node_run_grows `{P : ControlPostcard} overhead evs n n' :
  NodeInv n -> node_run overhead n evs = Some n' -> counters_le (block n) (block n').
Proof.
  revert n. induction evs as [|ev evs IH]; intros n Hn; cbn [node_run]; [intros [= <-]; apply counters_le_refl|].
  destruct (node_step_inv overhead n ev Hn) as (n1 & E & Hn1). rewrite E. cbn [mbind option_bind]. intros Hr.
  eapply counters_le_trans; [by eapply node_step_grows|by apply IH].
Qed.


