(* ===== verification/UplinkSafety.v ===== *)
(** What the exit's uplink pump lets through: every packet written to the TUN, and
    every flow announced to the router, carries the address the connection was
    assigned and is not addressed to another client, and the MSS clamp behind the
    gates does not change that. *)

From S2P Require Import Prelude IpPackets Checksum InnerMtu FlowKeys Control UplinkPump UplinkAccounting.

(** ** The clamp keeps the addresses *)

Lemma slice_agree l l' a b :
  length l' = length l -> (forall x, (a <= x < b)%nat -> l' !! x = l !! x) -> slice l' a b = slice l a b.
Proof.
  intros Hl Ha. unfold slice. rewrite Hl. destruct (Nat.leb_spec a b), (Nat.leb_spec b (length l)); try done.
  cbn [andb]. f_equal. apply list_eq. intros i. destruct (decide (i < b - a)%nat).
  - rewrite !lookup_take_lt, !lookup_drop by lia. apply Ha. lia.
  - by rewrite !lookup_take_ge by lia.
Qed.

Lemma extract_agree l l' min v a b b0 :
  length l' = length l -> l !! O = Some b0 -> l' !! O = Some b0 ->
  (nibble b0 = v -> forall x, (a <= x < b)%nat -> l' !! x = l !! x) ->
  extract min v a b l' = extract min v a b l.
Proof.
  intros Hl H0 H0' Ha. unfold extract. rewrite Hl, H0, H0'. destruct (length l <? min)%nat; [done|].
  cbn [mbind option_bind]. destruct (Z.eqb_spec (nibble b0) v); [|done]. by rewrite (slice_agree l l' a b) by auto.
Qed.

Lemma tcp_offset_v6 pkt b0 tcp v6 :
  pkt !! O = Some b0 -> nibble b0 = 6 -> syn_tcp_offset pkt = Some (Some (tcp, v6)) -> tcp = 40%nat.
Proof.
  destruct pkt as [|first l]; [done|]. intros [= ->] Hn. unfold syn_tcp_offset. rewrite Hn.
  change (6 =? 4) with false. change (6 =? 6) with true. cbv iota.
  destruct (_ <? _)%nat; [done|]. destruct ((b0 :: l) !! 6%nat); [|done]. cbn [mbind option_bind].
  destruct (negb _); [done|]. by intros [= <- _].
Qed.

(** The clamp changes no byte of the network header. *)
Lemma clamp_header pkt max_inner pkt' r :
  in_width 16 max_inner -> clamp_syn_mss pkt max_inner = Some (pkt', r) ->
  length pkt' = length pkt /\ forall b0, pkt !! O = Some b0 ->
    forall x, (x < 20)%nat \/ nibble b0 = 6 /\ (x < 40)%nat -> pkt' !! x = pkt !! x.
Proof.
  intros Hm E. destruct (clamp_cases pkt max_inner Hm) as [E'|(tcp & v6 & j & old & ck & p & Hc & E' & _)];
    rewrite E' in E; [by simplify_eq|]. injection E as -> _.
  destruct Hc as [Ht _ (Ht20 & Hj & _) _ _ _ _ _ ->]. rewrite !length_put_word. split; [done|].
  intros b0 Hb x Hx. destruct (decide (nibble b0 = 6)) as [H6|].
  - rewrite (tcp_offset_v6 pkt b0 tcp v6 Hb H6 Ht) in *. by rewrite !lookup_put_word_ne by lia.
  - rewrite !lookup_put_word_ne by lia. done.
Qed.

(** Two packets with the same network header. *)
Definition same_header (l l' : list Z) : Prop :=
  length l' = length l /\ forall b0, l !! O = Some b0 ->
    forall x, (x < 20)%nat \/ nibble b0 = 6 /\ (x < 40)%nat -> l' !! x = l !! x.

Lemma same_header_extract l l' :
  same_header l l' ->
  extract_src_ipv4 l' = extract_src_ipv4 l /\ extract_dst_ipv4 l' = extract_dst_ipv4 l /\
  extract_src_ipv6 l' = extract_src_ipv6 l /\ extract_dst_ipv6 l' = extract_dst_ipv6 l.
Proof.
  intros [Hl Ha]. destruct (l !! O) as [b0|] eqn:H0.
  - assert (H0' : l' !! O = Some b0) by (rewrite (Ha b0) by (done || lia); done).
    split; [|split; [|split]]; apply (extract_agree _ _ _ _ _ _ b0 Hl H0 H0'); intros Hn x Hx; apply (Ha b0 eq_refl); lia.
  - destruct l; [|done]. by destruct l'.
Qed.

Lemma clamp_uplink_header pkt mds overhead pkt' :
  clamp_uplink pkt mds overhead = Some pkt' -> same_header pkt pkt'.
Proof.
  unfold clamp_uplink. destruct (is_tcp_syn_total pkt) as [b ->]. cbn [mbind option_bind].
  destruct b; cbn [negb]; [|by intros [= <-]]. unfold clamp_mss_logged.
  destruct (clamp_syn_mss pkt _) as [[p r]|] eqn:E; [|done]. intros [= <-].
  exact (clamp_header _ _ _ _ (inner_budget_width _ _) E).
Qed.

(** ** What one turn lets through *)

(** The gates of a connection: its addresses and the pool of the exit. *)
Record Gates := mkGates {
  gate_v4 : Z;
  gate_v6 : option Z;
  gate_pool : TunnelPool;
}.

Definition gates_of (p : Pump) : Gates :=
  mkGates (SpoofGate.v4 (spoof_gate p)) (SpoofGate.v6 (spoof_gate p)) (PoolGate.pool (pool_gate p)).

(** A packet from the connection's own address, to the gateway or out of the pool. *)
Definition passes (g : Gates) (pkt : list Z) : Prop :=
  (extract_src_ipv4 pkt = Some (Some (gate_v4 g)) /\
   exists dst, extract_dst_ipv4 pkt = Some (Some dst) /\
     (dst = v4_gateway (gate_pool g) \/ holds_v4 (gate_pool g) dst = false)) \/
  (exists a dst, gate_v6 g = Some a /\ extract_src_ipv6 pkt = Some (Some a) /\
     extract_dst_ipv6 pkt = Some (Some dst) /\
     forall net gw, v6_net (gate_pool g) = Some (net, gw) -> dst = gw \/ Z.shiftr dst 64 <> Z.shiftr net 64).

Lemma same_header_passes g l l' : same_header l l' -> passes g l -> passes g l'.
Proof.
  intros (E1 & E2 & E3 & E4)%same_header_extract. unfold passes. by rewrite E1, E2, E3, E4.
Qed.

(** An address extracted at one place of a header can be extracted at the other. *)
Lemma extract_other min v a b a' b' pkt x :
  extract min v a b pkt = Some (Some x) -> (a' <= b' <= min)%nat ->
  exists y, extract min v a' b' pkt = Some (Some y).
Proof.
  intros (Hl & (b0 & H0 & Hn) & _)%extract_spec Hab. unfold extract.
  destruct (Nat.ltb_spec (length pkt) min); [lia|]. rewrite H0. cbn [mbind option_bind]. rewrite Hn, Z.eqb_refl.
  cbn [negb]. rewrite slice_some by lia. by eexists.
Qed.

Lemma gates_pass `{P : ControlPostcard} g pkt :
  classify_uplink pkt = Packet -> classify_source pkt (gate_v4 g) (gate_v6 g) = Some None ->
  classify_destination pkt (gate_pool g) = Some None -> passes g pkt.
Proof.
  intros (b0 & H0 & [Hn|Hn])%packet_has_version Hs Hd.
  - left. pose proof (source_admitted_v4 pkt b0 _ _ H0 Hn Hs) as Hsrc. split; [done|].
    destruct (extract_other _ _ _ _ 16 20 pkt _ Hsrc) as [dst Hdst]; [unfold IpPackets.IPV4_MIN_HEADER; lia|].
    exists dst. split; [done|]. by eapply destination_admitted_v4.
  - right. destruct (source_admitted_v6 pkt b0 _ _ H0 Hn Hs) as (a & Ha & Hsrc).
    destruct (extract_other _ _ _ _ 24 40 pkt _ Hsrc) as [dst Hdst]; [unfold IPV6_MIN_HEADER; lia|].
    exists a, dst. do 3 (split; [done|]). intros net gw Hv. by eapply destination_admitted_v6.
Qed.

(** What an effect on the network or the router guarantees. *)
Definition safe_effect (g : Gates) (e : Effect) : Prop :=
  match e with
  | ToTun pkt | NoteUplink pkt => passes g pkt
  | SubmitAnchor _ _ _ | SubmitLeaseRefresh _ _ => True
  end.

(** A result of the loop that keeps the gates armed and whose effects are safe. *)
Definition safe_turn (g : Gates) (r : option (Pump * UplinkMetrics * list Effect * bool)) : Prop :=
  forall p s effs go, r = Some (p, s, effs, go) -> gates_of p = g /\ Forall (safe_effect g) effs.

Lemma emit_gates p now s : gates_of (fst (emit p now s)) = gates_of p.
Proof. unfold emit, RxReport.maybe_emit. destruct (negb _ || _); done. Qed.

Lemma emit_safe g p now s effs go :
  gates_of p = g -> Forall (safe_effect g) effs ->
  safe_turn g (let '(p, s) := emit p now s in Some (p, s, effs, go)).
Proof.
  intros Hp He p' s' effs' go'. pose proof (emit_gates p now s) as Hg. destruct (emit p now s) as [p1 s1].
  intros [= <- <- <- <-]. cbn in Hg. by split; [congruence|].
Qed.

Section Turn.
Context `{P : ControlPostcard}.
Variable frame_overhead : Z.

Lemma forward_safe p s i pkt :
  passes (gates_of p) pkt -> safe_turn (gates_of p) (forward frame_overhead p s i pkt).
Proof.
  intros Hp. unfold forward. destruct (noter_total (flows p) pkt) as [[f first] ->]. cbn [mbind option_bind].
  destruct (clamp_uplink pkt (max_datagram_size i) frame_overhead) as [packet|] eqn:Ec; [|done].
  cbn [mbind option_bind]. destruct (TunWriter.write _ _) as [w result].
  assert (He : Forall (safe_effect (gates_of p))
                 ((if first then [NoteUplink pkt] else []) ++ (if tun_sends i then [ToTun packet] else []))).
  { apply Forall_app. split; [destruct first; [by apply Forall_singleton|by apply Forall_nil]|].
    destruct (tun_sends i); [|by apply Forall_nil]. apply Forall_singleton.
    exact (same_header_passes _ _ _ (clamp_uplink_header _ _ _ _ Ec) Hp). }
  destruct result; [by apply emit_safe..|]. by intros p' s' effs go [= <- <- <- <-].
Qed.

Lemma gates_safe p s i pkt :
  classify_uplink pkt = Packet -> safe_turn (gates_of p) (gates frame_overhead p s i pkt).
Proof.
  intros Hk. unfold gates, SpoofGate.admits.
  destruct (classify_source pkt (SpoofGate.v4 (spoof_gate p)) (SpoofGate.v6 (spoof_gate p))) as [[refusal|]|] eqn:Es;
    cbn [mbind option_bind]; [destruct (hit_slot _ _); cbn [mbind option_bind]; [by apply emit_safe|done]| |done].
  unfold PoolGate.admits. cbn [negb]. destruct (classify_destination pkt _) as [[refusal|]|] eqn:Ed;
    cbn [mbind option_bind]; [destruct (hit_slot _ _); cbn [mbind option_bind]; [by apply emit_safe|done]| |done].
  cbn [negb]. destruct (admitted_by_rate i); cbn [negb]; [|by apply emit_safe].
  set (q := set_pool_gate _ _). change (gates_of p) with (gates_of q).
  apply forward_safe. by apply gates_pass.
Qed.

Lemma handle_safe p s i : safe_turn (gates_of p) (handle frame_overhead p s i).
Proof.
  unfold handle. pose proof (emit_gates p (now_top i) s) as Hg. destruct (emit p (now_top i) s) as [p1 s1].
  cbn in Hg. rewrite <- Hg. destruct (front i) as [| |own| | |pkt].
  all: try (by intros p' s' effs go [= <- <- <- <-]).
  - intros p' s' effs go [= <- <- <- <-]. by destruct own.
  - destruct (classify_uplink pkt) eqn:Hk.
    1: by apply (gates_safe (count inc_opened (count inc_datagrams p1))).
    all: intros p' s' effs go [= <- <- <- <-]; split; [done|]; first [by apply Forall_singleton|by apply Forall_nil_2].
Qed.

End Turn.

(** ** The node *)

(** The gates of the connections, in the order they were opened. *)
Definition opens (evs : list NodeEvent) : list Gates :=
  omap (fun ev => match ev with OpenConn a4 a6 pool _ => Some (mkGates a4 a6 pool) | _ => None end) evs.

Record GateInv (gs : list Gates) (n : Node) : Prop := mkGateInv {
  gi_pumps : length (pumps n) = length gs /\
    forall k p, pumps n !! k = Some (Some p) -> gs !! k = Some (gates_of p);
  gi_log : Forall (fun ke : nat * Effect => exists g, gs !! fst ke = Some g /\ safe_effect g (snd ke)) (log n);
}.

Lemma gate_inv_insert gs n k p o s fl r l :
  GateInv gs n -> pumps n !! k = Some (Some p) ->
  (forall p', o = Some p' -> gates_of p' = gates_of p) -> Forall (safe_effect (gates_of p)) l ->
  GateInv gs (mkNode (<[k := o]> (pumps n)) s fl r (log n ++ ((fun e => (k, e)) <$> l))).
Proof.
  intros [[Hl Hp] Hlog] Hk Ho He. constructor; cbn [pumps log].
  - rewrite length_insert. split; [done|]. intros k' p'. rewrite list_lookup_insert. case_decide as Hd.
    + destruct Hd as [<- _]. intros [= Hp']. rewrite (Ho p') by done. by apply Hp.
    + apply Hp.
  - apply Forall_app. split; [done|]. apply Forall_fmap. eapply Forall_impl; [exact He|].
    intros e Hsafe. exists (gates_of p). split; [|done]. by apply Hp.
Qed.

Lemma gate_step `{P : ControlPostcard} overhead gs n ev n' :
  GateInv gs n -> node_step overhead n ev = Some n' -> GateInv (gs ++ opens [ev]) n'.
Proof.
  intros Hn. destruct ev as [a4 a6 pool now|k i|k|j i]; cbn [node_step opens omap list_omap]; rewrite ?app_nil_r.
  - intros [= <-]. destruct Hn as [[Hl Hp] Hlog]. constructor; cbn [pumps log].
    + rewrite !length_app, Hl. split; [done|]. intros k p Hk.
      apply lookup_app_Some in Hk as [Hk|[Hge Hk]]; [by apply lookup_app_l_Some, Hp|].
      rewrite lookup_app_r by lia. rewrite <- Hl. destruct (k - length (pumps n))%nat; [|done]. by injection Hk as <-.
    + eapply Forall_impl; [exact Hlog|]. intros ke (g & Hg & Hs). exists g. split; [by apply lookup_app_l_Some|done].
  - destruct (pumps n !! k) as [[p|]|] eqn:Hk; [|by intros [= <-]..].
    destruct (handle (overhead k) p (block n) i) as [[[[p' s] effs] go]|] eqn:E; [|done].
    destruct (handle_safe (overhead k) p (block n) i p' s effs go E) as [Hg He].
    cbn [mbind option_bind]. intros [= <-].
    destruct go; eapply gate_inv_insert; try done; [by intros p'' [= <-]].
  - destruct (pumps n !! k) as [[p|]|] eqn:Hk; [|by intros [= <-]..]. intros [= <-].
    pose proof (gate_inv_insert gs n k p None (block n) (flights n ++ [drop_adds p]) (reads n) [] Hn Hk) as H.
    rewrite app_nil_r in H. by apply H.
  - destruct (flights n !! j) as [fl|]; [|by intros [= <-]]. destruct (fl !! i) as [[c d]|]; intros [= <-]; [|done].
    by destruct Hn; constructor.
Qed.

Lemma gate_run `{P : ControlPostcard} overhead evs gs n n' :
  GateInv gs n -> node_run overhead n evs = Some n' -> GateInv (gs ++ opens evs) n'.
Proof.
  revert gs n. induction evs as [|ev evs IH]; intros gs n Hn; cbn [node_run].
  - intros [= <-]. by rewrite app_nil_r.
  - destruct (node_step overhead n ev) as [n1|] eqn:E; [|done]. cbn [mbind option_bind]. intros Hr.
    replace (opens (ev :: evs)) with (opens [ev] ++ opens evs) by
      (change (ev :: evs) with ([ev] ++ evs); unfold opens; by rewrite omap_app).
    rewrite app_assoc. eapply IH; [|exact Hr]. by eapply gate_step.
Qed.

(** C11.  Nothing leaves the exit with a source the connection was not assigned, or
    toward a client's address: whatever the clients send and however the pumps
    interleave, each packet written to the TUN, and each flow announced to the
    downlink router, comes from the inner address of the connection that sent it
    and is addressed to the gateway or outside the client pool. *)
Theorem tun_is_gated `{P : ControlPostcard} overhead evs n k e :
  node_run overhead node_initial evs = Some n -> (k, e) ∈ log n ->
  exists g, opens evs !! k = Some g /\ safe_effect g e.
Proof.
  intros E Hin. assert (H0 : GateInv [] node_initial) by (by constructor).
  destruct (gate_run overhead evs [] node_initial n H0 E) as [_ Hlog].
  exact (proj1 (Forall_forall _ _) Hlog (k, e) Hin).
Qed.

(** One connection sends a packet to a public address and one to its neighbour. *)
Definition toy_pool : TunnelPool := pool_new (ipv4 10 66 0 0) 16 (ipv4 10 66 0 1).

Definition toy_input (plaintext : list Z) : Input := mkInput (Opened plaintext) 0 0 true None true.

Definition toy_node_events : list NodeEvent :=
  [OpenConn (ipv4 10 66 0 5) None toy_pool 0; Read 0 (toy_input sample_out);
   Read 0 (toy_input ([69; 0; 0; 40; 0; 0; 0; 0; 64; 6; 0; 0; 10; 66; 0; 5; 10; 66; 0; 7] ++ replicate 20 0))].

Lemma tun_is_gated_witness :
  exists n g, node_run (P := toy_control_postcard) (fun _ => 83) node_initial toy_node_events = Some n /\
    snd <$> log n = [NoteUplink sample_out; ToTun sample_out] /\ safe_effect g (ToTun sample_out).
Proof.
  destruct (node_run (P := toy_control_postcard) (fun _ => 83) node_initial toy_node_events) as [n|] eqn:E;
    [|by vm_compute in E].
  destruct (tun_is_gated (P := toy_control_postcard) (fun _ => 83) toy_node_events n 0 (ToTun sample_out) E) as (g & _ & Hg).
  { vm_compute in E. injection E as <-. cbn [log]. right. left. }
  exists n, g. split; [done|]. split; [|done]. vm_compute in E. by injection E as <-.
Defined.
