(* ===== verification/UplinkIsolation.v ===== *)
(** Clients of one exit cannot reach each other: the gates of the uplink pump, armed
    from the address pools ([tunnel_pool] of
    [crates/warrenguard-multihop-server/src/multihop.rs]), refuse every address the
    pools hand out. *)

From S2P Require Import Prelude IpPackets Checksum InnerMtu FlowKeys Control UplinkPump UplinkAccounting UplinkSafety.
From S2P Require Import IpHoldings IpPool IpPoolInv IpPoolGuarantees IpPoolV6.
Import IpAllocator.

Definition tunnel_pool (v4 : IpAllocator.t) (v6 : option IpAllocatorV6.t) : TunnelPool :=
  let pool := pool_new (network v4) (prefix_len v4) (gateway v4) in
  match v6 with
  | None => pool
  | Some alloc6 => with_v6 pool (IpAllocatorV6.network alloc6) (IpAllocatorV6.gateway alloc6)
  end.

(** ** The subnet of a pool never changes *)

Definition same_subnet (p p' : t) : Prop :=
  network p' = network p /\ prefix_len p' = prefix_len p /\ gateway p' = gateway p.

Lemma pool_step_subnet p p' : pool_step p p' -> PInv p -> same_subnet p p'.
Proof.
  intros [c q|c k intent now may q|c q|from to q|addrs now q|f q Hq] HI.
  - destruct (Holdings.address_of (used q) c) eqn:Ec.
    { unfold allocate. by rewrite Ec. }
    destruct (allocate c q) as [q' r] eqn:E. apply allocate_spec in E as (_ & Hs & _); [|done|done].
    by destruct Hs as (? & ? & ? & _).
  - destruct (Holdings.address_of (used q) c) eqn:Ec.
    { unfold allocate_at. by rewrite Ec. }
    destruct (allocate_at c k intent now may q) as [q' r] eqn:E. apply allocate_at_spec in E as (_ & Hs & _); [|done|done].
    by destruct Hs as (? & ? & ? & _).
  - unfold release. by repeat case_match.
  - unfold transfer_owner. by repeat case_match.
  - done.
  - done.
Qed.

(** A pool of an exit: built from a 32-bit network and a prefix length, and then
    used. *)
Definition deployed (p : t) : Prop :=
  exists n pl g seed p0, in_width 32 n /\ in_width 8 pl /\ with_seed n pl g seed = Ok p0 /\ rtc pool_step p0 p.

Lemma deployed_reachable p : deployed p -> reachable p.
Proof. intros (n & pl & g & seed & p0 & _ & _ & E & Hs). by exists n, pl, g, seed, p0. Qed.

Lemma with_seed_subnet n pl g seed p :
  in_width 32 n -> in_width 8 pl -> with_seed n pl g seed = Ok p ->
  in_width 32 (network p) /\ 1 <= prefix_len p <= 32 /\ exists q, network p = 2 ^ (32 - prefix_len p) * q.
Proof.
  unfold with_seed. intros Hn Hpl. destruct (Z.eqb_spec pl 0); [done|]. destruct (Z.ltb_spec 32 pl); [done|].
  cbn [orb]. destruct (negb _); [done|]. destruct (_ =? 0); [done|].
  destruct (hosts _ _ _); [done|]. intros [= <-]. cbn [network prefix_len].
  assert (Hp : 1 <= pl <= 32) by (unfold in_width in Hpl; lia).
  rewrite land_netmask by done. split; [|split; [done|by eexists]].
  assert (0 < 2 ^ (32 - pl)) by (apply Z.pow_pos_nonneg; lia). unfold in_width in *.
  pose proof (Z.mul_div_le n (2 ^ (32 - pl))). assert (0 <= n / 2 ^ (32 - pl)) by (apply Z.div_pos; lia). nia.
Qed.

Lemma deployed_subnet p :
  deployed p -> in_width 32 (network p) /\ 1 <= prefix_len p <= 32 /\
    exists q, network p = 2 ^ (32 - prefix_len p) * q.
Proof.
  intros (n & pl & g & seed & p0 & Hn & Hpl & E & Hs). pose proof (with_seed_subnet _ _ _ _ _ Hn Hpl E) as H0.
  assert (HI : PInv p0) by (by eapply with_seed_inv). clear E.
  induction Hs as [|p1 p2 p3 Hs _ IH]; [done|]. destruct (pool_step_subnet p1 p2 Hs HI) as (E1 & E2 & _).
  apply IH; [by rewrite E1, E2|]. by eapply pool_step_inv.
Qed.

(** ** The gate refuses every host of the pool *)

Lemma host_in_pool p v6 a :
  deployed p -> a ∈ pool_hosts p -> holds_v4 (tunnel_pool p v6) a = true /\ a <> gateway p.
Proof.
  intros Hd Ha. destruct (deployed_subnet p Hd) as (Hn & Hpl & q & Hq).
  unfold pool_hosts in Ha. rewrite Hq, broadcast_arith, <- Hq in Ha by lia.
  apply hosts_elem in Ha as [Hr Hg]. split; [|done].
  assert (Hp : 0 < 2 ^ (32 - prefix_len p)) by (apply Z.pow_pos_nonneg; lia).
  assert (Hw : in_width 32 a).
  { unfold in_width in *. split; [lia|].
    assert (2 ^ 32 = 2 ^ (32 - prefix_len p) * 2 ^ prefix_len p) as E by (rewrite <- Z.pow_add_r by lia; f_equal; lia).
    assert (q < 2 ^ prefix_len p) by nia. nia. }
  assert (Hpool : v4_network (tunnel_pool p v6) = network p /\ v4_prefix_len (tunnel_pool p v6) = prefix_len p)
    by (by destruct v6).
  destruct Hpool as [E1 E2]. apply holds_v4_spec; rewrite ?E1, ?E2; try done.
  rewrite Hq. set (b := 2 ^ (32 - prefix_len p)) in *. rewrite (Z.mul_comm b q), Z.div_mul by lia.
  symmetry. apply (Z.div_unique_pos a b q (a - b * q)); lia.
Qed.

Lemma held_address_refused p v6 c a :
  deployed p -> Holdings.address_of (used p) c = Some a ->
  holds_v4 (tunnel_pool p v6) a = true /\ a <> v4_gateway (tunnel_pool p v6).
Proof.
  intros Hd Hc. pose proof (reachable_inv p (deployed_reachable p Hd)) as HI.
  assert (Hh : a ∈ pool_hosts p) by (apply (pi_cover _ _ HI); right; right; by exists c).
  destruct (host_in_pool p v6 a Hd Hh) as [? ?]. split; [done|]. by destruct v6.
Qed.

Lemma held_v6_refused q c o :
  v6_reachable q -> Holdings.address_of (IpAllocatorV6.used q) c = Some o ->
  Z.shiftr (IpAllocatorV6.addr_of q o) 64 = Z.shiftr (IpAllocatorV6.network q) 64 /\
  IpAllocatorV6.addr_of q o <> IpAllocatorV6.gateway q.
Proof.
  intros HI%v6_reachable_inv Hc. assert (Hv : 2 <= o < 2 ^ 64) by (apply (vi_valid _ _ HI); right; right; by exists c).
  destruct (vi_net _ _ HI) as (n & Hn & Hg). unfold IpAllocatorV6.addr_of. rewrite Hg, Hn, lor_low by lia.
  rewrite !Z.shiftr_div_pow2 by lia. rewrite Z.div_mul by lia. split; [|lia].
  symmetry. apply (Z.div_unique_pos _ _ n o); lia.
Qed.

(** C12.  Two clients of an exit cannot reach each other through it: when the gates
    are armed from the exit's own pools, no packet that any connection gets written
    to the TUN is addressed to the IPv4 or the IPv6 address any connection holds,
    in any state the pools can reach. *)
Theorem clients_isolated `{P : ControlPostcard} overhead evs n k pkt p q :
  deployed p -> v6_reachable q ->
  (forall g, g ∈ opens evs -> gate_pool g = tunnel_pool p (Some q)) ->
  node_run overhead node_initial evs = Some n -> (k, ToTun pkt) ∈ log n ->
  (forall c a, Holdings.address_of (used p) c = Some a -> extract_dst_ipv4 pkt <> Some (Some a)) /\
  (forall c o, Holdings.address_of (IpAllocatorV6.used q) c = Some o ->
     extract_dst_ipv6 pkt <> Some (Some (IpAllocatorV6.addr_of q o))).
Proof.
  intros Hp Hq Hg E Hin. assert (H0 : GateInv [] node_initial) by (by constructor).
  destruct (gate_run overhead evs [] node_initial n H0 E) as [_ Hlog].
  destruct (proj1 (Forall_forall _ _) Hlog _ Hin) as (g & Hk & Hs). cbn in Hs, Hk.
  pose proof (Hg g (list_elem_of_lookup_2 _ _ _ Hk)) as Hpool. split.
  - intros c a Hc Hdst. destruct (held_address_refused p (Some q) c a Hp Hc) as [Hh Hgw].
    destruct Hs as [(_ & dst & Hd & Hout)|(x & dst & _ & Hsrc & _ & _)].
    + rewrite Hpool in Hout. destruct Hout; congruence.
    + apply extract_spec in Hsrc as (_ & (b & Hb & Hn) & _). apply extract_spec in Hdst as (_ & (b' & Hb' & Hn') & _).
      congruence.
  - intros c o Hc Hdst. destruct (held_v6_refused q c o Hq Hc) as [Hh Hgw].
    destruct Hs as [(Hsrc & _)|(x & dst & _ & _ & Hd & Hout)].
    + apply extract_spec in Hsrc as (_ & (b & Hb & Hn) & _). apply extract_spec in Hdst as (_ & (b' & Hb' & Hn') & _).
      congruence.
    + rewrite Hpool in Hout. destruct (Hout _ _ eq_refl); congruence.
Qed.

(** ** Two sessions of 10.66.0.0/29 *)

Lemma shared_pool_deployed : deployed shared_pool.
Proof.
  eexists 0x0A420000, 29, 0x0A420001, 7, _. split; [done|]. split; [done|]. split; [vm_compute; reflexivity|].
  eapply rtc_l; [apply (step_claims (fun a => a =? 0x0A420004)); left; reflexivity|].
  eapply rtc_l; [apply (step_allocate_at 1 77 Legacy 0 false)|].
  apply rtc_once. apply (step_allocate_at 2 77 Legacy 0 false).
Qed.

Definition outbound : list Z :=
  [69; 0; 0; 24; 0; 0; 0; 0; 64; 17; 0; 0] ++ be_bytes 4 shared_addr ++ [93; 184; 216; 34; 16; 225; 1; 187].

Definition isolation_events : list NodeEvent :=
  [OpenConn shared_addr None (tunnel_pool shared_pool (Some small_v6_used)) 0; Read 0 (toy_input outbound)].

Lemma clients_isolated_witness :
  exists n, node_run (P := toy_control_postcard) (fun _ => 83) node_initial isolation_events = Some n /\
    (0%nat, ToTun outbound) ∈ log n /\ extract_dst_ipv4 outbound <> Some (Some shared_addr).
Proof.
  destruct (node_run (P := toy_control_postcard) (fun _ => 83) node_initial isolation_events) as [n|] eqn:E;
    [|by vm_compute in E].
  assert (Hin : (0%nat, ToTun outbound) ∈ log n).
  { vm_compute in E. injection E as <-. cbn [log]. right. left. }
  exists n. split; [done|]. split; [done|].
  apply (proj1 (clients_isolated (P := toy_control_postcard) (fun _ => 83) isolation_events n 0 outbound
    shared_pool small_v6_used shared_pool_deployed small_v6_reachable
    (fun g Hg => ltac:(apply list_elem_of_singleton in Hg as ->; reflexivity)) E Hin) 1).
  vm_compute. reflexivity.
Defined.
