(* ===== verification/RouteTable.v ===== *)
(** The downlink router of the exit
    ([crates/warrenguard-multihop-server/src/multihop.rs]): the per-address fan-out
    [RouteSlot], the address-generic [RouteTable], the router over both families,
    the patrol and the takeover re-check, the reader of the TUN device.

    A downlink channel, a connection's activity counter, a connection's QUIC handle
    and a stale flag are shared objects: each is a name (a [nat]), and two handles
    are the same channel when the names are equal.  Stale flags are the cells of the
    table, because the patrol writes them through a handle it kept; what the code
    reads from channels, counters and connections is the [World] at the moment of
    the read.  Everything under one lock is one step.

    [None] is a panic, as for every function that indexes. *)

From S2P Require Import Prelude IpPackets FlowKeys.

Definition MAX_SENDERS_PER_IP : nat := 16.
Definition TAKEOVER_STALE_ROUNDS : Z := 13.
Definition PATROL_SILENT_ROUNDS : Z := 5.
Definition PATROL_STALE_ROUNDS : Z := 24.

(** The order in which a [HashMap] is iterated is unspecified. *)
Class HashOrder := hash_iter : forall {V}, gmap Z V -> list (Z * V).
Class HashOrderLaws (H : HashOrder) := hash_iter_perm : forall V (m : gmap Z V), hash_iter m ≡ₚ map_to_list m.

#[export] Instance key_order : HashOrder := fun _ m => map_to_list m.
#[export] Instance key_order_laws : HashOrderLaws key_order.
Proof. by intros V m. Qed.

(** What [try_send] says of a channel.  Within one packet's dispatch a channel is
    tried once: a closed one is removed before the next attempt. *)
Inductive SendResult := Accepted | QueueFull | ReceiverGone.

Record World := mkWorld {
  load : nat -> Z;
  packets_from_peer : nat -> Z;
  is_closed : nat -> bool;
  try_send : nat -> SendResult;
}.

Record Downlink := mkDownlink {
  tx : nat;
  activity : option nat;
  peer : option nat;
  stale : nat;
}.

Module RouteSlot.

Record t := mk {
  senders : list Downlink;
  rr : Z;
  flows : gmap Z nat;
}.

Definition new (tx stale : nat) : t := mk [mkDownlink tx None None stale] 0 ∅.

Definition set_senders (l : list Downlink) (s : t) : t := mk l (rr s) (flows s).
Definition set_rr (n : Z) (s : t) : t := mk (senders s) n (flows s).
Definition set_flows (f : gmap Z nat) (s : t) : t := mk (senders s) (rr s) f.

Definition note_flow `{HashOrder} (key : Z) (owner : nat) (s : t) : t :=
  match flows s !! key with
  | Some _ => s
  | None =>
      let f :=
        if FlowNoter.FLOW_TABLE_CAP_PER_IP <=? Z.of_nat (size (flows s)) then
          match hash_iter (flows s) with
          | (victim, _) :: _ => delete victim (flows s)
          | [] => flows s
          end
        else flows s in
      set_flows (<[key := owner]> f) s
  end.

End RouteSlot.

Record PredecessorSnapshot := mkPredecessor {
  p_tx : nat;
  p_activity : nat;
  p_activity_seen : Z;
  p_peer : option nat;
  p_packets_seen : Z;
}.

Record PatrolCandidate := mkCandidate {
  c_tx : nat;
  c_activity : nat;
  c_peer : nat;
  c_stale : nat;
}.

Module PatrolWatch.

Record t := mk {
  who : PatrolCandidate;
  activity_seen : Z;
  peer_packets_seen : Z;
  app_silent_rounds : Z;
  peer_silent_rounds : Z;
}.

Definition new (who : PatrolCandidate) (activity packets : Z) : t := mk who activity packets 0 0.

(** [u32::saturating_add]. *)
Definition one_more (n : Z) : Z := Z.min u32_max (n + 1).

Definition observe (activity packets : Z) (w : t) : t :=
  let w :=
    if activity =? activity_seen w
    then mk (who w) (activity_seen w) (peer_packets_seen w) (one_more (app_silent_rounds w)) (peer_silent_rounds w)
    else mk (who w) activity (peer_packets_seen w) 0 (peer_silent_rounds w) in
  if packets =? peer_packets_seen w
  then mk (who w) (activity_seen w) (peer_packets_seen w) (app_silent_rounds w) (one_more (peer_silent_rounds w))
  else mk (who w) (activity_seen w) packets (app_silent_rounds w) 0.

Definition silent_rounds (w : t) : Z := Z.min (app_silent_rounds w) (peer_silent_rounds w).

End PatrolWatch.

Inductive EvictReason := Closed | Silent.

Module Evictions.

Record t := mk { closed : Z; silent : Z }.

Definition default : t := mk 0 0.
Definition note (r : EvictReason) (e : t) : t :=
  match r with
  | Closed => mk (closed e + 1) (silent e)
  | Silent => mk (closed e) (silent e + 1)
  end.
Definition merge (other e : t) : t := mk (closed e + closed other) (silent e + silent other).
Definition total (e : t) : Z := closed e + silent e.

End Evictions.

Record PatrolRound := mkRound { evicted : Evictions.t; stale_count : Z }.

Record DownlinkMetrics := mkDown {
  dropped_no_route : Z;
  dropped_channel_full : Z;
  dropped_unroutable : Z;
}.
Definition inc_no_route (m : DownlinkMetrics) : DownlinkMetrics :=
  mkDown (dropped_no_route m + 1) (dropped_channel_full m) (dropped_unroutable m).
Definition inc_channel_full (m : DownlinkMetrics) : DownlinkMetrics :=
  mkDown (dropped_no_route m) (dropped_channel_full m + 1) (dropped_unroutable m).
Definition inc_unroutable (m : DownlinkMetrics) : DownlinkMetrics :=
  mkDown (dropped_no_route m) (dropped_channel_full m) (dropped_unroutable m + 1).

(** How the dispatch of one packet ended; [OutOfFuel] is not an outcome of the
    code. *)
Inductive Outcome := Sent (c : nat) | ChannelFull (c : nat) | NoRoute | Unroutable | OutOfFuel.

Module RouteTable.

(** [next_cell] names the stale flag the next registration allocates. *)
Record t := mk {
  routes : gmap Z RouteSlot.t;
  cells : gmap nat bool;
  next_cell : nat;
}.

Definition empty : t := mk ∅ ∅ O.

Definition set_routes (r : gmap Z RouteSlot.t) (t : t) : RouteTable.t := mk r (cells t) (next_cell t).

(** [Arc::new(AtomicBool::new(false))]. *)
Definition alloc_cell (t : t) : RouteTable.t :=
  mk (routes t) (<[next_cell t := false]> (cells t)) (S (next_cell t)).

Definition store_cell (c : nat) (b : bool) (t : t) : RouteTable.t :=
  mk (routes t) (<[c := b]> (cells t)) (next_cell t).

Definition is_stale (t : t) (d : Downlink) : bool := default false (cells t !! stale d).

(** The index of the channel given up at the cap: the first whose connection has
    closed, else the oldest. *)
Definition victim (w : World) (l : list Downlink) : nat :=
  match list_find (fun d => from_option (is_closed w) false (peer d) = true) l with
  | Some (i, _) => i
  | None => O
  end.

(** A slot made for [c] has it already, so that the rest of the code returns. *)
Definition register (w : World) (ip : Z) (c : nat) (t : t) : RouteTable.t :=
  match routes t !! ip with
  | None => set_routes (<[ip := RouteSlot.new c (next_cell t)]> (routes t)) (alloc_cell t)
  | Some slot =>
      let l := RouteSlot.senders slot in
      if existsb (fun s => Nat.eqb (tx s) c) l then t
      else
        let l := if (MAX_SENDERS_PER_IP <=? length l)%nat then delete (victim w l) l else l in
        let slot := RouteSlot.set_senders (l ++ [mkDownlink c None None (next_cell t)]) slot in
        set_routes (<[ip := slot]> (routes t)) (alloc_cell t)
  end.

(** The first sender of channel [c] changed by [f]: [iter_mut().find]. *)
Fixpoint update_first (c : nat) (f : Downlink -> Downlink) (l : list Downlink) : list Downlink :=
  match l with
  | [] => []
  | d :: l => if Nat.eqb (tx d) c then f d :: l else d :: update_first c f l
  end.

Definition attach_liveness (ip : Z) (c : nat) (activity : nat) (peer : option nat) (t : t) : RouteTable.t :=
  match routes t !! ip with
  | None => t
  | Some slot =>
      let l := update_first c (fun d => mkDownlink (tx d) (Some activity) peer (stale d)) (RouteSlot.senders slot) in
      set_routes (<[ip := RouteSlot.set_senders l slot]> (routes t)) t
  end.

Definition snapshot_predecessors (w : World) (ip : Z) (newcomer : nat) (t : t) : list PredecessorSnapshot :=
  match routes t !! ip with
  | None => []
  | Some slot =>
      omap (fun d =>
              a ← activity d;
              Some (mkPredecessor (tx d) a (load w a) (peer d) (from_option (packets_from_peer w) 0 (peer d))))
        (filter (fun d => tx d <> newcomer) (RouteSlot.senders slot))
  end.

Definition unregister_if_owner (ip : Z) (owner : nat) (t : t) : RouteTable.t :=
  match routes t !! ip with
  | None => t
  | Some slot =>
      let l := filter (fun d => tx d <> owner) (RouteSlot.senders slot) in
      let f := filter (fun kv => snd kv <> owner) (RouteSlot.flows slot) in
      match l with
      | [] => set_routes (delete ip (routes t)) t
      | _ => set_routes (<[ip := RouteSlot.mk l (RouteSlot.rr slot) f]> (routes t)) t
      end
  end.

(** The verdict of one look of the takeover re-check at one predecessor. *)
Definition takeover_verdict (w : World) (convict_on_silence : bool) (p : PredecessorSnapshot) : option EvictReason :=
  let closed := from_option (is_closed w) false (p_peer p) in
  let app_silent := load w (p_activity p) =? p_activity_seen p in
  let peer_silent := from_option (fun c => packets_from_peer w c =? p_packets_seen p) true (p_peer p) in
  if closed then Some Closed
  else if convict_on_silence && app_silent && peer_silent then Some Silent
  else None.

(** [Vec::retain] with the eviction as its side effect. *)
Fixpoint evict_stale_predecessors (w : World) (ip : Z) (convict_on_silence : bool)
  (snapshot : list PredecessorSnapshot) (t : t) (e : Evictions.t)
  : RouteTable.t * list PredecessorSnapshot * Evictions.t :=
  match snapshot with
  | [] => (t, [], e)
  | p :: rest =>
      match takeover_verdict w convict_on_silence p with
      | Some reason =>
          evict_stale_predecessors w ip convict_on_silence rest (unregister_if_owner ip (p_tx p) t)
            (Evictions.note reason e)
      | None =>
          let '(t, kept, e) := evict_stale_predecessors w ip convict_on_silence rest t e in
          (t, p :: kept, e)
      end
  end.

(** The handles of a judgeable sender. *)
Definition candidate (d : Downlink) : option PatrolCandidate :=
  a ← activity d; p ← peer d; Some (mkCandidate (tx d) a p (stale d)).

(** The candidates cloned out of the map under the guard. *)
Definition patrol_candidates `{HashOrder} (t : t) : list (Z * list PatrolCandidate) :=
  (fun kv => (fst kv, omap candidate (RouteSlot.senders (snd kv))))
    <$> filter (fun kv => (1 < length (RouteSlot.senders (snd kv)))%nat) (hash_iter (routes t)).

(** What the patrol remembers of [c], its readings of this round folded in; the
    watch is taken out of [carried]. *)
Definition patrol_watch (w : World) (c : PatrolCandidate) (carried : list PatrolWatch.t)
  : PatrolWatch.t * list PatrolWatch.t :=
  let activity := load w (c_activity c) in
  let packets := packets_from_peer w (c_peer c) in
  match list_find (fun pw => c_tx (PatrolWatch.who pw) = c_tx c) carried with
  | Some (i, pw) => (PatrolWatch.observe activity packets pw, swap_remove carried i)
  | None => (PatrolWatch.new c activity packets, carried)
  end.

Definition patrol_verdict (w : World) (c : PatrolCandidate) (watch : PatrolWatch.t) : option EvictReason :=
  if is_closed w (c_peer c) then Some Closed
  else if PATROL_SILENT_ROUNDS <=? PatrolWatch.silent_rounds watch then Some Silent
  else None.

(** The inner loop of a round, over the candidates of one address. *)
Fixpoint patrol_slot (w : World) (ip : Z) (watched : list PatrolCandidate) (carried : list PatrolWatch.t)
  (t : t) (r : PatrolRound) : RouteTable.t * list PatrolWatch.t * PatrolRound :=
  match watched with
  | [] => (t, [], r)
  | c :: rest =>
      let '(watch, carried) := patrol_watch w c carried in
      match patrol_verdict w c watch with
      | Some reason =>
          patrol_slot w ip rest carried (unregister_if_owner ip (c_tx (PatrolWatch.who watch)) t)
            (mkRound (Evictions.note reason (evicted r)) (stale_count r))
      | None =>
          let stale := PATROL_STALE_ROUNDS <=? PatrolWatch.app_silent_rounds watch in
          let '(t, kept, r) :=
            patrol_slot w ip rest carried (store_cell (c_stale (PatrolWatch.who watch)) stale t)
              (if stale then mkRound (evicted r) (stale_count r + 1) else r) in
          (t, watch :: kept, r)
      end
  end.

(** The outer loop. *)
Fixpoint patrol_slots (w : World) (candidates : list (Z * list PatrolCandidate))
  (state : gmap Z (list PatrolWatch.t)) (t : t) (r : PatrolRound)
  : RouteTable.t * gmap Z (list PatrolWatch.t) * PatrolRound :=
  match candidates with
  | [] => (t, ∅, r)
  | (ip, watched) :: rest =>
      let '(t, kept, r) := patrol_slot w ip watched (default [] (state !! ip)) t r in
      let '(t, next, r) := patrol_slots w rest (delete ip state) t r in
      (t, match kept with [] => next | _ => <[ip := kept]> next end, r)
  end.

Definition patrol_round `{HashOrder} (w : World) (state : gmap Z (list PatrolWatch.t)) (t : t)
  : RouteTable.t * gmap Z (list PatrolWatch.t) * PatrolRound :=
  patrol_slots w (patrol_candidates t) state t (mkRound Evictions.default 0).

Definition note_flow `{HashOrder} (ip key : Z) (owner : nat) (t : t) : RouteTable.t :=
  match routes t !! ip with
  | None => t
  | Some slot => set_routes (<[ip := RouteSlot.note_flow key owner slot]> (routes t)) t
  end.

Definition snapshot_keys `{HashOrder} (t : t) : list Z := fst <$> hash_iter (routes t).

(** Senders the patrol reported stale serve only when all are. *)
Definition serving (t : t) (l : list Downlink) : nat := length (filter (fun d => is_stale t d = false) l).
Definition use_all (t : t) (l : list Downlink) : bool := Nat.eqb (serving t l) 0.
Definition serves (t : t) (l : list Downlink) (d : Downlink) : bool := use_all t l || negb (is_stale t d).

(** The learned owner of the flow, while it serves under this address. *)
Definition owned (t : t) (flow_key : option Z) (slot : RouteSlot.t) : option nat :=
  k ← flow_key;
  owner ← RouteSlot.flows slot !! k;
  let l := RouteSlot.senders slot in
  if existsb (fun s => Nat.eqb (tx s) owner && serves t l s) l then Some owner else None.

(** The hash of the flow, else the round robin. *)
Definition hashed (t : t) (pkt : list Z) (slot : RouteSlot.t) : option (nat * RouteSlot.t) :=
  let l := RouteSlot.senders slot in
  let n := length l in
  let pool := if use_all t l then n else serving t l in
  h ← flow_hash_5tuple pkt;
  let '(idx, slot) :=
    match h with
    | Some h => (h mod Z.of_nat pool, slot)
    | None => (RouteSlot.rr slot mod Z.of_nat pool, RouteSlot.set_rr (wrap 64 (RouteSlot.rr slot + 1)) slot)
    end in
  match filter (fun d => serves t l d = true) l !! Z.to_nat idx with
  | Some d => Some (tx d, slot)
  | None => d ← l !! Z.to_nat (idx mod Z.of_nat n); Some (tx d, slot)
  end.

(** The channel for one packet, and the slot with its round-robin counter. *)
Definition select (t : t) (flow_key : option Z) (pkt : list Z) (slot : RouteSlot.t) : option (nat * RouteSlot.t) :=
  match owned t flow_key slot with
  | Some owner => Some (owner, slot)
  | None => hashed t pkt slot
  end.

Fixpoint dispatch_loop (fuel : nat) (w : World) (ip : Z) (flow_key : option Z) (pkt : list Z) (t : t)
  (m : DownlinkMetrics) : option (RouteTable.t * DownlinkMetrics * Outcome) :=
  match fuel with
  | O => Some (t, m, OutOfFuel)
  | S fuel =>
      match routes t !! ip with
      | None => Some (t, inc_no_route m, NoRoute)
      | Some slot =>
          match RouteSlot.senders slot with
          | [] => Some (t, inc_no_route m, NoRoute)
          | _ =>
              chosen ← select t flow_key pkt slot;
              let '(c, slot) := chosen in
              let t := set_routes (<[ip := slot]> (routes t)) t in
              match try_send w c with
              | ReceiverGone => dispatch_loop fuel w ip flow_key pkt (unregister_if_owner ip c t) m
              | QueueFull => Some (t, inc_channel_full m, ChannelFull c)
              | Accepted => Some (t, m, Sent c)
              end
          end
      end
  end.

(** Each retry removes a sender, so that one attempt per sender and a last one on
    the empty slot are enough. *)
Definition dispatch (w : World) (ip : Z) (pkt : list Z) (t : t) (m : DownlinkMetrics)
  : option (RouteTable.t * DownlinkMetrics * Outcome) :=
  flow_key ← canonical_flow_key pkt;
  let n := from_option (fun s => length (RouteSlot.senders s)) O (routes t !! ip) in
  dispatch_loop (S n) w ip flow_key pkt t m.

End RouteTable.

(** ** The router over both families *)

Module MultihopTunRouter.

Record t := mk { routes : RouteTable.t; routes_v6 : RouteTable.t }.

Definition default : t := mk RouteTable.empty RouteTable.empty.

Definition on_v4 (f : RouteTable.t -> RouteTable.t) (r : t) : t := mk (f (routes r)) (routes_v6 r).
Definition on_v6 (f : RouteTable.t -> RouteTable.t) (r : t) : t := mk (routes r) (f (routes_v6 r)).

Definition dst_ipv4 : list Z -> option (option Z) := extract 20 4 16 20.
Definition src_ipv4 : list Z -> option (option Z) := extract 20 4 12 16.
Definition dst_ipv6 : list Z -> option (option Z) := extract 40 6 24 40.
Definition src_ipv6 : list Z -> option (option Z) := extract 40 6 8 24.

Definition is_v6 (pkt : list Z) : bool := from_option (fun b => nibble b =? 6) false (head pkt).

Definition dispatch (w : World) (pkt : list Z) (r : t) (m : DownlinkMetrics) : option (t * DownlinkMetrics * Outcome) :=
  if is_v6 pkt then
    dst ← dst_ipv6 pkt;
    match dst with
    | Some dst => x ← RouteTable.dispatch w dst pkt (routes_v6 r) m;
                  let '(t, m, o) := x in Some (mk (routes r) t, m, o)
    | None => Some (r, inc_unroutable m, Unroutable)
    end
  else
    dst ← dst_ipv4 pkt;
    match dst with
    | Some dst => x ← RouteTable.dispatch w dst pkt (routes r) m;
                  let '(t, m, o) := x in Some (mk t (routes_v6 r), m, o)
    | None => Some (r, inc_unroutable m, Unroutable)
    end.

Definition note_uplink `{HashOrder} (pkt : list Z) (owner : nat) (r : t) : option t :=
  key ← canonical_flow_key pkt;
  match key with
  | None => Some r
  | Some key =>
      if is_v6 pkt then
        src ← src_ipv6 pkt;
        Some match src with Some src => on_v6 (RouteTable.note_flow src key owner) r | None => r end
      else
        src ← src_ipv4 pkt;
        Some match src with Some src => on_v4 (RouteTable.note_flow src key owner) r | None => r end
  end.

Definition active_ipv4s `{HashOrder} (r : t) : gset Z := list_to_set (RouteTable.snapshot_keys (routes r)).

End MultihopTunRouter.

(** ** The takeover re-check, the patrol and the reader as tasks *)

Module Takeover.

(** The task armed for one newcomer, between two looks. *)
Record t := mk {
  assigned_ip : Z;
  assigned_ip_v6 : option Z;
  predecessors_v4 : list PredecessorSnapshot;
  predecessors_v6 : list PredecessorSnapshot;
  evictions : Evictions.t;
  rounds : Z;
}.

(** [arm_takeover_recheck] up to the spawn: the router with the liveness handles
    attached, and the task unless there is no predecessor. *)
Definition arm (w : World) (down_tx : nat) (assigned_ip : Z) (assigned_ip_v6 : option Z) (activity : nat)
  (peer : option nat) (r : MultihopTunRouter.t) : MultihopTunRouter.t * option t :=
  let r := MultihopTunRouter.on_v4 (RouteTable.attach_liveness assigned_ip down_tx activity peer) r in
  let p4 := RouteTable.snapshot_predecessors w assigned_ip down_tx (MultihopTunRouter.routes r) in
  let '(r, p6) :=
    match assigned_ip_v6 with
    | None => (r, [])
    | Some ip6 =>
        let r := MultihopTunRouter.on_v6 (RouteTable.attach_liveness ip6 down_tx activity peer) r in
        (r, RouteTable.snapshot_predecessors w ip6 down_tx (MultihopTunRouter.routes_v6 r))
    end in
  match p4, p6 with
  | [], [] => (r, None)
  | _, _ => (r, Some (mk assigned_ip assigned_ip_v6 p4 p6 Evictions.default 0))
  end.

(** One look, after the sleep; [None] when the task is over. *)
Definition look (w : World) (k : t) (r : MultihopTunRouter.t) : MultihopTunRouter.t * Evictions.t * option t :=
  let round := rounds k + 1 in
  let last := round =? TAKEOVER_STALE_ROUNDS in
  let '(t4, p4, e) :=
    RouteTable.evict_stale_predecessors w (assigned_ip k) last (predecessors_v4 k) (MultihopTunRouter.routes r)
      Evictions.default in
  let ev := Evictions.merge e (evictions k) in
  let '(t6, p6, ev) :=
    match assigned_ip_v6 k with
    | None => (MultihopTunRouter.routes_v6 r, predecessors_v6 k, ev)
    | Some ip6 =>
        let '(t6, p6, e) :=
          RouteTable.evict_stale_predecessors w ip6 last (predecessors_v6 k) (MultihopTunRouter.routes_v6 r)
            Evictions.default in
        (t6, p6, Evictions.merge e ev)
    end in
  let r := MultihopTunRouter.mk t4 t6 in
  match p4, p6 with
  | [], [] => (r, ev, None)
  | _, _ => if last then (r, ev, None)
            else (r, ev, Some (mk (assigned_ip k) (assigned_ip_v6 k) p4 p6 ev round))
  end.

End Takeover.

Module Patrol.

Record t := mk { v4 : gmap Z (list PatrolWatch.t); v6 : gmap Z (list PatrolWatch.t) }.

Definition start : t := mk ∅ ∅.

(** One turn of [patrol_stale_downlinks], after the sleep. *)
Definition tick `{HashOrder} (w : World) (p : t) (r : MultihopTunRouter.t) : MultihopTunRouter.t * t * PatrolRound :=
  let '(t4, v4, round) := RouteTable.patrol_round w (v4 p) (MultihopTunRouter.routes r) in
  let '(t6, v6, round_v6) := RouteTable.patrol_round w (v6 p) (MultihopTunRouter.routes_v6 r) in
  (MultihopTunRouter.mk t4 t6, mk v4 v6,
   mkRound (Evictions.merge (evicted round_v6) (evicted round)) (stale_count round + stale_count round_v6)).

End Patrol.

Definition MAX_CONSECUTIVE_TUN_ERRORS : Z := 10000.

(** One turn of [pump_multihop_tun_router]: [None] is a read error.  The flag tells
    whether the reader goes on. *)
Definition tun_router_turn (w : World) (read : option (list Z)) (consecutive_errors : Z) (r : MultihopTunRouter.t)
  (m : DownlinkMetrics) : option (MultihopTunRouter.t * DownlinkMetrics * Z * bool) :=
  match read with
  | Some pkt => x ← MultihopTunRouter.dispatch w pkt r m; let '(r, m, _) := x in Some (r, m, 0, true)
  | None =>
      let n := consecutive_errors + 1 in
      Some (r, m, n, negb (MAX_CONSECUTIVE_TUN_ERRORS <=? n))
  end.
