(* ===== verification/RouteInv.v ===== *)
(** The shape every downlink table keeps, whatever the order in which the tasks of
    the exit take its lock: [atom] is one locked section (or one write of a stale
    flag), the patrol, the takeover re-check and the dispatch of a packet are
    sequences of them, and [TableInv] is kept by each. *)

From S2P Require Import Prelude IpPackets FlowKeys RouteTable.
Import RouteTable.

(** At least one sender and at most [MAX_SENDERS_PER_IP], no channel twice, a
    bounded flow table. *)
Record SlotInv (s : RouteSlot.t) : Prop := {
  slot_serves : RouteSlot.senders s <> [];
  slot_distinct : NoDup (tx <$> RouteSlot.senders s);
  slot_capped : (length (RouteSlot.senders s) <= MAX_SENDERS_PER_IP)%nat;
  slot_flows : Z.of_nat (size (RouteSlot.flows s)) <= FlowNoter.FLOW_TABLE_CAP_PER_IP;
}.

(** Every slot has that shape, and flags in use are below the next one. *)
Record TableInv (t : RouteTable.t) : Prop := {
  table_slots : map_Forall (fun _ s => SlotInv s) (routes t);
  table_cells : forall ip s d, routes t !! ip = Some s -> d ∈ RouteSlot.senders s -> (stale d < next_cell t)%nat;
}.

Section Atoms.
Context `{H : HashOrder}.

Inductive atom (t : RouteTable.t) : RouteTable.t -> Prop :=
| atom_register w ip c : atom t (register w ip c t)
| atom_attach ip c a p : atom t (attach_liveness ip c a p t)
| atom_unregister ip c : atom t (unregister_if_owner ip c t)
| atom_note ip k c : atom t (note_flow ip k c t)
| atom_store cell b : atom t (store_cell cell b t)
| atom_turn ip s n : routes t !! ip = Some s ->
    atom t (set_routes (<[ip := RouteSlot.set_rr n s]> (routes t)) t).

(** ** The tasks are sequences of atoms *)

Lemma evict_steps w ip last snap t e : rtc atom t (evict_stale_predecessors w ip last snap t e).1.1.
Proof.
  revert t e. induction snap as [|p snap IH]; intros t e; simpl; [done|].
  destruct (takeover_verdict w last p).
  - eapply rtc_l; [apply atom_unregister|apply IH].
  - specialize (IH t e). by destruct (evict_stale_predecessors _ _ _ _ _ _) as [[??]?].
Qed.

Lemma patrol_slot_steps w ip watched carried t r : rtc atom t (patrol_slot w ip watched carried t r).1.1.
Proof.
  revert carried t r. induction watched as [|c watched IH]; intros carried t r; simpl; [done|].
  destruct (patrol_watch w c carried) as [watch carried']. destruct (patrol_verdict w c watch).
  - eapply rtc_l; [apply atom_unregister|apply IH].
  - match goal with |- context [patrol_slot w ip watched ?a ?b ?c] =>
      specialize (IH a b c); destruct (patrol_slot w ip watched a b c) as [[??]?] end.
    eapply rtc_l; [apply atom_store|apply IH].
Qed.

Lemma patrol_slots_steps w cands st t r : rtc atom t (patrol_slots w cands st t r).1.1.
Proof.
  revert st t r. induction cands as [|[ip watched] cands IH]; intros st t r; simpl; [done|].
  pose proof (patrol_slot_steps w ip watched (default [] (st !! ip)) t r) as Hs.
  destruct (patrol_slot _ _ _ _ _ _) as [[t1 kept] r1]. specialize (IH (delete ip st) t1 r1).
  destruct (patrol_slots _ _ _ _ _) as [[t2 next] r2]. by etrans.
Qed.

Lemma patrol_round_steps w st t : rtc atom t (patrol_round w st t).1.1.
Proof. apply patrol_slots_steps. Qed.

(** The slot [select] returns differs from the one it was given at most in its
    round-robin counter. *)
Lemma select_slot t k pkt s c s' : select t k pkt s = Some (c, s') -> exists n, s' = RouteSlot.set_rr n s.
Proof.
  assert (exists n, s = RouteSlot.set_rr n s) as [n0 E0] by (exists (RouteSlot.rr s); by destruct s).
  unfold select. case_match; [intros [= <- <-]; eauto|]. unfold hashed.
  destruct (flow_hash_5tuple pkt) as [[h|]|]; cbn [mbind option_bind]; [| |done];
    (case_match; [intros [= <- <-]; eauto|]);
    match goal with |- context [?l !! ?i] => destruct (l !! i) end; cbn [mbind option_bind]; [|done| |done];
    intros [= <- <-]; eauto.
Qed.

Lemma dispatch_loop_steps fuel w ip k pkt t m t' m' o :
  dispatch_loop fuel w ip k pkt t m = Some (t', m', o) -> rtc atom t t'.
Proof.
  revert t m. induction fuel as [|fuel IH]; intros t m; simpl; [by intros [= <- <- <-]|].
  destruct (routes t !! ip) as [s|] eqn:Hs; [|by intros [= <- <- <-]].
  destruct (RouteSlot.senders s) eqn:El; [by intros [= <- <- <-]|].
  destruct (select t k pkt s) as [[c s']|] eqn:Hsel; cbn [mbind option_bind]; [|done].
  destruct (select_slot _ _ _ _ _ _ Hsel) as [n ->].
  destruct (try_send w c); [intros [= <- <- <-]; apply rtc_once; by constructor..|].
  intros Hd%IH. eapply rtc_l; [by eapply atom_turn|]. eapply rtc_l; [apply atom_unregister|done].
Qed.

Lemma dispatch_steps w ip pkt t m t' m' o : dispatch w ip pkt t m = Some (t', m', o) -> rtc atom t t'.
Proof.
  unfold dispatch. destruct (canonical_flow_key pkt); cbn [mbind option_bind]; [|done]. apply dispatch_loop_steps.
Qed.

(** ** Each operation keeps the shape *)

Lemma victim_in_range w l : l <> [] -> (victim w l < length l)%nat.
Proof.
  intros Hl. unfold victim. destruct (list_find _ l) as [[i d]|] eqn:E.
  - apply list_find_Some in E as (E & _). by apply lookup_lt_Some in E.
  - destruct l; simpl; [done|lia].
Qed.

Lemma existsb_tx c l : existsb (fun s => Nat.eqb (tx s) c) l = true <-> c ∈ tx <$> l.
Proof.
  rewrite existsb_exists, list_elem_of_fmap. setoid_rewrite Nat.eqb_eq.
  setoid_rewrite <- list_elem_of_In. naive_solver.
Qed.

Lemma update_first_tx c f l : (forall d, tx (f d) = tx d) -> tx <$> update_first c f l = tx <$> l.
Proof.
  intros Hf. induction l as [|d l IH]; simpl; [done|]. destruct (Nat.eqb (tx d) c); csimpl; [by rewrite Hf|by rewrite IH].
Qed.

Lemma update_first_stale c f l : (forall d, stale (f d) = stale d) -> stale <$> update_first c f l = stale <$> l.
Proof.
  intros Hf. induction l as [|d l IH]; simpl; [done|]. destruct (Nat.eqb (tx d) c); csimpl; [by rewrite Hf|by rewrite IH].
Qed.

Lemma new_slot_inv c cell : SlotInv (RouteSlot.new c cell).
Proof.
  split; [done|apply NoDup_singleton|unfold MAX_SENDERS_PER_IP; simpl; lia|].
  unfold RouteSlot.new, FlowNoter.FLOW_TABLE_CAP_PER_IP. cbn [RouteSlot.flows]. rewrite map_size_empty. lia.
Qed.

(** The senders of a slot after a registration that changes it. *)
Definition make_room (w : World) (l : list Downlink) : list Downlink :=
  if (MAX_SENDERS_PER_IP <=? length l)%nat then delete (victim w l) l else l.

Lemma make_room_sublist w l : make_room w l `sublist_of` l.
Proof. unfold make_room. case_match; [apply sublist_delete|done]. Qed.

Lemma make_room_length w l :
  (length l <= MAX_SENDERS_PER_IP)%nat -> (length (make_room w l) < MAX_SENDERS_PER_IP)%nat.
Proof.
  intros Hl. unfold make_room. destruct (Nat.leb_spec MAX_SENDERS_PER_IP (length l)); [|lia].
  rewrite length_delete; [unfold MAX_SENDERS_PER_IP in *; lia|].
  apply lookup_lt_is_Some, victim_in_range. destruct l; [unfold MAX_SENDERS_PER_IP in *; simpl in *; lia|done].
Qed.

Lemma note_flow_size `{!HashOrderLaws H} k c s :
  Z.of_nat (size (RouteSlot.flows s)) <= FlowNoter.FLOW_TABLE_CAP_PER_IP ->
  Z.of_nat (size (RouteSlot.flows (RouteSlot.note_flow k c s))) <= FlowNoter.FLOW_TABLE_CAP_PER_IP.
Proof.
  intros Hs. unfold RouteSlot.note_flow. destruct (RouteSlot.flows s !! k) eqn:Hk; [done|]. cbn [RouteSlot.flows RouteSlot.set_flows].
  destruct (Z.leb_spec FlowNoter.FLOW_TABLE_CAP_PER_IP (Z.of_nat (size (RouteSlot.flows s)))).
  - pose proof (hash_iter_perm _ (RouteSlot.flows s)) as Hp. destruct (hash_iter _) as [|[v x] rest].
    + apply Permutation_nil_l in Hp. symmetry in Hp. apply map_to_list_empty_iff in Hp. rewrite Hp, map_size_empty in *.
      unfold FlowNoter.FLOW_TABLE_CAP_PER_IP in *. lia.
    + assert (RouteSlot.flows s !! v = Some x) as Hv
        by (apply elem_of_map_to_list; rewrite <- Hp; by left).
      rewrite map_size_insert_None by (rewrite lookup_delete_None; by right).
      rewrite map_size_delete_Some by (by eexists). assert (size (RouteSlot.flows s) <> O); [|lia].
      intros E%map_size_empty_inv. by rewrite E, lookup_empty in Hv.
  - rewrite map_size_insert_None by done. lia.
Qed.

(** A table with one slot replaced by another of the right shape. *)
Lemma table_insert_inv t ip s cells' next :
  TableInv t -> SlotInv s -> (next_cell t <= next)%nat ->
  (forall d, d ∈ RouteSlot.senders s -> (stale d < next)%nat) ->
  TableInv (mk (<[ip := s]> (routes t)) cells' next).
Proof.
  intros [Hs Hc] Hslot Hn Hd. split; cbn [routes next_cell].
  - by apply map_Forall_insert_2.
  - intros ip' s' d. rewrite lookup_insert_Some. intros [[<- <-]|[_ E]] Hin; [by apply Hd|].
    specialize (Hc _ _ _ E Hin). lia.
Qed.

Lemma register_inv w ip c t : TableInv t -> TableInv (register w ip c t).
Proof.
  intros HI. unfold register. destruct (routes t !! ip) as [s|] eqn:Hs.
  - destruct (existsb _ _) eqn:Hx; [done|]. fold (make_room w (RouteSlot.senders s)).
    pose proof (table_slots _ HI _ _ Hs) as [Hne Hnd Hcap Hfl].
    apply (table_insert_inv t ip _ _ (S (next_cell t))); [done| |lia|].
    + split; cbn [RouteSlot.senders RouteSlot.set_senders RouteSlot.flows]; [by destruct (make_room w _)| | |done].
      * rewrite fmap_app. apply NoDup_app. split; [|split; [|apply NoDup_singleton]].
        -- eapply sublist_NoDup; [exact Hnd|apply fmap_sublist, make_room_sublist].
        -- intros y Hy Hc%list_elem_of_singleton. subst y.
           apply not_true_iff_false in Hx. apply Hx, existsb_tx. cbn [tx] in Hy.
           eapply sublist_subseteq; [apply fmap_sublist, make_room_sublist|exact Hy].
      * rewrite length_app. simpl. pose proof (make_room_length w _ Hcap). lia.
    + cbn [RouteSlot.senders RouteSlot.set_senders]. intros d [Hd|Hd]%elem_of_app.
      * apply (sublist_subseteq _ _ (make_room_sublist w _)), (table_cells _ HI _ _ _ Hs) in Hd. lia.
      * apply list_elem_of_singleton in Hd as ->. simpl. lia.
  - apply (table_insert_inv t ip _ _ (S (next_cell t))); [done|apply new_slot_inv|lia|].
    intros d Hd%list_elem_of_singleton. subst d. simpl. lia.
Qed.

Lemma attach_inv ip c a p t : TableInv t -> TableInv (attach_liveness ip c a p t).
Proof.
  intros HI. unfold attach_liveness. destruct (routes t !! ip) as [s|] eqn:Hs; [|done].
  pose proof (table_slots _ HI _ _ Hs) as [Hne Hnd Hcap Hfl].
  set (f := fun d : Downlink => _). set (l := update_first c f _).
  assert (tx <$> l = tx <$> RouteSlot.senders s) as Etx by (by apply update_first_tx).
  assert (stale <$> l = stale <$> RouteSlot.senders s) as Est by (by apply update_first_stale).
  assert (length l = length (RouteSlot.senders s)) as El
    by (by rewrite <- (length_fmap tx l), Etx, length_fmap).
  apply (table_insert_inv t ip _ _ (next_cell t)); [done| |lia|].
  - split; cbn [RouteSlot.senders RouteSlot.set_senders RouteSlot.flows]; [|by rewrite Etx|by rewrite El|done].
    intros E. rewrite E in El. by destruct (RouteSlot.senders s).
  - cbn [RouteSlot.senders RouteSlot.set_senders]. intros d Hd.
    assert (stale d ∈ stale <$> l) as Hin by (by apply list_elem_of_fmap_2). rewrite Est in Hin.
    apply list_elem_of_fmap in Hin as (d' & -> & Hd'). by eapply table_cells.
Qed.

Lemma unregister_inv ip c t : TableInv t -> TableInv (unregister_if_owner ip c t).
Proof.
  intros HI. unfold unregister_if_owner. destruct (routes t !! ip) as [s|] eqn:Hs; [|done].
  pose proof (table_slots _ HI _ _ Hs) as [Hne Hnd Hcap Hfl].
  pose proof (sublist_filter (fun d => tx d <> c) (RouteSlot.senders s)) as Hsub.
  destruct (filter _ (RouteSlot.senders s)) as [|d0 l] eqn:El.
  - split; cbn [routes next_cell set_routes].
    + apply map_Forall_delete, HI.
    + intros ip' s' d [_ E]%lookup_delete_Some. by eapply table_cells.
  - apply (table_insert_inv t ip _ _ (next_cell t)); [done| |lia|].
    + split; cbn [RouteSlot.senders RouteSlot.flows]; [done| | |].
      * eapply sublist_NoDup; [exact Hnd|by apply fmap_sublist].
      * etrans; [apply sublist_length, Hsub|done].
      * etrans; [|exact Hfl]. apply Nat2Z.inj_le, map_subseteq_size, map_filter_subseteq.
    + cbn [RouteSlot.senders]. intros d Hd. eapply table_cells; [done|exact Hs|].
      by apply (sublist_subseteq _ _ Hsub).
Qed.

Lemma note_inv `{!HashOrderLaws H} ip k c t : TableInv t -> TableInv (note_flow ip k c t).
Proof.
  intros HI. unfold note_flow. destruct (routes t !! ip) as [s|] eqn:Hs; [|done].
  pose proof (table_slots _ HI _ _ Hs) as [Hne Hnd Hcap Hfl].
  assert (RouteSlot.senders (RouteSlot.note_flow k c s) = RouteSlot.senders s) as E
    by (unfold RouteSlot.note_flow; by case_match).
  apply (table_insert_inv t ip _ _ (next_cell t)); [done| |lia|].
  - split; rewrite ?E; [done..|]. by apply note_flow_size.
  - rewrite E. intros d Hd. by eapply table_cells.
Qed.

Lemma atom_inv `{!HashOrderLaws H} t t' : atom t t' -> TableInv t -> TableInv t'.
Proof.
  intros Ha HI. destruct Ha as [w ip c|ip c a p|ip c|ip k c|cell b|ip s n Hs].
  - by apply register_inv.
  - by apply attach_inv.
  - by apply unregister_inv.
  - by apply note_inv.
  - destruct HI as [H1 H2]. by split.
  - pose proof (table_slots _ HI _ _ Hs) as [????]. apply (table_insert_inv t ip _ _ (next_cell t)); [done|by split|lia|].
    intros d Hd. by eapply table_cells.
Qed.

Lemma atoms_inv `{!HashOrderLaws H} t t' : rtc atom t t' -> TableInv t -> TableInv t'.
Proof. induction 1; [done|]. intros ?. eauto using atom_inv. Qed.

Lemma empty_inv : TableInv RouteTable.empty.
Proof. split; [apply map_Forall_empty|intros ip s d; cbn [routes RouteTable.empty]; by rewrite lookup_empty]. Qed.

(** C32.  Every downlink table the tasks of the exit can build, in any interleaving of
    their locked sections, has in every slot at least one and at most sixteen senders,
    no channel twice, and a flow table within its cap. *)
Theorem route_table_inv `{!HashOrderLaws H} t : rtc atom RouteTable.empty t -> TableInv t.
Proof. intros Hr. eapply atoms_inv; [exact Hr|apply empty_inv]. Qed.

End Atoms.

(** Eighteen registrations under one address. *)
Definition crowd : RouteTable.t :=
  foldr (fun c t => register (mkWorld (fun _ => 0) (fun _ => 0) (fun _ => false) (fun _ => Accepted)) 7 c t)
    RouteTable.empty (reverse (seq 1 18)).

Lemma crowd_steps : rtc atom RouteTable.empty crowd.
Proof.
  unfold crowd. induction (reverse (seq 1 18)) as [|c l IH]; simpl; [done|].
  eapply rtc_r; [exact IH|apply atom_register].
Qed.

Lemma route_table_inv_witness :
  TableInv crowd /\ ((fun s => length (RouteSlot.senders s)) <$> routes crowd !! 7) = Some 16%nat.
Proof. split; [apply route_table_inv, crowd_steps|by vm_compute]. Defined.
