(* ===== verification/RouteDispatch.v ===== *)
(** The dispatch of a downlink packet: it ends, it indexes in range, it hands the
    packet to a sender of the packet's own address, to one that serves while there
    is one, and it gives up only when every channel is closed. *)

From S2P Require Import Prelude IpPackets FlowKeys RouteTable RouteInv.
Import RouteTable.

Definition senders_at (t : RouteTable.t) (ip : Z) : list Downlink :=
  from_option RouteSlot.senders [] (routes t !! ip).

(** ** Choosing a channel *)

Lemma serves_spec t l d :
  serves t l d = true -> is_stale t d = true -> forall d', d' ∈ l -> is_stale t d' = true.
Proof.
  unfold serves, use_all, serving. intros Hs Hd d' Hd'. rewrite Hd, orb_false_r in Hs.
  apply Nat.eqb_eq, length_zero_iff_nil in Hs. apply not_false_iff_true. intros E.
  assert (d' ∈ filter (fun d => is_stale t d = false) l) as Hin by (by apply list_elem_of_filter).
  rewrite Hs in Hin. by apply not_elem_of_nil in Hin.
Qed.

Lemma serving_pool t l :
  length (filter (fun d => serves t l d = true) l) = if use_all t l then length l else serving t l.
Proof.
  unfold serves. destruct (use_all t l); cbn [orb].
  - f_equal. clear. induction l as [|d l' IH]; [done|]. rewrite filter_cons_True by done. by f_equal.
  - unfold serving. f_equal. apply list_filter_iff. intros d. by destruct (is_stale t d).
Qed.

Lemma serving_pool_pos t l : l <> [] -> (0 < length (filter (fun d => serves t l d = true) l))%nat.
Proof.
  intros Hl. rewrite serving_pool. unfold use_all. destruct (Nat.eqb_spec (serving t l) 0); [|lia].
  destruct l; [done|simpl; lia].
Qed.

Lemma owned_serves t k s c :
  owned t k s = Some c ->
  exists d, d ∈ RouteSlot.senders s /\ tx d = c /\ serves t (RouteSlot.senders s) d = true.
Proof.
  unfold owned. destruct k as [k|]; cbn [mbind option_bind]; [|done].
  destruct (RouteSlot.flows s !! k) as [o|]; cbn [mbind option_bind]; [|done].
  case_match eqn:E; [|done]. intros [= <-]. apply existsb_exists in E as (d & Hd & [He Hs]%andb_true_iff).
  apply Nat.eqb_eq in He. apply list_elem_of_In in Hd. eauto.
Qed.

Lemma hashed_serves t pkt s :
  RouteSlot.senders s <> [] ->
  exists d s', hashed t pkt s = Some (tx d, s') /\ d ∈ RouteSlot.senders s /\
    serves t (RouteSlot.senders s) d = true.
Proof.
  intros Hne. unfold hashed. set (l := RouteSlot.senders s) in *.
  pose proof (serving_pool_pos t l Hne) as Hpos. rewrite <- serving_pool.
  set (pool := filter _ l) in *.
  assert (exists h, flow_hash_5tuple pkt = Some h) as [h ->]
    by (destruct (flow_keys_total pkt) as [[_ ->]|(?&?&_&->)]; eauto).
  cbn [mbind option_bind].
  assert (forall x, exists d, pool !! Z.to_nat (x mod Z.of_nat (length pool)) = Some d) as Hin.
  { intros x. apply lookup_lt_is_Some. pose proof (Z.mod_pos_bound x (Z.of_nat (length pool))). lia. }
  assert (forall i d, pool !! i = Some d -> d ∈ l /\ serves t l d = true) as Hpool.
  { intros i d Hd%list_elem_of_lookup_2. apply list_elem_of_filter in Hd. naive_solver. }
  destruct h as [h|].
  - destruct (Hin h) as [d Hd]. rewrite Hd. destruct (Hpool _ _ Hd). eauto.
  - destruct (Hin (RouteSlot.rr s)) as [d Hd]. rewrite Hd. destruct (Hpool _ _ Hd). eauto.
Qed.

(** A serving sender is chosen, whatever the packet. *)
Lemma select_serves t k pkt s :
  RouteSlot.senders s <> [] ->
  exists d n, select t k pkt s = Some (tx d, RouteSlot.set_rr n s) /\ d ∈ RouteSlot.senders s /\
    serves t (RouteSlot.senders s) d = true.
Proof.
  intros Hne. assert (exists d s', select t k pkt s = Some (tx d, s') /\ d ∈ RouteSlot.senders s /\
    serves t (RouteSlot.senders s) d = true) as (d & s' & E & Hd & Hs).
  { unfold select. destruct (owned t k s) as [c|] eqn:Ho; [|by apply hashed_serves].
    destruct (owned_serves _ _ _ _ Ho) as (d & Hd & <- & Hs). eauto. }
  destruct (select_slot _ _ _ _ _ _ E) as [n ->]. eauto.
Qed.

(** ** The loop *)

Lemma senders_at_insert t ip s : senders_at (set_routes (<[ip := s]> (routes t)) t) ip = RouteSlot.senders s.
Proof. unfold senders_at. cbn [routes set_routes]. by rewrite lookup_insert_eq. Qed.

Lemma unregister_senders ip c t :
  senders_at (unregister_if_owner ip c t) ip = filter (fun d => tx d <> c) (senders_at t ip).
Proof.
  unfold unregister_if_owner, senders_at. destruct (routes t !! ip) as [s|] eqn:Hs; [|by rewrite Hs].
  cbn [from_option]. destruct (filter _ _) as [|d l] eqn:E; cbn [routes set_routes].
  - by rewrite lookup_delete_eq.
  - by rewrite lookup_insert_eq.
Qed.

Lemma unregister_elsewhere ip ip' c t :
  ip' <> ip -> routes (unregister_if_owner ip c t) !! ip' = routes t !! ip'.
Proof.
  intros Hn. unfold unregister_if_owner. destruct (routes t !! ip) as [s|]; [|done].
  case_match; cbn [routes set_routes]; [by rewrite lookup_delete_ne|by rewrite lookup_insert_ne].
Qed.

Lemma unregister_cells ip c t : cells (unregister_if_owner ip c t) = cells t.
Proof. unfold unregister_if_owner. case_match; [|done]. by case_match. Qed.

(** ** The takeover re-check *)

(** One look keeps the predecessors it does not convict, and takes the route from
    exactly the channels of those it does. *)
Lemma evict_spec w ip last snap t e t' kept e' :
  evict_stale_predecessors w ip last snap t e = (t', kept, e') ->
  kept = filter (fun p => takeover_verdict w last p = None) snap /\
  (forall d, d ∈ senders_at t' ip <->
     d ∈ senders_at t ip /\ forall p, p ∈ snap -> p_tx p = tx d -> takeover_verdict w last p = None) /\
  Evictions.total e' = Evictions.total e + Z.of_nat (length snap - length kept).
Proof.
  revert t e kept. induction snap as [|p snap IH]; intros t e kept; cbn [evict_stale_predecessors].
  { intros [= <- <- <-]. split; [done|]. split; [|simpl; lia].
    intros d. split; [|by intros [? _]]. intros Hd. split; [done|]. by intros p ?%not_elem_of_nil. }
  destruct (takeover_verdict w last p) as [reason|] eqn:Hv.
  - intros (-> & Hd & He)%IH. rewrite filter_cons_False by congruence. split; [done|]. split.
    + intros d. rewrite Hd, unregister_senders, list_elem_of_filter. split.
      * intros [[Hne Hin] Hall]. split; [done|]. intros q [->|Hq]%elem_of_cons E; [by destruct Hne|by apply Hall].
      * intros [Hin Hall]. split; [split; [|done]|].
        -- intros E. specialize (Hall p ltac:(by left) ltac:(done)). congruence.
        -- intros q Hq. apply Hall. by right.
    + rewrite He. pose proof (length_filter (fun p => takeover_verdict w last p = None) snap).
      destruct reason; unfold Evictions.total, Evictions.note; simpl; lia.
  - destruct (evict_stale_predecessors w ip last snap t e) as [[t1 kept1] e1] eqn:E. intros [= <- <- <-].
    apply IH in E as (-> & Hd & He). rewrite filter_cons_True by done. split; [done|]. split; [|simpl; done].
    intros d. rewrite Hd. split; (intros [Hin Hall]; split; [done|]).
    + intros q [->|Hq]%elem_of_cons; [done|by apply Hall].
    + intros q Hq. apply Hall. by right.
Qed.

(** ** The outcome *)

(** The sender a packet may be given to: one of the address, a stale one only when
    those that are not stale are all closed. *)
Definition eligible (w : World) (t : RouteTable.t) (ip : Z) (c : nat) : Prop :=
  exists d, d ∈ senders_at t ip /\ tx d = c /\
    (is_stale t d = true ->
     forall d', d' ∈ senders_at t ip -> is_stale t d' = false -> try_send w (tx d') = ReceiverGone).

Record Dispatched (w : World) (ip : Z) (t : RouteTable.t) (m : DownlinkMetrics) (t' : RouteTable.t)
  (m' : DownlinkMetrics) (o : Outcome) : Prop := {
  disp_outcome :
    match o with
    | Sent c => eligible w t ip c /\ try_send w c = Accepted /\ m' = m
    | ChannelFull c => eligible w t ip c /\ try_send w c = QueueFull /\ m' = inc_channel_full m
    | NoRoute => (forall d, d ∈ senders_at t ip -> try_send w (tx d) = ReceiverGone) /\ m' = inc_no_route m
    | _ => False
    end;
  disp_kept : forall d, d ∈ senders_at t ip -> try_send w (tx d) <> ReceiverGone -> d ∈ senders_at t' ip;
  disp_none_new : forall d, d ∈ senders_at t' ip -> d ∈ senders_at t ip;
  disp_elsewhere : forall ip', ip' <> ip -> routes t' !! ip' = routes t !! ip';
}.

(** A step of the loop that only removed the closed channel [c]. *)
Lemma dispatched_retry w ip t t1 m t' m' o c :
  try_send w c = ReceiverGone -> senders_at t1 ip = filter (fun d => tx d <> c) (senders_at t ip) ->
  cells t1 = cells t -> (forall ip', ip' <> ip -> routes t1 !! ip' = routes t !! ip') ->
  Dispatched w ip t1 m t' m' o -> Dispatched w ip t m t' m' o.
Proof.
  intros Hc Hl Hcells Hother [Ho Hk Hn He].
  assert (forall d, is_stale t1 d = is_stale t d) as Hst by (intros d; unfold is_stale; by rewrite Hcells).
  assert (forall d, d ∈ senders_at t1 ip <-> tx d <> c /\ d ∈ senders_at t ip) as Hin
    by (intros d; by rewrite Hl, list_elem_of_filter).
  assert (forall x, eligible w t1 ip x -> eligible w t ip x) as Hel.
  { intros x (d & [? Hd]%Hin & Hx & Hd'). exists d. split; [done|]. split; [done|]. intros Hs d' Hd1 Hd2.
    destruct (decide (tx d' = c)) as [->|]; [done|]. apply Hd'; [by rewrite Hst|by apply Hin|by rewrite Hst]. }
  split.
  - destruct o; [naive_solver|naive_solver| |done|done]. destruct Ho as [Ho Hm]. split; [|done]. intros d Hd.
    destruct (decide (tx d = c)) as [->|]; [done|]. apply Ho, Hin. done.
  - intros d Hd Hg. apply Hk; [|done]. apply Hin. split; [|done]. intros E. by rewrite E in Hg.
  - intros d Hd%Hn. apply Hin in Hd as [_ Hd]. exact Hd.
  - intros ip' Hip. rewrite He, Hother; done.
Qed.

(** The loop ends at an open channel. *)
Lemma dispatched_here w ip t s n m m' o :
  routes t !! ip = Some s ->
  match o with
  | Sent c => eligible w t ip c /\ try_send w c = Accepted /\ m' = m
  | ChannelFull c => eligible w t ip c /\ try_send w c = QueueFull /\ m' = inc_channel_full m
  | _ => False
  end ->
  Dispatched w ip t m (set_routes (<[ip := RouteSlot.set_rr n s]> (routes t)) t) m' o.
Proof.
  intros Hs Ho. assert (senders_at (set_routes (<[ip := RouteSlot.set_rr n s]> (routes t)) t) ip = senders_at t ip) as E.
  { rewrite senders_at_insert. unfold senders_at. by rewrite Hs. }
  split; [by destruct o|intros d; by rewrite E..|].
  intros ip' Hip. cbn [routes set_routes]. by rewrite lookup_insert_ne.
Qed.

Lemma dispatch_loop_spec fuel w ip k pkt t m :
  (length (senders_at t ip) < fuel)%nat ->
  exists t' m' o, dispatch_loop fuel w ip k pkt t m = Some (t', m', o) /\ Dispatched w ip t m t' m' o.
Proof.
  revert t m. induction fuel as [|fuel IH]; intros t m Hf; [lia|]. cbn [dispatch_loop].
  assert (senders_at t ip = [] -> Dispatched w ip t m t (inc_no_route m) NoRoute) as Hempty.
  { intros E. split; [|done..]. split; [|done]. intros d. rewrite E. by intros ?%not_elem_of_nil. }
  destruct (routes t !! ip) as [s|] eqn:Hs; [|].
  2: { eexists _, _, _. split; [done|]. apply Hempty. unfold senders_at. by rewrite Hs. }
  assert (senders_at t ip = RouteSlot.senders s) as Es by (unfold senders_at; by rewrite Hs).
  destruct (RouteSlot.senders s) as [|d0 l0] eqn:El; [by eexists _, _, _; split; [|apply Hempty]|].
  destruct (select_serves t k pkt s) as (d & n & -> & Hd & Hser); [by rewrite El|].
  cbn [mbind option_bind]. rewrite El, <- Es in Hd.
  assert (eligible w t ip (tx d)) as Hel.
  { exists d. do 2 (split; [done|]). intros Hst d' Hd' Hst'. rewrite El, <- Es in Hser.
    pose proof (serves_spec _ _ _ Hser Hst d' Hd'). congruence. }
  set (t1 := set_routes _ t).
  destruct (try_send w (tx d)) eqn:Hsend.
  - eexists _, _, _. split; [done|]. by apply dispatched_here.
  - eexists _, _, _. split; [done|]. by apply dispatched_here.
  - assert (senders_at t1 ip = senders_at t ip) as E1 by (unfold t1; rewrite senders_at_insert; simpl; congruence).
    destruct (IH (unregister_if_owner ip (tx d) t1) m) as (t' & m' & o & Hrun & Hdisp).
    { rewrite unregister_senders, E1.
      assert (length (filter (fun d' => tx d' <> tx d) (senders_at t ip)) < length (senders_at t ip))%nat; [|lia].
      apply (length_filter_lt _ _ d); [done|]. naive_solver. }
    exists t', m', o. split; [done|].
    apply (dispatched_retry _ _ _ (unregister_if_owner ip (tx d) t1) _ _ _ _ (tx d)); [done| | | |done].
    + by rewrite unregister_senders, E1.
    + by rewrite unregister_cells.
    + intros ip' Hip. rewrite unregister_elsewhere by done. unfold t1. cbn [routes set_routes]. by rewrite lookup_insert_ne.
Qed.

(** C29.  The dispatch of any packet from any table returns, without an index out of
    range: it hands the packet to a registered channel of that address whose receiver
    is there (one that is not stale while such a channel is open), or drops and counts
    it on that channel's full queue, or finds no route, and then every channel of the
    address is closed.  It removes no open channel and touches no other address. *)
Theorem dispatch_delivers w ip pkt t m :
  exists t' m' o, dispatch w ip pkt t m = Some (t', m', o) /\ Dispatched w ip t m t' m' o.
Proof.
  unfold dispatch. assert (exists k, canonical_flow_key pkt = Some k) as [k ->]
    by (destruct (flow_keys_total pkt) as [[-> _]|(?&?&->&_)]; eauto).
  cbn [mbind option_bind]. apply dispatch_loop_spec. unfold senders_at.
  destruct (routes t !! ip); simpl; lia.
Qed.
