(* ===== verification/RouteReplies.v ===== *)
(** Which connection the answers of a flow go to: the one whose uplink packet was
    noted first, as long as it stays registered, serves, and the flow table of its
    address does not overflow. *)

From S2P Require Import Prelude IpPackets FlowKeys RouteTable RouteInv RouteDispatch.
Import RouteTable.

Section Replies.
Context `{H : HashOrder}.

(** The learned owner of a flow of [ip]. *)
Definition owner_at (t : RouteTable.t) (ip k : Z) : option nat :=
  s ← routes t !! ip; RouteSlot.flows s !! k.

Definition flows_at (t : RouteTable.t) (ip : Z) : Z :=
  from_option (fun s => Z.of_nat (size (RouteSlot.flows s))) 0 (routes t !! ip).

(** [c] is registered under [ip], whose flow table has room left. *)
Definition settled (ip : Z) (c : nat) (t : RouteTable.t) : Prop :=
  c ∈ tx <$> senders_at t ip /\ flows_at t ip < FlowNoter.FLOW_TABLE_CAP_PER_IP.

(** Any steps of the other tasks that leave it so. *)
Definition undisturbed (ip : Z) (c : nat) : RouteTable.t -> RouteTable.t -> Prop :=
  rtc (fun t t' => atom t t' /\ settled ip c t').

(** ** An owner stays the owner *)

Lemma note_flow_keeps s k c k' c' :
  Z.of_nat (size (RouteSlot.flows s)) < FlowNoter.FLOW_TABLE_CAP_PER_IP ->
  RouteSlot.flows s !! k = Some c -> RouteSlot.flows (RouteSlot.note_flow k' c' s) !! k = Some c.
Proof.
  intros Hs Hk. unfold RouteSlot.note_flow. destruct (RouteSlot.flows s !! k') eqn:E; [done|].
  rewrite (proj2 (Z.leb_gt _ _)) by done. cbn [RouteSlot.flows RouteSlot.set_flows].
  rewrite lookup_insert_ne; [done|]. congruence.
Qed.

Lemma note_flow_learns s k c :
  RouteSlot.flows s !! k = None -> RouteSlot.flows (RouteSlot.note_flow k c s) !! k = Some c.
Proof. intros Hk. unfold RouteSlot.note_flow. rewrite Hk. apply lookup_insert_eq. Qed.

Lemma owner_at_insert t ip s ip' k cells' next :
  owner_at (mk (<[ip := s]> (routes t)) cells' next) ip' k
  = if decide (ip = ip') then RouteSlot.flows s !! k else owner_at t ip' k.
Proof.
  unfold owner_at. cbn [routes]. case_decide; [subst; by rewrite lookup_insert_eq|by rewrite lookup_insert_ne].
Qed.

Lemma owner_slot t ip k c : owner_at t ip k = Some c -> exists s, routes t !! ip = Some s /\ RouteSlot.flows s !! k = Some c.
Proof. unfold owner_at. destruct (routes t !! ip); cbn [mbind option_bind]; eauto; done. Qed.

Lemma atom_keeps_owner ip c k t t' :
  flows_at t ip < FlowNoter.FLOW_TABLE_CAP_PER_IP -> settled ip c t' -> atom t t' ->
  owner_at t ip k = Some c -> owner_at t' ip k = Some c.
Proof.
  intros Hcap Hset Ha Hown. destruct (owner_slot _ _ _ _ Hown) as (s & Hs & Hk).
  unfold flows_at in Hcap. rewrite Hs in Hcap. cbn [from_option] in Hcap.
  destruct Ha as [w ip' c'|ip' c' a p|ip' c'|ip' k' c'|cell b|ip' s' n Hs'].
  - unfold register. destruct (routes t !! ip') as [s'|] eqn:E; [case_match; [done|]|];
      unfold set_routes; rewrite owner_at_insert; case_decide; try done; subst; [|congruence].
    cbn [RouteSlot.flows RouteSlot.set_senders]. congruence.
  - unfold attach_liveness. destruct (routes t !! ip') as [s'|] eqn:E; [|done].
    unfold set_routes. rewrite owner_at_insert. case_decide; [|done]. subst.
    cbn [RouteSlot.flows RouteSlot.set_senders]. congruence.
  - destruct Hset as [Hin _]. destruct (decide (ip' = ip)) as [->|Hne].
    2: { unfold owner_at. rewrite unregister_elsewhere by done. done. }
    rewrite unregister_senders in Hin. unfold unregister_if_owner in *. rewrite Hs in *.
    unfold senders_at in Hin. rewrite Hs in Hin. cbn [from_option] in Hin.
    destruct (filter (fun d => tx d <> c') (RouteSlot.senders s)) as [|d l] eqn:El; [by apply not_elem_of_nil in Hin|].
    unfold set_routes. rewrite owner_at_insert, decide_True by done. cbn [RouteSlot.flows].
    apply map_lookup_filter_Some. split; [done|]. cbn [snd]. rewrite <- El in Hin.
    apply list_elem_of_fmap in Hin as (d' & -> & [Hd' _]%list_elem_of_filter). done.
  - unfold note_flow. destruct (routes t !! ip') as [s'|] eqn:E; [|done].
    unfold set_routes. rewrite owner_at_insert. case_decide; [|done]. subst. simplify_eq.
    by apply note_flow_keeps.
  - done.
  - unfold set_routes. rewrite owner_at_insert. case_decide; [|done]. subst. by simplify_eq.
Qed.

Lemma undisturbed_keeps_owner ip c k t t' :
  undisturbed ip c t t' -> settled ip c t -> owner_at t ip k = Some c ->
  owner_at t' ip k = Some c /\ settled ip c t'.
Proof.
  induction 1 as [|t t1 t' [Ha Hset] _ IH]; [done|]. intros [_ Hcap] Hown. apply IH; [done|].
  by eapply atom_keeps_owner.
Qed.

(** ** The owner gets the answer *)

Lemma owner_chosen t ip k pkt s d :
  routes t !! ip = Some s -> RouteSlot.flows s !! k = Some (tx d) -> d ∈ RouteSlot.senders s ->
  serves t (RouteSlot.senders s) d = true ->
  select t (Some k) pkt s = Some (tx d, s).
Proof.
  intros Hs Hk Hd Hser. unfold select, owned. cbn [mbind option_bind]. rewrite Hk. cbn [mbind option_bind].
  rewrite (proj2 (existsb_exists _ _)); [done|]. exists d. split; [by apply list_elem_of_In|].
  by rewrite Nat.eqb_refl, Hser.
Qed.

(** The channel [c] serves [ip]: it is not stale, or all are. *)
Definition serving_at (t : RouteTable.t) (ip : Z) (c : nat) : Prop :=
  exists d, d ∈ senders_at t ip /\ tx d = c /\
    (is_stale t d = false \/ forall d', d' ∈ senders_at t ip -> is_stale t d' = true).

Lemma serving_serves t l d :
  d ∈ l -> is_stale t d = false \/ (forall d', d' ∈ l -> is_stale t d' = true) -> serves t l d = true.
Proof.
  intros Hd [E|Hall]; unfold serves; [by rewrite E, orb_true_r|].
  assert (use_all t l = true) as ->; [|done]. unfold use_all, serving. apply Nat.eqb_eq, length_zero_iff_nil.
  destruct (filter _ l) as [|d' r] eqn:E; [done|].
  assert (d' ∈ filter (fun d => is_stale t d = false) l) as [Hf Hin]%list_elem_of_filter by (rewrite E; by left).
  rewrite Hall in Hf; done.
Qed.

(** What the dispatch makes of the chosen channel's answer. *)
Definition delivered (w : World) (c : nat) : Outcome :=
  match try_send w c with Accepted => Sent c | _ => ChannelFull c end.

Lemma owned_dispatch w ip k pkt t m c :
  canonical_flow_key pkt = Some (Some k) -> owner_at t ip k = Some c -> serving_at t ip c ->
  try_send w c <> ReceiverGone ->
  exists t' m', dispatch w ip pkt t m = Some (t', m', delivered w c).
Proof.
  intros Hkey Hown (d & Hd & <- & Hst) Hopen. destruct (owner_slot _ _ _ _ Hown) as (s & Hs & Hk).
  unfold dispatch. rewrite Hkey. cbn [mbind option_bind]. cbn [dispatch_loop]. rewrite Hs.
  unfold senders_at in Hd, Hst. rewrite Hs in Hd, Hst. cbn [from_option] in Hd, Hst.
  rewrite (owner_chosen t ip k pkt s d) by (try done; by apply serving_serves).
  destruct (RouteSlot.senders s); [by apply not_elem_of_nil in Hd|]. cbn [mbind option_bind].
  unfold delivered. destruct (try_send w (tx d)); [eauto..|done].
Qed.

(** ** Through the router *)

Definition table_of (pkt : list Z) (r : MultihopTunRouter.t) : RouteTable.t :=
  if MultihopTunRouter.is_v6 pkt then MultihopTunRouter.routes_v6 r else MultihopTunRouter.routes r.

Definition uplink_source (pkt : list Z) : option (option Z) :=
  if MultihopTunRouter.is_v6 pkt then MultihopTunRouter.src_ipv6 pkt else MultihopTunRouter.src_ipv4 pkt.

Definition downlink_target (pkt : list Z) : option (option Z) :=
  if MultihopTunRouter.is_v6 pkt then MultihopTunRouter.dst_ipv6 pkt else MultihopTunRouter.dst_ipv4 pkt.

Lemma note_uplink_table p c r k ip :
  canonical_flow_key p = Some (Some k) -> uplink_source p = Some (Some ip) ->
  exists r', MultihopTunRouter.note_uplink p c r = Some r' /\ table_of p r' = note_flow ip k c (table_of p r).
Proof.
  unfold MultihopTunRouter.note_uplink, uplink_source, table_of. intros -> Hs. cbn [mbind option_bind].
  destruct (MultihopTunRouter.is_v6 p); rewrite Hs; cbn [mbind option_bind]; eexists; done.
Qed.

Lemma router_dispatch w q r m ip t' m' o :
  downlink_target q = Some (Some ip) -> dispatch w ip q (table_of q r) m = Some (t', m', o) ->
  exists r', MultihopTunRouter.dispatch w q r m = Some (r', m', o) /\ table_of q r' = t'.
Proof.
  unfold MultihopTunRouter.dispatch, downlink_target, table_of. intros Ht Hd.
  destruct (MultihopTunRouter.is_v6 q); rewrite Ht; cbn [mbind option_bind]; rewrite Hd; cbn [mbind option_bind]; eauto.
Qed.

(** An answer is of the family of its packet, and addressed to its source. *)
Lemma answer_target p q :
  answers p q ->
  MultihopTunRouter.is_v6 q = MultihopTunRouter.is_v6 p /\ downlink_target q = uplink_source p.
Proof.
  intros [fp fr Hp Hr Vp Vr Ip Ir Lp Lr _ _ Hb _ _|fp fr Hp Hr Vp Vr Lp Lr _ _ Hb _ _].
  - unfold downlink_target, uplink_source, MultihopTunRouter.is_v6, MultihopTunRouter.dst_ipv4,
      MultihopTunRouter.src_ipv4, extract. rewrite Hp, Hr, Hb.
    rewrite !head_lookup, Hp, Hr. cbn [from_option mbind option_bind]. rewrite Vp, Vr.
    rewrite !(proj2 (Nat.ltb_ge _ _)) by lia. done.
  - unfold downlink_target, uplink_source, MultihopTunRouter.is_v6, MultihopTunRouter.dst_ipv6,
      MultihopTunRouter.src_ipv6, extract. rewrite Hp, Hr, Hb.
    rewrite !head_lookup, Hp, Hr. cbn [from_option mbind option_bind]. rewrite Vp, Vr.
    rewrite !(proj2 (Nat.ltb_ge _ _)) by lia. done.
Qed.

Lemma note_owner ip k c t :
  owner_at t ip k = None \/ owner_at t ip k = Some c -> settled ip c (note_flow ip k c t) ->
  owner_at (note_flow ip k c t) ip k = Some c.
Proof.
  intros Hown [Hin _]. unfold note_flow in *. destruct (routes t !! ip) as [s|] eqn:Hs.
  - unfold set_routes. rewrite owner_at_insert, decide_True by done.
    unfold owner_at in Hown. rewrite Hs in Hown. cbn [mbind option_bind] in Hown.
    destruct Hown as [Hn|He]; [by apply note_flow_learns|]. unfold RouteSlot.note_flow. by rewrite He.
  - unfold senders_at in Hin. rewrite Hs in Hin. by apply not_elem_of_nil in Hin.
Qed.

(** C13.  The answers of a flow go to the connection that opened it.  Once a packet of
    the flow has been noted for channel [c] (and no other channel owned the flow), then
    through any steps of the other tasks, the patrol, the takeover re-check,
    registrations and departures of other connections, dispatches, other flows, as long
    as [c] stays registered and the flow table has room, an answer is handed to [c],
    if [c] is open and not stale. *)
Theorem replies_return_to_opener w p q c k ip r r1 r2 m :
  answers p q -> canonical_flow_key p = Some (Some k) -> uplink_source p = Some (Some ip) ->
  owner_at (table_of p r) ip k = None \/ owner_at (table_of p r) ip k = Some c ->
  MultihopTunRouter.note_uplink p c r = Some r1 ->
  settled ip c (table_of p r1) -> undisturbed ip c (table_of p r1) (table_of p r2) ->
  serving_at (table_of p r2) ip c -> try_send w c <> ReceiverGone ->
  exists r3 m', MultihopTunRouter.dispatch w q r2 m = Some (r3, m', delivered w c).
Proof.
  intros Hans Hk Hsrc Hown Hnote Hset Hrun Hserv Hopen.
  destruct (note_uplink_table p c r k ip Hk Hsrc) as (r' & E & Htab). simplify_eq. rewrite Htab in Hset, Hrun.
  destruct (undisturbed_keeps_owner _ _ k _ _ Hrun Hset) as [Howner _]; [by apply note_owner|].
  destruct (answer_target _ _ Hans) as [H6 Htgt].
  assert (table_of q r2 = table_of p r2) as Etab by (unfold table_of; by rewrite H6).
  destruct (owned_dispatch w ip k q (table_of p r2) m c) as (t' & m' & Hd); [|done..|].
  { by rewrite (canonical_key_symmetric p q). }
  rewrite <- Etab in Hd. apply (router_dispatch _ _ _ _ ip) in Hd as (r3 & Hd & _); [eauto|congruence].
Qed.

End Replies.

(** ** Instances *)

Definition idle_world : World := mkWorld (fun _ => 0) (fun _ => 0) (fun _ => false) (fun _ => Accepted).

(** Two bonded connections of the client at 10.66.0.5, channels 1 and 2. *)
Definition client_ip : Z := ipv4 10 66 0 5.
Definition two_legs : MultihopTunRouter.t :=
  MultihopTunRouter.on_v4
    (fun t => register idle_world client_ip 2 (register idle_world client_ip 1 t)) MultihopTunRouter.default.

(** The flow opened on channel 2, and a third connection that arrives before the
    answer. *)
Definition noted : MultihopTunRouter.t := default two_legs (MultihopTunRouter.note_uplink sample_out 2 two_legs).
Definition joined : MultihopTunRouter.t := MultihopTunRouter.on_v4 (register idle_world client_ip 3) noted.
Definition sample_key : Z := default 0 (default None (canonical_flow_key sample_out)).

Lemma settled_noted : settled client_ip 2 (table_of sample_out noted).
Proof. split; [apply (bool_decide_unpack _)|]; by vm_compute. Qed.

Lemma settled_joined : settled client_ip 2 (table_of sample_out joined).
Proof. split; [apply (bool_decide_unpack _)|]; by vm_compute. Qed.

Lemma replies_return_to_opener_witness :
  exists r3 m', MultihopTunRouter.dispatch idle_world sample_back joined (mkDown 0 0 0) = Some (r3, m', Sent 2).
Proof.
  apply (replies_return_to_opener idle_world sample_out sample_back 2 sample_key client_ip two_legs noted).
  - apply sample_answers.
  - by vm_compute.
  - by vm_compute.
  - left. by vm_compute.
  - by vm_compute.
  - apply settled_noted.
  - apply rtc_once. split; [apply (atom_register _ idle_world client_ip 3)|apply settled_joined].
  - exists (mkDownlink 2 None None 1). split; [apply (list_elem_of_lookup_2 _ 1); by vm_compute|].
    split; [done|left; by vm_compute].
  - done.
Defined.

(** ** What the flow table does not do *)

(** A channel given up at the cap keeps its learned flows: the entry of [k] still
    names it, and no packet of another connection re-learns the flow. *)
Lemma capped_out_owner_stays `{HashOrder} w ip c k v t s :
  routes t !! ip = Some s -> c ∉ tx <$> RouteSlot.senders s ->
  RouteSlot.flows s !! k = Some v ->
  owner_at (register w ip c t) ip k = Some v /\
  (forall c', owner_at (note_flow ip k c' (register w ip c t)) ip k = Some v).
Proof.
  intros Hs Hc Hk. unfold register. rewrite Hs.
  destruct (existsb _ _) eqn:Hx; [by apply existsb_tx in Hx|].
  set (s' := RouteSlot.set_senders _ s).
  assert (RouteSlot.flows s' !! k = Some v) as Hk' by done. unfold set_routes at 1. split.
  - rewrite owner_at_insert. by rewrite decide_True.
  - intros c'. unfold note_flow. cbn [routes set_routes alloc_cell]. rewrite lookup_insert_eq.
    unfold RouteSlot.note_flow. rewrite Hk'. unfold owner_at. cbn [routes set_routes]. by rewrite lookup_insert_eq.
Qed.

(** Sixteen channels, the first of which owns the flow, and a seventeenth: the first
    is given up, and the flow of the newcomer is not learned. *)
Definition capped_out : MultihopTunRouter.t :=
  let r := MultihopTunRouter.on_v4
    (fun t => foldr (fun c t => register idle_world client_ip c t) t (reverse (seq 1 16))) MultihopTunRouter.default in
  let r := default r (MultihopTunRouter.note_uplink sample_out 1 r) in
  let r := MultihopTunRouter.on_v4 (register idle_world client_ip 17) r in
  default r (MultihopTunRouter.note_uplink sample_out 17 r).

Lemma capped_out_flow :
  tx <$> senders_at (MultihopTunRouter.routes capped_out) client_ip = seq 2 16 /\
  owner_at (MultihopTunRouter.routes capped_out) client_ip sample_key = Some 1%nat.
Proof. by vm_compute. Qed.

(** The reports of [n] rounds at which channel 1 moves at the QUIC level only, and
    channel 2 at both. *)
Fixpoint patrol_rounds (n : nat) (from : Z) (app1 : Z) (x : MultihopTunRouter.t * Patrol.t)
  : MultihopTunRouter.t * Patrol.t :=
  match n with
  | O => x
  | S n =>
      let w := mkWorld (fun a => if Nat.eqb a 1 then app1 else from) (fun _ => from) (fun _ => false) (fun _ => Accepted) in
      let '(r, p, _) := Patrol.tick w (snd x) (fst x) in
      patrol_rounds n (from + 1) app1 (r, p)
  end.

(** Channel 1, which owns the flow, is reported stale; its sibling leaves; channel 1
    carries traffic again, through any number of rounds that do not look at a slot of
    one sender; a third connection joins. *)
Definition lingering : MultihopTunRouter.t :=
  let r := MultihopTunRouter.on_v4 (attach_liveness client_ip 1 1 (Some 1%nat)) two_legs in
  let r := MultihopTunRouter.on_v4 (attach_liveness client_ip 2 2 (Some 2%nat)) r in
  let r := default r (MultihopTunRouter.note_uplink sample_out 1 r) in
  let '(r, p) := patrol_rounds 25 0 0 (r, Patrol.start) in
  let r := MultihopTunRouter.on_v4 (unregister_if_owner client_ip 2) r in
  let '(r, p) := patrol_rounds 25 25 9 (r, p) in
  MultihopTunRouter.on_v4 (register idle_world client_ip 3) r.

(** The answer of channel 1's own flow goes to the newcomer. *)
Lemma stale_flag_lingers :
  exists r m, owner_at (MultihopTunRouter.routes lingering) client_ip sample_key = Some 1%nat /\
    MultihopTunRouter.dispatch idle_world sample_back lingering (mkDown 0 0 0) = Some (r, m, Sent 3).
Proof. eexists _, _. split; by vm_compute. Qed.
