(* ===== verification/RoutePatrol.v ===== *)
(** What the permanent patrol may take a route away for.  The patrol runs among the
    other tasks: between two rounds the table moves by any steps.  A sender it evicts
    had closed, or its two counters had not moved since the fifth round before. *)

From S2P Require Import Prelude IpPackets FlowKeys RouteTable RouteInv RouteDispatch.
Import RouteTable.

Section Patrol.
Context `{H : HashOrder}.

(** The activity counter and the QUIC connection behind each channel: a channel is
    made for one connection. *)
Variable handles : nat -> nat * nat.
Definition counter (c : nat) : nat := fst (handles c).
Definition connection (c : nat) : nat := snd (handles c).

(** Every attached handle is that of the channel's connection. *)
Definition handled (t : RouteTable.t) : Prop :=
  forall ip d, d ∈ senders_at t ip ->
    (forall a, activity d = Some a -> a = counter (tx d)) /\ (forall p, peer d = Some p -> p = connection (tx d)).

(** The rounds so far, the latest first, with the table and what the patrol
    remembers. *)
Inductive patrolled : list World -> RouteTable.t -> gmap Z (list PatrolWatch.t) -> Prop :=
| patrolled_start : patrolled [] RouteTable.empty ∅
| patrolled_step h t t' st : patrolled h t st -> atom t t' -> handled t' -> patrolled h t' st
| patrolled_round h t st w t' st' r :
    patrolled h t st -> patrol_round w st t = (t', st', r) -> patrolled (w :: h) t' st'.

(** A reading that did not move during the last [n] rounds. *)
Definition steady (h : list World) (read : World -> Z) (v n : Z) : Prop :=
  forall i, (Z.of_nat i <= n) -> exists w, h !! i = Some w /\ read w = v.

Definition app_reading (c : nat) (w : World) : Z := load w (counter c).
Definition quic_reading (c : nat) (w : World) : Z := packets_from_peer w (connection c).

Record watch_ok (h : list World) (pw : PatrolWatch.t) : Prop := {
  ok_app : steady h (app_reading (c_tx (PatrolWatch.who pw))) (PatrolWatch.activity_seen pw)
             (PatrolWatch.app_silent_rounds pw);
  ok_quic : steady h (quic_reading (c_tx (PatrolWatch.who pw))) (PatrolWatch.peer_packets_seen pw)
              (PatrolWatch.peer_silent_rounds pw);
  ok_app_pos : 0 <= PatrolWatch.app_silent_rounds pw;
  ok_quic_pos : 0 <= PatrolWatch.peer_silent_rounds pw;
}.

(** The handles of a candidate are those of its channel. *)
Definition of_channel (c : PatrolCandidate) : Prop :=
  c_activity c = counter (c_tx c) /\ c_peer c = connection (c_tx c).

(** Closed, or silent at both levels since the fifth round before [w]. *)
Definition dead (w : World) (h : list World) (c : nat) : Prop :=
  is_closed w (connection c) = true \/
  (steady (w :: h) (app_reading c) (app_reading c w) PATROL_SILENT_ROUNDS /\
   steady (w :: h) (quic_reading c) (quic_reading c w) PATROL_SILENT_ROUNDS).

(** ** One watch *)

Lemma steady_now w h read : steady (w :: h) read (read w) 0.
Proof. intros i Hi. assert (i = O) as -> by lia. by exists w. Qed.

Lemma steady_more w h read v n : steady h read v n -> read w = v -> steady (w :: h) read v (n + 1).
Proof. intros Hs Hw [|i] Hi; [by exists w|]. apply Hs. lia. Qed.

Lemma steady_less h read v n n' : steady h read v n -> n' <= n -> steady h read v n'.
Proof. intros Hs Hn i Hi. apply Hs. lia. Qed.

Lemma one_more_le n : 0 <= n -> 0 <= PatrolWatch.one_more n <= n + 1.
Proof. unfold PatrolWatch.one_more, u32_max. lia. Qed.

Lemma observe_ok w h pw :
  watch_ok h pw ->
  let c := c_tx (PatrolWatch.who pw) in
  watch_ok (w :: h) (PatrolWatch.observe (app_reading c w) (quic_reading c w) pw).
Proof.
  intros [Ha Hq Hpa Hpq] c. unfold PatrolWatch.observe.
  pose proof (one_more_le _ Hpa). pose proof (one_more_le _ Hpq).
  destruct (Z.eqb_spec (app_reading c w) (PatrolWatch.activity_seen pw)) as [Ea|Ea];
    cbn [PatrolWatch.peer_packets_seen PatrolWatch.who PatrolWatch.activity_seen
         PatrolWatch.app_silent_rounds PatrolWatch.peer_silent_rounds];
    (destruct (Z.eqb_spec (quic_reading c w) (PatrolWatch.peer_packets_seen pw)) as [Eq|Eq]);
    split; cbn [PatrolWatch.peer_packets_seen PatrolWatch.who PatrolWatch.activity_seen
         PatrolWatch.app_silent_rounds PatrolWatch.peer_silent_rounds]; try lia; try apply steady_now;
    (eapply steady_less; [by apply steady_more|lia]).
Qed.

Lemma swap_remove_in (l : list PatrolWatch.t) i x : x ∈ swap_remove l i -> x ∈ l.
Proof.
  unfold swap_remove. destruct (last l) as [y|] eqn:Hl; [|done]. intros Hx%elem_of_take.
  destruct Hx as (j & Hx & _). apply last_Some in Hl as [l' El].
  destruct (decide (i = j)) as [<-|Hne].
  - destruct (decide (i < length l)%nat) as [Hi|Hi].
    + rewrite list_lookup_insert_eq in Hx by done. simplify_eq. apply elem_of_app. right. by left.
    + rewrite list_insert_ge in Hx by lia. by eapply list_elem_of_lookup_2.
  - rewrite list_lookup_insert_ne in Hx by done. by eapply list_elem_of_lookup_2.
Qed.

(** What [patrol_watch] makes of a candidate and the watches carried over. *)
Lemma patrol_watch_ok w h c carried pw carried' :
  of_channel c -> Forall (watch_ok h) carried -> patrol_watch w c carried = (pw, carried') ->
  watch_ok (w :: h) pw /\ Forall (watch_ok h) carried' /\ c_tx (PatrolWatch.who pw) = c_tx c.
Proof.
  intros [Ea Ep] Hc. unfold patrol_watch. rewrite Ea, Ep.
  destruct (list_find _ carried) as [[i old]|] eqn:Hf; intros [= <- <-].
  - apply list_find_Some in Hf as (Hi & Hold & _).
    pose proof (Forall_lookup_1 _ _ _ _ Hc Hi) as Hok. rewrite <- Hold.
    split; [by apply observe_ok|]. split; [|unfold PatrolWatch.observe; by repeat case_match].
    apply Forall_forall. intros x Hx%swap_remove_in. by eapply Forall_forall in Hc.
  - split; [|done]. split; cbn [PatrolWatch.new PatrolWatch.who PatrolWatch.activity_seen PatrolWatch.peer_packets_seen
      PatrolWatch.app_silent_rounds PatrolWatch.peer_silent_rounds]; [apply steady_now..|lia|lia].
Qed.

Lemma verdict_dead w h c pw reason :
  of_channel c -> watch_ok (w :: h) pw -> c_tx (PatrolWatch.who pw) = c_tx c ->
  patrol_verdict w c pw = Some reason -> dead w h (c_tx c).
Proof.
  intros [_ Ep] [Ha Hq _ _] Et. unfold patrol_verdict. rewrite Ep.
  destruct (is_closed w (connection (c_tx c))) eqn:Ec; [by left|].
  destruct (Z.leb_spec PATROL_SILENT_ROUNDS (PatrolWatch.silent_rounds pw)) as [Hn|]; [|done]. intros _. right.
  unfold PatrolWatch.silent_rounds in Hn. rewrite Et in Ha, Hq. assert (0 <= PATROL_SILENT_ROUNDS) as H0 by done.
  destruct (Ha O) as (? & [= <-] & Ea); [lia|]. destruct (Hq O) as (? & [= <-] & Eq); [lia|].
  rewrite Ea, Eq. split; (eapply steady_less; [eassumption|lia]).
Qed.

(** ** One round *)

(** What a round did to the senders [l] of an address, for its candidates: it only
    removed senders, every one of them dead, and every closed candidate. *)
Record judged (w : World) (h : list World) (cands : list PatrolCandidate) (l l' : list Downlink) : Prop := {
  judged_none_new : forall d, d ∈ l' -> d ∈ l;
  judged_dead : forall d, d ∈ l -> d ∈ l' \/ exists c, c ∈ cands /\ c_tx c = tx d /\ dead w h (tx d);
  judged_closed : forall c, c ∈ cands -> is_closed w (c_peer c) = true -> c_tx c ∉ tx <$> l';
}.

Lemma judged_nil w h l : judged w h [] l l.
Proof. split; [done|by left|by intros c ?%not_elem_of_nil]. Qed.

Lemma judged_evict w h c cands l l' :
  dead w h (c_tx c) -> judged w h cands (filter (fun d => tx d <> c_tx c) l) l' -> judged w h (c :: cands) l l'.
Proof.
  intros Hd [Hn Hx Hc].
  assert (forall d, d ∈ l' -> tx d <> c_tx c /\ d ∈ l) as Hin by (intros d Hd'%Hn; by apply list_elem_of_filter in Hd').
  split.
  - intros d Hd'. by apply Hin.
  - intros d Hd'. destruct (decide (tx d = c_tx c)) as [E|Hne].
    + right. exists c. split; [by left|]. split; [done|by rewrite E].
    + destruct (Hx d) as [|(c' & ? & ?)]; [by apply list_elem_of_filter|by left|]. right. exists c'. split; [by right|done].
  - intros c' [->|Hc']%elem_of_cons Hcl; [|by apply Hc].
    intros (d & E & Hd')%list_elem_of_fmap. apply Hin in Hd' as [? _]. congruence.
Qed.

Lemma judged_keep w h c cands l l' :
  is_closed w (c_peer c) = false -> judged w h cands l l' -> judged w h (c :: cands) l l'.
Proof.
  intros Ho [Hn Hx Hc]. split; [done| |].
  - intros d [|(c' & ? & ?)]%Hx; [by left|]. right. exists c'. split; [by right|done].
  - intros c' [->|Hc']%elem_of_cons Hcl; [congruence|by apply Hc].
Qed.

Lemma patrol_slot_judged w h ip watched carried t r t' kept r' :
  Forall of_channel watched -> Forall (watch_ok h) carried ->
  patrol_slot w ip watched carried t r = (t', kept, r') ->
  judged w h watched (senders_at t ip) (senders_at t' ip) /\ Forall (watch_ok (w :: h)) kept /\
  (forall ip', ip' <> ip -> senders_at t' ip' = senders_at t ip').
Proof.
  revert carried t r kept. induction watched as [|c watched IH]; intros carried t r kept Hof Hcar; cbn [patrol_slot].
  { intros [= <- <- <-]. split; [apply judged_nil|done]. }
  apply Forall_cons in Hof as [Hc Hof]. destruct (patrol_watch w c carried) as [pw carried'] eqn:Hw.
  destruct (patrol_watch_ok _ _ _ _ _ _ Hc Hcar Hw) as (Hok & Hcar' & Etx).
  destruct (patrol_verdict w c pw) as [reason|] eqn:Hv.
  - intros (Hj & Hk & He)%IH; [|done..]. rewrite Etx, unregister_senders in Hj. split; [|split; [done|]].
    + eapply judged_evict; [by eapply verdict_dead|done].
    + intros ip' Hip. rewrite He by done. unfold senders_at. by rewrite unregister_elsewhere.
  - match goal with |- context [patrol_slot w ip watched carried' ?a ?b] =>
      destruct (patrol_slot w ip watched carried' a b) as [[t2 kept2] r2] eqn:Hrun end. intros [= <- <- <-].
    apply IH in Hrun as (Hj & Hk & He); [|done..]. split; [|split; [by apply Forall_cons|exact He]].
    eapply judged_keep; [|exact Hj]. unfold patrol_verdict in Hv. by destruct (is_closed w (c_peer c)).
Qed.

Definition watches_ok (h : list World) (st : gmap Z (list PatrolWatch.t)) : Prop :=
  map_Forall (fun _ l => Forall (watch_ok h) l) st.

Lemma patrol_slots_judged w h cands st t r t' st' r' :
  NoDup cands.*1 -> Forall (fun x => Forall of_channel x.2) cands -> watches_ok h st ->
  patrol_slots w cands st t r = (t', st', r') ->
  (forall ip, ip ∉ cands.*1 -> senders_at t' ip = senders_at t ip) /\
  (forall ip l, (ip, l) ∈ cands -> judged w h l (senders_at t ip) (senders_at t' ip)) /\
  watches_ok (w :: h) st'.
Proof.
  revert st t r t' st' r'. induction cands as [|[ip0 l0] cands IH]; intros st t r t' st' r' Hnd Hof Hok; cbn [patrol_slots].
  { intros [= <- <- <-]. split; [done|]. split; [by intros ?? ?%not_elem_of_nil|apply map_Forall_empty]. }
  apply NoDup_cons in Hnd as [Hip0 Hnd]. apply Forall_cons in Hof as [Hof0 Hof]. cbn [fst snd] in *.
  destruct (patrol_slot _ _ _ _ _ _) as [[t1 kept] r1] eqn:E1.
  destruct (patrol_slots w cands _ _ _) as [[t2 next] r2] eqn:E2. intros [= <- <- <-].
  assert (Forall (watch_ok h) (default [] (st !! ip0))) as Hcar
    by (destruct (st !! ip0) eqn:E; [by apply (Hok _ _ E)|done]).
  destruct (patrol_slot_judged _ _ _ _ _ _ _ _ _ _ Hof0 Hcar E1) as (Hj & Hk & He).
  destruct (IH _ _ _ _ _ _ Hnd Hof (map_Forall_delete _ _ _ Hok) E2) as (He2 & Hj2 & Hk2).
  split; [|split].
  - intros ip [Hne Hip]%not_elem_of_cons. by rewrite He2, He.
  - intros ip l [[= -> ->]|Hin]%elem_of_cons; [by rewrite (He2 _ Hip0)|].
    assert (ip <> ip0) as Hne by (intros ->; by apply (list_elem_of_fmap_2 fst) in Hin).
    rewrite <- (He ip Hne). by apply Hj2.
  - destruct kept; [done|]. by apply map_Forall_insert_2.
Qed.

Lemma candidates_spec `{!HashOrderLaws H} t ip l :
  (ip, l) ∈ patrol_candidates t <->
  exists s, routes t !! ip = Some s /\ (1 < length (RouteSlot.senders s))%nat /\ l = omap candidate (RouteSlot.senders s).
Proof.
  unfold patrol_candidates. rewrite list_elem_of_fmap. split.
  - intros ([ip' s] & [= -> ->] & [Hlen Hin]%list_elem_of_filter).
    rewrite hash_iter_perm in Hin. apply elem_of_map_to_list in Hin. eauto.
  - intros (s & Hs & Hlen & ->). exists (ip, s). split; [done|]. apply list_elem_of_filter. split; [done|].
    rewrite hash_iter_perm. by apply elem_of_map_to_list.
Qed.

Lemma candidates_distinct `{!HashOrderLaws H} t : NoDup (patrol_candidates t).*1.
Proof.
  unfold patrol_candidates. rewrite <- list_fmap_compose.
  change (fst ∘ _) with (fst : Z * RouteSlot.t -> Z).
  eapply sublist_NoDup; [|apply fmap_sublist, sublist_filter].
  rewrite hash_iter_perm. apply NoDup_fst_map_to_list.
Qed.

Lemma candidate_of_channel t ip d c :
  handled t -> d ∈ senders_at t ip -> candidate d = Some c -> of_channel c /\ c_tx c = tx d.
Proof.
  intros Hh Hd. destruct (Hh ip d Hd) as [Ha Hp]. unfold candidate.
  destruct (activity d) as [a|]; cbn [mbind option_bind]; [|done].
  destruct (peer d) as [p|]; cbn [mbind option_bind]; [|done]. intros [= <-].
  split; [|done]. split; cbn [c_activity c_peer c_tx]; auto.
Qed.

Lemma candidates_of_channels `{!HashOrderLaws H} t :
  handled t -> Forall (fun x => Forall of_channel x.2) (patrol_candidates t).
Proof.
  intros Hh. apply Forall_forall. intros [ip l] (s & Hs & _ & ->)%candidates_spec.
  apply Forall_forall. intros c (d & Hd & Hc)%list_elem_of_omap.
  eapply candidate_of_channel; [done| |done]. unfold senders_at. by rewrite Hs.
Qed.

(** The round as a whole. *)
Lemma patrol_round_judged `{!HashOrderLaws H} w h st t t' st' r ip :
  handled t -> watches_ok h st -> patrol_round w st t = (t', st', r) ->
  watches_ok (w :: h) st' /\
  judged w h (if (1 <? length (senders_at t ip))%nat then omap candidate (senders_at t ip) else [])
    (senders_at t ip) (senders_at t' ip).
Proof.
  intros Hh Hok Hr.
  destruct (patrol_slots_judged _ _ _ _ _ _ _ _ _ (candidates_distinct t) (candidates_of_channels t Hh) Hok Hr)
    as (He & Hj & Hk).
  split; [done|]. destruct (Nat.ltb_spec 1 (length (senders_at t ip))) as [Hlen|Hlen].
  - apply Hj, candidates_spec. unfold senders_at in *. destruct (routes t !! ip) as [s|]; [by exists s|simpl in Hlen; lia].
  - rewrite He; [apply judged_nil|]. intros ([ip' l] & -> & Hin)%list_elem_of_fmap.
    apply candidates_spec in Hin as (s & Hs & Hl & _). unfold senders_at in Hlen. cbn [fst] in Hlen.
    rewrite Hs in Hlen. simpl in Hlen. lia.
Qed.

Lemma patrolled_inv `{!HashOrderLaws H} h t st : patrolled h t st -> handled t /\ watches_ok h st.
Proof.
  induction 1 as [|h t t' st _ [_ Hok] _ Hh|h t st w t' st' r _ [Hh Hok] Hr].
  - split; [|apply map_Forall_empty]. intros ip d Hd. unfold senders_at in Hd. cbn [routes RouteTable.empty] in Hd.
    rewrite lookup_empty in Hd. by apply not_elem_of_nil in Hd.
  - done.
  - split; [|by eapply (patrol_round_judged _ _ _ _ _ _ _ 0)].
    intros ip d Hd. destruct (patrol_round_judged _ _ _ _ _ _ _ ip Hh Hok Hr) as [_ [Hn _ _]].
    apply (Hh ip), Hn, Hd.
Qed.

(** ** Registrations and attachments keep the handles straight *)

Lemma senders_at_insert_ne t ip ip' s cells' next :
  ip' <> ip -> senders_at (mk (<[ip := s]> (routes t)) cells' next) ip' = senders_at t ip'.
Proof. intros Hne. unfold senders_at. cbn [routes]. by rewrite lookup_insert_ne. Qed.

Lemma handled_insert t ip s cells' next :
  handled t ->
  (forall d, d ∈ RouteSlot.senders s ->
     (forall a, activity d = Some a -> a = counter (tx d)) /\ (forall p, peer d = Some p -> p = connection (tx d))) ->
  handled (mk (<[ip := s]> (routes t)) cells' next).
Proof.
  intros Hh Hs ip' d. destruct (decide (ip' = ip)) as [->|Hne].
  - unfold senders_at. cbn [routes]. rewrite lookup_insert_eq. apply Hs.
  - rewrite senders_at_insert_ne by done. apply Hh.
Qed.

Lemma register_handled w ip c t : handled t -> handled (register w ip c t).
Proof.
  intros Hh. unfold register. destruct (routes t !! ip) as [s|] eqn:Hs.
  - case_match; [done|]. fold (make_room w (RouteSlot.senders s)). apply handled_insert; [done|].
    cbn [RouteSlot.senders RouteSlot.set_senders]. intros d [Hd|Hd]%elem_of_app.
    + apply (sublist_subseteq _ _ (make_room_sublist w _)) in Hd. apply (Hh ip). unfold senders_at. by rewrite Hs.
    + by apply list_elem_of_singleton in Hd as ->.
  - apply handled_insert; [done|]. by intros d ->%list_elem_of_singleton.
Qed.

Lemma attach_handled ip c t :
  handled t -> handled (attach_liveness ip c (counter c) (Some (connection c)) t).
Proof.
  intros Hh. unfold attach_liveness. destruct (routes t !! ip) as [s|] eqn:Hs; [|done].
  apply handled_insert; [done|]. cbn [RouteSlot.senders RouteSlot.set_senders].
  assert (forall d, d ∈ RouteSlot.senders s -> d ∈ senders_at t ip) as Hin by (unfold senders_at; by rewrite Hs).
  clear Hs. induction (RouteSlot.senders s) as [|d0 l IH]; cbn [update_first]; [by intros d ?%not_elem_of_nil|].
  destruct (Nat.eqb_spec (tx d0) c) as [E|E]; intros d [->|Hd]%elem_of_cons.
  - cbn [activity peer tx]. rewrite E. naive_solver.
  - apply (Hh ip), Hin. by right.
  - apply (Hh ip), Hin. by left.
  - apply IH; [|done]. intros d' Hd'. apply Hin. by right.
Qed.

(** C30.  The patrol takes a route away only from the dead, and from all the closed.
    Whatever the other tasks did to the table between its rounds, a sender that a round
    removes shared its address and either its connection had closed or neither its
    application counter nor its QUIC counter had moved since the fifth round before;
    every other sender stays.  And a sender that shares its address, has its handles
    and whose connection has closed is removed by the next round. *)
Theorem patrol_convicts_only_the_dead `{!HashOrderLaws H} h t st w t' st' r ip d :
  patrolled h t st -> patrol_round w st t = (t', st', r) -> d ∈ senders_at t ip ->
  (d ∈ senders_at t' ip \/ ((1 < length (senders_at t ip))%nat /\ dead w h (tx d))) /\
  ((1 < length (senders_at t ip))%nat -> is_Some (activity d) -> is_Some (peer d) ->
   is_closed w (connection (tx d)) = true -> tx d ∉ tx <$> senders_at t' ip).
Proof.
  intros [Hh Hok]%patrolled_inv Hr Hd.
  destruct (patrol_round_judged _ _ _ _ _ _ _ ip Hh Hok Hr) as [_ [_ Hdead Hclosed]]. split.
  - destruct (Hdead d Hd) as [|(c & Hc & _ & Hw)]; [by left|]. right. split; [|done].
    destruct (Nat.ltb_spec 1 (length (senders_at t ip))); [done|by apply not_elem_of_nil in Hc].
  - intros Hlen [a Ha] [p Hp] Hcl. rewrite (proj2 (Nat.ltb_lt _ _)) in Hclosed by done.
    apply (Hclosed (mkCandidate (tx d) a p (stale d))).
    + apply list_elem_of_omap. exists d. split; [done|]. unfold candidate. by rewrite Ha, Hp.
    + cbn [c_peer]. destruct (Hh ip d Hd) as [_ Hpd]. by rewrite (Hpd p Hp).
Qed.

End Patrol.

(** Two connections of one client, the first of which closes. *)
Definition same_name (c : nat) : nat * nat := (c, c).
Definition shared : RouteTable.t :=
  let w := mkWorld (fun _ => 0) (fun _ => 0) (fun _ => false) (fun _ => Accepted) in
  attach_liveness 7 2 2 (Some 2%nat) (attach_liveness 7 1 1 (Some 1%nat) (register w 7 2 (register w 7 1 RouteTable.empty))).
Definition closing : World := mkWorld (fun _ => 0) (fun _ => 0) (fun p => Nat.eqb p 1) (fun _ => Accepted).

Lemma shared_patrolled : patrolled same_name [] shared ∅.
Proof.
  assert (patrolled same_name [] RouteTable.empty ∅) as H0 by constructor.
  pose proof (proj1 (patrolled_inv _ _ _ _ H0)) as Hh. unfold shared.
  repeat match goal with
    | |- patrolled _ _ RouteTable.empty _ => constructor
    | |- patrolled _ _ (register ?w ?ip ?c ?t) _ => eapply (patrolled_step _ _ t); [|apply atom_register|]
    | |- patrolled _ _ (attach_liveness ?ip ?c ?a ?p ?t) _ => eapply (patrolled_step _ _ t); [|apply atom_attach|]
    end;
  repeat first [exact Hh | apply register_handled | apply (attach_handled same_name 7 1) | apply (attach_handled same_name 7 2)].
Qed.

Lemma patrol_convicts_only_the_dead_witness :
  exists t' st' r, patrol_round closing ∅ shared = (t', st', r) /\
    1%nat ∉ tx <$> senders_at t' 7 /\ mkDownlink 2 (Some 2%nat) (Some 2%nat) 1 ∈ senders_at t' 7.
Proof.
  destruct (patrol_round closing ∅ shared) as [[t' st'] r] eqn:E. exists t', st', r. split; [done|]. split.
  - apply (patrol_convicts_only_the_dead same_name [] shared ∅ closing t' st' r 7
      (mkDownlink 1 (Some 1%nat) (Some 1%nat) 0)); [apply shared_patrolled|done| | |done..|done].
    + apply (list_elem_of_lookup_2 _ 0). by vm_compute.
    + vm_compute. lia.
  - destruct (patrol_convicts_only_the_dead same_name [] shared ∅ closing t' st' r 7
      (mkDownlink 2 (Some 2%nat) (Some 2%nat) 1)) as [[Hd|[_ [Hd|[Hd _]]]] _]; [apply shared_patrolled|done| |done|done|].
    + apply (list_elem_of_lookup_2 _ 1). by vm_compute.
    + destruct (Hd 1%nat) as (w & Hw & _); [by vm_compute|done].
Defined.
