(* ===== verification/ExitTransmit.v ===== *)
(** The transmit loop of the exit
    ([crates/warrenguard-multihop-server/src/datapath.rs], and the [tx_task] of
    [multihop.rs]): a packet of the router's channel is held back when the
    connection's buffer is nearly full, adapted to the live budget or answered with
    an ICMP error, charged to the session's rate, sealed and sent.

    One turn is [tx_turn]: its input is the packet, the readings of the connection,
    the verdict of the rate policy, the session and number it seals with
    ([ExitSeal]) and the result of the send.  [None] is a panic. *)

From S2P Require Import Prelude Checksum IpPackets InnerMtu IcmpErrors FlowKeys Control UplinkPump UplinkAccounting.
From S2P Require Import ReplayWindow MultihopSession RouteTable RouteInv RouteDispatch RouteReplies.
Import MultihopSession.

Definition OVERREAD_GATE_FALLBACK_MTU : Z := 1280.

Definition overread_gate_should_drop (max_datagram_size : option Z) (space gate_mtus : Z) : bool :=
  if gate_mtus =? 0 then false
  else
    let mtu := default OVERREAD_GATE_FALLBACK_MTU max_datagram_size in
    if negb (overread_should_drop space mtu gate_mtus) then false else true.

(** [ControlFlow]. *)
Inductive ControlFlow (A : Type) := Break | Continue (a : A).
Arguments Break {A}.
Arguments Continue {A} a.

(** What the loop reads of the connection before a packet is sealed. *)
Record Link := mkLink {
  link_max_datagram : option Z;
  link_buffer_space : Z;
  link_gate_mtus : Z;
}.

(** The limiter of the report's log, the packet to seal, and what is written into the
    TUN device. *)
Definition next_sealable (recv : option (list Z)) (l : Link) (frame_overhead : Z) (reflected : RateLimited.t)
  : option (RateLimited.t * ControlFlow (option (list Z)) * list (list Z)) :=
  match recv with
  | None => Some (reflected, Break, [])
  | Some packet =>
      if overread_gate_should_drop (link_max_datagram l) (link_buffer_space l) (link_gate_mtus l)
      then Some (reflected, Continue None, [])
      else
        let budget := inner_budget (link_max_datagram l) frame_overhead in
        adapted ← adapt_inner_for_budget packet budget;
        let '(packet, ptb) := adapted in
        Some match ptb with
             | Some ptb => (fst (RateLimited.hit reflected), Continue None, [ptb])
             | None => (reflected, Continue (Some packet), [])
             end
  end.

(** [conn.send_datagram_classified]. *)
Inductive SendDatagram := SendOk | TooLarge | ConnectionGone.

Definition send_sealed (r : SendDatagram) (too_large : RateLimited.t) : RateLimited.t * ControlFlow unit :=
  match r with
  | SendOk => (too_large, Continue tt)
  | TooLarge => (fst (RateLimited.hit too_large), Continue tt)
  | ConnectionGone => (too_large, Break)
  end.

Module TxReport.

Record t := mk {
  from_tun : Z;
  seal_errs : Z;
  encode_errs : Z;
  sent : Z;
  rate_drops : Z;
  last_report : Z;
}.

Definition new (now : Z) : t := mk 0 0 0 0 0 now.

Definition inc_from_tun (r : t) : t :=
  mk (from_tun r + 1) (seal_errs r) (encode_errs r) (sent r) (rate_drops r) (last_report r).
Definition inc_seal_errs (r : t) : t :=
  mk (from_tun r) (seal_errs r + 1) (encode_errs r) (sent r) (rate_drops r) (last_report r).
Definition inc_encode_errs (r : t) : t :=
  mk (from_tun r) (seal_errs r) (encode_errs r + 1) (sent r) (rate_drops r) (last_report r).
Definition inc_sent (r : t) : t :=
  mk (from_tun r) (seal_errs r) (encode_errs r) (sent r + 1) (rate_drops r) (last_report r).
Definition inc_rate_drops (r : t) : t :=
  mk (from_tun r) (seal_errs r) (encode_errs r) (sent r) (rate_drops r + 1) (last_report r).

Definition maybe_emit (now : Z) (r : t) : t :=
  if negb (RateLimited.is_multiple_of (from_tun r) RX_REPORT_CHECK_EVERY)
     || (duration_since now (last_report r) <? RX_REPORT_INTERVAL)
  then r
  else mk (from_tun r) (seal_errs r) (encode_errs r) (sent r) (rate_drops r) now.

End TxReport.

Record TxPump := mkTx {
  tx_report : TxReport.t;
  reflected : RateLimited.t;
  too_large : RateLimited.t;
}.

Definition tx_new (now : Z) : TxPump := mkTx (TxReport.new now) (RateLimited.new 64) (RateLimited.new 5000).

Section Turn.
Context `{H : Hpke} `{P : Postcard}.
Variable frame_overhead : Z.

Record TxInput := mkTxInput {
  recv : option (list Z);
  link : Link;
  rate_admits : bool;
  seal_with_session : ExitSession * Z;
  seal_with_seq : Z;
  send_result : SendDatagram;
  tx_now : Z;
}.

(** A turn writes reports into the TUN device, seals a packet, hands a frame to the
    connection. *)
Inductive TxEffect :=
| Reflected (ptb : list Z)
| SealedPacket (packet : list Z)
| Handed (bytes : list Z).

Definition tx_turn (p : TxPump) (i : TxInput) : option (TxPump * list TxEffect * bool) :=
  next ← next_sealable (recv i) (link i) frame_overhead (reflected p);
  let '(refl, flow, tun) := next in
  let p := mkTx (tx_report p) refl (too_large p) in
  let writes := Reflected <$> tun in
  match flow with
  | Break => Some (p, writes, false)
  | Continue None => Some (p, writes, true)
  | Continue (Some packet) =>
      let r := TxReport.inc_from_tun (tx_report p) in
      if negb (rate_admits i) then
        Some (mkTx (TxReport.maybe_emit (tx_now i) (TxReport.inc_rate_drops r)) refl (too_large p), writes, true)
      else
        let '(session, epoch) := seal_with_session i in
        let writes := writes ++ [SealedPacket packet] in
        match seal_response_owned session packet epoch (seal_with_seq i) with
        | Err _ => Some (mkTx (TxReport.inc_seal_errs r) refl (too_large p), writes, true)
        | Ok frame =>
            match encode_frame frame with
            | Err _ => Some (mkTx (TxReport.inc_encode_errs r) refl (too_large p), writes, true)
            | Ok bytes =>
                let '(tl, sent) := send_sealed (send_result i) (too_large p) in
                match sent with
                | Break => Some (mkTx r refl tl, writes ++ [Handed bytes], false)
                | Continue _ =>
                    Some (mkTx (TxReport.maybe_emit (tx_now i) (TxReport.inc_sent r)) refl tl,
                          writes ++ [Handed bytes], true)
                end
            end
        end
  end.

(** ** What a turn does *)

(** The report of a packet too big for the budget. *)
Definition report_of (packet : list Z) (budget : Z) : option (option (list Z)) :=
  build_frag_needed packet budget TUNNEL_GATEWAY_IP TUNNEL_GATEWAY_IPV6.

Lemma report_total packet budget : (10 <= length packet)%nat -> exists r, report_of packet budget = Some r.
Proof.
  intros Hl. unfold report_of, build_frag_needed.
  destruct (build_cases packet (3, 4) (2, 0) ([0; 0] ++ be_bytes 2 budget) TUNNEL_GATEWAY_IP TUNNEL_GATEWAY_IPV6)
    as (r & -> & _); [done| |by eexists].
  intros (f & _ & _ & ?)%is_icmp_error_panics. lia.
Qed.

Lemma clamp_length packet budget :
  in_width 16 budget -> exists p, clamp_mss_logged packet budget = Some p /\ length p = length packet.
Proof.
  intros Hb. unfold clamp_mss_logged. destruct (clamp_cases packet budget Hb) as [->|(? & ? & ? & ? & ? & p & Hc & -> & _)].
  - by exists packet.
  - exists p. split; [done|]. destruct Hc. rewrite cl_new. by rewrite !length_put_word.
Qed.

(** A packet that is sealed fits, or is a SYN, or gets no report. *)
Definition sealable (packet : list Z) (budget : Z) : Prop :=
  Z.of_nat (length packet) <= budget \/ is_tcp_syn packet = Some true \/ report_of packet budget = Some None.

Lemma adapt_spec packet budget :
  in_width 16 budget -> (10 <= length packet)%nat ->
  exists p r, adapt_inner_for_budget packet budget = Some (p, r) /\ length p = length packet /\
    match r with
    | Some ptb => budget < Z.of_nat (length packet) /\ is_tcp_syn packet = Some false /\ report_of packet budget = Some (Some ptb)
    | None => sealable packet budget
    end.
Proof.
  intros Hb Hl. unfold adapt_inner_for_budget, sealable. destruct (is_tcp_syn_total packet) as [[|] Hs]; rewrite Hs;
    cbn [mbind option_bind].
  - destruct (clamp_length packet budget Hb) as (p & -> & E). cbn [mbind option_bind]. eauto 8.
  - destruct (Z.leb_spec (Z.of_nat (length packet)) budget); [eauto 8|].
    destruct (report_total packet budget Hl) as [r Hr]. fold (report_of packet budget). rewrite Hr. cbn [mbind option_bind].
    exists packet, r. split; [done|]. split; [done|]. destruct r; eauto.
Qed.

(** What of the packets taken is not accounted for by a reason. *)
Definition tx_open (r : TxReport.t) : Z :=
  TxReport.from_tun r - (TxReport.seal_errs r + TxReport.encode_errs r + TxReport.sent r + TxReport.rate_drops r).

Lemma emit_open now r : tx_open (TxReport.maybe_emit now r) = tx_open r.
Proof. unfold TxReport.maybe_emit. by case_match. Qed.

Record TxTurn (p : TxPump) (i : TxInput) (p' : TxPump) (es : list TxEffect) (go : bool) : Prop := {
  turn_sealed packet : SealedPacket packet ∈ es ->
    exists pkt, recv i = Some pkt /\ length packet = length pkt /\ rate_admits i = true /\
      sealable pkt (inner_budget (link_max_datagram (link i)) frame_overhead);
  turn_reflected ptb : Reflected ptb ∈ es ->
    exists pkt, recv i = Some pkt /\ is_tcp_syn pkt = Some false /\
      let budget := inner_budget (link_max_datagram (link i)) frame_overhead in
      budget < Z.of_nat (length pkt) /\ report_of pkt budget = Some (Some ptb);
  turn_handed bytes : Handed bytes ∈ es ->
    exists packet frame, SealedPacket packet ∈ es /\
      seal_response_owned (seal_with_session i).1 packet (seal_with_session i).2 (seal_with_seq i) = Ok frame /\
      encode_frame frame = Ok bytes;
  turn_accounted : tx_open (tx_report p') =
    tx_open (tx_report p) + (if bool_decide (go = false /\ es <> []) then 1 else 0);
}.

(** A turn without an effect. *)
Lemma turn_quiet p i p' go : tx_open (tx_report p') = tx_open (tx_report p) -> TxTurn p i p' [] go.
Proof.
  intros E. split; try (by intros ? ?%not_elem_of_nil). rewrite E, bool_decide_false by naive_solver. lia.
Qed.

(** A turn that sealed a packet, and handed over the frame if there is one. *)
Lemma turn_sealing p i p' (go : bool) pkt packet handed :
  recv i = Some pkt -> length packet = length pkt -> rate_admits i = true ->
  sealable pkt (inner_budget (link_max_datagram (link i)) frame_overhead) ->
  (forall bytes, handed = Some bytes ->
     exists frame, seal_response_owned (seal_with_session i).1 packet (seal_with_session i).2 (seal_with_seq i) = Ok frame /\
                   encode_frame frame = Ok bytes) ->
  tx_open (tx_report p') = tx_open (tx_report p) + (if go then 0 else 1) ->
  TxTurn p i p' (SealedPacket packet :: option_list (Handed <$> handed)) go.
Proof.
  intros Hr El Ha Hs Hh E.
  assert (forall x, x ∈ SealedPacket packet :: option_list (Handed <$> handed) ->
    x = SealedPacket packet \/ exists bytes, handed = Some bytes /\ x = Handed bytes) as Hin.
  { intros x [->|Hx]%elem_of_cons; [by left|]. destruct handed as [y|]; [|by apply not_elem_of_nil in Hx].
    apply list_elem_of_singleton in Hx as ->. right. by exists y. }
  split.
  - intros q [[= ->]|(? & _ & ?)]%Hin; [|done]. eauto.
  - by intros q [?|(? & _ & ?)]%Hin.
  - intros q [?|(? & Hx & [= ->])]%Hin; [done|]. destruct (Hh _ Hx) as (f & ? & ?).
    exists packet, f. split; [by left|done].
  - rewrite E. destruct go; [rewrite bool_decide_false by naive_solver|rewrite bool_decide_true by done]; lia.
Qed.

(** A turn never panics on a packet the router dispatches.  What it seals fits the live
    budget, except a SYN and a packet that gets no report; what it reflects is the
    report of a packet that does not fit; only what was sealed is sent; and every
    packet taken is counted as sent or under one reason, except the one the
    connection was lost on. *)
Theorem transmit_turn p i :
  (forall pkt, recv i = Some pkt -> (10 <= length pkt)%nat) ->
  exists p' es go, tx_turn p i = Some (p', es, go) /\ TxTurn p i p' es go.
Proof.
  intros Hlen. unfold tx_turn, next_sealable. destruct (recv i) as [pkt|] eqn:Hr.
  2: { eexists _, _, _. split; [done|]. by apply turn_quiet. }
  destruct (overread_gate_should_drop _ _ _).
  { eexists _, _, _. split; [done|]. by apply turn_quiet. }
  destruct (adapt_spec pkt (inner_budget (link_max_datagram (link i)) frame_overhead))
    as (packet & [ptb|] & -> & El & Hspec);
    [apply inner_budget_width|by apply Hlen| |]; cbn [mbind option_bind fmap list_fmap app].
  { eexists _, _, _. split; [done|]. split; try (intros q Hq%list_elem_of_singleton; done).
    - intros q [= ->]%list_elem_of_singleton. exists pkt. naive_solver.
    - rewrite bool_decide_false by naive_solver. cbn [tx_report]. lia. }
  destruct (rate_admits i) eqn:Hrate; cbn [negb].
  2: { eexists _, _, _. split; [done|]. apply turn_quiet. cbn [tx_report]. rewrite emit_open. unfold tx_open. simpl. lia. }
  destruct (seal_with_session i) as [ses e] eqn:Hses.
  destruct (seal_response_owned ses packet e (seal_with_seq i)) as [f|err] eqn:Hf.
  2: { eexists _, _, _. split; [done|]. apply (turn_sealing _ _ _ _ pkt packet None); try done. unfold tx_open. simpl. lia. }
  destruct (encode_frame f) as [bytes|err] eqn:He.
  2: { eexists _, _, _. split; [done|]. apply (turn_sealing _ _ _ _ pkt packet None); try done. unfold tx_open. simpl. lia. }
  assert (forall b, Some bytes = Some b -> exists frame, seal_response_owned (seal_with_session i).1 packet
    (seal_with_session i).2 (seal_with_seq i) = Ok frame /\ encode_frame frame = Ok b) as Hb.
  { intros b [= <-]. exists f. by rewrite Hses. }
  destruct (send_sealed _ _) as [tl [|o]]; eexists _, _, _; (split; [done|]);
    apply (turn_sealing _ _ _ _ pkt packet (Some bytes)); try done; cbn [tx_report]; rewrite ?emit_open; unfold tx_open; simpl; lia.
Qed.

End Turn.
