(* ===== verification/Allowlist.v ===== *)
(** The allowlist of the exit ([crates/warrenguard-server/src/allowlist.rs]): who is
    admitted, from snapshots, deltas and the revocation list.

    The handle is shared: its maps are under two locks, its generation and its clock
    are atomics, and revoked keys are queued on a channel for the task that closes
    their connections.  An update is written here as the accesses it makes, one
    definition each ([poll_gate], [swap_snapshot], [announce], ...), and the update
    itself as their composition; [Revocation] interleaves the accesses. *)

From S2P Require Import Prelude.

(** [HashMap::keys] collected into a set. *)
Notation keys m := (dom (D := gset Z) m).

Record AllowlistSnapshot := mkSnapshot {
  generation : Z;
  pubkeys : gmap Z Z;
  fetched_at_unix_secs : Z;
}.

Definition from_legacy_set (generation : Z) (pubkeys : gset Z) (fetched_at : Z) : AllowlistSnapshot :=
  mkSnapshot generation (gset_to_gmap u64_max pubkeys) fetched_at.

(** [revocation_tx] is the queue of the unbounded channel, [None] once its receiver is
    dropped. *)
Record Inner := mkInner {
  entries : gmap Z Z;
  last_generation : Z;
  last_success_unix_secs : Z;
  revocation_tx : option (list (gset Z));
  crl_revocations : gmap Z Z;
}.

Definition new : Inner := mkInner ∅ 0 0 (Some []) ∅.

Definition set_entries (m : gmap Z Z) (h : Inner) : Inner :=
  mkInner m (last_generation h) (last_success_unix_secs h) (revocation_tx h) (crl_revocations h).
Definition set_crl (m : gmap Z Z) (h : Inner) : Inner :=
  mkInner (entries h) (last_generation h) (last_success_unix_secs h) (revocation_tx h) m.
Definition set_tx (q : option (list (gset Z))) (h : Inner) : Inner :=
  mkInner (entries h) (last_generation h) (last_success_unix_secs h) q (crl_revocations h).

(** ** Reading *)

Definition is_allowed (h : Inner) (id : Z) : bool :=
  if bool_decide (is_Some (crl_revocations h !! id)) then false
  else bool_decide (is_Some (entries h !! id)).

(** The two reads of [is_allowed_at]. *)
Definition crl_contains (h : Inner) (id : Z) : bool := bool_decide (is_Some (crl_revocations h !! id)).
Definition entry_live (h : Inner) (id now_unix_secs : Z) : bool :=
  from_option (fun expires_at => now_unix_secs <? expires_at) false (entries h !! id).

Definition is_allowed_at (h : Inner) (id now_unix_secs : Z) : bool :=
  if crl_contains h id then false else entry_live h id now_unix_secs.

Definition is_crl_revoked (h : Inner) (id : Z) : bool := crl_contains h id.
Definition crl_reason_code (h : Inner) (id : Z) : option Z := crl_revocations h !! id.

Definition current_snapshot (h : Inner) (fetched_at : Z) : AllowlistSnapshot :=
  mkSnapshot (last_generation h) (entries h) fetched_at.

Definition len (h : Inner) : nat := size (entries h).
Definition is_empty (h : Inner) : bool := bool_decide (entries h = ∅).

(** ** Writing *)

(** Queue a batch; it is dropped when the receiver is gone. *)
Definition send (batch : gset Z) (h : Inner) : Inner := set_tx ((fun q => q ++ [batch]) <$> revocation_tx h) h.

(** [if n > 0 && send(..)]. *)
Definition announce (batch : gset Z) (h : Inner) : Inner :=
  if bool_decide (batch = ∅) then h else send batch h.

(** The start of an update: acknowledge the poll, and decide whether it is newer. *)
Definition poll_gate (generation fetched_at : Z) (h : Inner) : Inner * bool :=
  let prev_generation := last_generation h in
  let first_apply := last_success_unix_secs h =? 0 in
  (mkInner (entries h) (last_generation h) (Z.max (last_success_unix_secs h) fetched_at) (revocation_tx h)
     (crl_revocations h),
   negb (negb first_apply && (generation <=? prev_generation))).

Definition store_generation (generation : Z) (h : Inner) : Inner :=
  mkInner (entries h) generation (last_success_unix_secs h) (revocation_tx h) (crl_revocations h).

(** The section under the write lock of [apply_snapshot], with the keys it retires. *)
Definition swap_snapshot (pubkeys : gmap Z Z) (h : Inner) : Inner * gset Z :=
  (set_entries pubkeys h, keys (entries h) ∖ keys pubkeys).

Definition apply_snapshot (s : AllowlistSnapshot) (h : Inner) : Inner * nat :=
  let '(h, newer) := poll_gate (generation s) (fetched_at_unix_secs s) h in
  if negb newer then (h, O)
  else
    let '(h, removed) := swap_snapshot (pubkeys s) h in
    let h := store_generation (generation s) h in
    (announce removed h, size removed).

(** [guard.insert] for each added key, [guard.remove] for each removed one. *)
Definition insert_added (added : list (Z * Z)) (m : gmap Z Z) : gmap Z Z :=
  fold_left (fun m e => <[fst e := snd e]> m) added m.

Fixpoint remove_keys (removed : list Z) (m : gmap Z Z) (gone : gset Z) : gmap Z Z * gset Z :=
  match removed with
  | [] => (m, gone)
  | pk :: rest =>
      match m !! pk with
      | Some _ => remove_keys rest (delete pk m) ({[pk]} ∪ gone)
      | None => remove_keys rest m gone
      end
  end.

(** The section under the write lock of [apply_delta]. *)
Definition swap_delta (added : list (Z * Z)) (removed : list Z) (h : Inner) : Inner * gset Z :=
  let '(m, gone) := remove_keys removed (insert_added added (entries h)) ∅ in
  (set_entries m h, gone).

Definition apply_delta (added : list (Z * Z)) (removed : list Z) (to_generation fetched_at : Z) (h : Inner)
  : Inner * nat :=
  let '(h, newer) := poll_gate to_generation fetched_at h in
  if negb newer then (h, O)
  else
    let '(h, actually_removed) := swap_delta added removed h in
    let h := store_generation to_generation h in
    (announce actually_removed h, size actually_removed).

(** The keys of a revocation list that are in the allowlist, read before the list is
    installed. *)
Definition crl_tear_down (revocations : gmap Z Z) (h : Inner) : gset Z := keys revocations ∩ keys (entries h).

Definition apply_crl_revocations_coded (revocations : gmap Z Z) (h : Inner) : Inner * nat :=
  let to_tear_down := crl_tear_down revocations h in
  let h := set_crl revocations h in
  (announce to_tear_down h, size to_tear_down).

Definition apply_crl_revocations (revocations : gset Z) (h : Inner) : Inner * nat :=
  apply_crl_revocations_coded (gset_to_gmap 0 revocations) h.

(** The section under the write lock of [clear_if_stale]. *)
Definition take_entries (h : Inner) : Inner * gset Z := (set_entries ∅ h, keys (entries h)).

Definition clear_if_stale (now_unix_secs grace_secs : Z) (h : Inner) : Inner * nat :=
  let last := last_success_unix_secs h in
  if last =? 0 then (h, O)
  else if Z.max 0 (now_unix_secs - last) <=? grace_secs then (h, O)
  else if bool_decide (entries h = ∅) then (h, O)
  else
    let '(h, evicted) := take_entries h in
    (send evicted h, size evicted).

Definition from_static_keys (ks : list Z) (unix_now : Z) : Inner :=
  set_tx None (fst (apply_snapshot (from_legacy_set 1 (list_to_set ks) unix_now) new)).

(** ** What an update announces *)

Inductive Update :=
| Snapshot (s : AllowlistSnapshot)
| Delta (added : list (Z * Z)) (removed : list Z) (to_generation fetched_at : Z)
| Crl (revocations : gmap Z Z)
| Clear (now_unix_secs grace_secs : Z).

Definition apply (u : Update) (h : Inner) : Inner :=
  fst match u with
      | Snapshot s => apply_snapshot s h
      | Delta added removed g at_ => apply_delta added removed g at_ h
      | Crl revs => apply_crl_revocations_coded revs h
      | Clear now grace => clear_if_stale now grace h
      end.

Lemma is_allowed_spec h k :
  is_allowed h k = true <-> crl_revocations h !! k = None /\ is_Some (entries h !! k).
Proof.
  unfold is_allowed. repeat case_bool_decide; rewrite ?eq_None_not_Some in *; naive_solver.
Qed.

(** Reading with the clock is never more generous. *)
Lemma allowed_at_allowed h k now : is_allowed_at h k now = true -> is_allowed h k = true.
Proof.
  unfold is_allowed_at, crl_contains, entry_live, is_allowed. case_bool_decide; [done|].
  destruct (entries h !! k); [|done]. by rewrite bool_decide_true by (by eexists).
Qed.

(** A fresh handle admits nobody. *)
Lemma new_refuses k now : is_allowed_at new k now = false /\ is_allowed new k = false.
Proof. split; [|apply not_true_iff_false; rewrite is_allowed_spec]; vm_compute; naive_solver. Qed.

Lemma remove_keys_spec removed : forall m gone,
  let r := remove_keys removed m gone in
  (forall k, fst r !! k = if decide (k ∈ removed) then None else m !! k) /\
  (forall k, k ∈ snd r <-> k ∈ gone \/ (k ∈ removed /\ is_Some (m !! k))).
Proof.
  induction removed as [|pk rest IH]; intros m gone r.
  { split; [done|]. subst r. simpl. set_solver. }
  subst r. cbn [remove_keys]. destruct (m !! pk) eqn:Hm.
  - destruct (IH (delete pk m) ({[pk]} ∪ gone)) as [H1 H2]. split; intros k.
    + rewrite H1. destruct (decide (k = pk)) as [->|Hk].
      * rewrite lookup_delete_eq. rewrite (decide_True (P := pk ∈ pk :: rest)) by set_solver. by case_decide.
      * rewrite lookup_delete_ne by done. by repeat case_decide; set_solver.
    + rewrite H2. destruct (decide (k = pk)) as [->|Hk].
      * set_solver.
      * rewrite lookup_delete_ne by done. set_solver.
  - destruct (IH m gone) as [H1 H2]. split; intros k.
    + rewrite H1. destruct (decide (k = pk)) as [->|Hk]; [by repeat case_decide; set_solver|].
      by repeat case_decide; set_solver.
    + assert (~ is_Some (m !! pk)) by (rewrite Hm; apply is_Some_None).
      rewrite H2. destruct (decide (k = pk)) as [->|Hk]; set_solver.
Qed.

Lemma insert_added_dom added : forall m k,
  is_Some (insert_added added m !! k) <-> is_Some (m !! k) \/ k ∈ added.*1.
Proof.
  induction added as [|[pk e] rest IH]; intros m k; simpl; [set_solver|].
  unfold insert_added in *. simpl. rewrite IH, lookup_insert_is_Some'. set_solver.
Qed.

(** Inserting the entries in which a map differs from [m] gives the map, where [m] has
    nothing that the map has not. *)
Lemma insert_added_lookup added : forall (m new_ : gmap Z Z) k,
  (forall k e, (k, e) ∈ added -> new_ !! k = Some e) ->
  (forall e, new_ !! k = Some e -> m !! k = Some e \/ k ∈ added.*1) ->
  (is_Some (m !! k) -> new_ !! k <> None) ->
  insert_added added m !! k = new_ !! k.
Proof.
  unfold insert_added. induction added as [|[pk e] rest IH]; intros m new_ k Hadd Hnew Hm; simpl.
  - destruct (new_ !! k) as [e|] eqn:E; [by destruct (Hnew e eq_refl) as [|?%not_elem_of_nil]|].
    destruct (m !! k) eqn:E2; [|done]. exfalso. apply Hm; [by eexists|done].
  - apply IH; [intros; apply Hadd; by right|..]; destruct (decide (k = pk)) as [->|Hk].
    + intros e' He'. left. rewrite lookup_insert_eq. by rewrite (Hadd pk e) in He' by left.
    + rewrite lookup_insert_ne by done. intros e' He'. destruct (Hnew e' He') as [?|Hin]; [by left|].
      right. simpl in Hin. set_solver.
    + intros _. by rewrite (Hadd pk e) by left.
    + by rewrite lookup_insert_ne.
Qed.

(** The section of a delta: the keys that left, and those that stayed. *)
Lemma swap_delta_spec added removed h :
  let r := swap_delta added removed h in
  crl_revocations (fst r) = crl_revocations h /\ revocation_tx (fst r) = revocation_tx h /\
  (forall k, is_Some (entries (fst r) !! k) <-> (is_Some (entries h !! k) \/ k ∈ added.*1) /\ k ∉ removed) /\
  (forall k, k ∈ snd r <-> (is_Some (entries h !! k) \/ k ∈ added.*1) /\ k ∈ removed).
Proof.
  intros r. subst r. unfold swap_delta.
  destruct (remove_keys removed (insert_added added (entries h)) ∅) as [m gone] eqn:E.
  destruct (remove_keys_spec removed (insert_added added (entries h)) ∅) as [H1 H2]. rewrite E in H1, H2. simpl in *.
  split; [done|]. split; [done|]. setoid_rewrite H1. setoid_rewrite H2. setoid_rewrite <- insert_added_dom.
  split; intros k; [|set_solver]. case_decide; [|naive_solver]. split; [intros ?%is_Some_None; done|naive_solver].
Qed.

(** What a handle announced on top of another, its channel being open. *)
Definition announced (h h' : Inner) (batches : list (gset Z)) : Prop :=
  revocation_tx h' = (fun q => q ++ batches) <$> revocation_tx h.

Lemma announce_spec batch h :
  entries (announce batch h) = entries h /\ crl_revocations (announce batch h) = crl_revocations h /\
  last_generation (announce batch h) = last_generation h /\
  announced h (announce batch h) (if bool_decide (batch = ∅) then [] else [batch]).
Proof.
  unfold announce, announced. case_bool_decide; [|done]. split_and!; [done..|].
  destruct (revocation_tx h); simpl; [|done]. by rewrite app_nil_r.
Qed.

Lemma announced_some (batch : gset Z) k : k ∈ batch ->
  exists b, b ∈ (if bool_decide (batch = ∅) then [] else [batch]) /\ k ∈ b.
Proof. intros Hk. exists batch. case_bool_decide; [set_solver|]. by split; [left|]. Qed.

Lemma announced_only (batch b : gset Z) k :
  b ∈ (if bool_decide (batch = ∅) then [] else [batch]) -> k ∈ b -> k ∈ batch.
Proof. case_bool_decide; [by intros ?%not_elem_of_nil|by intros ->%list_elem_of_singleton]. Qed.

(** A handle whose entries and revocation list are those of another, with a batch
    announced.  Common to every update that goes through. *)
Lemma retired_announced h h1 h' batch :
  entries h' = entries h1 -> crl_revocations h' = crl_revocations h1 ->
  announced h h' (if bool_decide (batch = ∅) then [] else [batch]) ->
  (forall k, is_allowed h k = true -> is_allowed h1 k = false -> k ∈ batch) ->
  (forall k, k ∈ batch -> is_allowed h1 k = false) ->
  exists batches, announced h h' batches /\
    (forall k, is_allowed h k = true -> is_allowed h' k = false -> exists b, b ∈ batches /\ k ∈ b) /\
    (forall b k, b ∈ batches -> k ∈ b -> is_allowed h' k = false).
Proof.
  intros He Hc Ha Hin Hout. eexists. split; [exact Ha|].
  assert (forall k, is_allowed h' k = is_allowed h1 k) as E by (intros k; unfold is_allowed; by rewrite He, Hc).
  split; [intros k Hk Hk'|intros b k Hb Hk].
  - apply announced_some, Hin; [done|]. by rewrite <- E.
  - rewrite E. eapply Hout, announced_only; done.
Qed.

Lemma nothing_announced h h' : entries h' = entries h -> crl_revocations h' = crl_revocations h ->
  revocation_tx h' = revocation_tx h ->
  exists batches, announced h h' batches /\
    (forall k, is_allowed h k = true -> is_allowed h' k = false -> exists b, b ∈ batches /\ k ∈ b) /\
    (forall b k, b ∈ batches -> k ∈ b -> is_allowed h' k = false).
Proof.
  intros He Hc Ht. exists []. unfold announced. rewrite Ht. split_and!.
  - destruct (revocation_tx h); simpl; [|done]. by rewrite app_nil_r.
  - intros k Hk Hk'. unfold is_allowed in *. rewrite He, Hc in Hk'. congruence.
  - by intros b k ?%not_elem_of_nil.
Qed.

Lemma not_allowed h k : is_allowed h k = false <-> is_Some (crl_revocations h !! k) \/ entries h !! k = None.
Proof.
  rewrite <- not_true_iff_false, is_allowed_spec. rewrite <- not_eq_None_Some.
  destruct (crl_revocations h !! k), (entries h !! k); naive_solver.
Qed.

(** What holds of an update whose new entries and revocation list are [h1]'s and which
    announces [batch]. *)
Definition announces (h h' : Inner) : Prop :=
  exists batches, announced h h' batches /\
    (forall k, is_allowed h k = true -> is_allowed h' k = false -> exists b, b ∈ batches /\ k ∈ b) /\
    (forall b k, b ∈ batches -> k ∈ b -> is_allowed h' k = false).

Ltac announcing h1 :=
  match goal with |- announces ?h (announce ?b ?x) =>
    let E1 := fresh in let E2 := fresh in let E3 := fresh in
    destruct (announce_spec b x) as (E1 & E2 & _ & E3);
    apply (retired_announced h h1 (announce b x) b); [exact E1|exact E2|exact E3|intros k..]
  end.

Lemma snapshot_announces s h : announces h (fst (apply_snapshot s h)).
Proof.
  unfold apply_snapshot. destruct (poll_gate _ _ _) as [h0 newer] eqn:Eg. injection Eg as <- _.
  destruct newer; simpl; [|by apply nothing_announced]. announcing (set_entries (pubkeys s) h).
  - rewrite is_allowed_spec, not_allowed. simpl. intros [Hc Hk] [Hc'|Hn]; [by rewrite Hc in Hc'; apply is_Some_None in Hc'|].
    apply elem_of_difference. by rewrite elem_of_dom, not_elem_of_dom.
  - rewrite elem_of_difference, not_elem_of_dom, not_allowed. simpl. naive_solver.
Qed.

Lemma delta_announces added removed g at_ h : announces h (fst (apply_delta added removed g at_ h)).
Proof.
  unfold apply_delta. destruct (poll_gate _ _ _) as [h0 newer] eqn:Eg. injection Eg as <- _.
  destruct newer; simpl; [|by apply nothing_announced].
  match goal with |- context [swap_delta _ _ ?h0] => set (h1 := h0) end.
  destruct (swap_delta_spec added removed h1) as (S1 & S2 & S3 & S4). destruct (swap_delta added removed h1) as [h2 gone].
  simpl in *. destruct (announce_spec gone (store_generation g h2)) as (E1 & E2 & _ & E3).
  apply (retired_announced h h2 _ gone); [exact E1|exact E2| |intros k..].
  - unfold announced in *. rewrite E3. simpl. by rewrite S2.
  - rewrite is_allowed_spec, not_allowed, S1, (eq_None_not_Some (entries h2 !! k)), S3. subst h1. simpl. intros [Hc Hk] [Hc'|Hn].
    { rewrite Hc in Hc'. by apply is_Some_None in Hc'. }
    apply S4. simpl. split; [by left|]. destruct (decide (k ∈ removed)); naive_solver.
  - rewrite S4, not_allowed, eq_None_not_Some, S3. naive_solver.
Qed.

Lemma crl_announces revs h : announces h (fst (apply_crl_revocations_coded revs h)).
Proof.
  unfold apply_crl_revocations_coded. simpl. announcing (set_crl revs h); unfold crl_tear_down;
    rewrite elem_of_intersection, !elem_of_dom, not_allowed; simpl; [|naive_solver].
  rewrite is_allowed_spec. intros [_ Hk] [?|Hn]; [done|]. rewrite Hn in Hk. by apply is_Some_None in Hk.
Qed.

Lemma clear_announces now grace h : announces h (fst (clear_if_stale now grace h)).
Proof.
  unfold clear_if_stale. case_match; [by apply nothing_announced|]. case_match; [by apply nothing_announced|].
  case_bool_decide as Hne; [by apply nothing_announced|]. simpl.
  replace (send (keys (entries h)) (set_entries ∅ h)) with (announce (keys (entries h)) (set_entries ∅ h)).
  2: { unfold announce. rewrite bool_decide_false; [done|]. by rewrite dom_empty_iff_L. }
  announcing (set_entries ∅ h).
  - rewrite is_allowed_spec, elem_of_dom. naive_solver.
  - intros _. apply not_allowed. right. apply lookup_empty.
Qed.

(** Every update announces exactly what it takes away: a key admitted before and
    refused after is in an announced batch, and what is announced is refused. *)
Theorem updates_announce u h : announces h (apply u h).
Proof.
  destruct u; [apply snapshot_announces|apply delta_announces|apply crl_announces|apply clear_announces].
Qed.

(** ** Generations *)

(** Once a poll has been acknowledged, entries change only with a strictly greater
    generation, by a snapshot or a delta, and the generation never decreases. *)
Theorem generation_gate u h :
  0 < last_success_unix_secs h -> (forall now grace, u <> Clear now grace) ->
  0 < last_success_unix_secs (apply u h) /\ last_generation h <= last_generation (apply u h) /\
  (entries (apply u h) <> entries h -> last_generation h < last_generation (apply u h)).
Proof.
  intros Hs Hc.
  assert (forall g at_ h0 newer, poll_gate g at_ h = (h0, newer) ->
    0 < last_success_unix_secs h0 /\ entries h0 = entries h /\ last_generation h0 = last_generation h /\
    (newer = true -> last_generation h < g)) as Hgate.
  { intros g at_ h0 newer [= <- <-]. simpl. split_and!; [lia|done|done|].
    rewrite (proj2 (Z.eqb_neq _ _)) by lia. simpl. destruct (Z.leb_spec g (last_generation h)); [done|lia]. }
  destruct u as [s|added removed g at_|revs|now grace]; unfold apply, apply_snapshot, apply_delta, apply_crl_revocations_coded.
  - destruct (poll_gate _ _ _) as [h0 newer] eqn:Eg. destruct (Hgate _ _ _ _ Eg) as (? & ? & ? & Hn).
    destruct newer; simpl; [|split_and!; [lia..|congruence]]. unfold announce, send. specialize (Hn eq_refl).
    case_bool_decide; simpl; split_and!; intros; lia.
  - destruct (poll_gate _ _ _) as [h0 newer] eqn:Eg. destruct (Hgate _ _ _ _ Eg) as (? & ? & ? & Hn).
    destruct newer; simpl; [|split_and!; [lia..|congruence]]. unfold swap_delta. destruct (remove_keys _ _ _). simpl.
    unfold announce, send. specialize (Hn eq_refl). case_bool_decide; simpl; split_and!; intros; lia.
  - unfold announce, send. simpl. case_bool_decide; simpl; split_and!; done || lia.
  - naive_solver.
Qed.

(** ** Deltas *)

(** A delta that says what changed between two snapshots leaves the handle as the second
    snapshot does, announcements included. *)
Theorem delta_is_snapshot h (new_ : gmap Z Z) added removed g at_ :
  (forall k, k ∈ removed <-> is_Some (entries h !! k) /\ new_ !! k = None) ->
  (forall k e, (k, e) ∈ added -> new_ !! k = Some e) ->
  (forall k e, new_ !! k = Some e -> entries h !! k = Some e \/ k ∈ added.*1) ->
  apply_delta added removed g at_ h = apply_snapshot (mkSnapshot g new_ at_) h.
Proof.
  intros Hrem Hadd Hnew. unfold apply_delta, apply_snapshot. cbn [generation fetched_at_unix_secs pubkeys].
  destruct (poll_gate _ _ _) as [h0 newer] eqn:Eg. destruct newer; [|done]. cbn [negb].
  assert (entries h0 = entries h) as He by (by injection Eg as <- _).
  assert (swap_delta added removed h0 = swap_snapshot new_ h0) as ->; [|done].
  unfold swap_delta, swap_snapshot. destruct (remove_keys_spec removed (insert_added added (entries h0)) ∅) as [H1 H2].
  destruct (remove_keys _ _ _) as [m gone]. simpl in *. rewrite He in *. f_equal.
  - f_equal. apply map_eq. intros k. rewrite H1. case_decide as Hk; [by apply Hrem in Hk as [_ ->]|].
    apply insert_added_lookup; naive_solver.
  - apply set_eq. intros k. rewrite H2, elem_of_difference, elem_of_dom, not_elem_of_dom, insert_added_dom, Hrem.
    set_solver.
Qed.
