(* ===== verification/StatusCodes.v ===== *)
(** The status codes of route admission, token refusal and lease refresh
    ([crates/warrenguard-multihop/src/route_admission.rs], [token_refusal.rs],
    [lease_refresh.rs]), and the labels they are counted under
    ([crates/warrenguard-multihop-server/src/metrics.rs]).  On the wire each is one
    byte, and a byte a build does not know still decodes. *)

From S2P Require Import Prelude.

Module RouteRejectCode.

Inductive t := Unspecified | AnchorUnknown | RouteLimit | NotOffered | Unavailable | Other (code : Z).

Definition from_code (code : Z) : t :=
  if code =? 0 then Unspecified else if code =? 1 then AnchorUnknown else if code =? 2 then RouteLimit
  else if code =? 3 then NotOffered else if code =? 4 then Unavailable else Other code.

Definition code (c : t) : Z :=
  match c with
  | Unspecified => 0 | AnchorUnknown => 1 | RouteLimit => 2 | NotOffered => 3 | Unavailable => 4
  | Other code => code
  end.

End RouteRejectCode.

Module RouteAnchorStatus.

Inductive t := Bound | NeedsToken | NotEligible | Refused | Unavailable | Lost | Other (code : Z).

#[global] Instance t_eq_dec : EqDecision t.
Proof. solve_decision. Defined.

Definition from_code (code : Z) : t :=
  if code =? 0 then Bound else if code =? 1 then NeedsToken else if code =? 2 then NotEligible
  else if code =? 3 then Refused else if code =? 4 then Unavailable else if code =? 5 then Lost else Other code.

Definition code (c : t) : Z :=
  match c with
  | Bound => 0 | NeedsToken => 1 | NotEligible => 2 | Refused => 3 | Unavailable => 4 | Lost => 5
  | Other code => code
  end.

End RouteAnchorStatus.

Module RouteEndReason.

Inductive t := Unspecified | AnchorGone | ClosedByPolicy | Other (code : Z).

Definition from_code (code : Z) : t :=
  if code =? 0 then Unspecified else if code =? 1 then AnchorGone else if code =? 2 then ClosedByPolicy
  else Other code.

Definition code (c : t) : Z :=
  match c with Unspecified => 0 | AnchorGone => 1 | ClosedByPolicy => 2 | Other code => code end.

End RouteEndReason.

Module TokenRejectCode.

Inductive t := Unspecified | SerialInUse | Other (code : Z).

Definition from_code (code : Z) : t :=
  if code =? 0 then Unspecified else if code =? 1 then SerialInUse else Other code.

Definition code (c : t) : Z := match c with Unspecified => 0 | SerialInUse => 1 | Other code => code end.

End TokenRejectCode.

Module LeaseRefreshStatus.

Inductive t := Registered | Refreshed | Refused | Unavailable | NotEligible | Due | Expired | Other (code : Z).

#[global] Instance t_eq_dec : EqDecision t.
Proof. solve_decision. Defined.

Definition from_code (code : Z) : t :=
  if code =? 0 then Registered else if code =? 1 then Refreshed else if code =? 2 then Refused
  else if code =? 3 then Unavailable else if code =? 4 then NotEligible else if code =? 5 then Due
  else if code =? 6 then Expired else Other code.

Definition code (c : t) : Z :=
  match c with
  | Registered => 0 | Refreshed => 1 | Refused => 2 | Unavailable => 3 | NotEligible => 4 | Due => 5
  | Expired => 6 | Other code => code
  end.

End LeaseRefreshStatus.

(** ** Counters *)

Module AnchorRequestResult.

Inductive t := Bound | NeedsToken | NotEligible | Refused | Unavailable | LostSent | Deduplicated | Throttled.

Definition index (r : t) : nat :=
  match r with
  | Bound => 0 | NeedsToken => 1 | NotEligible => 2 | Refused => 3 | Unavailable => 4 | LostSent => 5
  | Deduplicated => 6 | Throttled => 7
  end.

Definition of_status (s : RouteAnchorStatus.t) : t :=
  match s with
  | RouteAnchorStatus.Bound => Bound
  | RouteAnchorStatus.NeedsToken => NeedsToken
  | RouteAnchorStatus.NotEligible => NotEligible
  | RouteAnchorStatus.Unavailable => Unavailable
  | RouteAnchorStatus.Lost => LostSent
  | _ => Refused
  end.

End AnchorRequestResult.

Module LeaseRefreshResult.

Inductive t :=
| Announced | Refreshed | Refused | Unavailable | NotEligible | Deduplicated | Throttled | DueSent
| StaleCapable | StaleIncapable | Expired.

Definition index (r : t) : nat :=
  match r with
  | Announced => 0 | Refreshed => 1 | Refused => 2 | Unavailable => 3 | NotEligible => 4 | Deduplicated => 5
  | Throttled => 6 | DueSent => 7 | StaleCapable => 8 | StaleIncapable => 9 | Expired => 10
  end.

Definition of_status (s : LeaseRefreshStatus.t) : t :=
  match s with
  | LeaseRefreshStatus.Registered => Announced
  | LeaseRefreshStatus.Refreshed => Refreshed
  | LeaseRefreshStatus.Unavailable => Unavailable
  | LeaseRefreshStatus.NotEligible => NotEligible
  | LeaseRefreshStatus.Due => DueSent
  | LeaseRefreshStatus.Expired => Expired
  | _ => Refused
  end.

End LeaseRefreshResult.

Inductive RouteTeardown := AnchorGone | Close | Shutdown.

Module SetupAdmission.

Inductive t :=
| WalletAdmitted | WalletRefused | WalletDeviceLimit | WalletRetired | TokenAdmitted | TokenRefused.

Definition index (a : t) : nat :=
  match a with
  | WalletAdmitted => 0 | WalletRefused => 1 | WalletDeviceLimit => 2 | WalletRetired => 3
  | TokenAdmitted => 4 | TokenRefused => 5
  end.

End SetupAdmission.

Ltac by_code := repeat match goal with |- context [?a =? ?b] => destruct (Z.eqb_spec a b); [by subst|] end; done.

(** A byte decodes to a code that encodes to the byte, whatever the byte. *)
Theorem codes_roundtrip c :
  RouteRejectCode.code (RouteRejectCode.from_code c) = c /\
  RouteAnchorStatus.code (RouteAnchorStatus.from_code c) = c /\
  RouteEndReason.code (RouteEndReason.from_code c) = c /\
  TokenRejectCode.code (TokenRejectCode.from_code c) = c /\
  LeaseRefreshStatus.code (LeaseRefreshStatus.from_code c) = c.
Proof.
  unfold RouteRejectCode.from_code, RouteAnchorStatus.from_code, RouteEndReason.from_code, TokenRejectCode.from_code,
    LeaseRefreshStatus.from_code.
  split_and!; by_code.
Qed.

(** A known code comes back, and an unknown one unless it names a known one. *)
Theorem statuses_roundtrip :
  (forall c, (forall n, c = RouteRejectCode.Other n -> 4 < n) -> RouteRejectCode.from_code (RouteRejectCode.code c) = c) /\
  (forall c, (forall n, c = RouteAnchorStatus.Other n -> 5 < n) -> RouteAnchorStatus.from_code (RouteAnchorStatus.code c) = c) /\
  (forall c, (forall n, c = RouteEndReason.Other n -> 2 < n) -> RouteEndReason.from_code (RouteEndReason.code c) = c) /\
  (forall c, (forall n, c = TokenRejectCode.Other n -> 1 < n) -> TokenRejectCode.from_code (TokenRejectCode.code c) = c) /\
  (forall c, (forall n, c = LeaseRefreshStatus.Other n -> 6 < n) -> LeaseRefreshStatus.from_code (LeaseRefreshStatus.code c) = c).
Proof.
  split_and!; intros [] Hn; try done; specialize (Hn _ eq_refl); simpl;
    unfold RouteRejectCode.from_code, RouteAnchorStatus.from_code, RouteEndReason.from_code, TokenRejectCode.from_code,
      LeaseRefreshStatus.from_code;
    repeat match goal with |- context [?a =? ?b] => destruct (Z.eqb_spec a b); [lia|] end; done.
Qed.
