(* ===== verification/SessionRegistry.v ===== *)
(** The registry of live sessions of the exit
    ([crates/warrenguard-multihop-server/src/multihop.rs], [multihop/wallet.rs],
    [multihop/route.rs], [multihop/lease.rs]): which connections a session has, what
    the deployer is told of sessions that end, which lease a token session holds, and
    how clients are told.

    A method is a sequence of sections under a lock; each is a definition here, and a
    method is their composition.  What leaves the registry (a connection closed, a
    control message queued, an observer called, a counter advanced) is an [Effect].
    Keys, serials and session ids are numbers; connections and control queues are
    names. *)

From S2P Require Import Prelude Control StatusCodes.

(** The order a [HashMap] iterates in. *)
Class MapOrder := map_iter : forall {K} `{Countable K} {V}, gmap K V -> list (K * V).
Class MapOrderLaws (M : MapOrder) :=
  map_iter_perm : forall K `{Countable K} V (m : gmap K V), map_iter m ≡ₚ map_to_list m.

#[export] Instance listed_order : MapOrder := fun K _ _ V m => map_to_list m.
#[export] Instance listed_order_laws : MapOrderLaws listed_order.
Proof. intros K ? ? V m. reflexivity. Qed.

(** ** Keys *)

Inductive SessionKey := Wallet (pubkey : Z) | TokenSerial (serial : Z) | Route (serial : Z).

#[export] Instance session_key_eq_dec : EqDecision SessionKey.
Proof. solve_decision. Defined.

#[export] Instance session_key_countable : Countable SessionKey.
Proof.
  refine (inj_countable'
    (fun k => match k with Wallet v => (0, v) | TokenSerial v => (1, v) | Route v => (2, v) end)
    (fun p : Z * Z => match p with (0, v) => Wallet v | (1, v) => TokenSerial v | (_, v) => Route v end) _).
  by intros [].
Defined.

Definition value (k : SessionKey) : Z := match k with Wallet v | TokenSerial v | Route v => v end.

(** ** Wallet sessions ([wallet.rs]) *)

Record WalletSession := mkWalletSession { ws_pubkey : Z; ws_id : Z }.

Inductive WalletSlot := AlreadyAdmitted | NeedsGate (s : WalletSession).

Record Entry := mkEntry { entry_id : Z; entry_conns : gset Z; entry_admitted : bool }.

(** [Tables], with the counter that session ids are hashes of. *)
Record Tables := mkTables {
  sessions : gmap (Z * Z) Entry;
  by_conn : gmap Z (Z * Z);
  id_counter : Z;
}.

Definition no_tables : Tables := mkTables ∅ ∅ 0.

Section WalletTables.
Context `{M : MapOrder}.

(** The hash of the salt and the counter. *)
Variable session_id : Z -> Z.

Definition slot (pubkey ipv4 conn : Z) (t : Tables) : Tables * WalletSlot :=
  let key := (pubkey, ipv4) in
  let '(entry, counter) :=
    match sessions t !! key with
    | Some e => (e, id_counter t)
    | None => (mkEntry (session_id (id_counter t)) ∅ false, wrap 64 (id_counter t + 1))
    end in
  let entry := mkEntry (entry_id entry) ({[conn]} ∪ entry_conns entry) (entry_admitted entry) in
  let s := if entry_admitted entry then AlreadyAdmitted else NeedsGate (mkWalletSession pubkey (entry_id entry)) in
  (mkTables (<[key := entry]> (sessions t)) (<[conn := key]> (by_conn t)) counter, s).

(** The first entry with the id, in the order of the map. *)
Definition mark_admitted (s : WalletSession) (t : Tables) : Tables :=
  match list_find (fun e => entry_id (snd e) = ws_id s) (map_iter (sessions t)) with
  | Some (_, (key, e)) => mkTables (<[key := mkEntry (entry_id e) (entry_conns e) true]> (sessions t)) (by_conn t) (id_counter t)
  | None => t
  end.

Definition leave (conn : Z) (t : Tables) : Tables * option WalletSession :=
  match by_conn t !! conn with
  | None => (t, None)
  | Some key =>
      let bc := delete conn (by_conn t) in
      match sessions t !! key with
      | None => (mkTables (sessions t) bc (id_counter t), None)
      | Some e =>
          let e := mkEntry (entry_id e) (entry_conns e ∖ {[conn]}) (entry_admitted e) in
          if bool_decide (entry_conns e = ∅) then
            (mkTables (delete key (sessions t)) bc (id_counter t),
             if entry_admitted e then Some (mkWalletSession (fst key) (entry_id e)) else None)
          else (mkTables (<[key := e]> (sessions t)) bc (id_counter t), None)
      end
  end.

Definition live_sessions (t : Tables) : list WalletSession :=
  (fun e => mkWalletSession (fst (fst e)) (entry_id (snd e))) <$> filter (fun e => entry_admitted (snd e) = true) (map_iter (sessions t)).

End WalletTables.

(** ** Anchors and leases ([route.rs], [lease.rs]) *)

Definition ANCHOR_MIN_INTERVAL : Z := from_secs 2.
Definition REFRESH_MIN_INTERVAL : Z := from_secs 2.
Definition DEPARTED_ATTRIBUTION_RETENTION : Z := from_secs 360.
Definition ORPHAN_LEASE_RECLAIM_WORST_CASE_SECS : Z := 40.

Record AnchorVerdict := mkVerdict { av_status : RouteAnchorStatus.t; max_routes : Z }.
Definition status (s : RouteAnchorStatus.t) : AnchorVerdict := mkVerdict s 0.

Inductive TokenAdmission := Admit (serial : Z) | Reject | Denied | SerialInUse.

#[export] Instance token_admission_eq_dec : EqDecision TokenAdmission.
Proof. solve_decision. Defined.

Record LeaseSlot := mkLease {
  capable : bool;
  stale_since : option Z;
  lease_in_flight : bool;
  lease_last_call : option Z;
  lease_last : option (Z * LeaseRefreshStatus.t);
  counted_period : option Z;
}.

Definition lease_default : LeaseSlot := mkLease false None false None None None.

Definition refreshed (l : LeaseSlot) : LeaseSlot :=
  mkLease (capable l) None (lease_in_flight l) (lease_last_call l) (lease_last l) (counted_period l).

Record AnchorSlot := mkSlot {
  lease_serial : Z;
  anchored : bool;
  in_flight : bool;
  last_call : option Z;
  last_verdict : option (Z * AnchorVerdict);
  lease : LeaseSlot;
}.

Definition anchor_slot_new (serial : Z) : AnchorSlot := mkSlot serial false false None None lease_default.

Definition set_lease (l : LeaseSlot) (s : AnchorSlot) : AnchorSlot :=
  mkSlot (lease_serial s) (anchored s) (in_flight s) (last_call s) (last_verdict s) l.

(** ** The registry *)

Record Ipv4Owner := mkOwner { owner_pubkey : Z; departed_deadline : option Z }.

Inductive Outbound :=
| ControlMessage (msg : WarrenControlMessage)
| EndRoute (reason : RouteEndReason.t)
| EndLease.

Inductive Effect :=
| CloseRejected (conn : nat)
| CloseLeaseExpired (conn : nat)
| Queue (tx : nat) (out : Outbound)
| TokenEnded (serial : Z)
| WalletEnded (s : WalletSession)
| RouteSessionEnded (serial : Z)
| LeaseMoved (from to : Z)
| CountAnchor (r : AnchorRequestResult.t)
| CountLease (r : LeaseRefreshResult.t)
| CountTeardown (r : RouteTeardown).

Record Registry := mkRegistry {
  live : gmap SessionKey (gmap Z nat);
  ipv4_to_pubkey : gmap Z Ipv4Owner;
  control : gmap (SessionKey * Z) nat;
  anchors : gmap Z AnchorSlot;
  locators : gmap Z SealedToApi;
  ended_by_policy : gset Z;
  wallet : Tables;
  token_end_observer : bool;
  wallet_end_observer : bool;
  route_end_observer : bool;
  lease_owner_sink : bool;
}.

Definition empty_registry : Registry := mkRegistry ∅ ∅ ∅ ∅ ∅ ∅ no_tables false false false false.

Definition set_live (m : gmap SessionKey (gmap Z nat)) (r : Registry) : Registry :=
  mkRegistry m (ipv4_to_pubkey r) (control r) (anchors r) (locators r) (ended_by_policy r) (wallet r)
    (token_end_observer r) (wallet_end_observer r) (route_end_observer r) (lease_owner_sink r).
Definition set_ipv4 (m : gmap Z Ipv4Owner) (r : Registry) : Registry :=
  mkRegistry (live r) m (control r) (anchors r) (locators r) (ended_by_policy r) (wallet r)
    (token_end_observer r) (wallet_end_observer r) (route_end_observer r) (lease_owner_sink r).
Definition set_control (m : gmap (SessionKey * Z) nat) (r : Registry) : Registry :=
  mkRegistry (live r) (ipv4_to_pubkey r) m (anchors r) (locators r) (ended_by_policy r) (wallet r)
    (token_end_observer r) (wallet_end_observer r) (route_end_observer r) (lease_owner_sink r).
Definition set_anchors (m : gmap Z AnchorSlot) (r : Registry) : Registry :=
  mkRegistry (live r) (ipv4_to_pubkey r) (control r) m (locators r) (ended_by_policy r) (wallet r)
    (token_end_observer r) (wallet_end_observer r) (route_end_observer r) (lease_owner_sink r).
Definition set_locators (m : gmap Z SealedToApi) (r : Registry) : Registry :=
  mkRegistry (live r) (ipv4_to_pubkey r) (control r) (anchors r) m (ended_by_policy r) (wallet r)
    (token_end_observer r) (wallet_end_observer r) (route_end_observer r) (lease_owner_sink r).
Definition set_ended_by_policy (s : gset Z) (r : Registry) : Registry :=
  mkRegistry (live r) (ipv4_to_pubkey r) (control r) (anchors r) (locators r) s (wallet r)
    (token_end_observer r) (wallet_end_observer r) (route_end_observer r) (lease_owner_sink r).
Definition set_wallet (t : Tables) (r : Registry) : Registry :=
  mkRegistry (live r) (ipv4_to_pubkey r) (control r) (anchors r) (locators r) (ended_by_policy r) t
    (token_end_observer r) (wallet_end_observer r) (route_end_observer r) (lease_owner_sink r).

(** The callbacks are set once: a second one is refused. *)
Definition set_token_session_end_observer (r : Registry) : Registry * bool :=
  (mkRegistry (live r) (ipv4_to_pubkey r) (control r) (anchors r) (locators r) (ended_by_policy r) (wallet r)
     true (wallet_end_observer r) (route_end_observer r) (lease_owner_sink r), negb (token_end_observer r)).
Definition set_wallet_session_end_observer (r : Registry) : Registry * bool :=
  (mkRegistry (live r) (ipv4_to_pubkey r) (control r) (anchors r) (locators r) (ended_by_policy r) (wallet r)
     (token_end_observer r) true (route_end_observer r) (lease_owner_sink r), negb (wallet_end_observer r)).
Definition set_route_session_end_observer (r : Registry) : Registry * bool :=
  (mkRegistry (live r) (ipv4_to_pubkey r) (control r) (anchors r) (locators r) (ended_by_policy r) (wallet r)
     (token_end_observer r) (wallet_end_observer r) true (lease_owner_sink r), negb (route_end_observer r)).
Definition set_lease_owner_sink (r : Registry) : Registry * bool :=
  (mkRegistry (live r) (ipv4_to_pubkey r) (control r) (anchors r) (locators r) (ended_by_policy r) (wallet r)
     (token_end_observer r) (wallet_end_observer r) (route_end_observer r) true, negb (lease_owner_sink r)).

(** ** Joining and leaving *)

Definition reset_for_new_session (key : SessionKey) (r : Registry) : Registry :=
  match key with
  | TokenSerial serial => set_anchors (delete serial (anchors r)) r
  | Route serial => set_ended_by_policy (ended_by_policy r ∖ {[serial]}) r
  | Wallet _ => r
  end.

Definition register_key (key : SessionKey) (conn_id : Z) (conn : nat) (r : Registry) : Registry :=
  let conns := default ∅ (live r !! key) in
  let r := if bool_decide (conns = ∅) then reset_for_new_session key r else r in
  set_live (<[key := <[conn_id := conn]> conns]> (live r)) r.

Definition attach_control (key : SessionKey) (conn_id : Z) (tx : nat) (r : Registry) : Registry :=
  set_control (<[(key, conn_id) := tx]> (control r)) r.

Definition detach_control (key : SessionKey) (conn_id : Z) (r : Registry) : Registry :=
  set_control (delete (key, conn_id) (control r)) r.

Definition retain_locator (route_serial : Z) (locator : SealedToApi) (r : Registry) : Registry :=
  set_locators (<[route_serial := locator]> (locators r)) r.

Definition forget_route (route_serial : Z) (r : Registry) : Registry * list Effect :=
  let r := set_locators (delete route_serial (locators r)) r in
  if bool_decide (route_serial ∈ ended_by_policy r)
  then (set_ended_by_policy (ended_by_policy r ∖ {[route_serial]}) r, [])
  else (r, [CountTeardown Close]).

Definition forget_anchor (key_serial : Z) (r : Registry) : Registry * option Z :=
  (set_anchors (delete key_serial (anchors r)) r, lease_serial <$> anchors r !! key_serial).

(** The wallet part of [unregister_key]. *)
Definition leave_wallet (key : SessionKey) (conn_id : Z) (r : Registry) : Registry * list Effect :=
  match key with
  | Wallet _ =>
      let '(t, ended) := leave conn_id (wallet r) in
      (set_wallet t r,
       match ended with Some s => if wallet_end_observer r then [WalletEnded s] else [] | None => [] end)
  | _ => (r, [])
  end.

(** The section under [live] of [unregister_key].  [None]: the key keeps a connection, or
    was not there; [Some lease]: it is gone, with the lease of a token session. *)
Definition leave_live (key : SessionKey) (conn_id : Z) (r : Registry) : Registry * option (option Z) * list Effect :=
  match live r !! key with
  | None => (r, None, [])
  | Some conns =>
      let conns := delete conn_id conns in
      if bool_decide (conns = ∅) then
        let r := set_live (delete key (live r)) r in
        match key with
        | TokenSerial serial =>
            let '(r, lease) := forget_anchor serial r in (r, Some (Some (default serial lease)), [])
        | Route serial => let '(r, es) := forget_route serial r in (r, Some None, es)
        | Wallet _ => (r, Some None, [])
        end
      else (set_live (<[key := conns]> (live r)) r, None, [])
  end.

Definition tombstone_attribution (pubkey now : Z) (r : Registry) : Registry :=
  let deadline := now + DEPARTED_ATTRIBUTION_RETENTION in
  set_ipv4 ((fun o => if (owner_pubkey o =? pubkey) && bool_decide (departed_deadline o = None)
                      then mkOwner (owner_pubkey o) (Some deadline) else o) <$> ipv4_to_pubkey r) r.

Definition end_observers (key : SessionKey) (ended : option Z) (r : Registry) : list Effect :=
  match key, ended with
  | TokenSerial _, Some lease => if token_end_observer r then [TokenEnded lease] else []
  | Route serial, _ => if route_end_observer r then [RouteSessionEnded serial] else []
  | _, _ => []
  end.

Definition unregister_key (key : SessionKey) (conn_id now : Z) (r : Registry) : Registry * list Effect :=
  let r := detach_control key conn_id r in
  let '(r, es1) := leave_wallet key conn_id r in
  let '(r, ended, es2) := leave_live key conn_id r in
  match ended with
  | None => (r, es1 ++ es2)
  | Some lease =>
      let r := tombstone_attribution (value key) now r in
      (r, es1 ++ es2 ++ end_observers key lease r)
  end.

Definition record_assigned_ipv4 (ipv4 pubkey : Z) (r : Registry) : Registry :=
  set_ipv4 (<[ipv4 := mkOwner pubkey None]> (ipv4_to_pubkey r)) r.

(** ** Attribution *)

Definition not_elapsed (now : Z) (o : Ipv4Owner) : Prop :=
  match departed_deadline o with None => True | Some d => now < d end.

#[export] Instance not_elapsed_dec now o : Decision (not_elapsed now o).
Proof. unfold not_elapsed. destruct (departed_deadline o); apply _. Defined.

(** The [retain] that both readers start with. *)
Definition sweep_attribution (now : Z) (r : Registry) : Registry :=
  set_ipv4 (filter (fun e => not_elapsed now (snd e)) (ipv4_to_pubkey r)) r.

Definition addresses_sharing_owner_at `{MapOrder} (ip now : Z) (r : Registry) : Registry * list Z :=
  let r := sweep_attribution now r in
  match owner_pubkey <$> ipv4_to_pubkey r !! ip with
  | None => (r, [ip])
  | Some owner =>
      (r, fst <$> filter (fun e => owner_pubkey (snd e) = owner) (map_iter (ipv4_to_pubkey r)))
  end.

Definition snapshot_ipv4_to_pubkey_at (now : Z) (r : Registry) : Registry * gmap Z Z :=
  let r := sweep_attribution now r in (r, owner_pubkey <$> ipv4_to_pubkey r).

(** ** Reading the sessions *)

Section Sessions.
Context `{M : MapOrder}.

(** The lease a token session holds: the one it was rebound to, if it was. *)
Definition lease_of (r : Registry) (key_serial : Z) : Z := default key_serial (lease_serial <$> anchors r !! key_serial).

Definition token_keys (r : Registry) : list Z :=
  omap (fun e => match fst e with TokenSerial s => Some s | _ => None end) (map_iter (live r)).

Definition lease_serials_of (keys : list Z) (r : Registry) : list Z := lease_of r <$> keys.

Definition live_token_serials (r : Registry) : list Z := lease_serials_of (token_keys r) r.

Definition is_token_serial_live (r : Registry) (serial : Z) : bool := bool_decide (serial ∈ live_token_serials r).

Definition live_anchor_serials (r : Registry) : list Z :=
  lease_serial <$> filter (fun s => anchored s = true) (omap (fun key => anchors r !! key) (token_keys r)).

Definition live_route_serials (r : Registry) : list Z :=
  omap (fun e => match fst e with Route s => Some s | _ => None end) (map_iter (live r)).

Definition is_route_serial_live (r : Registry) (serial : Z) : bool := bool_decide (is_Some (live r !! Route serial)).
Definition live_route_session_count (r : Registry) : nat := length (live_route_serials r).
Definition route_locator (r : Registry) (serial : Z) : option SealedToApi := locators r !! serial.
Definition live_client_count (r : Registry) : nat := size (live r).
Definition live_wallet_sessions (r : Registry) : list WalletSession := live_sessions (wallet r).

(** A peer address, an IPv6 one as its 128 bits. *)
Inductive IpAddr := V4 (a : Z) | V6 (a : Z).

Definition ipv4_source_of (a : IpAddr) : option Z :=
  match a with
  | V4 v4 => Some v4
  | V6 v6 => if v6 / 2 ^ 32 =? 0xffff then Some (v6 mod 2 ^ 32) else None
  end.

Definition snapshot_ipv4_sources_excluding (remote_address : nat -> option IpAddr) (exclude : gset Z) (r : Registry)
  : gset Z :=
  let handles := mjoin ((fun e => snd <$> map_iter (snd e)) <$> map_iter (live r)) in
  list_to_set (filter (fun ip => ip ∉ exclude) (omap ipv4_source_of (omap remote_address handles))).

(** ** Ending wallet sessions *)

(** The section under [live] of [terminate]: the connections to close. *)
Definition take_wallet (pubkey : Z) (r : Registry) : Registry * list nat :=
  (set_live (delete (Wallet pubkey) (live r)) r, snd <$> map_iter (default ∅ (live r !! Wallet pubkey))).

Definition clear_attribution (pubkey : Z) (r : Registry) : Registry :=
  set_ipv4 (filter (fun e => owner_pubkey (snd e) <> pubkey) (ipv4_to_pubkey r)) r.

Definition terminate (pubkey : Z) (r : Registry) : Registry * nat * list Effect :=
  let '(r, conns) := take_wallet pubkey r in
  (clear_attribution pubkey r, length conns, CloseRejected <$> conns).

(** The section under [live] of [terminate_where]. *)
Definition doomed (is_still_authorized : Z -> bool) (r : Registry) : list Z :=
  omap (fun e => match fst e with
                 | Wallet p => if is_still_authorized p then None else Some p
                 | _ => None
                 end) (map_iter (live r)).

Fixpoint terminate_all (pubkeys : list Z) (r : Registry) : Registry * nat * list Effect :=
  match pubkeys with
  | [] => (r, O, [])
  | p :: rest =>
      let '(r, n, es) := terminate p r in
      let '(r, n', es') := terminate_all rest r in
      (r, (n + n')%nat, es ++ es')
  end.

Definition terminate_where (is_still_authorized : Z -> bool) (r : Registry) : Registry * nat * list Effect :=
  terminate_all (doomed is_still_authorized r) r.

(** ** Control queues *)

Definition controls_of (key : SessionKey) (r : Registry) : list (Z * nat) :=
  (fun e => (snd (fst e), snd e)) <$> filter (fun e => fst (fst e) = key) (map_iter (control r)).

Definition first_controls_of (keys : list SessionKey) (r : Registry) : gmap SessionKey nat :=
  fold_left (fun out e =>
    let '((key, _), tx) := e in
    if bool_decide (key ∈ keys)
    then match out !! key with Some _ => out | None => <[key := tx]> out end
    else out) (map_iter (control r)) ∅.

Definition anchor_ack (reply : nat) (v : AnchorVerdict) : Effect :=
  Queue reply (ControlMessage (RouteAnchorAck (RouteAnchorStatus.code (av_status v)) (max_routes v))).

Definition lease_ack (reply : nat) (s : LeaseRefreshStatus.t) : Effect :=
  Queue reply (ControlMessage (LeaseRefreshAck (LeaseRefreshStatus.code s))).

(** ** Rebinding *)

Inductive Rebind := Done | HeldElsewhere | RebindGone.

(** Another live token session holds the lease [new]. *)
Definition held_elsewhere (key_serial new : Z) (r : Registry) : bool :=
  existsb (fun other => negb (other =? key_serial) && (lease_of r other =? new)) (token_keys r).

(** The section under [live] and [anchors], with the serial to release. *)
Definition rebind_section (key_serial new : Z) (r : Registry) : Registry * Rebind * option Z :=
  if held_elsewhere key_serial new r then (r, HeldElsewhere, None)
  else
    match live r !! TokenSerial key_serial, anchors r !! key_serial with
    | Some _, Some s =>
        let s' := mkSlot new (anchored s) (in_flight s) (last_call s) (last_verdict s) (refreshed (lease s)) in
        (set_anchors (<[key_serial := s']> (anchors r)) r, Done,
         if lease_serial s =? new then None else Some (lease_serial s))
    | _, _ => (r, RebindGone, Some new)
    end.

Definition rebind (key_serial new : Z) (r : Registry) : Registry * Rebind * list Effect :=
  let '(r, outcome, release) := rebind_section key_serial new r in
  let moved :=
    match outcome, release with
    | Done, Some from => if lease_owner_sink r then [LeaseMoved from new] else []
    | _, _ => []
    end in
  let ended := match release with Some s => if token_end_observer r then [TokenEnded s] else [] | None => [] end in
  (r, outcome, moved ++ ended).

(** ** Anchor requests *)

Inductive AnchorDecision := Repeat (v : AnchorVerdict) | Throttled | Call (lease : Z) | Gone.

(** A call less than the interval ago. *)
Definition recently (now interval : Z) (at_ : option Z) : bool :=
  match at_ with Some t => duration_since now t <? interval | None => false end.

(** The section under [live] and [anchors]. *)
Definition decide_anchor (key_serial digest now : Z) (r : Registry) : Registry * AnchorDecision :=
  match live r !! TokenSerial key_serial with
  | None => (r, Gone)
  | Some _ =>
      let s := default (anchor_slot_new key_serial) (anchors r !! key_serial) in
      let fresh s := set_anchors (<[key_serial := s]> (anchors r)) r in
      let otherwise :=
        if in_flight s || recently now ANCHOR_MIN_INTERVAL (last_call s) then (fresh s, Throttled)
        else (fresh (mkSlot (lease_serial s) (anchored s) true (Some now) (last_verdict s) (lease s)), Call (lease_serial s)) in
      match last_verdict s with
      | Some (d, v) => if d =? digest then (fresh s, Repeat v) else otherwise
      | None => otherwise
      end
  end.

(** The request up to the call it spawns, the lease of which is returned. *)
Definition handle_anchor_request (key_serial digest : Z) (reply : nat) (now : Z) (r : Registry)
  : Registry * list Effect * option Z :=
  let '(r, d) := decide_anchor key_serial digest now r in
  match d with
  | Gone => (r, [], None)
  | Repeat v => (r, [CountAnchor AnchorRequestResult.Deduplicated; anchor_ack reply v], None)
  | Throttled => (r, [CountAnchor AnchorRequestResult.Throttled], None)
  | Call lease => (r, [], Some lease)
  end.

(** The token of the request, spent and bound before the policy is asked.  [admission]
    is the admitter's answer, [None] without an admitter. *)
Definition anchor_token (key_serial lease : Z) (token : option SessionToken) (admission : option TokenAdmission)
    (r : Registry) : Registry * result Z AnchorVerdict * list Effect :=
  match token with
  | None => (r, Ok lease, [])
  | Some _ =>
      match admission with
      | Some (Admit serial) =>
          let '(r, outcome, es) := rebind key_serial serial r in
          (r, match outcome with Done => Ok serial | _ => Err (status RouteAnchorStatus.Refused) end, es)
      | _ => (r, Err (status RouteAnchorStatus.Refused), [])
      end
  end.

Definition resolve_anchor (key_serial lease : Z) (token : option SessionToken) (admission : option TokenAdmission)
    (policy : Z -> AnchorVerdict) (r : Registry) : Registry * AnchorVerdict * list Effect :=
  let '(r, bound, es) := anchor_token key_serial lease token admission r in
  (r, match bound with Ok serial => policy serial | Err v => v end, es).

(** The end of the call; [None] is its timeout. *)
Definition complete_anchor (key_serial digest : Z) (reply : nat) (v : option AnchorVerdict) (r : Registry)
  : Registry * list Effect :=
  let v := default (status RouteAnchorStatus.Unavailable) v in
  let r :=
    match anchors r !! key_serial with
    | Some s =>
        set_anchors
          (<[key_serial := mkSlot (lease_serial s) (bool_decide (av_status v = RouteAnchorStatus.Bound)) false
                             (last_call s) (Some (digest, v)) (lease s)]> (anchors r)) r
    | None => r
    end in
  (r, [CountAnchor (AnchorRequestResult.of_status (av_status v)); anchor_ack reply v]).

(** What a connection hands its requests over with. *)
Record AnchorContext := mkContext {
  ctx_registry : bool;
  ctx_key : option SessionKey;
  ctx_reply : nat;
  ctx_token_admitter : bool;
  ctx_route : bool;
}.

Definition submit (ctx : AnchorContext) (digest now : Z) (r : Registry) : Registry * list Effect * option Z :=
  match ctx_registry ctx, ctx_key ctx, ctx_route ctx with
  | true, Some (TokenSerial serial), true => handle_anchor_request serial digest (ctx_reply ctx) now r
  | _, _, _ =>
      (r, [CountAnchor AnchorRequestResult.NotEligible; anchor_ack (ctx_reply ctx) (status RouteAnchorStatus.NotEligible)],
       None)
  end.

(** The renewal found no anchor for the lease.  The session told is the first with the
    lease in the order of the map. *)
Definition notify_anchor_lost (lease_ : Z) (r : Registry) : Registry * list Effect * bool :=
  match list_find (fun e => lease_serial (snd e) = lease_) (map_iter (anchors r)) with
  | None => (r, [], false)
  | Some (_, (key_serial, s)) =>
      let r := set_anchors (<[key_serial := mkSlot (lease_serial s) false (in_flight s) (last_call s) None (lease s)]>
                              (anchors r)) r in
      match controls_of (TokenSerial key_serial) r with
      | [] => (r, [], false)
      | (_, tx) :: _ =>
          (r, [anchor_ack tx (status RouteAnchorStatus.Lost); CountAnchor AnchorRequestResult.LostSent], true)
      end
  end.

(** End a route session.  [accepts] tells whether a control queue takes a message. *)
Definition end_route (accepts : nat -> bool) (route_serial : Z) (reason : RouteEndReason.t) (r : Registry)
  : Registry * nat * list Effect :=
  match live r !! Route route_serial with
  | None => (r, O, [])
  | Some conns =>
      let first := bool_decide (route_serial ∉ ended_by_policy r) in
      let r := set_ended_by_policy ({[route_serial]} ∪ ended_by_policy r) r in
      let counted :=
        if first
        then [CountTeardown match reason with RouteEndReason.AnchorGone => AnchorGone | _ => Close end] else [] in
      let handles := map_iter conns in
      let told e :=
        match control r !! (Route route_serial, fst e) with
        | Some tx => if accepts tx then Queue tx (EndRoute reason) else CloseRejected (snd e)
        | None => CloseRejected (snd e)
        end in
      (r, length handles, counted ++ (told <$> handles))
  end.

(** ** Lease refresh *)

Inductive RefreshDecision :=
| RefreshGone | RefreshAnnounced | RefreshRepeat (s : LeaseRefreshStatus.t) | RefreshThrottled | RefreshCall.

(** The section under [live] and [anchors]. *)
Definition decide_lease_refresh (key_serial digest : Z) (token : option SessionToken) (now : Z) (r : Registry)
  : Registry * RefreshDecision :=
  match live r !! TokenSerial key_serial with
  | None => (r, RefreshGone)
  | Some _ =>
      let s := default (anchor_slot_new key_serial) (anchors r !! key_serial) in
      let l := lease s in
      let fresh l := set_anchors (<[key_serial := set_lease l s]> (anchors r)) r in
      match token with
      | None =>
          (fresh (mkLease true (stale_since l) (lease_in_flight l) (lease_last_call l) (lease_last l) (counted_period l)),
           RefreshAnnounced)
      | Some _ =>
          let otherwise :=
            if lease_in_flight l || recently now REFRESH_MIN_INTERVAL (lease_last_call l) then (fresh l, RefreshThrottled)
            else (fresh (mkLease (capable l) (stale_since l) true (Some now) (lease_last l) (counted_period l)), RefreshCall) in
          match lease_last l with
          | Some (d, v) => if d =? digest then (fresh l, RefreshRepeat v) else otherwise
          | None => otherwise
          end
      end
  end.

(** The request up to the spend it spawns, if it does. *)
Definition handle_lease_refresh (key_serial digest : Z) (token : option SessionToken) (reply : nat) (now : Z)
    (r : Registry) : Registry * list Effect * bool :=
  let '(r, d) := decide_lease_refresh key_serial digest token now r in
  match d with
  | RefreshGone => (r, [], false)
  | RefreshAnnounced =>
      (r, [CountLease LeaseRefreshResult.Announced; lease_ack reply LeaseRefreshStatus.Registered], false)
  | RefreshRepeat s => (r, [CountLease LeaseRefreshResult.Deduplicated; lease_ack reply s], false)
  | RefreshThrottled => (r, [CountLease LeaseRefreshResult.Throttled], false)
  | RefreshCall => (r, [], true)
  end.

Definition resolve_lease_refresh (key_serial : Z) (admission : TokenAdmission) (r : Registry)
  : Registry * LeaseRefreshStatus.t * list Effect :=
  match admission with
  | Admit serial =>
      let '(r, outcome, es) := rebind key_serial serial r in
      (r, match outcome with Done => LeaseRefreshStatus.Refreshed | _ => LeaseRefreshStatus.Refused end, es)
  | _ => (r, LeaseRefreshStatus.Refused, [])
  end.

(** The end of the spend; [None] is its timeout. *)
Definition complete_lease_refresh (key_serial digest : Z) (reply : nat) (s : option LeaseRefreshStatus.t) (r : Registry)
  : Registry * list Effect :=
  let s := default LeaseRefreshStatus.Unavailable s in
  let r :=
    match anchors r !! key_serial with
    | Some slot =>
        let l := lease slot in
        let l' := mkLease (capable l || bool_decide (s = LeaseRefreshStatus.Refreshed)) (stale_since l) false
                    (lease_last_call l)
                    (if bool_decide (s = LeaseRefreshStatus.Unavailable) then None else Some (digest, s))
                    (counted_period l) in
        set_anchors (<[key_serial := set_lease l' slot]> (anchors r)) r
    | None => r
    end in
  (r, [CountLease (LeaseRefreshResult.of_status s); lease_ack reply s]).

Definition submit_lease_refresh (ctx : AnchorContext) (digest : Z) (token : option SessionToken) (now : Z) (r : Registry)
  : Registry * list Effect * bool :=
  match ctx_registry ctx, ctx_key ctx, ctx_token_admitter ctx with
  | true, Some (TokenSerial serial), true => handle_lease_refresh serial digest token (ctx_reply ctx) now r
  | _, _, _ =>
      (r, [CountLease LeaseRefreshResult.NotEligible; lease_ack (ctx_reply ctx) LeaseRefreshStatus.NotEligible], false)
  end.

(** The session of each lease; of sessions that share one, the last in the order of the
    map. *)
Definition keys_by_lease (r : Registry) : gmap Z Z :=
  fold_left (fun m key => <[lease_of r key := key]> m) (token_keys r) ∅.

Record StaleLease := mkStale { stale_for : Z; stale_capable : bool; first_in_period : bool }.

(** The deployer found one lease stale: the slot, and whether to count and to ask. *)
Definition note_stale (period now : Z) (l : LeaseSlot) : LeaseSlot * StaleLease :=
  let since := default now (stale_since l) in
  let first := bool_decide (counted_period l <> Some period) in
  (mkLease (capable l) (Some since) (lease_in_flight l) (lease_last_call l) (lease_last l)
     (if first then Some period else counted_period l),
   mkStale (duration_since now since) (capable l) first).

Definition lease_due_one (keys : gmap Z Z) (period now : Z) (lease_ : Z) (m : gmap Z AnchorSlot)
  : gmap Z AnchorSlot * option (Z * StaleLease) :=
  match keys !! lease_ with
  | None => (m, None)
  | Some key =>
      let s := default (anchor_slot_new key) (m !! key) in
      let '(l, v) := note_stale period now (lease s) in
      (<[key := set_lease l s]> m, Some (key, v))
  end.

Fixpoint lease_due_all (keys : gmap Z Z) (period now : Z) (leases : list Z) (m : gmap Z AnchorSlot)
  : gmap Z AnchorSlot * list (option (Z * StaleLease)) :=
  match leases with
  | [] => (m, [])
  | l :: rest =>
      let '(m, v) := lease_due_one keys period now l m in
      let '(m, vs) := lease_due_all keys period now rest m in
      (m, v :: vs)
  end.

Definition lease_refresh_due (leases : list Z) (period now : Z) (r : Registry)
  : Registry * list (option StaleLease) * list Effect :=
  let '(m, vs) := lease_due_all (keys_by_lease r) period now leases (anchors r) in
  let r := set_anchors m r in
  let found : list (Z * StaleLease) := omap (fun v => v) vs in
  let counted b := filter (fun v : Z * StaleLease => first_in_period (snd v) = true /\ stale_capable (snd v) = b) found in
  let ask := TokenSerial <$> (fst <$> filter (fun v : Z * StaleLease => stale_capable (snd v) = true) found) in
  let controls := first_controls_of ask r in
  (r, (fun v : option (Z * StaleLease) => snd <$> v) <$> vs,
   ((fun _ => CountLease LeaseRefreshResult.StaleCapable) <$> counted true) ++
   ((fun _ => CountLease LeaseRefreshResult.StaleIncapable) <$> counted false) ++
   mjoin ((fun key => match controls !! key with
                      | Some tx => [lease_ack tx LeaseRefreshStatus.Due; CountLease LeaseRefreshResult.DueSent]
                      | None => []
                      end) <$> ask)).

(** End the sessions of leases that were not refreshed, one list of effects per lease. *)
Definition end_expired_lease (accepts : nat -> bool) (r : Registry) (lease_ : Z) : nat * list Effect :=
  match keys_by_lease r !! lease_ with
  | None => (O, [])
  | Some serial =>
      let key := TokenSerial serial in
      let handles := map_iter (default ∅ (live r !! key)) in
      let told e :=
        match control r !! (key, fst e) with
        | Some tx => if accepts tx then Queue tx EndLease else CloseLeaseExpired (snd e)
        | None => CloseLeaseExpired (snd e)
        end in
      (length handles,
       (told <$> handles) ++ (if bool_decide (handles = []) then [] else [CountLease LeaseRefreshResult.Expired]))
  end.

Definition end_expired_leases (accepts : nat -> bool) (leases : list Z) (r : Registry) : list (nat * list Effect) :=
  end_expired_lease accepts r <$> leases.

End Sessions.
