(* ===== verification/SessionLeases.v ===== *)
(** The leases of token sessions ([crates/warrenguard-multihop-server/src/multihop.rs],
    [multihop/route.rs], [multihop/lease.rs]): whatever the tasks of the exit do, and in
    whatever order their sections run, a lease the exit spent is held by a session the
    deployer renews, or the deployer is told that it ended. *)

From S2P Require Import Prelude Control StatusCodes SessionRegistry.

Section Leases.
Context `{M : MapOrder} {L : MapOrderLaws M}.

(** ** The leases that are live *)

Lemma elem_of_map_iter {K} `{Countable K} {V} (m : gmap K V) k v : (k, v) ∈ map_iter m <-> m !! k = Some v.
Proof. by rewrite map_iter_perm, elem_of_map_to_list. Qed.

Lemma elem_of_token_keys r k : k ∈ token_keys r <-> is_Some (live r !! TokenSerial k).
Proof.
  unfold token_keys. rewrite list_elem_of_omap. split.
  - intros ([key v] & Hin & Hk). apply elem_of_map_iter in Hin. destruct key; simplify_eq/=. by eexists.
  - intros [v Hv]. exists (TokenSerial k, v). split; [by apply elem_of_map_iter|done].
Qed.

(** A lease held by a live token session. *)
Definition held (r : Registry) (s : Z) : Prop := exists k, is_Some (live r !! TokenSerial k) /\ lease_of r k = s.

Lemma elem_of_live_token_serials r s : s ∈ live_token_serials r <-> held r s.
Proof.
  unfold live_token_serials, lease_serials_of, held. rewrite list_elem_of_fmap.
  setoid_rewrite elem_of_token_keys. naive_solver.
Qed.

Lemma held_elsewhere_spec k new r :
  held_elsewhere k new r = true <-> exists o, is_Some (live r !! TokenSerial o) /\ o <> k /\ lease_of r o = new.
Proof.
  unfold held_elsewhere. rewrite existsb_exists. setoid_rewrite <- list_elem_of_In. setoid_rewrite elem_of_token_keys.
  setoid_rewrite andb_true_iff. setoid_rewrite negb_true_iff. setoid_rewrite Z.eqb_neq. setoid_rewrite Z.eqb_eq. naive_solver.
Qed.

(** Registries with the same token sessions on the same leases. *)
Definition same_leases (r r' : Registry) : Prop :=
  (forall k, is_Some (live r' !! TokenSerial k) <-> is_Some (live r !! TokenSerial k)) /\
  (forall k, is_Some (live r !! TokenSerial k) -> lease_of r' k = lease_of r k).

Lemma same_leases_held r r' s : same_leases r r' -> held r s -> held r' s.
Proof. intros [H1 H2] (k & Hk & <-). exists k. by rewrite H1, H2. Qed.

(** A session has a connection. *)
Definition no_empty_session (r : Registry) : Prop := forall k conns, live r !! k = Some conns -> conns <> ∅.

(** ** The system *)

(** [in_hand]: serials a task spent and has not acted on.  [passed]: serials of setups
    that passed the check for a session they are not part of.  [leased]: what the
    deployer holds.  [heard]: what the observer was told and the deployer has not yet
    looked at. *)
Record LeaseSystem := mkLeases {
  reg : Registry;
  in_hand : list Z;
  passed : list Z;
  leased : gset Z;
  heard : list Z;
}.

Definition with_reg (r : Registry) (s : LeaseSystem) : LeaseSystem :=
  mkLeases r (in_hand s) (passed s) (leased s) (heard s).

Definition ended_serials (es : list Effect) : list Z :=
  omap (fun e => match e with TokenEnded s => Some s | _ => None end) es.

Inductive LeaseEvent :=
| Spent (serial : Z)
| CheckSetup (i : nat) (hinted : bool)
| RegisterToken (i : nat) (conn_id : Z) (conn : nat)
| RebindTo (key_serial : Z) (i : nat)
| LeaveLive (key : SessionKey) (conn_id : Z)
| LookAtHeard (i : nat)
| AskAnchor (key_serial digest now : Z)
| AnchorDone (key_serial digest : Z) (v : option AnchorVerdict)
| AnchorLost (lease : Z)
| AskRefresh (key_serial digest : Z) (token : option SessionToken) (now : Z)
| RefreshDone (key_serial digest : Z) (s : option LeaseRefreshStatus.t)
| LeasesDue (leases : list Z) (period now : Z)
| RegisterOther (key : SessionKey) (conn_id : Z) (conn : nat)
| TerminateWallet (pubkey : Z).

(** [hinted]: the setup named an address the session holds, or none at all, so that the
    check lets it join. *)
Definition lease_step (s : LeaseSystem) (ev : LeaseEvent) : LeaseSystem :=
  match ev with
  | Spent serial => mkLeases (reg s) (in_hand s ++ [serial]) (passed s) ({[serial]} ∪ leased s) (heard s)
  | CheckSetup i hinted =>
      match in_hand s !! i with
      | None => s
      | Some serial =>
          mkLeases (reg s) (delete i (in_hand s))
            (if is_token_serial_live (reg s) serial && negb hinted then passed s else passed s ++ [serial])
            (leased s) (heard s)
      end
  | RegisterToken i conn_id conn =>
      match passed s !! i with
      | None => s
      | Some serial =>
          mkLeases (register_key (TokenSerial serial) conn_id conn (reg s)) (in_hand s) (delete i (passed s)) (leased s)
            (heard s)
      end
  | RebindTo key_serial i =>
      match in_hand s !! i with
      | None => s
      | Some serial =>
          let '(r, _, es) := rebind key_serial serial (reg s) in
          mkLeases r (delete i (in_hand s)) (passed s) (leased s) (heard s ++ ended_serials es)
      end
  | LeaveLive key conn_id =>
      let '(r, ended, _) := leave_live key conn_id (reg s) in
      mkLeases r (in_hand s) (passed s) (leased s)
        (heard s ++ match ended with Some lease => ended_serials (end_observers key lease r) | None => [] end)
  | LookAtHeard i =>
      match heard s !! i with
      | None => s
      | Some serial =>
          mkLeases (reg s) (in_hand s) (passed s)
            (if is_token_serial_live (reg s) serial then leased s else leased s ∖ {[serial]}) (delete i (heard s))
      end
  | AskAnchor key_serial digest now => with_reg (fst (decide_anchor key_serial digest now (reg s))) s
  | AnchorDone key_serial digest v => with_reg (fst (complete_anchor key_serial digest 0 v (reg s))) s
  | AnchorLost l => with_reg (fst (fst (notify_anchor_lost l (reg s)))) s
  | AskRefresh key_serial digest token now =>
      with_reg (fst (decide_lease_refresh key_serial digest token now (reg s))) s
  | RefreshDone key_serial digest v => with_reg (fst (complete_lease_refresh key_serial digest 0 v (reg s))) s
  | LeasesDue leases period now => with_reg (fst (fst (lease_refresh_due leases period now (reg s)))) s
  | RegisterOther key conn_id conn =>
      match key with
      | TokenSerial _ => s
      | _ => with_reg (register_key key conn_id conn (reg s)) s
      end
  | TerminateWallet pubkey => with_reg (fst (fst (terminate pubkey (reg s)))) s
  end.

Definition lease_run (s : LeaseSystem) (evs : list LeaseEvent) : LeaseSystem := fold_left lease_step evs s.

(** An exit whose observer is wired. *)
Definition leases_initial : LeaseSystem :=
  mkLeases (fst (set_token_session_end_observer empty_registry)) [] [] ∅ [].

(** A setup that joins a live session presents the lease the session holds. *)
Definition own_lease (s : LeaseSystem) (ev : LeaseEvent) : Prop :=
  match ev with
  | RegisterToken i _ _ =>
      match passed s !! i with
      | Some serial => is_Some (live (reg s) !! TokenSerial serial) -> lease_of (reg s) serial = serial
      | None => True
      end
  | _ => True
  end.

Fixpoint all_own_leases (s : LeaseSystem) (evs : list LeaseEvent) : Prop :=
  match evs with
  | [] => True
  | ev :: rest => own_lease s ev /\ all_own_leases (lease_step s ev) rest
  end.

(** ** What the sections do to the leases *)

Lemma lease_of_slot r r' k : anchors r' !! k = anchors r !! k -> lease_of r' k = lease_of r k.
Proof. unfold lease_of. by intros ->. Qed.

(** Writing a slot that keeps its lease. *)
Lemma same_leases_slot r k slot :
  lease_serial slot = lease_of r k -> same_leases r (set_anchors (<[k := slot]> (anchors r)) r).
Proof.
  intros E. split; [done|]. intros k' _. unfold lease_of. simpl. destruct (decide (k' = k)) as [->|Hne].
  - by rewrite lookup_insert_eq.
  - by rewrite lookup_insert_ne.
Qed.

Lemma same_leases_refl r : same_leases r r.
Proof. done. Qed.

Lemma default_slot_lease r k : lease_serial (default (anchor_slot_new k) (anchors r !! k)) = lease_of r k.
Proof. unfold lease_of. by destruct (anchors r !! k). Qed.

Lemma decide_anchor_leases k d now r : same_leases r (fst (decide_anchor k d now r)).
Proof.
  unfold decide_anchor. repeat case_match; simpl; try done; apply same_leases_slot; simpl; apply default_slot_lease.
Qed.

Lemma decide_refresh_leases k d token now r : same_leases r (fst (decide_lease_refresh k d token now r)).
Proof.
  unfold decide_lease_refresh. repeat case_match; simpl; try done; apply same_leases_slot; simpl; apply default_slot_lease.
Qed.

Lemma complete_anchor_leases k d reply v r : same_leases r (fst (complete_anchor k d reply v r)).
Proof.
  unfold complete_anchor. simpl. destruct (anchors r !! k) eqn:E; [|done]. apply same_leases_slot. unfold lease_of. by rewrite E.
Qed.

Lemma complete_refresh_leases k d reply v r : same_leases r (fst (complete_lease_refresh k d reply v r)).
Proof.
  unfold complete_lease_refresh. simpl. destruct (anchors r !! k) eqn:E; [|done]. apply same_leases_slot.
  unfold lease_of. by rewrite E.
Qed.

Lemma anchor_lost_leases l r : same_leases r (fst (fst (notify_anchor_lost l r))).
Proof.
  unfold notify_anchor_lost. destruct (list_find _ _) as [[i [k s]]|] eqn:E; [|done].
  apply list_find_Some in E as (E & _ & _). apply list_elem_of_lookup_2, elem_of_map_iter in E.
  repeat case_match; simpl; apply same_leases_slot; unfold lease_of; by rewrite E.
Qed.

Lemma lease_due_all_leases keys period now leases : forall m k,
  default k (lease_serial <$> fst (lease_due_all keys period now leases m) !! k) = default k (lease_serial <$> m !! k).
Proof.
  induction leases as [|l rest IH]; intros m k; simpl; [done|].
  unfold lease_due_one. destruct (keys !! l) as [key|]; simpl.
  - specialize (IH (<[key := set_lease (fst (note_stale period now (lease (default (anchor_slot_new key) (m !! key)))))
                       (default (anchor_slot_new key) (m !! key))]> m) k).
    destruct (lease_due_all _ _ _ _ _). simpl in *. rewrite IH. destruct (decide (k = key)) as [->|Hne].
    + rewrite lookup_insert_eq. simpl. by destruct (m !! key).
    + by rewrite lookup_insert_ne.
  - specialize (IH m k). by destruct (lease_due_all _ _ _ _ _).
Qed.

Lemma leases_due_leases leases period now r : same_leases r (fst (fst (lease_refresh_due leases period now r))).
Proof.
  unfold lease_refresh_due. pose proof (lease_due_all_leases (keys_by_lease r) period now leases (anchors r)) as H.
  destruct (lease_due_all _ _ _ _ _) as [m vs]. simpl in *. split; [done|]. intros k _. unfold lease_of. simpl. apply H.
Qed.

Lemma register_other_leases key id conn r :
  (forall s, key <> TokenSerial s) -> same_leases r (register_key key id conn r).
Proof.
  intros Hk. unfold register_key, reset_for_new_session. split.
  - intros k. destruct key; simpl; try (by destruct (Hk serial)); repeat case_match; simpl; by rewrite lookup_insert_ne.
  - intros k _. apply lease_of_slot. destruct key; simpl; try (by destruct (Hk serial)); by repeat case_match.
Qed.

Lemma terminate_leases p r : same_leases r (fst (fst (terminate p r))).
Proof. split; [|done]. intros k. simpl. by rewrite lookup_delete_ne. Qed.

(** What a joining connection makes of the leases. *)
Lemma register_token_held r s id conn s' :
  no_empty_session r -> (is_Some (live r !! TokenSerial s) -> lease_of r s = s) ->
  held r s' \/ s' = s -> held (register_key (TokenSerial s) id conn r) s'.
Proof.
  intros Hne Hown Hs. set (r' := register_key _ _ _ r).
  assert (forall k, is_Some (live r !! TokenSerial k) \/ k = s -> is_Some (live r' !! TokenSerial k)) as Hl.
  { intros k Hk. subst r'. unfold register_key. simpl. destruct (decide (k = s)) as [->|Hks].
    - repeat case_match; simpl; rewrite lookup_insert_eq; by eexists.
    - repeat case_match; simpl; rewrite lookup_insert_ne by congruence; naive_solver. }
  assert (lease_of r' s = s) as Hself.
  { subst r'. unfold register_key. destruct (live r !! TokenSerial s) as [conns|] eqn:E; simpl.
    - rewrite bool_decide_false by (by eapply Hne). unfold lease_of. simpl. apply Hown. by eexists.
    - rewrite bool_decide_true by done. unfold lease_of. simpl. by rewrite lookup_delete_eq. }
  assert (forall k, k <> s -> lease_of r' k = lease_of r k) as Hother.
  { intros k Hk. apply lease_of_slot. subst r'. unfold register_key. simpl. case_bool_decide; simpl; [|done].
    by rewrite lookup_delete_ne. }
  destruct Hs as [(k & Hk & <-)| ->]; [|exists s; eauto].
  destruct (decide (k = s)) as [->|Hks]; [exists s|exists k]; (split; [by apply Hl; eauto|]); [by rewrite Hself, Hown|by apply Hother].
Qed.

(** The last connection of a token session takes its lease with it. *)
Lemma leave_live_held r key id r' ended es s :
  leave_live key id r = (r', ended, es) -> held r s ->
  held r' s \/ exists k, key = TokenSerial k /\ ended = Some (Some s).
Proof.
  unfold leave_live. destruct (live r !! key) as [conns|] eqn:El; [|by intros [= <- <- <-]; left].
  intros E (k & Hk & <-). destruct (decide (key = TokenSerial k)) as [->|Hne].
  - case_bool_decide.
    + simplify_eq/=. right. exists k. unfold lease_of. by destruct (anchors r !! k).
    + simplify_eq/=. left. exists k. simpl. rewrite lookup_insert_eq. split; [by eexists|done].
  - left. exists k. case_bool_decide; [destruct key as [p|t|t]; unfold forget_anchor, forget_route in E; simpl in E;
      repeat case_match; simplify_eq/=|simplify_eq/=]; rewrite ?lookup_delete_ne, ?lookup_insert_ne by congruence;
      split; try done; apply lease_of_slot; simpl; rewrite ?lookup_delete_ne by congruence; done.
Qed.

Lemma leave_live_no_empty r key id r' ended es :
  leave_live key id r = (r', ended, es) -> no_empty_session r -> no_empty_session r'.
Proof.
  unfold leave_live, no_empty_session. intros E Hne k conns. destruct (live r !! key) as [cs|] eqn:El; [|by simplify_eq/=; eauto].
  case_bool_decide; [|simplify_eq/=; intros [[<- <-]|[? ?]]%lookup_insert_Some; eauto].
  destruct key; unfold forget_anchor, forget_route in E; simpl in E; repeat case_match; simplify_eq/=;
    intros [? ?]%lookup_delete_Some; eauto.
Qed.

Lemma register_no_empty r key id conn : no_empty_session r -> no_empty_session (register_key key id conn r).
Proof.
  unfold register_key, no_empty_session. intros Hne k conns. destruct key; simpl; case_bool_decide; simpl;
    intros [[<- <-]|[? ?]]%lookup_insert_Some; by eauto || apply insert_non_empty.
Qed.

(** A rebind keeps every lease held or reports it, and so the serial it was given. *)
Lemma rebind_held r k new r' o es s :
  token_end_observer r = true -> rebind k new r = (r', o, es) -> held r s \/ s = new ->
  held r' s \/ s ∈ ended_serials es.
Proof.
  unfold rebind, rebind_section. intros Ho E Hs. destruct (held_elsewhere k new r) eqn:Hh.
  - simplify_eq/=. left. destruct Hs as [?| ->]; [done|].
    apply held_elsewhere_spec in Hh as (o' & ? & _ & ?). by exists o'.
  - destruct (live r !! TokenSerial k) as [conns|] eqn:El, (anchors r !! k) as [slot|] eqn:Ea; simplify_eq/=;
      rewrite ?Ho in *; simpl; try (destruct Hs as [?| ->]; [by left|right; by left]).
    set (r' := set_anchors _ r).
    assert (held r' new) as Hnew.
    { exists k. split; [change (is_Some (live r !! TokenSerial k)); by rewrite El; eexists|]. unfold lease_of. simpl. by rewrite lookup_insert_eq. }
    destruct Hs as [(k' & Hk' & <-)| ->]; [|by left]. destruct (decide (k' = k)) as [->|Hne].
    + unfold lease_of. rewrite Ea. simpl. destruct (Z.eqb_spec (lease_serial slot) new) as [->|Hd]; [by left|].
      right. destruct (lease_owner_sink r); simpl; [|by left]. by left.
    + left. exists k'. split; [done|]. apply lease_of_slot. simpl. by rewrite lookup_insert_ne.
Qed.

Lemma rebind_fields r k new : let r' := fst (fst (rebind k new r)) in
  live r' = live r /\ token_end_observer r' = token_end_observer r.
Proof. unfold rebind, rebind_section. by repeat case_match; simplify_eq/=. Qed.

(** ** The invariant *)

Record LeaseInv (s : LeaseSystem) : Prop := {
  li_observer : token_end_observer (reg s) = true;
  li_no_empty : no_empty_session (reg s);
  li_leased x : x ∈ leased s -> x ∈ in_hand s \/ x ∈ passed s \/ x ∈ heard s \/ held (reg s) x;
}.

(** A quiet section: the same sessions on the same leases. *)
Lemma quiet_inv s r :
  LeaseInv s -> same_leases (reg s) r -> token_end_observer r = true -> no_empty_session r -> LeaseInv (with_reg r s).
Proof.
  intros [H1 H2 H3] Hs Ho Hn. split; [done..|]. intros x Hx. simpl.
  destruct (H3 x Hx) as [?|[?|[?|?]]]; eauto using same_leases_held.
Qed.

Lemma elem_of_delete_cases {A} (l : list A) i x y : l !! i = Some x -> y ∈ l -> y = x \/ y ∈ delete i l.
Proof.
  intros Hi Hy. apply list_elem_of_lookup in Hy as [j Hj]. destruct (decide (j = i)) as [->|Hne]; [left; congruence|].
  right. apply list_elem_of_lookup. destruct (decide (j < i)%nat).
  - exists j. by rewrite list_lookup_delete_lt.
  - exists (j - 1)%nat. rewrite list_lookup_delete_ge by lia. by replace (S (j - 1))%nat with j by lia.
Qed.

(** The sections that only write slots leave the sessions alone. *)
Definition same_sessions (r r' : Registry) : Prop := live r' = live r /\ token_end_observer r' = token_end_observer r.

Lemma slot_sections r :
  (forall k d now, same_sessions r (fst (decide_anchor k d now r))) /\
  (forall k d token now, same_sessions r (fst (decide_lease_refresh k d token now r))) /\
  (forall k d reply v, same_sessions r (fst (complete_anchor k d reply v r))) /\
  (forall k d reply v, same_sessions r (fst (complete_lease_refresh k d reply v r))) /\
  (forall l, same_sessions r (fst (fst (notify_anchor_lost l r)))) /\
  (forall leases period now, same_sessions r (fst (fst (lease_refresh_due leases period now r)))).
Proof.
  unfold same_sessions, decide_anchor, decide_lease_refresh, complete_anchor, complete_lease_refresh, notify_anchor_lost,
    lease_refresh_due.
  split_and!; intros; try destruct (lease_due_all _ _ _ _ _); by repeat case_match.
Qed.

Lemma slot_section_inv s r : LeaseInv s -> same_leases (reg s) r -> same_sessions (reg s) r -> LeaseInv (with_reg r s).
Proof.
  intros HI Hl [E1 E2]. apply quiet_inv; [done|done| |].
  - rewrite E2. apply HI.
  - intros k conns. rewrite E1. apply HI.
Qed.

Lemma spent_inv s serial : LeaseInv s -> LeaseInv (lease_step s (Spent serial)).
Proof.
  intros [Ho Hne HL]. split; [done..|]. simpl. intros x [->%elem_of_singleton|Hx]%elem_of_union; [left; set_solver|].
  destruct (HL x Hx) as [?|?]; [left; set_solver|by right].
Qed.

Lemma lease_check_inv s i hinted : LeaseInv s -> LeaseInv (lease_step s (CheckSetup i hinted)).
Proof.
  intros [Ho Hne HL]. simpl. destruct (in_hand s !! i) as [serial|] eqn:Ei; [|done]. split; [done..|]. simpl. intros x Hx.
  unfold is_token_serial_live. case_bool_decide as Hl.
  - apply elem_of_live_token_serials in Hl. destruct (HL x Hx) as [Hin|[Hp|?]]; [|right; left; case_match; set_solver|by auto].
    destruct (elem_of_delete_cases _ _ _ _ Ei Hin) as [->|?]; auto.
  - simpl. destruct (HL x Hx) as [Hin|[Hp|?]]; [|right; left; set_solver|by auto].
    destruct (elem_of_delete_cases _ _ _ _ Ei Hin) as [->|?]; [right; left; set_solver|by left].
Qed.

Lemma lease_register_inv s i id conn :
  own_lease s (RegisterToken i id conn) -> LeaseInv s -> LeaseInv (lease_step s (RegisterToken i id conn)).
Proof.
  intros Hown [Ho Hne HL]. simpl in *. destruct (passed s !! i) as [serial|] eqn:Ei; [|done].
  split; [by unfold register_key; simpl; case_bool_decide|by apply register_no_empty|].
  simpl. intros x Hx. destruct (HL x Hx) as [?|[Hp|[?|?]]]; [by auto| |by auto|].
  - destruct (elem_of_delete_cases _ _ _ _ Ei Hp) as [->|?]; [|by auto]. do 3 right. apply register_token_held; auto.
  - do 3 right. apply register_token_held; auto.
Qed.

Lemma rebind_inv s k i : LeaseInv s -> LeaseInv (lease_step s (RebindTo k i)).
Proof.
  intros [Ho Hne HL]. simpl. destruct (in_hand s !! i) as [serial|] eqn:Ei; [|done].
  pose proof (rebind_fields (reg s) k serial) as [F1 F2].
  destruct (rebind k serial (reg s)) as [[r o] es] eqn:Er. simpl in *. split; simpl; [congruence| |].
  { intros k' conns. rewrite F1. apply Hne. }
  intros x Hx.
  assert (held (reg s) x \/ x = serial -> held r x \/ x ∈ ended_serials es) as Hr by (by eapply rebind_held).
  destruct (HL x Hx) as [Hin|[?|[?|?]]]; [|by auto|right; right; left; set_solver|].
  - destruct (elem_of_delete_cases _ _ _ _ Ei Hin) as [->|?]; [|by auto]. destruct Hr as [?|?]; [by right|by auto|].
    right; right; left. set_solver.
  - destruct Hr as [?|?]; [by left|by auto|]. right; right; left. set_solver.
Qed.

Lemma leave_live_observer r key id : token_end_observer (fst (fst (leave_live key id r))) = token_end_observer r.
Proof. unfold leave_live, forget_anchor, forget_route. by repeat (case_match; simplify_eq/=). Qed.

Lemma leave_inv s key id : LeaseInv s -> LeaseInv (lease_step s (LeaveLive key id)).
Proof.
  intros [Ho Hne HL]. simpl. pose proof (leave_live_observer (reg s) key id) as Hob.
  destruct (leave_live key id (reg s)) as [[r ended] es] eqn:El. simpl in *.
  split; simpl; [congruence|by eapply leave_live_no_empty|]. intros x Hx.
  destruct (HL x Hx) as [?|[?|[?|Hh]]]; [by auto|by auto|right; right; left; set_solver|].
  destruct (leave_live_held _ _ _ _ _ _ _ El Hh) as [?|(k & -> & ->)]; [by auto|].
  right; right; left. simpl. rewrite Hob, Ho. simpl. set_solver.
Qed.

Lemma look_inv s i : LeaseInv s -> LeaseInv (lease_step s (LookAtHeard i)).
Proof.
  intros [Ho Hne HL]. simpl. destruct (heard s !! i) as [serial|] eqn:Ei; [|done]. split; [done..|]. simpl. intros x.
  unfold is_token_serial_live. case_bool_decide as Hl.
  - apply elem_of_live_token_serials in Hl. intros Hx. destruct (HL x Hx) as [?|[?|[Hh|?]]]; [by auto..| |by auto].
    destruct (elem_of_delete_cases _ _ _ _ Ei Hh) as [->|?]; auto.
  - intros [Hx Hne']%elem_of_difference. destruct (HL x Hx) as [?|[?|[Hh|?]]]; [by auto..| |by auto].
    destruct (elem_of_delete_cases _ _ _ _ Ei Hh) as [->|?]; [set_solver|by auto].
Qed.

Lemma register_other_inv s key id conn :
  (forall k, key <> TokenSerial k) -> LeaseInv s -> LeaseInv (with_reg (register_key key id conn (reg s)) s).
Proof.
  intros Hk HI. apply quiet_inv; [done|by apply register_other_leases| |apply register_no_empty; apply HI].
  destruct HI as [Ho _ _]. unfold register_key, reset_for_new_session. by repeat case_match.
Qed.

Lemma terminate_inv s p : LeaseInv s -> LeaseInv (lease_step s (TerminateWallet p)).
Proof.
  intros HI. apply quiet_inv; [done|apply terminate_leases|apply HI|].
  intros k conns. simpl. intros [_ ?]%lookup_delete_Some. by eapply HI.
Qed.

Lemma lease_step_inv s ev : own_lease s ev -> LeaseInv s -> LeaseInv (lease_step s ev).
Proof.
  intros Hown HI. pose proof (slot_sections (reg s)) as (S1 & S2 & S3 & S4 & S5 & S6). destruct ev as [| | | | | | | | | | | |key| ].
  - by apply spent_inv.
  - by apply lease_check_inv.
  - by apply lease_register_inv.
  - by apply rebind_inv.
  - by apply leave_inv.
  - by apply look_inv.
  - apply slot_section_inv; [done|apply decide_anchor_leases|apply S1].
  - apply slot_section_inv; [done|apply complete_anchor_leases|apply S3].
  - apply slot_section_inv; [done|apply anchor_lost_leases|apply S5].
  - apply slot_section_inv; [done|apply decide_refresh_leases|apply S2].
  - apply slot_section_inv; [done|apply complete_refresh_leases|apply S4].
  - apply slot_section_inv; [done|apply leases_due_leases|apply S6].
  - destruct key; simpl; [apply register_other_inv|done|apply register_other_inv]; done.
  - by apply terminate_inv.
Qed.

Lemma lease_run_inv evs : forall s, all_own_leases s evs -> LeaseInv s -> LeaseInv (lease_run s evs).
Proof.
  induction evs as [|ev evs IH]; intros s; [done|]. intros [H1 H2] HI. apply IH; [done|]. by apply lease_step_inv.
Qed.

(** ** The control plane is not flooded *)

(** When the session of [k] last called its control plane for its anchor. *)
Definition called_at (k : Z) (r : Registry) : option Z := anchors r !! k ≫= last_call.

Definition stays (k : Z) (r : Registry) : Prop := is_Some (live r !! TokenSerial k).

(** A call is decided only an interval after the last one, and is recorded. *)
Lemma call_spaced k d now r r' l :
  decide_anchor k d now r = (r', Call l) ->
  called_at k r' = Some now /\ forall t, called_at k r = Some t -> t + ANCHOR_MIN_INTERVAL <= now.
Proof.
  unfold decide_anchor, called_at. intros E. destruct (live r !! TokenSerial k); [|done].
  set (s := default _ _) in E.
  assert (forall t, anchors r !! k ≫= last_call = Some t -> last_call s = Some t) as Hs.
  { intros t. subst s. by destruct (anchors r !! k). }
  assert ((in_flight s || recently now ANCHOR_MIN_INTERVAL (last_call s)) = false /\
    r' = set_anchors (<[k := mkSlot (lease_serial s) (anchored s) true (Some now) (last_verdict s) (lease s)]> (anchors r)) r)
    as [Hf ->] by (repeat case_match; simplify_eq; done).
  split; [simpl; by rewrite lookup_insert_eq|]. intros t Ht%Hs. apply orb_false_iff in Hf as [_ Hf].
  rewrite Ht in Hf. unfold recently, duration_since in Hf. apply Z.ltb_ge in Hf. unfold ANCHOR_MIN_INTERVAL in *.
  unfold from_secs, NANOS_PER_SEC in *. lia.
Qed.

(** Writing slots keeps the time of the last call, or brings it forward. *)
Definition later (t : Z) (o : option Z) : Prop := exists t', o = Some t' /\ t <= t'.

Lemma called_insert k k' slot r t :
  later t (called_at k r) -> (forall old, anchors r !! k' = Some old -> last_call slot = last_call old) ->
  later t (called_at k (set_anchors (<[k' := slot]> (anchors r)) r)).
Proof.
  intros (t' & Ht & Hle) Hs. exists t'. split; [|done]. unfold called_at in *. simpl. destruct (decide (k = k')) as [->|Hne].
  - rewrite lookup_insert_eq. destruct (anchors r !! k') as [old|]; [|done]. simpl in *. by rewrite (Hs old).
  - by rewrite lookup_insert_ne.
Qed.

Lemma decide_called k k' d now r t :
  0 <= ANCHOR_MIN_INTERVAL -> later t (called_at k r) -> later t (called_at k (fst (decide_anchor k' d now r))).
Proof.
  intros Hi Ht. destruct (decide_anchor k' d now r) as [r' dec] eqn:E. destruct dec as [v| |l|].
  3: { destruct (call_spaced _ _ _ _ _ _ E) as [Hc Hsp]. destruct (decide (k' = k)) as [->|Hne].
       - destruct Ht as (t' & Ht & ?). exists now. split; [done|]. specialize (Hsp t' Ht). lia.
       - destruct Ht as (t' & Ht & ?). exists t'. split; [|done]. revert E. unfold decide_anchor.
         unfold called_at in *. repeat case_match; intros; simplify_eq/=; by rewrite lookup_insert_ne. }
  all: revert E; unfold decide_anchor; repeat case_match; intros; simplify_eq/=; try done; apply called_insert; try done;
    intros old ->; done.
Qed.

Lemma lease_due_all_called keys period now leases : forall m k,
  (lease_due_all keys period now leases m).1 !! k ≫= last_call = m !! k ≫= last_call.
Proof.
  induction leases as [|l rest IH]; intros m k; simpl; [done|].
  unfold lease_due_one. destruct (keys !! l) as [key|]; simpl.
  - match goal with |- context [lease_due_all _ _ _ _ ?m0] => specialize (IH m0 k) end.
    destruct (lease_due_all _ _ _ _ _). simpl in *. rewrite IH. destruct (decide (k = key)) as [->|Hne].
    + rewrite lookup_insert_eq. simpl. by destruct (m !! key).
    + by rewrite lookup_insert_ne.
  - specialize (IH m k). by destruct (lease_due_all _ _ _ _ _).
Qed.

Lemma register_called k key id conn r t :
  no_empty_session r -> stays k r -> later t (called_at k r) -> later t (called_at k (register_key key id conn r)).
Proof.
  intros Hne [conns Hk] (t' & Ht & ?). exists t'. split; [|done]. unfold called_at in *. unfold register_key.
  destruct key as [p|serial|serial]; simpl; try (by case_bool_decide).
  case_bool_decide as He; simpl; [|done]. destruct (decide (serial = k)) as [->|Hd]; [|by rewrite lookup_delete_ne].
  rewrite Hk in He. by destruct (Hne _ _ Hk).
Qed.

Lemma leave_called k key id r t :
  stays k (fst (fst (leave_live key id r))) -> later t (called_at k r) ->
  later t (called_at k (fst (fst (leave_live key id r)))).
Proof.
  unfold leave_live, stays. intros Hst (t' & Ht & ?). exists t'. split; [|done]. unfold called_at in *.
  destruct (live r !! key) as [conns|]; [|done]. case_bool_decide; [|done].
  destruct key as [p|serial|serial]; simpl in *; [done| |by unfold forget_route; case_bool_decide].
  destruct (decide (serial = k)) as [->|Hd]; [|by rewrite lookup_delete_ne].
  rewrite lookup_delete_eq in Hst. by apply is_Some_None in Hst.
Qed.

Lemma step_called s ev k t :
  no_empty_session (reg s) -> stays k (reg s) -> stays k (reg (lease_step s ev)) -> later t (called_at k (reg s)) ->
  later t (called_at k (reg (lease_step s ev))).
Proof.
  intros Hne Hst Hst' Ht.
  destruct ev as [serial|i hinted|i id conn|k' i|key id|i|k' d now|k' d v|l|k' d token now|k' d v|leases period now|key id conn|p];
    simpl in *.
  - done.
  - by case_match.
  - case_match; [|done]. by apply register_called.
  - case_match; [|done]. unfold rebind, rebind_section. repeat (case_match; simplify_eq/=; try done);
      apply called_insert; try done; intros old Hold; by simplify_eq.
  - destruct (leave_live key id (reg s)) as [[r ended] es] eqn:El. simpl in *.
    pose proof (leave_called k key id (reg s) t) as Hl. rewrite El in Hl. by apply Hl.
  - by case_match.
  - by apply decide_called.
  - unfold complete_anchor. simpl. case_match eqn:Ea; [|done]. apply called_insert; [done|]. intros old. rewrite Ea. by intros [= <-].
  - unfold notify_anchor_lost. destruct (list_find _ _) as [[i [k' slot]]|] eqn:E; [|done].
    apply list_find_Some in E as (E & _ & _). apply list_elem_of_lookup_2, elem_of_map_iter in E.
    repeat case_match; simpl; (apply called_insert; [done|]; intros old; rewrite E; by intros [= <-]).
  - unfold decide_lease_refresh. repeat case_match; simpl; try done; (apply called_insert; [done|]; intros old Hold; by rewrite Hold).
  - unfold complete_lease_refresh. simpl. case_match eqn:Ea; [|done]. apply called_insert; [done|]. intros old. rewrite Ea. by intros [= <-].
  - destruct Ht as (t' & Ht & ?). exists t'. split; [|done]. unfold called_at, lease_refresh_due in *.
    pose proof (lease_due_all_called (keys_by_lease (reg s)) period now leases (anchors (reg s)) k) as Hd.
    destruct (lease_due_all _ _ _ _ _). simpl in *. congruence.
  - destruct key; [by apply register_called|done|by apply register_called].
  - done.
Qed.

Lemma step_no_empty s ev : no_empty_session (reg s) -> no_empty_session (reg (lease_step s ev)).
Proof.
  intros Hne. pose proof (slot_sections (reg s)) as (S1 & S2 & S3 & S4 & S5 & S6).
  assert (forall r, same_sessions (reg s) r -> no_empty_session r) as Hq by (intros r [E _] k conns; rewrite E; apply Hne).
  destruct ev as [serial|i hinted|i id conn|k' i|key id|i|k' d now|k' d v|l|k' d token now|k' d v|leases period now|key id conn|p];
    simpl in *.
  - done.
  - by case_match.
  - case_match; [|done]. by apply register_no_empty.
  - destruct (in_hand s !! i) as [serial|]; [|done]. pose proof (rebind_fields (reg s) k' serial) as [F1 F2].
    destruct (rebind k' serial (reg s)) as [[r o] es]. simpl in *. by apply Hq.
  - destruct (leave_live key id (reg s)) as [[r ended] es] eqn:El. simpl. by eapply leave_live_no_empty.
  - by case_match.
  - apply Hq, S1.
  - apply Hq, (S3 _ _ 0%nat).
  - apply Hq, S5.
  - apply Hq, S2.
  - apply Hq, (S4 _ _ 0%nat).
  - apply Hq, S6.
  - destruct key; [by apply register_no_empty|done|by apply register_no_empty].
  - intros k conns. simpl. intros [_ ?]%lookup_delete_Some. by eapply Hne.
Qed.

(** The session of [k] is live all through a run. *)
Fixpoint stays_live (k : Z) (s : LeaseSystem) (evs : list LeaseEvent) : Prop :=
  stays k (reg s) /\ match evs with [] => True | ev :: rest => stays_live k (lease_step s ev) rest end.

Lemma run_called k t evs : forall s, no_empty_session (reg s) -> stays_live k s evs -> later t (called_at k (reg s)) ->
  later t (called_at k (reg (lease_run s evs))).
Proof.
  induction evs as [|ev evs IH]; intros s Hne [Hst Hrest] Ht; [done|].
  apply IH; [by apply step_no_empty|done|]. apply step_called; try done. by destruct evs, Hrest.
Qed.

(** A session asks its control plane about its anchor at most once per interval, however
    often and on however many connections its client asks, and whatever happens in
    between. *)
Theorem anchor_calls_spaced k evs s d1 d2 now1 now2 r1 r2 l1 l2 :
  no_empty_session (reg s) -> decide_anchor k d1 now1 (reg s) = (r1, Call l1) ->
  stays_live k (with_reg r1 s) evs ->
  decide_anchor k d2 now2 (reg (lease_run (with_reg r1 s) evs)) = (r2, Call l2) ->
  now1 + ANCHOR_MIN_INTERVAL <= now2.
Proof.
  intros Hne H1 Hst H2. destruct (call_spaced _ _ _ _ _ _ H1) as [Hc _]. destruct (call_spaced _ _ _ _ _ _ H2) as [_ Hsp].
  assert (no_empty_session r1) as Hne1.
  { pose proof (slot_sections (reg s)) as (S1 & _). specialize (S1 k d1 now1) as [E _]. rewrite H1 in E. simpl in E.
    intros k' conns. rewrite E. apply Hne. }
  destruct (run_called k now1 evs (with_reg r1 s) Hne1 Hst) as (t & Ht & Hle); [by exists now1|].
  specialize (Hsp t Ht). lia.
Qed.

End Leases.

(** Session 1 is admitted on serial 10 and an anchor request moves it to serial 20, so
    that 10 is released.  Another device then presents 10: no session holds it, the
    setup passes the check, and joins the registry key of session 1, whose lease
    is 20. *)
Definition reused_serial : list LeaseEvent :=
  [Spent 10; CheckSetup 0 false; RegisterToken 0 1 1; AskAnchor 10 7 0; Spent 20; RebindTo 10 0; LookAtHeard 0;
   Spent 10; CheckSetup 0 false; RegisterToken 0 2 2].

Definition both_leave : list LeaseEvent := [LeaveLive (TokenSerial 10) 1; LeaveLive (TokenSerial 10) 2; LookAtHeard 0].

(** The answer to a call of a session that has ended is written into the slot of the
    session that took its key: the new session counts as anchored, and its own call in
    flight no longer does. *)
Definition late_answer : list LeaseEvent :=
  [Spent 10; CheckSetup 0 false; RegisterToken 0 1 1; AskAnchor 10 7 0; LeaveLive (TokenSerial 10) 1;
   Spent 10; CheckSetup 0 false; RegisterToken 0 2 2; AskAnchor 10 8 (from_secs 1);
   AnchorDone 10 7 (Some (mkVerdict RouteAnchorStatus.Bound 3))].

Lemma late_answer_crosses_sessions :
  let s := lease_run leases_initial late_answer in
  ((fun x => (anchored x, in_flight x, last_verdict x)) <$> anchors (reg s) !! 10)
  = Some (true, false, Some (7, mkVerdict RouteAnchorStatus.Bound 3)).
Proof. by vm_compute. Qed.

(** An anchor call is made for the lease the session held when it was decided; a refresh
    in between moves the session to another. *)
Lemma anchor_call_on_a_lease_left :
  let s := lease_run leases_initial [Spent 10; CheckSetup 0 false; RegisterToken 0 1 1] in
  let '(r, d) := decide_anchor 10 7 0 (reg s) in
  let s' := lease_run (with_reg r s) [Spent 20; RebindTo 10 0] in
  d = Call 10 /\ lease_of (reg s') 10 = 20.
Proof. by vm_compute. Qed.

(** C9.  A lease the exit spent is never forgotten, as long as a setup that joins a live
    session presents the lease the session holds: whatever the setups, anchor requests,
    refreshes, departures and revocations do, and however their sections interleave, a
    serial the deployer holds is in the hands of a task, is among the serials the
    registry lists for renewal, or was reported as ended.  The exception is real: after
    an anchor request moved a session to another serial, a device that presents the
    first serial again joins the same session, its lease is not listed, and is not
    reported when every connection has left. *)
Theorem leases_accounted :
  (forall `{M : MapOrder} {L : MapOrderLaws M} evs x, let s := lease_run leases_initial evs in
     all_own_leases leases_initial evs -> x ∈ leased s ->
     x ∈ in_hand s \/ x ∈ passed s \/ x ∈ heard s \/ x ∈ live_token_serials (reg s)) /\
  (let s := lease_run leases_initial reused_serial in
   10 ∈ leased s /\ in_hand s = [] /\ passed s = [] /\ heard s = [] /\ live_token_serials (reg s) = [20] /\
   size (default ∅ (live (reg s) !! TokenSerial 10)) = 2%nat) /\
  (let s := lease_run leases_initial (reused_serial ++ both_leave) in
   10 ∈ leased s /\ heard s = [] /\ live (reg s) = ∅).
Proof.
  split_and!.
  - intros M L evs x s Hown Hx.
    assert (LeaseInv s) as [_ _ HL].
    { apply lease_run_inv; [done|]. split; [done|by intros k conns|]. intros y Hy. set_solver. }
    destruct (HL x Hx) as [?|[?|[?|?]]]; [by auto..|]. do 3 right. by apply elem_of_live_token_serials.
  - by vm_compute.
  - by vm_compute.
Qed.
