(* ===== verification/WalletSessions.v ===== *)
(** The count of wallet sessions
    ([crates/warrenguard-multihop-server/src/multihop/wallet.rs], and the gate of
    [process_setup_frame] in [multihop.rs]): the deployer's gate admits a session, and
    the registry tells the deployer when it ends.  Shown: the deployer's count is the
    list of live sessions, whatever the setups and departures of connections do. *)

From S2P Require Import Prelude Control StatusCodes SessionRegistry SessionLeases.

(** [asking]: connections waiting for the gate about a session; [answered]: those the
    gate admitted, before the table is marked.  [counted]: the ids the deployer
    counts; [ended]: those it was told have ended. *)
Record GateSystem := mkGate {
  tables : Tables;
  asking : gmap Z WalletSession;
  answered : gmap Z WalletSession;
  counted : gset Z;
  ended : list Z;
}.

Definition gate_initial : GateSystem := mkGate no_tables ∅ ∅ ∅ [].

Inductive GateEvent :=
| Join (pubkey ipv4 conn : Z)
| GateAnswers (conn : Z) (yes : bool)
| Mark (conn : Z)
| Leave (conn : Z).

Section Gate.
Context `{M : MapOrder} {L : MapOrderLaws M}.
Variable session_id : Z -> Z.

(** A connection joins once, and leaves when its setup is over. *)
Definition gate_step (s : GateSystem) (ev : GateEvent) : GateSystem :=
  match ev with
  | Join pubkey ipv4 conn =>
      match by_conn (tables s) !! conn with
      | Some _ => s
      | None =>
          let '(t, sl) := slot session_id pubkey ipv4 conn (tables s) in
          mkGate t (match sl with NeedsGate ws => <[conn := ws]> (asking s) | AlreadyAdmitted => asking s end)
            (answered s) (counted s) (ended s)
      end
  | GateAnswers conn yes =>
      match asking s !! conn with
      | None => s
      | Some ws =>
          mkGate (tables s) (delete conn (asking s))
            (if yes then <[conn := ws]> (answered s) else answered s)
            (if yes then {[ws_id ws]} ∪ counted s else counted s) (ended s)
      end
  | Mark conn =>
      match answered s !! conn with
      | None => s
      | Some ws => mkGate (mark_admitted ws (tables s)) (asking s) (delete conn (answered s)) (counted s) (ended s)
      end
  | Leave conn =>
      match asking s !! conn, answered s !! conn with
      | None, None =>
          let '(t, e) := leave conn (tables s) in
          mkGate t (asking s) (answered s)
            (match e with Some ws => counted s ∖ {[ws_id ws]} | None => counted s end)
            (match e with Some ws => ended s ++ [ws_id ws] | None => ended s end)
      | _, _ => s
      end
  end.

Definition gate_run (s : GateSystem) (evs : list GateEvent) : GateSystem := fold_left gate_step evs s.

(** ** The tables *)

(** The ids drawn in the life of a process differ. *)
Hypothesis ids_differ : forall a b, 0 <= a < 2 ^ 64 -> 0 <= b < 2 ^ 64 -> session_id a = session_id b -> a = b.

Record TInv (t : Tables) : Prop := {
  ti_by_conn c key : by_conn t !! c = Some key <-> exists e, sessions t !! key = Some e /\ c ∈ entry_conns e;
  ti_some key e : sessions t !! key = Some e -> entry_conns e <> ∅;
  ti_id key e : sessions t !! key = Some e -> exists n, 0 <= n < id_counter t /\ entry_id e = session_id n;
  ti_ids key1 key2 e1 e2 : sessions t !! key1 = Some e1 -> sessions t !! key2 = Some e2 ->
    entry_id e1 = entry_id e2 -> key1 = key2;
}.

(** A session asked about is that of an entry with the connection. *)
Definition waits (t : Tables) (c : Z) (ws : WalletSession) : Prop :=
  exists ip e, by_conn t !! c = Some (ws_pubkey ws, ip) /\ sessions t !! (ws_pubkey ws, ip) = Some e /\ entry_id e = ws_id ws.

Definition admitted_id (t : Tables) (x : Z) : Prop :=
  exists key e, sessions t !! key = Some e /\ entry_admitted e = true /\ entry_id e = x.

Definition answered_id (s : GateSystem) (x : Z) : Prop := exists c ws, answered s !! c = Some ws /\ ws_id ws = x.

Record GInv (s : GateSystem) : Prop := {
  gi_tables : TInv (tables s);
  gi_asking c ws : asking s !! c = Some ws -> waits (tables s) c ws;
  gi_answered c ws : answered s !! c = Some ws -> waits (tables s) c ws;
  gi_counted x : x ∈ counted s <-> admitted_id (tables s) x \/ answered_id s x;
  gi_ended x : x ∈ ended s -> exists n, 0 <= n < id_counter (tables s) /\ x = session_id n;
  gi_over x key e : x ∈ ended s -> sessions (tables s) !! key = Some e -> entry_id e <> x;
  gi_once : NoDup (ended s);
}.

(** The entry a connection joins, as it was before. *)
Definition entry_before (t : Tables) (key : Z * Z) : Entry :=
  default (mkEntry (session_id (id_counter t)) ∅ false) (sessions t !! key).

Lemma slot_shape pk ip conn t t' sl :
  0 <= id_counter t < 2 ^ 64 - 1 -> slot session_id pk ip conn t = (t', sl) ->
  let e := entry_before t (pk, ip) in
  sessions t' = <[(pk, ip) := mkEntry (entry_id e) ({[conn]} ∪ entry_conns e) (entry_admitted e)]> (sessions t) /\
  by_conn t' = <[conn := (pk, ip)]> (by_conn t) /\
  id_counter t' = id_counter t + (if bool_decide (sessions t !! (pk, ip) = None) then 1 else 0) /\
  sl = if entry_admitted e then AlreadyAdmitted else NeedsGate (mkWalletSession pk (entry_id e)).
Proof.
  intros Hc. unfold slot, entry_before. destruct (sessions t !! (pk, ip)) as [e|] eqn:E; simpl; intros [= <- <-]; simpl.
  - split_and!; [done..|lia|done].
  - rewrite wrap_small by (unfold in_width; lia). done.
Qed.

Lemma entry_before_id t pk ip : TInv t -> 0 <= id_counter t ->
  let counter' := id_counter t + (if bool_decide (sessions t !! (pk, ip) = None) then 1 else 0) in
  exists n, 0 <= n < counter' /\ entry_id (entry_before t (pk, ip)) = session_id n.
Proof.
  intros HT H0. unfold entry_before. destruct (sessions t !! (pk, ip)) as [e|] eqn:E; simpl.
  - destruct (ti_id _ HT _ _ E) as (n & ? & ?). exists n. split; [lia|done].
  - exists (id_counter t). split; [lia|done].
Qed.

(** An entry with the id of the one joined is the one joined. *)
Lemma entry_before_unique t pk ip key e : TInv t -> 0 <= id_counter t < 2 ^ 64 -> sessions t !! key = Some e ->
  entry_id e = entry_id (entry_before t (pk, ip)) -> key = (pk, ip).
Proof.
  intros HT Hc Hk. unfold entry_before. destruct (sessions t !! (pk, ip)) as [e0|] eqn:E; simpl.
  - intros Hid. by eapply (ti_ids _ HT).
  - intros Hid. destruct (ti_id _ HT _ _ Hk) as (n & Hn & En). exfalso.
    assert (n = id_counter t); [|lia]. apply ids_differ; [lia..|congruence].
Qed.

Lemma slot_inv pk ip conn t t' sl :
  0 <= id_counter t < 2 ^ 64 - 1 -> TInv t -> by_conn t !! conn = None -> slot session_id pk ip conn t = (t', sl) -> TInv t'.
Proof.
  intros Hc HT Hn E. destruct (slot_shape _ _ _ _ _ _ Hc E) as (Es & Eb & Ec & _).
  assert (forall c, c ∈ entry_conns (entry_before t (pk, ip)) -> by_conn t !! c = Some (pk, ip)) as Hb.
  { intros c. unfold entry_before. destruct (sessions t !! (pk, ip)) as [e|] eqn:El; simpl; [|set_solver].
    intros. apply (ti_by_conn _ HT). eauto. }
  split.
  - intros c key. rewrite Eb, Es. destruct (decide (c = conn)) as [->|Hcc].
    + rewrite lookup_insert_eq. split.
      * intros [= <-]. eexists. rewrite lookup_insert_eq. split; [done|]. simpl. set_solver.
      * intros (e & He & Hin). destruct (decide (key = (pk, ip))) as [->|Hne]; [done|]. exfalso.
        rewrite lookup_insert_ne in He by done. assert (by_conn t !! conn = Some key) by (apply (ti_by_conn _ HT); eauto).
        congruence.
    + rewrite lookup_insert_ne by done. destruct (decide (key = (pk, ip))) as [->|Hne].
      * rewrite lookup_insert_eq. split.
        -- intros Hk. pose proof Hk as (e & He & Hin)%(ti_by_conn _ HT). eexists. split; [done|]. simpl.
           unfold entry_before. rewrite He. simpl. set_solver.
        -- intros (e & [= <-] & Hin). simpl in Hin. apply Hb. set_solver.
      * rewrite lookup_insert_ne by done. apply (ti_by_conn _ HT).
  - intros key e. rewrite Es. intros [[_ <-]|[_ ?]]%lookup_insert_Some; [simpl; set_solver|by eapply (ti_some _ HT)].
  - intros key e. rewrite Es, Ec. intros [[_ <-]|[_ Hk]]%lookup_insert_Some; [apply entry_before_id; [done|lia]|].
    destruct (ti_id _ HT _ _ Hk) as (n & ? & ?). exists n. split; [case_bool_decide; lia|done].
  - intros k1 k2 e1 e2. rewrite Es. intros [[<- <-]|[? H1]]%lookup_insert_Some [[<- <-]|[? H2]]%lookup_insert_Some; simpl; try done.
    + intros Hid. symmetry. eapply entry_before_unique; eauto. lia.
    + intros Hid. eapply entry_before_unique; eauto. lia.
    + by eapply (ti_ids _ HT).
Qed.

(** The entry marked is that of the session. *)
Lemma mark_shape ws t c : TInv t -> waits t c ws ->
  exists key e, sessions t !! key = Some e /\ entry_id e = ws_id ws /\
    mark_admitted ws t = mkTables (<[key := mkEntry (entry_id e) (entry_conns e) true]> (sessions t)) (by_conn t) (id_counter t).
Proof.
  intros HT (ip & e & _ & He & Hid). unfold mark_admitted.
  destruct (list_find _ _) as [[i [key e']]|] eqn:Ef.
  - apply list_find_Some in Ef as (Ef & Hid' & _). apply list_elem_of_lookup_2, elem_of_map_iter in Ef. simpl in Hid'. eauto.
  - exfalso. apply list_find_None in Ef. eapply Forall_forall in Ef; [|by apply elem_of_map_iter]. by apply Ef.
Qed.

(** Changing whether an entry is admitted. *)
Lemma mark_inv t key e b : TInv t -> sessions t !! key = Some e ->
  TInv (mkTables (<[key := mkEntry (entry_id e) (entry_conns e) b]> (sessions t)) (by_conn t) (id_counter t)).
Proof.
  intros HT Hk. split; simpl.
  - intros c key'. rewrite (ti_by_conn _ HT). destruct (decide (key' = key)) as [->|Hne].
    + rewrite lookup_insert_eq, Hk. naive_solver.
    + by rewrite lookup_insert_ne.
  - intros key' e' [[<- <-]|[_ ?]]%lookup_insert_Some; [by apply (ti_some _ HT key e)|by eapply (ti_some _ HT)].
  - intros key' e' [[<- <-]|[_ ?]]%lookup_insert_Some; [by apply (ti_id _ HT key e)|by eapply (ti_id _ HT)].
  - intros k1 k2 e1 e2 [[<- <-]|[? H1]]%lookup_insert_Some [[<- <-]|[? H2]]%lookup_insert_Some; simpl; try done;
      intros Hid; eapply (ti_ids _ HT); eauto.
Qed.

(** A departure: the connection leaves its entry, and the last one removes it. *)
Lemma leave_shape conn t t' o : TInv t -> leave conn t = (t', o) ->
  (by_conn t !! conn = None /\ t' = t /\ o = None) \/
  (exists key e, by_conn t !! conn = Some key /\ sessions t !! key = Some e /\ conn ∈ entry_conns e /\
     by_conn t' = delete conn (by_conn t) /\ id_counter t' = id_counter t /\
     ((entry_conns e ∖ {[conn]} = ∅ /\ sessions t' = delete key (sessions t) /\
       o = if entry_admitted e then Some (mkWalletSession (fst key) (entry_id e)) else None) \/
      (entry_conns e ∖ {[conn]} <> ∅ /\ o = None /\
       sessions t' = <[key := mkEntry (entry_id e) (entry_conns e ∖ {[conn]}) (entry_admitted e)]> (sessions t)))).
Proof.
  intros HT. unfold leave. destruct (by_conn t !! conn) as [key|] eqn:Eb; [|intros [= <- <-]; by left].
  pose proof Eb as (e & He & Hin)%(ti_by_conn _ HT). rewrite He. simpl. intros E. right. exists key, e.
  case_bool_decide; simplify_eq/=; split_and!; eauto.
Qed.

Lemma leave_tables_inv conn t t' o : TInv t -> leave conn t = (t', o) -> TInv t'.
Proof.
  intros HT E. destruct (leave_shape _ _ _ _ HT E) as [(_ & -> & _)|(key & e & Hb & He & Hin & Eb & Ec & Hs)]; [done|].
  assert (forall c key', c <> conn -> by_conn t !! c = Some key' <-> exists e', sessions t' !! key' = Some e' /\ c ∈ entry_conns e') as Hbc.
  { intros c key' Hc. rewrite (ti_by_conn _ HT). destruct (decide (key' = key)) as [->|Hne].
    - destruct Hs as [(Hemp & Es & _)|(_ & _ & Es)]; rewrite Es.
      + rewrite lookup_delete_eq. split; [|naive_solver]. intros (e' & He' & Hc'). exfalso.
        assert (e' = e) as -> by congruence. set_solver.
      + rewrite lookup_insert_eq. split.
        * intros (e' & He' & Hc'). assert (e' = e) as -> by congruence. eexists. split; [done|]. simpl. set_solver.
        * intros (e' & [= <-] & Hc'). exists e. split; [done|]. simpl in Hc'. set_solver.
    - destruct Hs as [(_ & Es & _)|(_ & _ & Es)]; rewrite Es; [by rewrite lookup_delete_ne|by rewrite lookup_insert_ne]. }
  assert (forall key' e', sessions t' !! key' = Some e' -> exists e0, sessions t !! key' = Some e0 /\ entry_id e' = entry_id e0 /\
    (entry_conns e' <> ∅) /\ conn ∉ entry_conns e') as Hold.
  { intros key' e' Hk. destruct (decide (key' = key)) as [->|Hne].
    - destruct Hs as [(_ & Es & _)|(Hn & _ & Es)]; rewrite Es in Hk; [by rewrite lookup_delete_eq in Hk|].
      rewrite lookup_insert_eq in Hk. injection Hk as <-. exists e. simpl. split_and!; try done. set_solver.
    - assert (sessions t !! key' = Some e') as Hk'.
      { destruct Hs as [(_ & Es & _)|(_ & _ & Es)]; rewrite Es in Hk; [by rewrite lookup_delete_ne in Hk|by rewrite lookup_insert_ne in Hk]. }
      exists e'. split_and!; [done|done|by eapply (ti_some _ HT)|]. intros Hc.
      assert (by_conn t !! conn = Some key') by (apply (ti_by_conn _ HT); eauto). congruence. }
  split.
  - intros c key'. rewrite Eb. destruct (decide (c = conn)) as [->|Hc].
    + rewrite lookup_delete_eq. split; [done|]. intros (e' & He' & Hc). by destruct (Hold _ _ He') as (_ & _ & _ & _ & ?).
    + rewrite lookup_delete_ne by done. by apply Hbc.
  - intros key' e' Hk. by destruct (Hold _ _ Hk) as (_ & _ & _ & ? & _).
  - intros key' e' Hk. destruct (Hold _ _ Hk) as (e0 & H0 & -> & _). rewrite Ec. by eapply (ti_id _ HT).
  - intros k1 k2 e1 e2 H1 H2. destruct (Hold _ _ H1) as (e1' & H1' & -> & _), (Hold _ _ H2) as (e2' & H2' & -> & _).
    by eapply (ti_ids _ HT).
Qed.

(** ** The steps *)

Lemma waits_kept t t' c ws :
  by_conn t' !! c = by_conn t !! c ->
  (forall key e, by_conn t !! c = Some key -> sessions t !! key = Some e ->
     exists e', sessions t' !! key = Some e' /\ entry_id e' = entry_id e) ->
  waits t c ws -> waits t' c ws.
Proof.
  intros Hb Hs (ip & e & Hk & He & Hid). destruct (Hs _ _ Hk He) as (e' & He' & Hid'). exists ip, e'.
  rewrite Hb. split_and!; [done..|congruence].
Qed.

Lemma join_inv s pk ip conn : 0 <= id_counter (tables s) < 2 ^ 64 - 1 -> GInv s -> GInv (gate_step s (Join pk ip conn)).
Proof.
  intros Hc HI. pose proof HI as [HT Ha Hw Hcount He Ho Hn]. simpl. destruct (by_conn (tables s) !! conn) eqn:Eb; [done|].
  destruct (slot session_id pk ip conn (tables s)) as [t sl] eqn:Esl.
  pose proof (slot_shape _ _ _ _ _ _ Hc Esl) as (Es & Eb' & Ec & Esl'). set (e0 := entry_before (tables s) (pk, ip)) in *.
  assert (forall c ws, waits (tables s) c ws -> waits t c ws) as Hkept.
  { intros c ws Hws. apply (waits_kept (tables s)); [|intros key e _ Hk|done].
    - rewrite Eb'. destruct Hws as (? & ? & ? & _). rewrite lookup_insert_ne; [done|congruence].
    - rewrite Es. destruct (decide (key = (pk, ip))) as [->|Hne]; [|rewrite lookup_insert_ne by done; eauto].
      rewrite lookup_insert_eq. eexists. split; [done|]. simpl. subst e0. unfold entry_before. by rewrite Hk. }
  assert (forall x, admitted_id t x <-> admitted_id (tables s) x) as Had.
  { intros x. unfold admitted_id. rewrite Es. split.
    - intros (key & e & [[<- <-]|[_ Hk]]%lookup_insert_Some & Hd & Hid); [|eauto]. simpl in *. subst e0. unfold entry_before in *.
      destruct (sessions (tables s) !! (pk, ip)) as [e1|] eqn:E1; [|done]. simpl in *. eauto.
    - intros (key & e & Hk & Hd & Hid). destruct (decide (key = (pk, ip))) as [->|Hne].
      + eexists _, _. rewrite lookup_insert_eq. split; [done|]. subst e0. unfold entry_before. by rewrite Hk.
      + exists key, e. by rewrite lookup_insert_ne. }
  split; simpl.
  - by eapply slot_inv.
  - intros c ws Hws. destruct sl as [|w]; [by apply Hkept, Ha|].
    apply lookup_insert_Some in Hws as [[<- <-]|[_ Hws]]; [|by apply Hkept, Ha].
    destruct (entry_admitted e0); [done|]. injection Esl' as ->. eexists ip, _. simpl. rewrite Eb', Es, !lookup_insert_eq.
    split_and!; done.
  - intros c ws Hws. by apply Hkept, Hw.
  - intros x. by rewrite Hcount, Had.
  - intros x Hx. destruct (He x Hx) as (n & ? & ?). exists n. split; [rewrite Ec; case_bool_decide; lia|done].
  - intros x key e Hx. rewrite Es. intros [[<- <-]|[_ Hk]]%lookup_insert_Some; [|by eapply Ho]. simpl.
    subst e0. unfold entry_before. destruct (sessions (tables s) !! (pk, ip)) as [e1|] eqn:E1; [by eapply Ho|]. simpl.
    destruct (He x Hx) as (n & Hn' & ->). intros E. apply ids_differ in E; lia.
  - done.
Qed.

Lemma answer_inv s conn yes : GInv s -> GInv (gate_step s (GateAnswers conn yes)).
Proof.
  intros HI. pose proof HI as [HT Ha Hw Hcount He Ho Hn]. simpl. destruct (asking s !! conn) as [ws|] eqn:Ea; [|done].
  assert (answered s !! conn = None \/ exists ws', answered s !! conn = Some ws' /\ ws_id ws' = ws_id ws) as Hsame.
  { destruct (answered s !! conn) as [ws'|] eqn:E; [right|by left]. exists ws'. split; [done|].
    destruct (Ha _ _ Ea) as (ip & e & H1 & H2 & H3), (Hw _ _ E) as (ip' & e' & H1' & H2' & H3'). congruence. }
  split; simpl; try done.
  - intros c w [_ ?]%lookup_delete_Some. by apply Ha.
  - intros c w. destruct yes; [|apply Hw]. intros [[<- <-]|[_ ?]]%lookup_insert_Some; [by apply Ha|by apply Hw].
  - intros x. destruct yes; [|apply Hcount]. rewrite elem_of_union, elem_of_singleton, Hcount. unfold answered_id. simpl. split.
    + intros [->|[?|(c & w & Hc & Hid)]]; [right; exists conn, ws; by rewrite lookup_insert_eq|by left|]. right.
      destruct (decide (c = conn)) as [->|Hne]; [|exists c, w; by rewrite lookup_insert_ne].
      exists conn, ws. rewrite lookup_insert_eq. split; [done|]. destruct Hsame as [?|(w' & ? & ?)]; congruence.
    + intros [?|(c & w & [[<- <-]|[_ ?]]%lookup_insert_Some & Hid)]; [by auto|by left|right; right; eauto].
Qed.

Lemma mark_step_inv s conn : GInv s -> GInv (gate_step s (Mark conn)).
Proof.
  intros HI. pose proof HI as [HT Ha Hw Hcount He Ho Hn]. simpl. destruct (answered s !! conn) as [ws|] eqn:Ea; [|done].
  destruct (mark_shape ws (tables s) conn HT (Hw _ _ Ea)) as (key & e & Hk & Hid & ->).
  assert (forall c w, waits (tables s) c w -> waits
    (mkTables (<[key := mkEntry (entry_id e) (entry_conns e) true]> (sessions (tables s))) (by_conn (tables s)) (id_counter (tables s))) c w)
    as Hkept.
  { intros c w. apply waits_kept; [done|]. intros key' e' _ Hk'. simpl. destruct (decide (key' = key)) as [->|Hne].
    - rewrite lookup_insert_eq. eexists. split; [done|]. simpl. congruence.
    - rewrite lookup_insert_ne by done. eauto. }
  split; simpl; try done.
  - by apply mark_inv.
  - intros c w Hc. by apply Hkept, Ha.
  - intros c w [_ ?]%lookup_delete_Some. by apply Hkept, Hw.
  - intros x. rewrite Hcount. unfold admitted_id, answered_id. simpl. split.
    + intros [(key' & e' & Hk' & Hd & <-)|(c & w & Hc & <-)].
      * left. destruct (decide (key' = key)) as [->|Hne].
        -- exists key. eexists. simpl. rewrite lookup_insert_eq. split_and!; [done..|]. simpl. congruence.
        -- exists key', e'. simpl. by rewrite lookup_insert_ne.
      * destruct (decide (c = conn)) as [->|Hne]; [left|right; exists c, w; by rewrite lookup_delete_ne].
        exists key. eexists. simpl. rewrite lookup_insert_eq. split_and!; [done..|]. simpl. congruence.
    + intros [(key' & e' & [[<- <-]|[_ Hk']]%lookup_insert_Some & Hd & <-)|(c & w & [_ Hc]%lookup_delete_Some & <-)].
      * right. exists conn, ws. split; [done|]. done.
      * left. exists key', e'. done.
      * right. eauto.
  - intros x key' e' Hx [[<- <-]|[_ Hk']]%lookup_insert_Some; [by apply (Ho x key e)|by eapply Ho].
Qed.

(** What the departure of [conn] from the entry [e] at [key] leaves. *)
Section Departure.
Context (s : GateSystem) (conn : Z) (t : Tables) (key : Z * Z) (e : Entry).
Hypothesis (HI : GInv s) (HT' : TInv t).
Hypothesis (Hk : sessions (tables s) !! key = Some e) (Hin : conn ∈ entry_conns e).
Hypothesis (Eb : by_conn t = delete conn (by_conn (tables s))) (Ec : id_counter t = id_counter (tables s)).
Hypothesis (Eas : asking s !! conn = None) (Ean : answered s !! conn = None).

Lemma others_wait c w :
  (forall key' e', key' <> key -> sessions (tables s) !! key' = Some e' -> sessions t !! key' = Some e') ->
  (forall c', c' <> conn -> c' ∈ entry_conns e -> exists e', sessions t !! key = Some e' /\ entry_id e' = entry_id e) ->
  c <> conn -> waits (tables s) c w -> waits t c w.
Proof.
  intros Hne Hsame Hc. apply waits_kept; [rewrite Eb; by rewrite lookup_delete_ne|]. intros key' e' Hbc Hk'.
  destruct (decide (key' = key)) as [->|Hd]; [|eauto]. assert (e' = e) as -> by congruence.
  apply (ti_by_conn _ (gi_tables _ HI)) in Hbc as (e' & ? & Hce). assert (e' = e) as -> by congruence. eauto.
Qed.

Lemma answered_elsewhere x : answered_id s x -> entry_conns e ∖ {[conn]} = ∅ -> x <> entry_id e.
Proof.
  intros (c & w & Hc & <-) Hemp Hid. destruct (gi_answered _ HI _ _ Hc) as (ip & e' & Hbc & Hke & Hid').
  assert ((ws_pubkey w, ip) = key) as E by (eapply (ti_ids _ (gi_tables _ HI)); [done|done|congruence]).
  apply (ti_by_conn _ (gi_tables _ HI)) in Hbc as (e2 & ? & ?). assert (e2 = e) as -> by congruence.
  assert (c <> conn) by congruence. set_solver.
Qed.

Lemma not_last_inv : entry_conns e ∖ {[conn]} <> ∅ ->
  sessions t = <[key := mkEntry (entry_id e) (entry_conns e ∖ {[conn]}) (entry_admitted e)]> (sessions (tables s)) ->
  GInv (mkGate t (asking s) (answered s) (counted s) (ended s)).
Proof.
  intros Hne Es. pose proof HI as [HT Ha Hw Hcount He Ho Hn].
  assert (forall c w, c <> conn -> waits (tables s) c w -> waits t c w) as Hkept.
  { intros c w. apply others_wait; rewrite Es; [intros; by rewrite lookup_insert_ne|].
    intros c' _ _. rewrite lookup_insert_eq. eexists. by split. }
  split; simpl; try done.
  - intros c w Hc. apply Hkept; [congruence|by apply Ha].
  - intros c w Hc. apply Hkept; [congruence|by apply Hw].
  - intros x. rewrite Hcount. apply or_iff_compat_r. unfold admitted_id. rewrite Es. split.
    + intros (key' & e' & Hk' & Hd & <-). destruct (decide (key' = key)) as [->|Hd'].
      * exists key. eexists. rewrite lookup_insert_eq. split; [done|]. simpl. assert (e' = e) as -> by congruence. done.
      * exists key', e'. by rewrite lookup_insert_ne.
    + intros (key' & e' & [[<- <-]|[_ ?]]%lookup_insert_Some & Hd & <-); [by exists key, e|by exists key', e'].
  - intros x Hx. rewrite Ec. by apply He.
  - intros x key' e' Hx. rewrite Es. intros [[<- <-]|[_ ?]]%lookup_insert_Some; [by apply (Ho x key e)|by eapply Ho].
Qed.

Lemma last_inv : entry_conns e ∖ {[conn]} = ∅ -> sessions t = delete key (sessions (tables s)) ->
  GInv (mkGate t (asking s) (answered s) (if entry_admitted e then counted s ∖ {[entry_id e]} else counted s)
          (if entry_admitted e then ended s ++ [entry_id e] else ended s)).
Proof.
  intros Hemp Es. pose proof HI as [HT Ha Hw Hcount He Ho Hn].
  assert (forall c w, c <> conn -> waits (tables s) c w -> waits t c w) as Hkept.
  { intros c w. apply others_wait; rewrite Es; [intros; by rewrite lookup_delete_ne|]. intros c' ? ?. set_solver. }
  assert (forall key' e', sessions t !! key' = Some e' -> key' <> key /\ sessions (tables s) !! key' = Some e' /\ entry_id e' <> entry_id e)
    as Hrest.
  { intros key' e'. rewrite Es. intros [? Hk']%lookup_delete_Some. split_and!; [done|done|]. intros Hid.
    assert (key' = key) by (by eapply (ti_ids _ HT)). done. }
  assert (forall x, x <> entry_id e \/ entry_admitted e = false -> admitted_id t x <-> admitted_id (tables s) x) as Had.
  { intros x Hx. unfold admitted_id. split.
    - intros (key' & e' & Hk' & ?). destruct (Hrest _ _ Hk') as (_ & ? & _). by exists key', e'.
    - intros (key' & e' & Hk' & Hd & Hid). exists key', e'. split; [|done]. rewrite Es, lookup_delete_ne; [done|].
      intros ->. assert (e' = e) as -> by congruence. destruct Hx; congruence. }
  destruct (ti_id _ HT _ _ Hk) as (n & Hn1 & Hn2).
  split; simpl; try done.
  - intros c w Hc. apply Hkept; [congruence|by apply Ha].
  - intros c w Hc. apply Hkept; [congruence|by apply Hw].
  - intros x. change (answered_id _ x) with (answered_id s x). destruct (entry_admitted e) eqn:Ead.
    + rewrite elem_of_difference, elem_of_singleton, Hcount. split.
      * intros [[?|?] ?]; [left; apply Had; auto|by right].
      * intros [Hx|Hx]; [|by eauto using answered_elsewhere]. pose proof Hx as (key' & e' & Hk' & _ & <-).
        destruct (Hrest _ _ Hk') as (_ & _ & ?). split; [left; apply Had in Hx; auto|done].
    + rewrite Hcount, Had by auto. done.
  - intros x Hx. rewrite Ec. destruct (entry_admitted e); [|by apply He].
    apply elem_of_app in Hx as [?| ->%list_elem_of_singleton]; [by apply He|eauto].
  - intros x key' e' Hx Hk'. destruct (Hrest _ _ Hk') as (_ & ? & ?). destruct (entry_admitted e); [|by eapply Ho].
    apply elem_of_app in Hx as [?| ->%list_elem_of_singleton]; [by eapply Ho|done].
  - destruct (entry_admitted e); [|done]. apply NoDup_app. split_and!; [done| |apply NoDup_singleton].
    intros x Hx ->%list_elem_of_singleton. by apply (Ho _ _ _ Hx Hk).
Qed.

End Departure.

Lemma leave_step_inv s conn : GInv s -> GInv (gate_step s (Leave conn)).
Proof.
  intros HI. simpl. destruct (asking s !! conn) eqn:Eas; [done|]. destruct (answered s !! conn) eqn:Ean; [done|].
  destruct (leave conn (tables s)) as [t o] eqn:El. pose proof (leave_tables_inv _ _ _ _ (gi_tables _ HI) El) as HT'.
  destruct (leave_shape _ _ _ _ (gi_tables _ HI) El)
    as [(_ & -> & ->)|(key & e & Hb & Hk & Hin & Eb & Ec & [(Hemp & Es & ->)|(Hne & -> & Es)])]; [by destruct s| |].
  - enough (GInv (mkGate t (asking s) (answered s) (if entry_admitted e then counted s ∖ {[entry_id e]} else counted s)
      (if entry_admitted e then ended s ++ [entry_id e] else ended s))) by (by destruct (entry_admitted e)).
    by eapply last_inv.
  - by eapply not_last_inv.
Qed.

(** ** Every run *)

Lemma gate_counter s ev : 0 <= id_counter (tables s) < 2 ^ 64 - 1 -> TInv (tables s) ->
  0 <= id_counter (tables (gate_step s ev)) <= id_counter (tables s) + 1.
Proof.
  intros Hc HT. destruct ev as [pk ip conn|conn yes|conn|conn]; simpl.
  - case_match; [lia|]. destruct (slot session_id pk ip conn (tables s)) eqn:E. simpl.
    destruct (slot_shape _ _ _ _ _ _ Hc E) as (_ & _ & -> & _). case_bool_decide; lia.
  - case_match; simpl; lia.
  - case_match; simpl; [|lia]. unfold mark_admitted. repeat case_match; simpl; lia.
  - destruct (asking s !! conn), (answered s !! conn); try lia. destruct (leave conn (tables s)) as [t o] eqn:El. simpl.
    destruct (leave_shape _ _ _ _ HT El) as [(_ & -> & _)|(? & ? & _ & _ & _ & _ & -> & _)]; lia.
Qed.

Lemma gate_run_inv evs : forall s, id_counter (tables s) + Z.of_nat (length evs) < 2 ^ 64 -> 0 <= id_counter (tables s) ->
  GInv s -> GInv (gate_run s evs).
Proof.
  induction evs as [|ev evs IH]; intros s Hn H0 HI; [done|]. cbn [length] in Hn.
  pose proof (gate_counter s ev ltac:(lia) (gi_tables _ HI)) as Hc. apply IH; [lia..|].
  destruct ev; [by apply join_inv; [lia|]|by apply answer_inv|by apply mark_step_inv|by apply leave_step_inv].
Qed.

(** The sessions the registry lists are the admitted ones. *)
Lemma live_session_ids t x : x ∈ (ws_id <$> live_sessions t) <-> admitted_id t x.
Proof.
  unfold live_sessions, admitted_id. rewrite list_elem_of_fmap. setoid_rewrite list_elem_of_fmap.
  setoid_rewrite list_elem_of_filter. split.
  - intros (ws & -> & [key e] & -> & Ha & Hin). apply elem_of_map_iter in Hin. eauto.
  - intros (key & e & Hk & Ha & <-). eexists. split; [|exists (key, e); split; [done|split; [done|by apply elem_of_map_iter]]]. done.
Qed.

(** C10.  The deployer's count of wallet sessions is right: after any setups, answers of
    the gate and departures, in any order, what the deployer counts is exactly the
    sessions the registry lists and those the gate has just admitted, and no session is
    reported as ended twice or while it is listed. *)
Theorem wallet_sessions_counted evs :
  Z.of_nat (length evs) < 2 ^ 64 ->
  let s := gate_run gate_initial evs in
  (forall x, x ∈ counted s <-> x ∈ (ws_id <$> live_sessions (tables s)) \/ answered_id s x) /\
  NoDup (ended s) /\ (forall x, x ∈ ended s -> x ∉ (ws_id <$> live_sessions (tables s))).
Proof.
  intros Hn s. assert (GInv s) as HI.
  { apply gate_run_inv; simpl; [lia..|]. split; simpl.
    - split; try done. intros c key. split; [done|]. naive_solver.
    - done.
    - done.
    - intros x. split; [set_solver|]. intros [(? & ? & ? & _)|(? & ? & ? & _)]; done.
    - set_solver.
    - set_solver.
    - apply NoDup_nil_2. }
  split_and!.
  - intros x. by rewrite live_session_ids, (gi_counted _ HI).
  - apply HI.
  - intros x Hx. rewrite live_session_ids. intros (key & e & Hk & _ & Hid). by apply (gi_over _ HI x key e).
Qed.

End Gate.

Lemma wallet_sessions_counted_witness :
  let s := gate_run (fun n => n) gate_initial
             [Join 1 10 100; Join 1 10 101; GateAnswers 100 true; Join 2 11 102; Mark 100; GateAnswers 102 false; Leave 102;
              Leave 100; GateAnswers 101 true; Mark 101; Leave 101] in
  counted s = ∅ /\ ended s = [0] /\ NoDup (ended s).
Proof.
  split; [by vm_compute|]. split; [by vm_compute|].
  apply (wallet_sessions_counted (fun n => n)); [|done]. intros a b _ _ E. exact E.
Defined.
