(* ===== verification/Tasks.v ===== *)
(** Tasks that share state, as resumptions.

    An asynchronous function of the exit is a sequence of sections, each of which runs
    under one lock; whatever else the exit does happens between them.  [Task S A] is
    such a function over the shared state [S]: it is finished, or it is a section that
    says how it changes the state and how the function goes on.  [history R] are its
    runs when the rest of the exit changes the state by steps of [R] in between, and
    [guarantee G] says that every section changes the state by a step of [G], whatever
    it finds. *)

From S2P Require Import Prelude.

Inductive Task (S A : Type) : Type :=
| Finished (a : A)
| Locked (f : S -> S * Task S A).
Arguments Finished {S A} a.
Arguments Locked {S A} f.

(** Induction through the sections. *)
Definition task_ind {S A} (Q : Task S A -> Prop) (HF : forall a, Q (Finished a))
  (HL : forall f, (forall s, Q (snd (f s))) -> Q (Locked f)) : forall t, Q t :=
  fix go t :=
    match t with
    | Finished a => HF a
    | Locked f => HL f (fun s => match f s as x return Q (snd x) with (_, t') => go t' end)
    end.

Fixpoint bind {S A B} (t : Task S A) (k : A -> Task S B) : Task S B :=
  match t with
  | Finished a => k a
  | Locked f => Locked (fun s => match f s with (s', t') => (s', bind t' k) end)
  end.

Declare Scope task_scope.
Delimit Scope task_scope with task.
Notation "x <-- t ; k" := (bind t (fun x => k))
  (at level 100, t at next level, k at level 200, right associativity) : task_scope.
Notation "t ;; k" := (bind t (fun _ => k)) (at level 100, k at level 200, right associativity) : task_scope.

(** A section that gives a value, one that only changes, one that only reads. *)
Definition section {S A} (f : S -> S * A) : Task S A :=
  Locked (fun s => match f s with (s', a) => (s', Finished a) end).
Definition update {S} (f : S -> S) : Task S unit := section (fun s => (f s, tt)).
Definition read {S A} (f : S -> A) : Task S A := section (fun s => (s, f s)).

Definition when {S} (b : bool) (t : Task S unit) : Task S unit := if b then t else Finished tt.

(** ** Histories *)

Section Histories.
Context {S : Type}.
Variable R : S -> S -> Prop.

(** The state before, the states each section finds and leaves, the result and the state after. *)
Inductive history {A} : Task S A -> S -> list (S * S) -> A -> S -> Prop :=
| history_finished a s s' : R s s' -> history (Finished a) s [] a s'
| history_locked f s s1 s2 t tr a s' :
    R s s1 -> f s1 = (s2, t) -> history t s2 tr a s' -> history (Locked f) s ((s1, s2) :: tr) a s'.

Context `{HR : !PreOrder R}.

Lemma history_env {A} (t : Task S A) s s1 tr a s' : R s s1 -> history t s1 tr a s' -> history t s tr a s'.
Proof using HR.
  intros HRs Hh. destruct Hh as [a s1 s' Hr|f s1 s2 s3 t tr a s' Hr Hf Hh].
  - constructor. by etrans.
  - econstructor; [by etrans|done|done].
Qed.

Lemma history_env_end {A} (t : Task S A) s tr a s1 s' : history t s tr a s1 -> R s1 s' -> history t s tr a s'.
Proof using HR.
  intros Hh. induction Hh as [a s s1 Hr|f s s2 s3 t tr a s1 Hr Hf Hh IH]; intros HRs.
  - constructor. by etrans.
  - econstructor; [done|done|by apply IH].
Qed.

Lemma history_bind {A B} (t : Task S A) (k : A -> Task S B) s tr b s' :
  history (bind t k) s tr b s' <->
    exists a s1 tr1 tr2, tr = tr1 ++ tr2 /\ history t s tr1 a s1 /\ history (k a) s1 tr2 b s'.
Proof using HR.
  split.
  - revert s tr. induction t as [a|f IH] using task_ind; intros s tr Hh.
    + exists a, s, [], tr. split; [done|]. split; [by constructor|done].
    + simpl in Hh. inversion Hh as [|f' s0 s1 s2 t tr' b' s'' Hr Hf Hk]; subst.
      specialize (IH s1). destruct (f s1) as [s3 t'] eqn:Ef. injection Hf as <- <-.
      destruct (IH s3 tr' Hk) as (a & s4 & tr1 & tr2 & -> & H1 & H2). exists a, s4, ((s1, s3) :: tr1), tr2.
      split; [done|]. split; [|done]. by econstructor.
  - intros (a & s1 & tr1 & tr2 & -> & H1 & H2). revert s tr1 b s' H1 H2.
    induction t as [a0|f IH] using task_ind; intros s tr1 b s' H1 H2.
    + inversion H1; subst. by eapply history_env.
    + inversion H1 as [|f' s0 s2 s3 t tr' b' s'' Hr Hf Hk]; subst. simpl.
      specialize (IH s2). rewrite Hf in IH. simpl in IH.
      apply history_locked with (s1 := s2) (s2 := s3) (t := bind t k); [done|by rewrite Hf|]. by eapply IH.
Qed.

Lemma history_section {A} (f : S -> S * A) s tr a s' :
  history (section f) s tr a s' <-> exists s1, tr = [(s1, fst (f s1))] /\ R s s1 /\ a = snd (f s1) /\ R (fst (f s1)) s'.
Proof using Type.
  split.
  - intros Hh. inversion Hh as [|f' s0 s1 s2 t tr' b' s'' Hr Hf Hk]; subst. exists s1.
    destruct (f s1) as [s3 b]. injection Hf as <- <-. by inversion Hk; subst.
  - intros (s1 & -> & H1 & -> & H2). destruct (f s1) as [s2 a] eqn:Ef. simpl in *.
    apply history_locked with (s1 := s1) (s2 := s2) (t := Finished a); [done|by rewrite Ef|by constructor].
Qed.

Lemma history_done {A} (a b : A) s tr s' : history (Finished a) s tr b s' <-> tr = [] /\ a = b /\ R s s'.
Proof using Type. split; [intros Hh; by inversion Hh|intros (-> & -> & ?); by constructor]. Qed.

(** The task is a section, or has returned. *)
Lemma history_read {A} (f : S -> A) s tr a s' :
  history (read f) s tr a s' <-> exists s1, tr = [(s1, s1)] /\ R s s1 /\ a = f s1 /\ R s1 s'.
Proof using Type. apply history_section. Qed.

Lemma history_update (f : S -> S) s tr a s' :
  history (update f) s tr a s' <-> exists s1, tr = [(s1, f s1)] /\ R s s1 /\ R (f s1) s'.
Proof using Type.
  unfold update. rewrite history_section. simpl. split.
  - intros (s1 & -> & H1 & _ & H2). by exists s1.
  - intros (s1 & -> & H1 & H2). exists s1. by destruct a.
Qed.

End Histories.

(** The task alone: the states its sections find and leave, its result and the state after. *)
Fixpoint alone {S A} (t : Task S A) (s : S) : list (S * S) * A * S :=
  match t with
  | Finished a => ([], a, s)
  | Locked f =>
      match f s with
      | (s1, t') => match alone t' s1 with (tr, a, s') => ((s, s1) :: tr, a, s') end
      end
  end.

Lemma alone_history {S A} (R : S -> S -> Prop) `{HR : !Reflexive R} (t : Task S A) s tr a s' :
  alone t s = (tr, a, s') -> history R t s tr a s'.
Proof.
  revert s tr. induction t as [b|f IH] using task_ind; intros s tr; simpl.
  - intros [= <- <- <-]. by constructor.
  - specialize (IH s). destruct (f s) as [s1 t'] eqn:Ef. simpl in IH.
    destruct (alone t' s1) as [[tr1 a1] s2] eqn:E. intros [= <- -> ->]. econstructor; [reflexivity|done|by apply IH].
Qed.

(** ** Guarantees *)

Fixpoint guarantee {S A} (G : S -> S -> Prop) (t : Task S A) : Prop :=
  match t with
  | Finished _ => True
  | Locked f => forall s, match f s with (s', t') => G s s' /\ guarantee G t' end
  end.

Section Guarantees.
Context {S : Type}.
Variable G : S -> S -> Prop.

Lemma guarantee_bind {A B} (t : Task S A) (k : A -> Task S B) :
  guarantee G t -> (forall a, guarantee G (k a)) -> guarantee G (bind t k).
Proof.
  intros Ht Hk. induction t as [a|f IH] using task_ind; simpl in *; [done|]. intros s. specialize (Ht s). specialize (IH s).
  destruct (f s) as [s' t']. simpl in IH. destruct Ht as [? Ht]. auto.
Qed.

Lemma guarantee_section {A} (f : S -> S * A) : (forall s, G s (fst (f s))) -> guarantee G (section f).
Proof. intros Hf s. specialize (Hf s). by destruct (f s). Qed.

Lemma guarantee_update (f : S -> S) : (forall s, G s (f s)) -> guarantee G (update f).
Proof. intros Hf. by apply guarantee_section. Qed.

Lemma guarantee_read {A} (f : S -> A) : (forall s, G s s) -> guarantee G (read f).
Proof. intros Hf. by apply guarantee_section. Qed.

Lemma guarantee_finished {A} (a : A) : guarantee G (Finished a : Task S A).
Proof. done. Qed.

Lemma guarantee_when (b : bool) t : (b = true -> guarantee G t) -> guarantee G (when b t).
Proof. destruct b; [by intros H; apply H|done]. Qed.

End Guarantees.

(** A property that neither the task nor the rest of the exit takes away. *)
Lemma history_keeps {S A} (R : S -> S -> Prop) (I : S -> Prop) (t : Task S A) s tr a s' :
  (forall s s', R s s' -> I s -> I s') -> guarantee (fun s s' => I s -> I s') t ->
  history R t s tr a s' -> I s -> I s'.
Proof.
  intros HR Hg Hh. induction Hh as [a s s' Hr|f s s1 s2 t tr a s' Hr Hf Hh IH]; [by apply HR|].
  intros HI. simpl in Hg. specialize (Hg s1). rewrite Hf in Hg. destruct Hg as [H1 H2]. eauto.
Qed.

(** ** Triples *)

Section Triples.
Context {S : Type}.
Variable R : S -> S -> Prop.
Context `{HR : !PreOrder R}.

(** The rest of the exit does not take it away. *)
Definition stable (Q : S -> Prop) : Prop := forall s s', R s s' -> Q s -> Q s'.

(** Started where [P] holds, and left alone as far as [R] goes, the task ends where [Q]
    holds of its result. *)
Definition triple {A} (P : S -> Prop) (t : Task S A) (Q : A -> S -> Prop) : Prop :=
  forall s tr a s', history R t s tr a s' -> P s -> Q a s'.

Lemma triple_bind {A B} P (t : Task S A) M (k : A -> Task S B) Q :
  triple P t M -> (forall a, triple (M a) (k a) Q) -> triple P (bind t k) Q.
Proof using HR. intros Ht Hk s tr b s' (a & s1 & tr1 & tr2 & -> & H1 & H2)%history_bind HP; [|done]. eapply Hk; eauto. Qed.

Lemma triple_section {A} P (f : S -> S * A) Q :
  stable P -> (forall a, stable (Q a)) -> (forall s, P s -> Q (snd (f s)) (fst (f s))) -> triple P (section f) Q.
Proof using Type.
  intros HP HQ Hf s tr a s' (s1 & -> & H1 & -> & H2)%history_section Hs. eapply HQ; [done|]. eauto.
Qed.

Lemma triple_update P (f : S -> S) Q : stable P -> stable Q -> (forall s, P s -> Q (f s)) -> triple P (update f) (fun _ => Q).
Proof using Type. intros. by apply triple_section. Qed.

Lemma triple_finished {A} (a : A) P Q : stable P -> (forall s, P s -> Q a s) -> triple P (Finished a) Q.
Proof using Type. intros HP HQ s tr b s' (-> & <- & Hr)%history_done Hs. eauto. Qed.

Lemma triple_weaken {A} (P P' : S -> Prop) (t : Task S A) (Q Q' : A -> S -> Prop) :
  (forall s, P s -> P' s) -> triple P' t Q' -> (forall a s, Q' a s -> Q a s) -> triple P t Q.
Proof using Type. intros HP Ht HQ s tr a s' Hh Hs. eauto. Qed.

Lemma triple_pure {A} P (Φ : Prop) (t : Task S A) Q : (Φ -> triple P t Q) -> triple (fun s => P s /\ Φ) t Q.
Proof using Type. intros Ht s tr a s' Hh [HP HΦ]. by eapply Ht. Qed.

Lemma triple_keeps {A} P (t : Task S A) : stable P -> guarantee (fun s s' => P s -> P s') t -> triple P t (fun _ => P).
Proof using Type. intros HP Hg s tr a s' Hh. by eapply history_keeps. Qed.

(** A task whose sections are steps the others might have made. *)
Lemma triple_stays {A} P (t : Task S A) : stable P -> guarantee R t -> triple P t (fun _ => P).
Proof using Type.
  intros HP Hg. apply triple_keeps; [done|]. revert Hg. induction t as [a|f IH] using task_ind; simpl; [done|].
  intros Hg s. specialize (Hg s). specialize (IH s). destruct (f s) as [s' t']. destruct Hg as [Hg1 Hg2].
  split; [by apply HP|by apply IH].
Qed.

End Triples.
