(* ===== verification/ExitSetup.v ===== *)
(** Setup and teardown of a connection at the exit
    ([crates/warrenguard-multihop-server/src/multihop.rs]: [process_setup_frame],
    [terminate_connection] and what they call; [multihop/route.rs]: [RouteGate];
    [warrenguard-multihop/src/pop.rs]).

    The functions are tasks over the state all connections share ([Exit]): a section is
    one lock taken.  What comes from outside is an argument: the verdicts of the
    deployer's policies, the clocks, whether a write on the setup stream succeeds, and
    the signature check of [ed25519-dalek].  The cold-start grace only waits, and the
    log lines are left out.  Public keys and serials are their 256-bit values. *)

From stdpp Require Import strings.
From S2P Require Import Prelude ReplayWindow MultihopSession PqSession ExitReceive Control IpHoldings IpPool IpPoolV6 RouteTable.
From S2P Require Import StatusCodes SessionRegistry Allowlist Tasks.
Import MultihopSession.

#[local] Open Scope Z_scope.
#[local] Open Scope task_scope.

Definition WARREN_MH_REJECTED : Z := 0x574D5231.
Definition WARREN_MH_DRAINING : Z := 0x574D4431.
Definition POP_CONTEXT_V2 : list Z := bytes_of_string "warren/multihop/pop/v2".

Definition pop_signing_message (exit_id encapsulated_key : list Z) : list Z :=
  POP_CONTEXT_V2 ++ exit_id ++ encapsulated_key.

(** ** Verdicts *)

(** [None] is a verdict this build does not know. *)
Inductive RouteAdmission := RouteAdmit (route_serial : Z) | RouteRefuse (code : RouteRejectCode.t).
Inductive WalletAdmission := WalletAdmit | WalletDeviceLimit | WalletRetired.

Inductive Admission := Authorized | Banned (reason_code : Z) | NotAuthorized.

Inductive SessionRateKey := RateToken (serial : Z) | RateRoute (serial : Z) | RateWallet (pubkey : Z).

Record IpAssignSpec := mkSpec {
  assigned : Z;
  gateway : Z;
  prefix_len : Z;
  assigned_v6 : option Z;
  gateway_v6 : option Z;
  prefix_len_v6 : Z;
}.

Definition into_control_message (s : IpAssignSpec) (daita_spec : option DaitaConfig) : WarrenControlMessage :=
  IpAssign (be_bytes 4 (assigned s)) (prefix_len s) (be_bytes 4 (gateway s))
    (be_bytes 16 <$> assigned_v6 s) (prefix_len_v6 s) (be_bytes 16 <$> gateway_v6 s) daita_spec.

Definition token_refusal_detail (request : WarrenControlMessage) (in_use : bool) : WarrenControlMessage :=
  match request with
  | IpRequestV7Detailed _ _ _ _ =>
      TokenRejected (TokenRejectCode.code (if in_use then TokenRejectCode.SerialInUse else TokenRejectCode.Unspecified))
  | _ => Rejected
  end.

Inductive Counted := CountSetup (a : SetupAdmission.t) | CountRoute (refused : option RouteRejectCode.t).

(** What the exit is configured with, what is attached to it, and the calls it makes. *)
Class ExitConfig (H : Hpke) (C : PqCrypto H) := mkConfig {
  our_exit_id : list Z;
  privkey : PrivateKey;
  (** the exit published an ML-KEM key *)
  pq : bool;
  xwing_secret : XWingRecipientSecretKey H;
  has_allowlist : bool;
  has_registry : bool;
  token_admitter : option (list SessionToken -> TokenAdmission);
  (** [None] is a verdict this build does not know *)
  wallet_gate : option (WalletSession -> option WalletAdmission);
  (** the outer [None] is a timeout *)
  route_admitter : option (SealedToApi -> option (option RouteAdmission));
  session_id : Z -> Z;
  (** [VerifyingKey::from_bytes] and [verify_strict]: key, message and signature *)
  verify_strict : list Z -> list Z -> list Z -> bool;
}.

(** One connection: its names, and what its setup meets, namely clocks, the creation
    bucket, the limits of the route gate, the peers as the router sees them, and whether
    the reply stream takes the reply. *)
Class Connection := mkConnection {
  conn_id : Z;
  conn : nat;
  down_tx : nat;
  control_tx : nat;
  activity : nat;
  offered_daita : option DaitaConfig;
  m_instant : Z;
  m_budget : bool;
  m_unix_gate : Z;
  m_unix_recheck : Z;
  m_route_bucket : bool;
  m_route_permit : bool;
  m_pool_instant : Z;
  m_world : World;
  m_written : bool;
  m_finished : bool;
  m_left : Z;
}.

Section Setup.
Context `{H : Hpke} `{P : Postcard} `{C : !PqCrypto H} `{Q : !PostcardV2 P} `{CP : ControlPostcard} `{M : MapOrder}.
Context {cfg : ExitConfig H C} {cn : Connection}.

Abbreviation V1Path := (v1_path privkey).
Abbreviation V2Path := (v2_path xwing_secret).

(** [closing] and [handled] are the revocation dispatcher's: the connections it has
    taken from the registry and is about to close, and the keys it has dealt with. *)
Record Exit := mkShared {
  x_cache : SessionCacheState (D := V1Path);
  x_cache_v2 : SessionCacheState (D := V2Path);
  x_windows : Heap;
  x_allow : Inner;
  x_pool : IpAllocator.t;
  x_pool_v6 : option IpAllocatorV6.t;
  x_router : MultihopTunRouter.t;
  x_registry : Registry;
  x_closed : gmap nat (Z * list Z);
  x_replies : list (nat * list Z);
  x_counted : list Counted;
  x_effects : list Effect;
  closing : list nat;
  handled : gset Z;
}.

Definition set_cache c h (x : Exit) : Exit :=
  mkShared c (x_cache_v2 x) h (x_allow x) (x_pool x) (x_pool_v6 x) (x_router x) (x_registry x) (x_closed x)
    (x_replies x) (x_counted x) (x_effects x) (closing x) (handled x).
Definition set_cache_v2 c h (x : Exit) : Exit :=
  mkShared (x_cache x) c h (x_allow x) (x_pool x) (x_pool_v6 x) (x_router x) (x_registry x) (x_closed x)
    (x_replies x) (x_counted x) (x_effects x) (closing x) (handled x).
Definition set_windows h (x : Exit) : Exit :=
  mkShared (x_cache x) (x_cache_v2 x) h (x_allow x) (x_pool x) (x_pool_v6 x) (x_router x) (x_registry x) (x_closed x)
    (x_replies x) (x_counted x) (x_effects x) (closing x) (handled x).
Definition set_pool p (x : Exit) : Exit :=
  mkShared (x_cache x) (x_cache_v2 x) (x_windows x) (x_allow x) p (x_pool_v6 x) (x_router x) (x_registry x) (x_closed x)
    (x_replies x) (x_counted x) (x_effects x) (closing x) (handled x).
Definition set_pool_v6 p (x : Exit) : Exit :=
  mkShared (x_cache x) (x_cache_v2 x) (x_windows x) (x_allow x) (x_pool x) p (x_router x) (x_registry x) (x_closed x)
    (x_replies x) (x_counted x) (x_effects x) (closing x) (handled x).
Definition set_router r (x : Exit) : Exit :=
  mkShared (x_cache x) (x_cache_v2 x) (x_windows x) (x_allow x) (x_pool x) (x_pool_v6 x) r (x_registry x) (x_closed x)
    (x_replies x) (x_counted x) (x_effects x) (closing x) (handled x).
Definition set_registry r es (x : Exit) : Exit :=
  mkShared (x_cache x) (x_cache_v2 x) (x_windows x) (x_allow x) (x_pool x) (x_pool_v6 x) (x_router x) r (x_closed x)
    (x_replies x) (x_counted x) (x_effects x ++ es) (closing x) (handled x).

(** [Connection::close]: the first one counts. *)
Definition close (conn : nat) (code : Z) (reason : list Z) (x : Exit) : Exit :=
  mkShared (x_cache x) (x_cache_v2 x) (x_windows x) (x_allow x) (x_pool x) (x_pool_v6 x) (x_router x) (x_registry x)
    (match x_closed x !! conn with Some _ => x_closed x | None => <[conn := (code, reason)]> (x_closed x) end)
    (x_replies x) (x_counted x) (x_effects x) (closing x) (handled x).
Definition write_reply (conn : nat) (bytes : list Z) (x : Exit) : Exit :=
  mkShared (x_cache x) (x_cache_v2 x) (x_windows x) (x_allow x) (x_pool x) (x_pool_v6 x) (x_router x) (x_registry x)
    (x_closed x) (x_replies x ++ [(conn, bytes)]) (x_counted x) (x_effects x) (closing x) (handled x).
Definition count (n : Counted) (x : Exit) : Exit :=
  mkShared (x_cache x) (x_cache_v2 x) (x_windows x) (x_allow x) (x_pool x) (x_pool_v6 x) (x_router x) (x_registry x)
    (x_closed x) (x_replies x) (x_counted x ++ [n]) (x_effects x) (closing x) (handled x).

Abbreviation T := (Task Exit).

(** ** The setup frame *)

Inductive SetupTermination :=
| TermV1 (session : ExitSession) (frame : WarrenMultihopFrame) (replay : nat)
| TermV2 (session : PqExitSession) (frame : WarrenMultihopFrameV2) (replay : nat).

Definition term_encapsulated_key (t : SetupTermination) : list Z :=
  match t with TermV1 _ f _ => encapsulated_key f | TermV2 _ f _ => v2_encapsulated_key f end.
Definition term_epoch (t : SetupTermination) : Z :=
  match t with TermV1 _ f _ => epoch f | TermV2 _ f _ => v2_epoch f end.
Definition term_seq (t : SetupTermination) : Z :=
  match t with TermV1 _ f _ => seq f | TermV2 _ f _ => v2_seq f end.
Definition term_replay (t : SetupTermination) : nat :=
  match t with TermV1 _ _ r | TermV2 _ _ r => r end.

Definition term_open (t : SetupTermination) : result (list Z) (MultihopError H P) :=
  match t with TermV1 s f _ => open s f | TermV2 s f _ => pq_open s f end.

Definition result_ok {A E} (r : result A E) : option A := match r with Ok a => Some a | Err _ => None end.

Definition seal_reply (t : SetupTermination) (plaintext : list Z) (epoch seq : Z) : option (list Z) :=
  match t with
  | TermV1 s _ _ => f ← result_ok (seal_response s plaintext epoch seq); result_ok (encode_frame f)
  | TermV2 s _ _ => f ← result_ok (pq_seal_response s plaintext epoch seq); result_ok (encode_frame_v2 f)
  end.

(** [PqSessionCache::establish_or_get_at]. *)
Definition establish_or_get_at (c : SessionCacheState (D := V2Path)) (h : Heap) (encapsulated_key pq_ct : list Z)
  (now : Z) (budget : bool) :=
  get_or_insert_at (D := V2Path) SESSION_CACHE_TTL c h encapsulated_key
    (pq_exit_new xwing_secret encapsulated_key pq_ct our_exit_id) now budget.

Definition build_setup_termination (bytes : list Z) (now : Z) (budget : bool) : T (option SetupTermination) :=
  if bool_decide (head bytes = Some WARREN_HPKE_VERSION_V2) then
    if negb pq then Finished None
    else
      match decode_frame_v2 bytes with
      | Err _ => Finished None
      | Ok f =>
          if negb (bool_decide (v2_exit_id f = our_exit_id)) then Finished None
          else if bool_decide (v2_pq_ct f = []) then Finished None
          else
            section (fun x =>
              let '(c, h, r) := establish_or_get_at (x_cache_v2 x) (x_windows x) (v2_encapsulated_key f) (v2_pq_ct f) now budget in
              (set_cache_v2 c h x,
               match r with Ok hd => Some (TermV2 (session hd) f (replay_windows hd)) | Err _ => None end))
      end
  else
    match decode_frame bytes with
    | Err _ => Finished None
    | Ok f =>
        if negb (bool_decide (exit_id f = our_exit_id)) then Finished None
        else
          section (fun x =>
            let '(c, h, r) :=
              get_or_insert_at (D := V1Path) SESSION_CACHE_TTL (x_cache x) (x_windows x) (encapsulated_key f)
                (exit_new privkey (encapsulated_key f) our_exit_id) now budget in
            (set_cache c h x,
             match r with Ok hd => Some (TermV1 (session hd) f (replay_windows hd)) | Err _ => None end))
    end.

(** The replay check of the setup frame, in the windows of its session. *)
Definition check_replay (t : SetupTermination) : T bool :=
  section (fun x =>
    match x_windows x !! term_replay t with
    | None => (x, false)
    | Some m =>
        let '(m, r) := epoch_check_and_record m (term_seq t) (term_epoch t) in
        (set_windows (<[term_replay t := m]> (x_windows x)) x, is_ok r)
    end).

(** ** Authorization *)

Definition verify_pop (client_pubkey encapsulated_key sig : list Z) : bool :=
  verify_strict client_pubkey (pop_signing_message our_exit_id encapsulated_key) sig.

(** [AllowlistHandle::is_allowed_at], which takes two locks one after the other. *)
Definition allowed_at (pubkey now : Z) : T bool :=
  revoked <-- read (fun x => crl_contains (x_allow x) pubkey);
  if revoked : bool then Finished false else read (fun x => entry_live (x_allow x) pubkey now).

Definition classify_admission (control_msg : option WarrenControlMessage) (encapsulated_key : list Z) (now : Z) : T Admission :=
  if negb has_allowlist then Finished Authorized
  else
    match control_msg with
    | Some (IpRequest _ (Some pubkey) _ (Some sig) _) =>
        if negb (verify_pop pubkey encapsulated_key sig) then Finished NotAuthorized
        else
          ok <-- allowed_at (be_val pubkey) now;
          if ok : bool then Finished Authorized
          else
            code <-- read (fun x => crl_reason_code (x_allow x) (be_val pubkey));
            Finished match code with Some reason_code => Banned reason_code | None => NotAuthorized end
    | _ => Finished NotAuthorized
    end.

(** [MultihopSessionRegistry::is_token_serial_live]: the keys, then their leases. *)
Definition is_token_serial_live_task (serial : Z) : T bool :=
  keys <-- read (fun x => token_keys (x_registry x));
  read (fun x => bool_decide (serial ∈ lease_serials_of keys (x_registry x))).

Definition serial_held_by_another_session (serial : Z) (prefer_ipv4 : option (list Z)) : T bool :=
  if negb has_registry then Finished false
  else
    live <-- is_token_serial_live_task serial;
    if negb live then Finished false
    else
      match from_prefer_ipv4 prefer_ipv4 with
      | Legacy => Finished false
      | Fresh => Finished true
      | Join addr => read (fun x => negb (IpAllocator.held_by_pubkey (x_pool x) addr serial))
      end.

(** ** Addresses *)

Definition allocate_v4 (conn_id : Z) (sticky_pubkey : option Z) (dual_stack : bool) (intent : SessionIntent) (now : Z)
  (p : IpAllocator.t) : IpAllocator.t * option Z :=
  match sticky_pubkey with
  | Some pk =>
      if dual_stack then IpAllocator.allocate_for_pubkey_with_intent conn_id pk intent now p
      else IpAllocator.allocate_for_pubkey_reclaiming conn_id pk intent now p
  | None => IpAllocator.allocate conn_id p
  end.

Definition allocate_v6 (conn_id : Z) (sticky_pubkey : option Z) (intent : SessionIntent) (siblings : list Z)
  (p : IpAllocatorV6.t) : IpAllocatorV6.t * option Z :=
  match sticky_pubkey with
  | Some pk =>
      IpAllocatorV6.allocate_for_pubkey_with_intent conn_id pk
        match intent with
        | Legacy => LegacyV6
        | _ => if bool_decide (siblings = []) then FreshV6 else JoinV6 siblings
        end p
  | None => IpAllocatorV6.allocate conn_id p
  end.

(** Whether there is a pool of IPv6 addresses does not change; it is read from the state. *)
Definition allocate_on_first_frame (conn_id : Z) (sticky_pubkey : option Z) (wants_ipv6 : bool)
  (prefer_ipv4 : option (list Z)) (now : Z) : T (option IpAssignSpec) :=
  let intent := from_prefer_ipv4 prefer_ipv4 in
  v4 <-- section (fun x =>
    let dual_stack := wants_ipv6 && bool_decide (is_Some (x_pool_v6 x)) in
    let '(p, r) := allocate_v4 conn_id sticky_pubkey dual_stack intent now (x_pool x) in
    (set_pool p x,
     (fun a => (a, IpAllocator.gateway p, IpAllocator.prefix_len p,
                filter (fun c => c <> conn_id) (IpAllocator.conns_holding p a))) <$> r));
  match v4 with
  | None => Finished None
  | Some (assigned, gateway, prefix, siblings) =>
      v6 <-- (if negb wants_ipv6 then Finished None
              else section (fun x =>
                match x_pool_v6 x with
                | None => (x, None)
                | Some p =>
                    let '(p, r) := allocate_v6 conn_id sticky_pubkey intent siblings p in
                    (set_pool_v6 (Some p) x, (fun a => (a, IpAllocatorV6.gateway p)) <$> r)
                end));
      Finished (Some match v6 with
                     | Some (a6, g6) => mkSpec assigned gateway prefix (Some a6) (Some g6) 64
                     | None => mkSpec assigned gateway prefix None None 0
                     end)
  end.

(** ** The setup of one connection *)

(** [RouteGate::admit_route]; [None] from the policy is its timeout. *)
Definition admit_route (policy : SealedToApi -> option (option RouteAdmission)) (locator : SealedToApi) : option RouteAdmission :=
  let unavailable := Some (RouteRefuse RouteRejectCode.Unavailable) in
  if negb m_route_bucket then unavailable
  else if negb m_route_permit then unavailable
  else default unavailable (policy locator).

(** What an authorized client is served with. *)
Record Grant := mkGrant {
  g_sticky : option Z;
  g_ipv6 : bool;
  g_daita : bool;
  g_token : option Z;
  g_prefer : option (list Z);
  g_route : option (Z * SealedToApi);
}.

(** The grant, or the detail the refused client is told. *)
Definition authorize (control_msg : option WarrenControlMessage) (encapsulated_key : list Z)
  : T (result Grant WarrenControlMessage) :=
  let v7 request prefer_ipv4 wants_ipv6 session_tokens wants_daita :=
    let admitted := match token_admitter with Some admitter => admitter session_tokens | None => Reject end in
    match admitted with
    | Admit serial =>
        held <-- serial_held_by_another_session serial prefer_ipv4;
        if held : bool then
          update (count (CountSetup SetupAdmission.TokenRefused));;
          Finished (Err (token_refusal_detail request true))
        else
          update (count (CountSetup SetupAdmission.TokenAdmitted));;
          Finished (Ok (mkGrant (Some serial) wants_ipv6 wants_daita (Some serial) prefer_ipv4 None))
    | refusal =>
        update (count (CountSetup SetupAdmission.TokenRefused));;
        Finished (Err (token_refusal_detail request (bool_decide (refusal = SerialInUse))))
    end in
  match control_msg with
  | Some (IpRequestRoute prefer_ipv4 wants_ipv6 route_locator wants_daita) =>
      let verdict :=
        match route_admitter, has_registry with
        | Some policy, true => admit_route policy route_locator
        | _, _ => Some (RouteRefuse RouteRejectCode.NotOffered)
        end in
      match verdict with
      | Some (RouteAdmit serial) =>
          update (count (CountRoute None));;
          Finished (Ok (mkGrant (Some serial) wants_ipv6 wants_daita None prefer_ipv4 (Some (serial, route_locator))))
      | Some (RouteRefuse code) =>
          update (count (CountRoute (Some code)));;
          Finished (Err (RouteRejected (RouteRejectCode.code code)))
      | None =>
          update (count (CountRoute (Some RouteRejectCode.Unspecified)));;
          Finished (Err (RouteRejected 0))
      end
  | Some (IpRequestV7 prefer_ipv4 wants_ipv6 session_tokens wants_daita as request) =>
      v7 request prefer_ipv4 wants_ipv6 session_tokens wants_daita
  | Some (IpRequestV7Detailed prefer_ipv4 wants_ipv6 session_tokens wants_daita as request) =>
      v7 request prefer_ipv4 wants_ipv6 session_tokens wants_daita
  | other =>
      verdict <-- classify_admission other encapsulated_key m_unix_gate;
      match verdict with
      | Authorized =>
          Finished (Ok match other with
                       | Some (IpRequest prefer_ipv4 client_pubkey wants_ipv6 _ wants_daita) =>
                           mkGrant (be_val <$> client_pubkey) wants_ipv6 wants_daita None prefer_ipv4 None
                       | _ => mkGrant None false false None None None
                       end)
      | refusal =>
          when (match other with Some (IpRequest _ _ _ _ _) => true | _ => false end)
            (update (count (CountSetup SetupAdmission.WalletRefused)));;
          Finished (Err match refusal with Banned reason_code => RejectedBanned reason_code | _ => Rejected end)
      end
  end.

(** [reply_sealed_detail_then_close]. *)
Definition refuse (term : SetupTermination) (reverse_seq : Z) (detail : WarrenControlMessage) : T unit :=
  match result_ok (encode_control detail) ≫= fun p => seal_reply term p (term_epoch term) reverse_seq with
  | Some bytes => when m_written (update (write_reply conn bytes))
  | None => Finished tt
  end;;
  update (close conn WARREN_MH_REJECTED []).

(** [SessionGuard::drop], which is [unregister_key]: its sections one by one. *)
Definition drop_guard (key : SessionKey) : T unit :=
  update (fun x => set_registry (detach_control key conn_id (x_registry x)) [] x);;
  update (fun x => let '(r, es) := leave_wallet key conn_id (x_registry x) in set_registry r es x);;
  ended <-- section (fun x => let '(r, ended, es) := leave_live key conn_id (x_registry x) in (set_registry r es x, ended));
  match ended with
  | None => Finished tt
  | Some lease =>
      update (fun x => set_registry (tombstone_attribution (value key) m_left (x_registry x)) [] x);;
      update (fun x => set_registry (x_registry x) (end_observers key lease (x_registry x)) x)
  end.

Record SetupOutcome := mkOutcome {
  o_term : SetupTermination;
  o_assigned_ip : Z;
  o_assigned_ip_v6 : option Z;
  o_guard : option SessionKey;
  o_wants_daita : bool;
  o_rate_key : option SessionRateKey;
  o_reverse_seq : Z;
}.

(** The deployer's gate for a new wallet session: the refusal, if any. *)
Definition open_wallet_session (g : Grant) (assigned_ip : Z) : T (option SetupAdmission.t) :=
  match wallet_gate, has_registry, g_sticky g, g_token g, g_route g with
  | Some gate, true, Some pubkey, None, None =>
      slot <-- section (fun x =>
        let '(t, slot) := slot session_id pubkey assigned_ip conn_id (wallet (x_registry x)) in
        (set_registry (set_wallet t (x_registry x)) [] x, slot));
      match slot with
      | AlreadyAdmitted => Finished None
      | NeedsGate session =>
          match gate session with
          | Some WalletAdmit =>
              update (fun x => set_registry (set_wallet (mark_admitted session (wallet (x_registry x))) (x_registry x)) [] x);;
              Finished None
          | Some WalletRetired => Finished (Some SetupAdmission.WalletRetired)
          | _ => Finished (Some SetupAdmission.WalletDeviceLimit)
          end
      end
  | _, _, _, _, _ => Finished None
  end.

Definition session_rate_key (g : Grant) : option SessionRateKey :=
  match g_token g, g_route g, g_sticky g with
  | Some serial, _, _ => Some (RateToken serial)
  | None, Some (serial, _), _ => Some (RateRoute serial)
  | None, None, Some wallet => Some (RateWallet wallet)
  | None, None, None => None
  end.

(** The address is the client's: routes, attribution and the sealed answer. *)
Definition announce_address (term : SetupTermination) (g : Grant) (guard : option SessionKey) (spec : IpAssignSpec)
  : T (option SetupOutcome) :=
  update (fun x => set_router (MultihopTunRouter.on_v4 (RouteTable.register m_world (assigned spec) down_tx) (x_router x)) x);;
  match guard with
  | Some key => update (fun x => set_registry (record_assigned_ipv4 (assigned spec) (value key) (x_registry x)) [] x)
  | None => Finished tt
  end;;
  match assigned_v6 spec with
  | Some v6 => update (fun x => set_router (MultihopTunRouter.on_v6 (RouteTable.register m_world v6 down_tx) (x_router x)) x)
  | None => Finished tt
  end;;
  let granted_daita := if g_daita g then offered_daita else None in
  match result_ok (encode_control (into_control_message spec granted_daita)) with
  | None => Finished None
  | Some reply_plaintext =>
      let seq := 0 in
      match seal_reply term reply_plaintext (term_epoch term) seq with
      | None => Finished None
      | Some reply_bytes =>
          if negb m_written then Finished None
          else
            update (write_reply conn reply_bytes);;
            if negb m_finished then Finished None
            else
              Finished (Some (mkOutcome term (assigned spec) (assigned_v6 spec) guard (g_daita g) (session_rate_key g) (seq + 1)))
      end
  end.

(** From the allocation on. *)
Definition serve_grant (term : SetupTermination) (is_wallet_request : bool) (g : Grant) (guard : option SessionKey)
  : T (option SetupOutcome) :=
  spec <-- allocate_on_first_frame conn_id (g_sticky g) (g_ipv6 g) (g_prefer g) m_pool_instant;
  match spec with
  | None => refuse term 0 IpExhausted;; Finished None
  | Some spec =>
      refusal <-- open_wallet_session g (assigned spec);
      match refusal with
      | Some verdict =>
          update (count (CountSetup verdict));;
          refuse term 0 RejectedDeviceLimit;;
          Finished None
      | None =>
          when is_wallet_request (update (count (CountSetup SetupAdmission.WalletAdmitted)));;
          announce_address term g guard spec
      end
  end.

Definition guard_key (g : Grant) : option SessionKey :=
  if negb has_registry then None
  else
    (fun pubkey =>
       match g_token g, g_route g with
       | Some _, _ => TokenSerial pubkey
       | None, Some _ => Route pubkey
       | None, None => Wallet pubkey
       end) <$> g_sticky g.

(** Register the connection, look at the allowlist again, and serve; the guard goes with
    the outcome, or is dropped. *)
Definition register_and_serve (term : SetupTermination) (is_wallet_request : bool) (g : Grant) : T (option SetupOutcome) :=
  match guard_key g with
  | None => serve_grant term is_wallet_request g None
  | Some key =>
      update (fun x => set_registry (register_key key conn_id conn (x_registry x)) [] x);;
      match g_route g with
      | Some (serial, locator) => update (fun x => set_registry (retain_locator serial locator (x_registry x)) [] x)
      | None => Finished tt
      end;;
      still <-- match key with
                | Wallet pubkey => if has_allowlist then allowed_at pubkey m_unix_recheck else Finished true
                | _ => Finished true
                end;
      outcome <-- (if still : bool then serve_grant term is_wallet_request g (Some key)
                   else
                     update (count (CountSetup SetupAdmission.WalletRefused));;
                     update (close conn WARREN_MH_REJECTED []);;
                     Finished None);
      match outcome with
      | Some o => Finished (Some o)
      | None => drop_guard key;; Finished None
      end
  end.

Definition process_setup_frame (bytes : list Z) : T (option SetupOutcome) :=
  term <-- build_setup_termination bytes m_instant m_budget;
  match term with
  | None => Finished None
  | Some term =>
      match term_open term with
      | Err _ => Finished None
      | Ok plaintext =>
          first <-- check_replay term;
          if negb first then Finished None
          else
            let control_msg := match try_decode_control plaintext with Ok msg => msg | Err _ => None end in
            let is_wallet_request := match control_msg with Some (IpRequest _ _ _ _ _) => true | _ => false end in
            verdict <-- authorize control_msg (term_encapsulated_key term);
            match verdict with
            | Err detail => refuse term 0 detail;; Finished None
            | Ok g => register_and_serve term is_wallet_request g
            end
      end
  end.

(** [run_setup]: [None] when the client never opened the setup stream or it could not be
    read. *)
Definition run_setup (bytes : option (list Z)) : T (option SetupOutcome) :=
  match bytes with Some bytes => process_setup_frame bytes | None => Finished None end.

(** ** The life of a connection *)

(** The sections of [arm_takeover_recheck] that change the router; the task it may spawn
    is one of the others. *)
Definition attach_liveness (o : SetupOutcome) : T unit :=
  update (fun x => set_router (MultihopTunRouter.on_v4
    (RouteTable.attach_liveness (o_assigned_ip o) down_tx activity (Some conn)) (x_router x)) x);;
  match o_assigned_ip_v6 o with
  | Some ip6 =>
      update (fun x => set_router (MultihopTunRouter.on_v6
        (RouteTable.attach_liveness ip6 down_tx activity (Some conn)) (x_router x)) x)
  | None => Finished tt
  end.

Definition attach_route_control (key : option SessionKey) : T unit :=
  match key with
  | Some key =>
      when has_registry (update (fun x => set_registry (attach_control key conn_id control_tx (x_registry x)) [] x))
  | None => Finished tt
  end.

Definition close_reason (o : SetupOutcome) : list Z :=
  match o_term o with TermV1 _ _ _ => bytes_of_string "exit pumps ended" | TermV2 _ _ _ => bytes_of_string "exit pq pumps ended" end.

(** The pumps run between the sections of the second half. *)
Definition serve_terminating_connection (bytes : option (list Z)) : T unit :=
  setup <-- run_setup bytes;
  match setup with
  | None => Finished tt
  | Some o =>
      attach_liveness o;;
      attach_route_control (o_guard o);;
      update (fun x => set_router (MultihopTunRouter.on_v4
        (RouteTable.unregister_if_owner (o_assigned_ip o) down_tx) (x_router x)) x);;
      match o_assigned_ip_v6 o with
      | Some ip6 =>
          update (fun x => set_router (MultihopTunRouter.on_v6 (RouteTable.unregister_if_owner ip6 down_tx) (x_router x)) x)
      | None => Finished tt
      end;;
      update (close conn 0 (close_reason o));;
      match o_guard o with Some key => drop_guard key | None => Finished tt end
  end.

Definition terminate_connection (draining : bool) (bytes : option (list Z)) : T unit :=
  if draining then update (close conn WARREN_MH_DRAINING [])
  else
    serve_terminating_connection bytes;;
    update (fun x => set_pool (IpAllocator.release conn_id (x_pool x)) x);;
    update (fun x => set_pool_v6 (IpAllocatorV6.release conn_id <$> x_pool_v6 x) x).

End Setup.
