(* ===== verification/SetupGuarantees.v ===== *)
(** What the setup of a connection guarantees, whatever the rest of the exit does in
    between: who is served, and that every refusal looks the same from outside. *)

From S2P Require Import Prelude ReplayWindow MultihopSession PqSession ExitReceive Control IpHoldings IpPool IpPoolV6 RouteTable.
From S2P Require Import StatusCodes SessionRegistry Allowlist Tasks ExitSetup.
Import MultihopSession.

(** One step back through a history. *)
Ltac unwind H :=
  cbv beta iota zeta delta [negb from_option id] in H;
  lazymatch type of H with
  | history _ (bind _ _) _ _ _ _ =>
      let a := fresh "a" in let s := fresh "s" in let t1 := fresh "tr" in let t2 := fresh "tr" in let H1 := fresh H in
      apply history_bind in H; [destruct H as (a & s & t1 & t2 & -> & H1 & H)|typeclasses eauto]
  | history _ (Finished _) _ _ _ _ =>
      let E := fresh "E" in let HR := fresh "HR" in apply history_done in H; destruct H as (-> & E & HR)
  end.

(** Walk through a task section by section. *)
Ltac walk :=
  repeat (cbv zeta; lazymatch goal with
    | |- guarantee _ (Finished _) => apply guarantee_finished
    | |- guarantee _ (bind _ _) => apply guarantee_bind; [|intros ?]
    | |- guarantee _ (when _ _) => apply guarantee_when; intros _
    | |- guarantee _ (match ?x with _ => _ end) => destruct x
    end).

Section Guarantees.
Context `{H : Hpke} `{P : Postcard} `{C : !PqCrypto H} `{Q : !PostcardV2 P} `{CP : ControlPostcard} `{M : MapOrder}.
Context {cfg : ExitConfig H C} {cn : Connection}.

(** ** Every refusal looks the same *)

(** The only close a step makes is the opaque one, of this connection. *)
Definition closes_opaquely (x x' : Exit) : Prop :=
  forall c, x_closed x' !! c = x_closed x !! c \/
    (c = conn /\ x_closed x' !! c = Some (WARREN_MH_REJECTED, [])).

Lemma keeps_closed x x' : x_closed x' = x_closed x -> closes_opaquely x x'.
Proof. intros E c. left. by rewrite E. Qed.

Lemma opaque_close x : closes_opaquely x (close conn WARREN_MH_REJECTED [] x).
Proof.
  intros c. simpl. destruct (x_closed x !! conn) eqn:E; [by left|].
  destruct (decide (c = conn)) as [->|Hne]; [right|left].
  - by rewrite lookup_insert_eq.
  - by rewrite lookup_insert_ne.
Qed.

(** A section that leaves the connections alone. *)
Ltac quiet :=
  first [ apply guarantee_read; intros ?; by apply keeps_closed
        | apply guarantee_update; intros ?; first [by apply keeps_closed | apply opaque_close
            | apply keeps_closed; by repeat case_match]
        | apply guarantee_section; intros ?; apply keeps_closed; by repeat case_match ].

Lemma refuse_opaque term n detail : guarantee closes_opaquely (refuse term n detail).
Proof. unfold refuse. walk; quiet. Qed.

Lemma drop_guard_opaque key : guarantee closes_opaquely (drop_guard key).
Proof. unfold drop_guard. walk; quiet. Qed.

Lemma serve_grant_opaque term w g guard : guarantee closes_opaquely (serve_grant term w g guard).
Proof.
  unfold serve_grant, allocate_on_first_frame, open_wallet_session, announce_address.
  walk; first [apply refuse_opaque|quiet].
Qed.

Lemma authorize_opaque msg key : guarantee closes_opaquely (authorize msg key).
Proof.
  unfold authorize, classify_admission, allowed_at, serial_held_by_another_session, is_token_serial_live_task.
  walk; quiet.
Qed.

Lemma setup_opaque bytes : guarantee closes_opaquely (process_setup_frame bytes).
Proof.
  unfold process_setup_frame, register_and_serve, build_setup_termination, check_replay, allowed_at.
  walk; first [apply refuse_opaque|apply authorize_opaque|apply serve_grant_opaque|apply drop_guard_opaque|quiet].
Qed.

(** ** Who is served *)

(** The allowlist was asked about the key, and did not refuse it. *)
Definition found_allowed (tr : list (Exit * Exit)) (pubkey now : Z) : Prop :=
  exists x1 x2, x1 ∈ tr.*1 /\ x2 ∈ tr.*1 /\
    crl_contains (x_allow x1) pubkey = false /\ entry_live (x_allow x2) pubkey now = true.

(** The section that registers the connection under the key. *)
Definition registers (key : SessionKey) (p : Exit * Exit) : Prop :=
  p.2 = set_registry (register_key key conn_id conn (x_registry p.1)) [] p.1.

(** Why a client may be granted service: its own policy said so. *)
Definition authorized_by (tr : list (Exit * Exit)) (msg : option WarrenControlMessage) (key : list Z) (g : Grant) : Prop :=
  match msg with
  | Some (IpRequestRoute _ _ locator _) =>
      exists policy serial, route_admitter = Some policy /\ policy locator = Some (Some (RouteAdmit serial)) /\
        g_sticky g = Some serial /\ g_token g = None /\ g_route g = Some (serial, locator)
  | Some (IpRequestV7 _ _ tokens _) | Some (IpRequestV7Detailed _ _ tokens _) =>
      exists admitter serial, token_admitter = Some admitter /\ admitter tokens = Admit serial /\
        g_sticky g = Some serial /\ g_token g = Some serial
  | Some (IpRequest _ client_pubkey _ pop_sig _) =>
      g_sticky g = be_val <$> client_pubkey /\ g_token g = None /\ g_route g = None /\
      (has_allowlist = true -> exists pubkey sig, client_pubkey = Some pubkey /\ pop_sig = Some sig /\
         verify_strict pubkey (pop_signing_message our_exit_id key) sig = true /\
         found_allowed tr (be_val pubkey) m_unix_gate)
  | _ => g = mkGrant None false false None None None /\ has_allowlist = false
  end.

(** ** How a refusal ends *)

(** A section closed the connection, with the code of every refusal. *)
Definition closed_here (tr : list (Exit * Exit)) : Prop := exists y, (y, close conn WARREN_MH_REJECTED [] y) ∈ tr.

(** The answer reaches the stream, in full. *)
Definition delivered (term : SetupTermination) (spec : IpAssignSpec) (daita : option DaitaConfig) : bool :=
  m_written && m_finished &&
  bool_decide (is_Some (result_ok (encode_control (into_control_message spec daita)) ≫= fun p =>
    seal_reply term p (term_epoch term) 0)).

(** The address was given and routed, and the answer that says so did not reach the stream. *)
Definition lost_answer (term : SetupTermination) (tr : list (Exit * Exit)) : Prop :=
  exists spec daita y, (daita = offered_daita \/ daita = None) /\ delivered term spec daita = false /\
    (y, set_router (MultihopTunRouter.on_v4 (RouteTable.register m_world (assigned spec) down_tx) (x_router y)) y) ∈ tr.

(** The frame builds no session, or does not open, or was seen before. *)
Definition unread (R : Exit -> Exit -> Prop) (bytes : list Z) (x : Exit) (tr : list (Exit * Exit)) (x' : Exit) : Prop :=
  let built := history R (build_setup_termination bytes m_instant m_budget) in
  built x tr None x' \/
  (exists term e, built x tr (Some term) x' /\ term_open term = Err e) \/
  (exists term s tr1 tr2, tr = tr1 ++ tr2 /\ built x tr1 (Some term) s /\ history R (check_replay term) s tr2 false x').

Section Served.
Context (R : Exit -> Exit -> Prop) `{HR : !PreOrder R}.

Lemma allowed_at_true pubkey now x tr x' :
  history R (allowed_at pubkey now) x tr true x' -> found_allowed tr pubkey now.
Proof using HR.
  intros Hh. unfold allowed_at in Hh. unwind Hh. apply history_read in Hh0 as (x1 & -> & _ & -> & _).
  destruct (crl_contains (x_allow x1) pubkey) eqn:E1; [by unwind Hh|].
  apply history_read in Hh as (x2 & -> & _ & E2 & _). exists x1, x2. set_solver.
Qed.

Lemma found_allowed_mono tr tr' pk now : (forall p, p ∈ tr -> p ∈ tr') -> found_allowed tr pk now -> found_allowed tr' pk now.
Proof using Type.
  intros Hs (x1 & x2 & (p1 & -> & H1)%list_elem_of_fmap & (p2 & -> & H2)%list_elem_of_fmap & ?).
  exists p1.1, p2.1. split; [apply list_elem_of_fmap; eauto|]. split; [apply list_elem_of_fmap; eauto|done].
Qed.

Lemma classify_authorized msg key now x tr x' :
  history R (classify_admission msg key now) x tr Authorized x' ->
  has_allowlist = false \/
  exists prefer pubkey v6 sig daita, msg = Some (IpRequest prefer (Some pubkey) v6 (Some sig) daita) /\
    verify_strict pubkey (pop_signing_message our_exit_id key) sig = true /\ found_allowed tr (be_val pubkey) now.
Proof using HR.
  unfold classify_admission. destruct has_allowlist; [|by left]. intros Hh. right.
  destruct msg as [[prefer [pubkey|] v6 [sig|] daita| | | | | | | | | | | | | | | |]|]; try by unwind Hh.
  destruct (verify_pop pubkey key sig) eqn:Ev; [|by unwind Hh]. unwind Hh.
  exists prefer, pubkey, v6, sig, daita. split; [done|]. split; [done|].
  destruct a; [|unwind Hh; unwind Hh; by case_match].
  apply allowed_at_true in Hh0. eapply found_allowed_mono; [|exact Hh0]. set_solver.
Qed.

(** The two kinds of token requests. *)
Lemma authorize_wallet msg key x tr g x' :
  match msg with Some (IpRequestRoute _ _ _ _) | Some (IpRequestV7 _ _ _ _) | Some (IpRequestV7Detailed _ _ _ _) => False | _ => True end ->
  history R (authorize msg key) x tr (Ok g) x' -> authorized_by tr msg key g.
Proof using HR.
  intros Hm Hh.
  assert (Hc : exists tr', (forall y, y ∈ tr' -> y ∈ tr) /\
    (has_allowlist = false \/ exists prefer pubkey v6 sig daita, msg = Some (IpRequest prefer (Some pubkey) v6 (Some sig) daita) /\
       verify_strict pubkey (pop_signing_message our_exit_id key) sig = true /\ found_allowed tr' (be_val pubkey) m_unix_gate) /\
    g = match msg with
        | Some (IpRequest prefer_ipv4 client_pubkey wants_ipv6 _ wants_daita) =>
            mkGrant (be_val <$> client_pubkey) wants_ipv6 wants_daita None prefer_ipv4 None
        | _ => mkGrant None false false None None None
        end).
  { unfold authorize in Hh. destruct msg as [[]|]; try done;
      (unwind Hh; destruct a; [|unwind Hh; by unwind Hh|unwind Hh; by unwind Hh]);
      unwind Hh; injection E as <-; apply classify_authorized in Hh0; eexists; (split; [|split; [exact Hh0|done]]); set_solver. }
  destruct Hc as (tr' & Hsub & Ha & ->).
  destruct msg as [[]|]; try done; simpl; (destruct Ha as [Ha|(pr & pk & v6 & sg & d & E & Hv & Hf)]; [|try discriminate E]); try done.
  - repeat (split; [done|]). by rewrite Ha.
  - injection E as -> -> -> -> ->. repeat (split; [done|]). intros _. exists pk, sg. repeat (split; [done|]).
    by eapply found_allowed_mono.
Qed.

Lemma authorize_ok msg key x tr g x' :
  history R (authorize msg key) x tr (Ok g) x' -> authorized_by tr msg key g.
Proof using HR.
  intros Hh. destruct msg as [msg|]; [|by apply (authorize_wallet _ key x tr g x')].
  destruct msg; try (by apply (authorize_wallet _ key x tr g x')); unfold authorize in Hh; simpl.
  - destruct token_admitter as [admitter|]; [|unwind Hh; by unwind Hh].
    destruct (admitter _) eqn:Et; try (unwind Hh; by unwind Hh). unwind Hh. destruct a; [unwind Hh; by unwind Hh|].
    unwind Hh. unwind Hh. injection E as <-. by eexists _, _.
  - destruct route_admitter as [policy|], has_registry; try (unwind Hh; by unwind Hh).
    unfold admit_route in Hh.
    destruct m_route_bucket, m_route_permit; try (unwind Hh; by unwind Hh).
    destruct (policy route_locator) as [[[serial|code]|]|] eqn:Ep; try (unwind Hh; by unwind Hh).
    unwind Hh. unwind Hh. injection E as <-. by exists policy, serial.
  - destruct token_admitter as [admitter|]; [|unwind Hh; by unwind Hh].
    destruct (admitter _) eqn:Et; try (unwind Hh; by unwind Hh). unwind Hh. destruct a; [unwind Hh; by unwind Hh|].
    unwind Hh. unwind Hh. injection E as <-. by eexists _, _.
Qed.

Lemma announce_served term g guard spec x tr o x' :
  history R (announce_address term g guard spec) x tr (Some o) x' ->
  o_term o = term /\ o_guard o = guard /\ o_rate_key o = session_rate_key g.
Proof using HR.
  intros Hh. unfold announce_address in Hh. do 3 unwind Hh.
  destruct (result_ok _) as [p|]; [|by unwind Hh]. destruct (seal_reply _ _ _ _) as [b|]; [|by unwind Hh].
  destruct m_written; [|by unwind Hh]. unwind Hh. destruct m_finished; [|by unwind Hh]. unwind Hh. by injection E as <-.
Qed.

Lemma serve_grant_served term w g guard x tr o x' :
  history R (serve_grant term w g guard) x tr (Some o) x' ->
  o_term o = term /\ o_guard o = guard /\ o_rate_key o = session_rate_key g.
Proof using HR.
  intros Hh. unfold serve_grant in Hh. unwind Hh. destruct a as [spec|]; [|unwind Hh; by unwind Hh].
  unwind Hh. destruct a as [v|]; [do 2 unwind Hh; by unwind Hh|]. unwind Hh. by apply announce_served in Hh.
Qed.

Lemma register_served term w g x tr o x' :
  history R (register_and_serve term w g) x tr (Some o) x' ->
  o_term o = term /\ o_guard o = guard_key g /\ o_rate_key o = session_rate_key g /\
  (forall pk, guard_key g = Some (Wallet pk) -> has_allowlist = true ->
     exists p tr', tr = p :: tr' /\ registers (Wallet pk) p /\ found_allowed tr' pk m_unix_recheck).
Proof using HR.
  intros Hh. unfold register_and_serve in Hh. destruct (guard_key g) as [key|] eqn:Ek.
  - do 4 unwind Hh. destruct a1; [|do 3 unwind Hh3; subst; unwind Hh; by unwind Hh].
    destruct a2 as [o'|]; [|unwind Hh; by unwind Hh]. unwind Hh. injection E as ->.
    apply serve_grant_served in Hh3 as (? & ? & ?). repeat (split; [done|]). intros pk [= ->] Ha. rewrite Ha in Hh2.
    apply history_update in Hh0 as (y & -> & _). eexists _, _. split; [reflexivity|]. split; [done|].
    apply allowed_at_true in Hh2. eapply found_allowed_mono; [|exact Hh2]. set_solver.
  - apply serve_grant_served in Hh as (? & ? & ?). repeat (split; [done|]). done.
Qed.

Lemma authorized_by_mono tr tr' msg key g :
  (forall y, y ∈ tr -> y ∈ tr') -> authorized_by tr msg key g -> authorized_by tr' msg key g.
Proof using Type.
  intros Hs. unfold authorized_by. destruct msg as [[]|]; try done.
  intros (? & ? & ? & Ha). repeat (split; [done|]). intros (pk & sg & ? & ? & ? & Hf)%Ha.
  exists pk, sg. repeat (split; [done|]). by eapply found_allowed_mono.
Qed.

Lemma refuse_closes term n detail x tr u x' : history R (refuse term n detail) x tr u x' -> closed_here tr.
Proof using HR. intros Hh. unfold refuse in Hh. unwind Hh. apply history_update in Hh as (y & -> & _). exists y. set_solver. Qed.

Lemma closed_here_mono tr tr' : (forall y, y ∈ tr -> y ∈ tr') -> closed_here tr -> closed_here tr'.
Proof using Type. intros Hs [y Hy]. exists y. auto. Qed.

Lemma lost_answer_mono term tr tr' : (forall y, y ∈ tr -> y ∈ tr') -> lost_answer term tr -> lost_answer term tr'.
Proof using Type. intros Hs (spec & daita & y & ? & ? & Hy). exists spec, daita, y. auto. Qed.

Lemma announce_lost term g guard spec x tr x' :
  history R (announce_address term g guard spec) x tr None x' -> lost_answer term tr.
Proof using HR.
  intros Hh. unfold announce_address in Hh. do 3 unwind Hh. apply history_update in Hh0 as (y & -> & _).
  set (daita := if g_daita g then offered_daita else None) in Hh. exists spec, daita, y.
  split; [unfold daita; destruct (g_daita g); auto|]. split; [|set_solver]. unfold delivered.
  destruct (result_ok _) as [p|]; [|by rewrite andb_false_r]. simpl. destruct (seal_reply _ _ _ _) as [b|]; [|by rewrite andb_false_r].
  destruct m_written; [|done]. unwind Hh. destruct m_finished; [|done]. by unwind Hh.
Qed.

Lemma serve_grant_refused term w g guard x tr x' :
  history R (serve_grant term w g guard) x tr None x' -> closed_here tr \/ lost_answer term tr.
Proof using HR.
  intros Hh. unfold serve_grant in Hh. unwind Hh. destruct a as [spec|].
  - unwind Hh. destruct a as [v|].
    + do 2 unwind Hh. unwind Hh. left. apply refuse_closes in Hh3. eapply closed_here_mono; [|exact Hh3]. set_solver.
    + unwind Hh. right. apply announce_lost in Hh. eapply lost_answer_mono; [|exact Hh]. set_solver.
  - unwind Hh. left. apply refuse_closes in Hh1. eapply closed_here_mono; [|exact Hh1]. set_solver.
Qed.

Lemma register_refused term w g x tr x' :
  history R (register_and_serve term w g) x tr None x' -> closed_here tr \/ lost_answer term tr.
Proof using HR.
  intros Hh. unfold register_and_serve in Hh. destruct (guard_key g) as [key|]; [|by apply serve_grant_refused in Hh].
  do 4 unwind Hh. destruct a2 as [o|]; [by unwind Hh|]. destruct a1.
  - apply serve_grant_refused in Hh3 as [Hc|Hl]; [left|right]; [eapply closed_here_mono; [|exact Hc]|eapply lost_answer_mono; [|exact Hl]]; set_solver.
  - left. do 2 unwind Hh3. apply history_update in Hh5 as (y & -> & _). exists y. set_solver.
Qed.

End Served.

(** The control message of a setup frame. *)
Definition request_of (plaintext : list Z) : option WarrenControlMessage :=
  match try_decode_control plaintext with Ok msg => msg | Err _ => None end.

End Guarantees.

(** C4.  Only the authorized are served.  Whatever the rest of the exit does between the
    sections of a setup: a connection it serves sent a setup frame that opened, and the
    policy for its kind of request said yes to that very request, the route policy to the
    locator, the token policy to the tokens; an account key, at an exit with an allowlist,
    was proved with a signature over this session and found unrevoked and unexpired, and,
    where sessions are registered, found so again by sections that came after the one that registered the
    connection.  The session is keyed and budgeted under that serial or key.  And every refusal is the same close: no
    section ever closes anything but this connection, and that with one code and no reason, and a setup that serves nobody has closed it so, unless
    its frame built no session, did not open or had been seen before, or the answer that grants an address could not be
    delivered. *)
Theorem served_is_authorized `{H : Hpke} `{P : Postcard} `{C : !PqCrypto H} `{Q : !PostcardV2 P} `{CP : ControlPostcard}
  `{M : MapOrder} {cfg : ExitConfig H C} {cn : Connection} bytes :
  guarantee closes_opaquely (process_setup_frame bytes) /\
  (forall (R : Exit -> Exit -> Prop) `{HR : !PreOrder R} x tr x',
     (forall o, history R (process_setup_frame bytes) x tr (Some o) x' ->
        exists plaintext g, term_open (o_term o) = Ok plaintext /\
          authorized_by tr (request_of plaintext) (term_encapsulated_key (o_term o)) g /\
          o_guard o = guard_key g /\ o_rate_key o = session_rate_key g /\
          (forall pk, o_guard o = Some (Wallet pk) -> has_allowlist = true ->
             exists tr1 p tr2, tr = tr1 ++ p :: tr2 /\ registers (Wallet pk) p /\ found_allowed tr2 pk m_unix_recheck)) /\
     (history R (process_setup_frame bytes) x tr None x' ->
        closed_here tr \/ unread R bytes x tr x' \/
        exists term s tr1 tr2, tr = tr1 ++ tr2 /\
          history R (build_setup_termination bytes m_instant m_budget) x tr1 (Some term) s /\ lost_answer term tr2)).
Proof.
  split; [apply setup_opaque|]. intros R HR x tr x'. split.
  - intros o Hh. unfold process_setup_frame in Hh. unwind Hh.
    destruct a as [term|]; [|by unwind Hh]. destruct (term_open term) as [plaintext|] eqn:Eo; [|by unwind Hh].
    unwind Hh. destruct a; [|by unwind Hh]. unwind Hh. destruct a as [g|detail]; [|unwind Hh; by unwind Hh].
    apply (register_served R) in Hh as (<- & Hg & Hr & Hw). apply (authorize_ok R) in Hh2.
    exists plaintext, g. split; [done|]. split; [|split; [done|]; split; [done|]].
    + eapply authorized_by_mono; [|exact Hh2]. set_solver.
    + intros pk Hk Ha. rewrite Hg in Hk. destruct (Hw pk Hk Ha) as (p & tr' & -> & Hp & Hf).
      match goal with |- context [?a ++ ?b ++ ?c ++ p :: tr'] => exists (a ++ b ++ c), p, tr' end. by rewrite <- !app_assoc.
  - intros Hh. unfold process_setup_frame in Hh. unwind Hh. destruct a as [term|].
    2: { unwind Hh. rewrite app_nil_r. right. left. left. by eapply history_env_end. }
    destruct (term_open term) as [plaintext|e] eqn:Eo.
    2: { unwind Hh. rewrite app_nil_r. right. left. right. left. exists term, e. split; [by eapply history_env_end|done]. }
    unwind Hh. destruct a.
    2: { unwind Hh. rewrite app_nil_r. right. left. right. right. eexists term, _, _, _. split; [reflexivity|]. split; [exact Hh0|]. by eapply history_env_end. }
    unwind Hh. destruct a as [g|detail].
    + apply (register_refused R) in Hh as [Hc|Hl]; [left; eapply closed_here_mono; [|exact Hc]; set_solver|].
      right. right. eexists term, _, _, _. split; [reflexivity|]. split; [exact Hh0|]. eapply lost_answer_mono; [|exact Hl]. set_solver.
    + unwind Hh. left. apply (refuse_closes R) in Hh3. eapply closed_here_mono; [|exact Hh3]. set_solver.
Qed.

(** ** An exit with an allowlist and a registry *)

(** A serializer of the requests and answers below. *)
#[export] Instance toy_setup_postcard : ControlPostcard := {
  ControlPostcardError := unit;
  control_to_stdvec m :=
    match m with IpAssign ip _ _ _ _ _ _ => Ok (1 :: ip) | IpExhausted => Ok [2] | Rejected => Ok [3] | _ => Err tt end;
  control_take_from_bytes bs :=
    match bs with
    | 0 :: pubkey :: sig :: rest => Ok (IpRequest None (Some [pubkey]) false (Some [sig]) false, rest)
    | _ => Err tt
    end;
}.

#[export] Instance toy_config : ExitConfig toy_hpke toy_pq := {
  our_exit_id := [9]; privkey := (5 : @PrivateKey toy_hpke); pq := false; xwing_secret := fst toy_pair;
  has_allowlist := true; has_registry := true; token_admitter := None; wallet_gate := None; route_admitter := None;
  session_id := id; verify_strict pubkey _ sig := bool_decide (pubkey = sig);
}.

Definition toy_connection (written : bool) : Connection :=
  mkConnection 1 1 1 1 1 None 0 true 50 60 true true 0 (mkWorld (fun _ => 0) (fun _ => 0) (fun _ => false) (fun _ => Accepted))
    written true 70.

Definition toy_addresses : IpAllocator.t :=
  match IpAllocator.with_seed (ipv4 10 66 0 0) 30 (ipv4 10 66 0 1) 1 with
  | Ok p => p
  | Err _ => IpAllocator.mk 0 0 0 [] 0 Holdings.new ∅ None None ∅
  end.

(** Key 7 is paid until 100. *)
Definition toy_exit : Exit :=
  mkShared (mkCache ∅ None) (mkCache ∅ None) [] (Allowlist.set_entries {[7 := 100]} Allowlist.new) toy_addresses None
    MultihopTunRouter.default empty_registry ∅ [] [] [] [] ∅.

(** The setup frame of key 7. *)
Definition toy_hello : list Z :=
  match client_new (H := toy_hpke) (5 : @PublicKey toy_hpke) [9] 0 with
  | (_, Ok c) =>
      match seal c [CONTROL_FIRST_BYTE; CONTROL_VERSION_V3; 0; 7; 7] (cs_epoch c) 0 with
      | Ok f => match encode_frame f with Ok bs => bs | Err _ => [] end
      | Err _ => []
      end
  | (_, Err _) => []
  end.

Definition toy_served (written : bool) :=
  alone (process_setup_frame (cn := toy_connection written) toy_hello) toy_exit.

Lemma served_is_authorized_witness :
  exists o, snd (fst (toy_served true)) = Some o /\ o_guard o = Some (Wallet 7) /\
    exists tr1 p tr2, fst (fst (toy_served true)) = tr1 ++ p :: tr2 /\ registers (cn := toy_connection true) (Wallet 7) p /\ found_allowed tr2 7 60.
Proof.
  assert (Hk : o_guard <$> snd (fst (toy_served true)) = Some (Some (Wallet 7))) by (vm_compute; reflexivity).
  destruct (toy_served true) as [[tr [o|]] x'] eqn:E; [|discriminate Hk]. exists o. split; [reflexivity|].
  injection Hk as Hk. split; [exact Hk|].
  destruct (served_is_authorized (cfg := toy_config) (cn := toy_connection true) toy_hello) as [_ Hs].
  destruct (Hs eq _ toy_exit tr x') as [Ho _].
  destruct (Ho o (alone_history eq _ _ _ _ _ E)) as (plaintext & g & _ & _ & _ & _ & Hw).
  exact (Hw 7 Hk eq_refl).
Defined.
