(* ===== verification/Teardown.v ===== *)
(** What is left of a connection after [terminate_connection]: nothing, but for the downlink
    route of a setup whose answer could not be sent.

    [Resource] is what a connection can hold of the shared state: an address of either
    pool, a place in the registry's tables, a wallet slot, a downlink route.  The rest of
    the exit gives it none ([leaves_alone]); every other connection is shown to be like
    that, so that the claim holds for any number of them at once. *)

From stdpp Require Import propset.
From S2P Require Import Prelude ReplayWindow MultihopSession PqSession ExitReceive Control IpHoldings IpPool IpPoolV6 RouteTable RouteInv.
From S2P Require Import StatusCodes SessionRegistry Allowlist Tasks ExitSetup SetupGuarantees.
Import MultihopSession.

(** ** What each table says about other connections *)

(** The addresses of the other connections are as they were. *)
Definition same_but {A} `{Countable A} (c : Z) (h h' : Holdings.t A) : Prop :=
  forall d, d <> c -> Holdings.by_conn h' !! d = Holdings.by_conn h !! d.

Lemma hold_same_but {A} `{Countable A} c (a : A) o h : same_but c h (Holdings.hold c a o h).
Proof. intros d Hd. simpl. by rewrite lookup_insert_ne. Qed.

Lemma release_same_but {A} `{Countable A} c (h : Holdings.t A) : same_but c h (fst (Holdings.release c h)).
Proof. intros d Hd. rewrite Holdings.release_by_conn. by rewrite lookup_delete_ne. Qed.

Section Pool.
Import IpAllocator.

Lemma hold_used c a o p : used (hold c a o p) = Holdings.hold c a o (used p).
Proof. unfold hold. simpl. by destruct (reclaim p); destruct (claims _). Qed.

Lemma take_free_used a k p : used (fst (take_free a k p)) = used p.
Proof. unfold take_free. by repeat case_match. Qed.

Lemma reclaimable_used a n p : used (fst (reclaimable a n p)) = used p.
Proof. unfold reclaimable. by repeat case_match. Qed.

Lemma pop_loop_used n p : used (fst (pop_random_loop n p)) = used p.
Proof. revert p. induction n as [|n IH]; intros p; [done|]. simpl. repeat case_match; try done. by rewrite IH. Qed.

Lemma binding_keeps_used k a p : used (bind_sticky k a p) = used p.
Proof. unfold bind_sticky. by repeat case_match. Qed.

Lemma same_but_of c p p' : used p' = used p -> same_but c (used p) (used p').
Proof. by intros -> d _. Qed.

Lemma try_join_others c k a n b p : same_but c (used p) (used (fst (try_join c k a n b p))).
Proof.
  unfold try_join. case_match; [cbn [fst]; rewrite hold_used; apply hold_same_but|].
  destruct (if _ || _ then _ else _) as [p1 took] eqn:E1.
  assert (Hu1 : used p1 = used p) by (case_match; [rewrite <- (take_free_used a k p), E1|injection E1 as <- _]; done).
  destruct took; [cbn [fst]; rewrite hold_used, Hu1; apply hold_same_but|].
  destruct (if b then _ else _) as [p2 may] eqn:E2.
  assert (Hu2 : used p2 = used p1) by (case_match; [rewrite <- (reclaimable_used a n p1), E2|injection E2 as <- _]; done).
  destruct (if may then _ else _) as [p3 took] eqn:E3.
  assert (Hu3 : used p3 = used p2) by (case_match; [rewrite <- (take_free_used a k p2), E3|injection E3 as <- _]; done).
  destruct took; cbn [fst]; [rewrite binding_keeps_used, hold_used, Hu3, Hu2, Hu1; apply hold_same_but|].
  apply same_but_of. congruence.
Qed.

Lemma try_sticky_others c k b p : same_but c (used p) (used (fst (try_sticky c k b p))).
Proof.
  unfold try_sticky. destruct (sticky p !! k) as [a|]; [|done]. destruct (take_free a k p) as [p1 took] eqn:E1.
  assert (Hu1 : used p1 = used p) by (by rewrite <- (take_free_used a k p), E1).
  repeat case_match; cbn [fst]; rewrite ?hold_used, Hu1; done || apply hold_same_but.
Qed.

Lemma same_but_trans {A} `{Countable A} c (h1 h2 h3 : Holdings.t A) : same_but c h1 h2 -> same_but c h2 h3 -> same_but c h1 h3.
Proof. intros H12 H23 d Hd. by rewrite H23, H12. Qed.

Lemma allocate_at_others c k i n b p : same_but c (used p) (used (fst (allocate_at c k i n b p))).
Proof.
  unfold allocate_at. case_match; [done|]. destruct (match i with Join _ => _ | _ => _ end) as [p1 joined] eqn:E1.
  assert (H1 : same_but c (used p) (used p1)).
  { destruct i as [| |target]; simplify_eq; try done. replace p1 with (fst (try_join c k target n b p)) by (by rewrite E1). apply try_join_others. }
  destruct joined; [done|]. eapply same_but_trans; [exact H1|]. clear H1 E1.
  destruct (try_sticky _ _ _ p1) as [p2 stuck] eqn:E2.
  assert (H2 : same_but c (used p1) (used p2)) by (replace p2 with (fst (try_sticky c k (match i with Legacy => true | _ => false end) p1)) by (by rewrite E2); apply try_sticky_others).
  destruct stuck; [done|]. eapply same_but_trans; [exact H2|].
  destruct (pop_random p2) as [p3 r] eqn:E3.
  assert (Hu3 : used p3 = used p2) by (rewrite <- (pop_loop_used (length (free p2)) p2); unfold pop_random in E3; by rewrite E3).
  destruct r; cbn [fst]; [rewrite binding_keeps_used, hold_used, Hu3; apply hold_same_but|by apply same_but_of].
Qed.

Lemma allocate_v4_others c k d i n p : same_but c (used p) (used (fst (allocate_v4 c k d i n p))).
Proof.
  unfold allocate_v4. destruct k as [k|]; [destruct d; apply allocate_at_others|].
  unfold allocate. case_match; [done|]. destruct (pop_random p) as [p1 r] eqn:E1.
  assert (Hu1 : used p1 = used p) by (rewrite <- (pop_loop_used (length (free p)) p); unfold pop_random in E1; by rewrite E1).
  destruct r; cbn [fst]; [rewrite hold_used, Hu1; apply hold_same_but|by apply same_but_of].
Qed.

Lemma release_others c p : same_but c (used p) (used (release c p)).
Proof.
  pose proof (release_same_but c (used p)) as Hr. unfold release.
  destruct (Holdings.release c (used p)) as [h r]. by destruct r as [[? []]|].
Qed.

Lemma release_gone c p : Holdings.by_conn (used (release c p)) !! c = None.
Proof.
  pose proof (Holdings.release_by_conn (used p) c) as Hr. unfold release.
  destruct (Holdings.release c (used p)) as [h r]. simpl in Hr.
  destruct r as [[? []]|]; simpl; rewrite Hr; apply lookup_delete_eq.
Qed.

End Pool.

Section PoolV6.
Import IpAllocatorV6.

Lemma draw_used n p : used (fst (draw_offset n p)) = used p.
Proof. revert p. induction n as [|n IH]; intros p; [done|]. simpl. repeat case_match; try done; by rewrite IH. Qed.

Lemma pop_offset_used p : used (fst (pop_offset p)) = used p.
Proof. unfold pop_offset. repeat case_match; try done; apply draw_used. Qed.

Lemma v6_binding_keeps_used k a p : used (bind_sticky k a p) = used p.
Proof. unfold bind_sticky. by repeat case_match. Qed.

Lemma v6_try_sticky_others c k b p : same_but c (used p) (used (fst (try_sticky c k b p))).
Proof. unfold try_sticky. repeat case_match; cbn [fst]; done || apply (hold_same_but c). Qed.

Lemma allocate_v6_others c k i l p : same_but c (used p) (used (fst (allocate_v6 c k i l p))).
Proof.
  unfold allocate_v6. destruct k as [k|].
  - unfold allocate_for_pubkey_with_intent. case_match; [done|]. case_match; [apply (hold_same_but c)|].
    destruct (try_sticky _ _ _ p) as [p1 stuck] eqn:E1.
    assert (H1 : same_but c (used p) (used p1)) by (rewrite <- (f_equal fst E1 : _ = p1); apply v6_try_sticky_others).
    destruct stuck; [done|]. eapply same_but_trans; [exact H1|].
    pose proof (pop_offset_used p1) as Hu. destruct (pop_offset p1) as [p2 r]. cbn [fst] in Hu.
    destruct r; cbn [fst]; [rewrite v6_binding_keeps_used; cbn [used hold set_used]; rewrite Hu; apply hold_same_but|].
    by rewrite Hu.
  - unfold allocate. case_match; [done|].
    pose proof (pop_offset_used p) as Hu. destruct (pop_offset p) as [p2 r]. cbn [fst] in Hu.
    destruct r; cbn [fst]; [cbn [used hold set_used]; rewrite Hu; apply hold_same_but|]. by rewrite Hu.
Qed.

Lemma v6_release_others c p : same_but c (used p) (used (release c p)).
Proof.
  pose proof (release_same_but c (used p)) as Hr. unfold release.
  destruct (Holdings.release c (used p)) as [h r]. by destruct r as [[? []]|].
Qed.

Lemma v6_release_gone c p : Holdings.by_conn (used (release c p)) !! c = None.
Proof.
  pose proof (Holdings.release_by_conn (used p) c) as Hr. unfold release.
  destruct (Holdings.release c (used p)) as [h r]. simpl in Hr.
  destruct r as [[? []]|]; simpl; rewrite Hr; apply lookup_delete_eq.
Qed.

End PoolV6.

Section Routes.
Import RouteTable.

(** The channel serves the address. *)
Definition serves_at (t : t) (ip : Z) (c : nat) : Prop :=
  exists slot, routes t !! ip = Some slot /\ c ∈ (tx <$> RouteSlot.senders slot).

Lemma delete_incl {A} (i : nat) (l : list A) y : y ∈ delete i l -> y ∈ l.
Proof. apply sublist_subseteq, sublist_delete. Qed.

Lemma register_serves w ip c t ip' c' :
  serves_at (register w ip c t) ip' c' -> serves_at t ip' c' \/ (ip' = ip /\ c' = c).
Proof.
  intros (slot' & Hl & Hc). unfold register in Hl. destruct (routes t !! ip) as [slot|] eqn:E.
  - case_match; [left; by exists slot'|]. simpl in Hl. apply lookup_insert_Some in Hl as [[<- <-]|[Hne Hl]]; [|left; by exists slot'].
    simpl in Hc. rewrite fmap_app, elem_of_app in Hc. destruct Hc as [Hc| ->%list_elem_of_singleton]; [|by right].
    left. exists slot. split; [done|]. apply list_elem_of_fmap in Hc as (d & -> & Hd). apply list_elem_of_fmap_2.
    case_match; [by eapply delete_incl|done].
  - simpl in Hl. apply lookup_insert_Some in Hl as [[<- <-]|[Hne Hl]]; [|left; by exists slot'].
    simpl in Hc. apply list_elem_of_singleton in Hc. by right.
Qed.

Lemma attach_serves ip c a peer t ip' c' :
  serves_at (attach_liveness ip c a peer t) ip' c' -> serves_at t ip' c'.
Proof.
  intros (slot' & Hl & Hc). unfold attach_liveness in Hl. destruct (routes t !! ip) as [slot|] eqn:E; [|by exists slot'].
  simpl in Hl. apply lookup_insert_Some in Hl as [[<- <-]|[Hne Hl]]; [|by exists slot'].
  simpl in Hc. rewrite update_first_tx in Hc by done. by exists slot.
Qed.

Lemma unregister_serves ip c t ip' c' :
  serves_at (unregister_if_owner ip c t) ip' c' -> serves_at t ip' c' /\ ~ (ip' = ip /\ c' = c).
Proof.
  intros (slot' & Hl & Hc). unfold unregister_if_owner in Hl. destruct (routes t !! ip) as [slot|] eqn:E.
  - destruct (filter _ (RouteSlot.senders slot)) as [|d l] eqn:El; simpl in Hl.
    + apply lookup_delete_Some in Hl as [Hne Hl]. split; [by exists slot'|naive_solver].
    + apply lookup_insert_Some in Hl as [[<- <-]|[Hne Hl]]; [|split; [by exists slot'|naive_solver]].
      cbn [RouteSlot.senders] in Hc. rewrite <- El in Hc. apply list_elem_of_fmap in Hc as (d' & -> & [Hd1 Hd2]%list_elem_of_filter).
      split; [exists slot; split; [done|by apply list_elem_of_fmap_2]|naive_solver].
  - split; [by exists slot'|]. intros [-> ->]. congruence.
Qed.

End Routes.

(** A connection is counted in the session it is filed under. *)
Definition filed (t : Tables) (c : Z) : Prop :=
  forall key e, sessions t !! key = Some e -> c ∈ entry_conns e -> by_conn t !! c = Some key.

Lemma slot_tables sid pk ip c t :
  exists e n, sessions (fst (slot sid pk ip c t)) = <[(pk, ip) := e]> (sessions t) /\
    by_conn (fst (slot sid pk ip c t)) = <[c := (pk, ip)]> (by_conn t) /\
    entry_conns e = {[c]} ∪ n /\ n = from_option entry_conns ∅ (sessions t !! (pk, ip)).
Proof. unfold slot. destruct (sessions t !! (pk, ip)); by eexists _, _. Qed.

Lemma slot_filed sid pk ip c t d :
  (d = c -> by_conn t !! c = None) -> filed t d -> filed (fst (slot sid pk ip c t)) d.
Proof.
  intros Hn Hf key e. destruct (slot_tables sid pk ip c t) as (e' & n & -> & -> & He & ->).
  intros [[<- <-]|[Hne Hl]]%lookup_insert_Some Hd.
  - rewrite He, elem_of_union, elem_of_singleton in Hd. destruct (decide (d = c)) as [->|Hdc]; [by rewrite lookup_insert_eq|].
    rewrite lookup_insert_ne by done. destruct Hd as [?|Hd]; [done|]. destruct (sessions t !! (pk, ip)) eqn:E; [|set_solver].
    by eapply Hf.
  - specialize (Hf _ _ Hl Hd). destruct (decide (d = c)) as [->|Hdc]; [by rewrite Hn in Hf|]. by rewrite lookup_insert_ne.
Qed.

Lemma mark_tables `{M : MapOrder} `{L : !MapOrderLaws M} s t :
  by_conn (mark_admitted s t) = by_conn t /\
  forall key e, sessions (mark_admitted s t) !! key = Some e ->
    exists e', sessions t !! key = Some e' /\ entry_conns e = entry_conns e'.
Proof.
  unfold mark_admitted. destruct (list_find _ _) as [[i [key e]]|] eqn:E; [|eauto]. simpl. split; [done|].
  apply list_find_Some in E as (E & _). apply list_elem_of_lookup_2 in E. rewrite (map_iter_perm _ _ (sessions t)) in E.
  apply elem_of_map_to_list in E. intros key' e' [[<- <-]|[Hne Hl]]%lookup_insert_Some; eauto.
Qed.

Lemma leave_tables c t : filed t c ->
  by_conn (fst (leave c t)) = delete c (by_conn t) /\
  forall key e, sessions (fst (leave c t)) !! key = Some e ->
    c ∉ entry_conns e /\ exists e', sessions t !! key = Some e' /\ entry_conns e ⊆ entry_conns e'.
Proof.
  intros Hf. unfold leave. destruct (by_conn t !! c) as [key|] eqn:E; simpl.
  - assert (Hother : forall key' e, key' <> key -> sessions t !! key' = Some e -> c ∉ entry_conns e).
    { intros key' e Hne Hl Hc. specialize (Hf _ _ Hl Hc). congruence. }
    destruct (sessions t !! key) as [e|] eqn:Ee; [case_bool_decide|]; simpl; (split; [done|]); intros key' e'.
    + intros [Hne Hl]%lookup_delete_Some. eauto.
    + intros [[<- <-]|[Hne Hl]]%lookup_insert_Some; [|eauto]. simpl. split; [set_solver|]. exists e. set_solver.
    + intros Hl. split; [|eauto]. eapply Hother; [|done]. congruence.
  - split; [by rewrite delete_id|]. intros key e Hl. split; [|eauto]. intros Hc. specialize (Hf _ _ Hl Hc). congruence.
Qed.

Lemma leave_by_conn c t : by_conn (fst (leave c t)) = delete c (by_conn t).
Proof.
  unfold leave. destruct (by_conn t !! c) as [key|] eqn:E; [|by rewrite delete_id]. by repeat case_match.
Qed.

(** What leaving does to the others, whatever the tables. *)
Lemma leave_others c d t : d <> c -> by_conn (fst (leave c t)) !! d = by_conn t !! d /\ (filed t d -> filed (fst (leave c t)) d).
Proof.
  intros Hne. unfold leave. destruct (by_conn t !! c) as [key|] eqn:E; simpl; [|done].
  destruct (sessions t !! key) as [e|] eqn:Ee; [case_bool_decide|]; simpl;
    (split; [by rewrite lookup_delete_ne|]); intros Hf key' e'; simpl; rewrite (lookup_delete_ne (by_conn t)) by done.
  - intros [_ Hl]%lookup_delete_Some. eauto.
  - intros [[<- <-]|[_ Hl]]%lookup_insert_Some Hd; [|eauto]. apply (Hf key e Ee). simpl in Hd. set_solver.
  - eauto.
Qed.

Lemma leave_filed c d t : filed t d -> filed (fst (leave c t)) d.
Proof.
  intros Hf. destruct (decide (d = c)) as [->|Hne]; [|by apply leave_others].
  intros key e Hl Hc. by destruct (proj2 (leave_tables c t Hf) key e Hl).
Qed.

(** ** Resources *)

Inductive Resource :=
| Address | AddressV6 | Session (key : SessionKey) | Channel (key : SessionKey) | Slot
| RouteV4 (ip : Z) | RouteV6 (ip : Z).

Section Resources.
Context `{H : Hpke} `{P : Postcard} `{C : !PqCrypto H} `{Q : !PostcardV2 P} `{CP : ControlPostcard} `{M : MapOrder} `{L : !MapOrderLaws M}.
Context {cfg : ExitConfig H C}.

Definition holds (me : Connection) (x : Exit) (r : Resource) : Prop :=
  match r with
  | Address => is_Some (Holdings.by_conn (IpAllocator.used (x_pool x)) !! @conn_id me)
  | AddressV6 => exists p, x_pool_v6 x = Some p /\ is_Some (Holdings.by_conn (IpAllocatorV6.used p) !! @conn_id me)
  | Session key => exists conns, live (x_registry x) !! key = Some conns /\ is_Some (conns !! @conn_id me)
  | Channel key => is_Some (control (x_registry x) !! (key, @conn_id me))
  | Slot => is_Some (by_conn (wallet (x_registry x)) !! @conn_id me)
  | RouteV4 ip => serves_at (MultihopTunRouter.routes (x_router x)) ip (@down_tx me)
  | RouteV6 ip => serves_at (MultihopTunRouter.routes_v6 (x_router x)) ip (@down_tx me)
  end.

Definition well_filed (me : Connection) (x : Exit) : Prop := filed (wallet (x_registry x)) (@conn_id me).

(** The connection holds no more than before, and stays filed where it is counted. *)
Definition leaves_alone (me : Connection) (x x' : Exit) : Prop :=
  (forall r, holds me x' r -> holds me x r) /\ (well_filed me x -> well_filed me x').

#[export] Instance leaves_alone_preorder me : PreOrder (leaves_alone me).
Proof. split; [by split|]. intros x y z [H1 H2] [H3 H4]. split; eauto. Qed.

(** Two connections of the exit have their own ids and channels. *)
Definition apart (me cn : Connection) : Prop := @conn_id me <> @conn_id cn /\ @down_tx me <> @down_tx cn.

Lemma same_id me cn : @conn_id me = @conn_id cn -> ~ apart me cn.
Proof. by intros E [? _]. Qed.

Lemma same_channel me cn : @down_tx me = @down_tx cn -> ~ apart me cn.
Proof. by intros E [_ ?]. Qed.

(** A step on behalf of [cn]: only [cn] gains, and only [rs]. *)
Definition gains (cn : Connection) (rs : propset Resource) (x x' : Exit) : Prop :=
  forall me r, holds me x' r -> holds me x r \/ (~ apart me cn /\ r ∈ rs).

Lemma gains_none cn x x' :
  x_pool x' = x_pool x -> x_pool_v6 x' = x_pool_v6 x -> x_router x' = x_router x ->
  live (x_registry x') = live (x_registry x) -> control (x_registry x') = control (x_registry x) ->
  by_conn (wallet (x_registry x')) = by_conn (wallet (x_registry x)) -> gains cn ∅ x x'.
Proof. intros E1 E2 E3 E4 E5 E6 me r. destruct r; simpl; rewrite ?E1, ?E2, ?E3, ?E4, ?E5, ?E6; auto. Qed.

Context {cn : Connection}.

Lemma gains_v4 k d i n x p r :
  allocate_v4 conn_id k d i n (x_pool x) = (p, r) -> gains cn {[Address]} x (set_pool p x).
Proof.
  intros E me [] Hh; simpl in *; auto. destruct (decide (@conn_id me = @conn_id cn)) as [Hc|Hc].
  - right. split; [by apply same_id|set_solver].
  - left. pose proof (allocate_v4_others (@conn_id cn) k d i n (x_pool x) _ Hc) as Hs. rewrite E in Hs. simpl in Hs. by rewrite <- Hs.
Qed.

Lemma gains_v6 k i l x p p' r :
  x_pool_v6 x = Some p -> allocate_v6 conn_id k i l p = (p', r) -> gains cn {[AddressV6]} x (set_pool_v6 (Some p') x).
Proof.
  intros Ep E me [] Hh; simpl in *; auto. destruct (decide (@conn_id me = @conn_id cn)) as [Hc|Hc].
  - right. split; [by apply same_id|set_solver].
  - left. pose proof (allocate_v6_others (@conn_id cn) k i l p _ Hc) as Hs. rewrite E in Hs. simpl in Hs.
    destruct Hh as (p1 & [= <-] & Hh). exists p. split; [done|]. by rewrite <- Hs.
Qed.

Lemma gains_register key c es x :
  gains cn {[Session key]} x (set_registry (register_key key conn_id c (x_registry x)) es x).
Proof.
  assert (Hr : forall r, live (if bool_decide (default ∅ (live r !! key) = ∅) then reset_for_new_session key r else r) = live r /\
    control (if bool_decide (default ∅ (live r !! key) = ∅) then reset_for_new_session key r else r) = control r /\
    wallet (if bool_decide (default ∅ (live r !! key) = ∅) then reset_for_new_session key r else r) = wallet r)
    by (intros r; case_bool_decide; [by destruct key|done]).
  destruct (Hr (x_registry x)) as (E1 & E2 & E3).
  intros me r Hh. destruct r; simpl in *; auto; try (by rewrite E2 in Hh; left); try (by rewrite E3 in Hh; left).
  destruct Hh as (conns & Hl & Hc). rewrite E1 in Hl.
  apply lookup_insert_Some in Hl as [[<- <-]|[Hne Hl]]; [|left; eauto].
  destruct (decide (@conn_id me = @conn_id cn)) as [Hd|Hd]; [right; split; [by apply same_id|set_solver]|].
  rewrite lookup_insert_ne in Hc by done. left. destruct (live (x_registry x) !! key); [by eexists|]. simpl in Hc.
  rewrite lookup_empty in Hc. by destruct Hc.
Qed.

Lemma gains_route ip x w :
  gains cn {[RouteV4 ip]} x (set_router (MultihopTunRouter.on_v4 (RouteTable.register w ip down_tx) (x_router x)) x).
Proof.
  intros me r Hh. destruct r; simpl in *; auto. apply register_serves in Hh as [Hh|[-> Hd]]; [by left|].
  right. split; [by apply same_channel|set_solver].
Qed.

Lemma gains_route_v6 ip x w :
  gains cn {[RouteV6 ip]} x (set_router (MultihopTunRouter.on_v6 (RouteTable.register w ip down_tx) (x_router x)) x).
Proof.
  intros me r Hh. destruct r; simpl in *; auto. apply register_serves in Hh as [Hh|[-> Hd]]; [by left|].
  right. split; [by apply same_channel|set_solver].
Qed.

Lemma gains_slot pk ip es x :
  gains cn {[Slot]} x (set_registry (set_wallet (fst (slot session_id pk ip conn_id (wallet (x_registry x)))) (x_registry x)) es x).
Proof.
  intros me r Hh. destruct r; simpl in *; auto.
  destruct (slot_tables session_id pk ip (@conn_id cn) (wallet (x_registry x))) as (e & n & _ & Eb & _). rewrite Eb in Hh.
  destruct (decide (@conn_id me = @conn_id cn)) as [Hd|Hd]; [right; split; [by apply same_id|set_solver]|].
  rewrite lookup_insert_ne in Hh by done. by left.
Qed.

Lemma gains_channel key tx es x :
  gains cn {[Channel key]} x (set_registry (attach_control key conn_id tx (x_registry x)) es x).
Proof.
  intros me r Hh. destruct r as [| | |key'| | |]; simpl in *; auto.
  destruct (decide ((key', @conn_id me) = (key, @conn_id cn))) as [[= -> Hd]|Hd]; [right; split; [by apply same_id|set_solver]|].
  rewrite lookup_insert_ne in Hh by done. by left.
Qed.

Lemma gains_detach key es x :
  gains cn ∅ x (set_registry (detach_control key conn_id (x_registry x)) es x).
Proof. intros me r Hh. left. destruct r; simpl in *; auto. apply lookup_delete_is_Some in Hh. by destruct Hh. Qed.

Lemma gains_leave_wallet key x :
  gains cn ∅ x (let '(r, es) := leave_wallet key conn_id (x_registry x) in set_registry r es x).
Proof.
  destruct key; simpl; try by apply gains_none. pose proof (leave_by_conn conn_id (wallet (x_registry x))) as Hb.
  destruct (leave conn_id _) as [t ended]. intros me r Hh. left. destruct r; simpl in *; auto.
  rewrite Hb in Hh. apply lookup_delete_is_Some in Hh. by destruct Hh.
Qed.

Lemma leave_live_shape key c r :
  let r' := fst (fst (leave_live key c r)) in
  wallet r' = wallet r /\ control r' = control r /\
  forall k conns, live r' !! k = Some conns ->
    exists conns', live r !! k = Some conns' /\ conns = (if decide (k = key) then delete c conns' else conns').
Proof.
  unfold leave_live. destruct (live r !! key) as [conns|] eqn:E.
  - case_bool_decide as Hd.
    + assert (Hx : forall k cs, delete key (live r) !! k = Some cs ->
        exists conns', live r !! k = Some conns' /\ cs = (if decide (k = key) then delete c conns' else conns')).
      { intros k cs [Hne Hl]%lookup_delete_Some. exists cs. split; [done|]. by rewrite decide_False. }
      destruct key; simpl; [done..|]. unfold forget_route. simpl. by case_bool_decide.
    + simpl. split; [done|]. split; [done|]. intros k cs [[<- <-]|[Hne Hl]]%lookup_insert_Some.
      * exists conns. by rewrite decide_True.
      * exists cs. by rewrite decide_False.
  - simpl. split; [done|]. split; [done|]. intros k cs Hl. exists cs. split; [done|]. rewrite decide_False; [done|]. congruence.
Qed.

Lemma gains_leave_live key x r ended es es' :
  leave_live key conn_id (x_registry x) = (r, ended, es) -> gains cn ∅ x (set_registry r es' x).
Proof.
  intros E me r0 Hh. left. destruct (leave_live_shape key (@conn_id cn) (x_registry x)) as (E1 & E2 & Hl). rewrite E in E1, E2, Hl. simpl in *.
  destruct r0 as [| |k| | | |]; simpl in *; auto; try (by rewrite E1 in Hh); try (by rewrite E2 in Hh).
  destruct Hh as (conns & Hk & Hc). destruct (Hl _ _ Hk) as (conns' & Hk' & ->). exists conns'. split; [done|].
  case_decide; [|done]. apply lookup_delete_is_Some in Hc. by destruct Hc.
Qed.

Lemma gains_attach ip c a peer x :
  gains cn ∅ x (set_router (MultihopTunRouter.on_v4 (RouteTable.attach_liveness ip c a peer) (x_router x)) x).
Proof. intros me r Hh. left. destruct r; simpl in *; auto. by apply attach_serves in Hh. Qed.

Lemma gains_attach_v6 ip c a peer x :
  gains cn ∅ x (set_router (MultihopTunRouter.on_v6 (RouteTable.attach_liveness ip c a peer) (x_router x)) x).
Proof. intros me r Hh. left. destruct r; simpl in *; auto. by apply attach_serves in Hh. Qed.

Lemma gains_unregister ip c x :
  gains cn ∅ x (set_router (MultihopTunRouter.on_v4 (RouteTable.unregister_if_owner ip c) (x_router x)) x).
Proof. intros me r Hh. left. destruct r; simpl in *; auto. by apply unregister_serves in Hh as [? _]. Qed.

Lemma gains_unregister_v6 ip c x :
  gains cn ∅ x (set_router (MultihopTunRouter.on_v6 (RouteTable.unregister_if_owner ip c) (x_router x)) x).
Proof. intros me r Hh. left. destruct r; simpl in *; auto. by apply unregister_serves in Hh as [? _]. Qed.

Lemma gains_release x : gains cn ∅ x (set_pool (IpAllocator.release conn_id (x_pool x)) x).
Proof.
  intros me r Hh. left. destruct r; simpl in *; auto. destruct (decide (@conn_id me = @conn_id cn)) as [Hd|Hd].
  - rewrite Hd, release_gone in Hh. by destruct Hh.
  - by rewrite (release_others _ (x_pool x) _ Hd) in Hh.
Qed.

Lemma gains_release_v6 x : gains cn ∅ x (set_pool_v6 (IpAllocatorV6.release conn_id <$> x_pool_v6 x) x).
Proof.
  intros me r Hh. left. destruct r; simpl in *; auto. destruct Hh as (p & Hp & Hh).
  apply fmap_Some in Hp as (p0 & Hp & ->). exists p0. split; [done|]. destruct (decide (@conn_id me = @conn_id cn)) as [Hd|Hd].
  - rewrite Hd, v6_release_gone in Hh. by destruct Hh.
  - by rewrite (v6_release_others _ p0 _ Hd) in Hh.
Qed.

(** ** The other connections *)

Lemma filed_slot me pk ip es x : (@conn_id me = conn_id (Connection := cn) -> ~ holds me x Slot) ->
  well_filed me x -> well_filed me (set_registry (set_wallet (fst (slot session_id pk ip (@conn_id cn) (wallet (x_registry x)))) (x_registry x)) es x).
Proof.
  intros Hn. apply slot_filed. intros Hd. rewrite <- Hd. apply eq_None_not_Some, Hn. exact Hd.
Qed.

Lemma filed_mark me ws es x :
  well_filed me x -> well_filed me (set_registry (set_wallet (mark_admitted ws (wallet (x_registry x))) (x_registry x)) es x).
Proof using L.
  intros Hf key e Hl Hd. simpl in *. destruct (mark_tables ws (wallet (x_registry x))) as [Hb Hs]. rewrite Hb.
  destruct (Hs _ _ Hl) as (e' & Hl' & Ee). rewrite Ee in Hd. by eapply Hf.
Qed.

Lemma filed_leave_wallet me key x :
  well_filed me x -> well_filed me (let '(r, es) := leave_wallet key (@conn_id cn) (x_registry x) in set_registry r es x).
Proof.
  destruct key; simpl; try done. intros Hf. apply (leave_filed (@conn_id cn)) in Hf. by destruct (leave _ _).
Qed.

Lemma filed_same me x x' : wallet (x_registry x') = wallet (x_registry x) -> well_filed me x -> well_filed me x'.
Proof. unfold well_filed. by intros ->. Qed.

Lemma filed_leave_live me key x r ended es es' :
  leave_live key (@conn_id cn) (x_registry x) = (r, ended, es) -> well_filed me x -> well_filed me (set_registry r es' x).
Proof.
  intros E. apply filed_same. simpl. destruct (leave_live_shape key (@conn_id cn) (x_registry x)) as (Ew & _). by rewrite E in Ew.
Qed.

Lemma filed_register me key c es x :
  well_filed me x -> well_filed me (set_registry (register_key key (@conn_id cn) c (x_registry x)) es x).
Proof. apply filed_same. unfold register_key. simpl. case_bool_decide; [by destruct key|done]. Qed.

(** Sections that give nothing to anyone. *)
Section Anyone.
Context (me : Connection).

Lemma spared_none x x' : gains cn ∅ x x' -> (well_filed me x -> well_filed me x') -> leaves_alone me x x'.
Proof. intros Hg Hf. split; [|done]. intros r [?|[_ ?]]%Hg; [done|set_solver]. Qed.

Lemma spared_quiet x x' :
  x_pool x' = x_pool x -> x_pool_v6 x' = x_pool_v6 x -> x_router x' = x_router x ->
  live (x_registry x') = live (x_registry x) -> control (x_registry x') = control (x_registry x) ->
  wallet (x_registry x') = wallet (x_registry x) -> leaves_alone me x x'.
Proof. intros E1 E2 E3 E4 E5 E6. apply spared_none; [apply gains_none; congruence|by apply filed_same]. Qed.

End Anyone.

Ltac spare_none :=
  first [ apply spared_quiet; by repeat case_match
        | apply spared_none;
          [first [apply gains_detach|apply gains_leave_wallet|apply gains_attach|apply gains_attach_v6|apply gains_unregister
              |apply gains_unregister_v6|apply gains_release|apply gains_release_v6|by eapply gains_leave_live]
          |first [by apply filed_same|by apply filed_leave_wallet|by eapply filed_leave_live]] ].

Ltac spares_none :=
  first [ apply guarantee_read; intros ?; reflexivity | apply guarantee_update; intros ?; spare_none
        | apply guarantee_section; intros ?; spare_none ].

Section AnyTask.
Context (me : Connection).

Lemma refuse_spares term n d : guarantee (leaves_alone me) (refuse (cn := cn) term n d).
Proof. unfold refuse. walk; spares_none. Qed.

Lemma drop_guard_spares key : guarantee (leaves_alone me) (drop_guard (cn := cn) key).
Proof.
  unfold drop_guard. walk; try spares_none. apply guarantee_section. intros x.
  destruct (leave_live key (@conn_id cn) (x_registry x)) as [[r ended] es] eqn:E. spare_none.
Qed.

Lemma authorize_spares msg key : guarantee (leaves_alone me) (authorize (cn := cn) msg key).
Proof.
  unfold authorize, classify_admission, allowed_at, serial_held_by_another_session, is_token_serial_live_task. walk; spares_none.
Qed.

Lemma build_spares bytes now budget : guarantee (leaves_alone me) (build_setup_termination bytes now budget).
Proof. unfold build_setup_termination. walk; spares_none. Qed.

Lemma replay_spares term : guarantee (leaves_alone me) (check_replay term).
Proof. unfold check_replay. walk; spares_none. Qed.

Lemma liveness_spares o : guarantee (leaves_alone me) (attach_liveness (cn := cn) o).
Proof. unfold attach_liveness. walk; spares_none. Qed.

Lemma allowed_spares pk now : guarantee (leaves_alone me) (allowed_at pk now).
Proof. unfold allowed_at. walk; spares_none. Qed.

End AnyTask.

Section Others.
Context (me : Connection) (Hap : apart me cn).

Lemma spared rs x x' : gains cn rs x x' -> (well_filed me x -> well_filed me x') -> leaves_alone me x x'.
Proof using Hap. intros Hg Hf. split; [|done]. intros r [?|[? _]]%Hg; done. Qed.

(** One section of the other connection. *)
Ltac spare :=
  first [ spare_none
        | eapply spared; [first [apply gains_register|apply gains_route|apply gains_route_v6|apply gains_channel
              |by eapply gains_v4|by eapply gains_v6]
          |first [by apply filed_same|by apply filed_register]] ].

Ltac spares :=
  first [ spares_none | apply guarantee_update; intros ?; spare | apply guarantee_section; intros ?; spare ].

Lemma allocate_spares k v6 pref n : guarantee (leaves_alone me) (allocate_on_first_frame (@conn_id cn) k v6 pref n).
Proof using Hap.
  unfold allocate_on_first_frame. walk; try spares; apply guarantee_section; intros x.
  - destruct (allocate_v4 _ _ _ _ _ _) as [p' r] eqn:E. spare.
  - destruct (x_pool_v6 x) as [p0|] eqn:Ep; [|reflexivity]. destruct (allocate_v6 _ _ _ _ _) as [p' r] eqn:E. spare.
Qed.

Lemma wallet_spares g ip : guarantee (leaves_alone me) (open_wallet_session (cn := cn) g ip).
Proof using Hap L.
  unfold open_wallet_session. walk.
  - apply guarantee_section. intros x. pose proof (gains_slot z ip [] x) as Hg. pose proof (filed_slot me z ip [] x) as Hf.
    destruct (slot _ _ _ _ _) as [t sl]. simpl in *. eapply spared; [done|]. apply Hf. by destruct Hap.
  - apply guarantee_update. intros x. eapply spared; [|apply filed_mark]. apply gains_none; try done.
    apply mark_tables.
Qed.

Lemma serve_spares term w g guard : guarantee (leaves_alone me) (serve_grant (cn := cn) term w g guard).
Proof using Hap L.
  unfold serve_grant, announce_address. walk; first [apply allocate_spares|apply refuse_spares|apply wallet_spares|spares].
Qed.

Lemma setup_spares bytes : guarantee (leaves_alone me) (run_setup (cn := cn) bytes).
Proof using Hap L.
  unfold run_setup, process_setup_frame, register_and_serve.
  walk; first [apply build_spares|apply replay_spares|apply allowed_spares|apply refuse_spares|apply authorize_spares|apply serve_spares|apply drop_guard_spares|spares].
Qed.

Lemma connection_spares draining bytes : guarantee (leaves_alone me) (terminate_connection (cn := cn) draining bytes).
Proof using Hap L.
  unfold terminate_connection, serve_terminating_connection, attach_route_control.
  walk; first [apply setup_spares|apply liveness_spares|apply drop_guard_spares|spares].
Qed.

End Others.


(** ** The connection itself *)

(** It holds at most [rs]. *)
Definition holding (rs : propset Resource) (x : Exit) : Prop := (forall r, holds cn x r -> r ∈ rs) /\ well_filed cn x.

Abbreviation own := (triple (leaves_alone cn)).

Lemma holding_stable rs : stable (leaves_alone cn) (holding rs).
Proof. intros x x' [H1 H2] [H3 H4]. split; auto. Qed.
#[local] Hint Resolve holding_stable : core.

Lemma holding_gains rs rs' x x' :
  gains cn rs' x x' -> (well_filed cn x -> well_filed cn x') -> holding rs x -> holding (rs ∪ rs') x'.
Proof. intros Hg Hf [Hh Hw]. split; [|auto]. intros r Hr. apply Hg in Hr as [?%Hh|[_ ?]]; set_solver. Qed.

Lemma holding_loses rs gone x x' :
  leaves_alone cn x x' -> (forall r, r ∈ gone -> ~ holds cn x' r) -> holding rs x -> holding (rs ∖ gone) x'.
Proof. intros [Hg Hf] Hn [Hh Hw]. split; [|auto]. intros r Hr. apply elem_of_difference. split; [auto|]. intros Hr2. by apply (Hn r). Qed.

Lemma holding_subset rs rs' x : rs ⊆ rs' -> holding rs x -> holding rs' x.
Proof. intros Hs [Hh Hw]. split; [set_solver|done]. Qed.

Lemma own_keeps {A} rs (t : Task Exit A) : guarantee (leaves_alone cn) t -> own (holding rs) t (fun _ => holding rs).
Proof. by apply triple_stays. Qed.

Lemma own_gains rs rs' (f : Exit -> Exit) :
  (forall x, gains cn rs' x (f x)) -> (forall x, well_filed cn x -> well_filed cn (f x)) ->
  own (holding rs) (update f) (fun _ => holding (rs ∪ rs')).
Proof. intros Hg Hf. apply triple_update; [done..|]. intros x. apply holding_gains; auto. Qed.

Lemma own_loses rs gone (f : Exit -> Exit) :
  (forall x, leaves_alone cn x (f x)) -> (forall x r, r ∈ gone -> ~ holds cn (f x) r) ->
  own (holding rs) (update f) (fun _ => holding (rs ∖ gone)).
Proof. intros Hg Hn. apply triple_update; [done..|]. intros x. apply holding_loses; auto. Qed.

(** The slot goes with the guard of a wallet session. *)
Definition slot_of (key : SessionKey) : propset Resource := match key with Wallet _ => {[Slot]} | _ => ∅ end.

Lemma lose_detach key es x : ~ holds cn (set_registry (detach_control key conn_id (x_registry x)) es x) (Channel key).
Proof. simpl. rewrite lookup_delete_eq. by intros []. Qed.

Lemma lose_slot key x r : r ∈ slot_of key ->
  ~ holds cn (let '(r, es) := leave_wallet key conn_id (x_registry x) in set_registry r es x) r.
Proof.
  destruct key; simpl; try set_solver. intros ->%elem_of_singleton.
  pose proof (leave_by_conn conn_id (wallet (x_registry x))) as Hb. destruct (leave conn_id _) as [t ended]. simpl in *.
  rewrite Hb, lookup_delete_eq. by intros [].
Qed.

Lemma lose_live key x r ended es es' :
  leave_live key conn_id (x_registry x) = (r, ended, es) -> ~ holds cn (set_registry r es' x) (Session key).
Proof.
  intros E (conns & Hl & Hc). destruct (leave_live_shape key conn_id (x_registry x)) as (_ & _ & Hs). rewrite E in Hs.
  destruct (Hs _ _ Hl) as (conns' & _ & ->). rewrite decide_True, lookup_delete_eq in Hc by done. by destruct Hc.
Qed.

Ltac next_section := eapply triple_bind; [typeclasses eauto| |intros ?].

Lemma own_drop_guard rs key :
  own (holding rs) (drop_guard key) (fun _ => holding (rs ∖ {[Channel key]} ∖ slot_of key ∖ {[Session key]})).
Proof.
  unfold drop_guard. next_section.
  { apply own_loses with (gone := {[Channel key]}); [intros x; spare_none|]. intros x r ->%elem_of_singleton. apply lose_detach. }
  next_section.
  { apply own_loses with (gone := slot_of key); [intros x; spare_none|]. intros x r. apply lose_slot. }
  next_section.
  { apply triple_section with (Q := fun _ => holding (rs ∖ {[Channel key]} ∖ slot_of key ∖ {[Session key]})); [done..|].
    intros x. destruct (leave_live key conn_id (x_registry x)) as [[r ended] es] eqn:E. simpl. apply holding_loses; [spare_none|].
    intros r0 ->%elem_of_singleton. by eapply lose_live. }
  apply own_keeps. walk; spares_none.
Qed.

Definition is_route (r : Resource) : bool := match r with RouteV4 _ | RouteV6 _ => true | _ => false end.

Definition route_v6 (ip : option Z) : propset Resource := match ip with Some ip => {[RouteV6 ip]} | None => ∅ end.

(** What a setup can leave behind: the routes of the address it gave, if the answer that says so could not be delivered. *)
Definition leftover (term : SetupTermination) : propset Resource :=
  {[ r | exists spec daita, (daita = offered_daita \/ daita = None) /\ delivered term spec daita = false /\
         r ∈ ({[RouteV4 (assigned spec)]} ∪ route_v6 (assigned_v6 spec) : propset Resource) ]}.

(** The setup frame of these bytes. *)
Definition carries (bytes : list Z) (term : SetupTermination) : Prop :=
  match term with TermV1 _ f _ => decode_frame bytes = Ok f | TermV2 _ f _ => decode_frame_v2 bytes = Ok f end.

Definition left_by (bytes : option (list Z)) : propset Resource :=
  {[ r | exists b term, bytes = Some b /\ carries b term /\ r ∈ leftover term ]}.

#[local] Typeclasses Opaque leftover left_by.
Definition routes_of (o : SetupOutcome) : propset Resource := {[RouteV4 (o_assigned_ip o)]} ∪ route_v6 (o_assigned_ip_v6 o).

Lemma undelivered rs term spec daita x : daita = offered_daita \/ daita = None -> delivered term spec daita = false ->
  holding (rs ∪ {[RouteV4 (assigned spec)]} ∪ route_v6 (assigned_v6 spec)) x -> holding (rs ∪ leftover term) x.
Proof.
  intros Ho Hd. apply holding_subset. intros r. rewrite !elem_of_union. intros Hr.
  destruct Hr as [[Hr|Hr]|Hr]; [by left|right; exists spec, daita; set_solver..].
Qed.

Lemma own_announce rs term g guard spec :
  own (holding rs) (announce_address term g guard spec) (fun r =>
    match r with Some o => fun x => o_guard o = guard /\ holding (rs ∪ routes_of o) x | None => holding (rs ∪ leftover term) end).
Proof.
  unfold announce_address. next_section.
  { apply own_gains with (rs' := {[RouteV4 (assigned spec)]}); [intros x; apply gains_route|intros x; by apply filed_same]. }
  next_section. { instantiate (1 := fun _ => holding (rs ∪ {[RouteV4 (assigned spec)]})). apply own_keeps. walk; spares_none. }
  next_section.
  { instantiate (1 := fun _ => holding (rs ∪ {[RouteV4 (assigned spec)]} ∪ route_v6 (assigned_v6 spec))).
    destruct (assigned_v6 spec) as [ip|]; simpl.
    - apply own_gains; [intros x; apply gains_route_v6|intros x; by apply filed_same].
    - apply triple_finished; [done|]. intros x. apply holding_subset. set_solver. }
  set (daita := if g_daita g then offered_daita else None). assert (Hd : daita = offered_daita \/ daita = None) by (unfold daita; destruct (g_daita g); auto).
  pose proof (fun x => undelivered rs term spec daita x Hd) as Hu. unfold delivered in Hu.
  destruct (result_ok _) as [p|]; [|apply triple_finished; [done|]; intros x; apply Hu; by rewrite andb_false_r].
  simpl in Hu. destruct (seal_reply _ _ _ _) as [b|]; [|apply triple_finished; [done|]; intros x; apply Hu; by rewrite andb_false_r].
  destruct m_written; [|apply triple_finished; [done|]; intros x; by apply Hu].
  cbv beta iota delta [negb]. next_section. { apply own_keeps. spares_none. }
  destruct m_finished; cbv beta iota; apply triple_finished; try done; intros x; [|by apply Hu].
  intros Hx. split; [done|]. revert Hx. apply holding_subset. unfold routes_of. simpl. set_solver.
Qed.

Definition addresses : propset Resource := {[Address; AddressV6]}.

Lemma own_allocate rs k v6 pref n :
  own (holding rs) (allocate_on_first_frame conn_id k v6 pref n) (fun _ => holding (rs ∪ addresses)).
Proof.
  unfold allocate_on_first_frame. next_section.
  { apply triple_section with (Q := fun _ => holding (rs ∪ {[Address]})); [done..|]. intros x.
    destruct (allocate_v4 _ _ _ _ _ _) as [p r] eqn:E. apply holding_gains; [by eapply gains_v4|by apply filed_same]. }
  destruct a as [[[[ip gw] len] siblings]|]; [|apply triple_finished; [done|]; intros x; apply holding_subset; set_solver].
  eapply triple_bind with (M := fun _ => holding (rs ∪ addresses)); [typeclasses eauto| |intros b; by apply triple_finished].
  destruct v6; simpl.
  - apply triple_section; [done..|]. intros x.
    destruct (x_pool_v6 x) as [p|] eqn:Ep; [|apply holding_subset; set_solver].
    destruct (allocate_v6 _ _ _ _ _) as [p' r] eqn:E. intros Hx.
    eapply holding_subset; [|eapply holding_gains; [by eapply gains_v6|by apply filed_same|exact Hx]]. set_solver.
  - apply triple_finished; [done|]. intros x. apply holding_subset. set_solver.
Qed.

Lemma own_wallet rs g ip :
  Slot ∉ rs ->
  own (holding rs) (open_wallet_session g ip) (fun _ => holding (rs ∪ from_option slot_of ∅ (guard_key g))).
Proof using L.
  intros Hn. assert (Hsame : forall rs', own (holding rs) (Finished None : Task Exit (option SetupAdmission.t)) (fun _ => holding (rs ∪ rs')))
    by (intros rs'; apply triple_finished; [done|]; intros x; apply holding_subset; set_solver).
  unfold open_wallet_session, guard_key.
  destruct wallet_gate as [gate|]; [|done]. destruct has_registry; [|done]. destruct (g_sticky g) as [pk|]; [|done].
  destruct (g_token g), (g_route g); try done. cbn [negb fmap option_fmap option_map from_option slot_of]. next_section.
  { apply triple_section with (Q := fun _ => holding (rs ∪ {[Slot]})); [done..|]. intros x.
    pose proof (gains_slot pk ip [] x) as Hg. pose proof (filed_slot cn pk ip [] x) as Hf.
    destruct (slot _ _ _ _ _) as [t sl]. intros Hx. apply (holding_gains rs _ x); [done| |done]. apply Hf. intros _ Hs. by apply Hx in Hs. }
  destruct a as [|ws]; [by apply triple_finished|]. destruct (gate ws) as [[]|]; try by apply triple_finished.
  eapply triple_bind with (M := fun _ => holding (rs ∪ {[Slot]})); [typeclasses eauto| |intros b; by apply triple_finished].
  apply own_keeps, guarantee_update. intros x.
  apply spared_none; [|apply filed_mark]. apply gains_none; try done. apply mark_tables.
Qed.

Lemma own_serve rs term w g :
  Slot ∉ rs ->
  own (holding rs) (serve_grant term w g (guard_key g)) (fun r =>
    let rs' := rs ∪ addresses ∪ from_option slot_of ∅ (guard_key g) in
    match r with Some o => fun x => o_guard o = guard_key g /\ holding (rs' ∪ routes_of o) x | None => holding (rs' ∪ leftover term) end).
Proof using L.
  intros Hn. unfold serve_grant. next_section. { apply own_allocate. }
  destruct a as [spec|].
  - next_section. { apply own_wallet. set_solver. }
    destruct a as [v|].
    + next_section. { apply own_keeps. spares_none. }
      next_section. { apply own_keeps. apply refuse_spares. }
      apply triple_finished; [done|]. intros x. apply holding_subset. set_solver.
    + next_section. { apply own_keeps. walk. spares_none. }
      apply own_announce.
  - next_section. { apply own_keeps. apply refuse_spares. }
    apply triple_finished; [done|]. intros x. apply holding_subset. set_solver.
Qed.

(** What a served connection holds. *)
Definition guarded (guard : option SessionKey) : propset Resource :=
  match guard with Some key => {[Session key]} ∪ slot_of key | None => ∅ end.
Definition served (o : SetupOutcome) : propset Resource := addresses ∪ guarded (o_guard o) ∪ routes_of o.

Definition settled (left : propset Resource) (r : option SetupOutcome) : Exit -> Prop :=
  match r with Some o => holding (served o) | None => holding (addresses ∪ left) end.

Lemma settled_stable left r : stable (leaves_alone cn) (settled left r).
Proof. destruct r; apply holding_stable. Qed.
#[local] Hint Resolve settled_stable : core.

Lemma own_register term w g : own (holding ∅) (register_and_serve term w g) (settled (leftover term)).
Proof using L.
  unfold register_and_serve. destruct (guard_key g) as [key|] eqn:Ek.
  - next_section. { apply own_gains with (rs' := {[Session key]}); [intros x; apply gains_register|intros x; apply filed_register]. }
    next_section. { instantiate (1 := fun _ => holding (∅ ∪ {[Session key]})). apply own_keeps. walk. spares_none. }
    next_section. { instantiate (1 := fun _ => holding (∅ ∪ {[Session key]})). apply own_keeps. walk; apply allowed_spares. }
    pose proof (own_serve (∅ ∪ {[Session key]}) term w g ltac:(set_solver)) as Hserve. rewrite Ek in Hserve. simpl in Hserve.
    next_section.
    { instantiate (1 := fun r => match r with
        | Some o => holding (served o)
        | None => holding ({[Session key]} ∪ addresses ∪ slot_of key ∪ leftover term) end).
      destruct a1.
      - eapply triple_weaken; [done|exact Hserve|]. intros [o|] x.
        + intros [Hg Hx]. revert Hx. unfold served. rewrite Hg. apply holding_subset. set_solver.
        + apply holding_subset. set_solver.
      - next_section. { apply own_keeps. spares_none. } next_section. { apply own_keeps. spares_none. }
        apply triple_finished; [done|]. intros x. apply holding_subset. set_solver. }
    destruct a2 as [o|]; [by apply triple_finished|]. next_section. { apply own_drop_guard. }
    apply triple_finished; [done|]. intros x. apply holding_subset. generalize (leftover term). intros left r. destruct key; set_solver.
  - eapply triple_weaken; [done|rewrite <- Ek; apply (own_serve ∅); set_solver|]. rewrite Ek. intros [o|] x; simpl.
    + intros [Hg Hx]. revert Hx. unfold served. rewrite Hg. apply holding_subset. set_solver.
    + apply holding_subset. set_solver.
Qed.

Lemma build_carries bytes now budget x tr term x' :
  history (leaves_alone cn) (build_setup_termination bytes now budget) x tr (Some term) x' -> carries bytes term.
Proof.
  unfold build_setup_termination. case_bool_decide as Hv.
  - destruct pq; [|by intros (_ & ? & _)%history_done]. destruct (decode_frame_v2 bytes) as [f|] eqn:Ef; [|by intros (_ & ? & _)%history_done].
    cbn [negb]. case_bool_decide; [|by intros (_ & ? & _)%history_done]. cbn [negb]. case_bool_decide; [by intros (_ & ? & _)%history_done|].
    intros (y & _ & _ & Hr & _)%history_section. destruct (establish_or_get_at _ _ _ _ _ _) as [[c h] [hd|]]; [|done]. by injection Hr as ->.
  - destruct (decode_frame bytes) as [f|] eqn:Ef; [|by intros (_ & ? & _)%history_done]. case_bool_decide; [|by intros (_ & ? & _)%history_done].
    cbn [negb]. intros (y & _ & _ & Hr & _)%history_section. destruct (get_or_insert_at _ _ _ _ _ _ _) as [[c h] [hd|]]; [|done]. by injection Hr as ->.
Qed.

Lemma own_build bytes now budget :
  own (holding ∅) (build_setup_termination bytes now budget) (fun r x => holding ∅ x /\ forall term, r = Some term -> carries bytes term).
Proof.
  intros x tr r x' Hh Hx. split; [|intros term ->; by eapply build_carries].
  exact (own_keeps ∅ _ (build_spares cn bytes now budget) x tr r x' Hh Hx).
Qed.

Lemma own_setup bytes : own (holding ∅) (run_setup bytes) (settled (left_by bytes)).
Proof using L.
  assert (Hnone : own (holding ∅) (Finished None) (settled (left_by bytes)))
    by (apply triple_finished; [done|]; intros x; apply holding_subset; set_solver).
  unfold run_setup. destruct bytes as [bytes|]; [|done]. unfold process_setup_frame.
  eapply triple_bind; [typeclasses eauto|apply own_build|]. intros a. apply triple_pure. intros Hb.
  destruct a as [term|]; [|done]. specialize (Hb term eq_refl). destruct (term_open term) as [plaintext|]; [|done].
  next_section. { apply own_keeps, replay_spares. }
  destruct a; [|done]. cbv beta iota zeta delta [negb]. next_section. { apply own_keeps, authorize_spares. }
  destruct a as [g|detail].
  - eapply triple_weaken; [done|apply own_register|]. intros [o|] x; [done|]. apply holding_subset. intros r. rewrite !elem_of_union.
    intros [?|Hr]; [by left|]. right. by exists bytes, term.
  - next_section. { apply own_keeps, refuse_spares. } done.
Qed.

Lemma lose_route ip x :
  ~ holds cn (set_router (MultihopTunRouter.on_v4 (RouteTable.unregister_if_owner ip down_tx) (x_router x)) x) (RouteV4 ip).
Proof. simpl. intros Hh. by apply unregister_serves in Hh as [_ []]. Qed.

Lemma lose_route_v6 ip x :
  ~ holds cn (set_router (MultihopTunRouter.on_v6 (RouteTable.unregister_if_owner ip down_tx) (x_router x)) x) (RouteV6 ip).
Proof. simpl. intros Hh. by apply unregister_serves in Hh as [_ []]. Qed.

(** The channel attached to the guard. *)
Definition channel (guard : option SessionKey) : propset Resource :=
  match guard with Some key => {[Channel key]} | None => ∅ end.

Lemma own_channel rs guard : own (holding rs) (attach_route_control guard) (fun _ => holding (rs ∪ channel guard)).
Proof.
  unfold attach_route_control. destruct guard as [key|]; simpl.
  - destruct has_registry; simpl.
    + apply own_gains; [intros x; apply gains_channel|intros x; by apply filed_same].
    + apply triple_finished; [done|]. intros x. apply holding_subset. set_solver.
  - apply triple_finished; [done|]. intros x. apply holding_subset. set_solver.
Qed.

Lemma own_unroute_v6 rs ip6 :
  own (holding rs) match ip6 with
    | Some ip6 => update (fun x => set_router (MultihopTunRouter.on_v6 (RouteTable.unregister_if_owner ip6 down_tx) (x_router x)) x)
    | None => Finished tt
    end (fun _ => holding (rs ∖ route_v6 ip6)).
Proof.
  destruct ip6 as [ip6|]; simpl.
  - apply own_loses; [intros x; spare_none|]. intros x r ->%elem_of_singleton. apply lose_route_v6.
  - apply triple_finished; [done|]. intros x. apply holding_subset. set_solver.
Qed.

Lemma own_served bytes : own (holding ∅) (serve_terminating_connection bytes) (fun _ => holding (addresses ∪ left_by bytes)).
Proof using L.
  unfold serve_terminating_connection. next_section. { apply own_setup. }
  destruct a as [o|]; [|by apply triple_finished]. cbn [settled].
  next_section. { apply own_keeps, liveness_spares. } next_section. { apply own_channel. }
  next_section.
  { apply own_loses with (gone := {[RouteV4 (o_assigned_ip o)]}); [intros x; spare_none|].
    intros x r ->%elem_of_singleton. apply lose_route. }
  next_section. { apply own_unroute_v6. } next_section. { apply own_keeps. spares_none. }
  unfold served, routes_of. destruct (o_guard o) as [key|]; simpl.
  - eapply triple_weaken; [done|apply own_drop_guard|]. intros u x. apply holding_subset. generalize (left_by bytes). intros left r. destruct key; set_solver.
  - apply triple_finished; [done|]. intros x. apply holding_subset. set_solver.
Qed.

Lemma own_connection draining bytes :
  own (holding ∅) (terminate_connection draining bytes) (fun _ => holding (left_by bytes)).
Proof using L.
  unfold terminate_connection. destruct draining.
  - eapply triple_weaken; [done|apply own_keeps; spares_none|]. intros u x. apply holding_subset. set_solver.
  - next_section. { apply own_served. }
    next_section.
    { apply own_loses with (gone := {[Address]}); [intros x; spare_none|]. intros x r ->%elem_of_singleton. simpl.
      rewrite release_gone. by intros []. }
    eapply triple_weaken; [done|apply own_loses with (gone := {[AddressV6]}); [intros x; spare_none|]|].
    + intros x r ->%elem_of_singleton (p & (p0 & Hp & ->)%fmap_Some & Hh). rewrite v6_release_gone in Hh. by destruct Hh.
    + intros u x. apply holding_subset. intros r. unfold addresses. set_solver.
Qed.

End Resources.

(** C6.  Nothing is left of a connection.  However the connections of the exit interleave,
    lock by lock, no connection ever gives another one an address, a place in the
    registry, a wallet slot or a route.  And a connection that came with none of these
    leaves with none when its task ends, served or refused, revoked meanwhile or not; all
    that can stay behind is a downlink route of the address it was given, and only if the answer
    to its own setup frame that says so could not be delivered. *)
Theorem connection_leaves_nothing `{H : Hpke} `{P : Postcard} `{C : !PqCrypto H} `{Q : !PostcardV2 P} `{CP : ControlPostcard}
  `{M : MapOrder} `{L : !MapOrderLaws M} {cfg : ExitConfig H C} {cn : Connection} draining bytes :
  (forall me, apart me cn -> guarantee (leaves_alone me) (terminate_connection (cn := cn) draining bytes)) /\
  (forall x tr u x',
     (forall r, ~ holds cn x r) ->
     (forall key e, sessions (wallet (x_registry x)) !! key = Some e -> @conn_id cn ∉ entry_conns e) ->
     history (leaves_alone cn) (terminate_connection (cn := cn) draining bytes) x tr u x' ->
     (forall key e, sessions (wallet (x_registry x')) !! key = Some e -> @conn_id cn ∉ entry_conns e) /\
     (forall r, holds cn x' r -> is_route r = true /\ exists b term spec daita, bytes = Some b /\ carries b term /\
        (daita = offered_daita \/ daita = None) /\ delivered term spec daita = false /\
        (r = RouteV4 (assigned spec) \/ exists ip, assigned_v6 spec = Some ip /\ r = RouteV6 ip))).
Proof.
  split; [intros me Hap; by apply connection_spares|]. intros x tr u x' Hn Hs Hh.
  destruct (own_connection draining bytes x tr u x' Hh) as [Hl Hf].
  { split; [intros r Hr; by apply Hn in Hr|]. intros key e Hk Hc. by destruct (Hs key e Hk Hc). }
  assert (Hroutes : forall r, holds cn x' r -> is_route r = true /\ exists b term spec daita, bytes = Some b /\ carries b term /\
    (daita = offered_daita \/ daita = None) /\ delivered term spec daita = false /\
    (r = RouteV4 (assigned spec) \/ exists ip, assigned_v6 spec = Some ip /\ r = RouteV6 ip)).
  { intros r (b & term & Hb & Hc & spec & daita & Ho & Hd & Hr)%Hl. apply elem_of_union in Hr as [->%elem_of_singleton|Hr].
    - split; [done|]. exists b, term, spec, daita. auto 10.
    - unfold route_v6 in Hr. destruct (assigned_v6 spec) as [ip|] eqn:E6; [|set_solver]. apply elem_of_singleton in Hr as ->.
      split; [done|]. exists b, term, spec, daita. eauto 10. }
  split; [|done]. intros key e Hk Hc. specialize (Hf _ _ Hk Hc). destruct (Hroutes Slot) as [? _]; [by eexists|done].
Qed.

Definition toy_terminated (written : bool) :=
  alone (terminate_connection (cn := toy_connection written) false (Some toy_hello)) toy_exit.

Lemma fresh_holds_nothing b r : ~ holds (toy_connection b) toy_exit r.
Proof.
  assert (Hl : forall V (m : gmap SessionKey V) k, m = ∅ -> m !! k = None) by (intros V m k ->; apply lookup_empty).
  destruct r as [| |key|key| |ip|ip]; unfold holds.
  - by intros [? [=]].
  - by intros (p & [=] & _).
  - intros (conns & Hk & _). by rewrite (Hl _ (live _)) in Hk.
  - intros [tx Hk]. change (control (x_registry toy_exit)) with (∅ : gmap (SessionKey * Z) nat) in Hk. by rewrite lookup_empty in Hk.
  - by intros [? [=]].
  - intros (slot & Hk & _). change (RouteTable.routes _) with (∅ : gmap Z RouteSlot.t) in Hk. by rewrite lookup_empty in Hk.
  - intros (slot & Hk & _). change (RouteTable.routes _) with (∅ : gmap Z RouteSlot.t) in Hk. by rewrite lookup_empty in Hk.
Qed.

Lemma connection_leaves_nothing_witness :
  is_Some (snd (fst (toy_served true))) /\
  forall r, is_route r = false -> ~ holds (toy_connection true) (snd (toy_terminated true)) r.
Proof.
  split; [destruct (snd (fst (toy_served true))) eqn:E; [eexists; reflexivity|vm_compute in E; discriminate E]|].
  intros r Hr Hh. destruct (toy_terminated true) as [[tr u] x'] eqn:E.
  destruct (connection_leaves_nothing (cfg := toy_config) (cn := toy_connection true) false (Some toy_hello)) as [_ Hn].
  destruct (Hn toy_exit tr u x') as [_ Hl].
  - apply fresh_holds_nothing.
  - intros key e Hk. simpl in Hk. rewrite lookup_empty in Hk. discriminate Hk.
  - exact (alone_history (leaves_alone (toy_connection true)) _ _ _ _ _ E).
  - destruct (Hl r Hh) as [Hr' _]. rewrite Hr in Hr'. discriminate Hr'.
Defined.

(** When the answer cannot be written, the route outlives the connection, although the
    address has gone back to the pool. *)
Lemma lost_answer_leaves_route :
  (fun slot => tx <$> RouteSlot.senders slot) <$>
    RouteTable.routes (MultihopTunRouter.routes (x_router (snd (toy_terminated false)))) !! ipv4 10 66 0 2 = Some [1%nat] /\
  IpAllocator.used_count (x_pool (snd (toy_terminated false))) = O.
Proof. split; vm_compute; reflexivity. Qed.
