(* ===== verification/Revocation.v ===== *)
(** Revocation against admission.

    [terminate] and [terminate_where] of the session registry as tasks, next to setups of
    the same account: whoever is served while its key is being revoked is closed, because
    a setup registers its connection first and asks the allowlist again afterwards.  The
    two reads of the allowlist, and the updates of it, are under separate locks; the
    lemmas at the end show what that lets through. *)

From S2P Require Import Prelude ReplayWindow MultihopSession PqSession ExitReceive Control IpHoldings IpPool IpPoolV6 RouteTable.
From S2P Require Import StatusCodes SessionRegistry Allowlist Tasks ExitSetup SetupGuarantees Teardown.
Import MultihopSession.
#[local] Open Scope Z_scope.
#[local] Open Scope task_scope.

Section Revocation.
Context `{H : Hpke} `{P : Postcard} `{C : !PqCrypto H} `{Q : !PostcardV2 P} `{CP : ControlPostcard} `{M : MapOrder} `{L : !MapOrderLaws M}.
Context {cfg : ExitConfig H C}.

(** ** Termination *)

Definition taken (pubkey : Z) (conns : list nat) (x : Exit) : Exit :=
  mkShared (x_cache x) (x_cache_v2 x) (x_windows x) (x_allow x) (x_pool x) (x_pool_v6 x) (x_router x) (x_registry x)
    (x_closed x) (x_replies x) (x_counted x) (x_effects x) (conns ++ closing x) ({[pubkey]} ∪ handled x).

Definition not_closing (c : nat) (x : Exit) : Exit :=
  mkShared (x_cache x) (x_cache_v2 x) (x_windows x) (x_allow x) (x_pool x) (x_pool_v6 x) (x_router x) (x_registry x)
    (x_closed x) (x_replies x) (x_counted x) (x_effects x) (filter (fun d => d <> c) (closing x)) (handled x).

(** [ClosableConn::close_rejected]. *)
Definition close_rejected (c : nat) (x : Exit) : Exit := not_closing c (close c WARREN_MH_REJECTED [] x).

Fixpoint close_all (conns : list nat) : Task Exit unit :=
  match conns with
  | [] => Finished tt
  | c :: conns => update (close_rejected c);; close_all conns
  end.

Definition terminate_task (pubkey : Z) : Task Exit nat :=
  conns <-- section (fun x =>
    let '(r, conns) := take_wallet pubkey (x_registry x) in (taken pubkey conns (set_registry r [] x), conns));
  update (fun x => set_registry (clear_attribution pubkey (x_registry x)) [] x);;
  close_all conns;;
  Finished (length conns).

Definition wallet_keys (r : Registry) : list Z :=
  omap (fun e => match fst e with Wallet p => Some p | _ => None end) (map_iter (live r)).

Fixpoint doomed_task (keys : list Z) (now : Z) : Task Exit (list Z) :=
  match keys with
  | [] => Finished []
  | p :: keys =>
      ok <-- allowed_at p now;
      rest <-- doomed_task keys now;
      Finished (if ok : bool then rest else p :: rest)
  end.

Fixpoint terminate_each (keys : list Z) : Task Exit nat :=
  match keys with
  | [] => Finished O
  | p :: keys => n <-- terminate_task p; m <-- terminate_each keys; Finished (n + m)%nat
  end.

(** One turn of [spawn_allowlist_expiry_sweep]: [terminate_where] with the allowlist. *)
Definition expiry_sweep (now : Z) : Task Exit nat :=
  keys <-- read (fun x => wallet_keys (x_registry x));
  doomed <-- doomed_task keys now;
  terminate_each doomed.

(** ** The rest of the exit, seen from one connection *)

Section Watched.
Context {cn : Connection} (pk : Z).

Definition up (x : Exit) : Prop :=
  exists conns, live (x_registry x) !! Wallet pk = Some conns /\ conns !! @conn_id cn = Some (@conn cn).

Definition down (x : Exit) : Prop := @conn cn ∈ closing x \/ is_Some (x_closed x !! @conn cn).

(** Refused by the revocation list, or for want of an entry that is still good. *)
Definition revoked (x : Exit) : Prop := crl_contains (x_allow x) pk = true.
Definition lapsed (x : Exit) : Prop := entry_live (x_allow x) pk (@m_unix_recheck cn) = false.

(** A revocation is not taken back, nobody but the connection registers it, and whoever
    takes it out of the registry is about to close it. *)
Record rely (x x' : Exit) : Prop := mkRely {
  rl_revoked : revoked x -> revoked x';
  rl_lapsed : lapsed x -> lapsed x';
  rl_closed : is_Some (x_closed x !! @conn cn) -> is_Some (x_closed x' !! @conn cn);
  rl_down : down x -> down x';
  rl_up : up x -> up x' \/ down x';
  rl_new : up x' -> up x;
  rl_handled : pk ∈ handled x -> pk ∈ handled x';
  rl_taken : pk ∉ handled x -> pk ∈ handled x' -> ~ up x' /\ (revoked x' \/ lapsed x');
}.

#[export] Instance rely_preorder : PreOrder rely.
Proof.
  split; [by split; auto|]. intros x y z [A1 A2 A0 A3 A4 A5 A6 A7] [B1 B2 B0 B3 B4 B5 B6 B7]. split; auto.
  - intros Hu. destruct (A4 Hu) as [?|?]; auto.
  - intros Hn Hz. destruct (decide (pk ∈ handled y)) as [Hy|Hy]; [|auto].
    destruct (A7 Hn Hy) as [Hu [?|?]]; (split; [intros ?; by apply Hu, B5|auto]).
Qed.

(** The dispatcher deals with a key only after it has been revoked. *)
Definition just (x : Exit) : Prop := pk ∈ handled x -> revoked x \/ lapsed x.

Lemma just_stable : stable rely just.
Proof.
  intros x x' HR HJ Hh. destruct (decide (pk ∈ handled x)) as [Hx|Hx].
  - destruct (HJ Hx) as [?%(rl_revoked _ _ HR)|?%(rl_lapsed _ _ HR)]; auto.
  - by destruct (rl_taken _ _ HR Hx Hh).
Qed.

(** What a served connection keeps: once the key is dealt with, it is closed or about to
    be. *)
Definition safe (x : Exit) : Prop := (pk ∉ handled x /\ up x) \/ down x.

Lemma safe_stable : stable rely safe.
Proof.
  intros x x' HR [[Hn Hu]|Hd]; [|right; by apply (rl_down _ _ HR)].
  destruct (rl_up _ _ HR Hu) as [Hu'|?]; [|by right]. left. split; [|done]. intros Hh.
  by destruct (rl_taken _ _ HR Hn Hh).
Qed.

(** ** The setup *)

(** A step that leaves the watched part alone. *)
Lemma quiet_rely x x' :
  x_allow x' = x_allow x -> handled x' = handled x -> closing x' = closing x ->
  live (x_registry x') = live (x_registry x) ->
  (is_Some (x_closed x !! @conn cn) -> is_Some (x_closed x' !! @conn cn)) -> rely x x'.
Proof.
  intros E1 E2 E3 E4 E5. unfold revoked, lapsed, up, down.
  split; unfold revoked, lapsed, up, down; rewrite ?E1, ?E2, ?E3, ?E4; try tauto.
Qed.

Lemma close_grows c d code reason x : is_Some (x_closed x !! d) -> is_Some (x_closed (close c code reason x) !! d).
Proof.
  simpl. destruct (x_closed x !! c) eqn:E; [done|]. intros Hd. rewrite lookup_insert_is_Some'. by right.
Qed.

Ltac calm :=
  first [ apply guarantee_read; intros ?; reflexivity
        | apply guarantee_update; intros ?; apply quiet_rely; first [done|by repeat case_match|apply close_grows]
        | apply guarantee_section; intros ?; apply quiet_rely; by repeat case_match ].

Section AnyConnection.
Context (d : Connection).

Lemma refuse_calm term n detail : guarantee rely (refuse (cn := d) term n detail).
Proof. unfold refuse. walk; calm. Qed.

Lemma authorize_calm msg key : guarantee rely (authorize (cn := d) msg key).
Proof.
  unfold authorize, classify_admission, allowed_at, serial_held_by_another_session, is_token_serial_live_task. walk; calm.
Qed.

Lemma build_calm bytes now budget : guarantee rely (build_setup_termination bytes now budget).
Proof. unfold build_setup_termination. walk; calm. Qed.

Lemma replay_calm term : guarantee rely (check_replay term).
Proof. unfold check_replay. walk; calm. Qed.

Lemma allowed_calm k now : guarantee rely (allowed_at k now).
Proof. unfold allowed_at. walk; calm. Qed.

Lemma serve_calm term w g guard : guarantee rely (serve_grant (cn := d) term w g guard).
Proof.
  unfold serve_grant, allocate_on_first_frame, open_wallet_session, announce_address.
  walk; first [apply refuse_calm|calm].
Qed.

End AnyConnection.

(** Asked after the registration, the allowlist says yes only to who will be closed if
    revoked later. *)
Lemma recheck_safe :
  triple rely (fun x => just x /\ (safe x \/ pk ∈ handled x)) (allowed_at pk m_unix_recheck) (fun ok x => ok = true -> safe x).
Proof.
  assert (HP : stable rely (fun x => just x /\ (safe x \/ pk ∈ handled x))).
  { intros x x' HR [HJ Hs]. split; [by eapply just_stable|].
    destruct Hs as [?|?]; [left; by eapply safe_stable|right; by apply (rl_handled _ _ HR)]. }
  assert (HM : stable rely (fun x => safe x \/ lapsed x)).
  { intros x x' HR [?|?]; [left; by eapply safe_stable|right; by apply (rl_lapsed _ _ HR)]. }
  unfold allowed_at. eapply triple_bind with (M := fun gone x => gone = true \/ safe x \/ lapsed x); [typeclasses eauto| |].
  - apply triple_section; [done|intros a x x' HR [?|?]; [by left|right; by eapply HM]|]. intros x [HJ Hs]. simpl.
    destruct Hs as [?|Hh]; [auto|]. destruct (HJ Hh) as [?|?]; auto.
  - intros gone. destruct gone.
    + intros x tr a x' (-> & <- & _)%history_done _. done.
    + apply triple_section.
      * intros x x' HR [?|?]; [done|right; by eapply HM].
      * intros a x x' HR Hs Ha. eapply safe_stable; eauto.
      * intros x [?|[?|Hl]]; simpl; [done|done|]. unfold lapsed in Hl. by rewrite Hl.
Qed.

Lemma register_up es x : up (set_registry (register_key (Wallet pk) conn_id conn (x_registry x)) es x).
Proof.
  unfold up, register_key. simpl. eexists. split; [apply lookup_insert_eq|]. apply lookup_insert_eq.
Qed.

Lemma settled_or_handled_stable : stable rely (fun x => just x /\ (safe x \/ pk ∈ handled x)).
Proof.
  intros x x' HR [HJ Hs]. split; [by eapply just_stable|].
  destruct Hs as [?|?]; [left; by eapply safe_stable|right; by apply (rl_handled _ _ HR)].
Qed.

Definition closed_if_revoked (r : option SetupOutcome) (x : Exit) : Prop := match r with Some _ => safe x | None => True end.

Lemma register_safe term w g :
  guard_key g = Some (Wallet pk) -> has_allowlist = true ->
  triple rely just (register_and_serve term w g) closed_if_revoked.
Proof.
  intros Hg Ha. unfold register_and_serve. rewrite Hg, Ha.
  eapply triple_bind; [typeclasses eauto| |intros ?].
  { apply triple_update with (Q := fun x => just x /\ (safe x \/ pk ∈ handled x));
      [apply just_stable|apply settled_or_handled_stable|]. intros x HJ. split; [done|].
    destruct (decide (pk ∈ handled x)); [by right|]. left. left. split; [done|apply register_up]. }
  eapply triple_bind; [typeclasses eauto| |intros ?].
  { instantiate (1 := fun _ x => just x /\ (safe x \/ pk ∈ handled x)). apply triple_stays; [apply settled_or_handled_stable|].
    walk. calm. }
  eapply triple_bind; [typeclasses eauto|apply recheck_safe|]. intros still.
  eapply triple_bind with (M := closed_if_revoked); [typeclasses eauto| |].
  - destruct still.
    + apply (triple_weaken _ _ safe _ _ (fun _ => safe)); [auto| |by intros []].
      apply triple_stays; [apply safe_stable|apply serve_calm].
    + intros x tr r x' Hh _. apply history_bind in Hh as (? & ? & ? & ? & _ & _ & Hh); [|typeclasses eauto].
      apply history_bind in Hh as (? & ? & ? & ? & _ & _ & Hh); [|typeclasses eauto]. by apply history_done in Hh as (_ & <- & _).
  - intros [o|]; [by apply triple_finished; [apply safe_stable|]|].
    intros x tr r x' Hh _. apply history_bind in Hh as (? & ? & ? & ? & _ & _ & Hh); [|typeclasses eauto].
    by apply history_done in Hh as (_ & <- & _).
Qed.

Lemma setup_safe bytes x tr o x' :
  has_allowlist = true -> just x -> history rely (process_setup_frame bytes) x tr (Some o) x' ->
  o_guard o = Some (Wallet pk) -> safe x'.
Proof.
  intros Ha HJ Hh Hg. unfold process_setup_frame in Hh. unwind Hh.
  pose proof (triple_stays rely just _ just_stable (build_calm _ _ _) _ _ _ _ Hh0 HJ) as HJ1.
  destruct a as [term|]; [|by unwind Hh]. destruct (term_open term) as [plaintext|] eqn:Eo; [|by unwind Hh].
  unwind Hh. pose proof (triple_stays rely just _ just_stable (replay_calm _) _ _ _ _ Hh1 HJ1) as HJ2. destruct a; [|by unwind Hh].
  unwind Hh. pose proof (triple_stays rely just _ just_stable (authorize_calm _ _ _) _ _ _ _ Hh2 HJ2) as HJ3.
  destruct a as [g|detail]; [|unwind Hh; by unwind Hh].
  pose proof (register_served rely _ _ _ _ _ _ _ Hh) as (_ & Hk & _). rewrite Hg in Hk. symmetry in Hk.
  exact (register_safe _ _ _ Hk Ha _ _ _ _ Hh HJ3).
Qed.

(** ** The others *)

Lemma same_up_rely x x' :
  x_allow x' = x_allow x -> handled x' = handled x -> closing x' = closing x -> x_closed x' = x_closed x ->
  (up x' <-> up x) -> rely x x'.
Proof.
  intros E1 E2 E3 E4 E5. split; unfold revoked, lapsed, down; rewrite ?E1, ?E2, ?E3, ?E4, ?E5; tauto.
Qed.

Section OtherConnection.
Context (d : Connection) (Hid : @conn_id cn <> @conn_id d).

Lemma register_calm key c es x : rely x (set_registry (register_key key (@conn_id d) c (x_registry x)) es x).
Proof using Hid.
  apply same_up_rely; try done. unfold up, register_key. simpl.
  assert (El : live (if bool_decide (default ∅ (live (x_registry x) !! key) = ∅) then reset_for_new_session key (x_registry x) else x_registry x)
               = live (x_registry x)) by (case_bool_decide; [by destruct key|done]). rewrite El. clear El.
  destruct (decide (key = Wallet pk)) as [->|Hne]; [|by rewrite lookup_insert_ne].
  rewrite lookup_insert_eq. split.
  - intros (conns & [= <-] & Hc). rewrite lookup_insert_ne in Hc by done.
    destruct (live (x_registry x) !! Wallet pk) as [conns|]; [by exists conns|]. simpl in Hc. by rewrite lookup_empty in Hc.
  - intros (conns & Hl & Hc). rewrite Hl. eexists. split; [done|]. by rewrite lookup_insert_ne.
Qed.

Lemma leave_keeps key r k conns v :
  live r !! k = Some conns -> conns !! @conn_id cn = Some v ->
  exists conns', live (fst (fst (leave_live key (@conn_id d) r))) !! k = Some conns' /\ conns' !! @conn_id cn = Some v.
Proof using Hid.
  intros Hl Hc. unfold leave_live. destruct (live r !! key) as [cs|] eqn:E; [|by exists conns].
  destruct (decide (k = key)) as [->|Hne].
  - replace cs with conns in * by congruence. rewrite bool_decide_false.
    + exists (delete (@conn_id d) conns). simpl. split; [apply lookup_insert_eq|]. by rewrite lookup_delete_ne.
    + intros Hd. apply (f_equal (lookup (@conn_id cn))) in Hd. rewrite lookup_delete_ne, lookup_empty in Hd by done. congruence.
  - exists conns. split; [|done]. case_bool_decide; [|simpl; by rewrite lookup_insert_ne].
    assert (Hx : delete key (live r) !! k = Some conns) by (by rewrite lookup_delete_ne).
    destruct key; [done..|]. simpl. unfold forget_route. simpl. by case_bool_decide.
Qed.

Lemma leave_calm key x r ended es es' :
  leave_live key (@conn_id d) (x_registry x) = (r, ended, es) -> rely x (set_registry r es' x).
Proof using Hid.
  intros E. apply same_up_rely; try done. unfold up. simpl.
  pose proof (leave_keeps key (x_registry x)) as Hk. destruct (leave_live_shape key (@conn_id d) (x_registry x)) as (_ & _ & Hs).
  rewrite E in Hk, Hs. simpl in Hk, Hs. split.
  - intros (conns & Hl & Hc). destruct (Hs _ _ Hl) as (conns' & Hl' & ->). exists conns'. split; [done|].
    case_decide; [|done]. by rewrite lookup_delete_ne in Hc.
  - intros (conns & Hl & Hc). by eapply Hk.
Qed.

Lemma drop_guard_calm key : guarantee rely (drop_guard (cn := d) key).
Proof using Hid.
  unfold drop_guard. walk; try calm.
  - apply guarantee_update. intros x. destruct key; simpl; try by apply quiet_rely. destruct (leave _ _). by apply quiet_rely.
  - apply guarantee_section. intros x. destruct (leave_live key _ _) as [[r ended] es] eqn:E. by eapply leave_calm.
Qed.

Lemma connection_calm draining bytes : guarantee rely (terminate_connection (cn := d) draining bytes).
Proof using Hid.
  unfold terminate_connection, serve_terminating_connection, run_setup, process_setup_frame, register_and_serve,
    attach_liveness, attach_route_control.
  walk; first [apply build_calm|apply replay_calm|apply authorize_calm|apply serve_calm|apply refuse_calm|apply allowed_calm
    |apply drop_guard_calm|apply guarantee_update; intros ?; apply register_calm|calm].
Qed.

End OtherConnection.

Lemma close_calm c x : rely x (close_rejected c x).
Proof.
  assert (Hd : down x -> down (close_rejected c x)).
  { intros [Hc|Hc]; [|right; by apply close_grows]. destruct (decide (@conn cn = c)) as [Ec|Hne].
    - right. simpl. rewrite Ec. destruct (x_closed x !! c) eqn:E; [by rewrite E|by rewrite lookup_insert_eq].
    - left. simpl. by apply list_elem_of_filter. }
  split; try done; auto. apply close_grows.
Qed.

Lemma close_all_calm conns : guarantee rely (close_all conns).
Proof. induction conns as [|c conns IH]; cbn [close_all]; [done|]. walk; [|done]. apply guarantee_update. intros x. apply close_calm. Qed.

(** Taking the connections of a revoked key out of the registry. *)
Lemma take_calm k x : (k = pk -> revoked x \/ lapsed x) ->
  rely x (taken k (snd (take_wallet k (x_registry x))) (set_registry (fst (take_wallet k (x_registry x))) [] x)).
Proof using L.
  intros Hk. set (x' := taken _ _ _).
  assert (Hup : up x' -> k <> pk /\ up x).
  { intros (conns & Hl & Hc). simpl in Hl. apply lookup_delete_Some in Hl as [Hne Hl]. split; [congruence|by exists conns]. }
  split; try done.
  - intros [Hc|Hc]; [left; simpl; by apply elem_of_app; right|by right].
  - intros (conns & Hl & Hc). destruct (decide (k = pk)) as [->|Hne].
    + right. left. simpl. apply elem_of_app. left. rewrite Hl. simpl. apply list_elem_of_fmap.
      exists (@conn_id cn, @conn cn). split; [done|]. rewrite (map_iter_perm _ _ conns). by apply elem_of_map_to_list.
    + left. exists conns. split; [|done]. simpl. rewrite lookup_delete_ne; [done|congruence].
  - intros ?%Hup. naive_solver.
  - simpl. set_solver.
  - simpl. intros Hn Hh. assert (k = pk) as -> by set_solver. split; [intros ?%Hup; naive_solver|auto].
Qed.

(** A revoked key may be terminated at any time, any other key likewise. *)
Lemma terminate_calm k :
  (k <> pk -> guarantee rely (terminate_task k)) /\
  guarantee (fun x x' => revoked x \/ lapsed x -> rely x x') (terminate_task k).
Proof using L.
  assert (Hw : forall A (t : Task Exit A), guarantee rely t -> guarantee (fun x x' => revoked x \/ lapsed x -> rely x x') t).
  { intros A t. induction t as [a|f IH] using task_ind; simpl; [done|]. intros Hg x. specialize (Hg x). specialize (IH x).
    destruct (f x) as [x' t']. destruct Hg. split; [done|by apply IH]. }
  assert (Hrest : forall conns, guarantee rely ((update (fun x => set_registry (clear_attribution k (x_registry x)) [] x);;
    close_all conns;; Finished (length conns)) : Task Exit nat)) by (intros conns; walk; [calm|apply close_all_calm]).
  split; [intros Hne|]; unfold terminate_task; apply guarantee_bind; try (intros conns; first [apply Hrest|apply Hw, Hrest]);
    apply guarantee_section; intros x; simpl; [apply (take_calm k x); done|intros Hr; apply (take_calm k x); auto].
Qed.

(** The connections it takes are closed when it returns. *)
Lemma close_all_closes conns x tr u x' : @conn cn ∈ conns -> history rely (close_all conns) x tr u x' -> is_Some (x_closed x' !! @conn cn).
Proof.
  revert x tr. induction conns as [|c conns IH]; intros x tr Hc Hh; [by apply not_elem_of_nil in Hc|].
  cbn [close_all] in Hh. unwind Hh. apply elem_of_cons in Hc as [Hc|Hc]; [|by eapply IH].
  apply history_update in Hh0 as (x1 & _ & _ & HR).
  assert (Hst : stable rely (fun x => is_Some (x_closed x !! @conn cn))) by (intros y y'; apply rl_closed).
  eapply (triple_stays rely _ _ Hst (close_all_calm conns)); [exact Hh|]. apply (rl_closed _ _ HR). simpl.
  rewrite Hc. destruct (x_closed x1 !! c) eqn:E; [by rewrite E|by rewrite lookup_insert_eq].
Qed.

Lemma terminate_closes x tr n x' :
  history rely (terminate_task pk) x tr n x' -> exists y, head tr.*1 = Some y /\ (up y -> is_Some (x_closed x' !! @conn cn)).
Proof using L.
  intros Hh. unfold terminate_task in Hh. do 3 unwind Hh. apply history_section in Hh0 as (y & -> & _ & -> & _). simpl in Hh2.
  exists y. split; [done|]. intros (conns & Hl & Hc). apply history_done in Hh as (_ & _ & HR). apply (rl_closed _ _ HR).
  eapply close_all_closes; [|exact Hh2]. rewrite Hl. simpl. apply list_elem_of_fmap. exists (@conn_id cn, @conn cn).
  split; [done|]. rewrite (map_iter_perm _ _ conns). by apply elem_of_map_to_list.
Qed.

End Watched.

(** The sweep terminates who was refused, and spares who was found allowed. *)
Lemma doomed_refused (R : Exit -> Exit -> Prop) `{HR : !PreOrder R} keys now x tr ds x' :
  history R (doomed_task keys now) x tr ds x' ->
  (forall p, p ∈ ds -> p ∈ keys /\ exists y, y ∈ tr.*1 /\ (crl_contains (x_allow y) p = true \/ entry_live (x_allow y) p now = false)) /\
  (forall p, p ∈ keys -> p ∉ ds -> found_allowed tr p now).
Proof using L.
  revert x tr ds x'. induction keys as [|k keys IH]; intros x tr ds x' Hh; cbn [doomed_task] in Hh.
  { unwind Hh. subst. split; intros p Hp; by apply not_elem_of_nil in Hp. }
  do 2 unwind Hh. unwind Hh. apply IH in Hh1 as [H1 H2]. rewrite app_nil_r.
  assert (Hmono : forall p, found_allowed tr p now -> found_allowed (tr0 ++ tr) p now)
    by (intros p; apply found_allowed_mono; set_solver).
  rewrite fmap_app.
  destruct a; subst.
  - apply (allowed_at_true R) in Hh0. split; [intros p (? & y & ? & ?)%H1; split; [set_solver|exists y; set_solver]|].
    intros p [->|Hp]%elem_of_cons Hn; [eapply found_allowed_mono; [|exact Hh0]; set_solver|auto].
  - split; [|intros p [->|Hp]%elem_of_cons Hn; [set_solver|apply Hmono, H2; [done|set_solver]]].
    intros p [->|Hp]%elem_of_cons; [|apply H1 in Hp as (? & y & ? & ?); split; [set_solver|exists y; set_solver]].
    split; [set_solver|]. unfold allowed_at in Hh0. unwind Hh0. apply history_read in Hh1 as (y & -> & _ & -> & _).
    destruct (crl_contains (x_allow y) k) eqn:E1; [unwind Hh0; exists y; set_solver|].
    apply history_read in Hh0 as (y2 & -> & _ & E2 & _). exists y2. set_solver.
Qed.

End Revocation.

(** C5.  Revocation cannot be outrun.  As long as revocations are not taken back: however
    a setup under an account key interleaves with the termination of that key, with the
    setups and teardowns of any other connections and with terminations of other keys, a
    connection that is served under the key is closed, or about to be by a termination
    that has already picked it up, as soon as a termination that follows the revocation
    has gone through the registry; and a termination returns with every connection it
    found there closed. *)
Theorem revocation_not_outrun `{H : Hpke} `{P : Postcard} `{C : !PqCrypto H} `{Q : !PostcardV2 P} `{CP : ControlPostcard}
  `{M : MapOrder} `{L : !MapOrderLaws M} {cfg : ExitConfig H C} {cn : Connection} pk :
  (forall d, @conn_id cn <> @conn_id d ->
     forall draining bytes, guarantee (rely (cn := cn) pk) (terminate_connection (cn := d) draining bytes)) /\
  (forall k, (k <> pk -> guarantee (rely (cn := cn) pk) (terminate_task k)) /\
     guarantee (fun x x' => revoked pk x \/ lapsed (cn := cn) pk x -> rely (cn := cn) pk x x') (terminate_task k)) /\
  (forall x tr n x', history (rely (cn := cn) pk) (terminate_task pk) x tr n x' ->
     exists y, head tr.*1 = Some y /\ (up (cn := cn) pk y -> is_Some (x_closed x' !! @conn cn))) /\
  (forall bytes x tr o x' x'',
     has_allowlist = true -> just (cn := cn) pk x ->
     history (rely (cn := cn) pk) (process_setup_frame bytes) x tr (Some o) x' -> o_guard o = Some (Wallet pk) ->
     rely (cn := cn) pk x' x'' -> pk ∈ handled x'' -> down (cn := cn) x'').
Proof.
  split; [intros d Hd draining bytes; by apply connection_calm|]. split; [intros k; apply terminate_calm|].
  split; [intros x tr n x'; apply terminate_closes|].
  intros bytes x tr o x' x'' Ha HJ Hh Hg HR Hp. pose proof (setup_safe pk bytes x tr o x' Ha HJ Hh Hg) as Hs.
  destruct (safe_stable pk x' x'' HR Hs) as [[? _]|?]; done.
Qed.

(** ** Examples *)

Definition set_allow (h : Inner) (x : Exit) : Exit :=
  mkShared (x_cache x) (x_cache_v2 x) (x_windows x) h (x_pool x) (x_pool_v6 x) (x_router x) (x_registry x)
    (x_closed x) (x_replies x) (x_counted x) (x_effects x) (closing x) (handled x).

(** Key 7 is served, revoked and terminated. *)
Definition toy_revoked : Exit := set_allow (Allowlist.set_crl {[7 := 1]} (x_allow (snd (toy_served true)))) (snd (toy_served true)).
Definition toy_closed : Exit := snd (alone (terminate_task 7) toy_revoked).

Lemma toy_rely : rely (cn := toy_connection true) 7 (snd (toy_served true)) toy_closed.
Proof.
  split.
  - intros _. vm_compute. reflexivity.
  - intros Hl. vm_compute in Hl. discriminate Hl.
  - intros _. vm_compute. eexists. reflexivity.
  - intros _. right. vm_compute. eexists. reflexivity.
  - intros _. right. right. vm_compute. eexists. reflexivity.
  - intros (conns & Hl & _). vm_compute in Hl. discriminate Hl.
  - intros _. apply (bool_decide_unpack (7 ∈ handled toy_closed)). vm_compute. exact I.
  - intros _ _. split; [|left; vm_compute; reflexivity]. intros (conns & Hl & _). vm_compute in Hl. discriminate Hl.
Qed.

Lemma revocation_not_outrun_witness :
  is_Some (snd (fst (toy_served true))) /\ down (cn := toy_connection true) toy_closed.
Proof.
  assert (Hk : o_guard <$> snd (fst (toy_served true)) = Some (Some (Wallet 7))) by (vm_compute; reflexivity).
  pose proof toy_rely as HR. assert (Hh : 7 ∈ handled toy_closed) by (apply (bool_decide_unpack (7 ∈ handled toy_closed)); vm_compute; exact I).
  destruct (toy_served true) as [[tr [o|]] x'] eqn:E; [|discriminate Hk]. split; [eexists; reflexivity|]. injection Hk as Hk.
  destruct (revocation_not_outrun (cfg := toy_config) (cn := toy_connection true) 7) as (_ & _ & _ & Hr).
  refine (Hr toy_hello toy_exit tr o x' toy_closed _ _ _ Hk HR Hh).
  - reflexivity.
  - intros Hn. exfalso. revert Hn. apply not_elem_of_empty.
  - exact (alone_history (rely (cn := toy_connection true) 7) _ _ _ _ _ E).
Defined.

(** The allowlist refuses key 7 before, for want of an entry, and after, for a
    revocation; asked in between, with one lock taken on either side, it says yes. *)
Lemma torn_read_admits :
  let before := set_allow Allowlist.new toy_exit in
  let after := set_allow (Allowlist.set_crl {[7 := 1]} (x_allow toy_exit)) toy_exit in
  is_allowed_at (x_allow before) 7 50 = false /\ is_allowed_at (x_allow after) 7 50 = false /\
  history (fun x x' => x = x' \/ (x = before /\ x' = after)) (allowed_at 7 50) before [(before, before); (after, after)] true after.
Proof.
  intros before after. split; [vm_compute; reflexivity|]. split; [vm_compute; reflexivity|].
  eapply history_locked; [by left|reflexivity|]. eapply history_locked; [by right|reflexivity|]. constructor. by left.
Qed.

(** A revocation list is compared with the entries before it is installed: a key that is
    entered in between is revoked, but nobody is told to close it. *)
Lemma revocation_unannounced :
  let revocations := {[7 := 1]} : gmap Z Z in
  let to_tear_down := crl_tear_down revocations Allowlist.new in
  let entered := Allowlist.apply (Snapshot (mkSnapshot 1 {[7 := 100]} 10)) Allowlist.new in
  let after := announce to_tear_down (Allowlist.set_crl revocations entered) in
  is_allowed_at entered 7 50 = true /\ is_allowed_at after 7 50 = false /\ revocation_tx after = Some [].
Proof. split; [|split]; vm_compute; reflexivity. Qed.
