(* ===== verification/EdgeHttp3.v ===== *)
(** HTTP/3 framing at the browser-facing edge ([crates/warrenguard-edge/src]: [varint.rs],
    [http3.rs], [webtransport.rs], the datagrams of [masque.rs] and the settings of
    [server.rs]).

    Bytes are numbers, a stream what has arrived of it so far.  [None] is a truncated
    input for the readers and a panic for [varint_encode].  The slices the readers take
    are in range by construction ([varint_decode_used]), so that [drop] is the slice. *)

From S2P Require Import Prelude.
#[local] Open Scope Z_scope.

(** ** Variable-length integers *)

Definition varint_decode (input : list Z) : option (Z * nat) :=
  match input with
  | [] => None
  | first :: _ =>
      let len := Z.to_nat (Z.shiftl 1 (Z.shiftr first 6)) in
      if (length input <? len)%nat then None
      else
        Some (fold_left (fun value byte => Z.lor (Z.shiftl value 8) byte)
                (take (len - 1) (drop 1 input)) (Z.land first 0x3f), len)
  end.

Definition varint_encode (value : Z) : option (list Z) :=
  if value <? Z.shiftl 1 6 then Some [value]
  else if value <? Z.shiftl 1 14 then Some (be_bytes 2 (Z.lor value 0x4000))
  else if value <? Z.shiftl 1 30 then Some (be_bytes 4 (Z.lor value 0x80000000))
  else if value <? Z.shiftl 1 62 then Some (be_bytes 8 (Z.lor value 0xC000000000000000))
  else None.

(** ** Frames *)

Definition FRAME_DATA : Z := 0x00.
Definition FRAME_HEADERS : Z := 0x01.
Definition FRAME_SETTINGS : Z := 0x04.
Definition STREAM_CONTROL : Z := 0x00.

Definition encode_h3_frame (ty : Z) (payload : list Z) : option (list Z) :=
  t ← varint_encode ty; n ← varint_encode (Z.of_nat (length payload)); Some (t ++ n ++ payload).

Record H3Frame := mkH3Frame { ty : Z; payload : list Z }.

Definition read_frame (input : list Z) : option (H3Frame * nat) :=
  '(ty, n1) ← varint_decode input;
  '(len, n2) ← varint_decode (drop n1 input);
  let header := (n1 + n2)%nat in
  let end_ := Z.of_nat header + len in
  if u64_max <? end_ then None
  else if Z.of_nat (length input) <? end_ then None
  else Some (mkH3Frame ty (take (Z.to_nat end_ - header) (drop header input)), Z.to_nat end_).

Definition read_uni_stream_type (input : list Z) : option (Z * list Z) :=
  '(ty, n) ← varint_decode input; Some (ty, drop n input).

(** ** Settings *)

Definition SETTINGS_QPACK_MAX_TABLE_CAPACITY : Z := 0x01.
Definition SETTINGS_QPACK_BLOCKED_STREAMS : Z := 0x07.
Definition SETTINGS_ENABLE_CONNECT_PROTOCOL : Z := 0x08.
Definition SETTINGS_H3_DATAGRAM : Z := 0x33.
Definition SETTINGS_WT_MAX_SESSIONS : Z := 0xc671706a.
Definition SETTINGS_ENABLE_WEBTRANSPORT : Z := 0x2b603742.
Definition EDGE_MAX_WT_SESSIONS : Z := 1.

Record Settings := mkSettings { enable_connect_protocol : bool; h3_datagram : bool; webtransport : bool }.

Definition supports_webtransport (s : Settings) : bool := enable_connect_protocol s && h3_datagram s && webtransport s.
Definition client_advertises_webtransport (s : Settings) : bool := h3_datagram s && webtransport s.

Definition note_setting (id value : Z) (s : Settings) : Settings :=
  let on := negb (value =? 0) in
  if id =? SETTINGS_ENABLE_CONNECT_PROTOCOL then mkSettings on (h3_datagram s) (webtransport s)
  else if id =? SETTINGS_H3_DATAGRAM then mkSettings (enable_connect_protocol s) on (webtransport s)
  else if (id =? SETTINGS_WT_MAX_SESSIONS) || (id =? SETTINGS_ENABLE_WEBTRANSPORT)
  then mkSettings (enable_connect_protocol s) (h3_datagram s) (webtransport s || on)
  else s.

(** Every turn consumes a byte, so that the length of the payload is fuel enough. *)
Fixpoint parse_settings_loop (fuel : nat) (rest : list Z) (out : Settings) : Settings :=
  match fuel with
  | O => out
  | S fuel =>
      match varint_decode rest with
      | None => out
      | Some (id, n1) =>
          match varint_decode (drop n1 rest) with
          | None => out
          | Some (value, n2) => parse_settings_loop fuel (drop (n1 + n2) rest) (note_setting id value out)
          end
      end
  end.

Definition parse_settings (payload : list Z) : Settings :=
  parse_settings_loop (length payload) payload (mkSettings false false false).

Fixpoint settings_payload (pairs : list (Z * Z)) : option (list Z) :=
  match pairs with
  | [] => Some []
  | (id, value) :: pairs =>
      i ← varint_encode id; v ← varint_encode value; rest ← settings_payload pairs; Some (i ++ v ++ rest)
  end.

Definition control_prelude (pairs : list (Z * Z)) : option (list Z) :=
  t ← varint_encode STREAM_CONTROL;
  p ← settings_payload pairs;
  f ← encode_h3_frame FRAME_SETTINGS p;
  Some (t ++ f).

Definition server_settings : list (Z * Z) :=
  [(SETTINGS_QPACK_MAX_TABLE_CAPACITY, 0); (SETTINGS_QPACK_BLOCKED_STREAMS, 0);
   (SETTINGS_ENABLE_CONNECT_PROTOCOL, 1); (SETTINGS_H3_DATAGRAM, 1);
   (SETTINGS_WT_MAX_SESSIONS, EDGE_MAX_WT_SESSIONS); (SETTINGS_ENABLE_WEBTRANSPORT, 1)].

Definition masque_settings : list (Z * Z) :=
  [(SETTINGS_QPACK_MAX_TABLE_CAPACITY, 0); (SETTINGS_QPACK_BLOCKED_STREAMS, 0);
   (SETTINGS_ENABLE_CONNECT_PROTOCOL, 1); (SETTINGS_H3_DATAGRAM, 1)].

Definition control_stream_prelude : option (list Z) := control_prelude server_settings.
Definition masque_control_stream_prelude : option (list Z) := control_prelude masque_settings.

(** ** Streams and datagrams of a session *)

Definition WEBTRANSPORT_STREAM_BIDI : Z := 0x41.
Definition WEBTRANSPORT_STREAM_UNI : Z := 0x54.
Definition CONNECT_UDP_CONTEXT_ID : Z := 0.

Definition encode_stream_header (signal session_id : Z) : option (list Z) :=
  s ← varint_encode signal; i ← varint_encode session_id; Some (s ++ i).
Definition encode_bidi_stream_header : Z -> option (list Z) := encode_stream_header WEBTRANSPORT_STREAM_BIDI.
Definition encode_uni_stream_header : Z -> option (list Z) := encode_stream_header WEBTRANSPORT_STREAM_UNI.

Definition read_bidi_stream_header (input : list Z) : option (Z * list Z) :=
  '(signal, n) ← varint_decode input;
  if negb (signal =? WEBTRANSPORT_STREAM_BIDI) then None
  else '(session_id, m) ← varint_decode (drop n input); Some (session_id, drop (n + m) input).

Definition read_uni_stream_session_id (input : list Z) : option (Z * list Z) :=
  '(session_id, n) ← varint_decode input; Some (session_id, drop n input).

Definition quarter_stream_id (session_id : Z) : Z := Z.shiftr session_id 2.

Definition encode_wt_datagram (session_id : Z) (payload : list Z) : option (list Z) :=
  q ← varint_encode (quarter_stream_id session_id); Some (q ++ payload).
Definition read_wt_datagram (input : list Z) : option (Z * list Z) :=
  '(qsid, n) ← varint_decode input; Some (qsid, drop n input).

Definition encode_masque_datagram (session_id : Z) (payload : list Z) : option (list Z) :=
  q ← varint_encode (Z.shiftr session_id 2); c ← varint_encode CONNECT_UDP_CONTEXT_ID; Some (q ++ c ++ payload).
Definition read_masque_datagram (input : list Z) : option (Z * Z * list Z) :=
  '(quarter_stream_id, n) ← varint_decode input;
  '(context_id, m) ← varint_decode (drop n input);
  Some (quarter_stream_id, context_id, drop (n + m) input).

(** ** What the integers are *)

Lemma shift_or v b : is_byte b -> Z.lor (Z.shiftl v 8) b = v * 256 + b.
Proof.
  intros Hb. rewrite Z.shiftl_mul_pow2 by lia. change (2 ^ 8) with 256.
  pose proof (Z.add_lor_land (v * 256) b) as Ha. replace (Z.land (v * 256) b) with 0 in Ha; [lia|]. symmetry.
  change 256 with (2 ^ 8). rewrite <- Z.shiftl_mul_pow2 by lia. apply Z.bits_inj'. intros i Hi.
  rewrite Z.land_spec, Z.shiftl_spec, Z.bits_0 by lia. destruct (Z.lt_ge_cases i 8).
  - by rewrite Z.testbit_neg_r by lia.
  - rewrite (testbit_above_width 8 b i) by (done || lia). apply andb_false_r.
Qed.

Lemma fold_shift_or bs : all_bytes bs -> forall v,
  fold_left (fun value byte => Z.lor (Z.shiftl value 8) byte) bs v = v * 256 ^ Z.of_nat (length bs) + be_val bs.
Proof.
  unfold be_val. induction bs as [|b bs IH] using rev_ind; intros Hb v; [simpl; lia|].
  apply Forall_app in Hb as [Hbs Hb]. inversion Hb as [|? ? Hb' _]. subst.
  rewrite !fold_left_app, IH by done. cbn [fold_left]. rewrite shift_or by done. rewrite length_app. cbn [length].
  rewrite Nat2Z.inj_add, Z.pow_add_r by lia. change (256 ^ Z.of_nat 1) with 256. lia.
Qed.

Lemma be_val_cons b bs : be_val (b :: bs) = b * 256 ^ Z.of_nat (length bs) + be_val bs.
Proof.
  assert (Hg : forall bs v, fold_left (fun acc b => acc * 256 + b) bs v = v * 256 ^ Z.of_nat (length bs) + be_val bs).
  { clear. unfold be_val. induction bs as [|c bs IH] using rev_ind; intros v; [simpl; lia|].
    rewrite !fold_left_app. cbn [fold_left]. rewrite IH, length_app, Nat2Z.inj_add, Z.pow_add_r by lia. cbn [length].
    change (256 ^ Z.of_nat 1) with 256. lia. }
  unfold be_val at 1. cbn [fold_left]. rewrite Hg. lia.
Qed.

Lemma pow256 n : 256 ^ Z.of_nat n = 2 ^ (8 * Z.of_nat n).
Proof. change 256 with (2 ^ 8). rewrite <- Z.pow_mul_r by lia. done. Qed.

(** The two top bits say how many bytes there are, the others are the value. *)
Lemma varint_decode_spec first input :
  all_bytes (first :: input) ->
  let len := Z.to_nat (2 ^ (first / 64)) in
  varint_decode (first :: input) =
    if (length (first :: input) <? len)%nat then None
    else Some (be_val (take len (first :: input)) mod 2 ^ (8 * Z.of_nat len - 2), len).
Proof.
  intros Hb len. inversion Hb as [|? ? Hf Hi]. subst. unfold is_byte, in_width in Hf. change (2 ^ 8) with 256 in Hf.
  unfold varint_decode. rewrite Z.shiftr_div_pow2, Z.shiftl_mul_pow2, Z.mul_1_l by lia || (apply Z.div_pos; lia).
  change (2 ^ 6) with 64. fold len. case_match; [done|]. f_equal. f_equal.
  assert (Hl : (1 <= len)%nat) by (subst len; assert (0 < 2 ^ (first / 64)) by (apply Z.pow_pos_nonneg; [lia|apply Z.div_pos; lia]); lia).
  destruct len as [|k]; [lia|]. cbn [take]. rewrite skipn_cons, drop_0. replace (S k - 1)%nat with k by lia.
  assert (Hk : length (take k input) = k) by (rewrite length_take; apply Nat.ltb_ge in H; simpl in H; lia).
  rewrite fold_shift_or by (by apply Forall_take). rewrite be_val_cons, !Hk, !pow256.
  change 0x3f with (Z.ones 6). rewrite Z.land_ones by lia. change (2 ^ 6) with 64.
  pose proof (be_val_bound (take k input) ltac:(by apply Forall_take)) as Hv. rewrite Hk in Hv. unfold in_width in Hv.
  replace (8 * Z.of_nat (S k) - 2) with (8 * Z.of_nat k + 6) by lia. rewrite Z.pow_add_r by lia.
  change (2 ^ 6) with 64. pose proof (Z.div_mod first 64 ltac:(lia)) as Hd. pose proof (Z.mod_pos_bound first 64 ltac:(lia)) as Hm.
  set (B := 2 ^ (8 * Z.of_nat k)) in *. apply Z.mod_unique with (first / 64); [left|]; nia.
Qed.

Lemma varint_decode_used input v n :
  all_bytes input -> varint_decode input = Some (v, n) -> (1 <= n <= length input)%nat /\ 0 <= v < 2 ^ 62.
Proof.
  destruct input as [|first input]; [done|]. intros Hb. rewrite varint_decode_spec by done.
  inversion Hb as [|? ? Hf _]. subst. unfold is_byte, in_width in Hf. change (2 ^ 8) with 256 in Hf.
  case_match eqn:E; [done|]. intros [= <- <-]. apply Nat.ltb_ge in E.
  assert (Hq : 0 <= first / 64 < 4) by (split; [apply Z.div_pos; lia|apply Z.div_lt_upper_bound; lia]).
  assert (Hp : 1 <= 2 ^ (first / 64) <= 8).
  { split; [apply (Z.pow_le_mono_r 2 0); lia|]. change 8 with (2 ^ 3). apply Z.pow_le_mono_r; lia. }
  split; [lia|].
  pose proof (Z.mod_pos_bound (be_val (take (Z.to_nat (2 ^ (first / 64))) (first :: input)))
    (2 ^ (8 * Z.of_nat (Z.to_nat (2 ^ (first / 64))) - 2)) ltac:(apply Z.pow_pos_nonneg; lia)) as Hm.
  split; [lia|]. eapply Z.lt_le_trans; [apply Hm|]. apply Z.pow_le_mono_r; lia.
Qed.

Lemma varint_encode_spec v e : 0 <= v -> varint_encode v = Some e ->
  exists t, 0 <= t < 4 /\ let n := Z.to_nat (2 ^ t) in
    v < 2 ^ (8 * Z.of_nat n - 2) /\ e = be_bytes n (t * 2 ^ (8 * Z.of_nat n - 2) + v) /\
    (t <> 0 -> 2 ^ (4 * Z.of_nat n - 2) <= v).
Proof.
  intros Hv. assert (Hor : forall w t, 0 <= t -> v < 2 ^ w -> 0 <= w -> Z.lor v (t * 2 ^ w) = t * 2 ^ w + v).
  { intros w t Ht Hw Hw0. rewrite Z.lor_comm. pose proof (Z.add_lor_land (t * 2 ^ w) v) as Ha.
    replace (Z.land (t * 2 ^ w) v) with 0 in Ha; [lia|]. symmetry. rewrite <- Z.shiftl_mul_pow2 by lia.
    apply Z.bits_inj'. intros i Hi. rewrite Z.land_spec, Z.shiftl_spec, Z.bits_0 by lia. destruct (Z.lt_ge_cases i w).
    - by rewrite Z.testbit_neg_r by lia.
    - rewrite (testbit_above_width w v i) by (split; lia) || lia. apply andb_false_r. }
  unfold varint_encode. rewrite !Z.shiftl_1_l.
  destruct (Z.ltb_spec v (2 ^ 6)); [|destruct (Z.ltb_spec v (2 ^ 14)); [|destruct (Z.ltb_spec v (2 ^ 30)); [|destruct (Z.ltb_spec v (2 ^ 62)); [|done]]]];
    intros [= <-]; [exists 0|exists 1|exists 2|exists 3]; (split; [lia|]).
  - split; [done|]. split; [|lia]. simpl. rewrite Z.mod_small by (change (2 ^ 6) with 64 in *; lia). done.
  - split; [done|]. split; [|intros _; exact H]. change 0x4000 with (1 * 2 ^ 14). by rewrite Hor.
  - split; [done|]. split; [|intros _; exact H0]. change 0x80000000 with (2 * 2 ^ 30). by rewrite Hor.
  - split; [done|]. split; [|intros _; exact H1]. change 0xC000000000000000 with (3 * 2 ^ 62). by rewrite Hor.
Qed.

Lemma first_of_be n X q : (1 <= n)%nat -> 0 <= q < 4 -> q * 2 ^ (8 * Z.of_nat n - 2) <= X < (q + 1) * 2 ^ (8 * Z.of_nat n - 2) ->
  exists first tl, be_bytes n X = first :: tl /\ first / 64 = q.
Proof.
  intros Hn Hq HX. set (W := 2 ^ (8 * Z.of_nat n - 2)) in *.
  assert (HW : 2 ^ (8 * Z.of_nat n) = 4 * W) by (subst W; change 4 with (2 ^ 2); rewrite <- Z.pow_add_r by lia; f_equal; lia).
  assert (HX' : in_width (8 * Z.of_nat n) X) by (unfold in_width; assert (0 < W) by (apply Z.pow_pos_nonneg; lia); nia).
  pose proof (be_val_be_bytes n X HX') as Hv. pose proof (length_be_bytes n X) as Hl. pose proof (be_bytes_all_bytes n X) as Hb.
  destruct (be_bytes n X) as [|first tl]; [simpl in Hl; lia|]. exists first, tl. split; [done|].
  apply Forall_cons in Hb as [Hf Ht]. simpl in Hl. rewrite be_val_cons, pow256 in Hv.
  pose proof (be_val_bound tl Ht) as Hbt. unfold in_width in Hbt.
  assert (HWtl : W = 64 * 2 ^ (8 * Z.of_nat (length tl))).
  { subst W. change 64 with (2 ^ 6). rewrite <- Z.pow_add_r by lia. f_equal. lia. }
  set (B := 2 ^ (8 * Z.of_nat (length tl))) in *. symmetry.
  apply Z.div_unique with (first - 64 * q); [left|]; nia.
Qed.

Lemma varint_roundtrip v e rest :
  0 <= v -> varint_encode v = Some e -> all_bytes rest -> varint_decode (e ++ rest) = Some (v, length e).
Proof.
  intros Hv He Hr. destruct (varint_encode_spec v e Hv He) as (t & Ht & Hlt & -> & _).
  set (n := Z.to_nat (2 ^ t)) in *. set (W := 2 ^ (8 * Z.of_nat n - 2)) in *.
  assert (Hn : (1 <= n)%nat) by (subst n; assert (0 < 2 ^ t) by (apply Z.pow_pos_nonneg; lia); lia).
  assert (HX : in_width (8 * Z.of_nat n) (t * W + v)).
  { unfold in_width. replace (8 * Z.of_nat n) with (2 + (8 * Z.of_nat n - 2)) by lia. rewrite Z.pow_add_r by lia. fold W.
    assert (0 < W) by (apply Z.pow_pos_nonneg; lia). nia. }
  destruct (first_of_be n (t * W + v) t Hn Ht) as (first & tl & E & Eq); [fold W; lia|].
  rewrite length_be_bytes. pose proof (be_bytes_all_bytes n (t * W + v)) as Hb. pose proof (length_be_bytes n (t * W + v)) as Hl.
  pose proof (be_val_be_bytes n _ HX) as Hval. rewrite E in *. cbn [app]. rewrite varint_decode_spec, Eq by (apply Forall_cons in Hb as [? ?]; constructor; [done|by apply Forall_app]).
  fold n. rewrite (proj2 (Nat.ltb_ge _ _)) by (cbn [length] in *; rewrite length_app; lia).
  f_equal. f_equal. change (first :: tl ++ rest) with ((first :: tl) ++ rest). rewrite take_app_le, take_ge by lia. rewrite Hval. fold W.
  rewrite Z.add_comm, Z.mod_add, Z.mod_small by lia. done.
Qed.

Lemma varint_encode_total v : 0 <= v < 2 ^ 62 -> is_Some (varint_encode v).
Proof.
  intros [_ Hv]. unfold varint_encode. rewrite !Z.shiftl_1_l. repeat case_match; try done. apply Z.ltb_ge in H2. lia.
Qed.

(** No encoding of a value is shorter. *)
Lemma varint_shortest input v n e :
  all_bytes input -> varint_decode input = Some (v, n) -> varint_encode v = Some e -> (length e <= n)%nat.
Proof.
  intros Hb Hd He. destruct (varint_decode_used input v n Hb Hd) as [_ Hv].
  destruct (varint_encode_spec v e ltac:(lia) He) as (t & Ht & _ & -> & Hmin). rewrite length_be_bytes.
  destruct input as [|first input]; [done|]. rewrite varint_decode_spec in Hd by done. case_match; [done|]. injection Hd as <- <-.
  inversion Hb as [|? ? Hf _]. subst. unfold is_byte, in_width in Hf. change (2 ^ 8) with 256 in Hf.
  assert (Hq : 0 <= first / 64) by (apply Z.div_pos; lia).
  destruct (decide (t = 0)) as [->|Hne]; [assert (0 < 2 ^ (first / 64)) by (apply Z.pow_pos_nonneg; lia); simpl; lia|].
  specialize (Hmin Hne). assert (0 < 2 ^ (first / 64)) by (apply Z.pow_pos_nonneg; lia).
  assert (0 < 2 ^ t) by (apply Z.pow_pos_nonneg; lia). rewrite !Z2Nat.id in * by lia.
  pose proof (Z.mod_pos_bound (be_val (take (Z.to_nat (2 ^ (first / 64))) (first :: input))) (2 ^ (8 * 2 ^ (first / 64) - 2))
    ltac:(apply Z.pow_pos_nonneg; lia)) as Hm.
  assert (4 * 2 ^ t - 2 < 8 * 2 ^ (first / 64) - 2) by (apply (Z.pow_lt_mono_r_iff 2); lia).
  assert (2 ^ t < 2 ^ (first / 64 + 1)) by (rewrite Z.pow_add_r by lia; lia).
  assert (t <= first / 64) by (assert (t < first / 64 + 1) by (apply (Z.pow_lt_mono_r_iff 2); lia); lia).
  apply Z2Nat.inj_le; [lia..|]. apply Z.pow_le_mono_r; lia.
Qed.

(** More bytes do not change what has been read. *)
Lemma varint_stable input r more : varint_decode input = Some r -> varint_decode (input ++ more) = Some r.
Proof.
  destruct input as [|first input]; [done|]. cbn [varint_decode app]. set (len := Z.to_nat _).
  destruct (Nat.ltb_spec (length (first :: input)) len) as [|Hl]; [done|]. intros [= <-].
  destruct (Nat.ltb_spec (length (first :: input ++ more)) len) as [Hl2|_]; [cbn [length] in *; rewrite length_app in Hl2; lia|].
  rewrite !skipn_cons, !drop_0, take_app_le by (cbn [length] in Hl; lia). done.
Qed.

Lemma varint_encode_bytes v e : 0 <= v -> varint_encode v = Some e -> all_bytes e /\ e <> [].
Proof.
  intros Hv He. destruct (varint_encode_spec v e Hv He) as (t & Ht & _ & -> & _). split; [apply be_bytes_all_bytes|].
  intros E. apply (f_equal length) in E. rewrite length_be_bytes in E. assert (0 < 2 ^ t) by (apply Z.pow_pos_nonneg; lia). simpl in E. lia.
Qed.

Ltac bytes := first [done|lia|repeat apply Forall_app_2; done].

(** ** Frames *)

(** Any input at all: the end of a frame is in the input, and more input gives the same
    frame. *)
Lemma read_frame_stable input r more : read_frame input = Some r -> read_frame (input ++ more) = Some r /\ (snd r <= length input)%nat.
Proof.
  unfold read_frame. destruct (varint_decode input) as [[ty n1]|] eqn:E1; [|done]. simpl.
  destruct (varint_decode (drop n1 input)) as [[len n2]|] eqn:E2; [|done]. simpl. case_match; [done|]. case_match eqn:El; [done|].
  intros [= <-]. rewrite (varint_stable _ _ more E1). simpl.
  assert (Hn1 : (n1 < length input)%nat).
  { destruct (Nat.lt_ge_cases n1 (length input)); [done|]. by rewrite drop_ge in E2 by lia. }
  rewrite drop_app_le, (varint_stable _ _ more E2) by lia. simpl. rewrite H. apply Z.ltb_ge in El. rewrite length_app.
  destruct (Z.ltb_spec (Z.of_nat (length input + length more)) (Z.of_nat (n1 + n2) + len)); [lia|].
  split; [|simpl; lia]. f_equal. f_equal. f_equal.
  destruct (Nat.le_gt_cases (n1 + n2) (length input)) as [Hl|Hg].
  - rewrite drop_app_le by lia. rewrite take_app_le; [done|]. rewrite length_drop. lia.
  - replace (Z.to_nat (Z.of_nat (n1 + n2) + len) - (n1 + n2))%nat with O by lia. by rewrite !take_0.
Qed.

Lemma read_frame_encode ty p bs rest :
  0 <= ty -> all_bytes p -> all_bytes rest -> encode_h3_frame ty p = Some bs ->
  read_frame (bs ++ rest) = Some (mkH3Frame ty p, length bs).
Proof.
  intros Ht Hp Hr. unfold encode_h3_frame. destruct (varint_encode ty) as [t|] eqn:E1; [|done]. simpl.
  destruct (varint_encode (Z.of_nat (length p))) as [n|] eqn:E2; [|done]. intros [= <-].
  destruct (varint_encode_bytes _ _ Ht E1) as [Hbt _]. destruct (varint_encode_bytes _ _ (Nat2Z.is_nonneg _) E2) as [Hbn _].
  assert (Hv : Z.of_nat (length p) < 2 ^ 62).
  { unfold varint_encode in E2. rewrite !Z.shiftl_1_l in E2. repeat (case_match; [|]); try done;
      match goal with H : (_ <? _) = true |- _ => apply Z.ltb_lt in H end;
      (eapply Z.lt_le_trans; [eassumption|apply Z.pow_le_mono_r; lia]). }
  assert (Hlen : (length t <= 8 /\ length n <= 8)%nat).
  { split; unfold varint_encode in *; repeat case_match; simplify_eq; rewrite ?length_be_bytes; simpl; lia. }
  unfold read_frame. rewrite <- !app_assoc. rewrite (varint_roundtrip ty t) by bytes. simpl.
  rewrite drop_app_length, (varint_roundtrip (Z.of_nat (length p)) n) by bytes. simpl.
  replace (Z.of_nat (length t + length n) + Z.of_nat (length p)) with (Z.of_nat (length (t ++ n ++ p))) by (rewrite !length_app; lia).
  destruct (Z.ltb_spec u64_max (Z.of_nat (length (t ++ n ++ p)))) as [Hx|_].
  { rewrite !length_app in Hx. unfold u64_max in Hx. lia. }
  destruct (Z.ltb_spec (Z.of_nat (length (t ++ n ++ p ++ rest))) (Z.of_nat (length (t ++ n ++ p)))) as [Hx|_].
  { rewrite !length_app in Hx. lia. }
  rewrite Nat2Z.id. f_equal. f_equal. f_equal.
  rewrite <- drop_drop, drop_app_length, drop_app_length. rewrite !length_app.
  replace (length t + (length n + length p) - (length t + length n))%nat with (length p) by lia. by rewrite take_app_length.
Qed.

(** ** Settings *)

Definition valid_settings (pairs : list (Z * Z)) : Prop := Forall (fun p => 0 <= fst p /\ 0 <= snd p) pairs.

Lemma settings_bytes pairs bs : valid_settings pairs -> settings_payload pairs = Some bs -> all_bytes bs.
Proof.
  revert bs. induction pairs as [|[a b] ps IH]; intros bs Hv; cbn [settings_payload]; [intros [= <-]; constructor|].
  apply Forall_cons in Hv as [[Ha Hb] Hv]. destruct (varint_encode a) eqn:Ea; [|done]. simpl. destruct (varint_encode b) eqn:Eb; [|done]. simpl.
  destruct (settings_payload ps); [|done]. intros [= <-]. apply Forall_app_2; [by apply (varint_encode_bytes a)|].
  apply Forall_app_2; [by apply (varint_encode_bytes b)|by apply IH].
Qed.

Lemma parse_settings_payload pairs : forall fuel bs out,
  valid_settings pairs -> settings_payload pairs = Some bs -> (length bs <= fuel)%nat ->
  parse_settings_loop fuel bs out = fold_left (fun s p => note_setting (fst p) (snd p) s) pairs out.
Proof.
  induction pairs as [|[id value] pairs IH]; intros fuel bs out Hv; cbn [settings_payload].
  - intros [= <-] _. by destruct fuel.
  - destruct (varint_encode id) as [i|] eqn:E1; [|done]. simpl. destruct (varint_encode value) as [v|] eqn:E2; [|done]. simpl.
    destruct (settings_payload pairs) as [rest|] eqn:E3; [|done]. intros [= <-] Hf. apply Forall_cons in Hv as [[H1 H2] Hv]. simpl in H1, H2.
    destruct (varint_encode_bytes _ _ H1 E1) as [Hbi Hi]. destruct (varint_encode_bytes _ _ H2 E2) as [Hbv Hnv].
    pose proof (settings_bytes pairs rest Hv E3) as Hbr.
    destruct fuel as [|fuel]; [rewrite length_app in Hf; destruct i; [done|simpl in Hf; lia]|]. cbn [parse_settings_loop].
    rewrite (varint_roundtrip id i) by bytes.
    rewrite drop_app_length, (varint_roundtrip value v) by done.
    rewrite <- drop_drop, drop_app_length, drop_app_length. apply IH; [done|done|]. rewrite !length_app in Hf. destruct i; [done|]. simpl in Hf. lia.
Qed.

(** The settings of a payload are those that were written, the last of each kind; the
    WebTransport one is on if any of them was. *)
Lemma parse_settings_exact pairs bs :
  valid_settings pairs -> settings_payload pairs = Some bs ->
  parse_settings bs = fold_left (fun s p => note_setting (fst p) (snd p) s) pairs (mkSettings false false false).
Proof. intros Hv Hs. by apply parse_settings_payload. Qed.

(** What the two preludes say to a browser. *)
Lemma preludes :
  supports_webtransport (fold_left (fun s p => note_setting (fst p) (snd p) s) server_settings (mkSettings false false false)) = true /\
  client_advertises_webtransport (fold_left (fun s p => note_setting (fst p) (snd p) s) masque_settings (mkSettings false false false)) = false /\
  is_Some control_stream_prelude /\ is_Some masque_control_stream_prelude.
Proof. split_and!; vm_compute; first [done|by eexists]. Qed.

(** ** Streams and datagrams *)

Lemma bidi_header_roundtrip id h body :
  0 <= id -> all_bytes body -> encode_bidi_stream_header id = Some h -> read_bidi_stream_header (h ++ body) = Some (id, body).
Proof.
  intros Hi Hb. unfold encode_bidi_stream_header, encode_stream_header.
  destruct (varint_encode WEBTRANSPORT_STREAM_BIDI) as [s|] eqn:Es; [|done]. simpl. destruct (varint_encode id) as [i|] eqn:Ei; [|done].
  intros [= <-]. destruct (varint_encode_bytes _ _ Hi Ei) as [Hbi _].
  unfold read_bidi_stream_header. rewrite <- app_assoc, (varint_roundtrip WEBTRANSPORT_STREAM_BIDI s) by bytes. simpl.
  rewrite drop_app_length, (varint_roundtrip id i) by bytes. simpl. by rewrite <- drop_drop, drop_app_length, drop_app_length.
Qed.

Lemma wt_datagram_roundtrip id d body :
  0 <= id -> all_bytes body -> encode_wt_datagram id body = Some d -> read_wt_datagram d = Some (quarter_stream_id id, body).
Proof.
  intros Hi Hb. unfold encode_wt_datagram. destruct (varint_encode _) as [q|] eqn:Eq; [|done]. intros [= <-].
  unfold read_wt_datagram. rewrite (varint_roundtrip (quarter_stream_id id) q); [|by apply Z.shiftr_nonneg|done|done]. simpl.
  by rewrite drop_app_length.
Qed.

Lemma masque_datagram_roundtrip id d body :
  0 <= id -> all_bytes body -> encode_masque_datagram id body = Some d ->
  read_masque_datagram d = Some (quarter_stream_id id, CONNECT_UDP_CONTEXT_ID, body).
Proof.
  intros Hi Hb. unfold encode_masque_datagram. fold (quarter_stream_id id).
  destruct (varint_encode (quarter_stream_id id)) as [q|] eqn:Eq; [|done]. simpl. intros [= <-].
  unfold read_masque_datagram. rewrite (varint_roundtrip (quarter_stream_id id) q); [|by apply Z.shiftr_nonneg|done|by constructor].
  simpl. rewrite drop_app_length. simpl. by rewrite <- drop_drop, drop_app_length.
Qed.

(** Frames survive however the stream is cut.  A frame that was written is read back
    exactly, with its length, whatever follows; and a reader that has received only part
    of it says so, whatever the part, so that reading again when more has arrived never
    yields a different frame. *)
Theorem framing_exact ty p bs rest :
  0 <= ty -> all_bytes p -> all_bytes rest -> encode_h3_frame ty p = Some bs ->
  read_frame (bs ++ rest) = Some (mkH3Frame ty p, length bs) /\
  (forall k, (k < length bs)%nat -> read_frame (take k bs) = None).
Proof.
  intros Ht Hp Hr He. split; [by apply read_frame_encode|]. intros k Hk.
  destruct (read_frame (take k bs)) as [r|] eqn:E; [|done]. destruct (read_frame_stable _ _ (drop k bs) E) as [Hs Hl].
  rewrite take_drop in Hs. pose proof (read_frame_encode ty p bs [] Ht Hp ltac:(constructor) He) as Hw. rewrite app_nil_r, Hs in Hw.
  injection Hw as ->. simpl in Hl. rewrite length_take in Hl. lia.
Qed.

Lemma framing_exact_witness :
  read_frame ([0x01; 0x03; 7; 8; 9] ++ [1; 2]) = Some (mkH3Frame FRAME_HEADERS [7; 8; 9], 5%nat) /\ read_frame [0x01; 0x03; 7] = None.
Proof.
  destruct (framing_exact FRAME_HEADERS [7; 8; 9] [0x01; 0x03; 7; 8; 9] [1; 2]) as [H1 H2].
  - unfold FRAME_HEADERS. lia.
  - repeat constructor; unfold is_byte, in_width; lia.
  - repeat constructor; unfold is_byte, in_width; lia.
  - vm_compute. reflexivity.
  - split; [exact H1|]. exact (H2 3%nat ltac:(simpl; lia)).
Defined.
