(* ===== verification/EdgeHuffman.v ===== *)
(** Huffman decoding of header strings ([crates/warrenguard-edge/src/huffman.rs]), the code
    of RFC 7541, and that it is exactly the inverse of the encoding by the same table.

    The bits of the input are taken from the most significant one of each byte, so that
    the two loops of the code are one loop over the bits. *)

From S2P Require Import Prelude.
#[local] Open Scope Z_scope.

(** The errors of the crate ([lib.rs]). *)
Inductive EdgeError := MalformedFrame | MalformedFieldSection | InvalidHuffman.

(** Symbol, code and length in bits. *)
Definition TABLE : list (Z * Z * Z) :=
  [(0, 0x1ff8, 13); (1, 0x7fffd8, 23); (2, 0xfffffe2, 28); (3, 0xfffffe3, 28); (4, 0xfffffe4, 28); (5, 0xfffffe5, 28);
   (6, 0xfffffe6, 28); (7, 0xfffffe7, 28); (8, 0xfffffe8, 28); (9, 0xffffea, 24); (10, 0x3ffffffc, 30);
   (11, 0xfffffe9, 28); (12, 0xfffffea, 28); (13, 0x3ffffffd, 30); (14, 0xfffffeb, 28); (15, 0xfffffec, 28);
   (16, 0xfffffed, 28); (17, 0xfffffee, 28); (18, 0xfffffef, 28); (19, 0xffffff0, 28); (20, 0xffffff1, 28);
   (21, 0xffffff2, 28); (22, 0x3ffffffe, 30); (23, 0xffffff3, 28); (24, 0xffffff4, 28); (25, 0xffffff5, 28);
   (26, 0xffffff6, 28); (27, 0xffffff7, 28); (28, 0xffffff8, 28); (29, 0xffffff9, 28); (30, 0xffffffa, 28);
   (31, 0xffffffb, 28); (32, 0x14, 6); (33, 0x3f8, 10); (34, 0x3f9, 10); (35, 0xffa, 12); (36, 0x1ff9, 13);
   (37, 0x15, 6); (38, 0xf8, 8); (39, 0x7fa, 11); (40, 0x3fa, 10); (41, 0x3fb, 10); (42, 0xf9, 8); (43, 0x7fb, 11);
   (44, 0xfa, 8); (45, 0x16, 6); (46, 0x17, 6); (47, 0x18, 6); (48, 0x0, 5); (49, 0x1, 5); (50, 0x2, 5);
   (51, 0x19, 6); (52, 0x1a, 6); (53, 0x1b, 6); (54, 0x1c, 6); (55, 0x1d, 6); (56, 0x1e, 6); (57, 0x1f, 6);
   (58, 0x5c, 7); (59, 0xfb, 8); (60, 0x7ffc, 15); (61, 0x20, 6); (62, 0xffb, 12); (63, 0x3fc, 10); (64, 0x1ffa, 13);
   (65, 0x21, 6); (66, 0x5d, 7); (67, 0x5e, 7); (68, 0x5f, 7); (69, 0x60, 7); (70, 0x61, 7); (71, 0x62, 7);
   (72, 0x63, 7); (73, 0x64, 7); (74, 0x65, 7); (75, 0x66, 7); (76, 0x67, 7); (77, 0x68, 7); (78, 0x69, 7);
   (79, 0x6a, 7); (80, 0x6b, 7); (81, 0x6c, 7); (82, 0x6d, 7); (83, 0x6e, 7); (84, 0x6f, 7); (85, 0x70, 7);
   (86, 0x71, 7); (87, 0x72, 7); (88, 0xfc, 8); (89, 0x73, 7); (90, 0xfd, 8); (91, 0x1ffb, 13); (92, 0x7fff0, 19);
   (93, 0x1ffc, 13); (94, 0x3ffc, 14); (95, 0x22, 6); (96, 0x7ffd, 15); (97, 0x3, 5); (98, 0x23, 6); (99, 0x4, 5);
   (100, 0x24, 6); (101, 0x5, 5); (102, 0x25, 6); (103, 0x26, 6); (104, 0x27, 6); (105, 0x6, 5); (106, 0x74, 7);
   (107, 0x75, 7); (108, 0x28, 6); (109, 0x29, 6); (110, 0x2a, 6); (111, 0x7, 5); (112, 0x2b, 6); (113, 0x76, 7);
   (114, 0x2c, 6); (115, 0x8, 5); (116, 0x9, 5); (117, 0x2d, 6); (118, 0x77, 7); (119, 0x78, 7); (120, 0x79, 7);
   (121, 0x7a, 7); (122, 0x7b, 7); (123, 0x7ffe, 15); (124, 0x7fc, 11); (125, 0x3ffd, 14); (126, 0x1ffd, 13);
   (127, 0xffffffc, 28); (128, 0xfffe6, 20); (129, 0x3fffd2, 22); (130, 0xfffe7, 20); (131, 0xfffe8, 20);
   (132, 0x3fffd3, 22); (133, 0x3fffd4, 22); (134, 0x3fffd5, 22); (135, 0x7fffd9, 23); (136, 0x3fffd6, 22);
   (137, 0x7fffda, 23); (138, 0x7fffdb, 23); (139, 0x7fffdc, 23); (140, 0x7fffdd, 23); (141, 0x7fffde, 23);
   (142, 0xffffeb, 24); (143, 0x7fffdf, 23); (144, 0xffffec, 24); (145, 0xffffed, 24); (146, 0x3fffd7, 22);
   (147, 0x7fffe0, 23); (148, 0xffffee, 24); (149, 0x7fffe1, 23); (150, 0x7fffe2, 23); (151, 0x7fffe3, 23);
   (152, 0x7fffe4, 23); (153, 0x1fffdc, 21); (154, 0x3fffd8, 22); (155, 0x7fffe5, 23); (156, 0x3fffd9, 22);
   (157, 0x7fffe6, 23); (158, 0x7fffe7, 23); (159, 0xffffef, 24); (160, 0x3fffda, 22); (161, 0x1fffdd, 21);
   (162, 0xfffe9, 20); (163, 0x3fffdb, 22); (164, 0x3fffdc, 22); (165, 0x7fffe8, 23); (166, 0x7fffe9, 23);
   (167, 0x1fffde, 21); (168, 0x7fffea, 23); (169, 0x3fffdd, 22); (170, 0x3fffde, 22); (171, 0xfffff0, 24);
   (172, 0x1fffdf, 21); (173, 0x3fffdf, 22); (174, 0x7fffeb, 23); (175, 0x7fffec, 23); (176, 0x1fffe0, 21);
   (177, 0x1fffe1, 21); (178, 0x3fffe0, 22); (179, 0x1fffe2, 21); (180, 0x7fffed, 23); (181, 0x3fffe1, 22);
   (182, 0x7fffee, 23); (183, 0x7fffef, 23); (184, 0xfffea, 20); (185, 0x3fffe2, 22); (186, 0x3fffe3, 22);
   (187, 0x3fffe4, 22); (188, 0x7ffff0, 23); (189, 0x3fffe5, 22); (190, 0x3fffe6, 22); (191, 0x7ffff1, 23);
   (192, 0x3ffffe0, 26); (193, 0x3ffffe1, 26); (194, 0xfffeb, 20); (195, 0x7fff1, 19); (196, 0x3fffe7, 22);
   (197, 0x7ffff2, 23); (198, 0x3fffe8, 22); (199, 0x1ffffec, 25); (200, 0x3ffffe2, 26); (201, 0x3ffffe3, 26);
   (202, 0x3ffffe4, 26); (203, 0x7ffffde, 27); (204, 0x7ffffdf, 27); (205, 0x3ffffe5, 26); (206, 0xfffff1, 24);
   (207, 0x1ffffed, 25); (208, 0x7fff2, 19); (209, 0x1fffe3, 21); (210, 0x3ffffe6, 26); (211, 0x7ffffe0, 27);
   (212, 0x7ffffe1, 27); (213, 0x3ffffe7, 26); (214, 0x7ffffe2, 27); (215, 0xfffff2, 24); (216, 0x1fffe4, 21);
   (217, 0x1fffe5, 21); (218, 0x3ffffe8, 26); (219, 0x3ffffe9, 26); (220, 0xffffffd, 28); (221, 0x7ffffe3, 27);
   (222, 0x7ffffe4, 27); (223, 0x7ffffe5, 27); (224, 0xfffec, 20); (225, 0xfffff3, 24); (226, 0xfffed, 20);
   (227, 0x1fffe6, 21); (228, 0x3fffe9, 22); (229, 0x1fffe7, 21); (230, 0x1fffe8, 21); (231, 0x7ffff3, 23);
   (232, 0x3fffea, 22); (233, 0x3fffeb, 22); (234, 0x1ffffee, 25); (235, 0x1ffffef, 25); (236, 0xfffff4, 24);
   (237, 0xfffff5, 24); (238, 0x3ffffea, 26); (239, 0x7ffff4, 23); (240, 0x3ffffeb, 26); (241, 0x7ffffe6, 27);
   (242, 0x3ffffec, 26); (243, 0x3ffffed, 26); (244, 0x7ffffe7, 27); (245, 0x7ffffe8, 27); (246, 0x7ffffe9, 27);
   (247, 0x7ffffea, 27); (248, 0x7ffffeb, 27); (249, 0xffffffe, 28); (250, 0x7ffffec, 27); (251, 0x7ffffed, 27);
   (252, 0x7ffffee, 27); (253, 0x7ffffef, 27); (254, 0x7fffff0, 27); (255, 0x3ffffee, 26); (256, 0x3fffffff, 30)].

Definition EOS : Z := 256.

Definition code_map : gmap (Z * Z) Z :=
  fold_left (fun m e => let '(sym, code, bits) := e in <[(bits, code) := sym]> m) TABLE ∅.

(** [(byte >> bit) & 1] for [bit in (0..8).rev()]. *)
Definition byte_bits (byte : Z) : list Z := (fun bit => Z.land (Z.shiftr byte bit) 1) <$> [7; 6; 5; 4; 3; 2; 1; 0].

(** The loop: the symbols so far, the code being read and its length. *)
Fixpoint decode_bits (bits : list Z) (out : list Z) (code len : Z) : result (list Z * Z * Z) EdgeError :=
  match bits with
  | [] => Ok (out, code, len)
  | bit :: bits =>
      let code := wrap 32 (Z.lor (Z.shiftl code 1) bit) in
      let len := len + 1 in
      if 30 <? len then Err InvalidHuffman
      else
        match code_map !! (len, code) with
        | Some sym => if sym =? EOS then Err InvalidHuffman else decode_bits bits (out ++ [wrap 8 sym]) 0 0
        | None => decode_bits bits out code len
        end
  end.

Definition huffman_decode (input : list Z) : result (list Z) EdgeError :=
  match decode_bits (input ≫= byte_bits) [] 0 0 with
  | Err e => Err e
  | Ok (out, code, len) =>
      if 7 <? len then Err InvalidHuffman
      else if (0 <? len) && negb (code =? Z.shiftl 1 len - 1) then Err InvalidHuffman
      else Ok out
  end.

(** ** The encoding *)

(** The low [n] bits of a number, the most significant first. *)
Fixpoint code_bits (n : nat) (code : Z) : list Z :=
  match n with O => [] | S n => code_bits n (code / 2) ++ [code mod 2] end.

Definition entry_of (sym : Z) : option (Z * Z * Z) := find (fun e => fst (fst e) =? sym) TABLE.

Definition symbol_bits (sym : Z) : list Z :=
  match entry_of sym with Some (_, code, n) => code_bits (Z.to_nat n) code | None => [] end.

Definition bits_val (l : list Z) : Z := fold_left (fun c b => c * 2 + b) l 0.

(** Bits to bytes, eight at a time. *)
Fixpoint pack (fuel : nat) (bits : list Z) : list Z :=
  match fuel with
  | O => []
  | S fuel => match bits with [] => [] | _ => bits_val (take 8 bits) :: pack fuel (drop 8 bits) end
  end.

(** Padded with ones. *)
Definition huffman_encode (s : list Z) : list Z :=
  let bits := s ≫= symbol_bits in
  let pad := ((8 - length bits mod 8) mod 8)%nat in
  pack (length bits + 8) (bits ++ replicate pad 1).

(** ** Bits and numbers *)

Definition is_bit (b : Z) : Prop := b = 0 \/ b = 1.

Lemma bits_val_snoc l b : bits_val (l ++ [b]) = bits_val l * 2 + b.
Proof. unfold bits_val. by rewrite fold_left_app. Qed.

Lemma bits_val_bound l : Forall is_bit l -> 0 <= bits_val l < 2 ^ Z.of_nat (length l).
Proof.
  induction l as [|b l IH] using rev_ind; intros Hl; [by vm_compute|]. apply Forall_app in Hl as [Hl Hb].
  rewrite Forall_singleton in Hb. specialize (IH Hl). rewrite bits_val_snoc, length_app, Nat2Z.inj_add, Z.pow_add_r by lia.
  cbn [length]. change (2 ^ Z.of_nat 1) with 2. set (B := 2 ^ _) in *. destruct Hb as [-> | ->]; lia.
Qed.

Lemma code_bits_val l : Forall is_bit l -> code_bits (length l) (bits_val l) = l.
Proof.
  induction l as [|b l IH] using rev_ind; intros Hl; [done|]. apply Forall_app in Hl as [Hl Hb]. rewrite Forall_singleton in Hb.
  rewrite length_app, Nat.add_comm. cbn [length Nat.add code_bits]. rewrite bits_val_snoc.
  assert (0 <= b < 2) by (destruct Hb; lia). rewrite Z.div_add_l, Z.div_small, Z.add_0_r, IH by (done || lia).
  by rewrite Z.add_comm, Z.mod_add, Z.mod_small by lia.
Qed.

Lemma code_bits_bits n c : Forall is_bit (code_bits n c).
Proof.
  revert c. induction n as [|n IH]; intros c; simpl; [constructor|]. apply Forall_app_2; [done|]. constructor; [|constructor].
  pose proof (Z.mod_pos_bound c 2). unfold is_bit. lia.
Qed.

Lemma length_code_bits n c : length (code_bits n c) = n.
Proof. revert c. induction n as [|n IH]; intros c; simpl; [done|]. rewrite length_app, IH. simpl. lia. Qed.

Lemma bits_val_code n c : 0 <= c < 2 ^ Z.of_nat n -> bits_val (code_bits n c) = c.
Proof.
  revert c. induction n as [|n IH]; intros c Hc; [change (2 ^ Z.of_nat 0) with 1 in Hc; unfold bits_val; cbn; lia|].
  cbn [code_bits]. rewrite bits_val_snoc, IH.
  - pose proof (Z.div_mod c 2). lia.
  - rewrite Nat2Z.inj_succ, Z.pow_succ_r in Hc by lia. split; [apply Z.div_pos; lia|apply Z.div_lt_upper_bound; lia].
Qed.

(** The bits of a byte. *)
Lemma byte_bits_code b : is_byte b -> byte_bits b = code_bits 8 b.
Proof.
  intros Hb. unfold byte_bits. cbn [code_bits app list_fmap fmap].
  assert (Hl : forall i, 0 <= i -> Z.land (Z.shiftr b i) 1 = b / 2 ^ i mod 2).
  { intros i Hi. change 1 with (Z.ones 1). rewrite Z.land_ones, Z.shiftr_div_pow2 by lia. done. }
  rewrite !Hl by lia. change (2 ^ 0) with 1. rewrite Z.div_1_r, !Z.div_div by lia. done.
Qed.

(** ** The walk of one symbol *)

Inductive Walk := Pending (code len : Z) | BadCode | Symbol (sym : Z) (rest : list Z).

Fixpoint walk (bits : list Z) (code len : Z) : Walk :=
  match bits with
  | [] => Pending code len
  | bit :: bits =>
      let code := wrap 32 (Z.lor (Z.shiftl code 1) bit) in
      let len := len + 1 in
      if 30 <? len then BadCode
      else match code_map !! (len, code) with Some sym => Symbol sym bits | None => walk bits code len end
  end.

Lemma decode_walk bits : forall out code len,
  decode_bits bits out code len =
    match walk bits code len with
    | Pending code len => Ok (out, code, len)
    | BadCode => Err InvalidHuffman
    | Symbol sym rest => if sym =? EOS then Err InvalidHuffman else decode_bits rest (out ++ [wrap 8 sym]) 0 0
    end.
Proof.
  induction bits as [|b bits IH]; intros out code len; [done|]. cbn [decode_bits walk]. case_match; [done|]. case_match; [done|]. apply IH.
Qed.

Lemma walk_app bits more : forall code len sym rest,
  walk bits code len = Symbol sym rest -> walk (bits ++ more) code len = Symbol sym (rest ++ more).
Proof.
  induction bits as [|b bits IH]; intros code len sym rest; [done|]. cbn [walk app]. case_match; [done|]. case_match; [by intros [= -> ->]|]. apply IH.
Qed.

(** The walk is at the number its bits are. *)
Lemma next_code p b : Forall is_bit p -> is_bit b -> Z.of_nat (length p) < 30 ->
  wrap 32 (Z.lor (Z.shiftl (bits_val p) 1) b) = bits_val (p ++ [b]).
Proof.
  intros Hp Hb Hl. pose proof (bits_val_bound p Hp) as Hv. rewrite bits_val_snoc.
  assert (E : Z.lor (Z.shiftl (bits_val p) 1) b = bits_val p * 2 + b).
  { rewrite Z.shiftl_mul_pow2 by lia. change (2 ^ 1) with 2. destruct Hb as [-> | ->]; [by rewrite Z.lor_0_r, Z.add_0_r|].
    pose proof (Z.add_lor_land (bits_val p * 2) 1) as Ha. replace (Z.land (bits_val p * 2) 1) with 0 in Ha; [lia|].
    change 1 with (Z.ones 1). rewrite Z.land_ones by lia. change (2 ^ 1) with 2. by rewrite Z.mod_mul. }
  rewrite E. apply wrap_small. split; [destruct Hb; lia|].
  assert (2 ^ Z.of_nat (length p) <= 2 ^ 29) by (apply Z.pow_le_mono_r; lia). destruct Hb; lia.
Qed.

(** ** The table *)

Lemma table_checked :
  forallb (fun e => let '(sym, code, n) := e in
    match walk (code_bits (Z.to_nat n) code) 0 0 with Symbol s [] => s =? sym | _ => false end &&
    bool_decide (entry_of sym = Some e) && (0 <=? sym) && (sym <=? 256) && (0 <=? code) && (code <? 2 ^ n) && (0 <=? n)) TABLE = true /\
  forallb (fun sym => bool_decide (is_Some (entry_of sym))) (seqZ 0 256) = true.
Proof. split; vm_compute; reflexivity. Qed.

Lemma in_table sym code n : (sym, code, n) ∈ TABLE ->
  walk (code_bits (Z.to_nat n) code) 0 0 = Symbol sym [] /\ entry_of sym = Some (sym, code, n) /\ 0 <= sym <= 256 /\
  0 <= code < 2 ^ n /\ 0 <= n.
Proof.
  intros Hin. destruct table_checked as [Hc _]. rewrite forallb_forall in Hc. specialize (Hc _ (proj1 (list_elem_of_In _ _) Hin)).
  simpl in Hc. rewrite !andb_true_iff, bool_decide_eq_true in Hc. destruct Hc as ((((((Hw & He) & H1) & H2) & H3) & H4) & H5).
  destruct (walk _ _ _) as [| |s [|]]; try done. apply Z.eqb_eq in Hw as ->. split_and!; done || lia.
Qed.

Lemma symbol_known sym : 0 <= sym < 256 -> exists code n, entry_of sym = Some (sym, code, n) /\ (sym, code, n) ∈ TABLE.
Proof.
  intros Hs. destruct table_checked as [_ Hc]. rewrite forallb_forall in Hc.
  specialize (Hc sym). rewrite bool_decide_eq_true in Hc. destruct Hc as [[[s code] n] He].
  { apply list_elem_of_In, elem_of_seqZ. lia. }
  unfold entry_of in *. pose proof (find_some _ _ He) as [Hin Heq]. simpl in Heq. apply Z.eqb_eq in Heq as ->.
  exists code, n. split; [done|]. by apply list_elem_of_In.
Qed.

Lemma code_map_sound l c s : code_map !! (l, c) = Some s -> (s, c, l) ∈ TABLE.
Proof.
  unfold code_map. generalize TABLE. intros t. induction t as [|[[sym code] n] t IH] using rev_ind; [simpl; by rewrite lookup_empty|].
  rewrite fold_left_app. simpl. intros [[[= <- <-] <-]|[_ Hl]]%lookup_insert_Some; set_solver.
Qed.

(** ** The walk, backwards *)

Lemma walk_symbol bits : forall p s rest,
  Forall is_bit (p ++ bits) -> Z.of_nat (length p) <= 30 -> walk bits (bits_val p) (Z.of_nat (length p)) = Symbol s rest ->
  exists q, bits = q ++ rest /\ (s, bits_val (p ++ q), Z.of_nat (length (p ++ q))) ∈ TABLE.
Proof.
  induction bits as [|b bits IH]; intros p s rest Hb Hl; [done|]. cbn [walk].
  destruct (Z.ltb_spec 30 (Z.of_nat (length p) + 1)); [done|].
  apply Forall_app in Hb as [Hp Hb]. apply Forall_cons in Hb as [Hb Hbits].
  rewrite next_code by (done || lia).
  replace (Z.of_nat (length p) + 1) with (Z.of_nat (length (p ++ [b]))) in * by (rewrite length_app; simpl; lia).
  destruct (code_map !! _) as [sym|] eqn:E.
  - intros [= -> ->]. exists [b]. split; [done|]. by apply code_map_sound.
  - intros Hw. apply IH in Hw as (q & -> & Hin); [|rewrite <- app_assoc; by apply Forall_app_2, Forall_cons_2|lia].
    exists (b :: q). rewrite <- app_assoc in Hin. done.
Qed.

Lemma walk_pending bits : forall p c l,
  Forall is_bit (p ++ bits) -> Z.of_nat (length p) <= 30 -> walk bits (bits_val p) (Z.of_nat (length p)) = Pending c l ->
  c = bits_val (p ++ bits) /\ l = Z.of_nat (length (p ++ bits)).
Proof.
  induction bits as [|b bits IH]; intros p c l Hb Hl; cbn [walk]; [rewrite app_nil_r; by intros [= <- <-]|].
  destruct (Z.ltb_spec 30 (Z.of_nat (length p) + 1)); [done|].
  apply Forall_app in Hb as [Hp Hb]. apply Forall_cons in Hb as [Hb Hbits].
  rewrite next_code by (done || lia).
  replace (Z.of_nat (length p) + 1) with (Z.of_nat (length (p ++ [b]))) in * by (rewrite length_app; simpl; lia).
  destruct (code_map !! _) as [sym|] eqn:E; [done|]. intros Hw.
  apply IH in Hw as [-> ->]; [|rewrite <- app_assoc; by apply Forall_app_2, Forall_cons_2|lia]. by rewrite <- app_assoc.
Qed.

(** A symbol that was read is the bits of the symbol. *)
Lemma walk_bits bits s rest : Forall is_bit bits -> walk bits 0 0 = Symbol s rest -> bits = symbol_bits s ++ rest /\ 0 <= s <= 256.
Proof.
  intros Hb Hw. destruct (walk_symbol bits [] s rest) as (q & -> & Hin); [done|simpl; lia|done|]. cbn [app] in Hin.
  destruct (in_table _ _ _ Hin) as (_ & He & Hs & _). split; [|done]. unfold symbol_bits. rewrite He, Nat2Z.id.
  apply Forall_app in Hb as [Hq _]. by rewrite code_bits_val.
Qed.

Lemma walk_encoded s rest : 0 <= s < 256 -> walk (symbol_bits s ++ rest) 0 0 = Symbol s rest.
Proof.
  intros Hs. destruct (symbol_known s Hs) as (code & n & He & Hin). unfold symbol_bits. rewrite He.
  destruct (in_table _ _ _ Hin) as (Hw & _). by apply (walk_app _ rest) in Hw.
Qed.

Lemma symbol_bits_nonempty s : 0 <= s <= 256 -> symbol_bits s = [] -> s = 256.
Proof.
  intros Hs E. destruct (decide (s = 256)) as [|Hne]; [done|]. pose proof (walk_encoded s [] ltac:(lia)) as Hw. by rewrite E in Hw.
Qed.

(** ** Whole strings *)

Lemma symbol_bits_bits s : Forall is_bit (symbol_bits s).
Proof. unfold symbol_bits. destruct (entry_of s) as [[[] ]|]; [apply code_bits_bits|constructor]. Qed.

Lemma decode_encoded s : forall tail out, all_bytes s ->
  decode_bits ((s ≫= symbol_bits) ++ tail) out 0 0 = decode_bits tail (out ++ s) 0 0.
Proof.
  induction s as [|c s IH]; intros tail out Hs; simpl; [by rewrite app_nil_r|]. apply Forall_cons in Hs as [Hc Hs].
  unfold is_byte, in_width in Hc. change (2 ^ 8) with 256 in Hc.
  rewrite <- app_assoc, decode_walk, walk_encoded by lia. rewrite (proj2 (Z.eqb_neq c EOS)) by (unfold EOS; lia).
  rewrite IH by done. rewrite (wrap_small 8) by done. by rewrite <- app_assoc.
Qed.

Lemma decode_inverts n : forall bits out r c l, (length bits <= n)%nat -> Forall is_bit bits ->
  decode_bits bits out 0 0 = Ok (r, c, l) ->
  exists s tail, r = out ++ s /\ bits = (s ≫= symbol_bits) ++ tail /\ walk tail 0 0 = Pending c l /\ all_bytes s.
Proof.
  induction n as [|n IH]; intros bits out r c l Hn Hb; rewrite decode_walk.
  { destruct bits; [|simpl in Hn; lia]. intros [= <- <- <-]. exists [], []. rewrite app_nil_r. split_and!; done || constructor. }
  destruct (walk bits 0 0) as [c' l'| |sym rest] eqn:Ew; [|done|].
  { intros [= <- <- <-]. exists [], bits. rewrite app_nil_r. split_and!; done || constructor. }
  destruct (Z.eqb_spec sym EOS) as [|Hs]; [done|]. destruct (walk_bits _ _ _ Hb Ew) as [-> Hr].
  assert (Hsym : 0 <= sym < 256) by (unfold EOS in Hs; lia). rewrite wrap_small by (unfold in_width; lia).
  apply Forall_app in Hb as [Hb1 Hb2]. intros Hd. apply IH in Hd as (s & tail & -> & -> & Hw & Hbs).
  - exists (sym :: s), tail. cbn. rewrite <- !app_assoc. split_and!; [done..|by constructor].
  - rewrite length_app in Hn. destruct (symbol_bits sym) eqn:E; [apply symbol_bits_nonempty in E; lia|]. simpl in Hn. lia.
  - done.
Qed.

(** ** Bytes and bits *)

Lemma byte_bits_val b : is_byte b -> bits_val (byte_bits b) = b /\ length (byte_bits b) = 8%nat /\ Forall is_bit (byte_bits b).
Proof.
  intros Hb. rewrite byte_bits_code by done. split_and!; [by apply bits_val_code|by rewrite length_code_bits|apply code_bits_bits].
Qed.

Lemma unpacked input : all_bytes input -> Forall is_bit (input ≫= byte_bits) /\ length (input ≫= byte_bits) = (8 * length input)%nat.
Proof.
  induction input as [|b input IH]; intros Hi; [split; [constructor|done]|]. apply Forall_cons in Hi as [Hb Hi]. rewrite bind_cons.
  destruct (byte_bits_val b Hb) as (_ & Hl & Hbb). destruct (IH Hi) as [H1 H2]. split; [by apply Forall_app_2|].
  rewrite length_app, Hl, H2. cbn [length]. lia.
Qed.

Lemma pack_unpacked input : forall fuel, all_bytes input -> (length input <= fuel)%nat -> pack fuel (input ≫= byte_bits) = input.
Proof.
  induction input as [|b input IH]; intros fuel Hi Hf; [by destruct fuel|]. apply Forall_cons in Hi as [Hb Hi].
  destruct fuel as [|fuel]; [simpl in Hf; lia|]. destruct (byte_bits_val b Hb) as (Hv & Hl & _). rewrite bind_cons. cbn [pack].
  destruct (byte_bits b ++ _) eqn:E; [apply (f_equal length) in E; rewrite length_app, Hl in E; simpl in E; lia|].
  rewrite <- E. rewrite <- Hl at 1 2. rewrite take_app_length, drop_app_length, Hv. f_equal. apply IH; [done|simpl in Hf; lia].
Qed.

Lemma unpack_packed k : forall bits fuel, Forall is_bit bits -> length bits = (8 * k)%nat -> (k <= fuel)%nat ->
  (pack fuel bits ≫= byte_bits) = bits /\ all_bytes (pack fuel bits) /\ length (pack fuel bits) = k.
Proof.
  induction k as [|k IH]; intros bits fuel Hb Hl Hf.
  { destruct bits; [|simpl in Hl; lia]. destruct fuel; split_and!; done || constructor. }
  destruct fuel as [|fuel]; [lia|].
  assert (Hp : pack (S fuel) bits = bits_val (take 8 bits) :: pack fuel (drop 8 bits)) by (destruct bits; [simpl in Hl; lia|done]).
  rewrite Hp. clear Hp.
  assert (H8 : length (take 8 bits) = 8%nat) by (rewrite length_take; lia).
  assert (Hbt : Forall is_bit (take 8 bits)) by (by apply Forall_take).
  pose proof (bits_val_bound _ Hbt) as Hv. rewrite H8 in Hv.
  destruct (IH (drop 8 bits) fuel) as (H1 & H2 & H3); [by apply Forall_drop|rewrite length_drop; lia|lia|].
  split_and!.
  - rewrite bind_cons, H1. rewrite byte_bits_code by (unfold is_byte, in_width; change (2 ^ 8) with (2 ^ Z.of_nat 8); lia).
    rewrite <- H8 at 1. rewrite code_bits_val by done. apply take_drop.
  - by constructor; [unfold is_byte, in_width; change (2 ^ 8) with (2 ^ Z.of_nat 8); lia|].
  - simpl. by rewrite H3.
Qed.

Lemma small_pad k : (k <= 7)%nat ->
  code_bits k (2 ^ Z.of_nat k - 1) = replicate k 1 /\ walk (replicate k 1) 0 0 = Pending (2 ^ Z.of_nat k - 1) (Z.of_nat k).
Proof. intros Hk. do 8 (destruct k as [|k]; [split; vm_compute; reflexivity|]). lia. Qed.

Lemma padding (n k m : nat) : (k <= 7)%nat -> (n + k = 8 * m)%nat -> ((8 - n mod 8) mod 8)%nat = k.
Proof.
  intros Hk Hn. assert (Hm : (n = 8 * (m - 1) + (8 - k) \/ k = 0 /\ n = 8 * m)%nat) by lia. destruct Hm as [Hm|[-> Hm]].
  - destruct (decide (k = 0)%nat) as [->|Hk0].
    + replace n with (0 + (m) * 8)%nat by lia. rewrite Nat.Div0.mod_add. done.
    + replace n with ((8 - k) + (m - 1) * 8)%nat by lia. rewrite Nat.Div0.mod_add. rewrite (Nat.mod_small (8 - k)) by lia.
      rewrite Nat.mod_small by lia. lia.
  - replace n with (0 + m * 8)%nat by lia. rewrite Nat.Div0.mod_add. done.
Qed.

(** The padding fills the last byte. *)
Lemma pad_fills n : let pad := ((8 - n mod 8) mod 8)%nat in (pad <= 7)%nat /\ exists m, (n + pad = 8 * m)%nat.
Proof.
  intros pad. split; [subst pad; pose proof (Nat.mod_upper_bound (8 - n mod 8) 8); lia|].
  exists ((n + pad) / 8)%nat. pose proof (Nat.div_mod_eq n 8) as Hd. pose proof (Nat.mod_upper_bound n 8 ltac:(lia)).
  assert (Hpad : (n mod 8 + pad = 0 \/ n mod 8 + pad = 8)%nat).
  { subst pad. destruct (decide (n mod 8 = 0)%nat) as [->|]; [left; done|]. right. rewrite (Nat.mod_small (8 - _)) by lia. lia. }
  destruct Hpad as [Hpad|Hpad].
  - replace (n + pad)%nat with (n / 8 * 8)%nat by lia. rewrite Nat.div_mul by lia. lia.
  - replace (n + pad)%nat with ((n / 8 + 1) * 8)%nat by lia. rewrite Nat.div_mul by lia. lia.
Qed.

Lemma encoded_bits out : Forall is_bit (out ≫= symbol_bits).
Proof. induction out as [|c out IH]; [constructor|]. rewrite bind_cons. by apply Forall_app_2; [apply symbol_bits_bits|]. Qed.

(** Huffman decoding is exactly the inverse of encoding with the same table: a string
    decodes to [out] if and only if it is the encoding of [out], so that every string of
    bytes survives, no two inputs decode to the same string, and nothing else is
    accepted, neither a wrong or overlong padding nor an explicit end of string. *)
Theorem huffman_exact input out :
  all_bytes input -> (huffman_decode input = Ok out <-> all_bytes out /\ huffman_encode out = input).
Proof.
  intros Hi. destruct (unpacked input Hi) as [Hb Hl]. unfold huffman_decode. split.
  - destruct (decode_bits _ _ _ _) as [[[out' code] len]|] eqn:Ed; [|done].
    destruct (Z.ltb_spec 7 len) as [|H7]; [done|]. destruct (_ && _) eqn:Eo; [done|]. intros [= ->].
    destruct (decode_inverts _ _ _ _ _ _ (le_n _) Hb Ed) as (s & tail & -> & Et & Hw & Hs). cbn [app] in *.
    rewrite Et in Hb, Hl. apply Forall_app in Hb as [_ Hbt].
    destruct (walk_pending tail [] code len) as [-> ->]; [done|simpl; lia|done|]. cbn [app] in *.
    rewrite length_app in Hl. set (k := length tail) in *. split; [done|].
    assert (Hk : (k <= 7)%nat) by lia.
    assert (Hones : tail = replicate k 1).
    { rewrite <- (proj1 (small_pad k Hk)). rewrite <- (code_bits_val tail Hbt) at 1. fold k. f_equal.
      destruct k eqn:Ek; [destruct tail; done|]. rewrite Z.shiftl_1_l in Eo. apply andb_false_iff in Eo as [Eo|Eo]; [apply Z.ltb_ge in Eo; lia|].
      apply negb_false_iff, Z.eqb_eq in Eo. exact Eo. }
    unfold huffman_encode. rewrite (padding _ k (length input)) by lia. rewrite <- Hones, <- Et. apply pack_unpacked; [done|lia].
  - intros [Ho <-]. unfold huffman_encode in *. set (bits := out ≫= symbol_bits) in *. set (pad := ((8 - length bits mod 8) mod 8)%nat) in *.
    destruct (pad_fills (length bits)) as (Hp & m & Hm). fold pad in Hp, Hm.
    assert (Hbits : Forall is_bit (bits ++ replicate pad 1))
      by (apply Forall_app_2; [apply encoded_bits|apply Forall_replicate; by right]).
    destruct (unpack_packed m _ (length bits + 8) Hbits) as (-> & _ & _); [rewrite length_app, length_replicate; lia|lia|].
    subst bits. rewrite decode_encoded by done. cbn [app]. rewrite decode_walk, (proj2 (small_pad pad Hp)).
    rewrite (proj2 (Z.ltb_ge 7 _)) by lia. rewrite Z.shiftl_1_l, Z.eqb_refl, andb_false_r. done.
Qed.

(** Encoding gives bytes, which decode back. *)
Lemma huffman_roundtrip s : all_bytes s -> all_bytes (huffman_encode s) /\ huffman_decode (huffman_encode s) = Ok s.
Proof.
  intros Hs. assert (Hb : all_bytes (huffman_encode s)).
  { unfold huffman_encode. set (bits := s ≫= symbol_bits). set (pad := ((8 - length bits mod 8) mod 8)%nat).
    destruct (pad_fills (length bits)) as (Hp & m & Hm). fold pad in Hp, Hm.
    apply (unpack_packed m); [|rewrite length_app, length_replicate; lia|lia].
    apply Forall_app_2; [apply encoded_bits|apply Forall_replicate; by right]. }
  split; [done|]. by apply huffman_exact.
Qed.

Lemma huffman_exact_witness :
  huffman_decode [0xf1; 0xe3; 0xc2; 0xe5; 0xf2; 0x3a; 0x6b; 0xa0; 0xab; 0x90; 0xf4; 0xff] =
    Ok [119; 119; 119; 46; 101; 120; 97; 109; 112; 108; 101; 46; 99; 111; 109].
Proof.
  apply huffman_exact.
  - repeat constructor; unfold is_byte, in_width; lia.
  - split; [repeat constructor; unfold is_byte, in_width; lia|]. vm_compute. reflexivity.
Defined.
