(* ===== verification/EdgeQpack.v ===== *)
(** QPACK field sections ([crates/warrenguard-edge/src/qpack.rs]): the static-only decoder
    of requests and the encoder of responses.

    [None] is a panic, of a slice out of range; that there is none, and that the loops
    end within their fuel, is shown for every input ([decode_returns]).  A [usize] has 64
    bits. *)

From stdpp Require Import strings.
From S2P Require Import Prelude EdgeHttp3 EdgeHuffman.
#[local] Open Scope Z_scope.

Record Field := mkField { name : list Z; value : list Z }.

Definition entry (i : Z) (n v : string) : Z * list Z * list Z := (i, bytes_of_string n, bytes_of_string v).

Definition STATIC_TABLE : list (Z * list Z * list Z) :=
  [entry 0 ":authority" EmptyString; entry 1 ":path" "/"; entry 15 ":method" "CONNECT"; entry 16 ":method" "DELETE";
   entry 17 ":method" "GET"; entry 18 ":method" "HEAD"; entry 19 ":method" "OPTIONS"; entry 20 ":method" "POST";
   entry 21 ":method" "PUT"; entry 22 ":scheme" "http"; entry 23 ":scheme" "https"; entry 24 ":status" "103";
   entry 25 ":status" "200"; entry 26 ":status" "304"; entry 27 ":status" "404"; entry 28 ":status" "503";
   entry 52 "content-type" "text/html; charset=utf-8"; entry 63 ":status" "100"; entry 64 ":status" "204";
   entry 65 ":status" "206"; entry 66 ":status" "302"; entry 67 ":status" "400"; entry 68 ":status" "403";
   entry 69 ":status" "421"; entry 70 ":status" "425"; entry 71 ":status" "500"; entry 84 "authorization" EmptyString].

Definition static_entry (index : Z) : option (list Z * list Z) :=
  (fun e => (snd (fst e), snd e)) <$> find (fun e => fst (fst e) =? index) STATIC_TABLE.

(** ** Reading *)

Fixpoint read_int_loop (rest : list Z) (value : Z) (used : nat) (shift : Z) : option (Z * nat) :=
  match rest with
  | [] => None
  | byte :: rest =>
      let used := S used in
      let value := value + wrap 64 (Z.shiftl (Z.land byte 0x7f) shift) in
      if u64_max <? value then None
      else if Z.land byte 0x80 =? 0 then Some (value, used)
      else
        let shift := shift + 7 in
        if 62 <? shift then None else read_int_loop rest value used shift
  end.

Definition read_prefixed_int (input : list Z) (prefix_bits : Z) : option (Z * nat) :=
  match input with
  | [] => None
  | first :: rest =>
      let mask := wrap 16 (Z.shiftl 1 prefix_bits) - 1 in
      let value := Z.land first mask in
      if value <? mask then Some (value, 1%nat) else read_int_loop rest value 1 0
  end.

Definition read_string (input : list Z) (len_prefix_bits : Z) : result (list Z * nat) EdgeError :=
  match input with
  | [] => Err MalformedFieldSection
  | first :: _ =>
      let huffman := negb (Z.land first (Z.shiftl 1 len_prefix_bits) =? 0) in
      match read_prefixed_int input len_prefix_bits with
      | None => Err MalformedFieldSection
      | Some (len, start) =>
          if u64_max <? Z.of_nat start + len then Err MalformedFieldSection
          else if Z.of_nat (length input) <? Z.of_nat start + len then Err MalformedFieldSection
          else
            let end_ := (start + Z.to_nat len)%nat in
            let bytes := take (end_ - start) (drop start input) in
            (decoded <-? (if huffman then huffman_decode bytes else Ok bytes); Ok (decoded, end_))%warren
      end
  end.

(** [&input[n..]]. *)
Definition slice_from (n : nat) (input : list Z) : option (list Z) :=
  if (n <=? length input)%nat then Some (drop n input) else None.

Definition or_malformed {A} (o : option A) : result A EdgeError :=
  match o with Some a => Ok a | None => Err MalformedFieldSection end.

(** One field line: the field and the bytes it took; the outer [None] is a panic. *)
Definition read_line (first : Z) (rest : list Z) : option (result (Field * nat) EdgeError) :=
  if negb (Z.land first 0x80 =? 0) then
    if Z.land first 0x40 =? 0 then Some (Err MalformedFieldSection)
    else
      Some (r <-? or_malformed (read_prefixed_int rest 6);
            let '(index, used) := r in
            let '(name, value) := default ([], []) (static_entry index) in
            Ok (mkField name value, used))%warren
  else if negb (Z.land first 0x40 =? 0) then
    if Z.land first 0x10 =? 0 then Some (Err MalformedFieldSection)
    else
      match read_prefixed_int rest 4 with
      | None => Some (Err MalformedFieldSection)
      | Some (index, used) =>
          let name := from_option fst [] (static_entry index) in
          tail ← slice_from used rest;
          Some (r <-? read_string tail 7;
                let '(value, vused) := r in Ok (mkField name value, (used + vused)%nat))%warren
      end
  else if negb (Z.land first 0x20 =? 0) then
    match read_string rest 3 with
    | Err e => Some (Err e)
    | Ok (name, nused) =>
        tail ← slice_from nused rest;
        Some (r <-? read_string tail 7;
              let '(value, vused) := r in Ok (mkField name value, (nused + vused)%nat))%warren
    end
  else Some (Err MalformedFieldSection).

Fixpoint decode_lines (fuel : nat) (rest : list Z) (fields : list Field) : option (result (list Field) EdgeError) :=
  match fuel with
  | O => None
  | S fuel =>
      match rest with
      | [] => Some (Ok fields)
      | first :: _ =>
          line ← read_line first rest;
          match line with
          | Err e => Some (Err e)
          | Ok (field, used) => rest ← slice_from used rest; decode_lines fuel rest (fields ++ [field])
          end
      end
  end.

Definition decode_field_section (input : list Z) : option (result (list Field) EdgeError) :=
  match read_prefixed_int input 8 with
  | None => Some (Err MalformedFieldSection)
  | Some (ric, n1) =>
      if negb (ric =? 0) then Some (Err MalformedFieldSection)
      else
        tail ← slice_from n1 input;
        match read_prefixed_int tail 7 with
        | None => Some (Err MalformedFieldSection)
        | Some (_, n2) => rest ← slice_from (n1 + n2) input; decode_lines (S (length rest)) rest []
        end
  end.

(** ** Writing *)

(** Ten digits of seven bits are more than 64 bits. *)
Fixpoint write_int_loop (fuel : nat) (rest : Z) : list Z :=
  match fuel with
  | O => []
  | S fuel =>
      if 0x80 <=? rest then Z.lor (Z.land (wrap 8 rest) 0x7f) 0x80 :: write_int_loop fuel (Z.shiftr rest 7)
      else [wrap 8 rest]
  end.

Definition write_prefixed_int (flags prefix_bits value : Z) : list Z :=
  let max := Z.shiftl 1 prefix_bits - 1 in
  if value <? max then [Z.lor flags (wrap 8 value)]
  else Z.lor flags (wrap 8 max) :: write_int_loop 10 (value - max).

Definition write_string (bytes : list Z) : list Z := write_prefixed_int 0x00 7 (Z.of_nat (length bytes)) ++ bytes.

Definition encode_line (f : Field) : list Z :=
  match find (fun e => bool_decide (snd (fst e) = name f) && bool_decide (snd e = value f)) STATIC_TABLE with
  | Some (index, _, _) => write_prefixed_int 0xc0 6 index
  | None =>
      match find (fun e => bool_decide (snd (fst e) = name f)) STATIC_TABLE with
      | Some (index, _, _) => write_prefixed_int 0x50 4 index ++ write_string (value f)
      | None => write_prefixed_int 0x20 3 (Z.of_nat (length (name f))) ++ name f ++ write_string (value f)
      end
  end.

Definition encode_field_section (fields : list Field) : list Z := [0x00; 0x00] ++ (fields ≫= encode_line).

(** ** Any input *)

Lemma read_int_loop_used rest : forall value used shift v n,
  read_int_loop rest value used shift = Some (v, n) -> (used < n <= used + length rest)%nat.
Proof.
  induction rest as [|b rest IH]; intros value used shift v n; cbn [read_int_loop]; [done|].
  case_match; [done|]. case_match; [intros [= <- <-]; simpl; lia|]. case_match; [done|]. intros Hr%IH. simpl. lia.
Qed.

Lemma read_int_used input bits v n : read_prefixed_int input bits = Some (v, n) -> (1 <= n <= length input)%nat.
Proof.
  destruct input as [|first rest]; [done|]. cbn [read_prefixed_int]. case_match; [intros [= <- <-]; simpl; lia|].
  intros Hr%read_int_loop_used. simpl. lia.
Qed.

Lemma read_string_used input bits s n : read_string input bits = Ok (s, n) -> (1 <= n <= length input)%nat.
Proof.
  destruct input as [|first rest] eqn:Ei; [done|]. cbn [read_string].
  destruct (read_prefixed_int _ _) as [[len start]|] eqn:Er; [|done]. apply read_int_used in Er.
  case_match; [done|]. destruct (Z.ltb_spec (Z.of_nat (length (first :: rest))) (Z.of_nat start + len)) as [|Hl]; [done|].
  destruct (if negb _ then _ else _); [|done]. intros [= <- <-]. lia.
Qed.

Lemma slice_from_some n input : (n <= length input)%nat -> slice_from n input = Some (drop n input).
Proof. intros Hn. unfold slice_from. by rewrite (proj2 (Nat.leb_le _ _) Hn). Qed.

Lemma read_line_returns first rest :
  exists r, read_line first rest = Some r /\ forall f n, r = Ok (f, n) -> (1 <= n <= length rest)%nat.
Proof.
  unfold read_line. case_match; [case_match|case_match; [case_match|case_match]]; try by eexists.
  - destruct (read_prefixed_int rest 6) as [[i n]|] eqn:E; simpl; [|by eexists]. apply read_int_used in E.
    destruct (default ([], []) (static_entry i)). eexists. split; [done|]. by intros f m [= <- <-].
  - destruct (read_prefixed_int rest 4) as [[i n]|] eqn:E; [|by eexists]. apply read_int_used in E.
    rewrite slice_from_some by lia. simpl. eexists. split; [done|]. intros f m.
    destruct (read_string (drop n rest) 7) as [[v k]|] eqn:Es; [|done]. apply read_string_used in Es.
    intros [= <- <-]. rewrite length_drop in Es. lia.
  - destruct (read_string rest 3) as [[nm n]|] eqn:E; [|by eexists]. apply read_string_used in E.
    rewrite slice_from_some by lia. simpl. eexists. split; [done|]. intros f m.
    destruct (read_string (drop n rest) 7) as [[v k]|] eqn:Es; [|done]. apply read_string_used in Es.
    intros [= <- <-]. rewrite length_drop in Es. lia.
Qed.

Lemma decode_lines_returns fuel : forall rest fields, (length rest < fuel)%nat -> is_Some (decode_lines fuel rest fields).
Proof.
  induction fuel as [|fuel IH]; intros rest fields Hf; [lia|]. cbn [decode_lines]. destruct rest as [|first tl] eqn:Er; [by eexists|].
  rewrite <- Er in *. destruct (read_line_returns first rest) as (r & -> & Hr). simpl. destruct r as [[f n]|]; [|by eexists].
  specialize (Hr f n eq_refl). rewrite slice_from_some by lia. simpl. apply IH. rewrite length_drop. lia.
Qed.

(** Decoding returns on every input. *)
Lemma decode_returns input : is_Some (decode_field_section input).
Proof.
  unfold decode_field_section. destruct (read_prefixed_int input 8) as [[ric n1]|] eqn:E1; [|by eexists].
  apply read_int_used in E1. case_match; [by eexists|]. rewrite slice_from_some by lia. cbn [mbind option_bind].
  destruct (read_prefixed_int (drop n1 input) 7) as [[base n2]|] eqn:E2; [|by eexists]. apply read_int_used in E2.
  rewrite length_drop in E2. rewrite slice_from_some by lia. cbn [mbind option_bind]. apply decode_lines_returns. lia.
Qed.

(** ** What was written *)

(** The digits of a long integer. *)
Lemma digit_bits r : 0 <= r ->
  Z.land (Z.lor (Z.land (wrap 8 r) 0x7f) 0x80) 0x7f = r mod 128 /\ Z.land (Z.lor (Z.land (wrap 8 r) 0x7f) 0x80) 0x80 = 0x80.
Proof.
  intros Hr. change 0x7f with (Z.ones 7). rewrite (Z.land_ones (wrap 8 r)) by lia. unfold wrap. change (2 ^ 8) with 256. change (2 ^ 7) with 128.
  rewrite Z.mod_mod_divide by (by exists 2).
  pose proof (Z.mod_pos_bound r 128 ltac:(lia)) as Hm. generalize (r mod 128) Hm. intros d Hd.
  assert (Hall : forallb (fun d => (Z.land (Z.lor d 0x80) (Z.ones 7) =? d) && (Z.land (Z.lor d 0x80) 0x80 =? 0x80)) (seqZ 0 128) = true)
    by (vm_compute; reflexivity).
  rewrite forallb_forall in Hall. specialize (Hall d). rewrite andb_true_iff, !Z.eqb_eq in Hall. apply Hall.
  apply list_elem_of_In, elem_of_seqZ. lia.
Qed.

Lemma last_digit_bits r : 0 <= r < 128 -> wrap 8 r = r /\ Z.land r 0x7f = r /\ Z.land r 0x80 = 0.
Proof.
  intros Hr. rewrite wrap_small by (unfold in_width; change (2 ^ 8) with 256; lia). split; [done|]. split.
  - change 0x7f with (Z.ones 7). rewrite Z.land_ones by lia. by apply Z.mod_small.
  - apply Z.bits_inj'. intros i Hi. rewrite Z.land_spec, Z.bits_0. destruct (Z.lt_ge_cases i 7).
    + change 0x80 with (2 ^ 7). rewrite Z.pow2_bits_false by lia. apply andb_false_r.
    + rewrite (testbit_above_width 7 r i) by (unfold in_width; lia). done.
Qed.

Lemma int_loop_roundtrip fuel : forall r value used shift tail,
  0 <= r < 2 ^ (7 * Z.of_nat fuel) -> 0 <= shift -> r * 2 ^ shift < 2 ^ 63 -> 0 <= value -> value + r * 2 ^ shift <= u64_max ->
  (0 < fuel)%nat ->
  read_int_loop (write_int_loop fuel r ++ tail) value used shift =
    Some (value + r * 2 ^ shift, (used + length (write_int_loop fuel r))%nat).
Proof.
  induction fuel as [|fuel IH]; intros r value used shift tail Hr Hs Hb Hv Hm Hf; [lia|]. cbn [write_int_loop].
  assert (Hp : 0 < 2 ^ shift) by (apply Z.pow_pos_nonneg; lia).
  destruct (Z.leb_spec 0x80 r) as [Hbig|Hsmall].
  - destruct (digit_bits r) as [Hd1 Hd2]; [lia|]. cbn [app read_int_loop]. rewrite Hd1, Hd2. change (0x80 =? 0) with false.
    assert (Hsh : shift + 7 <= 62).
    { assert (2 ^ (7 + shift) < 2 ^ 63) by (rewrite Z.pow_add_r by lia; change (2 ^ 7) with 128; nia).
      assert (7 + shift < 63) by (apply (Z.pow_lt_mono_r_iff 2); lia). lia. }
    pose proof (Z.mod_pos_bound r 128 ltac:(lia)) as Hm128. pose proof (Z.div_mod r 128 ltac:(lia)) as Hdm.
    rewrite Z.shiftl_mul_pow2 by lia. rewrite wrap_small by (unfold in_width; nia).
    rewrite (proj2 (Z.ltb_ge u64_max _)) by nia. rewrite (proj2 (Z.ltb_ge 62 _)) by lia.
    rewrite Z.shiftr_div_pow2 by lia. change (2 ^ 7) with 128.
    assert (Hq : r / 128 * 2 ^ (shift + 7) = r / 128 * 128 * 2 ^ shift) by (rewrite Z.pow_add_r by lia; change (2 ^ 7) with 128; lia).
    assert (Hfuel : (0 < fuel)%nat).
    { destruct fuel; [|lia]. change (2 ^ (7 * Z.of_nat 1)) with 128 in Hr. lia. }
    rewrite IH; [|split; [apply Z.div_pos; lia|]|lia|nia|nia|nia|done].
    + rewrite Hq. cbn [length]. f_equal. f_equal; [nia|lia].
    + apply Z.div_lt_upper_bound; [lia|]. replace (7 * Z.of_nat (S fuel)) with (7 + 7 * Z.of_nat fuel) in Hr by lia.
      rewrite Z.pow_add_r in Hr by lia. change (2 ^ 7) with 128 in Hr. lia.
  - destruct (last_digit_bits r) as (Hd1 & Hd2 & Hd3); [lia|]. cbn [app read_int_loop]. rewrite Hd1, Hd2, Hd3.
    rewrite Z.shiftl_mul_pow2 by lia. rewrite wrap_small by (unfold in_width; nia). rewrite (proj2 (Z.ltb_ge u64_max _)) by lia.
    cbn [length]. f_equal. f_equal. lia.
Qed.

(** Flags above a prefix and a value within it do not disturb each other. *)
Lemma flags_apart flags p d : 0 <= p -> 0 <= d < 2 ^ p -> Z.land flags (Z.ones p) = 0 ->
  Z.land (Z.lor flags d) (Z.ones p) = d /\ forall m, Z.land (Z.ones p) m = 0 -> Z.land (Z.lor flags d) m = Z.land flags m.
Proof.
  intros Hp Hd Hf. assert (Hdd : Z.land d (Z.ones p) = d) by (rewrite Z.land_ones by done; by apply Z.mod_small).
  split; [by rewrite Z.land_lor_distr_l, Hf, Hdd|]. intros m Hm. rewrite Z.land_lor_distr_l.
  rewrite <- Hdd, <- Z.land_assoc, Hm, Z.land_0_r. apply Z.lor_0_r.
Qed.

Lemma int_roundtrip flags p v tail : 1 <= p <= 8 -> Z.land flags (Z.ones p) = 0 -> 0 <= v < 2 ^ 63 ->
  read_prefixed_int (write_prefixed_int flags p v ++ tail) p = Some (v, length (write_prefixed_int flags p v)) /\
  exists first more, write_prefixed_int flags p v = first :: more /\
    forall m, Z.land (Z.ones p) m = 0 -> Z.land first m = Z.land flags m.
Proof.
  intros Hp Hf Hv. unfold write_prefixed_int.
  assert (H8 : 0 < 2 ^ p <= 256) by (split; [lia|]; change 256 with (2 ^ 8); apply Z.pow_le_mono_r; lia).
  assert (Hmask : wrap 16 (Z.shiftl 1 p) - 1 = Z.ones p).
  { rewrite Z.shiftl_1_l, wrap_small by (unfold in_width; change (2 ^ 16) with 65536; lia). rewrite Z.ones_equiv. lia. }
  rewrite Z.shiftl_1_l. assert (Hones : Z.ones p = 2 ^ p - 1) by (rewrite Z.ones_equiv; lia).
  destruct (Z.ltb_spec v (2 ^ p - 1)) as [Hs|Hl].
  - rewrite wrap_small by (unfold in_width; change (2 ^ 8) with 256; lia).
    destruct (flags_apart flags p v) as [H1 H2]; [lia..|done|]. split; [|by eexists _, _].
    cbn [app read_prefixed_int]. rewrite Hmask, H1, Hones. by rewrite (proj2 (Z.ltb_lt _ _) Hs).
  - rewrite wrap_small by (unfold in_width; change (2 ^ 8) with 256; lia).
    destruct (flags_apart flags p (2 ^ p - 1)) as [H1 H2]; [lia..|done|]. split; [|by eexists _, _].
    cbn [app read_prefixed_int]. rewrite Hmask, H1, Hones, Z.ltb_irrefl.
    rewrite (int_loop_roundtrip 10 (v - (2 ^ p - 1)) (2 ^ p - 1) 1 0 tail); unfold u64_max; [|lia..].
    cbn [length]. f_equal. f_equal. lia.
Qed.

Lemma write_int_length flags p v : (length (write_prefixed_int flags p v) <= 11)%nat.
Proof.
  assert (Hl : forall fuel r, (length (write_int_loop fuel r) <= fuel)%nat).
  { induction fuel as [|fuel IH]; intros r; cbn [write_int_loop]; [done|]. case_match; simpl; [specialize (IH (Z.shiftr r 7))|]; lia. }
  unfold write_prefixed_int. case_match; cbn [length]; [lia|]. specialize (Hl 10%nat (v - (Z.shiftl 1 p - 1))). lia.
Qed.

(** *** Any spelling of a string, of a line and of a section *)

Definition coded (huffman : bool) (text : list Z) : list Z := if huffman then huffman_encode text else text.

(** A string literal, raw or Huffman coded; [flags] holds the bits above the Huffman bit. *)
Definition spell_string (flags p : Z) (huffman : bool) (text : list Z) : list Z :=
  write_prefixed_int (if huffman then Z.lor flags (2 ^ p) else flags) p (Z.of_nat (length (coded huffman text))) ++ coded huffman text.

(** A string whose length a prefix can carry; only bytes have a Huffman code. *)
Definition sized (huffman : bool) (text : list Z) : Prop :=
  Z.of_nat (length (coded huffman text)) < 2 ^ 62 /\ (huffman = true -> all_bytes text).

Lemma string_flags flags p (huffman : bool) : 1 <= p <= 7 -> Z.land flags (Z.ones (p + 1)) = 0 ->
  let all := if huffman then Z.lor flags (2 ^ p) else flags in
  Z.land all (Z.ones p) = 0 /\ Z.land all (2 ^ p) = if huffman then 2 ^ p else 0.
Proof.
  intros Hp Hf. assert (Hbit : forall i, 0 <= i < p + 1 -> Z.testbit flags i = false).
  { intros i Hi. pose proof (f_equal (fun x => Z.testbit x i) Hf) as Hb. cbn beta in Hb.
    rewrite Z.land_spec, Z.bits_0, Z.ones_spec_low, andb_true_r in Hb by lia. done. }
  assert (H1 : Z.land flags (Z.ones p) = 0).
  { apply Z.bits_inj'; intros i Hi; rewrite Z.land_spec, Z.bits_0. destruct (Z.lt_ge_cases i p); [by rewrite Hbit by lia|].
    rewrite Z.ones_spec_high by lia. apply andb_false_r. }
  assert (H2 : Z.land flags (2 ^ p) = 0).
  { apply Z.bits_inj'; intros i Hi; rewrite Z.land_spec, Z.bits_0. destruct (decide (i = p)) as [->|]; [by rewrite Hbit by lia|].
    rewrite Z.pow2_bits_false by lia. apply andb_false_r. }
  destruct huffman; cbn zeta; [|done]. rewrite !Z.land_lor_distr_l, H1, H2, Z.land_diag. split; [|done].
  apply Z.bits_inj'. intros i Hi. rewrite Z.lor_spec, Z.land_spec, Z.bits_0. destruct (Z.lt_ge_cases i p).
  - by rewrite Z.pow2_bits_false by lia.
  - rewrite Z.ones_spec_high by lia. by rewrite andb_false_r.
Qed.

Lemma string_read flags p huffman text tail : 1 <= p <= 7 -> Z.land flags (Z.ones (p + 1)) = 0 -> sized huffman text ->
  read_string (spell_string flags p huffman text ++ tail) p = Ok (text, length (spell_string flags p huffman text)).
Proof.
  intros Hp Hf [Hl Hb]. unfold spell_string. destruct (string_flags flags p huffman Hp Hf) as [Hlow Hhuff].
  set (fl := if huffman then _ else _) in *. set (bytes := coded huffman text) in *. rewrite <- app_assoc.
  destruct (int_roundtrip fl p (Z.of_nat (length bytes)) (bytes ++ tail)) as [Hr (first & more & Hw & Hm)]; [lia|done|lia|].
  rewrite Hw in *. cbn [app read_string] in *. rewrite Hr. rewrite Z.shiftl_1_l.
  rewrite Hm by (apply Z.bits_inj'; intros i Hi; rewrite Z.land_spec, Z.bits_0; destruct (Z.lt_ge_cases i p);
                 [rewrite Z.pow2_bits_false by lia; apply andb_false_r|by rewrite Z.ones_spec_high by lia]).
  pose proof (write_int_length fl p (Z.of_nat (length bytes))) as Hwl. rewrite Hw in Hwl. cbn [length] in *.
  rewrite (proj2 (Z.ltb_ge u64_max _)) by (unfold u64_max; lia).
  rewrite (proj2 (Z.ltb_ge (Z.of_nat _) _)) by (rewrite !length_app; lia).
  rewrite Nat2Z.id. replace (S (length more) + length bytes - S (length more))%nat with (length bytes) by lia.
  cbn [drop]. rewrite drop_app_length, take_app_length.
  assert (Hd : (if negb (Z.land fl (2 ^ p) =? 0) then huffman_decode bytes else Ok bytes) = Ok text).
  { rewrite Hhuff. unfold bytes, coded. destruct huffman; [|done]. rewrite (proj2 (Z.eqb_neq (2 ^ p) 0)) by lia.
    by apply huffman_roundtrip, Hb. }
  rewrite Hd. f_equal. f_equal. rewrite length_app. lia.
Qed.

Lemma static_table_entry e : In e STATIC_TABLE -> static_entry (fst (fst e)) = Some (snd (fst e), snd e) /\ 0 <= fst (fst e) < 2 ^ 63.
Proof.
  intros He. assert (Hall : forallb (fun e => bool_decide (static_entry (fst (fst e)) = Some (snd (fst e), snd e)) &&
                             ((0 <=? fst (fst e)) && (fst (fst e) <? 2 ^ 63))) STATIC_TABLE = true) by (vm_compute; reflexivity).
  rewrite forallb_forall in Hall. specialize (Hall e He). rewrite !andb_true_iff, bool_decide_eq_true, Z.leb_le, Z.ltb_lt in Hall. tauto.
Qed.

(** Strings shorter than the 62 bits a length prefix can carry. *)
Definition writable (f : Field) : Prop := Z.of_nat (length (name f)) < 2 ^ 62 /\ Z.of_nat (length (value f)) < 2 ^ 62.

Lemma static_entry_bound i e : static_entry i = Some e -> 0 <= i < 2 ^ 63.
Proof.
  unfold static_entry. destruct (find _ _) as [x|] eqn:E; [|done]. intros _.
  apply find_some in E as [[_ Hb]%static_table_entry Hi%Z.eqb_eq]. by rewrite <- Hi.
Qed.

(** The ways to write a field with the static table: by its entry, by the name of an entry, or in full.  A
    line of the last two may forbid intermediaries to index it. *)
Inductive spells : Field -> list Z -> Prop :=
| spells_indexed i n v : static_entry i = Some (n, v) -> spells (mkField n v) (write_prefixed_int 0xc0 6 i)
| spells_referred i n v0 v (never huffman : bool) : static_entry i = Some (n, v0) -> sized huffman v ->
    spells (mkField n v) (write_prefixed_int (if never then 0x70 else 0x50) 4 i ++ spell_string 0x00 7 huffman v)
| spells_literal n v (never hn hv : bool) : sized hn n -> sized hv v ->
    spells (mkField n v) (spell_string (if never then 0x30 else 0x20) 3 hn n ++ spell_string 0x00 7 hv v).

(** No entry of the dynamic table is required; the base, which counts from it, is arbitrary. *)
Definition spelled (fields : list Field) (section : list Z) : Prop :=
  exists (sign : bool) base lines, 0 <= base < 2 ^ 63 /\ Forall2 spells fields lines /\
    section = [0x00] ++ write_prefixed_int (if sign then 0x80 else 0x00) 7 base ++ concat lines.

Lemma line_read f line tail : spells f line ->
  exists first more, line = first :: more /\ read_line first (line ++ tail) = Some (Ok (f, length line)).
Proof.
  intros [i n v Hs|i n v0 v never h Hs Hv|n v never hn hv Hn Hv].
  - destruct (int_roundtrip 0xc0 6 i tail) as [Hr (first & more & Hw & Hm)]; [lia|done|by eapply static_entry_bound|].
    exists first, more. split; [done|].
    unfold read_line. rewrite !Hm by done. cbn [Z.land Z.eqb negb]. rewrite Hr. cbn [or_malformed]. by rewrite Hs.
  - set (flags := if never then 0x70 else 0x50).
    destruct (int_roundtrip flags 4 i (spell_string 0x00 7 h v ++ tail)) as [Hr (first & more & Hw & Hm)];
      [lia|by destruct never|by eapply static_entry_bound|].
    exists first, (more ++ spell_string 0x00 7 h v). split; [by rewrite Hw|].
    unfold read_line. rewrite !Hm by done.
    assert (Hbits : Z.land flags 0x80 = 0 /\ Z.land flags 0x40 = 0x40 /\ Z.land flags 0x10 = 0x10) by (by destruct never).
    destruct Hbits as (-> & -> & ->). cbn [Z.eqb negb].
    rewrite <- app_assoc, Hr. rewrite slice_from_some by (rewrite !length_app; lia).
    cbn [mbind option_bind]. rewrite drop_app_length, string_read by (lia || done). by rewrite Hs, !length_app.
  - set (flags := if never then 0x30 else 0x20).
    assert (Hlow : Z.land flags (Z.ones (3 + 1)) = 0) by (by destruct never).
    destruct (string_flags flags 3 hn) as [Hl _]; [lia|done|].
    destruct (int_roundtrip (if hn then Z.lor flags (2 ^ 3) else flags) 3 (Z.of_nat (length (coded hn n))) [])
      as [_ (first & more & Hw & Hm)]; [lia|done|unfold sized in Hn; lia|].
    exists first, (more ++ coded hn n ++ spell_string 0x00 7 hv v). split; [unfold spell_string at 1; rewrite Hw; by rewrite <- app_assoc|].
    unfold read_line. rewrite !Hm by done.
    assert (Hbits : forall a, a = (if hn then Z.lor flags (2 ^ 3) else flags) -> Z.land a 0x80 = 0 /\ Z.land a 0x40 = 0 /\ Z.land a 0x20 = 0x20)
      by (intros a ->; by destruct never, hn).
    destruct (Hbits _ eq_refl) as (-> & -> & ->). cbn [Z.eqb negb]. rewrite <- app_assoc, string_read by (lia || done).
    rewrite slice_from_some by (rewrite !length_app; lia). cbn [mbind option_bind]. rewrite drop_app_length, string_read by (lia || done).
    by rewrite !length_app.
Qed.

Lemma lines_read fields lines : Forall2 spells fields lines -> forall fuel before, (length (concat lines) < fuel)%nat ->
  decode_lines fuel (concat lines) before = Some (Ok (before ++ fields)).
Proof.
  induction 1 as [|f line fields lines Hf _ IH]; intros fuel before Hl.
  - destruct fuel; [by apply Nat.nlt_0_r in Hl|]. cbn. by rewrite app_nil_r.
  - destruct fuel as [|fuel]; [lia|]. cbn [concat] in *. destruct (line_read f line (concat lines) Hf) as (first & more & He & Hr).
    cbn [decode_lines]. destruct (line ++ _) as [|h t] eqn:Ea; [by rewrite He in Ea|].
    assert (h = first) as -> by (rewrite He in Ea; by injection Ea). rewrite Hr. cbn [mbind option_bind].
    rewrite <- Ea in *. rewrite slice_from_some by (rewrite length_app; lia). cbn [mbind option_bind]. rewrite drop_app_length.
    rewrite IH; [by rewrite <- app_assoc|]. rewrite length_app in Hl. assert (0 < length line)%nat by (rewrite He; simpl; lia). lia.
Qed.

(** Every spelling of the fields decodes to them. *)
Lemma spelled_decodes fields section : spelled fields section -> decode_field_section section = Some (Ok fields).
Proof.
  intros (sign & base & lines & Hb & Hf & ->). pose proof (lines_read fields lines Hf (S (length (concat lines))) [] (Nat.lt_succ_diag_r _)) as Hl.
  revert Hl. generalize (concat lines). intros body Hl. set (flags := if sign then 0x80 else 0x00).
  destruct (int_roundtrip flags 7 base body) as [Hr _]; [lia|by destruct sign|done|]. revert Hr.
  generalize (write_prefixed_int flags 7 base). intros w Hr. unfold decode_field_section. cbn [app].
  cbn [read_prefixed_int]. change (_ <? _) with true. cbv iota. change (negb _) with false. cbv iota.
  rewrite slice_from_some by (simpl; lia). cbn [drop mbind option_bind]. change (drop 0 (w ++ body)) with (w ++ body). rewrite Hr.
  rewrite slice_from_some by (simpl; rewrite length_app; lia). cbn [Nat.add drop mbind option_bind]. rewrite drop_app_length. exact Hl.
Qed.

(** The encoder writes one of the spellings. *)
Lemma encode_line_spells f : writable f -> spells f (encode_line f).
Proof.
  intros [Hn Hv]. destruct f as [n v]. unfold encode_line. cbn [name value] in *. destruct (find _ STATIC_TABLE) as [[[i n'] v']|] eqn:E1.
  { apply find_some in E1 as [[Hs _]%static_table_entry Hnv]. cbn [fst snd] in Hs, Hnv.
    rewrite andb_true_iff, !bool_decide_eq_true in Hnv. destruct Hnv as [-> ->]. by constructor. }
  clear E1. destruct (find _ STATIC_TABLE) as [[[i n'] v']|] eqn:E2.
  - apply find_some in E2 as [[Hs _]%static_table_entry Hnv]. cbn [fst snd] in Hs, Hnv. rewrite bool_decide_eq_true in Hnv. subst n'.
    by apply (spells_referred i n v' v false false).
  - rewrite app_assoc. by apply (spells_literal n v false false false).
Qed.

Lemma encode_section_spelled fields : Forall writable fields -> spelled fields (encode_field_section fields).
Proof.
  intros Hw. exists false, 0, (encode_line <$> fields). split; [lia|]. split.
  - induction Hw as [|f fields Hf _ IH]; [constructor|]. constructor; [by apply encode_line_spells|done].
  - unfold encode_field_section. cbn [app]. f_equal. change (write_prefixed_int 0 7 0) with [0]. cbn [app]. f_equal.
    clear. induction fields as [|f fields IH]; [done|]. cbn. by rewrite <- IH.
Qed.

Lemma section_roundtrip fields : Forall writable fields -> decode_field_section (encode_field_section fields) = Some (Ok fields).
Proof. intros Hw. by apply spelled_decodes, encode_section_spelled. Qed.

(** C38.  The field sections of a request and of a response: decoding returns on every
    input, with a section or an error and without a panic, and decoding what was encoded,
    whatever mix of indexed lines, name references and literals the encoder chose, returns the
    fields that were encoded, in their order. *)
Theorem qpack_exact :
  (forall input, is_Some (decode_field_section input)) /\
  forall fields, Forall writable fields -> decode_field_section (encode_field_section fields) = Some (Ok fields).
Proof. split; [exact decode_returns|exact section_roundtrip]. Qed.

(** A status, a name reference and a literal field. *)
Definition sample_fields : list Field :=
  [mkField (bytes_of_string ":status") (bytes_of_string "200");
   mkField (bytes_of_string ":status") (bytes_of_string "401");
   mkField (bytes_of_string "a") (bytes_of_string "b")].

Lemma qpack_exact_witness :
  encode_field_section sample_fields = [0; 0; 0xd9; 0x5f; 9; 3; 52; 48; 49; 0x21; 97; 1; 98] /\
  decode_field_section (encode_field_section sample_fields) = Some (Ok sample_fields).
Proof. split; [by vm_compute|]. apply qpack_exact. repeat constructor. Defined.
