(* ===== verification/Tokens.v ===== *)
(** Privacy Pass tokens ([crates/warrenguard-token]): challenges, tokens, the issuer's and
    the client's halves of a blind signature, and verification.

    SHA-256 and the blind RSA library are classes with the laws their documentation gives;
    random draws are arguments.  A byte array of fixed length is a list, with its length in
    [token_wf]. *)

From stdpp Require Import strings.
From S2P Require Import Prelude.
#[local] Open Scope Z_scope.

Inductive TokenError := InvalidChallengeField | MalformedToken | InvalidKey | BlindOperation | VerificationFailed.

Class Sha256 := { sha256 : list Z -> list Z }.

Class Sha256Laws (D : Sha256) := { sha256_length bs : length (sha256 bs) = 32%nat }.

(** ** Challenges ([challenge.rs]) *)

Definition TOKEN_TYPE_BLIND_RSA : Z := 0x0002.

Record TokenChallenge := mkChallenge {
  token_type : Z;
  issuer_name : list Z;
  redemption_context : list Z;
  origin_info : list Z;
}.

Module Challenge.

Definition new (issuer_name redemption_context origin_info : list Z) : result TokenChallenge TokenError :=
  if negb (bool_decide (redemption_context = [])) && negb (length redemption_context =? 32)%nat then Err InvalidChallengeField
  else if (u16_max <? Z.of_nat (length issuer_name)) || (u16_max <? Z.of_nat (length origin_info)) then Err InvalidChallengeField
  else Ok (mkChallenge TOKEN_TYPE_BLIND_RSA issuer_name redemption_context origin_info).

Definition for_context (issuer_name redemption_context : list Z) : result TokenChallenge TokenError :=
  new issuer_name redemption_context [].

Definition for_epoch {D : Sha256} (issuer_name context_label : list Z) (epoch : Z) : result TokenChallenge TokenError :=
  for_context issuer_name (sha256 (context_label ++ be_bytes 8 epoch)).

Definition serialize (c : TokenChallenge) : list Z :=
  be_bytes 2 (token_type c) ++
  be_bytes 2 (wrap 16 (Z.of_nat (length (issuer_name c)))) ++ issuer_name c ++
  [wrap 8 (Z.of_nat (length (redemption_context c)))] ++ redemption_context c ++
  be_bytes 2 (wrap 16 (Z.of_nat (length (origin_info c)))) ++ origin_info c.

Definition digest {D : Sha256} (c : TokenChallenge) : list Z := sha256 (serialize c).

End Challenge.

(** ** Tokens ([token.rs]) *)

Definition NONCE_LEN : nat := 32.
Definition CHALLENGE_DIGEST_LEN : nat := 32.
Definition TOKEN_KEY_ID_LEN : nat := 32.
Definition AUTHENTICATOR_LEN : nat := 256.
Definition TOKEN_INPUT_LEN : nat := 2 + NONCE_LEN + CHALLENGE_DIGEST_LEN + TOKEN_KEY_ID_LEN.
Definition TOKEN_LEN : nat := TOKEN_INPUT_LEN + AUTHENTICATOR_LEN.

Record Token := mkToken {
  nonce : list Z;
  challenge_digest : list Z;
  token_key_id : list Z;
  authenticator : list Z;
}.

Definition token_input (t : Token) : list Z :=
  be_bytes 2 TOKEN_TYPE_BLIND_RSA ++ nonce t ++ challenge_digest t ++ token_key_id t.

Definition serial {D : Sha256} (t : Token) : list Z := sha256 (token_input t).

Definition serialize (t : Token) : list Z := token_input t ++ authenticator t.

Definition parse (bytes : list Z) : result Token TokenError :=
  if negb (length bytes =? TOKEN_LEN)%nat then Err MalformedToken
  else if negb (be_val (take 2 bytes) =? TOKEN_TYPE_BLIND_RSA) then Err MalformedToken
  else Ok (mkToken (take 32 (drop 2 bytes)) (take 32 (drop 34 bytes)) (take 32 (drop 66 bytes)) (drop 98 bytes)).

Definition key_id_matches (t : Token) (key_id : list Z) : bool := bool_decide (token_key_id t = key_id).

(** ** The blind RSA library *)

Class BlindRsa := {
  PublicKey : Type;
  SecretKey : Type;
  BlindingResult : Type;
  public_key_of : SecretKey -> option PublicKey;
  (** [components().n().len()] and the modulus itself. *)
  modulus_bytes : PublicKey -> nat;
  modulus : PublicKey -> Z;
  to_spki_der : PublicKey -> option (list Z);
  from_spki_der : list Z -> option PublicKey;
  generate_key : Z -> Z -> option SecretKey;
  from_pkcs8_der : list Z -> option SecretKey;
  to_pkcs8_der : SecretKey -> option (list Z);
  verify : PublicKey -> list Z -> list Z -> bool;
  blind : Z -> PublicKey -> list Z -> option BlindingResult;
  blind_message : BlindingResult -> list Z;
  blind_sign_with : Z -> SecretKey -> list Z -> option (list Z);
  finalize : PublicKey -> list Z -> BlindingResult -> list Z -> option (list Z);
  (** [BoxedUint::from_be_slice] at the key's precision, and the raw RSA operation. *)
  from_be_slice : PublicKey -> list Z -> option Z;
  rsa_encrypt : PublicKey -> Z -> option Z;
}.

Class BlindRsaLaws (B : BlindRsa) := {
  (** Finalization returns a signature that it has verified, of the length of the modulus. *)
  finalize_verifies pk bs b msg sig : finalize pk bs b msg = Some sig -> verify pk sig msg = true;
  finalize_length pk bs b msg sig : finalize pk bs b msg = Some sig -> length sig = modulus_bytes pk;
  (** Blinding, signing and finalizing under a key pair gives a signature. *)
  sign_finalizes r r' sk pk msg b bs :
    public_key_of sk = Some pk -> blind r pk msg = Some b -> blind_sign_with r' sk (blind_message b) = Some bs ->
    is_Some (finalize pk bs b msg);
  blind_sign_length r sk pk msg bs : public_key_of sk = Some pk -> blind_sign_with r sk msg = Some bs -> length bs = modulus_bytes pk;
  spki_roundtrip pk der : to_spki_der pk = Some der -> from_spki_der der = Some pk;
  from_be_slice_val pk bs v : from_be_slice pk bs = Some v -> v = be_val bs;
}.

(** ** Keys ([issuer.rs]) *)

Section Keys.
Context `{D : Sha256} `{B : BlindRsa}.

Definition MODULUS_BITS : Z := 2048.

Record IssuerPublicKey := mkPublic { inner : PublicKey; key_id : list Z; spki : list Z }.
Record IssuerSecretKey := mkSecret { secret : SecretKey; public : IssuerPublicKey }.

Definition or_err {A} (e : TokenError) (o : option A) : result A TokenError :=
  match o with Some a => Ok a | None => Err e end.

Definition public_from_inner (k : PublicKey) : result IssuerPublicKey TokenError :=
  if negb (modulus_bytes k =? AUTHENTICATOR_LEN)%nat then Err InvalidKey
  else (der <-? or_err InvalidKey (to_spki_der k); Ok (mkPublic k (sha256 der) der))%warren.

Definition from_spki (der : list Z) : result IssuerPublicKey TokenError :=
  (k <-? or_err InvalidKey (from_spki_der der); public_from_inner k)%warren.

Definition verify_token (pk : IssuerPublicKey) (t : Token) : result unit TokenError :=
  if negb (key_id_matches t (key_id pk)) then Err VerificationFailed
  else if verify (inner pk) (authenticator t) (token_input t) then Ok tt else Err VerificationFailed.

Definition blind_signature_matches (pk : IssuerPublicKey) (blinded_request blind_sig : list Z) : bool :=
  match from_be_slice (inner pk) blinded_request, from_be_slice (inner pk) blind_sig with
  | Some request, Some sig =>
      if modulus (inner pk) <=? sig then false
      else match rsa_encrypt (inner pk) sig with Some recovered => recovered =? request | None => false end
  | _, _ => false
  end.

Definition secret_from_inner (k : SecretKey) : result IssuerSecretKey TokenError :=
  (pk <-? or_err InvalidKey (public_key_of k); public <-? public_from_inner pk; Ok (mkSecret k public))%warren.

Definition generate (rng : Z) : result IssuerSecretKey TokenError :=
  (k <-? or_err InvalidKey (generate_key rng MODULUS_BITS); secret_from_inner k)%warren.

Definition from_der (der : list Z) : result IssuerSecretKey TokenError :=
  (k <-? or_err InvalidKey (from_pkcs8_der der); secret_from_inner k)%warren.

Definition to_der (sk : IssuerSecretKey) : result (list Z) TokenError := or_err InvalidKey (to_pkcs8_der (secret sk)).

Definition release_if_valid (sk : IssuerSecretKey) (blinded_request blind_sig : list Z) : result (list Z) TokenError :=
  if blind_signature_matches (public sk) blinded_request blind_sig then Ok blind_sig else Err BlindOperation.

Definition blind_sign_with_rng (sk : IssuerSecretKey) (rng : Z) (blinded_request : list Z) : result (list Z) TokenError :=
  if negb (length blinded_request =? AUTHENTICATOR_LEN)%nat then Err BlindOperation
  else (sig <-? or_err BlindOperation (blind_sign_with rng (secret sk) blinded_request);
        release_if_valid sk blinded_request sig)%warren.

Definition key_id_eq (sk : IssuerSecretKey) (other : list Z) : bool := bool_decide (key_id (public sk) = other).

(** ** The client ([client.rs]) *)

Record ClientState := mkClientState {
  blinding : BlindingResult;
  cs_nonce : list Z;
  cs_challenge_digest : list Z;
  cs_token_key_id : list Z;
}.

Definition build_token_input (nonce challenge_digest token_key_id : list Z) : list Z :=
  be_bytes 2 TOKEN_TYPE_BLIND_RSA ++ nonce ++ challenge_digest ++ token_key_id.

(** [nonce] and [rng] are what the generator draws. *)
Definition blind_token (pk : IssuerPublicKey) (nonce : list Z) (rng : Z) (challenge : TokenChallenge)
  : result (list Z * ClientState) TokenError :=
  let challenge_digest := Challenge.digest challenge in
  let token_key_id := key_id pk in
  (b <-? or_err BlindOperation (blind rng (inner pk) (build_token_input nonce challenge_digest token_key_id));
   Ok (blind_message b, mkClientState b nonce challenge_digest token_key_id))%warren.

Definition finalize_token (pk : IssuerPublicKey) (st : ClientState) (blind_signature : list Z) : result Token TokenError :=
  if negb (length blind_signature =? AUTHENTICATOR_LEN)%nat then Err BlindOperation
  else
    let input := build_token_input (cs_nonce st) (cs_challenge_digest st) (cs_token_key_id st) in
    (sig <-? or_err BlindOperation (finalize (inner pk) blind_signature (blinding st) input);
     if negb (length sig =? AUTHENTICATOR_LEN)%nat then Err BlindOperation
     else Ok (mkToken (cs_nonce st) (cs_challenge_digest st) (cs_token_key_id st) sig))%warren.

End Keys.

(** ** The wire formats *)

Definition token_wf (t : Token) : Prop :=
  length (nonce t) = NONCE_LEN /\ length (challenge_digest t) = CHALLENGE_DIGEST_LEN /\
  length (token_key_id t) = TOKEN_KEY_ID_LEN /\ length (authenticator t) = AUTHENTICATOR_LEN.

Lemma parse_serialize t : token_wf t -> parse (serialize t) = Ok t.
Proof.
  intros (Hn & Hc & Hk & Ha). unfold NONCE_LEN, CHALLENGE_DIGEST_LEN, TOKEN_KEY_ID_LEN, AUTHENTICATOR_LEN in *.
  assert (Hl : length (serialize t) = TOKEN_LEN).
  { unfold serialize, token_input. rewrite !length_app, length_be_bytes, Hn, Hc, Hk, Ha. done. }
  unfold parse. rewrite Hl, Nat.eqb_refl. cbn [negb]. unfold serialize, token_input. rewrite <- !app_assoc.
  rewrite take_app_length' by done. change (negb _) with false. cbv iota.
  rewrite (drop_app_length' (be_bytes 2 _)) by done. rewrite take_app_length' by done.
  rewrite (app_assoc (be_bytes 2 _)), (drop_app_length' (be_bytes 2 _ ++ nonce t)) by (rewrite length_app, Hn; done).
  rewrite take_app_length' by done.
  rewrite (app_assoc (be_bytes 2 _ ++ nonce t)), (drop_app_length' (_ ++ challenge_digest t)) by (rewrite !length_app, Hn, Hc; done).
  rewrite take_app_length' by done. rewrite (app_assoc (_ ++ challenge_digest t)), drop_app_length' by (rewrite !length_app, Hn, Hc, Hk; done).
  by destruct t.
Qed.

Lemma parse_ok bytes t : all_bytes bytes -> parse bytes = Ok t -> token_wf t /\ serialize t = bytes.
Proof.
  unfold parse. intros Hb. destruct (Nat.eqb_spec (length bytes) TOKEN_LEN) as [Hl|]; [|done]. cbn [negb].
  destruct (Z.eqb_spec (be_val (take 2 bytes)) TOKEN_TYPE_BLIND_RSA) as [Ht|]; [|done]. cbn [negb]. intros [= <-].
  change TOKEN_LEN with 354%nat in Hl. split.
  - unfold token_wf. cbn [nonce challenge_digest token_key_id authenticator]. rewrite !length_take, !length_drop, Hl. done.
  - unfold serialize, token_input. cbn [nonce challenge_digest token_key_id authenticator]. rewrite <- Ht.
    assert (H2 : length (take 2 bytes) = 2%nat) by (rewrite length_take, Hl; done).
    rewrite <- H2 at 1. rewrite be_bytes_be_val by (by apply Forall_take).
    rewrite <- !app_assoc. rewrite <- (drop_drop bytes 32 66 : drop 32 (drop 66 bytes) = drop 98 bytes), take_drop.
    rewrite <- (drop_drop bytes 32 34 : drop 32 (drop 34 bytes) = drop 66 bytes), take_drop.
    rewrite <- (drop_drop bytes 32 2 : drop 32 (drop 2 bytes) = drop 34 bytes), take_drop. apply take_drop.
Qed.

(** The challenges [new] builds. *)
Definition challenge_wf (c : TokenChallenge) : Prop :=
  token_type c = TOKEN_TYPE_BLIND_RSA /\ (redemption_context c = [] \/ length (redemption_context c) = 32%nat) /\
  in_width 16 (Z.of_nat (length (issuer_name c))) /\ in_width 16 (Z.of_nat (length (origin_info c))).

Lemma new_wf name context origin c : Challenge.new name context origin = Ok c -> challenge_wf c.
Proof.
  unfold Challenge.new. destruct (decide (context = [])) as [He|He];
    [rewrite bool_decide_true by done|rewrite bool_decide_false by done]; cbn [negb andb].
  - destruct (Z.ltb_spec u16_max (Z.of_nat (length name))); [done|]. destruct (Z.ltb_spec u16_max (Z.of_nat (length origin))); [done|].
    intros [= <-]. unfold challenge_wf, in_width, u16_max in *. cbn. split_and!; auto; lia.
  - destruct (Nat.eqb_spec (length context) 32); [|done]. cbn [negb].
    destruct (Z.ltb_spec u16_max (Z.of_nat (length name))); [done|]. destruct (Z.ltb_spec u16_max (Z.of_nat (length origin))); [done|].
    intros [= <-]. unfold challenge_wf, in_width, u16_max in *. cbn. split_and!; auto; lia.
Qed.

(** A field behind its length is read back, whatever follows. *)
Lemma prefixed_inj n a a' r r' :
  in_width (8 * Z.of_nat n) (Z.of_nat (length a)) -> in_width (8 * Z.of_nat n) (Z.of_nat (length a')) ->
  be_bytes n (Z.of_nat (length a)) ++ a ++ r = be_bytes n (Z.of_nat (length a')) ++ a' ++ r' -> a = a' /\ r = r'.
Proof.
  intros Ha Ha' He. apply app_inj_1 in He as [Hl He]; [|by rewrite !length_be_bytes].
  apply (f_equal be_val) in Hl. rewrite !be_val_be_bytes in Hl by done. apply app_inj_1 in He; [done|lia].
Qed.

Lemma challenge_inj c c' : challenge_wf c -> challenge_wf c' -> Challenge.serialize c = Challenge.serialize c' -> c = c'.
Proof.
  intros (Ht & Hr & Hn & Ho) (Ht' & Hr' & Hn' & Ho'). unfold Challenge.serialize.
  rewrite !(wrap_small 16 _ Hn), !(wrap_small 16 _ Hn'), !(wrap_small 16 _ Ho), !(wrap_small 16 _ Ho').
  assert (H8 : forall l : list Z, l = [] \/ length l = 32%nat -> in_width (8 * Z.of_nat 1) (Z.of_nat (length l)))
    by (intros l [-> | ->]; done).
  assert (H1 : forall l : list Z, l = [] \/ length l = 32%nat -> [wrap 8 (Z.of_nat (length l))] = be_bytes 1 (Z.of_nat (length l))) by done.
  rewrite !H1 by done. rewrite Ht, Ht'. intros He. apply app_inj_1 in He as [_ He]; [|done].
  apply prefixed_inj in He as [En He]; [|done..]. apply prefixed_inj in He as [Er He]; [|by apply H8..].
  assert (Eo : be_bytes 2 (Z.of_nat (length (origin_info c))) ++ origin_info c ++ [] = be_bytes 2 (Z.of_nat (length (origin_info c'))) ++ origin_info c' ++ [])
    by by rewrite !app_nil_r.
  apply prefixed_inj in Eo as [Eo _]; [|done..]. destruct c, c'. cbn in *. congruence.
Qed.

(** The token formats are exact.  Bytes parse as a token precisely when they are the
    serialization of it: no two encodings of one token, nothing trailing.  Two challenges the
    constructor builds serialize alike only if they are the same challenge, so the digest
    embedded in a token names one issuer, one context and one origin. *)
Theorem token_formats_exact :
  (forall bytes t, all_bytes bytes -> parse bytes = Ok t <-> token_wf t /\ serialize t = bytes) /\
  (forall name context origin c name' context' origin' c',
     Challenge.new name context origin = Ok c -> Challenge.new name' context' origin' = Ok c' ->
     Challenge.serialize c = Challenge.serialize c' -> c = c' /\ name = name' /\ context = context' /\ origin = origin').
Proof.
  split.
  - intros bytes t Hb. split; [by apply parse_ok|]. intros [Hw <-]. by apply parse_serialize.
  - intros name context origin c name' context' origin' c' Hc Hc' He.
    pose proof (challenge_inj c c' (new_wf _ _ _ _ Hc) (new_wf _ _ _ _ Hc') He) as ->. split; [done|].
    unfold Challenge.new in Hc, Hc'. repeat (case_match; [done|]). naive_solver.
Qed.

(** ** Issuance *)

Section Issuance.
Context `{D : Sha256} `{DL : !Sha256Laws D} `{B : BlindRsa} `{BL : !BlindRsaLaws B}.

Lemma public_from_inner_ok k pk : public_from_inner k = Ok pk ->
  inner pk = k /\ modulus_bytes k = AUTHENTICATOR_LEN /\ to_spki_der k = Some (spki pk) /\ key_id pk = sha256 (spki pk).
Proof.
  unfold public_from_inner. destruct (Nat.eqb_spec (modulus_bytes k) AUTHENTICATOR_LEN); [|done]. cbn [negb].
  destruct (to_spki_der k) as [der|] eqn:E; [|done]. by intros [= <-].
Qed.

(** What finalization returns is a token of the challenge that verifies, and only under the key it was issued under. *)
Lemma finalize_token_ok pk drawn rng challenge request st bs t :
  length drawn = NONCE_LEN -> (exists k, public_from_inner k = Ok pk) ->
  blind_token pk drawn rng challenge = Ok (request, st) -> finalize_token pk st bs = Ok t ->
  token_wf t /\ verify_token pk t = Ok tt /\ challenge_digest t = Challenge.digest challenge /\
  parse (serialize t) = Ok t /\
  forall pk', key_id pk' <> key_id pk -> verify_token pk' t = Err VerificationFailed.
Proof.
  intros Hn [k Hk] Hb Hf. apply public_from_inner_ok in Hk as (<- & Hm & _ & Hid).
  unfold blind_token in Hb. destruct (blind rng (inner pk) _) as [b|]; [|done]. injection Hb as <- <-.
  unfold finalize_token in Hf. cbn [cs_nonce cs_challenge_digest cs_token_key_id blinding] in Hf.
  destruct (Nat.eqb_spec (length bs) AUTHENTICATOR_LEN); [|done]. cbn [negb] in Hf.
  destruct (finalize _ _ _ _) as [sig|] eqn:Ef; [|done]. cbn [or_err] in Hf.
  destruct (Nat.eqb_spec (length sig) AUTHENTICATOR_LEN) as [Hl|]; [|done]. injection Hf as <-.
  assert (Hw : token_wf (mkToken drawn (Challenge.digest challenge) (key_id pk) sig)).
  { unfold token_wf. cbn. rewrite Hid. unfold Challenge.digest. by rewrite !sha256_length. }
  split; [done|]. split; [|split; [done|split; [by apply parse_serialize|]]].
  - unfold verify_token, key_id_matches. cbn [token_key_id]. rewrite bool_decide_true by done.
    apply finalize_verifies in Ef. unfold build_token_input in Ef. unfold token_input.
    cbn [negb nonce authenticator challenge_digest token_key_id]. by rewrite Ef.
  - intros pk' Hne. unfold verify_token, key_id_matches. cbn [token_key_id]. by rewrite bool_decide_false.
Qed.

(** A blind signature leaves the issuer only when it is the RSA signature of the request. *)
Lemma released_is_signature sk rng request bs : blind_sign_with_rng sk rng request = Ok bs ->
  be_val bs < modulus (inner (public sk)) /\ rsa_encrypt (inner (public sk)) (be_val bs) = Some (be_val request) /\
  blind_sign_with rng (secret sk) request = Some bs.
Proof.
  unfold blind_sign_with_rng. case_match; [done|]. destruct (blind_sign_with _ _ _) as [sig|] eqn:Es; [|done]. cbn [or_err].
  unfold release_if_valid, blind_signature_matches.
  destruct (from_be_slice _ request) as [q|] eqn:Eq; [|done]. destruct (from_be_slice _ sig) as [v|] eqn:Ev; [|done].
  apply from_be_slice_val in Eq as ->, Ev as ->.
  destruct (Z.leb_spec (modulus (inner (public sk))) (be_val sig)); [done|].
  destruct (rsa_encrypt _ _) as [rec|] eqn:Er; [|done]. destruct (Z.eqb_spec rec (be_val request)) as [->|]; [|done].
  by intros [= <-].
Qed.

End Issuance.

(** C37.  Tokens are issued soundly.  Between an issuer and a client who blinds a request for a
    challenge under the issuer's key: the published form of the key loads as the same key; the
    issuer releases nothing but the RSA signature of that
    request; from what it releases the client always gets a token; and whatever blind signature the client
    is given, a token it accepts has this challenge's digest, verifies under the issuer's key, fails
    under a key with any other id, and survives the wire. *)
Theorem issued_tokens_verify {D : Sha256} {DL : Sha256Laws D} {B : BlindRsa} {BL : BlindRsaLaws B} k sk nonce rng challenge request st :
  secret_from_inner k = Ok sk -> length nonce = NONCE_LEN ->
  blind_token (public sk) nonce rng challenge = Ok (request, st) ->
  from_spki (spki (public sk)) = Ok (public sk) /\
  (forall rng' bs, blind_sign_with_rng sk rng' request = Ok bs ->
     be_val bs < modulus (inner (public sk)) /\ rsa_encrypt (inner (public sk)) (be_val bs) = Some (be_val request) /\
     exists t, finalize_token (public sk) st bs = Ok t) /\
  forall bs t, finalize_token (public sk) st bs = Ok t ->
     verify_token (public sk) t = Ok tt /\ challenge_digest t = Challenge.digest challenge /\
     parse (serialize t) = Ok t /\
     forall pk', key_id pk' <> key_id (public sk) -> verify_token pk' t = Err VerificationFailed.
Proof.
  intros Hsk Hn Hb. unfold secret_from_inner in Hsk. destruct (public_key_of k) as [pk|] eqn:Ek; [|done]. cbn [or_err] in Hsk.
  destruct (public_from_inner pk) as [ipk|] eqn:Ep; [|done]. injection Hsk as <-. cbn [public] in *.
  destruct (public_from_inner_ok _ _ Ep) as (Hi & Hm & Hd & _). split; [|split].
  - unfold from_spki. rewrite (spki_roundtrip _ _ Hd). exact Ep.
  - intros rng' bs Hs. apply released_is_signature in Hs as (Hlt & Henc & Hs). cbn [public secret] in *.
    split; [done|]. split; [done|]. pose proof (blind_sign_length _ _ _ _ _ Ek Hs) as Hl.
    unfold blind_token in Hb. destruct (blind rng (inner ipk) _) as [b|] eqn:Eb; [|done]. injection Hb as <- <-.
    rewrite Hi in Eb. destruct (sign_finalizes _ _ _ _ _ _ _ Ek Eb Hs) as [sig Hf].
    unfold finalize_token. cbn [cs_nonce cs_challenge_digest cs_token_key_id blinding].
    rewrite Hl, Hm, Nat.eqb_refl. cbn [negb]. rewrite Hi, Hf. cbn [or_err]. rewrite (finalize_length _ _ _ _ _ Hf), Hm. by eexists.
  - intros bs t Hf. eapply finalize_token_ok in Hf as (_ & Hrest); [exact Hrest|done|by eexists|done].
Qed.

(** A hash and a signature scheme without secrecy. *)
Definition toy_fit (n : nat) (bs : list Z) : list Z := take n (bs ++ replicate n 0).
Arguments toy_fit : simpl never.

Lemma toy_fit_length n bs : length (toy_fit n bs) = n.
Proof. unfold toy_fit. rewrite length_take, length_app, length_replicate. lia. Qed.

#[local] Instance toy_sha : Sha256 := {| sha256 := toy_fit 32 |}.
#[local] Instance toy_sha_laws : Sha256Laws toy_sha.
Proof. split. apply toy_fit_length. Qed.

#[local] Instance toy_rsa : BlindRsa := {|
  PublicKey := unit; SecretKey := unit; BlindingResult := list Z;
  public_key_of _ := Some tt; modulus_bytes _ := 256%nat; modulus _ := 2 ^ 2048;
  to_spki_der _ := Some [7]; from_spki_der _ := Some tt; generate_key _ _ := Some tt; from_pkcs8_der _ := Some tt;
  to_pkcs8_der _ := Some [7];
  verify _ sig msg := bool_decide (sig = toy_fit 256 msg);
  blind _ _ msg := Some (toy_fit 256 msg); blind_message b := b;
  blind_sign_with _ _ msg := if (length msg =? 256)%nat then Some msg else None;
  finalize _ bs _ msg := if bool_decide (bs = toy_fit 256 msg) then Some bs else None;
  from_be_slice _ bs := Some (be_val bs); rsa_encrypt _ x := Some x;
|}.

#[local] Instance toy_rsa_laws : BlindRsaLaws toy_rsa.
Proof.
  split; cbn; intros.
  1-2: case_bool_decide as Hp; [|done]; simplify_eq.
  - by apply bool_decide_eq_true.
  - apply toy_fit_length.
  - simplify_eq. case_match; [|done]. simplify_eq. rewrite bool_decide_true by done. by eexists.
  - destruct (Nat.eqb_spec (length msg) 256); [|done]. by simplify_eq.
  - by destruct pk.
  - by simplify_eq.
Qed.

(** The toy issuer, a challenge for epoch 20000 and the request of one client. *)
Definition toy_issuer : IssuerSecretKey := mkSecret (B := toy_rsa) tt (mkPublic (B := toy_rsa) tt (sha256 [7]) [7]).
Definition toy_challenge : TokenChallenge := mkChallenge TOKEN_TYPE_BLIND_RSA [105; 115] (sha256 ([119] ++ be_bytes 8 20000)) [].
Definition toy_nonce : list Z := replicate 32 9.
Definition toy_request : list Z := toy_fit 256 (build_token_input toy_nonce (Challenge.digest toy_challenge) (sha256 [7])).
Definition toy_state : ClientState (B := toy_rsa) :=
  mkClientState (B := toy_rsa) toy_request toy_nonce (Challenge.digest toy_challenge) (sha256 [7]).

Lemma issued_tokens_verify_witness :
  blind_sign_with_rng toy_issuer 0 toy_request = Ok toy_request /\
  exists t, finalize_token (public toy_issuer) toy_state toy_request = Ok t /\ verify_token (public toy_issuer) t = Ok tt.
Proof.
  assert (Hs : blind_sign_with_rng toy_issuer 0 toy_request = Ok toy_request) by (vm_compute; reflexivity).
  split; [exact Hs|].
  destruct (issued_tokens_verify (B := toy_rsa) tt toy_issuer toy_nonce 0 toy_challenge toy_request toy_state) as (_ & Hr & Hf); [reflexivity|reflexivity|vm_compute; reflexivity|].
  destruct (Hr 0 toy_request Hs) as (_ & _ & t & Ht). exists t. split; [exact Ht|]. by apply (Hf _ _ Ht).
Defined.

Lemma token_formats_exact_witness :
  parse (serialize (mkToken toy_nonce toy_nonce toy_nonce (replicate 256 1))) = Ok (mkToken toy_nonce toy_nonce toy_nonce (replicate 256 1)).
Proof. apply token_formats_exact; [repeat apply Forall_app_2; (by constructor) || (apply be_bytes_all_bytes || by apply Forall_replicate)|done]. Defined.
