(* ===== verification/EdgeIngress.v ===== *)
(** Request classification at the edge ([crates/warrenguard-edge/src/ingress.rs]), the MASQUE
    proxy requests ([masque.rs]) and the responses ([server.rs]).

    The outer [None] of a classifier is a panic of the field section decoder.  A [String] is
    the list of its code points. *)

From stdpp Require Import strings.
From S2P Require Import Prelude EdgeHttp3 EdgeHuffman EdgeQpack CoreText Tokens.
#[local] Open Scope Z_scope.

(** An ASCII literal, as bytes and as text. *)
Definition ascii (s : string) : list Z := bytes_of_string s.

(** ** Base64url *)

Definition b64_val (c : Z) : option Z :=
  if (65 <=? c) && (c <=? 90) then Some (c - 65)
  else if (97 <=? c) && (c <=? 122) then Some (c - 97 + 26)
  else if (48 <=? c) && (c <=? 57) then Some (c - 48 + 52)
  else if c =? 45 then Some 62
  else if c =? 95 then Some 63
  else None.

Fixpoint b64_loop (input : list Z) (out : list Z) (acc bits : Z) : option (list Z * Z * Z) :=
  match input with
  | [] => Some (out, acc, bits)
  | c :: input =>
      v ← b64_val c;
      let acc := Z.lor (wrap 32 (Z.shiftl acc 6)) v in
      let bits := bits + 6 in
      if 8 <=? bits then b64_loop input (out ++ [wrap 8 (Z.shiftr acc (bits - 8))]) acc (bits - 8)
      else b64_loop input out acc bits
  end.

Definition base64url_decode (input : list Z) : option (list Z) :=
  let input := trim_end_matches (Z.eqb 61) input in
  '(out, acc, bits) ← b64_loop (as_bytes input) [] 0 0;
  if negb (Z.land acc (Z.shiftl 1 bits - 1) =? 0) then None else Some out.

(** ** The token header *)

Definition parse_private_token_header (value : list Z) : option Token :=
  text ← from_utf8 value;
  '(scheme, params) ← split_once is_whitespace (trim_start text);
  if negb (eq_ignore_ascii_case scheme (ascii "PrivateToken")) then None
  else
    key ← find_map (fun p =>
            '(k, v) ← split_once (Z.eqb 61) (trim p);
            if eq_ignore_ascii_case (trim k) (ascii "token") then Some (trim_matches (Z.eqb 34) (trim v)) else None)
          (split 44 params);
    bytes ← base64url_decode key;
    if negb (length bytes =? TOKEN_LEN)%nat then None
    else match parse bytes with Ok t => Some t | Err _ => None end.

(** ** Classification *)

Record WebTransportConnect := mkWebTransport { authority : list Z; path : list Z; token : option Token }.

Inductive EdgeRequest := WebTransport (r : WebTransportConnect) | OtherHttp3.

Definition header (fields : list Field) (name : list Z) : option (list Z) :=
  value <$> find (fun f => bool_decide (EdgeQpack.name f = name)) fields.

(** [.map(from_utf8_lossy).unwrap_or_default()]. *)
Definition lossy_text (v : option (list Z)) : list Z := default [] (from_utf8_lossy <$> v).

Definition is_request (fields : list Field) (name v : string) : bool := bool_decide (header fields (ascii name) = Some (ascii v)).

Definition classify_fields (fields : list Field) : EdgeRequest :=
  let is_connect := is_request fields ":method" "CONNECT" in
  let is_webtransport := is_request fields ":protocol" "webtransport" in
  if negb (is_connect && is_webtransport) then OtherHttp3
  else WebTransport (mkWebTransport (lossy_text (header fields (ascii ":authority"))) (lossy_text (header fields (ascii ":path")))
         (header fields (ascii "authorization") ≫= parse_private_token_header)).

Definition classify_request (field_section : list Z) : option (result EdgeRequest EdgeError) :=
  r ← decode_field_section field_section;
  Some (fields <-? r; Ok (classify_fields fields))%warren.

Definition classify_request_stream (stream : list Z) : option (result EdgeRequest EdgeError) :=
  match read_frame stream with
  | None => Some (Err MalformedFrame)
  | Some (frame, _) => if negb (ty frame =? FRAME_HEADERS) then Some (Ok OtherHttp3) else classify_request (payload frame)
  end.

(** ** Proxy requests *)

Inductive ProxyRequest :=
| Connect (authority : list Z) (proxy_authorization : option (list Z))
| ConnectUdp (path : list Z) (proxy_authorization : option (list Z)) (capsule_protocol : bool)
| OtherRequest.

Definition classify_proxy_fields (fields : list Field) : ProxyRequest :=
  if negb (is_request fields ":method" "CONNECT") then OtherRequest
  else
    let proxy_authorization := v ← header fields (ascii "proxy-authorization"); if bool_decide (v = []) then None else Some v in
    match header fields (ascii ":protocol") with
    | None => Connect (lossy_text (header fields (ascii ":authority"))) proxy_authorization
    | Some p =>
        if bool_decide (p = ascii "connect-udp")
        then ConnectUdp (lossy_text (header fields (ascii ":path"))) proxy_authorization (is_request fields "capsule-protocol" "?1")
        else OtherRequest
    end.

Definition classify_proxy_request (field_section : list Z) : option (result ProxyRequest EdgeError) :=
  r ← decode_field_section field_section;
  Some (fields <-? r; Ok (classify_proxy_fields fields))%warren.

Definition CONNECT_UDP_PATH_PREFIX : list Z := ascii "/.well-known/masque/udp/".
Definition CONNECT_UDP_CREDENTIAL_PARAM : list Z := ascii "credential".

Record ConnectUdpTarget := mkTarget { host : list Z; port : Z; credential : option (list Z) }.

Fixpoint percent_decode_bytes (bytes : list Z) : option (list Z) :=
  match bytes with
  | [] => Some []
  | b :: rest =>
      if b =? 37 then
        match rest with
        | h1 :: h2 :: rest =>
            text ← from_utf8 [h1; h2];
            v ← from_str_radix 16 u8_max (as_bytes text);
            out ← percent_decode_bytes rest; Some (v :: out)
        | _ => None
        end
      else out ← percent_decode_bytes rest; Some (b :: out)
  end.

Definition percent_decode (input : list Z) : option (list Z) := out ← percent_decode_bytes (as_bytes input); from_utf8 out.

(** A byte no host may hold: a control, a space, a slash, an at sign, a backslash or a delete. *)
Definition refused_byte (b : Z) : bool := (b <=? 32) || (b =? 47) || (b =? 64) || (b =? 92) || (b =? 0x7f).

Definition credential_byte (b : Z) : bool := is_ascii_alphanumeric b || (b =? 45) || (b =? 95) || (b =? 61).

Definition parse_connect_udp_target (path : list Z) : option ConnectUdpTarget :=
  let '(path, query) := match split_once (Z.eqb 63) path with Some (p, q) => (p, Some q) | None => (path, None) end in
  rest ← strip_prefix CONNECT_UDP_PATH_PREFIX path;
  let rest := default rest (strip_suffix_char 47 rest) in
  '(host, port) ← split_once (Z.eqb 47) rest;
  if bool_decide (host = []) || bool_decide (port = []) || existsb (Z.eqb 47) port then None
  else
    port ← from_str_radix 10 u16_max (as_bytes port);
    if port =? 0 then None
    else
      host ← percent_decode host;
      let bytes := as_bytes host in
      if bool_decide (host = []) || (255 <? Z.of_nat (length bytes)) || existsb refused_byte bytes then None
      else
        let credential :=
          v ← find_map (fun pair => r ← strip_prefix CONNECT_UDP_CREDENTIAL_PARAM pair; strip_prefix [61] r)
                (from_option (split 38) [] query);
          if negb (bool_decide (v = [])) && forallb credential_byte (as_bytes v) then Some (as_bytes v) else None in
        Some (mkTarget host port credential).

(** ** Responses *)

Definition PROXY_CHALLENGE : list Z := ascii "Basic realm=" ++ [34] ++ ascii "proxy" ++ [34].

Definition qpack_status_200 : list Z := [0x00; 0x00; Z.lor 0xC0 25].

Definition webtransport_accept_response : option (list Z) := encode_h3_frame FRAME_HEADERS qpack_status_200.

Definition encode_response_headers (status : Z) (fields : list Field) : option (list Z) :=
  encode_h3_frame FRAME_HEADERS (encode_field_section (mkField (ascii ":status") (decimal 5 status) :: fields)).

Definition proxy_challenge_response : option (list Z) := encode_response_headers 407 [mkField (ascii "proxy-authenticate") PROXY_CHALLENGE].
Definition connect_established_response : option (list Z) := encode_response_headers 200 [].
Definition connect_udp_established_response : option (list Z) :=
  encode_response_headers 200 [mkField (ascii "capsule-protocol") (ascii "?1")].

(** ** Base64url decoding is exact *)

(** The number a string of six-bit digits stands for. *)
Definition val64 (vals : list Z) : Z := fold_left (fun acc v => acc * 64 + v) vals 0.

Lemma val64_from vals : forall a, fold_left (fun acc v => acc * 64 + v) vals a = a * 64 ^ Z.of_nat (length vals) + val64 vals.
Proof.
  unfold val64. induction vals as [|v vals IH]; intros a; [cbn [fold_left length]; change (64 ^ Z.of_nat 0) with 1; lia|].
  cbn [fold_left length]. rewrite IH, (IH (0 * 64 + v)), Nat2Z.inj_succ, Z.pow_succ_r by lia. lia.
Qed.

Lemma val64_cons v vals : val64 (v :: vals) = v * 64 ^ Z.of_nat (length vals) + val64 vals.
Proof. unfold val64 at 1. cbn [fold_left]. rewrite val64_from. lia. Qed.

Lemma b64_val_bound c v : b64_val c = Some v -> 0 <= v < 64.
Proof.
  unfold b64_val. repeat (case_match; [rewrite ?andb_true_iff, ?Z.leb_le in *; intros [= <-]; lia|]). done.
Qed.

(** One digit enters the accumulator. *)
Lemma b64_push acc bits v : 0 <= v < 64 -> 0 <= bits <= 8 ->
  Z.lor (wrap 32 (Z.shiftl acc 6)) v mod 2 ^ (bits + 6) = acc mod 2 ^ bits * 64 + v.
Proof.
  intros Hv Hb.
  assert (Hl : Z.lor (wrap 32 (Z.shiftl acc 6)) v = wrap 32 (Z.shiftl acc 6) + v).
  { rewrite <- Z.lxor_lor, <- Z.add_nocarry_lxor; [done| |]; apply Z.bits_inj'; intros i Hi;
      rewrite Z.land_spec, Z.bits_0, testbit_wrap by lia;
      (destruct (Z.lt_ge_cases i 6);
        [rewrite Z.shiftl_spec_low by lia; by rewrite andb_false_r
        |rewrite (testbit_above_width 6 v i) by (unfold in_width; lia); apply andb_false_r]). }
  rewrite Hl. unfold wrap. rewrite Z.shiftl_mul_pow2 by lia. change (2 ^ 6) with 64.
  rewrite <- Zplus_mod_idemp_l, Z.mod_mod_divide by (exists (2 ^ (32 - (bits + 6))); rewrite <- Z.pow_add_r by lia; f_equal; lia).
  rewrite Z.pow_add_r by lia. change (2 ^ 6) with 64. rewrite Z.mul_mod_distr_r by lia.
  pose proof (Z.mod_pos_bound acc (2 ^ bits) ltac:(lia)). apply Z.mod_small. nia.
Qed.

(** The bytes out, with the bits still in the accumulator, are the digits in. *)
Lemma b64_loop_spec input : forall out acc bits vals, mapM b64_val input = Some vals -> 0 <= bits < 8 -> all_bytes out ->
  exists out' acc' bits', b64_loop input out acc bits = Some (out', acc', bits') /\ 0 <= bits' < 8 /\ all_bytes out' /\
    8 * Z.of_nat (length out') + bits' = 8 * Z.of_nat (length out) + bits + 6 * Z.of_nat (length input) /\
    be_val out' * 2 ^ bits' + acc' mod 2 ^ bits' =
      (be_val out * 2 ^ bits + acc mod 2 ^ bits) * 64 ^ Z.of_nat (length input) + val64 vals.
Proof.
  induction input as [|c input IH]; intros out acc bits vals Hv Hb Ho.
  - injection Hv as <-. exists out, acc, bits. cbn [length]. change (64 ^ Z.of_nat 0) with 1. unfold val64. cbn. split_and!; try done; lia.
  - cbn in Hv. destruct (b64_val c) as [v|] eqn:Ev; [|done]. cbn in Hv. destruct (mapM b64_val input) as [vals'|] eqn:Em; [|done].
    injection Hv as <-. pose proof (b64_val_bound _ _ Ev) as Hv. cbn [b64_loop]. rewrite Ev. cbn [mbind option_bind].
    set (acc1 := Z.lor (wrap 32 (Z.shiftl acc 6)) v). pose proof (b64_push acc bits v Hv ltac:(lia)) as Hp. fold acc1 in Hp.
    rewrite val64_cons. replace (length vals') with (length input) by (by apply length_mapM in Em).
    cbn [length]. rewrite Nat2Z.inj_succ, Z.pow_succ_r by lia.
    destruct (Z.leb_spec 8 (bits + 6)) as [H8|H8].
    + destruct (IH (out ++ [wrap 8 (Z.shiftr acc1 (bits + 6 - 8))]) acc1 (bits + 6 - 8) vals' eq_refl) as (out' & acc' & bits' & Hl & Hb' & Ho' & Hn & Hval); [lia| |].
      { apply Forall_app. split; [done|]. apply Forall_singleton. by apply wrap_in_width. }
      exists out', acc', bits'. split; [done|]. split; [done|]. split; [done|]. rewrite length_app in Hn. cbn [length] in Hn. split; [lia|].
      rewrite Hval, be_val_snoc. unfold wrap. rewrite Z.shiftr_div_pow2 by lia. change (2 ^ 8) with 256.
      replace (2 ^ (bits + 6)) with (2 ^ (bits + 6 - 8) * 256) in Hp by (change 256 with (2 ^ 8); rewrite <- Z.pow_add_r by lia; f_equal; lia).
      rewrite Z.rem_mul_r in Hp by lia.
      replace (2 ^ bits) with (2 ^ (bits + 6 - 8) * 4) in * by (change 4 with (2 ^ 2); rewrite <- Z.pow_add_r by lia; f_equal; lia).
      generalize dependent (64 ^ Z.of_nat (length input)). intros. nia.
    + destruct (IH out acc1 (bits + 6) vals' eq_refl) as (out' & acc' & bits' & Hl & Hb' & Ho' & Hn & Hval); [lia|done|].
      exists out', acc', bits'. split; [done|]. split; [done|]. split; [done|]. split; [lia|].
      rewrite Hval, Hp, Z.pow_add_r by lia. change (2 ^ 6) with 64. lia.
Qed.

Lemma b64_loop_none input : forall out acc bits, mapM b64_val input = None -> b64_loop input out acc bits = None.
Proof.
  induction input as [|c input IH]; intros out acc bits; cbn; [done|]. destruct (b64_val c); [|done]. cbn.
  destruct (mapM b64_val input); [done|]. intros _. case_match; by apply IH.
Qed.

(** The unpadded text [text] stands for [out]: its digits are the bits of [out] and fewer than eight zeroes. *)
Definition stands_for (text out : list Z) : Prop :=
  exists vals bits, mapM b64_val (as_bytes text) = Some vals /\ 0 <= bits < 8 /\ all_bytes out /\
    8 * Z.of_nat (length out) + bits = 6 * Z.of_nat (length vals) /\ val64 vals = be_val out * 2 ^ bits.

Lemma be_val_inj a b : all_bytes a -> all_bytes b -> length a = length b -> be_val a = be_val b -> a = b.
Proof. intros Ha Hb Hl Hv. by rewrite <- (be_bytes_be_val a), <- (be_bytes_be_val b), Hl, Hv. Qed.

Lemma base64url_exact input out : base64url_decode input = Some out <-> stands_for (trim_end_matches (Z.eqb 61) input) out.
Proof.
  unfold base64url_decode, stands_for. set (text := as_bytes _).
  assert (Hmask : forall acc bits, 0 <= bits -> Z.land acc (Z.shiftl 1 bits - 1) = acc mod 2 ^ bits).
  { intros acc bits Hb. rewrite Z.shiftl_1_l, Z.sub_1_r, <- Z.ones_equiv. by apply Z.land_ones. }
  destruct (mapM b64_val text) as [vals|] eqn:Em; [|rewrite b64_loop_none by done; split; [done|by intros (? & ? & ? & _)]].
  destruct (b64_loop_spec text [] 0 0 vals Em) as (out' & acc' & bits' & Hl & Hb & Ho & Hn & Hv); [lia|constructor|].
  rewrite Hl. cbn [mbind option_bind]. rewrite Hmask by lia. apply length_mapM in Em. cbn [length] in Hn.
  change (be_val [] * 2 ^ 0 + 0 mod 2 ^ 0) with 0 in Hv. rewrite Z.mul_0_l, Z.add_0_l in Hv.
  pose proof (Z.mod_pos_bound acc' (2 ^ bits') ltac:(lia)) as Hr. split.
  - destruct (Z.eqb_spec (acc' mod 2 ^ bits') 0); [|done]. intros [= <-]. exists vals, bits'. split_and!; try done; lia.
  - intros (vals' & bits & [= <-] & Hbits & Hout & Hlen & Hval). assert (bits = bits' /\ length out = length out') as [-> Hlo] by lia.
    assert (He : be_val out = be_val out') by (destruct (Z.lt_trichotomy (be_val out) (be_val out')) as [|[|]]; nia).
    assert (Hz : acc' mod 2 ^ bits' = 0) by nia.
    rewrite Hz. cbn [Z.eqb negb]. f_equal. by apply be_val_inj.
Qed.

(** ** Tokens in a header *)

Definition b64_char (v : Z) : Z :=
  if v <? 26 then v + 65 else if v <? 52 then v - 26 + 97 else if v <? 62 then v - 52 + 48 else if v =? 62 then 45 else 95.

(** [n] characters of base64url. *)
Fixpoint b64_text (n : nat) (x : Z) : list Z :=
  match n with O => [] | S n => b64_text n (x / 64) ++ [b64_char (x mod 64)] end.

(** A header that presents [t]: 354 bytes are exactly 472 characters. *)
Definition token_header (t : Token) : list Z :=
  ascii "PrivateToken token=" ++ [34] ++ b64_text 472 (be_val (serialize t)) ++ [34].

Lemma b64_val_char v : 0 <= v < 64 -> b64_val (b64_char v) = Some v.
Proof.
  intros Hv. assert (Hall : forallb (fun v => bool_decide (b64_val (b64_char v) = Some v)) (seqZ 0 64) = true) by (vm_compute; reflexivity).
  rewrite forallb_forall in Hall. apply (bool_decide_unpack _), Is_true_true, Hall, list_elem_of_In, elem_of_seqZ. lia.
Qed.

(** A character of the alphabet is none of the delimiters. *)
Definition b64_safe (c : Z) : Prop :=
  0 <= c < 0x80 /\ is_whitespace c = false /\ c <> 34 /\ c <> 44 /\ c <> 61.

Lemma b64_char_safe v : 0 <= v < 64 -> b64_safe (b64_char v).
Proof.
  intros Hv. assert (Hall : forallb (fun v => let c := b64_char v in
      (0 <=? c) && (c <? 0x80) && negb (is_whitespace c) && negb (c =? 34) && negb (c =? 44) && negb (c =? 61)) (seqZ 0 64) = true)
    by (vm_compute; reflexivity).
  rewrite forallb_forall in Hall. specialize (Hall v). cbn zeta in Hall.
  rewrite !andb_true_iff, !negb_true_iff, !Z.eqb_neq, Z.leb_le, Z.ltb_lt in Hall.
  unfold b64_safe. destruct Hall as (((((H1 & H2) & H3) & H4) & H5) & H6); [|by split_and!].
  apply list_elem_of_In, elem_of_seqZ. lia.
Qed.

Lemma b64_text_safe n : forall x, Forall b64_safe (b64_text n x) /\ length (b64_text n x) = n.
Proof.
  induction n as [|n IH]; intros x; [by split|]. cbn [b64_text]. rewrite length_app. destruct (IH (x / 64)) as [H1 H2].
  split; [|simpl; lia]. apply Forall_app. split; [done|]. apply Forall_singleton, b64_char_safe, Z.mod_pos_bound. lia.
Qed.

Lemma b64_text_vals n : forall x, 0 <= x < 64 ^ Z.of_nat n ->
  exists vals, mapM b64_val (b64_text n x) = Some vals /\ length vals = n /\ val64 vals = x.
Proof.
  induction n as [|n IH]; intros x Hx; [exists []; cbn in *; split_and!; try done; lia|].
  cbn [b64_text]. rewrite Nat2Z.inj_succ, Z.pow_succ_r in Hx by lia.
  destruct (IH (x / 64)) as (vals & Hm & Hl & Hv); [split; [apply Z.div_pos; lia|apply Z.div_lt_upper_bound; lia]|].
  exists (vals ++ [x mod 64]). rewrite mapM_Some in *.
  split_and!; [apply Forall2_app; [done|]; repeat constructor; apply b64_val_char, Z.mod_pos_bound; lia|rewrite length_app; simpl; lia|]. unfold val64 in *. rewrite fold_left_app, Hv. cbn.
  rewrite (Z.div_mod x 64) at 3 by lia. lia.
Qed.

Lemma serialize_length t : token_wf t -> length (serialize t) = TOKEN_LEN.
Proof.
  intros (Hn & Hc & Hk & Ha). unfold serialize, token_input. rewrite !length_app, length_be_bytes, Hn, Hc, Hk, Ha. done.
Qed.

(** The text of a token stands for its bytes. *)
Lemma b64_token t : token_wf t -> all_bytes (serialize t) -> stands_for (b64_text 472 (be_val (serialize t))) (serialize t).
Proof.
  intros Hw Hb. pose proof (serialize_length t Hw) as Hl. destruct (b64_text_safe 472 (be_val (serialize t))) as [Hs Hn].
  unfold stands_for. destruct (as_bytes_ascii (b64_text 472 (be_val (serialize t)))) as [-> _].
  { eapply Forall_impl; [exact Hs|]. by intros c (Hc & _). }
  destruct (b64_text_vals 472 (be_val (serialize t))) as (vals & Hm & Hlv & Hv).
  { pose proof (be_val_bound _ Hb) as Hw'. rewrite Hl in Hw'. change 64 with (2 ^ 6). rewrite <- Z.pow_mul_r by lia. exact Hw'. }
  exists vals, 0. rewrite Hlv, Hl. split_and!; try done. lia.
Qed.

(** A property of every character of a literal. *)
Ltac literal := apply (bool_decide_unpack _); vm_compute; exact I.

Definition blank (s : list Z) : Prop := Forall (fun c => is_whitespace c = true) s.

(** The parameter [p] is [token = w], with blanks around the name and the name in any case. *)
Definition names_token (p w : list Z) : Prop :=
  exists l k r, p = l ++ k ++ r ++ 61 :: w /\ blank l /\ blank r /\ eq_ignore_ascii_case k (ascii "token") = true.

(** The value [w] writes [t]: its base64url text, with any padding and quotes, between blanks. *)
Definition writes_token (w : list Z) (t : Token) : Prop :=
  exists l q text pad q' r, w = l ++ (q ++ (text ++ pad) ++ q') ++ r /\ blank l /\ blank r /\
    Forall (fun c => (34 =? c) = true) q /\ Forall (fun c => (34 =? c) = true) q' /\ Forall (fun c => (61 =? c) = true) pad /\
    stands_for text (serialize t).

(** The header [v] presents [t]: after the scheme, in any case, comes a comma list of parameters, and the
    first of them that is named [token] writes [t]. *)
Definition presents (v : list Z) (t : Token) : Prop :=
  token_wf t /\ exists lead scheme gap before p after w,
    from_utf8 v = Some (lead ++ scheme ++ gap :: separated 44 (before ++ p :: after)) /\
    blank lead /\ is_whitespace gap = true /\ eq_ignore_ascii_case scheme (ascii "PrivateToken") = true /\
    Forall (Forall (fun c => c <> 44)) (before ++ p :: after) /\
    Forall (fun b => forall w, ~ names_token b w) before /\ names_token p w /\ writes_token w t.

(** *** One parameter *)

Definition param_key (p : list Z) : option (list Z) :=
  '(k, v) ← split_once (Z.eqb 61) (trim p);
  if eq_ignore_ascii_case (trim k) (ascii "token") then Some (trim_matches (Z.eqb 34) (trim v)) else None.

Lemma letters_plain s : Forall letter s -> Forall (fun c => is_whitespace c = false) s /\ Forall (fun c => (61 =? c) = false) s.
Proof.
  intros Hs. split; (eapply Forall_impl; [exact Hs|]); intros c Hc; [by apply letter_not_whitespace|].
  apply Z.eqb_neq. unfold letter in Hc. lia.
Qed.

Lemma token_letters k : eq_ignore_ascii_case k (ascii "token") = true -> Forall letter k /\ k <> [].
Proof.
  intros Hk. destruct (eq_ignore_case_letters k (ascii "token") Hk) as [Hl Hn].
  - unfold letter. literal.
  - split; [done|]. by intros ->.
Qed.

Lemma blank_no_equals s : blank s -> Forall (fun c => (61 =? c) = false) s.
Proof. intros Hs. eapply Forall_impl; [exact Hs|]. intros c Hc. apply Z.eqb_neq. by intros <-. Qed.

Lemma param_named p w : names_token p w -> param_key p = Some (trim_matches (Z.eqb 34) (trim w)).
Proof.
  intros (l & k & r & -> & Hl & Hr & Hk). destruct (token_letters k Hk) as [Hlet Hne]. destruct (letters_plain k Hlet) as [Hw He].
  unfold param_key, trim. assert (Ht : trim_matches is_whitespace (l ++ k ++ r ++ 61 :: w) = k ++ r ++ 61 :: trim_end_matches is_whitespace w).
  { unfold trim_matches. rewrite trim_start_all by done. rewrite trim_start_stays.
    - replace (k ++ r ++ 61 :: w) with ((k ++ r ++ [61]) ++ w) by (by rewrite <- !app_assoc).
      rewrite trim_end_stays; [by rewrite <- !app_assoc| |by destruct k]. intros c. rewrite app_assoc, last_snoc. by intros [= <-].
    - destruct k as [|d k]; [done|]. apply Forall_cons in Hw as [Hd _]. by intros c [= <-]. }
  rewrite Ht, app_assoc, split_once_at; [|by apply Forall_app; split; [done|apply blank_no_equals]|done].
  cbn [mbind option_bind]. pose proof (trim_inner is_whitespace [] k r ltac:(constructor) Hr Hw) as Hkr. cbn [app] in Hkr. rewrite Hkr, Hk.
  destruct (trim_end_spec is_whitespace w) as (post & Hp & Hb). rewrite Hp at 2. by rewrite trim_app_all.
Qed.

Lemma param_key_some p key : param_key p = Some key -> exists w, names_token p w /\ key = trim_matches (Z.eqb 34) (trim w).
Proof.
  unfold param_key, trim. destruct (trim_spec is_whitespace p) as (l & r & Hp & Hl & Hr).
  destruct (split_once _ _) as [[a v]|] eqn:Es; [|done]. cbn [mbind option_bind].
  apply split_once_some in Es as (_ & c & <-%Z.eqb_eq & Ht). destruct (eq_ignore_ascii_case _ _) eqn:Ek; [|done]. intros [= <-].
  destruct (trim_spec is_whitespace a) as (la & ra & Ha & Hla & Hra). exists (v ++ r). split; [|by rewrite trim_app_all].
  exists (l ++ la), (trim_matches is_whitespace a), ra. split; [|split_and!; [by apply Forall_app|done..]].
  rewrite Hp at 1. rewrite Ht. rewrite Ha at 1. by rewrite <- !app_assoc.
Qed.

Lemma param_unnamed p : param_key p = None <-> forall w, ~ names_token p w.
Proof.
  split; [by intros Hn w Hw%param_named; congruence|]. intros Hn. destruct (param_key p) eqn:E; [|done].
  apply param_key_some in E as (w & Hw & _). by destruct (Hn w).
Qed.

(** *** Its value *)

(** Text of the alphabet holds no delimiter. *)
Lemma b64_plain text vals : mapM b64_val (as_bytes text) = Some vals ->
  Forall (fun c => is_whitespace c = false /\ (34 =? c) = false /\ (61 =? c) = false) text.
Proof.
  intros Hm%mapM_Some. apply Forall_forall. intros c Hc.
  assert (Hall : Forall (fun b => is_Some (b64_val b)) (utf8_char c)).
  { apply list_elem_of_split in Hc as (l1 & l2 & ->). unfold as_bytes in Hm. rewrite bind_app, bind_cons in Hm.
    apply (Forall2_Forall_l _ (fun b => is_Some (b64_val b))) in Hm; [by rewrite !Forall_app in Hm; destruct Hm as (_ & ? & _)|].
    apply Forall_forall. intros v _ b Hb. by eexists. }
  assert (Hhigh : forall d, 0 <= d -> ~ is_Some (b64_val (0x80 + d))).
  { intros d Hd [v Hv]. unfold b64_val in Hv. repeat (case_match; rewrite ?andb_true_iff, ?Z.leb_le, ?Z.eqb_eq in *; [lia|]). done. }
  pose proof (Z.mod_pos_bound c 64 ltac:(lia)) as Hmod.
  unfold utf8_char in Hall. repeat case_match; rewrite ?Forall_cons in Hall; try (exfalso; apply (Hhigh (c mod 64)); [lia|tauto]).
  destruct Hall as [[v Hv] _]. pose proof (b64_val_bound _ _ Hv) as Hb.
  assert (c = b64_char v) as ->; [|destruct (b64_char_safe v Hb) as (_ & H1 & H2 & _ & H3); split_and!; [done|apply Z.eqb_neq; congruence..]].
  revert Hv. unfold b64_val, b64_char.
  repeat (case_match; rewrite ?andb_true_iff, ?andb_false_iff, ?Z.leb_le, ?Z.leb_gt, ?Z.ltb_lt, ?Z.ltb_ge, ?Z.eqb_eq, ?Z.eqb_neq in *; try (intros [= <-]; lia)); try done; lia.
Qed.

Definition key_token (key : list Z) : option Token :=
  bytes ← base64url_decode key;
  if negb (length bytes =? TOKEN_LEN)%nat then None else match parse bytes with Ok t => Some t | Err _ => None end.

Lemma key_token_some key t : key_token key = Some t <-> token_wf t /\ stands_for (trim_end_matches (Z.eqb 61) key) (serialize t).
Proof.
  unfold key_token. rewrite <- base64url_exact. split.
  - destruct (base64url_decode key) as [bytes|] eqn:Ed; [|done]. cbn [mbind option_bind]. case_match; [done|].
    destruct (parse bytes) as [t'|] eqn:Ep; [|done]. intros [= <-]. apply base64url_exact in Ed. destruct Ed as (vals & bits & Hst).
    apply parse_ok in Ep as [Hw He]; [|by apply Hst]. by rewrite He.
  - intros [Hw ->]. cbn [mbind option_bind]. rewrite (serialize_length t Hw), Nat.eqb_refl. cbn [negb]. by rewrite parse_serialize.
Qed.

Lemma value_token w t : key_token (trim_matches (Z.eqb 34) (trim w)) = Some t <-> token_wf t /\ writes_token w t.
Proof.
  rewrite key_token_some. split.
  - intros [Hw Hst]. split; [done|]. destruct (trim_spec is_whitespace w) as (l & r & Hl & Hbl & Hbr). fold (trim w) in Hl.
    destruct (trim_spec (Z.eqb 34) (trim w)) as (q & q' & Hq & Hbq & Hbq').
    destruct (trim_end_spec (Z.eqb 61) (trim_matches (Z.eqb 34) (trim w))) as (pad & Hp & Hbp).
    eexists l, q, _, pad, q', r. split; [rewrite <- Hp, <- Hq; exact Hl|done].
  - intros [Hw (l & q & text & pad & q' & r & -> & Hl & Hr & Hq & Hq' & Hpad & Hst)]. split; [done|].
    pose proof Hst as (vals & bits & Hm & Hb & _ & Hlen & _). pose proof (b64_plain text vals Hm) as Hplain.
    assert (Hne : text <> []).
    { intros ->. injection Hm as <-. rewrite (serialize_length t Hw) in Hlen. unfold TOKEN_LEN in Hlen. cbn in Hlen. lia. }
    assert (Heq : forall (d : Z) s, Forall (fun c => (d =? c) = true) s -> Forall (fun c => c = d) s)
      by (intros d s Hs; eapply Forall_impl; [exact Hs|]; by intros c ->%Z.eqb_eq).
    unfold trim. rewrite trim_inner; [|done|done|].
    2:{ repeat (apply Forall_app; split); [apply Heq in Hq|..|apply Heq in Hq']; [eapply Forall_impl; [exact Hq|]; by intros c ->| | |eapply Forall_impl; [exact Hq'|]; by intros c ->].
        - eapply Forall_impl; [exact Hplain|]. by intros c (H & _).
        - apply Heq in Hpad. eapply Forall_impl; [exact Hpad|]. by intros c ->. }
    rewrite trim_inner; [|done|done|].
    2:{ apply Forall_app. split; [eapply Forall_impl; [exact Hplain|]; by intros c (_ & H & _)|].
        apply Heq in Hpad. eapply Forall_impl; [exact Hpad|]. by intros c ->. }
    rewrite trim_end_all by done. rewrite <- (app_nil_r text), trim_end_stays; [by rewrite app_nil_r| |done].
    intros c Hc. apply last_Some_elem_of in Hc. rewrite Forall_forall in Hplain. by apply Hplain.
Qed.

(** *** The header *)

Lemma presents_exact v t : parse_private_token_header v = Some t <-> presents v t.
Proof.
  unfold parse_private_token_header, presents. fold param_key. destruct (from_utf8 v) as [text|]; cbn [mbind option_bind].
  2:{ split; [done|]. by intros (_ & ? & ? & ? & ? & ? & ? & ? & ? & _). }
  split.
  - destruct (split_once _ _) as [[scheme params]|] eqn:Es; [|done]. cbn [mbind option_bind].
    destruct (eq_ignore_ascii_case scheme _) eqn:Ek; [|done]. cbn [negb].
    destruct (find_map _ _) as [key|] eqn:Ef; [|done]. cbn [mbind option_bind]. fold (key_token key). intros Ht.
    apply find_map_some in Ef as (before & p & after & Hsp & Hb & Hp). fold param_key in Hb, Hp.
    apply param_key_some in Hp as (w & Hn & ->). apply value_token in Ht as [Hw Hwr]. split; [done|].
    apply split_once_some in Es as (_ & gap & Hgap & Ht). destruct (trim_start_spec is_whitespace text) as (lead & Hlead & Hbl).
    destruct (separated_split 44 params) as (Hsep & Hcomma & _). rewrite Hsp in Hsep, Hcomma.
    exists lead, scheme, gap, before, p, after, w. rewrite Hsep. fold (trim_start text) in Hlead.
    split; [by rewrite <- Ht, <- Hlead|]. split_and!; try done. eapply Forall_impl; [exact Hb|]. intros b. apply param_unnamed.
  - intros (Hw & lead & scheme & gap & before & p & after & w & [= ->] & Hlead & Hgap & Hk & Hcomma & Hb & Hn & Hwr).
    destruct (eq_ignore_case_letters scheme (ascii "PrivateToken") Hk) as [Hlet Hlen].
    { unfold letter. literal. }
    destruct (letters_plain scheme Hlet) as [Hns _]. unfold trim_start. rewrite trim_start_all by done. rewrite trim_start_stays.
    2:{ destruct scheme as [|d scheme]; [done|]. apply Forall_cons in Hns as [Hd _]. by intros c [= <-]. }
    rewrite split_once_at by done. cbn [mbind option_bind]. rewrite Hk. cbn [negb]. rewrite split_separated; [|done|by destruct before].
    rewrite (proj2 (find_map_some param_key _ (trim_matches (Z.eqb 34) (trim w)))).
    + cbn [mbind option_bind]. by apply value_token.
    + exists before, p, after. split; [done|]. split; [|by apply param_named]. eapply Forall_impl; [exact Hb|]. intros b. apply param_unnamed.
Qed.

(** Every token has a header that presents it. *)
Lemma token_header_presents t : token_wf t -> all_bytes (serialize t) -> presents (token_header t) t.
Proof.
  intros Hw Hb. split; [done|]. destruct (b64_text_safe 472 (be_val (serialize t))) as [Hs _]. unfold token_header.
  set (text := b64_text _ _) in *. set (w := [34] ++ text ++ [34]).
  assert (Hv : forall P : Z -> Prop, P 34 -> (forall c, b64_safe c -> P c) -> Forall P w).
  { intros P H34 HP. apply Forall_cons. split; [done|]. apply Forall_app. split; [by eapply Forall_impl|by repeat constructor]. }
  exists [], (ascii "PrivateToken"), 32, [], (ascii "token" ++ 61 :: w), [], w.
  split; [|do 3 (split; [done || apply Forall_nil_2|]); split; [|split; [constructor|split]]].
  - assert (Hall : Forall (fun c => 0 <= c < 0x80) (ascii "PrivateToken token=" ++ w)).
    { apply Forall_app. split; [literal|]. apply Hv; [lia|]. by intros c (Hc & _). }
    destruct (as_bytes_ascii _ Hall) as [Ha Hsc]. rewrite <- Ha. by rewrite from_utf8_as_bytes.
  - constructor; [|done]. apply Forall_app. split; [literal|]. constructor; [done|]. apply Hv; [done|]. by intros c (_ & _ & _ & H44 & _).
  - exists [], (ascii "token"), []. split; [done|]. do 2 (split; [apply Forall_nil_2|]). done.
  - exists [], [34], text, [], [34], []. split; [by rewrite !app_nil_r|]. do 2 (split; [apply Forall_nil_2|]).
    do 2 (split; [by repeat constructor|]). split; [apply Forall_nil_2|]. by apply b64_token.
Qed.

(** ** Requests *)

Definition field_bytes (f : Field) : Prop := all_bytes (name f) /\ all_bytes (value f).

Lemma write_int_bytes flags p v : is_byte flags -> 0 <= v -> all_bytes (write_prefixed_int flags p v).
Proof.
  intros Hf Hv. assert (Hloop : forall fuel r, all_bytes (write_int_loop fuel r)).
  { induction fuel as [|fuel IH]; intros r; cbn [write_int_loop]; [constructor|]. case_match; (constructor; [|apply IH || constructor]).
    - apply in_width_lor; [lia| |done]. change 0x7f with (Z.ones 7). rewrite Z.land_ones by lia.
      unfold in_width. pose proof (Z.mod_pos_bound (wrap 8 r) (2 ^ 7) ltac:(lia)). change (2 ^ 7) with 128 in *. change (2 ^ 8) with 256. lia.
    - by apply wrap_in_width. }
  unfold write_prefixed_int. case_match; (constructor; [apply in_width_lor; [lia|done|by apply wrap_in_width]|]); [constructor|apply Hloop].
Qed.

Lemma encode_section_bytes fields : Forall field_bytes fields -> all_bytes (encode_field_section fields).
Proof.
  intros Hf. unfold encode_field_section. apply Forall_app. split; [by repeat constructor|].
  induction Hf as [|f fields [Hn Hv] _ IH]; [constructor|]. cbn [mbind list_bind]. apply Forall_app. split; [|done].
  assert (Hs : all_bytes (write_string (value f))) by (apply Forall_app; split; [apply write_int_bytes; [done|lia]|done]).
  unfold encode_line. destruct (find _ _) as [[[i n] v]|] eqn:E.
  - apply write_int_bytes; [done|]. by apply find_some in E as [[_ [Hi _]]%static_table_entry _].
  - clear E. destruct (find _ _) as [[[i n] v]|] eqn:E.
    + apply Forall_app. split; [|done]. apply write_int_bytes; [done|]. by apply find_some in E as [[_ [Hi _]]%static_table_entry _].
    + apply Forall_app. split; [apply write_int_bytes; [done|lia]|]. by apply Forall_app.
Qed.

Lemma classify_returns section : is_Some (classify_request section) /\ is_Some (classify_proxy_request section).
Proof. unfold classify_request, classify_proxy_request. destruct (decode_returns section) as [r ->]. split; by eexists. Qed.

(** The extended CONNECT of a browser, and nothing else, is a WebTransport request. *)
Definition extended_connect (fields : list Field) : Prop :=
  header fields (ascii ":method") = Some (ascii "CONNECT") /\ header fields (ascii ":protocol") = Some (ascii "webtransport").

Lemma classify_fields_spec fields : 
  (classify_fields fields <> OtherHttp3 <-> extended_connect fields) /\
  (extended_connect fields -> classify_proxy_fields fields = OtherRequest).
Proof.
  unfold classify_fields, classify_proxy_fields, is_request, extended_connect. split.
  - do 2 case_bool_decide; cbn [andb negb]; split; done || tauto.
  - intros [-> ->]. rewrite bool_decide_true by done. cbn [negb]. by rewrite bool_decide_false.
Qed.

(** A decoded section as the two classifiers see it. *)
Lemma classify_decoded section fields : decode_field_section section = Some (Ok fields) ->
  classify_request section = Some (Ok (classify_fields fields)) /\
  classify_proxy_request section = Some (Ok (classify_proxy_fields fields)).
Proof. intros Hd. unfold classify_request, classify_proxy_request. by rewrite Hd. Qed.

Lemma classify_token fields : extended_connect fields -> exists a p token, classify_fields fields = WebTransport (mkWebTransport a p token) /\
  forall t, token = Some t <-> exists v, header fields (ascii "authorization") = Some v /\ presents v t.
Proof.
  intros [Hm Hp]. unfold classify_fields, is_request. rewrite Hm, Hp, !bool_decide_true by done. cbn [andb negb].
  eexists _, _, _. split; [done|]. intros t. destruct (header fields (ascii "authorization")) as [v|]; cbn [mbind option_bind].
  - rewrite presents_exact. split; [by exists v|]. by intros (v' & [= <-] & Hv).
  - split; [done|]. by intros (v & ? & _).
Qed.


(** A request that presents a token of ones.  The header has another parameter before the token, its names in
    other cases, blanks around and no quotes; its field is Huffman coded and never to be indexed. *)
Definition sample_token : Token := mkToken (replicate 32 1) (replicate 32 1) (replicate 32 1) (replicate 256 1).
Definition sample_text : list Z := b64_text 472 (be_val (serialize sample_token)).
Definition sample_header : list Z := ascii "privatetoken realm=a , TOKEN = " ++ sample_text ++ ascii "== ".
Definition sample_request : list Field :=
  [mkField (ascii ":method") (ascii "CONNECT"); mkField (ascii ":protocol") (ascii "webtransport");
   mkField (ascii "authorization") sample_header].
Definition sample_lines : list (list Z) :=
  [write_prefixed_int 0xc0 6 15; spell_string 0x20 3 true (ascii ":protocol") ++ spell_string 0x00 7 false (ascii "webtransport");
   write_prefixed_int 0x70 4 84 ++ spell_string 0x00 7 true sample_header].
Definition sample_section : list Z := [0x00; 0x00] ++ concat sample_lines.

Lemma sample_spelled : spelled sample_request sample_section.
Proof.
  exists false, 0, sample_lines. split; [lia|]. split; [|by vm_compute].
  constructor; [by apply (spells_indexed 15)|]. constructor; [|constructor; [|constructor]].
  - apply (spells_literal _ _ false true false); (split; [by vm_compute|done || (intros _; literal)]).
  - apply (spells_referred 84 _ [] _ true true); [done|]. split; [by vm_compute|intros _; literal].
Qed.

Lemma sample_presents : presents sample_header sample_token.
Proof.
  split; [done|]. exists [], (ascii "privatetoken"), 32, [ascii "realm=a "], (ascii " TOKEN = " ++ sample_text ++ ascii "== "), [],
    (32 :: sample_text ++ ascii "== ").
  split; [by vm_compute|]. split; [constructor|]. split; [done|]. split; [done|]. split; [literal|]. split; [|split].
  - constructor; [|done]. apply param_unnamed. by vm_compute.
  - exists [32], (ascii "TOKEN"), [32]. split; [done|]. split; [by constructor|]. split; [by constructor|done].
  - exists [32], [], sample_text, (ascii "=="), [], [32]. split; [done|]. do 2 (split; [by constructor|]). do 2 (split; [constructor|]).
    split; [by repeat constructor|]. apply b64_token; [done|literal].
Qed.

Lemma sample_extended : extended_connect sample_request /\ header sample_request (ascii "authorization") = Some sample_header.
Proof. split; [split|]; by vm_compute. Qed.


(** ** Proxy targets *)

(** *** The escapes a client writes *)

Definition hex_char (d : Z) : Z := if d <? 10 then 48 + d else 55 + d.
Definition percent_byte (b : Z) : list Z :=
  if is_ascii_alphanumeric b || (b =? 45) || (b =? 46) then [b] else [37; hex_char (b / 16); hex_char (b mod 16)].
Definition percent_encode (host : list Z) : list Z := as_bytes host ≫= percent_byte.

Lemma percent_byte_spec b : is_byte b ->
  (forall rest, percent_decode_bytes (percent_byte b ++ rest) = out ← percent_decode_bytes rest; Some (b :: out)) /\
  Forall (fun c => 0 <= c < 0x80 /\ c <> 47 /\ c <> 63) (percent_byte b) /\ percent_byte b <> [].
Proof.
  intros Hb. set (ok := fun b => let e := percent_byte b in
    forallb (fun c => (0 <=? c) && (c <? 0x80) && negb (c =? 47) && negb (c =? 63)) e &&
    match e with
    | [c] => (c =? b) && negb (c =? 37)
    | [c; h1; h2] => (c =? 37) && bool_decide (from_utf8 [h1; h2] ≫= (fun t => from_str_radix 16 u8_max (as_bytes t)) = Some b)
    | _ => false
    end).
  assert (Hall : forallb ok (seqZ 0 256) = true) by (vm_compute; reflexivity).
  rewrite forallb_forall in Hall. specialize (Hall b). unfold ok in Hall. cbn zeta in Hall.
  rewrite andb_true_iff, forallb_forall in Hall. destruct Hall as [Hcs Hm].
  { apply list_elem_of_In, elem_of_seqZ. unfold is_byte, in_width in Hb. change (2 ^ 8) with 256 in Hb. lia. }
  split; [|split; [|by intros He; rewrite He in Hm]].
  - intros rest. destruct (percent_byte b) as [|c [|h1 [|h2 [|]]]]; try done; rewrite andb_true_iff in Hm; destruct Hm as [Hc Hr].
    + apply Z.eqb_eq in Hc as ->. apply negb_true_iff in Hr. cbn [app percent_decode_bytes]. by rewrite Hr.
    + apply bool_decide_eq_true in Hr. cbn [app percent_decode_bytes]. rewrite Hc.
      destruct (from_utf8 [h1; h2]) as [t|]; [|done]. cbn [mbind option_bind] in *. by rewrite Hr.
  - apply Forall_forall. intros c Hc%list_elem_of_In%Hcs. rewrite !andb_true_iff, !negb_true_iff, !Z.eqb_neq, Z.leb_le, Z.ltb_lt in Hc. tauto.
Qed.

Lemma percent_bytes_roundtrip bs : all_bytes bs ->
  percent_decode_bytes (bs ≫= percent_byte) = Some bs /\ Forall (fun c => 0 <= c < 0x80 /\ c <> 47 /\ c <> 63) (bs ≫= percent_byte).
Proof.
  induction 1 as [|b bs Hb _ [IH1 IH2]]; [by split|]. rewrite bind_cons. destruct (percent_byte_spec b Hb) as (H1 & H2 & _).
  split; [|by apply Forall_app]. by rewrite H1, IH1.
Qed.

Lemma percent_roundtrip host : Forall (fun c => is_scalar c = true) host ->
  percent_decode (percent_encode host) = Some host /\ Forall (fun c => 0 <= c < 0x80 /\ c <> 47 /\ c <> 63) (percent_encode host) /\
  (host <> [] -> percent_encode host <> []).
Proof.
  intros Hs. pose proof (as_bytes_bytes host Hs) as Hb. destruct (percent_bytes_roundtrip _ Hb) as [H1 H2].
  split; [|split; [done|]].
  - unfold percent_decode. destruct (as_bytes_ascii (percent_encode host)) as [-> _].
    { eapply Forall_impl; [exact H2|]. cbn. tauto. }
    unfold percent_encode. rewrite H1. cbn [mbind option_bind]. by apply from_utf8_as_bytes.
  - intros Hne He. unfold percent_encode in He. rewrite He in H1. injection H1 as H1. apply Hne.
    pose proof (from_utf8_as_bytes host Hs) as Hf. rewrite <- H1 in Hf. by injection Hf.
Qed.

(** A host the proxy resolves: text of 1 to 255 bytes, none of them a refused one. *)
Definition host_ok (host : list Z) : Prop :=
  host <> [] /\ Z.of_nat (length (as_bytes host)) <= 255 /\ Forall (fun b => refused_byte b = false) (as_bytes host).

Lemma existsb_Forall (f : Z -> bool) l : existsb f l = false <-> Forall (fun b => f b = false) l.
Proof.
  induction l as [|b l IH]; [done|]. cbn [existsb]. rewrite orb_false_iff, Forall_cons. tauto.
Qed.

Lemma target_sound path t : parse_connect_udp_target path = Some t ->
  host_ok (host t) /\ 0 < port t <= u16_max /\
  forall c, credential t = Some c -> c <> [] /\ Forall (fun b => credential_byte b = true) c.
Proof.
  unfold parse_connect_udp_target. destruct (match split_once _ path with Some _ => _ | None => _ end) as [p query].
  destruct (strip_prefix _ _) as [rest|]; [|done]. cbn [mbind option_bind].
  destruct (split_once _ _) as [[h prt]|]; [|done]. cbn [mbind option_bind]. case_match; [done|].
  destruct (from_str_radix _ _ _) as [n|] eqn:En; [|done]. cbn [mbind option_bind]. destruct (Z.eqb_spec n 0) as [|Hn]; [done|].
  destruct (percent_decode h) as [hst|]; [|done]. cbn [mbind option_bind].
  destruct (bool_decide (hst = []) || _ || _) eqn:Eh; [done|]. apply orb_false_iff in Eh as [[Hne Hlen]%orb_false_iff Hbad].
  intros [= <-]. cbn [host port credential]. split; [|split].
  - apply bool_decide_eq_false in Hne. apply Z.ltb_ge in Hlen. by rewrite existsb_Forall in Hbad.
  - apply from_str_radix_bound in En; [lia|done|done].
  - intros c. destruct (find_map _ _) as [v|]; [|done]. cbn [mbind option_bind]. destruct (bool_decide_reflect (v = [])) as [|Hv]; [done|].
    cbn [negb andb]. destruct (forallb _ _) eqn:Ef; [|done]. intros [= <-]. split.
    + intros He. apply Hv. destruct v as [|d v]; [done|]. unfold as_bytes in He. rewrite bind_cons in He.
      apply app_nil in He as [He _]. unfold utf8_char in He. repeat case_match; done.
    + apply Forall_forall. intros b Hb. rewrite forallb_forall in Ef. apply Ef. by apply list_elem_of_In.
Qed.

(** The path a client expands the template to. *)
Definition template_path (host : list Z) (port : Z) (credential : option (list Z)) : list Z :=
  (CONNECT_UDP_PATH_PREFIX ++ percent_encode host ++ [47] ++ decimal 5 port ++ [47]) ++
  from_option (fun c => 63 :: CONNECT_UDP_CREDENTIAL_PARAM ++ [61] ++ c) [] credential.

Lemma credential_ascii c : Forall (fun b => credential_byte b = true) c -> Forall (fun b => 0 <= b < 0x80 /\ b <> 38) c.
Proof.
  intros Hc. eapply Forall_impl; [exact Hc|]. intros b. cbv beta. unfold credential_byte, is_ascii_alphanumeric.
  rewrite !orb_true_iff, !andb_true_iff, !Z.leb_le, !Z.eqb_eq. lia.
Qed.

(** The credential of a query that holds just that. *)
Lemma query_credential c : c <> [] -> Forall (fun b => credential_byte b = true) c ->
  (v ← find_map (fun pair => r ← strip_prefix CONNECT_UDP_CREDENTIAL_PARAM pair; strip_prefix [61] r)
         (split 38 (CONNECT_UDP_CREDENTIAL_PARAM ++ [61] ++ c));
   if negb (bool_decide (v = [])) && forallb credential_byte (as_bytes v) then Some (as_bytes v) else None) = Some c.
Proof.
  intros Hne Hc. pose proof (credential_ascii c Hc) as Ha. rewrite split_single.
  2:{ apply Forall_app. split; [literal|]. apply Forall_cons. split; [done|]. eapply Forall_impl; [exact Ha|]. by intros b [_ Hb]. }
  cbn [find_map]. rewrite strip_prefix_app. cbn [mbind option_bind]. rewrite strip_prefix_app. cbn [mbind option_bind].
  rewrite bool_decide_false by done. cbn [negb andb]. destruct (as_bytes_ascii c) as [-> _].
  { eapply Forall_impl; [exact Ha|]. by intros b [Hb _]. }
  assert (Hall : forallb credential_byte c = true) by (apply forallb_forall; rewrite Forall_forall in Hc; intros b Hb; apply Hc; by apply list_elem_of_In).
  by rewrite Hall.
Qed.

Lemma template_parses h p c :
  host_ok h -> Forall (fun c => is_scalar c = true) h -> 0 < p <= u16_max ->
  (forall v, c = Some v -> v <> [] /\ Forall (fun b => credential_byte b = true) v) ->
  parse_connect_udp_target (template_path h p c) = Some (mkTarget h p c).
Proof.
  intros (Hne & Hlen & Hbad) Hs Hp Hc. destruct (percent_roundtrip h Hs) as (Hdec & Hsafe & Henc). specialize (Henc Hne).
  destruct (port_parses p) as (Hport & Hdig & Hpne); [lia|].
  assert (Hpasc : as_bytes (decimal 5 p) = decimal 5 p).
  { apply as_bytes_ascii. eapply Forall_impl; [exact Hdig|]. cbn. lia. }
  assert (Hq : Forall (fun d => Z.eqb 63 d = false) (CONNECT_UDP_PATH_PREFIX ++ percent_encode h ++ [47] ++ decimal 5 p ++ [47])).
  { repeat (apply Forall_app; split); [literal|..|by repeat constructor].
    - eapply Forall_impl; [exact Hsafe|]. intros d (_ & _ & Hd). apply Z.eqb_neq. congruence.
    - by repeat constructor.
    - eapply Forall_impl; [exact Hdig|]. intros d Hd. apply Z.eqb_neq. cbv beta in Hd. lia. }
  assert (Hsplit : match split_once (Z.eqb 63) (template_path h p c) with
            | Some (a, q) => (a, Some q) | None => (template_path h p c, None) end =
            (CONNECT_UDP_PATH_PREFIX ++ percent_encode h ++ [47] ++ decimal 5 p ++ [47],
             (fun c => CONNECT_UDP_CREDENTIAL_PARAM ++ [61] ++ c) <$> c)).
  { unfold template_path. destruct c as [c|]; cbn [from_option fmap option_fmap option_map].
    - by rewrite split_once_at.
    - rewrite app_nil_r. by rewrite split_once_none. }
  unfold parse_connect_udp_target. rewrite Hsplit, strip_prefix_app. cbn [mbind option_bind].
  rewrite !app_assoc, strip_suffix_snoc. cbn [from_option id]. rewrite <- app_assoc. cbn [app].
  rewrite split_once_at; [|eapply Forall_impl; [exact Hsafe|]; intros d (_ & Hd & _); apply Z.eqb_neq; congruence|done].
  cbn [mbind option_bind]. rewrite !bool_decide_false by done. cbn [orb].
  rewrite (proj2 (existsb_Forall _ _)) by (eapply Forall_impl; [exact Hdig|]; intros d Hd; apply Z.eqb_neq; cbv beta in Hd; lia).
  rewrite Hpasc, Hport. cbn [mbind option_bind]. rewrite (proj2 (Z.eqb_neq p 0)) by lia. rewrite Hdec. cbn [mbind option_bind].
  rewrite bool_decide_false by done. rewrite (proj2 (Z.ltb_ge 255 _)) by lia. rewrite (proj2 (existsb_Forall _ _) Hbad). cbn [orb].
  f_equal. f_equal. destruct c as [c|]; [|done]. destruct (Hc c eq_refl) as [Hcne Hcb]. by apply query_credential.
Qed.

(** ** Responses read back *)

Lemma response_reads_back status fields frame rest :
  0 <= status <= u16_max -> Forall writable fields -> Forall field_bytes fields -> all_bytes rest ->
  encode_response_headers status fields = Some frame ->
  exists section, read_frame (frame ++ rest) = Some (mkH3Frame FRAME_HEADERS section, length frame) /\
    decode_field_section section = Some (Ok (mkField (ascii ":status") (decimal 5 status) :: fields)).
Proof.
  intros Hs Hw Hb Hr He. destruct (port_parses status Hs) as (_ & Hd & _).
  eexists. split.
  - eapply read_frame_encode; [done| |done|exact He]. apply encode_section_bytes. constructor; [|done]. split; [literal|].
    eapply Forall_impl; [exact Hd|]. intros d Hdig. cbv beta in Hdig. unfold is_byte, in_width. change (2 ^ 8) with 256. lia.
  - apply section_roundtrip. constructor; [|done]. split; [done|].
    assert (Hl : forall fuel n, (length (decimal fuel n) <= fuel)%nat).
    { induction fuel as [|fuel IH]; intros n; cbn [decimal]; [done|]. case_match; [simpl; lia|]. rewrite length_app. specialize (IH (n / 10)). simpl. lia. }
    specialize (Hl 5%nat status). cbn [value]. lia.
Qed.

(** The accept of a WebTransport session is the answer that opens a tunnel. *)
Lemma accept_is_established : webtransport_accept_response = connect_established_response.
Proof. by vm_compute. Qed.

(** C36.  Proxy targets and answers.  A path that parses names a host of 1 to 255 bytes without a control,
    a space, a slash, an at sign, a backslash or a delete, a port from 1 to 65535 and, if any, a credential of
    base64url characters.  The path a client expands the template to, its host escaped byte by byte, parses to
    that host, port and credential.  An answer reads back as its status and its fields, whatever follows it. *)
Theorem proxy_targets_exact :
  (forall path t, parse_connect_udp_target path = Some t ->
     host_ok (host t) /\ 0 < port t <= u16_max /\
     forall c, credential t = Some c -> c <> [] /\ Forall (fun b => credential_byte b = true) c) /\
  (forall h p c, host_ok h -> Forall (fun c => is_scalar c = true) h -> 0 < p <= u16_max ->
     (forall v, c = Some v -> v <> [] /\ Forall (fun b => credential_byte b = true) v) ->
     parse_connect_udp_target (template_path h p c) = Some (mkTarget h p c)) /\
  (forall status fields frame rest,
     0 <= status <= u16_max -> Forall writable fields -> Forall field_bytes fields -> all_bytes rest ->
     encode_response_headers status fields = Some frame ->
     exists section, read_frame (frame ++ rest) = Some (mkH3Frame FRAME_HEADERS section, length frame) /\
       decode_field_section section = Some (Ok (mkField (ascii ":status") (decimal 5 status) :: fields))).
Proof. split; [exact target_sound|]. split; [exact template_parses|exact response_reads_back]. Qed.

(** An IPv6 literal with its colons escaped, and a credential. *)
Lemma proxy_targets_exact_witness :
  template_path (ascii "2001:db8::1") 443 (Some (ascii "abc_-")) =
    ascii "/.well-known/masque/udp/2001%3Adb8%3A%3A1/443/?credential=abc_-" /\
  parse_connect_udp_target (template_path (ascii "2001:db8::1") 443 (Some (ascii "abc_-"))) =
    Some (mkTarget (ascii "2001:db8::1") 443 (Some (ascii "abc_-"))).
Proof.
  split; [by vm_compute|]. apply (proj1 (proj2 proxy_targets_exact)); [|literal|by vm_compute|].
  - split; [done|]. split; [by vm_compute|literal].
  - intros v [= <-]. split; [done|literal].
Defined.

(** ** What the parsers let through *)

(** A lone character, which no whole byte encodes to, decodes when its value is zero: the text of a byte string is not unique. *)
Lemma impossible_length_decodes : base64url_decode (ascii "A") = Some [] /\ base64url_decode (ascii "AQIDA") = base64url_decode (ascii "AQID").
Proof. by vm_compute. Qed.

(** A sign passes for a hexadecimal digit of an escape, and before a port. *)
Lemma signed_escape_decodes :
  percent_decode (ascii "%+F") = Some [15] /\
  parse_connect_udp_target (ascii "/.well-known/masque/udp/a/+443/") = Some (mkTarget (ascii "a") 443 None).
Proof. by vm_compute. Qed.
